(* ===== verification/_CoqProject ===== *)
-Q . S2P
Prelude.v
Strs.v
Serde.v
Regex.v
Time.v
Errors.v
Config.v
Ext.v
Resources.v
Wire.v
WireFacts.v
ConfigDocument.v
World.v
Jobs.v
JobsFacts.v
Cache.v
SecretsSystem.v
Statics.v
Action.v
GitRepo.v
Trigger.v
Crds.v
TriggerFacts.v
SourceFacts.v
TaskFacts.v
TriggerExamples.v
RateLimit.v
Cli.v
Metrics.v
Web.v
WebExamples.v
WebServer.v
JobsSystem.v
JobsLiveness.v
JobsProgress.v
Cloner.v
EndToEnd.v
TaskComplete.v
Controller.v
System.v
SystemFacts.v
SystemExamples.v
SystemLiveness.v
SystemRun.v
Runner.v
Tracing.v
Main.v
