(* ===== verification/Prelude.v ===== *)
(** * git-events-runner: a verification library (root file)

    git-events-runner is a Kubernetes operator in Rust (src/src/).  Triggers
    (custom resources) name git repositories, what to watch in them, and an
    action; when a scheduled or requested check finds a change, the action
    becomes a Kubernetes Job that clones the repository and works on it.
    This library models that program and proves what makes it correct.

    ** The parts of the program and how they interact

    - The process ([git-events-runner.rs] [run]) starts detached tasks for the
      runtime configuration, the resource caches and the jobs queue, two web
      servers, and, while it holds the leader lease, the leader's controllers.
    - The leader's controllers ([controller.rs]) reconcile each
      [ScheduleTrigger] through a finalizer; [reconcile] keeps one task per
      trigger in the scheduler of the sacs crate.
    - The hooks server ([web.rs]) authorizes webhook requests and posts one
      task per accepted request to a scheduler of its own.
    - A task ([trigger.rs]) reads the trigger from the cache, fetches each
      source ([git_repo.rs]), compares commit and file hashes with the
      published status, and executes the action ([action.rs]), which puts a
      Job into the queue ([jobs.rs]), and publishes the new status.
    - The queue starts jobs within the limit of the runtime configuration
      ([config.rs]) and counts running ones by watching them.
    - The job's init container ([gitrepo-cloner.rs]) parses the arguments the
      action wrote and clones the repository into the shared volume.

    ** How code is modelled

    Code that calls out or touches shared state is a program of type
    [prog R S A] (this file): a function of an oracle, a state and the trace
    so far, to an outcome ([Ret] or [Panic]), the new state and the extended
    trace.  World.v lists the calls ([Call]) with the type of each answer
    ([resp]): clock, random values, file system, libgit2, Kubernetes API,
    cache reads, schedulers, metrics.  The oracle answers each call from the
    whole trace before it, so a theorem for all oracles is one for all
    environments.  [wp m o s t Q] says that the run of [m] ends in [Q];
    [calls_in] that every call satisfies a predicate, [stateless] that the
    state does not change; both have a hint database.  A Rust [Result] is a
    [result], [?] is [<-?], and each [unwrap], [expect] or overflow that
    panics is [Panic].  Unsigned integers are [Z] with the wrap of
    [AtomicUsize] written out ([wrap_usize]) and the checked conversions as
    options.  Loops over sets take their order from the oracle.

    ** Files

    - Prelude: results, programs, weakest preconditions, tactics ([wp_step],
      [calls_step], [keeps_step]), integers.
    - Strs, Time: the parts of Rust's strings, [Duration] and [SystemTime]
      that are used.  Regex: the patterns of the CRD schemas, their matcher
      and its correctness.  Errors: [lib.rs].
    - Config: [config.rs].  Resources: the CRD structures of [resources/].
    - Serde: the documents that serde reads and writes ([Value]) and the
      meaning of the attributes the program uses.  Wire, WireFacts: the
      structures of Resources and Config as their attributes read and write
      them, the patch of a status, and that what is written is read back.
      ConfigDocument: partial documents of the runtime configuration.  Crds:
      the arguments of the derived definitions, [get_all_crds].
    - Ext, World: what is outside the repository (below), and the calls.
    - Jobs, JobsFacts, JobsSystem, JobsLiveness, JobsProgress: [jobs.rs]; its
      operations, theorems about one operation, the [select!] of
      [init_and_watch] as a step relation, the progress of that system in its
      states and over its infinite executions.
    - Cache: [cache.rs].  SecretsSystem: the requests for secrets over one
      cache, interleaved.  Statics: the three global cells as one record.
    - Action: [resources/action.rs] and [random_string] of
      [resources/mod.rs].  GitRepo: [resources/git_repo.rs].
    - Trigger, TriggerFacts, SourceFacts, TaskFacts, TriggerExamples:
      [resources/trigger.rs]; its operations, theorems about status, schedule,
      [reconcile] and [cleanup], theorems about commits and hashes, theorems
      about tasks, concrete instances.  TaskComplete: what a task must do.
    - RateLimit, Web, WebExamples, WebServer: [web.rs]; the limits, the
      handlers of the webhooks, the two servers round them.
    - Cli: [cli.rs].  Metrics: the [Metrics] structs of [jobs.rs],
      [trigger.rs], [controller.rs] and [web.rs] with their statics.
    - Cloner: [bin/gitrepo-cloner.rs].  EndToEnd: a task, the job it
      enqueues and the cloner of that job together.
    - Controller: [controller.rs], a leader's terms one after the other
      included.  System, SystemFacts, SystemExamples,
      SystemLiveness, SystemRun: the running controller, all components over
      the shared state; its executions, finite and infinite, and one of each
      computed.
    - Runner: [run] of [bin/git-events-runner.rs] and [signals.rs].  Tracing:
      [setup_tracing] and what [run] does with it.  Main: the commands
      ([main], [Cli::new], [generate_crds], [generate_config_yaml]).

    Definitions carry the names of the code; a field or function whose name
    is taken elsewhere has its type's name in front or an underscore behind.

    ** What the theorems show

    - The controller as a system: no job without a cause (C1), and,
      under fair scheduling, no change without its job (C2), nor an accepted
      request without its task ([accepted_request_begins]); the queue of
      the running controller is the one of JobsSystem (C3), it does not panic
      as long as deadlines and counts can be represented (C10), metrics are
      used as they are declared (C30).
    - From a change to a working tree (C11): the job a task enqueues makes the
      cloner check out the commit that caused it.
    - Jobs queue: at most once and in order under every interleaving (C4), no
      lost wake-up (C5), with limits of at least one job a loop that leaves
      jobs waiting waits for a report that wakes it (C6) and then serves the oldest job (C8), every job is
      dealt with if its jobs end and are reported (C7), the running counter
      is exact (C9), what one [run_queue] does and that it returns
      (C28, C29); where the limit and the counter fail (C39, C40, and
      [first_seen_finished_leaks]); also [run_queue_refines], [enqueue_spec],
      [run_item_expiry].
    - Tasks: none of the changes is missed (C12) and none runs twice (C13);
      one source, a whole task (C16, C17); also [get_latest_commit_spec],
      [update_trigger_status_spec], [get_file_glob_hash_spec].
    - Scheduling: over all terms of a leader, at most one live task per
      trigger, but for tasks the scheduler refuses to cancel, and none beyond
      its term, but for a term that cannot take its scheduler back (C14);
      [reconcile] and [cleanup] (C23, C24); a defect around the last run
      (C36); also [last_run_never_used],
      [failed_reconcile_then_revert], [get_task_schedule_spec],
      [leader_term_owned].
    - Webhooks: no task without authorization (C15), the answer of every
      request (C35); also [rate_limit_try_from_spec], [rate_limit_keys].
    - Actions and the cloner: the job's contents (C18), the round trip of the
      arguments through the cloner (C19); also [cloner_spec],
      [cloner_main_of_job].
    - Secrets and repositories: soundness and freshness of the values that
      concurrent requests get from the secrets cache (C20), and that each
      request is settled (C21); namespace isolation (C22), the URIs the
      pattern accepts (C31), certificate checks and the depth of a fetch
      (C37), absence of panics for valid URIs (C38); also [secret_values_sound], [get_key_value_spec],
      [secrets_herd].
    - Formats: a published status reads back (C25), what a new ConfigMap does
      (C26), what a resource may leave out (C27); the round trip of each
      structure is an instance of [Wire]; also [empty_status_not_read_back],
      [crds_complete], [status_patch_has_addressee].
    - Process: controllers follow the leadership (C32), what ends the process
      (C33), that it never gets ready with the routes it has (C34); also
      [tls_config_spec], [metrics_registered_once],
      [init_and_watch_last_valid], [config_cell_spec], [utils_web_spec],
      [hooks_web_ends], [setup_tracing_spec], [run_traced_log], [main_spec],
      [printed_config_loads].

    C34 is about the routes as they are written.  The theorems about the
    handlers and about the system (C1, C2, C3, C10, C15, C35) are about the code
    behind the routes and do not assume that the server was built.

    ** Parameters and their hypotheses

    [Ext] (Ext.v): the parsers of durations, cron expressions and RFC 3339
    times, SHA-256, git object ids, and two Kubernetes types that are only
    copied; [Context]s of a component: YAML reading and writing (Config.v),
    [HeaderMap] (Web.v), clap's tokenizer with its laws (Cloner.v), kube's
    finalizer with its laws (Controller.v), the rustls configuration (Cli.v),
    limiter and router (RateLimit.v), axum's rule for the paths of routes with
    its laws (WebServer.v), prometheus' checks of names and registrations with
    their laws (Metrics.v), the text of a resource definition (Main.v), the
    environment and the answers of the tracing crates (Tracing.v), the wire
    format of tolerations and affinity (Wire.v).  A theorem that needs to know something
    of one of them says so in a hypothesis, and its witness gives a concrete
    instance.  [example_ext] and [quiet_services] are the ones for examples.

    ** Bounds

    Recursion is structural everywhere.  The one loop of the program without
    a bound of its own in the data, [run_queue]'s, is structural on its
    counter [waiting_jobs]; the retries of the hooks server's shutdown are ten
    in the code ([shutdown_scheduler 10]).

    ** Atomicity

    The steps of JobsSystem interleave the four loops of the queue with
    [enqueue] at the granularity of one item.  The steps of System interleave
    whole deliveries, whole requests, the turns of the queue task, and tasks
    cut at their start, between two sources and at their end.  The steps of
    SecretsSystem are the turns of the lock of the secrets cache, with the
    query to the API as one turn under the write lock.  In System, what another
    component does inside a step is seen through the answers of the
    step's calls (the caches' contents, the configuration, the API).  A task
    may be dropped between two of its steps, a step may end in a panic, and
    between steps the cells of the resource caches and the table of triggers
    may change at any time ([ws_cells]); the cells of the queue and of the
    secrets cache are set as the code does, once, to an empty queue and an
    empty cache, so that a cached secret was answered by the API before.

    ** Not modelled

    Every log line, which has no effect on the program's state; the schemas
    that the derive macros of kube and schemars generate, but for the URI
    pattern; documents in forms that serde accepts besides the usual one
    (a structure as an array, an enum's unit variant as an object); sockets,
    TLS and HTTP under the handlers; the streams of the Kubernetes watchers
    (their items are inputs); [build.rs], the tests and their containers; and
    everything in other crates.

    ** Possible extensions

    Finer steps inside a delivery and a request, and the turns of
    SecretsSystem inside the steps of System. *)

From stdpp Require Import base option gmap strings list fin_maps numbers.
From Stdlib Require Import ZArith Lia.

(** ** Results and panics

    A Rust [Result<A, E>] is a value of [result E A].  A call that may panic
    ([unwrap], [expect], an array index, [panic!]) is an [outcome]: the panic
    is the second constructor, never confused with an error value. *)
Inductive result (E A : Type) : Type :=
| Ok (a : A)
| Err (e : E).
Arguments Ok {E A} _.
Arguments Err {E A} _.

Inductive outcome (A : Type) : Type :=
| Ret (a : A)
| Panic.
Arguments Ret {A} _.
Arguments Panic {A}.

Definition is_ok {E A} (r : result E A) : bool :=
  match r with Ok _ => true | Err _ => false end.

Definition map_err {E F A} (f : E -> F) (r : result E A) : result F A :=
  match r with Ok a => Ok a | Err e => Err (f e) end.

Definition ok_or {E A} (e : E) (o : option A) : result E A :=
  match o with Some a => Ok a | None => Err e end.

Definition unwrap_or {A} (d : A) (o : option A) : A :=
  match o with Some a => a | None => d end.

(** ** Effects

    The program talks to services it does not contain: the Kubernetes API,
    the clock, the file system, git, the task scheduler, the metrics
    registry.  A call to one of them is a value of a type [C]; its answer has
    type [R c].  An [event] is a call with its answer.  An [oracle] answers
    every call from the events before it, so quantifying over oracles
    quantifies over every behaviour of the services.  A program reads and
    writes its own state [S] and appends its events to a trace (oldest event
    first). *)
Section effects.
Context {C : Type} {R : C -> Type}.

Inductive event : Type := Ev (c : C) (r : R c).

Definition oracle : Type := list event -> forall c : C, R c.

Definition prog (S A : Type) : Type :=
  oracle -> S -> list event -> outcome A * S * list event.

Definition ret {S A} (a : A) : prog S A := fun _ s t => (Ret a, s, t).

Definition panic {S A} : prog S A := fun _ s t => (Panic, s, t).

Definition bind {S A B} (m : prog S A) (k : A -> prog S B) : prog S B :=
  fun o s t =>
    match m o s t with
    | (Ret a, s', t') => k a o s' t'
    | (Panic, s', t') => (Panic, s', t')
    end.

Definition perform {S} (c : C) : prog S (R c) :=
  fun o s t => (Ret (o t c), s, t ++ [Ev c (o t c)]).

Definition get {S} : prog S S := fun _ s t => (Ret s, s, t).

Definition put {S} (s' : S) : prog S unit := fun _ _ t => (Ret tt, s', t).

Definition modify {S} (f : S -> S) : prog S unit := fun _ s t => (Ret tt, f s, t).

(** Option and result values inside a program: [unwrap] panics, [q_bind] is
    the [?] operator (an error value returns early). *)
Definition unwrap {S A} (x : option A) : prog S A :=
  match x with Some a => ret a | None => panic end.

Definition q_bind {S E A B} (m : prog S (result E A))
    (k : A -> prog S (result E B)) : prog S (result E B) :=
  bind m (fun r => match r with Ok a => k a | Err e => ret (Err e) end).

Fixpoint for_each {S A} (f : A -> prog S unit) (l : list A) : prog S unit :=
  match l with
  | [] => ret tt
  | x :: l => bind (f x) (fun _ => for_each f l)
  end.

(** A program over a part of a larger state. *)
Definition zoom {S T A} (get_part : S -> T) (set_part : T -> S -> S)
    (m : prog T A) : prog S A :=
  fun o s t =>
    match m o (get_part s) t with
    | (r, p, t') => (r, set_part p s, t')
    end.
End effects.
Arguments event {C} R.
Arguments Ev {C R} c r.
Arguments oracle {C} R.
Arguments prog {C} R S A.

Declare Scope prog_scope.
Delimit Scope prog_scope with prog.
Notation "x <-- m ;; k" := (bind m (fun x => k))
  (at level 100, m at next level, right associativity) : prog_scope.
Notation "x <-? m ;; k" := (q_bind m (fun x => k))
  (at level 100, m at next level, right associativity) : prog_scope.
Notation "m ;;; k" := (bind m (fun _ => k))
  (at level 100, right associativity) : prog_scope.

(** ** Reasoning about programs

    [wp] is the weakest precondition of a run: [Q] holds of the outcome, the
    final state and the final trace.  Its rules follow the shape of the
    program, so that a component's theorem is proved by stepping through the
    code. *)
Section wp.
Context {C : Type} {R : C -> Type}.
Implicit Types (t : list (event R)).

Definition wp {S A} (m : prog R S A) (o : oracle R) (s : S) (t : list (event R))
    (Q : outcome A -> S -> list (event R) -> Prop) : Prop :=
  match m o s t with (r, s', t') => Q r s' t' end.

(** What holds of every run holds of this one. *)
Lemma wp_elim {S A} (m : prog R S A) o s t r s' t' Q :
  m o s t = (r, s', t') -> wp m o s t Q -> Q r s' t'.
Proof. unfold wp. by intros ->. Qed.

Lemma wp_ret {S A} (a : A) o (s : S) t Q : Q (Ret a) s t -> wp (ret a) o s t Q.
Proof. done. Qed.

Lemma wp_panic {S A} o (s : S) t (Q : outcome A -> S -> list (event R) -> Prop) :
  Q Panic s t -> wp panic o s t Q.
Proof. done. Qed.

Lemma wp_bind {S A B} (m : prog R S A) (k : A -> prog R S B) o s t Q :
  wp m o s t (fun r s' t' =>
    match r with Ret a => wp (k a) o s' t' Q | Panic => Q Panic s' t' end) ->
  wp (bind m k) o s t Q.
Proof. unfold wp, bind. by destruct (m o s t) as [[[a|] s'] t']. Qed.

Lemma wp_q_bind {S E A B} (m : prog R S (result E A))
    (k : A -> prog R S (result E B)) o s t Q :
  wp m o s t (fun r s' t' =>
    match r with
    | Ret (Ok a) => wp (k a) o s' t' Q
    | Ret (Err e) => Q (Ret (Err e)) s' t'
    | Panic => Q Panic s' t'
    end) ->
  wp (q_bind m k) o s t Q.
Proof.
  intros H. apply wp_bind. revert H. unfold wp.
  destruct (m o s t) as [[[[a|e]|] s'] t']; auto.
Qed.

Lemma wp_perform {S} (c : C) o (s : S) t Q :
  (forall r, r = o t c -> Q (Ret r) s (t ++ [Ev c r])) -> wp (perform c) o s t Q.
Proof. intros H. by apply H. Qed.

Lemma wp_get {S} o (s : S) t (Q : outcome S -> S -> list (event R) -> Prop) :
  Q (Ret s) s t -> wp get o s t Q.
Proof. done. Qed.

Lemma wp_put {S} (s' : S) o (s : S) t (Q : outcome unit -> S -> list (event R) -> Prop) :
  Q (Ret tt) s' t -> wp (put s') o s t Q.
Proof. done. Qed.

Lemma wp_modify {S} (f : S -> S) o s t (Q : outcome unit -> S -> list (event R) -> Prop) :
  Q (Ret tt) (f s) t -> wp (modify f) o s t Q.
Proof. done. Qed.

Lemma wp_unwrap {S A} (x : option A) o (s : S) t Q :
  match x with Some a => Q (Ret a) s t | None => Q Panic s t end ->
  wp (unwrap x) o s t Q.
Proof. by destruct x. Qed.

Lemma wp_zoom {S T A} (g : S -> T) (p : T -> S -> S) (m : prog R T A) o s t Q :
  wp m o (g s) t (fun r q t' => Q r (p q s) t') -> wp (zoom g p m) o s t Q.
Proof. unfold wp, zoom. by destruct (m o (g s) t) as [[r q] t']. Qed.

Lemma wp_mono {S A} (m : prog R S A) o s t (P Q : outcome A -> S -> list (event R) -> Prop) :
  wp m o s t P -> (forall r s' t', P r s' t' -> Q r s' t') -> wp m o s t Q.
Proof. unfold wp. destruct (m o s t) as [[r s'] t']. auto. Qed.

Lemma wp_and {S A} (m : prog R S A) o s t (P Q : outcome A -> S -> list (event R) -> Prop) :
  wp m o s t P -> wp m o s t Q -> wp m o s t (fun r s' t' => P r s' t' /\ Q r s' t').
Proof. unfold wp. destruct (m o s t) as [[r s'] t']. auto. Qed.

Lemma wp_true {S A} (m : prog R S A) o s t : wp m o s t (fun _ _ _ => True).
Proof. unfold wp. by destruct (m o s t) as [[r s'] t']. Qed.

(** The loop rule: an invariant of the state and the trace. *)
Lemma wp_for_each {S A} (f : A -> prog R S unit) (I : S -> list (event R) -> Prop) l o s t :
  I s t ->
  (forall x s t, x ∈ l -> I s t -> wp (f x) o s t (fun r s' t' => r = Ret tt /\ I s' t')) ->
  wp (for_each f l) o s t (fun r s' t' => r = Ret tt /\ I s' t').
Proof.
  intros HI Hf. revert s t HI. induction l as [|x l IH]; intros s t HI; simpl.
  - by apply wp_ret.
  - apply wp_bind. eapply wp_mono; [apply Hf; [set_solver|done]|].
    intros r s' t' [-> HI']. apply IH; [|done]. intros; apply Hf; [set_solver|done].
Qed.

(** [calls_in P m]: [m] only appends events that satisfy [P] to the trace. *)
Definition calls_in {S A} (P : event R -> Prop) (m : prog R S A) : Prop :=
  forall o s t, wp m o s t (fun _ _ t' => exists new, t' = t ++ new /\ Forall P new).

Lemma calls_in_ret {S A} P (a : A) : calls_in P (ret (S:=S) a).
Proof. intros o s t. exists []. by rewrite app_nil_r. Qed.

Lemma calls_in_panic {S A} P : calls_in P (panic (S:=S) (A:=A)).
Proof. intros o s t. exists []. by rewrite app_nil_r. Qed.

Lemma calls_in_bind {S A B} P (m : prog R S A) (k : A -> prog R S B) :
  calls_in P m -> (forall a, calls_in P (k a)) -> calls_in P (bind m k).
Proof.
  intros Hm Hk o s t. apply wp_bind. eapply wp_mono; [apply Hm|].
  intros [a|] s' t' (new & -> & Hnew); [|by eauto].
  eapply wp_mono; [apply Hk|]. intros r s'' t'' (new' & -> & Hnew').
  exists (new ++ new'). rewrite app_assoc. by rewrite Forall_app.
Qed.

(** The continuation only runs on the values the first part can return. *)
Lemma calls_in_bind_returns {S A B} P (phi : A -> Prop) (m : prog R S A) (k : A -> prog R S B) :
  calls_in P m -> (forall o s t, wp m o s t (fun r _ _ => forall a, r = Ret a -> phi a)) ->
  (forall a, phi a -> calls_in P (k a)) -> calls_in P (bind m k).
Proof.
  intros Hm Hphi Hk o s t. apply wp_bind. eapply wp_mono; [apply wp_and; [apply Hm|apply Hphi]|].
  intros [a|] s' t' [(new & -> & Hnew) Ha]; [|by exists new].
  eapply wp_mono; [by apply Hk, Ha|]. intros r s2 t2 (new2 & -> & Hnew2).
  exists (new ++ new2). rewrite app_assoc. split; [done|]. by apply Forall_app_2.
Qed.

Lemma calls_in_q_bind {S E A B} P (m : prog R S (result E A))
    (k : A -> prog R S (result E B)) :
  calls_in P m -> (forall a, calls_in P (k a)) -> calls_in P (q_bind m k).
Proof.
  intros Hm Hk. apply calls_in_bind; [done|].
  intros [a|e]; [apply Hk|apply calls_in_ret].
Qed.

Lemma calls_in_perform {S} (P : event R -> Prop) c :
  (forall r, P (Ev c r)) -> calls_in P (perform (S:=S) c).
Proof. intros Hc o s t. exists [Ev c (o t c)]. split; [done|]. by constructor. Qed.

Lemma calls_in_get {S} P : calls_in P (get (S:=S)).
Proof. intros o s t. exists []. by rewrite app_nil_r. Qed.

Lemma calls_in_put {S} P (s' : S) : calls_in P (put s').
Proof. intros o s t. exists []. by rewrite app_nil_r. Qed.

Lemma calls_in_modify {S} P (f : S -> S) : calls_in P (modify f).
Proof. intros o s t. exists []. by rewrite app_nil_r. Qed.

Lemma calls_in_unwrap {S A} P (x : option A) : calls_in P (unwrap (S:=S) x).
Proof. destruct x; [apply calls_in_ret|apply calls_in_panic]. Qed.

Lemma calls_in_for_each {S A} P (f : A -> prog R S unit) l :
  (forall x, x ∈ l -> calls_in P (f x)) -> calls_in P (for_each f l).
Proof.
  induction l as [|x l IH]; intros Hf; simpl; [apply calls_in_ret|].
  apply calls_in_bind; [apply Hf; set_solver|]. intros _. apply IH; set_solver.
Qed.

Lemma calls_in_zoom {S T A} P (g : S -> T) (p : T -> S -> S) (m : prog R T A) :
  calls_in P m -> calls_in P (zoom g p m).
Proof. intros Hm o s t. by apply wp_zoom, Hm. Qed.

Lemma calls_in_mono {S A} (P Q : event R -> Prop) (m : prog R S A) :
  (forall c, P c -> Q c) -> calls_in P m -> calls_in Q m.
Proof.
  intros HPQ Hm o s t. eapply wp_mono; [apply Hm|].
  intros r s' t' (new & -> & Hnew). eauto using Forall_impl.
Qed.
End wp.

Create HintDb calls discriminated.
#[export] Hint Resolve calls_in_ret calls_in_panic calls_in_get calls_in_put
  calls_in_modify calls_in_unwrap : calls.

(** Programs that leave their state alone. *)
Section stateless.
Context {C : Type} {R : C -> Type}.

(** [keeps f m]: however [m] ends, the part [f] of the state is what it was. *)
Definition keeps {S A X} (f : S -> X) (m : prog R S A) : Prop :=
  forall o s t, wp m o s t (fun _ s' _ => f s' = f s).

Section keeps.
Context {S X : Type} (f : S -> X).

Lemma keeps_ret {A} (a : A) : keeps f (ret a).
Proof. done. Qed.

Lemma keeps_panic {A} : keeps f (panic (A:=A)).
Proof. done. Qed.

Lemma keeps_bind {A B} (m : prog R S A) (k : A -> prog R S B) :
  keeps f m -> (forall a, keeps f (k a)) -> keeps f (bind m k).
Proof.
  intros Hm Hk o s t. apply wp_bind. eapply wp_mono; [apply Hm|].
  intros [a|] s' t' Hs'; [|done]. rewrite <- Hs'. apply Hk.
Qed.

Lemma keeps_q_bind {E A B} (m : prog R S (result E A)) (k : A -> prog R S (result E B)) :
  keeps f m -> (forall a, keeps f (k a)) -> keeps f (q_bind m k).
Proof.
  intros Hm Hk. apply keeps_bind; [done|]. intros [a|e]; [apply Hk|apply keeps_ret].
Qed.

Lemma keeps_perform c : keeps f (perform c).
Proof. done. Qed.

Lemma keeps_get : keeps f get.
Proof. done. Qed.

Lemma keeps_modify (h : S -> S) : (forall s, f (h s) = f s) -> keeps f (modify h).
Proof. intros Hh o s t. apply Hh. Qed.

Lemma keeps_unwrap {A} (x : option A) : keeps f (unwrap x).
Proof. by destruct x. Qed.

Lemma keeps_for_each {A} (g : A -> prog R S unit) l :
  (forall x, keeps f (g x)) -> keeps f (for_each g l).
Proof.
  intros Hg. induction l as [|x l IH]; simpl; [apply keeps_ret|]. by apply keeps_bind.
Qed.

(** A program on another part. *)
Lemma keeps_zoom {T A} (g : S -> T) (p : T -> S -> S) (m : prog R T A) :
  (forall s x, f (p x s) = f s) -> keeps f (zoom g p m).
Proof. intros Hp o s t. apply wp_zoom. eapply wp_mono; [apply wp_true|]. auto. Qed.
End keeps.

(** The state is left alone. *)
Abbreviation stateless := (keeps (fun s => s)).

Lemma stateless_keeps {S A X} (f : S -> X) (m : prog R S A) : stateless m -> keeps f m.
Proof. intros Hm o s t. eapply wp_mono; [apply Hm|]. by intros r s' t' ->. Qed.

Lemma stateless_zoom {S T A} (g : S -> T) (p : T -> S -> S) (m : prog R T A) :
  (forall s, p (g s) s = s) -> stateless m -> stateless (zoom g p m).
Proof.
  intros Hp Hm o s t. apply wp_zoom. eapply wp_mono; [apply Hm|]. by intros r q t' ->.
Qed.
End stateless.

Abbreviation stateless := (keeps (fun s => s)).

Create HintDb stateless discriminated.
#[export] Hint Resolve keeps_ret keeps_panic keeps_perform keeps_get keeps_unwrap : stateless.

(** [keeps_step] follows the program under [keeps]; the lemmas of the database
    [stateless] speak of its parts. *)
Ltac keeps_step :=
  first
    [ solve [auto with stateless]
    | solve [apply stateless_keeps; auto with stateless]
    | lazymatch goal with
      |- keeps ?f (@perform ?C ?R ?S ?c) => exact (@keeps_perform C R S _ f c) end
    | apply keeps_q_bind; [|intros ?]
    | apply keeps_bind; [|intros ?]
    | apply keeps_modify; intros ?; reflexivity
    | lazymatch goal with |- keeps _ (match ?x with _ => _ end) => destruct x end ].
Ltac keeps_run := repeat keeps_step.

(** [wp_step] takes one step of the program under [wp]. *)
Ltac wp_step :=
  lazymatch goal with
  | |- wp (ret _) _ _ _ _ => apply wp_ret
  | |- wp panic _ _ _ _ => apply wp_panic
  | |- wp (q_bind _ _) _ _ _ _ => apply wp_q_bind
  | |- wp (bind _ _) _ _ _ _ => apply wp_bind
  | |- wp (@perform ?C ?R ?S ?c) ?o ?s ?t ?Q =>
      refine (@wp_perform C R S c o s t Q _); intros ? ?
  | |- wp get _ _ _ _ => apply wp_get
  | |- wp (put _) _ _ _ _ => apply wp_put
  | |- wp (modify _) _ _ _ _ => apply wp_modify
  | |- wp (unwrap _) _ _ _ _ => apply wp_unwrap
  | |- wp (zoom _ _ _) _ _ _ _ => apply wp_zoom
  | |- wp (match ?x with _ => _ end) _ _ _ _ =>
      first [ match goal with E : ?y = _ |- _ => change x with y; rewrite E end
            | destruct x eqn:? ]
  end.
Ltac wp_run := repeat wp_step.

(** [calls_step] proves [calls_in] goals along the structure of the program. *)
Ltac calls_step :=
  first
    [ solve [auto with calls]
    | apply calls_in_q_bind; [|intros ?]
    | apply calls_in_bind; [|intros ?]
    | apply calls_in_perform; intros ?
    | apply calls_in_zoom
    | lazymatch goal with |- calls_in _ (match ?x with _ => _ end) => destruct x eqn:? end ].
Ltac calls_run := repeat calls_step.

(** ** Machine integers: the widths the sources use *)
Definition u32_max : Z := 2 ^ 32 - 1.
Definition u64_max : Z := 2 ^ 64 - 1.
Definition i64_max : Z := 2 ^ 63 - 1.
Definition usize_max : Z := u64_max.

(** [fetch_add] and [fetch_sub] on an [AtomicUsize] wrap around. *)
Definition wrap_usize (z : Z) : Z := z mod 2 ^ 64.

(** [usize::try_into::<i64>()] *)
Definition usize_to_i64 (z : Z) : option Z :=
  if bool_decide (z <= i64_max)%Z then Some z else None.

Lemma wrap_usize_small z : (0 <= z <= usize_max)%Z -> wrap_usize z = z.
Proof. unfold wrap_usize, usize_max, u64_max. intros. apply Z.mod_small. lia. Qed.

Lemma wrap_usize_range z : (0 <= wrap_usize z <= usize_max)%Z.
Proof.
  unfold wrap_usize, usize_max, u64_max.
  pose proof (Z.mod_pos_bound z (2 ^ 64)). lia.
Qed.

(** ** Lists *)

Lemma omap_cons_eq {A B} (f : A -> option B) x l :
  omap f (x :: l) = match f x with Some y => y :: omap f l | None => omap f l end.
Proof. done. Qed.

Lemma omap_app_eq {A B} (f : A -> option B) l k : omap f (l ++ k) = omap f l ++ omap f k.
Proof.
  induction l as [|x l IH]; [done|]. rewrite <- app_comm_cons, !omap_cons_eq, IH.
  by destruct (f x).
Qed.

Lemma omap_Forall_None {A B} (f : A -> option B) l :
  Forall (fun x => f x = None) l -> omap f l = [].
Proof. induction 1 as [|x l Hx _ IH]; [done|]. by rewrite omap_cons_eq, Hx. Qed.

Lemma delete_app_left {A} (l k : list A) i :
  i < length l -> delete i (l ++ k) = delete i l ++ k.
Proof.
  revert i. induction l as [|x l IH]; intros [|i] Hi; simpl in *; [lia..|done|].
  f_equal. apply IH. lia.
Qed.

Lemma delete_app_right {A} (l k : list A) i :
  length l <= i -> delete i (l ++ k) = l ++ delete (i - length l) k.
Proof.
  revert i. induction l as [|x l IH]; intros i Hi; simpl in *; [by rewrite Nat.sub_0_r|].
  destruct i as [|i]; [lia|]. simpl. f_equal. apply IH. lia.
Qed.
