(* ===== verification/Strs.v ===== *)
(** * The parts of Rust's string library the program uses

    A Rust [String] is its UTF-8 byte sequence, that is a Rocq [string].
    [split] is [str::split] with a one-character pattern, [parse_uint] is
    [str::parse] at an unsigned integer type (the bound is its largest
    value), [from_utf8] is [String::from_utf8], [hex_encode] is the usual
    lower-case hexadecimal rendering. *)

From stdpp Require Import base option list strings numbers.
From Stdlib Require Import ZArith Lia Ascii String.
From S2P Require Import Prelude.
Local Open Scope string_scope.
Local Open Scope list_scope.

(** [String] also defines a [get]; the effect of that name is the one meant
    in this library. *)
Infix "^^" := String.append (at level 60, right associativity) : string_scope.

(** ** Splitting *)

(** [s.split(sep)]: the pieces between separators, never empty. *)
Fixpoint split (sep : ascii) (s : string) : list string :=
  match s with
  | EmptyString => [EmptyString]
  | String c s' =>
      if Ascii.eqb c sep then EmptyString :: split sep s'
      else match split sep s' with
           | [] => [String c EmptyString]
           | p :: ps => String c p :: ps
           end
  end.

Fixpoint join (sep : ascii) (ps : list string) : string :=
  match ps with
  | [] => EmptyString
  | [p] => p
  | p :: ps => p ^^ String sep (join sep ps)
  end.

Fixpoint occurs (c : ascii) (s : string) : bool :=
  match s with
  | EmptyString => false
  | String c' s' => Ascii.eqb c' c || occurs c s'
  end.

Lemma split_nonempty sep s : exists p ps, split sep s = p :: ps.
Proof.
  induction s as [|c s (p & ps & IH)]; simpl; [eauto|].
  rewrite IH. destruct (Ascii.eqb c sep); eauto.
Qed.

Lemma split_no_sep sep s : occurs sep s = false -> split sep s = [s].
Proof.
  induction s as [|c s IH]; simpl; [done|].
  intros [Hc Hs]%orb_false_iff. rewrite Hc, IH; done.
Qed.

Lemma split_app sep a s :
  occurs sep a = false -> split sep (a ^^ String sep s) = a :: split sep s.
Proof.
  induction a as [|c a IH]; simpl; intros Ha.
  - by rewrite Ascii.eqb_refl.
  - apply orb_false_iff in Ha as [Hc Ha]. by rewrite Hc, IH.
Qed.

Lemma split_pieces sep s : Forall (fun p => occurs sep p = false) (split sep s).
Proof.
  induction s as [|c s IH]; simpl; [by repeat constructor|].
  destruct (Ascii.eqb c sep) eqn:Hc; [by constructor|].
  destruct (split sep s); inversion IH; subst; repeat constructor; simpl; auto;
    by rewrite Hc.
Qed.

Lemma join_split sep s : join sep (split sep s) = s.
Proof.
  induction s as [|c s IH]; [done|]. simpl.
  destruct (split_nonempty sep s) as (p & ps & Hs). rewrite Hs in IH |- *.
  destruct (Ascii.eqb_spec c sep) as [->|Hne].
  - simpl in *. by rewrite IH.
  - rewrite <- IH. by destruct ps.
Qed.

(** Splitting the concatenation of separator-free pieces gives them back. *)
Lemma split_join sep p ps :
  Forall (fun p => occurs sep p = false) (p :: ps) ->
  split sep (join sep (p :: ps)) = p :: ps.
Proof.
  revert p. induction ps as [|q ps IH]; intros p Hall; inversion Hall; subst.
  - by apply split_no_sep.
  - change (join sep (p :: q :: ps)) with (p ^^ String sep (join sep (q :: ps))).
    by rewrite split_app, IH.
Qed.

(** A string with one separator splits in one way: the keys built with
    [format!("{a}/{b}")] are injective on separator-free first parts. *)
Lemma sep_inj sep a a' b b' :
  occurs sep a = false -> occurs sep a' = false ->
  a ^^ String sep b = a' ^^ String sep b' -> a = a' /\ b = b'.
Proof.
  intros Ha Ha' Heq.
  pose proof (f_equal (split sep) Heq) as Hs.
  rewrite !split_app in Hs by done. injection Hs as -> Hs.
  split; [done|]. by rewrite <- (join_split sep b), Hs, join_split.
Qed.

(** ** Unsigned integers *)

Definition digit (c : ascii) : option Z :=
  let n := N_of_ascii c in
  if (48 <=? n)%N && (n <=? 57)%N then Some (Z.of_N n - 48)%Z else None.

(** The loop of [from_str_radix] at radix 10: every step checks for overflow. *)
Fixpoint parse_digits (max acc : Z) (s : string) : option Z :=
  match s with
  | EmptyString => Some acc
  | String c s' =>
      match digit c with
      | Some d =>
          let acc' := (acc * 10 + d)%Z in
          if (acc' <=? max)%Z then parse_digits max acc' s' else None
      | None => None
      end
  end.

(** A leading [+] is accepted, a lone sign or an empty string is not. *)
Definition parse_uint (max : Z) (s : string) : option Z :=
  match s with
  | EmptyString => None
  | String "+" EmptyString => None
  | String "+" s' => parse_digits max 0 s'
  | _ => parse_digits max 0 s
  end.

(** The specification: the decimal value of a string of digits. *)
Fixpoint digits_value (acc : Z) (s : string) : option Z :=
  match s with
  | EmptyString => Some acc
  | String c s' =>
      match digit c with
      | Some d => digits_value (acc * 10 + d) s'
      | None => None
      end
  end.

Definition unsigned_body (s : string) : string :=
  match s with String "+" s' => s' | _ => s end.

Lemma digit_range c d : digit c = Some d -> (0 <= d <= 9)%Z.
Proof.
  unfold digit. destruct ((48 <=? N_of_ascii c)%N && (N_of_ascii c <=? 57)%N) eqn:H; [|done].
  apply andb_true_iff in H as [H1%N.leb_le H2%N.leb_le]. intros [= <-]. lia.
Qed.

Lemma digits_value_ge acc s v : (0 <= acc)%Z -> digits_value acc s = Some v -> (acc <= v)%Z.
Proof.
  revert acc. induction s as [|c s IH]; simpl; intros acc Hacc Hv; [by simplify_eq|].
  destruct (digit c) as [d|] eqn:Hd; [|done]. apply digit_range in Hd.
  apply IH in Hv; lia.
Qed.

Lemma parse_digits_spec max acc s v :
  (0 <= acc <= max)%Z ->
  parse_digits max acc s = Some v <-> digits_value acc s = Some v /\ (v <= max)%Z.
Proof.
  revert acc. induction s as [|c s IH]; simpl; intros acc Hacc.
  - naive_solver lia.
  - destruct (digit c) as [d|] eqn:Hd; [|naive_solver]. apply digit_range in Hd.
    destruct (Z.leb_spec (acc * 10 + d) max).
    + apply IH. lia.
    + split; [done|]. intros [Hv ?]. apply digits_value_ge in Hv; lia.
Qed.

(** [parse_uint] accepts exactly the digit strings (after an optional [+])
    whose value fits, and returns that value. *)
Lemma parse_uint_spec max s v :
  (0 <= max)%Z ->
  parse_uint max s = Some v <->
  unsigned_body s <> EmptyString /\ digits_value 0 (unsigned_body s) = Some v /\ (v <= max)%Z.
Proof.
  intros Hmax. pose proof (parse_digits_spec max 0) as Hspec.
  unfold parse_uint, unsigned_body.
  destruct s as [|c s]; [naive_solver|].
  destruct (ascii_dec c "+") as [->|Hne].
  - destruct s; [naive_solver|]. rewrite Hspec by lia. naive_solver.
  - assert (Hgen : parse_digits max 0 (String c s) = Some v <->
      String c s <> EmptyString /\ digits_value 0 (String c s) = Some v /\ (v <= max)%Z).
    { rewrite Hspec by lia. naive_solver. }
    destruct c as [[] [] [] [] [] [] [] []]; first [exact Hgen | by destruct Hne].
Qed.

Lemma parse_uint_range max s v :
  (0 <= max)%Z -> parse_uint max s = Some v -> (0 <= v <= max)%Z.
Proof.
  intros Hmax (_ & Hv & Hle)%parse_uint_spec; [|done].
  split; [|done]. by apply digits_value_ge in Hv.
Qed.

(** ** UTF-8 *)

Definition in_range (lo hi : N) (c : ascii) : bool :=
  (lo <=? N_of_ascii c)%N && (N_of_ascii c <=? hi)%N.

(** The well-formed byte sequences of the Unicode standard (table 3-7). *)
Fixpoint utf8_valid (s : string) : bool :=
  match s with
  | EmptyString => true
  | String a s1 =>
      if in_range 0 127 a then utf8_valid s1
      else match s1 with
      | EmptyString => false
      | String b s2 =>
          if in_range 194 223 a then in_range 128 191 b && utf8_valid s2
          else match s2 with
          | EmptyString => false
          | String c s3 =>
              if in_range 224 239 a then
                in_range (if N_of_ascii a =? 224 then 160 else 128)%N
                         (if N_of_ascii a =? 237 then 159 else 191)%N b
                && in_range 128 191 c && utf8_valid s3
              else match s3 with
              | EmptyString => false
              | String d s4 =>
                  in_range 240 244 a
                  && in_range (if N_of_ascii a =? 240 then 144 else 128)%N
                              (if N_of_ascii a =? 244 then 143 else 191)%N b
                  && in_range 128 191 c && in_range 128 191 d && utf8_valid s4
              end
          end
      end
  end.

Definition from_utf8 (bytes : string) : result unit string :=
  if utf8_valid bytes then Ok bytes else Err tt.

(** ** Lower case and hexadecimal *)

(** [char::to_lowercase] on the ASCII letters; the program applies it to
    Kubernetes names, timestamps and alphanumeric suffixes, which have no
    other cased characters. *)
Definition ascii_to_lowercase (c : ascii) : ascii :=
  if in_range 65 90 c then ascii_of_N (N_of_ascii c + 32) else c.

Fixpoint to_lowercase (s : string) : string :=
  match s with
  | EmptyString => EmptyString
  | String c s => String (ascii_to_lowercase c) (to_lowercase s)
  end.

Definition hex_digit (n : N) : ascii :=
  ascii_of_N (if (n <? 10)%N then 48 + n else 87 + n)%N.

(** [format!("{:x}", bytes)] *)
Fixpoint hex_encode (s : string) : string :=
  match s with
  | EmptyString => EmptyString
  | String c s =>
      String (hex_digit (N_of_ascii c / 16))
        (String (hex_digit (N_of_ascii c mod 16)) (hex_encode s))
  end.

Definition is_lower_hex (c : ascii) : bool := in_range 48 57 c || in_range 97 102 c.

Fixpoint forall_chars (p : ascii -> bool) (s : string) : bool :=
  match s with
  | EmptyString => true
  | String c s => p c && forall_chars p s
  end.

Lemma forall_chars_app p a b : forall_chars p (a ^^ b) = forall_chars p a && forall_chars p b.
Proof. induction a as [|c a IH]; simpl; [done|]. by rewrite IH, andb_assoc. Qed.

Lemma occurs_app c a b : occurs c (a ^^ b) = occurs c a || occurs c b.
Proof. induction a as [|d a IH]; simpl; [done|]. by rewrite IH, orb_assoc. Qed.

Lemma utf8_valid_ascii s : forall_chars (in_range 0 127) s = true -> utf8_valid s = true.
Proof.
  induction s as [|c s IH]; [done|]. intros [Hc Hs]%andb_true_iff.
  simpl. rewrite Hc. auto.
Qed.

Lemma ascii_forall (p : ascii -> bool) :
  forallb (fun n => p (ascii_of_nat n)) (seq 0 256) = true -> forall c, p c = true.
Proof.
  intros Hall c. rewrite forallb_forall in Hall.
  rewrite <- (ascii_nat_embedding c). apply Hall, in_seq.
  pose proof (nat_ascii_bounded c). lia.
Qed.

Lemma to_lowercase_no_upper s :
  forall_chars (fun c => negb (in_range 65 90 c)) (to_lowercase s) = true.
Proof.
  induction s as [|c s IH]; [done|]. simpl. rewrite IH, andb_true_r.
  revert c. by apply ascii_forall.
Qed.

Lemma to_lowercase_app a b : to_lowercase (a ^^ b) = to_lowercase a ^^ to_lowercase b.
Proof. induction a as [|c a IH]; simpl; [done|]. by rewrite IH. Qed.

Lemma to_lowercase_idem s :
  forall_chars (fun c => negb (in_range 65 90 c)) s = true -> to_lowercase s = s.
Proof.
  induction s as [|c s IH]; [done|]. simpl. intros [Hc Hs]%andb_true_iff.
  rewrite IH by done. f_equal. unfold ascii_to_lowercase. by destruct (in_range 65 90 c).
Qed.

Lemma to_lowercase_length s : String.length (to_lowercase s) = String.length s.
Proof. induction s as [|c s IH]; simpl; [done|]. by rewrite IH. Qed.

Lemma string_length_append a b : String.length (a ^^ b) = String.length a + String.length b.
Proof. induction a as [|c a IH]; simpl; [done|]. by rewrite IH. Qed.

Lemma append_assoc (a b c : string) : (a ^^ b) ^^ c = a ^^ b ^^ c.
Proof. induction a as [|x a IH]; [done|exact (f_equal (String x) IH)]. Qed.

Lemma append_empty (a : string) : a ^^ "" = a.
Proof. induction a as [|x a IH]; [done|exact (f_equal (String x) IH)]. Qed.

Lemma append_inj_length a b c d :
  String.length a = String.length b -> a ^^ c = b ^^ d -> a = b /\ c = d.
Proof.
  revert b. induction a as [|x a IH]; intros [|y b]; try done.
  intros [= Hlen]. change (String x (a ^^ c) = String y (b ^^ d) -> String x a = String y b /\ c = d).
  intros [= -> Heq]. destruct (IH b Hlen Heq) as [-> ->]. done.
Qed.

Lemma hex_encode_length s : String.length (hex_encode s) = 2 * String.length s.
Proof. induction s as [|c s IH]; simpl; [done|]. rewrite IH. lia. Qed.

Lemma hex_encode_digits s : forall_chars is_lower_hex (hex_encode s) = true.
Proof.
  induction s as [|c s IH]; [done|]. simpl. rewrite IH, andb_true_r.
  revert c. by apply ascii_forall.
Qed.

(** Two byte strings with the same rendering are equal. *)
Definition hex_value (c : ascii) : N :=
  if in_range 48 57 c then N_of_ascii c - 48 else N_of_ascii c - 87.

Lemma hex_byte_roundtrip c :
  ascii_of_N (hex_value (hex_digit (N_of_ascii c / 16)) * 16
              + hex_value (hex_digit (N_of_ascii c mod 16))) = c.
Proof.
  apply Ascii.eqb_eq. revert c. by apply ascii_forall.
Qed.

Lemma hex_encode_inj a b : hex_encode a = hex_encode b -> a = b.
Proof.
  revert b. induction a as [|c a IH]; intros [|d b]; try done.
  simpl. intros [= H1 H2 H3]. f_equal; [|auto].
  rewrite <- (hex_byte_roundtrip c), <- (hex_byte_roundtrip d). by rewrite H1, H2.
Qed.
