(* ===== verification/Serde.v ===== *)
(** * Derived serialisation

    The rules by which [#[derive(Serialize, Deserialize)]] and its attributes
    turn the structures of the sources into JSON and back: renamed fields,
    optional, defaulted and skipped fields, unknown and repeated keys,
    externally tagged enums, integers of a width.  Of a failed conversion only
    the failure is kept: the program at most logs the message. *)

From stdpp Require Import base option gmap strings list fin_maps.
From Stdlib Require Import Ascii ZArith Lia.
From S2P Require Import Prelude Strs.
Local Open Scope string_scope.
Local Open Scope list_scope.

#[local] Unset Elimination Schemes.

(** A JSON document.  [VFloat] is a number that is not an integer, which no
    structure here takes. *)
Inductive Value : Type :=
| VNull
| VBool (b : bool)
| VInt (z : Z)
| VFloat (text : string)
| VStr (s : string)
| VArr (l : list Value)
| VObj (fields : list (string * Value)).

#[local] Set Elimination Schemes.

(** ** Names: [rename_all] *)

Definition map_first (f : ascii -> ascii) (s : string) : string :=
  match s with EmptyString => EmptyString | String c s => String (f c) s end.

Definition to_upper (c : ascii) : ascii :=
  if (97 <=? nat_of_ascii c)%nat && (nat_of_ascii c <=? 122)%nat
  then ascii_of_nat (nat_of_ascii c - 32) else c.

(** Underscores go, the letter after one is a capital. *)
Fixpoint pascal (capital : bool) (s : string) : string :=
  match s with
  | EmptyString => EmptyString
  | String c s =>
      if Ascii.eqb c "_"%char then pascal true s
      else String (if capital then to_upper c else c) (pascal false s)
  end.

(** [camelCase] of a field and of a variant. *)
Definition camel (field : string) : string := map_first ascii_to_lowercase (pascal true field).
Definition camel_variant (variant : string) : string := map_first ascii_to_lowercase variant.

(** ** The traits *)

Class Serialize (A : Type) := serialize : A -> Value.

(** [missing] is what a field without a default gets when its key is absent:
    nothing, unless the type is an [Option]. *)
Class Deserialize (A : Type) := {
  deserialize : Value -> option A;
  missing : option A }.

(** What a value needs to survive: it is in the range of its type and, inside
    an [Option], it does not look like the absence of a value. *)
Class Wire (A : Type) `{Serialize A, Deserialize A} := {
  survives : A -> Prop;
  serialize_not_null : forall x, serialize x <> VNull;
  deserialize_serialize : forall x, survives x -> deserialize (serialize x) = Some x }.

(** ** Structures *)

(** What a structure's visitor sees of one field: the value of its key, no
    such key, or the end of an array (a structure may be written as an array
    of its fields in order). *)
Inductive field_value : Type := Given (v : Value) | Absent | PastEnd.

Definition values_of (k : string) (fields : list (string * Value)) : list Value :=
  (filter (fun kv => kv.1 = k) fields).*2.

(** The fields [names] of a structure; a key may not be repeated, and is
    refused when unknown under [deny_unknown_fields]. *)
Definition object_field (fields : list (string * Value)) (k : string) : option field_value :=
  match values_of k fields with
  | [] => Some Absent
  | [v] => Some (Given v)
  | _ => None
  end.

Fixpoint array_fields (names : list string) (l : list Value) : option (list field_value) :=
  match names, l with
  | [], [] => Some []
  | [], _ :: _ => None
  | _ :: names, [] => (PastEnd ::.) <$> array_fields names []
  | _ :: names, v :: l => (Given v ::.) <$> array_fields names l
  end.

Definition open_struct (deny_unknown : bool) (names : list string) (v : Value)
    : option (list field_value) :=
  match v with
  | VObj fields =>
      if deny_unknown && negb (bool_decide (Forall (.∈ names) fields.*1)) then None
      else mapM (object_field fields) names
  | VArr l => array_fields names l
  | _ => None
  end.

(** A field without attributes, and one with a default. *)
Definition required {A} `{Deserialize A} (f : field_value) : option A :=
  match f with Given v => deserialize v | Absent => missing | PastEnd => None end.

Definition with_default {A} `{Deserialize A} (d : A) (f : field_value) : option A :=
  match f with Given v => deserialize v | _ => Some d end.

(** The object of a structure: a field without a value is skipped. *)
Definition struct_value (fields : list (string * option Value)) : Value :=
  VObj (omap (fun '(k, v) => (k,.) <$> v) fields).

Definition field {A} `{Serialize A} (k : string) (x : A) : string * option Value :=
  (k, Some (serialize x)).

(** [skip_serializing_if = "Option::is_none"] *)
Definition field_if_some {A} `{Serialize A} (k : string) (x : option A) : string * option Value :=
  (k, serialize <$> x).

(** ** Primitive types and containers *)

#[export] Instance string_serialize : Serialize string := VStr.
#[export] Instance string_deserialize : Deserialize string := {
  deserialize := fun v => match v with VStr s => Some s | _ => None end;
  missing := None }.

#[export] Instance bool_serialize : Serialize bool := VBool.
#[export] Instance bool_deserialize : Deserialize bool := {
  deserialize := fun v => match v with VBool b => Some b | _ => None end;
  missing := None }.

(** Integers of a range [lo..=hi], as the width of the field says. *)
Definition int_deserialize (lo hi : Z) : Deserialize Z := {|
  deserialize := fun v =>
    match v with
    | VInt z => if bool_decide (lo <= z <= hi)%Z then Some z else None
    | _ => None
    end;
  missing := None |}.
Definition int_serialize : Serialize Z := VInt.

#[export] Instance option_deserialize {A} `{Deserialize A} : Deserialize (option A) := {
  deserialize := fun v => match v with VNull => Some None | v => Some <$> deserialize v end;
  missing := Some None }.
#[export] Instance option_serialize {A} `{Serialize A} : Serialize (option A) :=
  fun x => match x with Some x => serialize x | None => VNull end.

#[export] Instance list_serialize {A} `{Serialize A} : Serialize (list A) :=
  fun l => VArr (serialize <$> l).
#[export] Instance list_deserialize {A} `{Deserialize A} : Deserialize (list A) := {
  deserialize := fun v => match v with VArr l => mapM deserialize l | _ => None end;
  missing := None }.

(** Maps with string keys; of a repeated key the last value counts. *)
Definition entries_value {A} `{Serialize A} (entries : list (string * A)) : Value :=
  VObj (prod_map id serialize <$> entries).

#[export] Instance map_serialize {A} `{Serialize A} : Serialize (gmap string A) :=
  fun m => entries_value (map_to_list m).

#[export] Instance map_deserialize {A} `{Deserialize A} : Deserialize (gmap string A) := {
  deserialize := fun v =>
    match v with
    | VObj fields =>
        entries ← mapM (fun kv => (kv.1,.) <$> deserialize kv.2) fields;
        Some (foldl (fun m kv => <[kv.1 := kv.2]> m) ∅ entries)
    | _ => None
    end;
  missing := None }.

(** ** Enums, externally tagged *)

(** An enum of unit variants: the name of the variant, or an object with the
    name and null. *)
Definition unit_variant (v : Value) : option string :=
  match v with
  | VStr name => Some name
  | VObj [(name, VNull)] => Some name
  | _ => None
  end.

(** An enum of variants that hold one value: an object with one key. *)
Definition newtype_variant (v : Value) : option (string * Value) :=
  match v with VObj [kv] => Some kv | _ => None end.

(** ** Lemmas *)

Lemma values_of_nil k fields : k ∉ fields.*1 -> values_of k fields = [].
Proof.
  intros Hk. unfold values_of. induction fields as [|[k' v] fields IH]; [done|].
  rewrite fmap_cons, not_elem_of_cons in Hk. destruct Hk as [Hne Hk].
  simpl in Hne. rewrite filter_cons_False by (simpl; congruence). by apply IH.
Qed.

Lemma values_of_cons k k' v fields :
  values_of k ((k', v) :: fields) = if decide (k' = k) then v :: values_of k fields
                                    else values_of k fields.
Proof. unfold values_of. rewrite filter_cons. simpl. by case_decide. Qed.

Lemma present_keys (fields : list (string * option Value)) k :
  k ∈ (omap (fun '(k, v) => (k,.) <$> v) fields).*1 -> k ∈ fields.*1.
Proof.
  induction fields as [|[k' [v|]] fields IH]; rewrite ?omap_cons_eq; simpl; [done| |];
    rewrite ?elem_of_cons; naive_solver.
Qed.

(** Opening the object of a structure gives its fields back. *)
Definition as_given (v : option Value) : field_value :=
  match v with Some v => Given v | None => Absent end.

Lemma object_field_present fields k v :
  NoDup fields.*1 -> (k, v) ∈ fields ->
  object_field (omap (fun '(k, v) => (k,.) <$> v) fields) k = Some (as_given v).
Proof.
  unfold object_field. induction fields as [|[k' v'] fields IH]; intros Hnodup Hin;
    [by apply elem_of_nil in Hin|].
  rewrite fmap_cons, NoDup_cons in Hnodup. destruct Hnodup as [Hk Hnodup].
  rewrite omap_cons_eq. rewrite elem_of_cons in Hin. destruct Hin as [[= -> ->]|Hin].
  - assert (Hnil : values_of k' (omap (fun '(k, v) => (k,.) <$> v) fields) = []).
    { apply values_of_nil. contradict Hk. by apply present_keys. }
    destruct v' as [v'|]; simpl; [rewrite values_of_cons, decide_True by done|]; by rewrite Hnil.
  - assert (k' <> k).
    { intros ->. apply Hk. by apply (list_elem_of_fmap_2 fst) in Hin. }
    destruct v' as [v'|]; simpl; [rewrite values_of_cons, decide_False by done|]; by apply IH.
Qed.

Lemma open_struct_value deny (fields : list (string * option Value)) :
  NoDup fields.*1 ->
  open_struct deny fields.*1 (struct_value fields) = Some (as_given <$> fields.*2).
Proof.
  intros Hnodup. unfold open_struct, struct_value.
  rewrite bool_decide_eq_true_2, andb_false_r.
  2: { apply Forall_forall. intros k Hk. by apply present_keys. }
  apply mapM_Some. rewrite <- list_fmap_compose.
  apply Forall2_fmap_l, Forall2_fmap_r, Forall2_same_length_lookup. split; [done|].
  intros i [k v] [k' v'] H1 H2. simplify_eq. simpl. apply object_field_present; [done|].
  by eapply list_elem_of_lookup_2.
Qed.

(** A derived structure: the visitor sees the fields that were written. *)
Lemma struct_reads {A} deny (names : list string) (fields : list (string * option Value))
    (visit : list field_value -> option A) (r : option A) :
  NoDup names -> fields.*1 = names -> visit (as_given <$> fields.*2) = r ->
  open_struct deny names (struct_value fields) ≫= visit = r.
Proof. intros Hnodup <- Hvisit. by rewrite open_struct_value. Qed.

Lemma struct_survives {A} deny (names : list string) (fields : A -> list (string * option Value))
    (visit : list field_value -> option A) (x : A) :
  NoDup names -> (fields x).*1 = names -> visit (as_given <$> (fields x).*2) = Some x ->
  open_struct deny names (struct_value (fields x)) ≫= visit = Some x.
Proof. apply struct_reads. Qed.

(** Extra keys next to known ones, and what [deny_unknown_fields] is for. *)
Lemma open_struct_known names fields l :
  open_struct true names (VObj fields) = Some l -> Forall (.∈ names) fields.*1.
Proof. unfold open_struct. by destruct (bool_decide_reflect (Forall (.∈ names) fields.*1)). Qed.

(** The value of a key of an object. *)
Definition member (k : string) (v : Value) : option Value :=
  match v with VObj fields => head (values_of k fields) | _ => None end.

Fixpoint at_path (path : list string) (v : Value) : option Value :=
  match path with
  | [] => Some v
  | k :: path => w ← member k v; at_path path w
  end.

(** The visitor sees what is under a key. *)
Lemma open_struct_member deny names v l i k w :
  open_struct deny names v = Some l -> names !! i = Some k -> member k v = Some w ->
  l !! i = Some (Given w).
Proof.
  destruct v as [| | | | | |fields]; try done. simpl. case_match; [done|].
  intros Hl Hk Hw. apply mapM_Some in Hl.
  destruct (Forall2_lookup_l _ _ _ _ _ Hl Hk) as (f & Hf & Hfield). rewrite Hf. f_equal.
  unfold object_field in Hfield. destruct (values_of k fields) as [|v' [|]]; [done| |done].
  simpl in Hw. congruence.
Qed.

Section fields.
Context {A : Type} `{Wire A}.

Lemma required_some (x : A) :
  survives x -> required (as_given (Some (serialize x))) = Some x.
Proof. apply deserialize_serialize. Qed.

Lemma with_default_some (d x : A) :
  survives x -> with_default d (as_given (Some (serialize x))) = Some x.
Proof. apply deserialize_serialize. Qed.

Lemma deserialize_option (x : A) :
  survives x -> deserialize (A:=option A) (serialize x) = Some (Some x).
Proof.
  intros Hx. simpl. pose proof (serialize_not_null x).
  destruct (serialize x) eqn:Hs; [done|..]; by rewrite <- Hs, deserialize_serialize.
Qed.

Lemma required_if_some (x : option A) :
  (forall y, x = Some y -> survives y) ->
  required (A:=option A) (as_given (serialize <$> x)) = Some x.
Proof. destruct x as [x|]; intros Hx; [by apply deserialize_option, Hx|done]. Qed.

Lemma deserialize_list (l : list A) :
  Forall survives l -> mapM deserialize (serialize <$> l) = Some l.
Proof.
  intros Hl. apply mapM_Some, Forall2_fmap_l.
  induction Hl; constructor; [by apply deserialize_serialize|done].
Qed.
End fields.

#[export] Instance string_wire : Wire string := {
  survives := fun _ => True;
  serialize_not_null := fun _ (H : VStr _ = VNull) => ltac:(discriminate H);
  deserialize_serialize := fun _ _ => eq_refl }.

#[export] Instance bool_wire : Wire bool := {
  survives := fun _ => True;
  serialize_not_null := fun _ (H : VBool _ = VNull) => ltac:(discriminate H);
  deserialize_serialize := fun _ _ => eq_refl }.

Definition int_wire (lo hi : Z) : @Wire Z int_serialize (int_deserialize lo hi).
Proof.
  refine {| survives := fun z => (lo <= z <= hi)%Z |}.
  - done.
  - intros z Hz. simpl. by rewrite bool_decide_eq_true_2.
Defined.

#[export] Instance list_wire {A} `{Wire A} : Wire (list A).
Proof.
  refine {| survives := Forall survives |}.
  - done.
  - apply deserialize_list.
Defined.

(** Entries in any order are read as the map they list. *)
Lemma foldl_insert_list_to_map {A} (entries : list (string * A)) m :
  NoDup entries.*1 -> (forall k, k ∈ entries.*1 -> m !! k = None) ->
  foldl (fun m kv => <[kv.1 := kv.2]> m) m entries = (list_to_map entries : gmap string A) ∪ m.
Proof.
  revert m. induction entries as [|[k v] entries IH]; intros m Hnodup Hm; simpl.
  { by rewrite (left_id_L ∅ (∪)). }
  rewrite fmap_cons, NoDup_cons in Hnodup. destruct Hnodup as [Hk Hnodup]. simpl in *.
  rewrite IH; [|done|].
  - rewrite <- insert_union_l. apply map_eq. intros i.
    destruct (decide (i = k)) as [->|Hne].
    + rewrite lookup_union, !lookup_insert_eq, not_elem_of_list_to_map_1; done.
    + rewrite lookup_insert_ne, !lookup_union, lookup_insert_ne; done.
  - intros k' Hk'. rewrite lookup_insert_ne by (intros ->; done). apply Hm. set_solver.
Qed.

Lemma deserialize_entries {A} `{Wire A} (m : gmap string A) (order : list (string * A)) :
  order ≡ₚ map_to_list m -> map_Forall (fun _ => survives) m ->
  deserialize (A:=gmap string A) (entries_value order) = Some m.
Proof.
  intros Horder Hm. simpl.
  assert (Hentries : mapM (fun kv => (kv.1,.) <$> deserialize kv.2)
    (prod_map id serialize <$> order) = Some order).
  { apply mapM_Some, Forall2_fmap_l, Forall2_same_length_lookup. split; [done|].
    intros i [k v] kv Hi Hi'. rewrite Hi in Hi'. simplify_eq. simpl.
    rewrite deserialize_serialize; [done|]. apply (Hm k), elem_of_map_to_list.
    rewrite <- Horder. by eapply list_elem_of_lookup_2. }
  rewrite Hentries. simpl. f_equal.
  assert (Hnodup : NoDup order.*1) by (rewrite Horder; apply NoDup_fst_map_to_list).
  rewrite foldl_insert_list_to_map by done.
  rewrite (right_id_L ∅ (∪)), <- (list_to_map_to_list m).
  by apply list_to_map_proper.
Qed.

#[export] Instance map_wire {A} `{Wire A} : Wire (gmap string A).
Proof.
  refine {| survives := map_Forall (fun _ => survives) |}.
  - done.
  - intros m Hm. by apply deserialize_entries.
Defined.
