(* ===== verification/Regex.v ===== *)
(** * Regular expressions

    The patterns that a CRD schema carries: their meaning as the set of the
    strings they match, a matcher by derivatives, and its correctness. *)

From stdpp Require Import base option strings list.
From Stdlib Require Import Ascii.
From S2P Require Import Prelude Strs.
Local Open Scope string_scope.

Inductive regex : Type :=
| RVoid
| REps
| RChr (p : ascii -> bool)
| RCat (a b : regex)
| RAlt (a b : regex)
| RStar (a : regex).

Definition ROpt (r : regex) : regex := RAlt REps r.
Definition RPlus (r : regex) : regex := RCat r (RStar r).

(** A literal followed by [r]. *)
Fixpoint RLit (s : string) (r : regex) : regex :=
  match s with
  | EmptyString => r
  | String c s => RCat (RChr (Ascii.eqb c)) (RLit s r)
  end.

(** ** The strings of a pattern *)

Inductive matches : regex -> string -> Prop :=
| matches_eps : matches REps ""
| matches_chr (p : ascii -> bool) c : p c = true -> matches (RChr p) (String c "")
| matches_cat a b s1 s2 : matches a s1 -> matches b s2 -> matches (RCat a b) (s1 ^^ s2)
| matches_left a b s : matches a s -> matches (RAlt a b) s
| matches_right a b s : matches b s -> matches (RAlt a b) s
| matches_nil a : matches (RStar a) ""
| matches_cons a s1 s2 : matches a s1 -> matches (RStar a) s2 -> matches (RStar a) (s1 ^^ s2).

#[local] Hint Constructors matches : core.

(** ** The matcher *)

Fixpoint nullable (r : regex) : bool :=
  match r with
  | RVoid | RChr _ => false
  | REps | RStar _ => true
  | RCat a b => nullable a && nullable b
  | RAlt a b => nullable a || nullable b
  end.

Fixpoint deriv (c : ascii) (r : regex) : regex :=
  match r with
  | RVoid | REps => RVoid
  | RChr p => if p c then REps else RVoid
  | RCat a b =>
      if nullable a then RAlt (RCat (deriv c a) b) (deriv c b) else RCat (deriv c a) b
  | RAlt a b => RAlt (deriv c a) (deriv c b)
  | RStar a => RCat (deriv c a) (RStar a)
  end.

Fixpoint regex_match (r : regex) (s : string) : bool :=
  match s with
  | EmptyString => nullable r
  | String c s => regex_match (deriv c r) s
  end.

Lemma append_nil_inv (a b : string) : a ^^ b = "" -> a = "" /\ b = "".
Proof. by destruct a. Qed.

Lemma nullable_correct r : nullable r = true <-> matches r "".
Proof.
  split.
  - induction r; simpl; try done; auto.
    + intros [Ha Hb]%andb_true_iff. change "" with ("" ^^ ""). auto.
    + intros [?|?]%orb_true_iff; auto.
  - intros Hm. remember "" as s eqn:Hs. induction Hm; simpl; try done.
    + apply append_nil_inv in Hs as [-> ->]. by rewrite IHHm1, IHHm2.
    + by rewrite IHHm.
    + by rewrite IHHm, orb_true_r.
Qed.

Lemma deriv_sound c r s : matches (deriv c r) s -> matches r (String c s).
Proof.
  revert s. induction r as [| |p|a IHa b IHb|a IHa b IHb|a IHa]; simpl; intros s Hm.
  - inversion Hm.
  - inversion Hm.
  - destruct (p c) eqn:Hp; inversion Hm; subst. by constructor.
  - destruct (nullable a) eqn:Hn; [inversion Hm as [| | |? ? ? Hl|? ? ? Hr| |]; subst|].
    + inversion Hl as [| |? ? s1 s2 H1 H2| | | |]; subst.
      change (String c (s1 ^^ s2)) with (String c s1 ^^ s2). auto.
    + apply nullable_correct in Hn. change (String c s) with ("" ^^ String c s). auto.
    + inversion Hm as [| |? ? s1 s2 H1 H2| | | |]; subst.
      change (String c (s1 ^^ s2)) with (String c s1 ^^ s2). auto.
  - inversion Hm; subst; auto.
  - inversion Hm as [| |? ? s1 s2 H1 H2| | | |]; subst.
    change (String c (s1 ^^ s2)) with (String c s1 ^^ s2). auto.
Qed.

Lemma deriv_complete c r s : matches r (String c s) -> matches (deriv c r) s.
Proof.
  intros Hm. remember (String c s) as s0 eqn:Hs0. revert s Hs0.
  induction Hm as [|p d Hd|a b s1 s2 H1 IH1 H2 IH2|a b s0 Hm IH|a b s0 Hm IH|a
    |a s1 s2 H1 IH1 H2 IH2]; intros s Hs0; simpl; try done.
  - injection Hs0 as -> <-. by rewrite Hd.
  - destruct s1 as [|d s1]; simpl in Hs0.
    + apply nullable_correct in H1. rewrite H1. auto.
    + injection Hs0 as -> <-. destruct (nullable a); auto.
  - auto.
  - auto.
  - destruct s1 as [|d s1]; simpl in Hs0; [by apply IH2|]. injection Hs0 as -> <-. auto.
Qed.

(** The matcher decides the language of the pattern. *)
Lemma regex_match_correct r s : regex_match r s = true <-> matches r s.
Proof.
  revert r. induction s as [|c s IH]; intros r; simpl; [apply nullable_correct|].
  rewrite IH. split; [apply deriv_sound|apply deriv_complete].
Qed.

(** ** The languages of the combinators *)

Lemma matches_alt_iff a b s : matches (RAlt a b) s <-> matches a s \/ matches b s.
Proof. split; [intros Hm; inversion Hm; auto|by intros [?|?]; auto]. Qed.

Lemma matches_cat_iff a b s :
  matches (RCat a b) s <-> exists s1 s2, s = s1 ^^ s2 /\ matches a s1 /\ matches b s2.
Proof.
  split; [intros Hm; inversion Hm; subst; eauto|]. by intros (s1 & s2 & -> & ? & ?); auto.
Qed.

Lemma matches_eps_iff s : matches REps s <-> s = "".
Proof. split; [by intros Hm; inversion Hm|by intros ->]. Qed.

Lemma matches_chr_iff p s : matches (RChr p) s <-> exists c, s = String c "" /\ p c = true.
Proof. split; [intros Hm; inversion Hm; eauto|by intros (c & -> & ?); auto]. Qed.

Lemma matches_opt_iff r s : matches (ROpt r) s <-> s = "" \/ matches r s.
Proof. unfold ROpt. by rewrite matches_alt_iff, matches_eps_iff. Qed.

Lemma matches_lit_iff p r s : matches (RLit p r) s <-> exists s', s = p ^^ s' /\ matches r s'.
Proof.
  revert s. induction p as [|c p IH]; intros s; simpl.
  { split; [by exists s|by intros (s' & -> & ?)]. }
  rewrite matches_cat_iff. setoid_rewrite matches_chr_iff. setoid_rewrite IH. split.
  - intros (s1 & s2 & -> & (d & -> & ->%Ascii.eqb_eq) & s' & -> & Hs'). by exists s'.
  - intros (s' & -> & Hs'). exists (String c ""), (p ^^ s'). split; [done|].
    split; [|by exists s']. exists c. by rewrite Ascii.eqb_refl.
Qed.

(** One or more characters of a class. *)
Lemma matches_star_chr p s : matches (RStar (RChr p)) s <-> forall_chars p s = true.
Proof.
  split.
  - intros Hm. remember (RStar (RChr p)) as r eqn:Hr. induction Hm; try done.
    injection Hr as ->. rewrite forall_chars_app, IHHm2, andb_true_r by done.
    apply matches_chr_iff in Hm1 as (c & -> & Hc). simpl. by rewrite Hc.
  - induction s as [|c s IH]; simpl; [auto|]. intros [Hc Hs]%andb_true_iff.
    change (String c s) with (String c "" ^^ s). auto.
Qed.

Definition some_chars (p : ascii -> bool) (s : string) : Prop :=
  s <> "" /\ forall_chars p s = true.

Lemma matches_plus_chr p s : matches (RPlus (RChr p)) s <-> some_chars p s.
Proof.
  unfold RPlus, some_chars. rewrite matches_cat_iff. setoid_rewrite matches_chr_iff.
  setoid_rewrite matches_star_chr. split.
  - intros (s1 & s2 & -> & (c & -> & Hc) & Hs2). simpl. by rewrite Hc.
  - intros [Hne Hs]. destruct s as [|c s]; [done|]. simpl in Hs. apply andb_true_iff in Hs as [Hc Hs].
    exists (String c ""), s. split; [done|]. split; [by exists c|done].
Qed.
