(* ===== verification/Time.v ===== *)
(** * Durations and wall-clock instants

    [std::time::Duration] and [std::time::SystemTime] as the program uses
    them, in nanoseconds.  A [Duration] holds at most [u64::MAX] seconds and
    999999999 nanoseconds; a [SystemTime] counts seconds since the epoch in an
    [i64], so [checked_add] fails when the seconds overflow. *)

From stdpp Require Import base option numbers.
From Stdlib Require Import ZArith Lia.
From S2P Require Import Prelude.
Local Open Scope Z_scope.

Definition Duration : Type := Z.
Definition SystemTime : Type := Z.

Definition nanos_per_sec : Z := 1000000000.
Definition duration_max : Duration := u64_max * nanos_per_sec + 999999999.

Definition from_secs (s : Z) : Duration := s * nanos_per_sec.

Definition checked_add (t : SystemTime) (d : Duration) : option SystemTime :=
  if bool_decide ((t + d) `div` nanos_per_sec <= i64_max) then Some (t + d) else None.

(** [SystemTime::duration_since]: an error when the argument is later. *)
Definition duration_since (t u : SystemTime) : result unit Duration :=
  if bool_decide (u <= t) then Ok (t - u) else Err tt.

(** [Duration::checked_sub] *)
Definition checked_sub (d e : Duration) : option Duration :=
  if bool_decide (e <= d) then Some (d - e) else None.

Lemma checked_add_Some t d r : checked_add t d = Some r -> r = t + d.
Proof. unfold checked_add. case_bool_decide; naive_solver. Qed.

Lemma checked_add_small t d :
  t + d < (i64_max + 1) * nanos_per_sec -> checked_add t d = Some (t + d).
Proof.
  intros H. unfold checked_add. rewrite bool_decide_eq_true_2; [done|].
  apply Z.lt_succ_r, Z.div_lt_upper_bound; unfold nanos_per_sec in *; lia.
Qed.

Lemma checked_add_None t d :
  (i64_max + 1) * nanos_per_sec <= t + d -> checked_add t d = None.
Proof.
  intros H. unfold checked_add. rewrite bool_decide_eq_false_2; [done|].
  assert (i64_max + 1 <= (t + d) `div` nanos_per_sec).
  { apply Z.div_le_lower_bound; unfold nanos_per_sec in *; lia. }
  lia.
Qed.
