(* ===== verification/Errors.v ===== *)
(** * Errors (src/src/lib.rs)

    The [Error] enum of the crate with its [Display] strings.  The wrapped
    errors of other crates carry the text their [Display] gives; a
    [kube::Error] also says whether it is an API status and with which code,
    because the web front end branches on it. *)

From stdpp Require Import base option strings numbers.
From S2P Require Import Prelude Strs.
Local Open Scope string_scope.

(** [kube::Error]: [Api] holds a status with a code, every other variant only
    matters through its text. *)
Inductive KubeErr : Type :=
| KApi (code : Z) (status_msg msg : string)
| KOther (msg : string).

Definition kube_msg (e : KubeErr) : string :=
  match e with KApi _ _ m => m | KOther m => m end.

Inductive Error : Type :=
| KubeError (e : KubeErr)
| LeaseManagerError (msg : string)
| FinalizerError (msg : string)
| GitrepoAccessError (msg : string)
| SecretDecodingError (msg : string)
| RuntimeConfigFormatError
| TriggerFileAccessError (msg : string)
| TriggerDirWalkError (msg : string)
| TriggerFilePatternError (msg : string)
| SchedulerError (msg : string)
| ConfigDeserializationError (msg : string)
| ConfigSerializationError (msg : string)
| ResourceNotFoundError (name : string)
| JobsQueueError (msg : string)
| InvalidRequestRateLimit (value : string).

(** The [#[error(...)]] formats. *)
Definition error_to_string (e : Error) : string :=
  match e with
  | KubeError e => "Kube Error: " ^^ kube_msg e
  | LeaseManagerError m => "LeaseManager Error: " ^^ m
  | FinalizerError m => "Finalizer Error: " ^^ m
  | GitrepoAccessError m => "GitRepo Access Error: " ^^ m
  | SecretDecodingError m => "GitRepo Secret Decoding Error: " ^^ m
  | RuntimeConfigFormatError => "RuntimeConfig ConfigMap format Error"
  | TriggerFileAccessError m => "Trigger file access IO error: " ^^ m
  | TriggerDirWalkError m => "Trigger dir walk error: " ^^ m
  | TriggerFilePatternError m => "Trigger file pattern error: " ^^ m
  | SchedulerError m => "Task scheduler error: " ^^ m
  | ConfigDeserializationError m => "Config deserialization error: " ^^ m
  | ConfigSerializationError m => "Config serialization error: " ^^ m
  | ResourceNotFoundError n => "Resource not found in cache: " ^^ n
  | JobsQueueError m => "JobsQueue error: " ^^ m
  | InvalidRequestRateLimit v => "Incorrect request rate limit parameter: " ^^ v
  end.

#[export] Instance KubeErr_eq_dec : EqDecision KubeErr.
Proof. solve_decision. Defined.
#[export] Instance Error_eq_dec : EqDecision Error.
Proof. solve_decision. Defined.
