(* ===== verification/Config.v ===== *)
(** * Runtime configuration (src/src/config.rs)

    The configuration tree with its defaults, the conversion from a
    ConfigMap, and the watcher that publishes the current configuration on a
    watch channel.  The YAML reader and writer ([serde_saphyr]) are
    parameters. *)

From stdpp Require Import base option gmap strings list.
From S2P Require Import Prelude Strs Errors.
Local Open Scope string_scope.

Definition CONFIG_MAP_DATA_NAME : string := "runtimeConfig".
Definition DEFAULT_CONTAINER_REPO : string := "ghcr.io/alex-karpenko/git-events-runner".
Definition quote : string := String (Ascii.ascii_of_nat 34) EmptyString.
Definition DEFAULT_SERVICE_ACCOUNT_NAME_TEMPLATE : string :=
  "{{ include " ^^ quote ^^ "git-events-runner.actionJobServiceAccountName" ^^ quote ^^ " . }}".
Definition DEFAULT_CLONER_IMAGE_NAME : string := "gitrepo-cloner".
Definition DEFAULT_CLONER_CONTAINER_NAME : string := "action-cloner".
Definition DEFAULT_WORKER_IMAGE_NAME : string := "action-worker".
Definition DEFAULT_WORKER_CONTAINER_NAME : string := "action-worker".
Definition DEFAULT_WORKER_ENV_VARIABLES_PREFIX : string := "ACTION_JOB_".
Definition DEFAULT_ACTION_WORKDIR_MOUNT_PATH : string := "/action_workdir".
Definition DEFAULT_ACTION_WORKDIR_VOLUME_NAME : string := "action-workdir".
Definition DEFAULT_WEBHOOK_TRIGGER_AUTH_HEADER : string := "x-trigger-auth".
Definition DEFAULT_TTL_SECONDS_AFTER_FINISHED : Z := 7200.
Definition DEFAULT_ACTIVE_DEADLINE_SECONDS : Z := 3600.
Definition DEFAULT_MAX_RUNNING_ACTION_JOBS : Z := 16.
Definition DEFAULT_ACTION_JOB_WAITING_TIMEOUT_SECONDS : Z := 300.

(** The version of src/Cargo.toml, which [env!] inlines. *)
Definition CARGO_PKG_VERSION : string := "0.5.0".

(** ** The configuration tree *)

Record ActionWorkdirConfig := {
  mount_path : string;
  volume_name : string }.

Record ActionContainersClonerConfig := {
  cloner_name : string;
  cloner_image : string }.

Record ActionContainersWorkerConfig := {
  worker_name : string;
  worker_image : string;
  variables_prefix : string }.

Record ActionContainersConfig := {
  cc_cloner : ActionContainersClonerConfig;
  cc_worker : ActionContainersWorkerConfig }.

Record ActionConfig := {
  max_running_jobs : Z; (* usize *)
  job_waiting_timeout_seconds : Z; (* u64 *)
  default_service_account : option string;
  active_deadline_seconds : Z; (* i64 *)
  ttl_seconds_after_finished : Z; (* i32 *)
  ac_workdir : ActionWorkdirConfig;
  ac_containers : ActionContainersConfig }.

Record TriggerWebhookConfig := { default_auth_header : string }.

Record TriggerConfig := { tc_webhook : TriggerWebhookConfig }.

Record RuntimeConfig := {
  rc_action : ActionConfig;
  rc_trigger : TriggerConfig }.

#[export] Instance ActionWorkdirConfig_eq_dec : EqDecision ActionWorkdirConfig.
Proof. solve_decision. Defined.
#[export] Instance ActionContainersClonerConfig_eq_dec : EqDecision ActionContainersClonerConfig.
Proof. solve_decision. Defined.
#[export] Instance ActionContainersWorkerConfig_eq_dec : EqDecision ActionContainersWorkerConfig.
Proof. solve_decision. Defined.
#[export] Instance ActionContainersConfig_eq_dec : EqDecision ActionContainersConfig.
Proof. solve_decision. Defined.
#[export] Instance ActionConfig_eq_dec : EqDecision ActionConfig.
Proof. solve_decision. Defined.
#[export] Instance TriggerWebhookConfig_eq_dec : EqDecision TriggerWebhookConfig.
Proof. solve_decision. Defined.
#[export] Instance TriggerConfig_eq_dec : EqDecision TriggerConfig.
Proof. solve_decision. Defined.
#[export] Instance RuntimeConfig_eq_dec : EqDecision RuntimeConfig.
Proof. solve_decision. Defined.

(** ** Defaults *)

Definition ActionWorkdirConfig_default : ActionWorkdirConfig := {|
  mount_path := DEFAULT_ACTION_WORKDIR_MOUNT_PATH;
  volume_name := DEFAULT_ACTION_WORKDIR_VOLUME_NAME |}.

Definition ActionContainersClonerConfig_default : ActionContainersClonerConfig := {|
  cloner_name := DEFAULT_CLONER_CONTAINER_NAME;
  cloner_image := DEFAULT_CONTAINER_REPO ^^ "/" ^^ DEFAULT_CLONER_IMAGE_NAME ^^ ":v" ^^ CARGO_PKG_VERSION |}.

Definition ActionContainersWorkerConfig_default : ActionContainersWorkerConfig := {|
  worker_name := DEFAULT_WORKER_CONTAINER_NAME;
  worker_image := DEFAULT_CONTAINER_REPO ^^ "/" ^^ DEFAULT_WORKER_IMAGE_NAME ^^ ":v" ^^ CARGO_PKG_VERSION;
  variables_prefix := DEFAULT_WORKER_ENV_VARIABLES_PREFIX |}.

Definition ActionContainersConfig_default : ActionContainersConfig := {|
  cc_cloner := ActionContainersClonerConfig_default;
  cc_worker := ActionContainersWorkerConfig_default |}.

Definition ActionConfig_default : ActionConfig := {|
  ac_workdir := ActionWorkdirConfig_default;
  ac_containers := ActionContainersConfig_default;
  default_service_account := None;
  ttl_seconds_after_finished := DEFAULT_TTL_SECONDS_AFTER_FINISHED;
  active_deadline_seconds := DEFAULT_ACTIVE_DEADLINE_SECONDS;
  max_running_jobs := DEFAULT_MAX_RUNNING_ACTION_JOBS;
  job_waiting_timeout_seconds := DEFAULT_ACTION_JOB_WAITING_TIMEOUT_SECONDS |}.

Definition TriggerWebhookConfig_default : TriggerWebhookConfig := {|
  default_auth_header := DEFAULT_WEBHOOK_TRIGGER_AUTH_HEADER |}.

Definition TriggerConfig_default : TriggerConfig := {|
  tc_webhook := TriggerWebhookConfig_default |}.

Definition RuntimeConfig_default : RuntimeConfig := {|
  rc_action := ActionConfig_default;
  rc_trigger := TriggerConfig_default |}.

(** ** ConfigMaps and the watcher *)

(** The fields of a Kubernetes ConfigMap the program reads. *)
Record ConfigMap := {
  cm_namespace : option string;
  cm_name : option string;
  cm_data : option (gmap string string) }.

Inductive YamlConfigOpts : Type := Raw | HelmTemplate.

Section Config.
Variable from_yaml : string -> result string RuntimeConfig.
Variable to_yaml : RuntimeConfig -> result string string.

(** [impl TryFrom<ConfigMap> for RuntimeConfig] *)
Definition try_from_config_map (value : ConfigMap) : result Error RuntimeConfig :=
  match unwrap_or ∅ (cm_data value) !! CONFIG_MAP_DATA_NAME with
  | Some config_data =>
      match from_yaml config_data with
      | Ok config => Ok config
      | Err err => Err (ConfigDeserializationError err)
      end
  | None => Err RuntimeConfigFormatError
  end.

(** The configuration loaded at start, from the answer of [cm_api.get]. *)
Definition initial_config (fetched : result KubeErr ConfigMap) : RuntimeConfig :=
  match fetched with
  | Ok cm =>
      match try_from_config_map cm with
      | Ok config => config
      | Err _ => RuntimeConfig_default
      end
  | Err _ => RuntimeConfig_default
  end.

(** One item of the ConfigMap stream: the value of the channel afterwards.
    The key for the log line unwraps the namespace and the name. *)
Definition on_config_map (current : RuntimeConfig) (cm : result string ConfigMap)
    : outcome RuntimeConfig :=
  match cm with
  | Ok cm =>
      match cm_namespace cm, cm_name cm with
      | Some _, Some _ =>
          match try_from_config_map cm with
          | Ok config => Ret config
          | Err _ => Ret current
          end
      | _, _ => Panic
      end
  | Err _ => Ret current
  end.

Fixpoint watch_config_maps (current : RuntimeConfig) (stream : list (result string ConfigMap))
    : outcome RuntimeConfig :=
  match stream with
  | [] => Ret current
  | cm :: stream =>
      match on_config_map current cm with
      | Ret config => watch_config_maps config stream
      | Panic => Panic
      end
  end.

(** [RuntimeConfig::init_and_watch], up to the last stream item seen: the
    value of the channel, which is what [get] and [channel] hand out. *)
Definition init_and_watch (fetched : result KubeErr ConfigMap)
    (stream : list (result string ConfigMap)) : outcome RuntimeConfig :=
  watch_config_maps (initial_config fetched) stream.

(** ** The cell

    [CONFIG_TX_CHANNEL]: a cell for the sender of the watch channel, set once
    by the spawned [init_and_watch]; what is kept here is the channel's
    value.  [get] (through [channel] and [get_from_watch_channel]) unwraps the
    cell. *)
Definition ConfigCell : Type := option RuntimeConfig.

Definition config_get (cell : ConfigCell) : outcome RuntimeConfig :=
  match cell with Some config => Ret config | None => Panic end.

(** The start of [init_and_watch]: the cell is set, unless it is already, and
    holds the default until the ConfigMap was fetched; then [send_replace]. *)
Definition config_set_default (cell : ConfigCell) : ConfigCell :=
  match cell with None => Some RuntimeConfig_default | Some config => Some config end.

Definition send_replace (config : RuntimeConfig) (cell : ConfigCell) : outcome ConfigCell :=
  match cell with Some _ => Ret (Some config) | None => Panic end.

(** The states of the cell that readers can see, in order. *)
Definition config_states (fetched : result KubeErr ConfigMap) (cell : ConfigCell)
    : list ConfigCell :=
  let set := config_set_default cell in
  match send_replace (initial_config fetched) set with
  | Ret initial => [cell; set; initial]
  | Panic => [cell; set]
  end.

(** [RuntimeConfig::default_as_yaml_string] *)
Definition helm_template_config : RuntimeConfig := {|
  rc_action := {|
    max_running_jobs := max_running_jobs ActionConfig_default;
    job_waiting_timeout_seconds := job_waiting_timeout_seconds ActionConfig_default;
    default_service_account := Some DEFAULT_SERVICE_ACCOUNT_NAME_TEMPLATE;
    active_deadline_seconds := active_deadline_seconds ActionConfig_default;
    ttl_seconds_after_finished := ttl_seconds_after_finished ActionConfig_default;
    ac_workdir := ActionWorkdirConfig_default;
    ac_containers := {|
      cc_cloner := {|
        cloner_name := DEFAULT_CLONER_CONTAINER_NAME;
        cloner_image := DEFAULT_CONTAINER_REPO ^^ "/" ^^ DEFAULT_CLONER_IMAGE_NAME ^^ ":"
          ^^ "{{ .Chart.AppVersion }}" |};
      cc_worker := {|
        worker_name := DEFAULT_WORKER_CONTAINER_NAME;
        worker_image := DEFAULT_CONTAINER_REPO ^^ "/" ^^ DEFAULT_WORKER_IMAGE_NAME ^^ ":"
          ^^ "{{ .Chart.AppVersion }}";
        variables_prefix := DEFAULT_WORKER_ENV_VARIABLES_PREFIX |} |} |};
  rc_trigger := TriggerConfig_default |}.

Definition default_as_yaml_string (opts : YamlConfigOpts) : result Error string :=
  let config := match opts with
                | Raw => RuntimeConfig_default
                | HelmTemplate => helm_template_config
                end in
  map_err ConfigSerializationError (to_yaml config).

(** ** What the watcher guarantees *)

(** The configuration an item of the stream carries, when it carries one. *)
Definition valid_config (cm : result string ConfigMap) : option RuntimeConfig :=
  match cm with
  | Ok cm => match try_from_config_map cm with Ok config => Some config | Err _ => None end
  | Err _ => None
  end.

(** Objects of the API server have a name, and ConfigMaps a namespace. *)
Definition named (cm : result string ConfigMap) : Prop :=
  match cm with
  | Ok cm => is_Some (cm_namespace cm) /\ is_Some (cm_name cm)
  | Err _ => True
  end.

Lemma on_config_map_named current cm :
  named cm -> on_config_map current cm = Ret (unwrap_or current (valid_config cm)).
Proof.
  unfold named, on_config_map, valid_config.
  destruct cm as [cm|]; [|done]. intros [[? ->] [? ->]].
  by destruct (try_from_config_map cm) as [config|err].
Qed.

(** Reading the configuration while it is being set up: before the spawned
    task has run, [get] panics; from its first step on it never does, and
    answers the default until the ConfigMap was fetched, then what was
    fetched. *)
Theorem config_cell_spec fetched :
  config_get <$> config_states fetched None
  = [Panic; Ret RuntimeConfig_default; Ret (initial_config fetched)].
Proof. done. Qed.

(** The channel holds the last valid configuration: items that fail to
    parse, lack the [runtimeConfig] key or are stream errors change nothing,
    and until a valid item arrives the initially fetched configuration (or
    the default) stays. *)
Theorem init_and_watch_last_valid fetched stream :
  Forall named stream ->
  init_and_watch fetched stream
  = Ret (unwrap_or (initial_config fetched) (last (omap valid_config stream))).
Proof.
  unfold init_and_watch. generalize (initial_config fetched) as current.
  induction stream as [|cm stream IH]; intros current Hall; [done|].
  inversion Hall; subst. simpl watch_config_maps.
  rewrite on_config_map_named, IH by done.
  rewrite omap_cons_eq. destruct (valid_config cm); [|done].
  rewrite last_cons. by destruct (last (omap valid_config stream)).
Qed.
End Config.

(** The hypothesis of [init_and_watch_last_valid] holds for a stream with one
    broken and one good item. *)
Definition example_yaml (s : string) : result string RuntimeConfig :=
  if String.eqb s "good" then Ok helm_template_config else Err "bad document".

Definition example_cm (s : string) : ConfigMap := {|
  cm_namespace := Some "default"; cm_name := Some "config";
  cm_data := Some {[ CONFIG_MAP_DATA_NAME := s ]} |}.

Lemma init_and_watch_last_valid_witness :
  init_and_watch example_yaml (Err (KOther "no connection"))
    [Ok (example_cm "good"); Ok (example_cm "broken"); Err "watch error"]
  = Ret helm_template_config.
Proof.
  rewrite (init_and_watch_last_valid example_yaml).
  - vm_compute. reflexivity.
  - repeat constructor; eauto.
Defined.
