(* ===== verification/Ext.v ===== *)
(** * Code outside the repository

    [Ext] collects the pure functions and opaque data types of other crates
    the program uses: time and cron parsing ([humantime], [sacs], [chrono]),
    SHA-256, git object ids, and two Kubernetes structures that are only
    copied.  Every theorem holds for all of them; what a theorem needs to know
    about one is a hypothesis of that theorem.

    The second part lists the Kubernetes objects the program builds or reads,
    with the fields it touches. *)

From stdpp Require Import base option gmap strings list.
From Stdlib Require Import Ascii ZArith.
From S2P Require Import Prelude Strs Time.

Local Open Scope string_scope.

Class Ext : Type := {
  CronSchedule : Type;
  (** [CronSchedule::try_from] *)
  parse_cron : string -> option CronSchedule;
  (** [str::parse::<humantime::Duration>] *)
  parse_humantime : string -> option Duration;
  (** [DateTime::parse_from_rfc3339], then into a [SystemTime] *)
  parse_rfc3339 : string -> option SystemTime;
  (** [to_rfc3339_opts(SecondsFormat::Secs, true)] *)
  rfc3339_secs : Z -> string;
  (** [DateTime::<Local>::from(t).format("%Y%m%d-%H%M%S")] *)
  local_timestamp : SystemTime -> string;
  (** SHA-256 of a byte string *)
  sha256 : string -> string;
  (** [git2::Oid::from_str], then [to_string] *)
  oid_from_str : string -> result string string;
  Affinity : Type;
  Toleration : Type }.

(** ** Kubernetes objects *)

Record OwnerReference := {
  or_kind : string;
  or_name : string;
  or_uid : string }.

Record ObjectMeta := {
  om_name : option string;
  om_namespace : option string;
  om_labels : option (gmap string string);
  om_annotations : option (gmap string string);
  om_owner_references : option (list OwnerReference) }.

Definition ObjectMeta_default : ObjectMeta := {|
  om_name := None; om_namespace := None; om_labels := None;
  om_annotations := None; om_owner_references := None |}.

(** [js_other] stands for the fields that only matter when two statuses are
    compared. *)
Record JobStatus := {
  js_succeeded : option Z;
  js_failed : option Z;
  js_start_time : option SystemTime;
  js_other : string }.

#[export] Instance JobStatus_eq_dec : EqDecision JobStatus.
Proof. solve_decision. Defined.

Record EnvVar := { ev_name : string; ev_value : option string }.

Record VolumeMount := { vm_name : string; vm_mount_path : string }.

Record Container := {
  ct_name : string;
  ct_image : option string;
  ct_working_dir : option string;
  ct_command : option (list string);
  ct_args : option (list string);
  ct_env : option (list EnvVar);
  ct_volume_mounts : option (list VolumeMount) }.

(** A volume backed by an empty directory, the only kind the program makes. *)
Record Volume := { vol_name : string; vol_empty_dir : bool }.

Record PodSpec `{Ext} := {
  ps_service_account_name : option string;
  ps_node_selector : option (gmap string string);
  ps_affinity : option Affinity;
  ps_tolerations : option (list Toleration);
  ps_init_containers : option (list Container);
  ps_containers : list Container;
  ps_restart_policy : option string;
  ps_volumes : option (list Volume) }.

Record PodTemplateSpec `{Ext} := {
  pt_metadata : option ObjectMeta;
  pt_spec : option PodSpec }.

Record JobSpec `{Ext} := {
  jspec_backoff_limit : option Z;
  jspec_parallelism : option Z;
  jspec_ttl_seconds_after_finished : option Z;
  jspec_active_deadline_seconds : option Z;
  jspec_template : PodTemplateSpec }.

Record Job `{Ext} := {
  job_metadata : ObjectMeta;
  job_spec : option JobSpec;
  job_status : option JobStatus }.

(** The [data] part of a Secret: raw bytes under each key. *)
Definition Secret : Type := option (gmap string string).

(** A concrete instance, for the examples and witnesses of the development:
    readable stand-ins with the right shape, not the real parsers. *)
Definition example_humantime (s : string) : option Duration :=
  match split "s"%char s with
  | [n; EmptyString] => from_secs <$> parse_uint u64_max n
  | _ => None
  end.

Definition example_cron (s : string) : option string :=
  if bool_decide (length (split " "%char s) = 5%nat) then Some s else None.

(** The timestamp with the number of seconds in unary. *)
Fixpoint tally (n : nat) : string :=
  match n with O => EmptyString | S n => String "I" (tally n) end.

Definition example_ext : Ext := {|
  CronSchedule := string;
  parse_cron := example_cron;
  parse_humantime := example_humantime;
  parse_rfc3339 := fun s =>
    if String.eqb s "Never" then None else Some (from_secs (Z.of_nat (String.length s)));
  rfc3339_secs := fun z => tally (Z.to_nat (z / nanos_per_sec));
  local_timestamp := fun _ => "20240102-030405"%string;
  sha256 := fun s => s;
  oid_from_str := fun s => if String.eqb s EmptyString then Err "bad oid"%string else Ok s;
  Affinity := unit;
  Toleration := unit |}.
