(* ===== verification/Resources.v ===== *)
(** * Custom resources: data

    The CRD structures of src/src/resources/trigger.rs, action.rs and
    git_repo.rs with their small accessors.  A resource that comes from the
    API carries its name ([name_any]) and namespace next to its spec. *)

From stdpp Require Import base option gmap strings list.
From S2P Require Import Prelude Strs Time Ext.
Local Open Scope string_scope.

(** ** Triggers (trigger.rs) *)

Definition NEVER_LAST_RUN_STR : string := "Never".

Inductive TriggerState : Type := Idle | Running | WrongConfig.

Definition TriggerState_default : TriggerState := Idle.

Record CheckedSourceState := {
  commit_hash : option string;
  file_hash : option string;
  changed : option string }.

#[export] Instance CheckedSourceState_eq_dec : EqDecision CheckedSourceState.
Proof. solve_decision. Defined.

Definition CheckedSourceState_is_equal (self : CheckedSourceState)
    (other : option CheckedSourceState) (with_file : bool) : bool :=
  match other with
  | Some other =>
      if negb with_file
      then bool_decide (commit_hash self = commit_hash other)
      else bool_decide (file_hash self = file_hash other)
  | None =>
      bool_decide (commit_hash self = None) && bool_decide (file_hash self = None)
  end.

Record TriggerStatus := {
  state : TriggerState;
  last_run : option string;
  checked_sources : gmap string CheckedSourceState }.

Definition TriggerStatus_default : TriggerStatus := {|
  state := TriggerState_default; last_run := None; checked_sources := ∅ |}.

Inductive TriggerSourceKind : Type := KindGitRepo | KindClusterGitRepo.

#[export] Instance TriggerSourceKind_eq_dec : EqDecision TriggerSourceKind.
Proof. solve_decision. Defined.

Definition TriggerSourceKind_to_string (k : TriggerSourceKind) : string :=
  match k with KindGitRepo => "GitRepo" | KindClusterGitRepo => "ClusterGitRepo" end.

(** The derived [EnumString]: the inverse of the derived [Display]. *)
Definition TriggerSourceKind_from_str (s : string) : option TriggerSourceKind :=
  if String.eqb s "GitRepo" then Some KindGitRepo
  else if String.eqb s "ClusterGitRepo" then Some KindClusterGitRepo
  else None.

Inductive TriggerGitRepoReference : Type :=
| Branch (r : string)
| Tag (r : string)
| Commit (r : string).

#[export] Instance TriggerGitRepoReference_eq_dec : EqDecision TriggerGitRepoReference.
Proof. solve_decision. Defined.

Definition TriggerGitRepoReference_default : TriggerGitRepoReference := Branch "main".

(** [to_refname]: reference type (with a prefix, if any) and name. *)
Definition to_refname (self : TriggerGitRepoReference) (prefix : option string)
    : string * string :=
  let prefix := unwrap_or "" prefix in
  match self with
  | Branch branch => (prefix ^^ "branch", branch)
  | Tag tag => (prefix ^^ "tag", tag)
  | Commit commit => (prefix ^^ "commit", commit)
  end.

Definition TriggerGitRepoReference_fmt (self : TriggerGitRepoReference) : string :=
  let '(ref_type, ref_name) := to_refname self None in
  ref_type ^^ "/" ^^ ref_name.

Record TriggerWatchOn := {
  on_change_only : bool;
  reference : TriggerGitRepoReference;
  files : option (list string) }.

Definition TriggerWatchOn_default : TriggerWatchOn := {|
  on_change_only := true; reference := TriggerGitRepoReference_default; files := None |}.

Definition reference_name (self : TriggerWatchOn) : string :=
  match reference self with
  | Branch r => r
  | Tag r => r
  | Commit r => r
  end.

Record TriggerSources := {
  sources_kind : TriggerSourceKind;
  names : list string;
  watch_on : TriggerWatchOn }.

Inductive TriggerSchedule : Type :=
| Interval (interval : string)
| Cron (cron : string).

#[export] Instance TriggerSchedule_eq_dec : EqDecision TriggerSchedule.
Proof. solve_decision. Defined.

Definition TriggerSchedule_is_valid `{Ext} (self : TriggerSchedule) : bool :=
  match self with
  | Interval interval => bool_decide (is_Some (parse_humantime interval))
  | Cron cron => match parse_cron cron with Some _ => true | None => false end
  end.

Inductive TriggerActionKind : Type := KindAction | KindClusterAction.

Definition TriggerActionKind_to_string (k : TriggerActionKind) : string :=
  match k with KindAction => "Action" | KindClusterAction => "ClusterAction" end.

Record TriggerAction := {
  action_kind : TriggerActionKind;
  action_name : string }.

Record TriggerWebhookAuthConfig := {
  auth_secret_name : string; (* secret_ref.name *)
  auth_key : string;
  auth_header : option string }.

Record TriggerWebhook := {
  multi_source : bool;
  auth_config : option TriggerWebhookAuthConfig }.

Record ScheduleTriggerSpec := {
  sts_sources : TriggerSources;
  sts_schedule : TriggerSchedule;
  sts_action : TriggerAction }.

Record WebhookTriggerSpec := {
  wts_sources : TriggerSources;
  wts_webhook : TriggerWebhook;
  wts_action : TriggerAction }.

Record ScheduleTrigger := {
  st_name : string;
  st_namespace : option string;
  st_spec : ScheduleTriggerSpec;
  st_status : option TriggerStatus }.

Record WebhookTrigger := {
  wt_name : string;
  wt_namespace : option string;
  wt_spec : WebhookTriggerSpec;
  wt_status : option TriggerStatus }.

(** Which sources a task checks. *)
Inductive TriggerTaskSources : Type := All | Single (source : string).

(** ** Git repositories (git_repo.rs) *)

Record GitSecretRef := {
  sr_name : string;
  sr_namespace : option string }.

Record TlsCaConfig := {
  ca_secret_ref : GitSecretRef;
  ca_key : string }.

Definition TlsCaConfig_default_ca_data_key : string := "ca.crt".

Record TlsConfig := {
  no_verify_ssl : bool;
  ca_cert : option TlsCaConfig }.

Inductive GitAuthType : Type := Basic | Token | Ssh.

Record GitAuthSecretKeys := {
  key_username : string;
  key_password : string;
  key_token : string;
  key_private_key : string }.

Definition GitAuthSecretKeys_default : GitAuthSecretKeys := {|
  key_username := "username";
  key_password := "password";
  key_token := "token";
  key_private_key := "ssh-privatekey" |}.

Record GitAuthConfig := {
  auth_type : GitAuthType;
  auth_secret_ref : GitSecretRef;
  auth_keys : GitAuthSecretKeys }.

Record GitRepo := {
  gr_name : string;
  gr_repo_uri : string;
  gr_tls_config : option TlsConfig;
  gr_auth_config : option GitAuthConfig }.

Record ClusterGitRepo := {
  cgr_name : string;
  cgr_repo_uri : string;
  cgr_tls_config : option TlsConfig;
  cgr_auth_config : option GitAuthConfig }.

(** ** Actions (action.rs) *)

Record ActionSourceOverride := {
  so_kind : TriggerSourceKind;
  so_name : string;
  so_reference : TriggerGitRepoReference }.

(** The only allowed kind is ClusterGitRepo. *)
Inductive TriggerClusterSourceKind : Type := ClusterKindClusterGitRepo.

Record ClusterActionSourceOverride := {
  cso_kind : TriggerClusterSourceKind;
  cso_name : string;
  cso_reference : TriggerGitRepoReference }.

Record ActionJob `{Ext} := {
  aj_workdir : option string;
  aj_cloner_image : option string;
  aj_action_image : option string;
  aj_args : option (list string);
  aj_command : option (list string);
  aj_service_account : option string;
  aj_annotations : option (gmap string string);
  aj_labels : option (gmap string string);
  aj_tolerations : option (list Toleration);
  aj_affinity : option Affinity;
  aj_node_selector : option (gmap string string);
  aj_ttl_seconds_after_finished : option Z; (* i32 *)
  aj_active_deadline_seconds : option Z; (* i64 *)
  aj_job_waiting_timeout_seconds : option Z; (* u64 *)
  aj_enable_cloner_debug : bool;
  aj_preserve_git_folder : bool }.

Definition ActionJob_default `{Ext} : ActionJob := {|
  aj_workdir := None; aj_cloner_image := None; aj_action_image := None;
  aj_args := None; aj_command := None; aj_service_account := None;
  aj_annotations := None; aj_labels := None; aj_tolerations := None;
  aj_affinity := None; aj_node_selector := None;
  aj_ttl_seconds_after_finished := None; aj_active_deadline_seconds := None;
  aj_job_waiting_timeout_seconds := None;
  aj_enable_cloner_debug := false; aj_preserve_git_folder := false |}.

(** Actions carry the owner reference that [controller_owner_ref] derives from
    their metadata ([None] when the object has no name or uid). *)
Record Action `{Ext} := {
  ac_name : string;
  ac_owner_ref : option OwnerReference;
  ac_source_override : option ActionSourceOverride;
  ac_action_job : ActionJob }.

Record ClusterAction `{Ext} := {
  cac_name : string;
  cac_owner_ref : option OwnerReference;
  cac_source_override : option ClusterActionSourceOverride;
  cac_action_job : ActionJob }.
