(* ===== verification/Wire.v ===== *)
(** * The resources and the configuration on the wire

    How the structures of src/src/resources/{trigger,action,git_repo}.rs and
    src/src/config.rs are written and read: each with the attributes of its
    [#[derive(Serialize, Deserialize)]] (Serde.v has the rules).  A structure
    [S] has its fields with their values ([S_fields]), its visitor ([S_visit])
    and the instances. *)

From stdpp Require Import base option gmap strings list.
From Stdlib Require Import ZArith Lia.
From S2P Require Import Prelude Strs Serde Time Errors Config Ext Resources.
Local Open Scope string_scope.
Local Open Scope list_scope.

(** An enum whose variants hold nothing, by the names of its variants. *)
Definition variant_of {A} (variants : list (string * A)) (v : Value) : option A :=
  name ← unit_variant v; (list_to_map variants : gmap string A) !! name.

Definition deserialize_unit_enum {A} (variants : list (string * A)) : Deserialize A := {|
  deserialize := variant_of variants;
  missing := None |}.

(** A structure: its keys, its visitor, and whether unknown keys are errors. *)
Definition deserialize_struct {A} (deny_unknown : bool) (names : list string)
    (visit : list field_value -> option A) : Deserialize A := {|
  deserialize := fun v => open_struct deny_unknown names v ≫= visit;
  missing := None |}.

(** ** Triggers (trigger.rs) *)

#[export] Instance TriggerState_serialize : Serialize TriggerState := fun self =>
  VStr match self with Idle => "Idle" | Running => "Running" | WrongConfig => "WrongConfig" end.
#[export] Instance TriggerState_deserialize : Deserialize TriggerState :=
  deserialize_unit_enum [("Idle", Idle); ("Running", Running); ("WrongConfig", WrongConfig)].

Definition CheckedSourceState_keys : list string :=
  camel <$> ["commit_hash"; "file_hash"; "changed"].
Definition CheckedSourceState_fields (self : CheckedSourceState) : list (string * option Value) := [
  field_if_some (camel "commit_hash") (commit_hash self);
  field_if_some (camel "file_hash") (file_hash self);
  field_if_some (camel "changed") (changed self) ].
Definition CheckedSourceState_visit (fields : list field_value) : option CheckedSourceState :=
  match fields with
  | [f1; f2; f3] =>
      commit_hash_ ← required f1; file_hash_ ← required f2; changed_ ← required f3;
      Some {| commit_hash := commit_hash_; file_hash := file_hash_; changed := changed_ |}
  | _ => None
  end.
#[export] Instance CheckedSourceState_serialize : Serialize CheckedSourceState := fun self =>
  struct_value (CheckedSourceState_fields self).
#[export] Instance CheckedSourceState_deserialize : Deserialize CheckedSourceState :=
  deserialize_struct false CheckedSourceState_keys CheckedSourceState_visit.

(** [checked_sources] is skipped when empty but has no default. *)
Definition TriggerStatus_keys : list string := camel <$> ["state"; "last_run"; "checked_sources"].
Definition TriggerStatus_fields (self : TriggerStatus) : list (string * option Value) := [
  field (camel "state") (state self);
  field_if_some (camel "last_run") (last_run self);
  (camel "checked_sources", if bool_decide (checked_sources self = ∅) then None
                            else Some (serialize (checked_sources self))) ].
Definition TriggerStatus_visit (fields : list field_value) : option TriggerStatus :=
  match fields with
  | [f1; f2; f3] =>
      state_ ← required f1; last_run_ ← required f2; checked_sources_ ← required f3;
      Some {| state := state_; last_run := last_run_; checked_sources := checked_sources_ |}
  | _ => None
  end.
#[export] Instance TriggerStatus_serialize : Serialize TriggerStatus := fun self =>
  struct_value (TriggerStatus_fields self).
#[export] Instance TriggerStatus_deserialize : Deserialize TriggerStatus :=
  deserialize_struct false TriggerStatus_keys TriggerStatus_visit.

(** The patch that [update_trigger_status] sends, which [json!] builds field
    by field; [order] is the iteration order of the map. *)
Definition API_GROUP : string := "git-events-runner.rs".
Definition CURRENT_API_VERSION : string := "v1alpha1".

Definition status_patch (crd_kind : string) (new_status : TriggerStatus)
    (order : list (string * CheckedSourceState)) : Value :=
  VObj [
    ("apiVersion", VStr (API_GROUP ^^ "/" ^^ CURRENT_API_VERSION));
    ("kind", VStr crd_kind);
    ("status", VObj [
       ("state", serialize (state new_status));
       ("lastRun", serialize (last_run new_status));
       ("checkedSources", entries_value order) ]) ].

#[export] Instance TriggerSourceKind_serialize : Serialize TriggerSourceKind := fun self =>
  VStr match self with KindGitRepo => "GitRepo" | KindClusterGitRepo => "ClusterGitRepo" end.
#[export] Instance TriggerSourceKind_deserialize : Deserialize TriggerSourceKind :=
  deserialize_unit_enum [("GitRepo", KindGitRepo); ("ClusterGitRepo", KindClusterGitRepo)].

#[export] Instance TriggerGitRepoReference_serialize : Serialize TriggerGitRepoReference :=
  fun self =>
    match self with
    | Branch r => VObj [(camel_variant "Branch", serialize r)]
    | Tag r => VObj [(camel_variant "Tag", serialize r)]
    | Commit r => VObj [(camel_variant "Commit", serialize r)]
    end.
#[export] Instance TriggerGitRepoReference_deserialize : Deserialize TriggerGitRepoReference := {
  deserialize := fun v =>
    '(tag, v) ← newtype_variant v;
    if String.eqb tag (camel_variant "Branch") then Branch <$> deserialize v
    else if String.eqb tag (camel_variant "Tag") then Tag <$> deserialize v
    else if String.eqb tag (camel_variant "Commit") then Commit <$> deserialize v
    else None;
  missing := None }.

(** [on_change_only] has no default of its own: the default of the whole
    section does not make it optional in a section that is there. *)
Definition TriggerWatchOn_keys : list string := camel <$> ["on_change_only"; "reference"; "files"].
Definition TriggerWatchOn_fields (self : TriggerWatchOn) : list (string * option Value) := [
  field (camel "on_change_only") (on_change_only self);
  field (camel "reference") (reference self);
  field_if_some (camel "files") (files self) ].
Definition TriggerWatchOn_visit (fields : list field_value) : option TriggerWatchOn :=
  match fields with
  | [f1; f2; f3] =>
      on_change_only_ ← required f1;
      reference_ ← with_default TriggerGitRepoReference_default f2;
      files_ ← required f3;
      Some {| on_change_only := on_change_only_; reference := reference_; files := files_ |}
  | _ => None
  end.
#[export] Instance TriggerWatchOn_serialize : Serialize TriggerWatchOn := fun self =>
  struct_value (TriggerWatchOn_fields self).
#[export] Instance TriggerWatchOn_deserialize : Deserialize TriggerWatchOn :=
  deserialize_struct false TriggerWatchOn_keys TriggerWatchOn_visit.

Definition TriggerSources_keys : list string := camel <$> ["kind"; "names"; "watch_on"].
Definition TriggerSources_fields (self : TriggerSources) : list (string * option Value) := [
  field (camel "kind") (sources_kind self);
  field (camel "names") (names self);
  field (camel "watch_on") (watch_on self) ].
Definition TriggerSources_visit (fields : list field_value) : option TriggerSources :=
  match fields with
  | [f1; f2; f3] =>
      kind_ ← with_default KindGitRepo f1; names_ ← required f2;
      watch_on_ ← with_default TriggerWatchOn_default f3;
      Some {| sources_kind := kind_; names := names_; watch_on := watch_on_ |}
  | _ => None
  end.
#[export] Instance TriggerSources_serialize : Serialize TriggerSources := fun self =>
  struct_value (TriggerSources_fields self).
#[export] Instance TriggerSources_deserialize : Deserialize TriggerSources :=
  deserialize_struct false TriggerSources_keys TriggerSources_visit.

#[export] Instance TriggerSchedule_serialize : Serialize TriggerSchedule := fun self =>
  match self with
  | Interval i => VObj [(camel_variant "Interval", serialize i)]
  | Cron c => VObj [(camel_variant "Cron", serialize c)]
  end.
#[export] Instance TriggerSchedule_deserialize : Deserialize TriggerSchedule := {
  deserialize := fun v =>
    '(tag, v) ← newtype_variant v;
    if String.eqb tag (camel_variant "Interval") then Interval <$> deserialize v
    else if String.eqb tag (camel_variant "Cron") then Cron <$> deserialize v
    else None;
  missing := None }.

#[export] Instance TriggerActionKind_serialize : Serialize TriggerActionKind := fun self =>
  VStr match self with KindAction => "Action" | KindClusterAction => "ClusterAction" end.
#[export] Instance TriggerActionKind_deserialize : Deserialize TriggerActionKind :=
  deserialize_unit_enum [("Action", KindAction); ("ClusterAction", KindClusterAction)].

Definition TriggerAction_keys : list string := camel <$> ["kind"; "name"].
Definition TriggerAction_fields (self : TriggerAction) : list (string * option Value) := [
  field (camel "kind") (action_kind self);
  field (camel "name") (action_name self) ].
Definition TriggerAction_visit (fields : list field_value) : option TriggerAction :=
  match fields with
  | [f1; f2] =>
      kind_ ← required f1; name_ ← required f2;
      Some {| action_kind := kind_; action_name := name_ |}
  | _ => None
  end.
#[export] Instance TriggerAction_serialize : Serialize TriggerAction := fun self =>
  struct_value (TriggerAction_fields self).
#[export] Instance TriggerAction_deserialize : Deserialize TriggerAction :=
  deserialize_struct false TriggerAction_keys TriggerAction_visit.

(** The trigger's own [SecretRef], a name. *)
Record SecretRef := { secret_ref_name : string }.
Definition SecretRef_keys : list string := camel <$> ["name"].
Definition SecretRef_fields (self : SecretRef) : list (string * option Value) :=
  [field (camel "name") (secret_ref_name self)].
Definition SecretRef_visit (fields : list field_value) : option SecretRef :=
  match fields with
  | [f1] => name_ ← required f1; Some {| secret_ref_name := name_ |}
  | _ => None
  end.
#[export] Instance SecretRef_serialize : Serialize SecretRef := fun self =>
  struct_value (SecretRef_fields self).
#[export] Instance SecretRef_deserialize : Deserialize SecretRef :=
  deserialize_struct false SecretRef_keys SecretRef_visit.

Definition TriggerWebhookAuthConfig_keys : list string :=
  camel <$> ["secret_ref"; "key"; "header"].
Definition TriggerWebhookAuthConfig_fields (self : TriggerWebhookAuthConfig)
    : list (string * option Value) := [
  field (camel "secret_ref") {| secret_ref_name := auth_secret_name self |};
  field (camel "key") (auth_key self);
  field_if_some (camel "header") (auth_header self) ].
Definition TriggerWebhookAuthConfig_visit (fields : list field_value)
    : option TriggerWebhookAuthConfig :=
  match fields with
  | [f1; f2; f3] =>
      secret_ref_ ← required f1; key_ ← required f2; header_ ← required f3;
      Some {| auth_secret_name := secret_ref_name secret_ref_; auth_key := key_;
              auth_header := header_ |}
  | _ => None
  end.
#[export] Instance TriggerWebhookAuthConfig_serialize : Serialize TriggerWebhookAuthConfig :=
  fun self => struct_value (TriggerWebhookAuthConfig_fields self).
#[export] Instance TriggerWebhookAuthConfig_deserialize : Deserialize TriggerWebhookAuthConfig :=
  deserialize_struct false TriggerWebhookAuthConfig_keys TriggerWebhookAuthConfig_visit.

Definition TriggerWebhook_keys : list string := camel <$> ["multi_source"; "auth_config"].
Definition TriggerWebhook_fields (self : TriggerWebhook) : list (string * option Value) := [
  field (camel "multi_source") (multi_source self);
  field_if_some (camel "auth_config") (auth_config self) ].
Definition TriggerWebhook_visit (fields : list field_value) : option TriggerWebhook :=
  match fields with
  | [f1; f2] =>
      multi_source_ ← required f1; auth_config_ ← required f2;
      Some {| multi_source := multi_source_; auth_config := auth_config_ |}
  | _ => None
  end.
#[export] Instance TriggerWebhook_serialize : Serialize TriggerWebhook := fun self =>
  struct_value (TriggerWebhook_fields self).
#[export] Instance TriggerWebhook_deserialize : Deserialize TriggerWebhook :=
  deserialize_struct false TriggerWebhook_keys TriggerWebhook_visit.

Definition ScheduleTriggerSpec_keys : list string := camel <$> ["sources"; "schedule"; "action"].
Definition ScheduleTriggerSpec_fields (self : ScheduleTriggerSpec)
    : list (string * option Value) := [
  field (camel "sources") (sts_sources self);
  field (camel "schedule") (sts_schedule self);
  field (camel "action") (sts_action self) ].
Definition ScheduleTriggerSpec_visit (fields : list field_value) : option ScheduleTriggerSpec :=
  match fields with
  | [f1; f2; f3] =>
      sources_ ← required f1; schedule_ ← required f2; action_ ← required f3;
      Some {| sts_sources := sources_; sts_schedule := schedule_; sts_action := action_ |}
  | _ => None
  end.
#[export] Instance ScheduleTriggerSpec_serialize : Serialize ScheduleTriggerSpec := fun self =>
  struct_value (ScheduleTriggerSpec_fields self).
#[export] Instance ScheduleTriggerSpec_deserialize : Deserialize ScheduleTriggerSpec :=
  deserialize_struct false ScheduleTriggerSpec_keys ScheduleTriggerSpec_visit.

Definition WebhookTriggerSpec_keys : list string := camel <$> ["sources"; "webhook"; "action"].
Definition WebhookTriggerSpec_fields (self : WebhookTriggerSpec) : list (string * option Value) := [
  field (camel "sources") (wts_sources self);
  field (camel "webhook") (wts_webhook self);
  field (camel "action") (wts_action self) ].
Definition WebhookTriggerSpec_visit (fields : list field_value) : option WebhookTriggerSpec :=
  match fields with
  | [f1; f2; f3] =>
      sources_ ← required f1; webhook_ ← required f2; action_ ← required f3;
      Some {| wts_sources := sources_; wts_webhook := webhook_; wts_action := action_ |}
  | _ => None
  end.
#[export] Instance WebhookTriggerSpec_serialize : Serialize WebhookTriggerSpec := fun self =>
  struct_value (WebhookTriggerSpec_fields self).
#[export] Instance WebhookTriggerSpec_deserialize : Deserialize WebhookTriggerSpec :=
  deserialize_struct false WebhookTriggerSpec_keys WebhookTriggerSpec_visit.

(** ** Git repositories (git_repo.rs) *)

Definition GitSecretRef_keys : list string := camel <$> ["name"; "namespace"].
Definition GitSecretRef_fields (self : GitSecretRef) : list (string * option Value) := [
  field (camel "name") (sr_name self);
  field_if_some (camel "namespace") (sr_namespace self) ].
Definition GitSecretRef_visit (fields : list field_value) : option GitSecretRef :=
  match fields with
  | [f1; f2] =>
      name_ ← required f1; namespace_ ← required f2;
      Some {| sr_name := name_; sr_namespace := namespace_ |}
  | _ => None
  end.
#[export] Instance GitSecretRef_serialize : Serialize GitSecretRef := fun self =>
  struct_value (GitSecretRef_fields self).
#[export] Instance GitSecretRef_deserialize : Deserialize GitSecretRef :=
  deserialize_struct false GitSecretRef_keys GitSecretRef_visit.

Definition TlsCaConfig_keys : list string := camel <$> ["secret_ref"; "key"].
Definition TlsCaConfig_fields (self : TlsCaConfig) : list (string * option Value) := [
  field (camel "secret_ref") (ca_secret_ref self);
  field (camel "key") (ca_key self) ].
Definition TlsCaConfig_visit (fields : list field_value) : option TlsCaConfig :=
  match fields with
  | [f1; f2] =>
      secret_ref_ ← required f1; key_ ← with_default TlsCaConfig_default_ca_data_key f2;
      Some {| ca_secret_ref := secret_ref_; ca_key := key_ |}
  | _ => None
  end.
#[export] Instance TlsCaConfig_serialize : Serialize TlsCaConfig := fun self =>
  struct_value (TlsCaConfig_fields self).
#[export] Instance TlsCaConfig_deserialize : Deserialize TlsCaConfig :=
  deserialize_struct false TlsCaConfig_keys TlsCaConfig_visit.

Definition TlsConfig_keys : list string := camel <$> ["no_verify_ssl"; "ca_cert"].
Definition TlsConfig_fields (self : TlsConfig) : list (string * option Value) := [
  field (camel "no_verify_ssl") (no_verify_ssl self);
  field_if_some (camel "ca_cert") (ca_cert self) ].
Definition TlsConfig_visit (fields : list field_value) : option TlsConfig :=
  match fields with
  | [f1; f2] =>
      no_verify_ssl_ ← with_default false f1; ca_cert_ ← required f2;
      Some {| no_verify_ssl := no_verify_ssl_; ca_cert := ca_cert_ |}
  | _ => None
  end.
#[export] Instance TlsConfig_serialize : Serialize TlsConfig := fun self =>
  struct_value (TlsConfig_fields self).
#[export] Instance TlsConfig_deserialize : Deserialize TlsConfig :=
  deserialize_struct false TlsConfig_keys TlsConfig_visit.

#[export] Instance GitAuthType_serialize : Serialize GitAuthType := fun self =>
  VStr (camel_variant match self with Basic => "Basic" | Token => "Token" | Ssh => "Ssh" end).
#[export] Instance GitAuthType_deserialize : Deserialize GitAuthType :=
  deserialize_unit_enum [(camel_variant "Basic", Basic); (camel_variant "Token", Token);
                         (camel_variant "Ssh", Ssh)].

(** No key has a default of its own. *)
Definition GitAuthSecretKeys_keys : list string :=
  camel <$> ["username"; "password"; "token"; "private_key"].
Definition GitAuthSecretKeys_fields (self : GitAuthSecretKeys) : list (string * option Value) := [
  field (camel "username") (key_username self);
  field (camel "password") (key_password self);
  field (camel "token") (key_token self);
  field (camel "private_key") (key_private_key self) ].
Definition GitAuthSecretKeys_visit (fields : list field_value) : option GitAuthSecretKeys :=
  match fields with
  | [f1; f2; f3; f4] =>
      username_ ← required f1; password_ ← required f2; token_ ← required f3;
      private_key_ ← required f4;
      Some {| key_username := username_; key_password := password_; key_token := token_;
              key_private_key := private_key_ |}
  | _ => None
  end.
#[export] Instance GitAuthSecretKeys_serialize : Serialize GitAuthSecretKeys := fun self =>
  struct_value (GitAuthSecretKeys_fields self).
#[export] Instance GitAuthSecretKeys_deserialize : Deserialize GitAuthSecretKeys :=
  deserialize_struct false GitAuthSecretKeys_keys GitAuthSecretKeys_visit.

(** [auth_type] is renamed to [type]. *)
Definition GitAuthConfig_keys : list string := "type" :: (camel <$> ["secret_ref"; "keys"]).
Definition GitAuthConfig_fields (self : GitAuthConfig) : list (string * option Value) := [
  field "type" (auth_type self);
  field (camel "secret_ref") (auth_secret_ref self);
  field (camel "keys") (auth_keys self) ].
Definition GitAuthConfig_visit (fields : list field_value) : option GitAuthConfig :=
  match fields with
  | [f1; f2; f3] =>
      auth_type_ ← required f1; secret_ref_ ← required f2;
      keys_ ← with_default GitAuthSecretKeys_default f3;
      Some {| auth_type := auth_type_; auth_secret_ref := secret_ref_; auth_keys := keys_ |}
  | _ => None
  end.
#[export] Instance GitAuthConfig_serialize : Serialize GitAuthConfig := fun self =>
  struct_value (GitAuthConfig_fields self).
#[export] Instance GitAuthConfig_deserialize : Deserialize GitAuthConfig :=
  deserialize_struct false GitAuthConfig_keys GitAuthConfig_visit.

(** The spec of both repository kinds, which have the same fields. *)
Record GitRepoSpec := {
  grs_repo_uri : string;
  grs_tls_config : option TlsConfig;
  grs_auth_config : option GitAuthConfig }.
Definition GitRepoSpec_keys : list string := camel <$> ["repo_uri"; "tls_config"; "auth_config"].
Definition GitRepoSpec_fields (self : GitRepoSpec) : list (string * option Value) := [
  field (camel "repo_uri") (grs_repo_uri self);
  field_if_some (camel "tls_config") (grs_tls_config self);
  field_if_some (camel "auth_config") (grs_auth_config self) ].
Definition GitRepoSpec_visit (fields : list field_value) : option GitRepoSpec :=
  match fields with
  | [f1; f2; f3] =>
      repo_uri_ ← required f1; tls_config_ ← required f2; auth_config_ ← required f3;
      Some {| grs_repo_uri := repo_uri_; grs_tls_config := tls_config_;
              grs_auth_config := auth_config_ |}
  | _ => None
  end.
#[export] Instance GitRepoSpec_serialize : Serialize GitRepoSpec := fun self =>
  struct_value (GitRepoSpec_fields self).
#[export] Instance GitRepoSpec_deserialize : Deserialize GitRepoSpec :=
  deserialize_struct false GitRepoSpec_keys GitRepoSpec_visit.

(** The objects of the cache: a name and a spec. *)
Definition GitRepo_of (name : string) (spec : GitRepoSpec) : GitRepo := {|
  gr_name := name; gr_repo_uri := grs_repo_uri spec; gr_tls_config := grs_tls_config spec;
  gr_auth_config := grs_auth_config spec |}.
Definition ClusterGitRepo_of (name : string) (spec : GitRepoSpec) : ClusterGitRepo := {|
  cgr_name := name; cgr_repo_uri := grs_repo_uri spec; cgr_tls_config := grs_tls_config spec;
  cgr_auth_config := grs_auth_config spec |}.

(** ** Actions (action.rs) *)

(** Integer fields, by width. *)
Definition i32_deserialize : Deserialize Z := int_deserialize (- 2 ^ 31) (2 ^ 31 - 1).
Definition i64_deserialize : Deserialize Z := int_deserialize (- 2 ^ 63) i64_max.
Definition u64_deserialize : Deserialize Z := int_deserialize 0 u64_max.

Definition int_field (k : string) (z : Z) : string * option Value := field (H:=int_serialize) k z.
Definition int_field_if_some (k : string) (z : option Z) : string * option Value :=
  field_if_some (H:=int_serialize) k z.

#[export] Instance TriggerClusterSourceKind_serialize : Serialize TriggerClusterSourceKind :=
  fun self => VStr match self with ClusterKindClusterGitRepo => "ClusterGitRepo" end.
#[export] Instance TriggerClusterSourceKind_deserialize : Deserialize TriggerClusterSourceKind :=
  deserialize_unit_enum [("ClusterGitRepo", ClusterKindClusterGitRepo)].

Definition ActionSourceOverride_keys : list string := camel <$> ["kind"; "name"; "reference"].
Definition ActionSourceOverride_fields (self : ActionSourceOverride)
    : list (string * option Value) := [
  field (camel "kind") (so_kind self);
  field (camel "name") (so_name self);
  field (camel "reference") (so_reference self) ].
Definition ActionSourceOverride_visit (fields : list field_value) : option ActionSourceOverride :=
  match fields with
  | [f1; f2; f3] =>
      kind_ ← required f1; name_ ← required f2; reference_ ← required f3;
      Some {| so_kind := kind_; so_name := name_; so_reference := reference_ |}
  | _ => None
  end.
#[export] Instance ActionSourceOverride_serialize : Serialize ActionSourceOverride := fun self =>
  struct_value (ActionSourceOverride_fields self).
#[export] Instance ActionSourceOverride_deserialize : Deserialize ActionSourceOverride :=
  deserialize_struct false ActionSourceOverride_keys ActionSourceOverride_visit.

Definition ClusterActionSourceOverride_fields (self : ClusterActionSourceOverride)
    : list (string * option Value) := [
  field (camel "kind") (cso_kind self);
  field (camel "name") (cso_name self);
  field (camel "reference") (cso_reference self) ].
Definition ClusterActionSourceOverride_visit (fields : list field_value)
    : option ClusterActionSourceOverride :=
  match fields with
  | [f1; f2; f3] =>
      kind_ ← required f1; name_ ← required f2; reference_ ← required f3;
      Some {| cso_kind := kind_; cso_name := name_; cso_reference := reference_ |}
  | _ => None
  end.
#[export] Instance ClusterActionSourceOverride_serialize
    : Serialize ClusterActionSourceOverride := fun self =>
  struct_value (ClusterActionSourceOverride_fields self).
#[export] Instance ClusterActionSourceOverride_deserialize
    : Deserialize ClusterActionSourceOverride :=
  deserialize_struct false ActionSourceOverride_keys ClusterActionSourceOverride_visit.

Section Actions.
Context `{Ext}.
Context `{!Serialize Toleration, !Deserialize Toleration}.
Context `{!Serialize Affinity, !Deserialize Affinity}.

(** Every field has the default of the whole section. *)
Definition ActionJob_keys : list string := camel <$> [
  "workdir"; "cloner_image"; "action_image"; "args"; "command"; "service_account";
  "annotations"; "labels"; "tolerations"; "affinity"; "node_selector";
  "ttl_seconds_after_finished"; "active_deadline_seconds"; "job_waiting_timeout_seconds";
  "enable_cloner_debug"; "preserve_git_folder"].
Definition ActionJob_fields (self : ActionJob) : list (string * option Value) := [
  field_if_some (camel "workdir") (aj_workdir self);
  field_if_some (camel "cloner_image") (aj_cloner_image self);
  field_if_some (camel "action_image") (aj_action_image self);
  field_if_some (camel "args") (aj_args self);
  field_if_some (camel "command") (aj_command self);
  field_if_some (camel "service_account") (aj_service_account self);
  field_if_some (camel "annotations") (aj_annotations self);
  field_if_some (camel "labels") (aj_labels self);
  field_if_some (camel "tolerations") (aj_tolerations self);
  field_if_some (camel "affinity") (aj_affinity self);
  field_if_some (camel "node_selector") (aj_node_selector self);
  int_field_if_some (camel "ttl_seconds_after_finished") (aj_ttl_seconds_after_finished self);
  int_field_if_some (camel "active_deadline_seconds") (aj_active_deadline_seconds self);
  int_field_if_some (camel "job_waiting_timeout_seconds") (aj_job_waiting_timeout_seconds self);
  field (camel "enable_cloner_debug") (aj_enable_cloner_debug self);
  field (camel "preserve_git_folder") (aj_preserve_git_folder self) ].
Definition ActionJob_visit (fields : list field_value) : option ActionJob :=
  match fields with
  | [f1; f2; f3; f4; f5; f6; f7; f8; f9; f10; f11; f12; f13; f14; f15; f16] =>
      workdir_ ← with_default None f1;
      cloner_image_ ← with_default None f2;
      action_image_ ← with_default None f3;
      args_ ← with_default None f4;
      command_ ← with_default None f5;
      service_account_ ← with_default None f6;
      annotations_ ← with_default None f7;
      labels_ ← with_default None f8;
      tolerations_ ← with_default None f9;
      affinity_ ← with_default None f10;
      node_selector_ ← with_default None f11;
      ttl_ ← with_default (H:=option_deserialize (H:=i32_deserialize)) None f12;
      deadline_ ← with_default (H:=option_deserialize (H:=i64_deserialize)) None f13;
      timeout_ ← with_default (H:=option_deserialize (H:=u64_deserialize)) None f14;
      enable_cloner_debug_ ← with_default false f15;
      preserve_git_folder_ ← with_default false f16;
      Some {| aj_workdir := workdir_; aj_cloner_image := cloner_image_;
              aj_action_image := action_image_; aj_args := args_; aj_command := command_;
              aj_service_account := service_account_; aj_annotations := annotations_;
              aj_labels := labels_; aj_tolerations := tolerations_; aj_affinity := affinity_;
              aj_node_selector := node_selector_; aj_ttl_seconds_after_finished := ttl_;
              aj_active_deadline_seconds := deadline_;
              aj_job_waiting_timeout_seconds := timeout_;
              aj_enable_cloner_debug := enable_cloner_debug_;
              aj_preserve_git_folder := preserve_git_folder_ |}
  | _ => None
  end.
#[export] Instance ActionJob_serialize : Serialize ActionJob := fun self =>
  struct_value (ActionJob_fields self).
#[export] Instance ActionJob_deserialize : Deserialize ActionJob :=
  deserialize_struct false ActionJob_keys ActionJob_visit.

Record ActionSpec := {
  acs_source_override : option ActionSourceOverride;
  acs_action_job : ActionJob }.
Definition ActionSpec_keys : list string := camel <$> ["source_override"; "action_job"].
Definition ActionSpec_fields (self : ActionSpec) : list (string * option Value) := [
  field_if_some (camel "source_override") (acs_source_override self);
  field (camel "action_job") (acs_action_job self) ].
Definition ActionSpec_visit (fields : list field_value) : option ActionSpec :=
  match fields with
  | [f1; f2] =>
      source_override_ ← required f1; action_job_ ← with_default ActionJob_default f2;
      Some {| acs_source_override := source_override_; acs_action_job := action_job_ |}
  | _ => None
  end.
#[export] Instance ActionSpec_serialize : Serialize ActionSpec := fun self =>
  struct_value (ActionSpec_fields self).
#[export] Instance ActionSpec_deserialize : Deserialize ActionSpec :=
  deserialize_struct false ActionSpec_keys ActionSpec_visit.

Record ClusterActionSpec := {
  cacs_source_override : option ClusterActionSourceOverride;
  cacs_action_job : ActionJob }.
Definition ClusterActionSpec_fields (self : ClusterActionSpec) : list (string * option Value) := [
  field_if_some (camel "source_override") (cacs_source_override self);
  field (camel "action_job") (cacs_action_job self) ].
Definition ClusterActionSpec_visit (fields : list field_value) : option ClusterActionSpec :=
  match fields with
  | [f1; f2] =>
      source_override_ ← required f1; action_job_ ← with_default ActionJob_default f2;
      Some {| cacs_source_override := source_override_; cacs_action_job := action_job_ |}
  | _ => None
  end.
#[export] Instance ClusterActionSpec_serialize : Serialize ClusterActionSpec := fun self =>
  struct_value (ClusterActionSpec_fields self).
#[export] Instance ClusterActionSpec_deserialize : Deserialize ClusterActionSpec :=
  deserialize_struct false ActionSpec_keys ClusterActionSpec_visit.
End Actions.

(** ** The runtime configuration (config.rs)

    All seven structures take defaults for what is absent and refuse unknown
    keys. *)

Definition ActionWorkdirConfig_keys : list string := camel <$> ["mount_path"; "volume_name"].
Definition ActionWorkdirConfig_fields (self : ActionWorkdirConfig)
    : list (string * option Value) := [
  field (camel "mount_path") (mount_path self);
  field (camel "volume_name") (volume_name self) ].
Definition ActionWorkdirConfig_visit (fields : list field_value) : option ActionWorkdirConfig :=
  let default := ActionWorkdirConfig_default in
  match fields with
  | [f1; f2] =>
      mount_path_ ← with_default (mount_path default) f1;
      volume_name_ ← with_default (volume_name default) f2;
      Some {| mount_path := mount_path_; volume_name := volume_name_ |}
  | _ => None
  end.
#[export] Instance ActionWorkdirConfig_serialize : Serialize ActionWorkdirConfig := fun self =>
  struct_value (ActionWorkdirConfig_fields self).
#[export] Instance ActionWorkdirConfig_deserialize : Deserialize ActionWorkdirConfig :=
  deserialize_struct true ActionWorkdirConfig_keys ActionWorkdirConfig_visit.

Definition ActionContainersClonerConfig_keys : list string := camel <$> ["name"; "image"].
Definition ActionContainersClonerConfig_fields (self : ActionContainersClonerConfig)
    : list (string * option Value) := [
  field (camel "name") (cloner_name self);
  field (camel "image") (cloner_image self) ].
Definition ActionContainersClonerConfig_visit (fields : list field_value)
    : option ActionContainersClonerConfig :=
  let default := ActionContainersClonerConfig_default in
  match fields with
  | [f1; f2] =>
      name_ ← with_default (cloner_name default) f1;
      image_ ← with_default (cloner_image default) f2;
      Some {| cloner_name := name_; cloner_image := image_ |}
  | _ => None
  end.
#[export] Instance ActionContainersClonerConfig_serialize
    : Serialize ActionContainersClonerConfig := fun self =>
  struct_value (ActionContainersClonerConfig_fields self).
#[export] Instance ActionContainersClonerConfig_deserialize
    : Deserialize ActionContainersClonerConfig :=
  deserialize_struct true ActionContainersClonerConfig_keys ActionContainersClonerConfig_visit.

Definition ActionContainersWorkerConfig_keys : list string :=
  camel <$> ["name"; "image"; "variables_prefix"].
Definition ActionContainersWorkerConfig_fields (self : ActionContainersWorkerConfig)
    : list (string * option Value) := [
  field (camel "name") (worker_name self);
  field (camel "image") (worker_image self);
  field (camel "variables_prefix") (variables_prefix self) ].
Definition ActionContainersWorkerConfig_visit (fields : list field_value)
    : option ActionContainersWorkerConfig :=
  let default := ActionContainersWorkerConfig_default in
  match fields with
  | [f1; f2; f3] =>
      name_ ← with_default (worker_name default) f1;
      image_ ← with_default (worker_image default) f2;
      variables_prefix_ ← with_default (variables_prefix default) f3;
      Some {| worker_name := name_; worker_image := image_;
              variables_prefix := variables_prefix_ |}
  | _ => None
  end.
#[export] Instance ActionContainersWorkerConfig_serialize
    : Serialize ActionContainersWorkerConfig := fun self =>
  struct_value (ActionContainersWorkerConfig_fields self).
#[export] Instance ActionContainersWorkerConfig_deserialize
    : Deserialize ActionContainersWorkerConfig :=
  deserialize_struct true ActionContainersWorkerConfig_keys ActionContainersWorkerConfig_visit.

Definition ActionContainersConfig_keys : list string := camel <$> ["cloner"; "worker"].
Definition ActionContainersConfig_fields (self : ActionContainersConfig)
    : list (string * option Value) := [
  field (camel "cloner") (cc_cloner self);
  field (camel "worker") (cc_worker self) ].
Definition ActionContainersConfig_visit (fields : list field_value)
    : option ActionContainersConfig :=
  let default := ActionContainersConfig_default in
  match fields with
  | [f1; f2] =>
      cloner_ ← with_default (cc_cloner default) f1;
      worker_ ← with_default (cc_worker default) f2;
      Some {| cc_cloner := cloner_; cc_worker := worker_ |}
  | _ => None
  end.
#[export] Instance ActionContainersConfig_serialize : Serialize ActionContainersConfig :=
  fun self => struct_value (ActionContainersConfig_fields self).
#[export] Instance ActionContainersConfig_deserialize : Deserialize ActionContainersConfig :=
  deserialize_struct true ActionContainersConfig_keys ActionContainersConfig_visit.

Definition ActionConfig_keys : list string := camel <$> [
  "max_running_jobs"; "job_waiting_timeout_seconds"; "default_service_account";
  "active_deadline_seconds"; "ttl_seconds_after_finished"; "workdir"; "containers"].
Definition ActionConfig_fields (self : ActionConfig) : list (string * option Value) := [
  int_field (camel "max_running_jobs") (max_running_jobs self);
  int_field (camel "job_waiting_timeout_seconds") (job_waiting_timeout_seconds self);
  field_if_some (camel "default_service_account") (default_service_account self);
  int_field (camel "active_deadline_seconds") (active_deadline_seconds self);
  int_field (camel "ttl_seconds_after_finished") (ttl_seconds_after_finished self);
  field (camel "workdir") (ac_workdir self);
  field (camel "containers") (ac_containers self) ].
Definition ActionConfig_visit (fields : list field_value) : option ActionConfig :=
  let default := ActionConfig_default in
  match fields with
  | [f1; f2; f3; f4; f5; f6; f7] =>
      max_running_jobs_ ← with_default (H:=u64_deserialize) (max_running_jobs default) f1;
      waiting_ ← with_default (H:=u64_deserialize) (job_waiting_timeout_seconds default) f2;
      account_ ← with_default (default_service_account default) f3;
      deadline_ ← with_default (H:=i64_deserialize) (active_deadline_seconds default) f4;
      ttl_ ← with_default (H:=i32_deserialize) (ttl_seconds_after_finished default) f5;
      workdir_ ← with_default (ac_workdir default) f6;
      containers_ ← with_default (ac_containers default) f7;
      Some {| max_running_jobs := max_running_jobs_; job_waiting_timeout_seconds := waiting_;
              default_service_account := account_; active_deadline_seconds := deadline_;
              ttl_seconds_after_finished := ttl_; ac_workdir := workdir_;
              ac_containers := containers_ |}
  | _ => None
  end.
#[export] Instance ActionConfig_serialize : Serialize ActionConfig := fun self =>
  struct_value (ActionConfig_fields self).
#[export] Instance ActionConfig_deserialize : Deserialize ActionConfig :=
  deserialize_struct true ActionConfig_keys ActionConfig_visit.

Definition TriggerWebhookConfig_keys : list string := camel <$> ["default_auth_header"].
Definition TriggerWebhookConfig_fields (self : TriggerWebhookConfig)
    : list (string * option Value) :=
  [field (camel "default_auth_header") (default_auth_header self)].
Definition TriggerWebhookConfig_visit (fields : list field_value) : option TriggerWebhookConfig :=
  let default := TriggerWebhookConfig_default in
  match fields with
  | [f1] =>
      header_ ← with_default (default_auth_header default) f1;
      Some {| default_auth_header := header_ |}
  | _ => None
  end.
#[export] Instance TriggerWebhookConfig_serialize : Serialize TriggerWebhookConfig := fun self =>
  struct_value (TriggerWebhookConfig_fields self).
#[export] Instance TriggerWebhookConfig_deserialize : Deserialize TriggerWebhookConfig :=
  deserialize_struct true TriggerWebhookConfig_keys TriggerWebhookConfig_visit.

Definition TriggerConfig_keys : list string := camel <$> ["webhook"].
Definition TriggerConfig_fields (self : TriggerConfig) : list (string * option Value) :=
  [field (camel "webhook") (tc_webhook self)].
Definition TriggerConfig_visit (fields : list field_value) : option TriggerConfig :=
  match fields with
  | [f1] =>
      webhook_ ← with_default (tc_webhook TriggerConfig_default) f1;
      Some {| tc_webhook := webhook_ |}
  | _ => None
  end.
#[export] Instance TriggerConfig_serialize : Serialize TriggerConfig := fun self =>
  struct_value (TriggerConfig_fields self).
#[export] Instance TriggerConfig_deserialize : Deserialize TriggerConfig :=
  deserialize_struct true TriggerConfig_keys TriggerConfig_visit.

Definition RuntimeConfig_keys : list string := camel <$> ["action"; "trigger"].
Definition RuntimeConfig_fields (self : RuntimeConfig) : list (string * option Value) := [
  field (camel "action") (rc_action self);
  field (camel "trigger") (rc_trigger self) ].
Definition RuntimeConfig_visit (fields : list field_value) : option RuntimeConfig :=
  match fields with
  | [f1; f2] =>
      action_ ← with_default (rc_action RuntimeConfig_default) f1;
      trigger_ ← with_default (rc_trigger RuntimeConfig_default) f2;
      Some {| rc_action := action_; rc_trigger := trigger_ |}
  | _ => None
  end.
#[export] Instance RuntimeConfig_serialize : Serialize RuntimeConfig := fun self =>
  struct_value (RuntimeConfig_fields self).
#[export] Instance RuntimeConfig_deserialize : Deserialize RuntimeConfig :=
  deserialize_struct true RuntimeConfig_keys RuntimeConfig_visit.
