(* ===== verification/WireFacts.v ===== *)
(** * The wire: theorems

    What is written is read back, for every structure of the resources and of
    the configuration; what the published status patch says; what a document
    may leave out, and what it may not. *)

From stdpp Require Import base option gmap strings list fin_maps.
From Stdlib Require Import Ascii ZArith Lia Permutation.
From S2P Require Import Prelude Strs Serde Time Errors Config Ext Resources Wire.
Local Open Scope string_scope.
Local Open Scope list_scope.

(** ** Round trips *)

(** The enums: by cases. *)
Ltac wire_enum :=
  refine {| survives := fun _ => True |};
  [ by intros [] | intros [] _; reflexivity ].

#[export] Instance TriggerState_wire : Wire TriggerState.
Proof. wire_enum. Defined.
#[export] Instance TriggerSourceKind_wire : Wire TriggerSourceKind.
Proof. wire_enum. Defined.
#[export] Instance TriggerGitRepoReference_wire : Wire TriggerGitRepoReference.
Proof. wire_enum. Defined.
#[export] Instance TriggerSchedule_wire : Wire TriggerSchedule.
Proof. wire_enum. Defined.
#[export] Instance TriggerActionKind_wire : Wire TriggerActionKind.
Proof. wire_enum. Defined.
#[export] Instance GitAuthType_wire : Wire GitAuthType.
Proof. wire_enum. Defined.
#[export] Instance TriggerClusterSourceKind_wire : Wire TriggerClusterSourceKind.
Proof. wire_enum. Defined.

(** Integers in an [Option]. *)
Lemma int_if_some lo hi (z : option Z) :
  (forall x, z = Some x -> (lo <= x <= hi)%Z) ->
  with_default (H:=option_deserialize (H:=int_deserialize lo hi)) None
    (as_given (serialize (Serialize:=int_serialize) <$> z)) = Some z.
Proof.
  destruct z as [z|]; intros Hz; [|done]. simpl. rewrite bool_decide_eq_true_2; [done|auto].
Qed.

Lemma int_default lo hi d (z : Z) :
  (lo <= z <= hi)%Z ->
  with_default (H:=int_deserialize lo hi) d
    (as_given (Some (serialize (Serialize:=int_serialize) z))) = Some z.
Proof. intros Hz. simpl. by rewrite bool_decide_eq_true_2. Qed.

Lemma with_default_if_some {A} `{Wire A} (x : option A) :
  (forall y, x = Some y -> survives y) ->
  with_default (A:=option A) None (as_given (serialize <$> x)) = Some x.
Proof. destruct x as [x|]; intros Hx; [by apply deserialize_option, Hx|done]. Qed.

(** The structures: their fields one by one, from a hypothesis [Hx] that each
    survives. *)
Ltac survive :=
  first [ assumption | exact I | by intros; exact I | by apply Forall_true
        | by intros; apply Forall_true | by intros ????? | by auto ].

Lemma bind_some {A B} (x : option A) (a : A) (k : A -> option B) r :
  x = Some a -> k a = r -> x ≫= k = r.
Proof. by intros -> <-. Qed.

Ltac wire_field :=
  lazymatch goal with
  | |- with_default (A:=option Z) _ _ = _ => apply int_if_some; assumption
  | |- with_default (A:=Z) _ _ = _ => apply int_default; assumption
  | |- with_default (A:=option _) _ _ = _ => apply with_default_if_some; survive
  | |- with_default _ _ = _ => apply with_default_some; survive
  | |- required (A:=option _) _ = _ => apply required_if_some; survive
  | |- required _ = _ => apply required_some; survive
  end.

Ltac wire_fields := repeat (eapply bind_some; [wire_field|]; cbv beta).

Ltac wire_struct fields_of visit :=
  let x := fresh "x" in let Hx := fresh "Hx" in
  intros x Hx; apply struct_survives;
  [ apply (bool_decide_unpack _); by vm_compute
  | reflexivity
  | cbv [visit fields_of field field_if_some fmap list_fmap snd]; wire_fields; by destruct x ].

(** Structures all of whose values survive. *)
Ltac wire_plain fields_of visit :=
  refine {| survives := fun _ => True |}; [done|wire_struct fields_of visit].

#[export] Instance CheckedSourceState_wire : Wire CheckedSourceState.
Proof. wire_plain CheckedSourceState_fields CheckedSourceState_visit. Defined.

#[export] Instance TriggerWatchOn_wire : Wire TriggerWatchOn.
Proof. wire_plain TriggerWatchOn_fields TriggerWatchOn_visit. Defined.
#[export] Instance TriggerSources_wire : Wire TriggerSources.
Proof. wire_plain TriggerSources_fields TriggerSources_visit. Defined.
#[export] Instance TriggerAction_wire : Wire TriggerAction.
Proof. wire_plain TriggerAction_fields TriggerAction_visit. Defined.
#[export] Instance SecretRef_wire : Wire SecretRef.
Proof. wire_plain SecretRef_fields SecretRef_visit. Defined.
#[export] Instance TriggerWebhookAuthConfig_wire : Wire TriggerWebhookAuthConfig.
Proof. wire_plain TriggerWebhookAuthConfig_fields TriggerWebhookAuthConfig_visit. Defined.
#[export] Instance TriggerWebhook_wire : Wire TriggerWebhook.
Proof. wire_plain TriggerWebhook_fields TriggerWebhook_visit. Defined.
#[export] Instance ScheduleTriggerSpec_wire : Wire ScheduleTriggerSpec.
Proof. wire_plain ScheduleTriggerSpec_fields ScheduleTriggerSpec_visit. Defined.
#[export] Instance WebhookTriggerSpec_wire : Wire WebhookTriggerSpec.
Proof. wire_plain WebhookTriggerSpec_fields WebhookTriggerSpec_visit. Defined.
#[export] Instance GitSecretRef_wire : Wire GitSecretRef.
Proof. wire_plain GitSecretRef_fields GitSecretRef_visit. Defined.
#[export] Instance TlsCaConfig_wire : Wire TlsCaConfig.
Proof. wire_plain TlsCaConfig_fields TlsCaConfig_visit. Defined.
#[export] Instance TlsConfig_wire : Wire TlsConfig.
Proof. wire_plain TlsConfig_fields TlsConfig_visit. Defined.
#[export] Instance GitAuthSecretKeys_wire : Wire GitAuthSecretKeys.
Proof. wire_plain GitAuthSecretKeys_fields GitAuthSecretKeys_visit. Defined.
#[export] Instance GitAuthConfig_wire : Wire GitAuthConfig.
Proof. wire_plain GitAuthConfig_fields GitAuthConfig_visit. Defined.
#[export] Instance GitRepoSpec_wire : Wire GitRepoSpec.
Proof. wire_plain GitRepoSpec_fields GitRepoSpec_visit. Defined.
#[export] Instance ActionSourceOverride_wire : Wire ActionSourceOverride.
Proof. wire_plain ActionSourceOverride_fields ActionSourceOverride_visit. Defined.
#[export] Instance ClusterActionSourceOverride_wire : Wire ClusterActionSourceOverride.
Proof. wire_plain ClusterActionSourceOverride_fields ClusterActionSourceOverride_visit. Defined.

Section actions.
Context `{Ext}.
Context `{!Serialize Toleration, !Deserialize Toleration, !Wire Toleration}.
Context `{!Serialize Affinity, !Deserialize Affinity, !Wire Affinity}.

(** Values of the widths of the fields, and foreign parts that survive. *)
Record ActionJob_in_range (self : ActionJob) : Prop := {
  ajr_tolerations : forall l, aj_tolerations self = Some l -> Forall survives l;
  ajr_affinity : forall a, aj_affinity self = Some a -> survives a;
  ajr_ttl : forall z, aj_ttl_seconds_after_finished self = Some z ->
    (- 2 ^ 31 <= z <= 2 ^ 31 - 1)%Z;
  ajr_deadline : forall z, aj_active_deadline_seconds self = Some z ->
    (- 2 ^ 63 <= z <= i64_max)%Z;
  ajr_timeout : forall z, aj_job_waiting_timeout_seconds self = Some z -> (0 <= z <= u64_max)%Z }.

#[export] Instance ActionJob_wire : Wire ActionJob.
Proof.
  refine {| survives := ActionJob_in_range |}; [done|].
  intros self [Htol Haff Httl Hdl Hto]. apply struct_survives;
    [apply (bool_decide_unpack _); by vm_compute|reflexivity|].
  cbv [ActionJob_visit ActionJob_fields int_field_if_some field field_if_some fmap list_fmap snd
    i32_deserialize i64_deserialize u64_deserialize].
  wire_fields. by destruct self.
Defined.

#[export] Instance ActionSpec_wire : Wire ActionSpec.
Proof.
  refine {| survives := fun x => survives (acs_action_job x) |}; [done|].
  intros self Hjob. apply struct_survives;
    [apply (bool_decide_unpack _); by vm_compute|reflexivity|].
  cbv [ActionSpec_visit ActionSpec_fields field field_if_some fmap list_fmap snd].
  wire_fields. by destruct self.
Defined.

#[export] Instance ClusterActionSpec_wire : Wire ClusterActionSpec.
Proof.
  refine {| survives := fun x => survives (cacs_action_job x) |}; [done|].
  intros self Hjob. apply struct_survives;
    [apply (bool_decide_unpack _); by vm_compute|reflexivity|].
  cbv [ClusterActionSpec_visit ClusterActionSpec_fields field field_if_some fmap list_fmap snd].
  wire_fields. by destruct self.
Defined.
End actions.

(** ** The published status *)

(** An object without its null members, as the API server may store it. *)
Definition is_null (v : Value) : bool := match v with VNull => true | _ => false end.
Definition without_nulls (v : Value) : Value :=
  match v with
  | VObj fields => VObj (filter (fun kv => is_null kv.2 = false) fields)
  | v => v
  end.

(** C25. What the controller publishes is what it reads back: whatever status
    is put into the patch, and in whatever order the map of sources is
    written, the patch is for this API version and the trigger's kind, and
    its status - as it stands, or with its null members dropped - is read as
    exactly that status.  So the states that a task compares the next commit
    with are the ones that an earlier task recorded. *)
Theorem status_patch_read_back kind status order :
  order ≡ₚ map_to_list (checked_sources status) ->
  let patch := status_patch kind status order in
  member "apiVersion" patch = Some (VStr "git-events-runner.rs/v1alpha1")
  /\ member "kind" patch = Some (VStr kind)
  /\ exists v, member "status" patch = Some v
       /\ deserialize v = Some status /\ deserialize (without_nulls v) = Some status.
Proof.
  intros Horder patch. split; [done|]. split; [done|]. eexists. split; [reflexivity|].
  assert (Hsources : forall f3, f3 = Given (entries_value order) ->
    required (A:=gmap string CheckedSourceState) f3 = Some (checked_sources status)).
  { intros f3 ->. by apply deserialize_entries. }
  assert (Hvisit : forall f1 f2 f3, required f1 = Some (state status) ->
    required f2 = Some (last_run status) -> required f3 = Some (checked_sources status) ->
    TriggerStatus_visit [f1; f2; f3] = Some status).
  { intros f1 f2 f3 H1 H2 H3. unfold TriggerStatus_visit. rewrite H1, H2. simpl. rewrite H3.
    by destruct status. }
  assert (Hstate : required (Given (serialize (state status))) = Some (state status)).
  { by destruct (state status). }
  split.
  - apply (Hvisit (Given (serialize (state status))) (Given (serialize (last_run status)))
      (Given (entries_value order))); [done|by destruct (last_run status)|by apply Hsources].
  - destruct (last_run status) as [lr|] eqn:Hlr;
      [apply (Hvisit (Given (serialize (state status))) (Given (VStr lr))
         (Given (entries_value order)))
      |apply (Hvisit (Given (serialize (state status))) Absent (Given (entries_value order)))];
      by try apply Hsources.
Qed.

(** The derived serialisation of a status is not read back when no source
    was checked yet: the empty map is skipped, but it has no default. *)
Theorem empty_status_not_read_back status :
  deserialize (serialize status)
  = if bool_decide (checked_sources status = ∅) then None else Some status.
Proof.
  apply struct_reads; [apply (bool_decide_unpack _); by vm_compute|reflexivity|].
  cbv [TriggerStatus_visit TriggerStatus_fields field field_if_some fmap list_fmap snd].
  cbn [mbind option_bind].
  eapply bind_some; [apply required_some; exact I|].
  eapply bind_some; [apply required_if_some; survive|].
  case_bool_decide as Hempty; [done|].
  eapply bind_some; [apply required_some; survive|]. by destruct status.
Qed.

(** ** What a document may leave out *)

Lemma open_struct_absent deny names fields l i k :
  open_struct deny names (VObj fields) = Some l -> names !! i = Some k -> k ∉ fields.*1 ->
  l !! i = Some Absent.
Proof.
  simpl. case_match; [done|]. intros Hl Hk Hno. apply mapM_Some in Hl.
  destruct (Forall2_lookup_l _ _ _ _ _ Hl Hk) as (f & Hf & Hfield). rewrite Hf. f_equal.
  unfold object_field in Hfield. by rewrite values_of_nil in Hfield; [injection Hfield as ->|].
Qed.

(** A key whose field is refused when absent is there in what is read. *)
Lemma key_needed {A} names (visit : list field_value -> option A) fields x i k :
  open_struct false names (VObj fields) ≫= visit = Some x -> names !! i = Some k ->
  (forall l, visit l = Some x -> l !! i <> Some Absent) -> k ∈ fields.*1.
Proof.
  intros Hv Hk Habsent. destruct (decide (k ∈ fields.*1)) as [|Hno]; [done|exfalso].
  destruct (open_struct false names (VObj fields)) as [l|] eqn:Hopen; [|done].
  by eapply Habsent, open_struct_absent.
Qed.

Ltac absent_refused :=
  let l := fresh "l" in let Hv := fresh "Hv" in let Hl := fresh "Hl" in
  intros l Hv Hl; repeat (destruct l as [|? l]; [done|]); destruct l; [|done];
  simpl in Hl; injection Hl as ->; simpl in Hv;
  repeat (apply bind_Some in Hv as (? & ? & Hv)); done.

(** C27. What a resource may leave out.  A trigger that only lists its sources
    watches the main branch of namespaced repositories for changes, without
    file patterns; TLS and credentials may be left out, and a repository's
    certificate and keys have default names; an action may be empty.  But
    three values that the documentation gives a default for are mandatory
    wherever their section is written: [onChangeOnly] in [watchOn],
    [multiSource] in [webhook], and each of the four names in [keys]; and
    the command of a job is a list, not the single word of the documented
    example. *)
Theorem omitted_fields `{Ext, !Serialize Toleration, !Deserialize Toleration, !Serialize Affinity,
    !Deserialize Affinity} :
  (forall l : list string,
     deserialize (A:=TriggerSources) (VObj [("names", serialize l)])
     = Some {| sources_kind := KindGitRepo; names := l; watch_on := TriggerWatchOn_default |})
  /\ (forall uri, deserialize (A:=GitRepoSpec) (VObj [("repoUri", VStr uri)])
        = Some {| grs_repo_uri := uri; grs_tls_config := None; grs_auth_config := None |})
  /\ deserialize (A:=ActionSpec) (VObj [])
     = Some {| acs_source_override := None; acs_action_job := ActionJob_default |}
  /\ (forall fields w, deserialize (A:=TriggerWatchOn) (VObj fields) = Some w ->
        "onChangeOnly" ∈ fields.*1)
  /\ (forall fields w, deserialize (A:=TriggerWebhook) (VObj fields) = Some w ->
        "multiSource" ∈ fields.*1)
  /\ (forall fields w k, deserialize (A:=GitAuthSecretKeys) (VObj fields) = Some w ->
        k ∈ GitAuthSecretKeys_keys -> k ∈ fields.*1)
  /\ (forall v word, member "command" v = Some (VStr word) ->
        deserialize (A:=ActionJob) v = None).
Proof.
  split. { intros l. apply (struct_reads false TriggerSources_keys [("kind", None);
      ("names", Some (serialize l)); ("watchOn", None)] TriggerSources_visit);
      [apply (bool_decide_unpack _); by vm_compute|done|].
    cbv [TriggerSources_visit fmap list_fmap snd]. eapply bind_some; [done|].
    eapply bind_some; [apply required_some; survive|done]. }
  split; [done|]. split; [done|].
  split. { intros fields w Hw. eapply (key_needed TriggerWatchOn_keys TriggerWatchOn_visit _ _ 0);
    [done|done|absent_refused]. }
  split. { intros fields w Hw. eapply (key_needed TriggerWebhook_keys TriggerWebhook_visit _ _ 0);
    [done|done|absent_refused]. }
  split. { intros fields w k Hw Hk. apply list_elem_of_lookup in Hk as [i Hi].
    eapply (key_needed GitAuthSecretKeys_keys GitAuthSecretKeys_visit _ _ i); [done|done|].
    apply lookup_lt_Some in Hi. change (i < 4) in Hi.
    destruct i as [|[|[|[|]]]]; [absent_refused..|lia]. }
  intros v word Hword. destruct (deserialize (A:=ActionJob) v) as [x|] eqn:Hx; [|done].
  change (open_struct false ActionJob_keys v ≫= ActionJob_visit = Some x) in Hx.
  destruct (open_struct false ActionJob_keys v) as [l|] eqn:Hopen; [|done].
  pose proof (open_struct_member _ _ _ _ 4 "command" _ Hopen eq_refl Hword) as Hl.
  simpl in Hx. repeat (destruct l as [|? l]; [done|]). destruct l; [|done].
  simpl in Hl. injection Hl as ->. simpl in Hx.
  repeat (apply bind_Some in Hx as (? & ? & Hx)). done.
Qed.

(** ** Example *)

Lemma status_patch_read_back_witness :
  let app_state := {| commit_hash := Some "c0ffee"; file_hash := None; changed := None |} in
  let status := {| state := Running; last_run := None; checked_sources := {[ "app" := app_state ]} |} in
  let patch := status_patch "ScheduleTrigger" status [("app", app_state)] in
  member "apiVersion" patch = Some (VStr "git-events-runner.rs/v1alpha1")
  /\ member "kind" patch = Some (VStr "ScheduleTrigger")
  /\ exists v, member "status" patch = Some v
       /\ deserialize v = Some status /\ deserialize (without_nulls v) = Some status.
Proof.
  intros app_state status.
  apply (status_patch_read_back "ScheduleTrigger" status [("app", app_state)]).
  simpl. by rewrite map_to_list_singleton.
Defined.
