(* ===== verification/ConfigDocument.v ===== *)
(** * Documents of the runtime configuration: theorems

    A ConfigMap may give any part of the configuration: what it gives counts,
    the rest is the default, and a document with anything else in it is
    refused, which keeps the configuration in force. *)

From stdpp Require Import base option gmap strings list fin_maps.
From Stdlib Require Import Ascii ZArith Lia.
From S2P Require Import Prelude Strs Serde Time Errors Config Ext Resources Wire WireFacts.
Local Open Scope string_scope.
Local Open Scope list_scope.

(** ** Partial configurations *)

Section partial.
Context (p : string -> bool).

(** The part of a configuration that a document gives: the fields whose path
    [p] selects. *)
Definition selected (path : string) (fields : list (string * option Value))
    : list (string * option Value) :=
  (fun '(k, v) => (k, if p (path ^^ k) then v else None)) <$> fields.

Definition workdir_document (self : ActionWorkdirConfig) : Value :=
  struct_value (selected "action.workdir." (ActionWorkdirConfig_fields self)).
Definition cloner_document (self : ActionContainersClonerConfig) : Value :=
  struct_value (selected "action.containers.cloner." (ActionContainersClonerConfig_fields self)).
Definition worker_document (self : ActionContainersWorkerConfig) : Value :=
  struct_value (selected "action.containers.worker." (ActionContainersWorkerConfig_fields self)).
Definition containers_document (self : ActionContainersConfig) : Value :=
  struct_value (selected "action.containers." [
    ("cloner", Some (cloner_document (cc_cloner self)));
    ("worker", Some (worker_document (cc_worker self)))]).
Definition action_document (self : ActionConfig) : Value :=
  struct_value (selected "action." [
    int_field "maxRunningJobs" (max_running_jobs self);
    int_field "jobWaitingTimeoutSeconds" (job_waiting_timeout_seconds self);
    field_if_some "defaultServiceAccount" (default_service_account self);
    int_field "activeDeadlineSeconds" (active_deadline_seconds self);
    int_field "ttlSecondsAfterFinished" (ttl_seconds_after_finished self);
    ("workdir", Some (workdir_document (ac_workdir self)));
    ("containers", Some (containers_document (ac_containers self)))]).
Definition webhook_document (self : TriggerWebhookConfig) : Value :=
  struct_value (selected "trigger.webhook." (TriggerWebhookConfig_fields self)).
Definition trigger_document (self : TriggerConfig) : Value :=
  struct_value (selected "trigger." [("webhook", Some (webhook_document (tc_webhook self)))]).
Definition config_document (self : RuntimeConfig) : Value :=
  struct_value (selected "" [
    ("action", Some (action_document (rc_action self)));
    ("trigger", Some (trigger_document (rc_trigger self)))]).

(** The value of a path: from the document where it gives one. *)
Definition chosen {A} (path : string) (given default : A) : A := if p path then given else default.

Definition workdir_overlay (self default : ActionWorkdirConfig) : ActionWorkdirConfig := {|
  mount_path := chosen "action.workdir.mountPath" (mount_path self) (mount_path default);
  volume_name := chosen "action.workdir.volumeName" (volume_name self) (volume_name default) |}.
Definition cloner_overlay (self default : ActionContainersClonerConfig) := {|
  cloner_name := chosen "action.containers.cloner.name" (cloner_name self) (cloner_name default);
  cloner_image := chosen "action.containers.cloner.image" (cloner_image self)
                    (cloner_image default) |}.
Definition worker_overlay (self default : ActionContainersWorkerConfig) := {|
  worker_name := chosen "action.containers.worker.name" (worker_name self) (worker_name default);
  worker_image := chosen "action.containers.worker.image" (worker_image self)
                    (worker_image default);
  variables_prefix := chosen "action.containers.worker.variablesPrefix" (variables_prefix self)
                        (variables_prefix default) |}.
Definition containers_overlay (self default : ActionContainersConfig) := {|
  cc_cloner := chosen "action.containers.cloner" (cloner_overlay (cc_cloner self)
                 (cc_cloner default)) (cc_cloner default);
  cc_worker := chosen "action.containers.worker" (worker_overlay (cc_worker self)
                 (cc_worker default)) (cc_worker default) |}.
Definition action_overlay (self default : ActionConfig) := {|
  max_running_jobs := chosen "action.maxRunningJobs" (max_running_jobs self)
                        (max_running_jobs default);
  job_waiting_timeout_seconds := chosen "action.jobWaitingTimeoutSeconds"
    (job_waiting_timeout_seconds self) (job_waiting_timeout_seconds default);
  default_service_account := chosen "action.defaultServiceAccount"
    (default_service_account self) (default_service_account default);
  active_deadline_seconds := chosen "action.activeDeadlineSeconds"
    (active_deadline_seconds self) (active_deadline_seconds default);
  ttl_seconds_after_finished := chosen "action.ttlSecondsAfterFinished"
    (ttl_seconds_after_finished self) (ttl_seconds_after_finished default);
  ac_workdir := chosen "action.workdir" (workdir_overlay (ac_workdir self) (ac_workdir default))
                  (ac_workdir default);
  ac_containers := chosen "action.containers" (containers_overlay (ac_containers self)
                     (ac_containers default)) (ac_containers default) |}.
Definition webhook_overlay (self default : TriggerWebhookConfig) := {|
  default_auth_header := chosen "trigger.webhook.defaultAuthHeader" (default_auth_header self)
                           (default_auth_header default) |}.
Definition trigger_overlay (self default : TriggerConfig) := {|
  tc_webhook := chosen "trigger.webhook" (webhook_overlay (tc_webhook self) (tc_webhook default))
                  (tc_webhook default) |}.
Definition config_overlay (self default : RuntimeConfig) : RuntimeConfig := {|
  rc_action := chosen "action" (action_overlay (rc_action self) (rc_action default))
                 (rc_action default);
  rc_trigger := chosen "trigger" (trigger_overlay (rc_trigger self) (rc_trigger default))
                  (rc_trigger default) |}.

(** Values of the widths of the fields, where the document gives them. *)
Record ActionConfig_in_range (self : ActionConfig) : Prop := {
  acr_max : (0 <= max_running_jobs self <= u64_max)%Z;
  acr_waiting : (0 <= job_waiting_timeout_seconds self <= u64_max)%Z;
  acr_deadline : (- 2 ^ 63 <= active_deadline_seconds self <= i64_max)%Z;
  acr_ttl : (- 2 ^ 31 <= ttl_seconds_after_finished self <= 2 ^ 31 - 1)%Z }.

Lemma chosen_field {A} `{Deserialize A} path (v : Value) (x d : A) :
  deserialize v = Some x ->
  with_default d (as_given (if p path then Some v else None)) = Some (chosen path x d).
Proof. intros Hv. unfold chosen. by destruct (p path). Qed.

Lemma chosen_option path (x : option string) :
  with_default None (as_given (if p path then serialize <$> x else None))
  = Some (chosen path x None).
Proof. unfold chosen. by destruct (p path), x. Qed.

Lemma chosen_int path lo hi (z d : Z) :
  (lo <= z <= hi)%Z ->
  with_default (H:=int_deserialize lo hi) d
    (as_given (if p path then Some (serialize (Serialize:=int_serialize) z) else None))
  = Some (chosen path z d).
Proof. intros Hz. apply chosen_field. simpl. by rewrite bool_decide_eq_true_2. Qed.

Ltac visit_chosen :=
  repeat (eapply bind_some;
    [ lazymatch goal with
      | |- with_default (A:=option _) _ _ = _ => apply chosen_option
      | |- with_default (A:=Z) _ _ = _ => apply chosen_int; assumption
      | |- with_default _ _ = _ => apply chosen_field; first [assumption | done]
      end |]; cbv beta).

Ltac open_document visit fields_of :=
  apply struct_reads; [apply (bool_decide_unpack _); by vm_compute|reflexivity|];
  cbv [visit fields_of selected field field_if_some int_field fmap list_fmap snd
       i32_deserialize i64_deserialize u64_deserialize];
  visit_chosen.

Lemma workdir_read self :
  deserialize (workdir_document self) = Some (workdir_overlay self ActionWorkdirConfig_default).
Proof. open_document ActionWorkdirConfig_visit ActionWorkdirConfig_fields. done. Qed.

Lemma cloner_read self :
  deserialize (cloner_document self)
  = Some (cloner_overlay self ActionContainersClonerConfig_default).
Proof. open_document ActionContainersClonerConfig_visit ActionContainersClonerConfig_fields. done. Qed.

Lemma worker_read self :
  deserialize (worker_document self)
  = Some (worker_overlay self ActionContainersWorkerConfig_default).
Proof. open_document ActionContainersWorkerConfig_visit ActionContainersWorkerConfig_fields. done. Qed.

Lemma containers_read self :
  deserialize (containers_document self)
  = Some (containers_overlay self ActionContainersConfig_default).
Proof.
  pose proof (cloner_read (cc_cloner self)). pose proof (worker_read (cc_worker self)).
  open_document ActionContainersConfig_visit ActionContainersConfig_fields. done.
Qed.

Lemma action_read self :
  ActionConfig_in_range self ->
  deserialize (action_document self) = Some (action_overlay self ActionConfig_default).
Proof.
  intros [Hmax Hwait Hdeadline Httl].
  pose proof (workdir_read (ac_workdir self)). pose proof (containers_read (ac_containers self)).
  open_document ActionConfig_visit ActionConfig_fields. done.
Qed.

Lemma webhook_read self :
  deserialize (webhook_document self) = Some (webhook_overlay self TriggerWebhookConfig_default).
Proof. open_document TriggerWebhookConfig_visit TriggerWebhookConfig_fields. done. Qed.

Lemma trigger_read self :
  deserialize (trigger_document self) = Some (trigger_overlay self TriggerConfig_default).
Proof.
  pose proof (webhook_read (tc_webhook self)).
  open_document TriggerConfig_visit TriggerConfig_fields. done.
Qed.

Lemma config_read self :
  ActionConfig_in_range (rc_action self) ->
  deserialize (config_document self) = Some (config_overlay self RuntimeConfig_default).
Proof.
  intros Hrange. pose proof (action_read (rc_action self) Hrange).
  pose proof (trigger_read (rc_trigger self)).
  open_document RuntimeConfig_visit RuntimeConfig_fields. done.
Qed.
End partial.

(** ** Unknown keys *)

(** The sections of a document and the keys they may have. *)
Definition config_sections : list (list string * list string) := [
  ([], RuntimeConfig_keys);
  (["action"], ActionConfig_keys);
  (["action"; "workdir"], ActionWorkdirConfig_keys);
  (["action"; "containers"], ActionContainersConfig_keys);
  (["action"; "containers"; "cloner"], ActionContainersClonerConfig_keys);
  (["action"; "containers"; "worker"], ActionContainersWorkerConfig_keys);
  (["trigger"], TriggerConfig_keys);
  (["trigger"; "webhook"], TriggerWebhookConfig_keys)].

(** A section with a key that it does not know. *)
Definition stray_key (v : Value) (k : string) : Prop :=
  exists path keys fields, (path, keys) ∈ config_sections
    /\ at_path path v = Some (VObj fields) /\ k ∈ fields.*1 /\ k ∉ keys.

Lemma known_keys {A} (names : list string) (visit : list field_value -> option A) fields x :
  open_struct true names (VObj fields) ≫= visit = Some x -> Forall (.∈ names) fields.*1.
Proof.
  intros Hv. destruct (open_struct true names (VObj fields)) eqn:Hopen; [|done].
  by eapply open_struct_known.
Qed.

(** A section that is there was read. *)
Lemma section_read {A B} `{Deserialize B} (names : list string)
    (visit : list field_value -> option A) v x i k w :
  open_struct true names v ≫= visit = Some x -> names !! i = Some k -> member k v = Some w ->
  (forall l y, visit l = Some y -> l !! i = Some (Given w) ->
     is_Some (deserialize (A:=B) w)) -> is_Some (deserialize (A:=B) w).
Proof.
  intros Hv Hk Hw Hpart. destruct (open_struct true names v) as [l|] eqn:Hopen; [|done].
  by eapply Hpart, open_struct_member.
Qed.

(** The visitors deserialise what they are given. *)
Ltac visited :=
  let l := fresh "l" in let Hv := fresh "Hv" in let Hl := fresh "Hl" in
  intros l ? Hv Hl; repeat (destruct l as [|? l]; [done|]); destruct l; [|done];
  simpl in Hl; injection Hl as ->; simpl in Hv;
  repeat (apply bind_Some in Hv as (? & ? & Hv)); eexists; eassumption.

Lemma action_section v c w :
  deserialize (A:=RuntimeConfig) v = Some c -> member "action" v = Some w ->
  is_Some (deserialize (A:=ActionConfig) w).
Proof.
  intros Hv Hw. eapply (section_read RuntimeConfig_keys RuntimeConfig_visit v c 0 "action");
    [done..|visited].
Qed.

Lemma trigger_section v c w :
  deserialize (A:=RuntimeConfig) v = Some c -> member "trigger" v = Some w ->
  is_Some (deserialize (A:=TriggerConfig) w).
Proof.
  intros Hv Hw. eapply (section_read RuntimeConfig_keys RuntimeConfig_visit v c 1 "trigger");
    [done..|visited].
Qed.

Lemma workdir_section v c w :
  deserialize (A:=ActionConfig) v = Some c -> member "workdir" v = Some w ->
  is_Some (deserialize (A:=ActionWorkdirConfig) w).
Proof.
  intros Hv Hw. eapply (section_read ActionConfig_keys ActionConfig_visit v c 5 "workdir");
    [done..|visited].
Qed.

Lemma containers_section v c w :
  deserialize (A:=ActionConfig) v = Some c -> member "containers" v = Some w ->
  is_Some (deserialize (A:=ActionContainersConfig) w).
Proof.
  intros Hv Hw. eapply (section_read ActionConfig_keys ActionConfig_visit v c 6 "containers");
    [done..|visited].
Qed.

Lemma cloner_section v c w :
  deserialize (A:=ActionContainersConfig) v = Some c -> member "cloner" v = Some w ->
  is_Some (deserialize (A:=ActionContainersClonerConfig) w).
Proof.
  intros Hv Hw. eapply (section_read ActionContainersConfig_keys ActionContainersConfig_visit v c 0 "cloner");
    [done..|visited].
Qed.

Lemma worker_section v c w :
  deserialize (A:=ActionContainersConfig) v = Some c -> member "worker" v = Some w ->
  is_Some (deserialize (A:=ActionContainersWorkerConfig) w).
Proof.
  intros Hv Hw. eapply (section_read ActionContainersConfig_keys ActionContainersConfig_visit v c 1 "worker");
    [done..|visited].
Qed.

Lemma webhook_section v c w :
  deserialize (A:=TriggerConfig) v = Some c -> member "webhook" v = Some w ->
  is_Some (deserialize (A:=TriggerWebhookConfig) w).
Proof.
  intros Hv Hw. eapply (section_read TriggerConfig_keys TriggerConfig_visit v c 0 "webhook");
    [done..|visited].
Qed.

(** A document that is read has no stray key anywhere. *)
Lemma no_stray_key v c k : deserialize (A:=RuntimeConfig) v = Some c -> ~ stray_key v k.
Proof.
  intros Hv (path & keys & fields & Hin & Hpath & Hk & Hkeys). apply Hkeys.
  assert (Hknown : Forall (.∈ keys) fields.*1); [|by rewrite Forall_forall in Hknown; auto].
  clear Hk Hkeys. unfold config_sections in Hin. rewrite !elem_of_cons in Hin.
  destruct_or! Hin; try (by apply elem_of_nil in Hin); injection Hin as -> ->;
    cbn [at_path] in Hpath.
  - injection Hpath as ->. by eapply (known_keys _ RuntimeConfig_visit).
  - apply bind_Some in Hpath as (a & Ha & [= ->]).
    destruct (action_section _ _ _ Hv Ha) as [x Hx]. by eapply (known_keys _ ActionConfig_visit).
  - apply bind_Some in Hpath as (a & Ha & (w & Hw & [= ->])%bind_Some).
    destruct (action_section _ _ _ Hv Ha) as [x Hx].
    destruct (workdir_section _ _ _ Hx Hw) as [y Hy].
    by eapply (known_keys _ ActionWorkdirConfig_visit).
  - apply bind_Some in Hpath as (a & Ha & (w & Hw & [= ->])%bind_Some).
    destruct (action_section _ _ _ Hv Ha) as [x Hx].
    destruct (containers_section _ _ _ Hx Hw) as [y Hy].
    by eapply (known_keys _ ActionContainersConfig_visit).
  - apply bind_Some in Hpath as (a & Ha & (w & Hw & (u & Hu & [= ->])%bind_Some)%bind_Some).
    destruct (action_section _ _ _ Hv Ha) as [x Hx].
    destruct (containers_section _ _ _ Hx Hw) as [y Hy].
    destruct (cloner_section _ _ _ Hy Hu) as [z Hz].
    by eapply (known_keys _ ActionContainersClonerConfig_visit).
  - apply bind_Some in Hpath as (a & Ha & (w & Hw & (u & Hu & [= ->])%bind_Some)%bind_Some).
    destruct (action_section _ _ _ Hv Ha) as [x Hx].
    destruct (containers_section _ _ _ Hx Hw) as [y Hy].
    destruct (worker_section _ _ _ Hy Hu) as [z Hz].
    by eapply (known_keys _ ActionContainersWorkerConfig_visit).
  - apply bind_Some in Hpath as (a & Ha & [= ->]).
    destruct (trigger_section _ _ _ Hv Ha) as [x Hx]. by eapply (known_keys _ TriggerConfig_visit).
  - apply bind_Some in Hpath as (a & Ha & (w & Hw & [= ->])%bind_Some).
    destruct (trigger_section _ _ _ Hv Ha) as [x Hx].
    destruct (webhook_section _ _ _ Hx Hw) as [y Hy].
    by eapply (known_keys _ TriggerWebhookConfig_visit).
Qed.

(** ** Reloading *)

(** C26. What a new ConfigMap does, for a YAML reader that reads a text as the
    document it denotes.  A document that gives any selection of the fields
    replaces the whole configuration: each field it gives has the given
    value, and each field it leaves out has the built-in default - not the
    value that was in force before.  A document with a key that its section
    does not know, at any depth, is refused as a whole, and the
    configuration in force stays. *)
Theorem config_reload_spec from_yaml (denotes : string -> option Value) text cm current :
  (forall text v, denotes text = Some v ->
     match deserialize (A:=RuntimeConfig) v with
     | Some c => from_yaml text = Ok c
     | None => is_ok (from_yaml text) = false
     end) ->
  named (Ok cm) -> unwrap_or ∅ (cm_data cm) !! CONFIG_MAP_DATA_NAME = Some text ->
  (forall p c, ActionConfig_in_range (rc_action c) -> denotes text = Some (config_document p c) ->
     on_config_map from_yaml current (Ok cm) = Ret (config_overlay p c RuntimeConfig_default))
  /\ (forall v k, denotes text = Some v -> stray_key v k ->
     on_config_map from_yaml current (Ok cm) = Ret current).
Proof.
  intros Hread Hnamed Htext. rewrite on_config_map_named by done.
  unfold valid_config, try_from_config_map. rewrite Htext. split.
  - intros p c Hrange Hdoc. specialize (Hread _ _ Hdoc).
    rewrite config_read in Hread by done. by rewrite Hread.
  - intros v k Hdoc Hstray. specialize (Hread _ _ Hdoc).
    destruct (deserialize v) as [c|] eqn:Hv; [by destruct (no_stray_key v c k)|].
    by destruct (from_yaml text).
Qed.

(** ** Example *)

(** Two documents: one that gives the limit only, one with a misspelt key. *)
Definition limit_only (path : string) : bool :=
  String.eqb path "action" || String.eqb path "action.maxRunningJobs".

Definition three_jobs : RuntimeConfig := {|
  rc_action := {| max_running_jobs := 3;
    job_waiting_timeout_seconds := 0; default_service_account := None;
    active_deadline_seconds := 0; ttl_seconds_after_finished := 0;
    ac_workdir := ActionWorkdirConfig_default;
    ac_containers := ActionContainersConfig_default |};
  rc_trigger := TriggerConfig_default |}.

Definition misspelt : Value :=
  VObj [("action", VObj [("workdir", VObj [("mount_path", VStr "/work")])])].

Definition example_denotes (text : string) : option Value :=
  if String.eqb text "action: {maxRunningJobs: 3}" then Some (config_document limit_only three_jobs)
  else if String.eqb text "action: {workdir: {mount_path: /work}}" then Some misspelt
  else None.

Definition example_reader (text : string) : result string RuntimeConfig :=
  ok_or "bad document" (example_denotes text ≫= deserialize).

Example limit_document :
  config_document limit_only three_jobs = VObj [("action", VObj [("maxRunningJobs", VInt 3)])].
Proof. vm_compute. reflexivity. Qed.

Lemma config_reload_spec_witness :
  on_config_map example_reader helm_template_config (Ok (example_cm "action: {maxRunningJobs: 3}"))
  = Ret (config_overlay limit_only three_jobs RuntimeConfig_default)
  /\ on_config_map example_reader helm_template_config
      (Ok (example_cm "action: {workdir: {mount_path: /work}}")) = Ret helm_template_config.
Proof.
  assert (Hread : forall text v, example_denotes text = Some v ->
    match deserialize (A:=RuntimeConfig) v with
    | Some c => example_reader text = Ok c
    | None => is_ok (example_reader text) = false
    end).
  { intros text v Hv. unfold example_reader. rewrite Hv. cbn [mbind option_bind]. by destruct (deserialize v). }
  split.
  - refine (proj1 (config_reload_spec example_reader example_denotes "action: {maxRunningJobs: 3}"
      (example_cm _) helm_template_config Hread _ eq_refl) limit_only three_jobs _ eq_refl).
    + split; by eexists.
    + split; vm_compute; split; discriminate.
  - refine (proj2 (config_reload_spec example_reader example_denotes
      "action: {workdir: {mount_path: /work}}" (example_cm _) helm_template_config Hread _ eq_refl)
      misspelt "mount_path" eq_refl _).
    + split; by eexists.
    + exists ["action"; "workdir"], ActionWorkdirConfig_keys, [("mount_path", VStr "/work")].
      split; [unfold config_sections; set_solver|]. split; [done|].
      split; [set_solver|]. apply (bool_decide_unpack _). by vm_compute.
Defined.
