(* ===== verification/World.v ===== *)
(** * The services the program calls

    One constructor of [Call] per kind of call that leaves the program, and
    the type of its answer.  The component files are programs over these
    calls ([prog resp]); their theorems quantify over the [oracle] that gives
    the answers. *)

From stdpp Require Import base option gmap sets strings list.
From Stdlib Require Import Ascii ZArith Permutation.
From S2P Require Import Prelude Strs Time Errors Config Ext Resources.
Local Open Scope string_scope.

(** The metrics of the four registries. *)
Inductive Metric : Type :=
(* jobs.rs *)
| JobsQueueLimit | JobsQueueRunning | JobsQueueWaiting | JobsQueueWaitingDuration
| JobsQueueCompletedCount | JobsQueueCompletedDuration
(* trigger.rs *)
| TriggerCheckCount | TriggerCheckDuration
(* controller.rs *)
| ReconcileCount | ReconcileDuration | FailedReconcileCount
(* web.rs *)
| WebhookRequestsCount | WebhookRequestsDuration.

#[export] Instance Metric_eq_dec : EqDecision Metric.
Proof. solve_decision. Defined.

(** [sacs] task schedules. *)
Inductive TaskSchedule `{Ext} : Type :=
| Once
| TaskInterval (interval : Duration)
| TaskIntervalDelayed (interval delay : Duration)
| TaskCron (cron : CronSchedule) (at_start concurrent : bool).

Inductive CancelOpts : Type := CancelIgnore | CancelKill.

Definition TaskId : Type := string.

(** A task as the scheduler holds it: when to run, and the values its closure
    captures (the trigger, by kind, namespace and name; which sources; the
    folder to clone to). *)
Record Task `{Ext} := {
  task_schedule : TaskSchedule;
  task_trigger_kind : string;
  task_trigger_ns : string;
  task_trigger_name : string;
  task_sources : TriggerTaskSources;
  task_source_clone_folder : string }.

(** There is one scheduler per front end: the leader controller's for schedule
    triggers, the web server's for webhooks. *)
Inductive SchedulerId : Type := LeaderScheduler | WebScheduler.

#[export] Instance SchedulerId_eq_dec : EqDecision SchedulerId.
Proof. solve_decision. Defined.

(** How the certificate callback of a fetch decides. *)
Inductive CertificateCheck : Type :=
| CertificateOk
| CertificatePassthrough
| CertificateCustomCa (pem : string).

(** How the credentials callback of a fetch answers: the secrets it captured. *)
Inductive CredentialsCallback : Type :=
| CredUserpass (secrets : gmap string string)
| CredSshKey (secrets : gmap string string).

Record FetchOptions := {
  fo_custom_headers : list string;
  fo_credentials : option CredentialsCallback;
  fo_certificate_check : option CertificateCheck;
  fo_depth : Z }.

Inductive Call `{Ext} : Type :=
(* clocks, randomness, configuration *)
| SystemNow
| UtcNow
| InstantNow
| RandAlphanumeric
| UuidV4
| GetConfig
(* the iteration order of a HashMap and of a HashSet *)
| HashMapOrder (m : gmap string string)
| HashSetOrder (m : gset string)
(* metrics *)
| GaugeSet (m : Metric) (v : Z)
| MetricWithLabels (m : Metric) (labels : list string)
| CounterInc (m : Metric) (labels : list string)
| HistogramObserve (m : Metric) (labels : list string) (d : Duration)
(* Kubernetes API *)
| CreateJob (ns : string) (job : Job)
| GetSecret (ns name : string)
| PatchStatus (kind ns name : string) (status : TriggerStatus)
| PublishEvent (kind ns name type_ reason note action : string)
| ListCrd (kind : string) (limit : Z)
| GetGitRepoApi (ns name : string)
| GetClusterGitRepoApi (name : string)
(* reflector stores, by the namespace of the key and the name *)
| StoreGitRepo (ns name : string)
| StoreClusterGitRepo (ns name : string)
| StoreAction (ns name : string)
| StoreClusterAction (ns name : string)
| StoreWebhookTrigger (ns name : string)
| StoreScheduleTrigger (ns name : string)
(* task schedulers; the last is whether [Arc::into_inner] had the only reference *)
| SchedulerBuild (s : SchedulerId) (parallelism : Z)
| SchedulerAdd (s : SchedulerId) (task : Task)
| SchedulerCancel (s : SchedulerId) (id : TaskId) (opts : CancelOpts)
| SchedulerShutdown (s : SchedulerId)
| SchedulerIntoInner (s : SchedulerId)
(* file system *)
| CreateDirAll (path : string)
| RemoveDirAll (path : string)
| GlobWalk (folder : string) (patterns : list string)
| FileOpen (path : string)
| FileReadToEnd (path : string)
(* the trust store of the platform *)
| LoadNativeCerts
(* git, on the repository at a path *)
| GitInit (path origin_url : string)
| GitFindRemote (path remote : string)
| GitFetch (path ref_name : string) (opts : FetchOptions)
| GitResolveReference (path short_name : string)
| GitFindObject (path oid : string)
| GitCheckoutTree (path oid : string).

Definition resp `{Ext} (c : Call) : Type :=
  match c with
  | SystemNow => SystemTime
  | UtcNow => Z
  | InstantNow => Z
  | RandAlphanumeric => Ascii.ascii
  | UuidV4 => string
  | GetConfig => RuntimeConfig
  | HashMapOrder m => { l : list (string * string) | l ≡ₚ map_to_list m }
  | HashSetOrder m => { l : list string | l ≡ₚ elements m }
  | GaugeSet _ _ => unit
  | MetricWithLabels _ _ => bool
  | CounterInc _ _ => unit
  | HistogramObserve _ _ _ => unit
  | CreateJob _ _ => result KubeErr unit
  | GetSecret _ _ => result KubeErr Secret
  | PatchStatus _ _ _ _ => result KubeErr unit
  | PublishEvent _ _ _ _ _ _ _ => result KubeErr unit
  | ListCrd _ _ => result KubeErr unit
  | GetGitRepoApi _ _ => result KubeErr GitRepo
  | GetClusterGitRepoApi _ => result KubeErr ClusterGitRepo
  | StoreGitRepo _ _ => option GitRepo
  | StoreClusterGitRepo _ _ => option ClusterGitRepo
  | StoreAction _ _ => option Action
  | StoreClusterAction _ _ => option ClusterAction
  | StoreWebhookTrigger _ _ => option WebhookTrigger
  | StoreScheduleTrigger _ _ => option ScheduleTrigger
  | SchedulerAdd _ _ => result string TaskId
  | SchedulerCancel _ _ _ => result string unit
  | SchedulerShutdown _ => unit
  | SchedulerBuild _ _ => unit
  | SchedulerIntoInner _ => bool
  | CreateDirAll _ => result string unit
  | RemoveDirAll _ => result string unit
  | GlobWalk _ _ => result string (list (result string string))
  | FileOpen _ => result string unit
  | FileReadToEnd _ => result string string
  | LoadNativeCerts => result string unit
  | GitInit _ _ => result string unit
  | GitFindRemote _ _ => result string unit
  | GitFetch _ _ _ => result string unit
  | GitResolveReference _ _ => result string (option string)
  | GitFindObject _ _ => result string unit
  | GitCheckoutTree _ _ => result string unit
  end.

(** The program type of the components. *)
Abbreviation io := (prog resp).
Abbreviation call := (perform (R:=resp)).
Abbreviation services := (oracle resp).
Abbreviation trace := (list (event resp)).

(** Services for the examples: everything succeeds, the stores are empty, the
    clock stands at [now] and the configuration is [config]. *)
Definition quiet_services `{Ext} (now : SystemTime) (config : RuntimeConfig) : services :=
  fun _ c =>
    match c as c return resp c with
    | SystemNow => now
    | UtcNow => now
    | InstantNow => now
    | RandAlphanumeric => "a"%char
    | UuidV4 => "00000000-0000-4000-8000-000000000000"
    | GetConfig => config
    | HashMapOrder m => exist _ (map_to_list m) (Permutation_refl _)
    | HashSetOrder m => exist _ (elements m) (Permutation_refl _)
    | GaugeSet _ _ => tt
    | MetricWithLabels _ _ => true
    | CounterInc _ _ => tt
    | HistogramObserve _ _ _ => tt
    | CreateJob _ _ => Ok tt
    | GetSecret _ _ => Err (KApi 404 "not found" "ApiError: not found")
    | PatchStatus _ _ _ _ => Ok tt
    | PublishEvent _ _ _ _ _ _ _ => Ok tt
    | ListCrd _ _ => Ok tt
    | GetGitRepoApi _ _ => Err (KApi 404 "not found" "ApiError: not found")
    | GetClusterGitRepoApi _ => Err (KApi 404 "not found" "ApiError: not found")
    | StoreGitRepo _ _ => None
    | StoreClusterGitRepo _ _ => None
    | StoreAction _ _ => None
    | StoreClusterAction _ _ => None
    | StoreWebhookTrigger _ _ => None
    | StoreScheduleTrigger _ _ => None
    | SchedulerAdd _ _ => Ok "task-1"
    | SchedulerCancel _ _ _ => Ok tt
    | SchedulerShutdown _ => tt
    | SchedulerBuild _ _ => tt
    | SchedulerIntoInner _ => true
    | CreateDirAll _ => Ok tt
    | RemoveDirAll _ => Ok tt
    | GlobWalk _ _ => Ok []
    | FileOpen _ => Ok tt
    | FileReadToEnd _ => Ok EmptyString
    | LoadNativeCerts => Ok tt
    | GitInit _ _ => Ok tt
    | GitFindRemote _ _ => Ok tt
    | GitFetch _ _ _ => Ok tt
    | GitResolveReference _ _ => Ok (Some "c0ffee")
    | GitFindObject _ _ => Ok tt
    | GitCheckoutTree _ _ => Ok tt
    end.
