(* ===== verification/Jobs.v ===== *)
(** * The jobs queue (src/src/jobs.rs)

    The queue of Kubernetes Jobs with its limit on simultaneously running
    jobs: the metrics it reports, the handler of job watch events that keeps
    the running counter, [run_queue], and [enqueue].  This file holds the
    operations and the theorems about one run of each; JobsSystem.v holds the
    interleavings. *)

From stdpp Require Import base option gmap strings list.
From Stdlib Require Import ZArith Lia.
From S2P Require Import Prelude Strs Time Errors Config Ext Resources World.
Local Open Scope string_scope.
Local Open Scope prog_scope.

Definition ACTION_JOB_IDENTITY_LABEL : string := "git-events-runner.rs/controller-identity".

(** The label keys declared in action.rs, which the metrics read. *)
Definition ACTION_JOB_ACTION_KIND_LABEL : string := "git-events-runner.rs/action-kind".
Definition ACTION_JOB_ACTION_NAME_LABEL : string := "git-events-runner.rs/action-name".
Definition ACTION_JOB_SOURCE_KIND_LABEL : string := "git-events-runner.rs/source-kind".
Definition ACTION_JOB_SOURCE_NAME_LABEL : string := "git-events-runner.rs/source-name".
Definition ACTION_JOB_TRIGGER_KIND_LABEL : string := "git-events-runner.rs/trigger-kind".
Definition ACTION_JOB_TRIGGER_NAME_LABEL : string := "git-events-runner.rs/trigger-name".

Inductive JobCompletionStatus : Type := Succeed | Failed | Expired | Deleted | CreateError.

Definition JobCompletionStatus_to_string (s : JobCompletionStatus) : string :=
  match s with
  | Succeed => "Succeed"
  | Failed => "Failed"
  | Expired => "Expired"
  | Deleted => "Deleted"
  | CreateError => "CreateError"
  end.

Section Jobs.
Context `{Ext}.

Record JobsQueueItem := {
  item_job : Job;
  enqueued_at : SystemTime;
  expire_after : option Duration }.

(** The key of a job in the watch store: namespace and name. *)
Definition ObjectRef : Type := string * string.

(** The shared queue object, with the [statuses] map that the watch handler
    owns and the state of the event channel (whether its receiver is still
    alive, whether a change is pending). *)
Record JobsQueue := {
  identity : string;
  queue_jobs : list JobsQueueItem;
  running_jobs : Z; (* AtomicUsize *)
  statuses : gmap ObjectRef JobStatus;
  queue_event_alive : bool;
  queue_event_pending : bool }.

Definition with_queue_jobs (l : list JobsQueueItem) (q : JobsQueue) : JobsQueue := {|
  identity := identity q; queue_jobs := l; running_jobs := running_jobs q;
  statuses := statuses q; queue_event_alive := queue_event_alive q;
  queue_event_pending := queue_event_pending q |}.

Definition with_running_jobs (n : Z) (q : JobsQueue) : JobsQueue := {|
  identity := identity q; queue_jobs := queue_jobs q; running_jobs := n;
  statuses := statuses q; queue_event_alive := queue_event_alive q;
  queue_event_pending := queue_event_pending q |}.

Definition with_statuses (m : gmap ObjectRef JobStatus) (q : JobsQueue) : JobsQueue := {|
  identity := identity q; queue_jobs := queue_jobs q; running_jobs := running_jobs q;
  statuses := m; queue_event_alive := queue_event_alive q;
  queue_event_pending := queue_event_pending q |}.

Definition with_event_pending (b : bool) (q : JobsQueue) : JobsQueue := {|
  identity := identity q; queue_jobs := queue_jobs q; running_jobs := running_jobs q;
  statuses := statuses q; queue_event_alive := queue_event_alive q;
  queue_event_pending := b |}.

(** ** Metrics *)

(** The labels of the completed-jobs metrics; every [unwrap] of the code is an
    [unwrap] here. *)
Definition completed_labels {S} (job : Job) (status : JobCompletionStatus)
    : io S (list string) :=
  namespace <-- unwrap (om_namespace (job_metadata job)) ;;
  job_labels <-- unwrap (om_labels (job_metadata job)) ;;
  action_kind <-- unwrap (job_labels !! ACTION_JOB_ACTION_KIND_LABEL) ;;
  action_name <-- unwrap (job_labels !! ACTION_JOB_ACTION_NAME_LABEL) ;;
  source_kind <-- unwrap (job_labels !! ACTION_JOB_SOURCE_KIND_LABEL) ;;
  source_name <-- unwrap (job_labels !! ACTION_JOB_SOURCE_NAME_LABEL) ;;
  trigger_kind <-- unwrap (job_labels !! ACTION_JOB_TRIGGER_KIND_LABEL) ;;
  trigger_name <-- unwrap (job_labels !! ACTION_JOB_TRIGGER_NAME_LABEL) ;;
  ret [namespace; trigger_kind; trigger_name; source_kind; source_name;
       action_kind; action_name; JobCompletionStatus_to_string status].

Definition count_and_measure_completed {S} (job : Job) (status : JobCompletionStatus)
    : io S unit :=
  labels <-- completed_labels job status ;;
  ok <-- call (MetricWithLabels JobsQueueCompletedCount labels) ;;
  (if (ok : bool) then call (CounterInc JobsQueueCompletedCount labels) else ret tt) ;;;
  match status with
  | Expired | Deleted | CreateError => ret tt
  | Succeed | Failed =>
      ok <-- call (MetricWithLabels JobsQueueCompletedDuration labels) ;;
      if (ok : bool) then
        match job_status job ≫= js_start_time with
        | Some start =>
            now <-- call SystemNow ;;
            match duration_since now start with
            | Ok elapsed => call (HistogramObserve JobsQueueCompletedDuration labels elapsed)
            | Err _ => ret tt
            end
        | None => ret tt
        end
      else ret tt
  end.

(** The gauges are [i64]: the conversions from [usize] are unwrapped. *)
Definition update_gauges (waiting_jobs : Z) : io JobsQueue unit :=
  q <-- get ;;
  running <-- unwrap (usize_to_i64 (running_jobs q)) ;;
  call (GaugeSet JobsQueueRunning running) ;;;
  config <-- call GetConfig ;;
  limit <-- unwrap (usize_to_i64 (max_running_jobs (rc_action config))) ;;
  call (GaugeSet JobsQueueLimit limit) ;;;
  waiting <-- unwrap (usize_to_i64 waiting_jobs) ;;
  call (GaugeSet JobsQueueWaiting waiting).

Definition measure_waiting_duration {S} (d : Duration) : io S unit :=
  call (HistogramObserve JobsQueueWaitingDuration [] d).

(** ** Expiration *)

(** The default is computed even when [expire_after] is set, and the deadline
    is an unwrapped [checked_add]. *)
Definition is_expired {S} (item : JobsQueueItem) : io S bool :=
  config <-- call GetConfig ;;
  let expired_after := unwrap_or
    (from_secs (job_waiting_timeout_seconds (rc_action config))) (expire_after item) in
  now <-- call SystemNow ;;
  deadline <-- unwrap (checked_add (enqueued_at item) expired_after) ;;
  ret (bool_decide (deadline < now)%Z).

(** ** The watch on our jobs *)

Definition fetch_sub_running : io JobsQueue unit :=
  modify (fun q => with_running_jobs (wrap_usize (running_jobs q - 1)) q).

Definition fetch_add_running : io JobsQueue unit :=
  modify (fun q => with_running_jobs (wrap_usize (running_jobs q + 1)) q).

(** [queue_event_tx.send(())], result ignored. *)
Definition notify_queue : io JobsQueue unit :=
  modify (fun q => if queue_event_alive q then with_event_pending true q else q).

(** A status is reported for the key: count a finished job when the status
    differs from the last one seen, then remember the status, counting a job
    seen for the first time. *)
Definition on_job_status (key : ObjectRef) (job : Job) (store_status : JobStatus)
    : io JobsQueue unit :=
  q <-- get ;;
  match statuses q !! key with
  | Some prev_status =>
      if bool_decide (store_status <> prev_status) then
        match js_succeeded store_status, js_failed store_status with
        | Some _, _ =>
            fetch_sub_running ;;;
            count_and_measure_completed job Succeed
        | None, Some _ =>
            fetch_sub_running ;;;
            count_and_measure_completed job Failed
        | None, None => ret tt
        end
      else ret tt
  | None => ret tt
  end ;;;
  q <-- get ;;
  put (with_statuses (<[key := store_status]> (statuses q)) q) ;;;
  match statuses q !! key with
  | None => fetch_add_running
  | Some _ => ret tt
  end.

(** No status for the key (the job is gone, or has none yet): forget it, and
    count a job that was removed before it finished. *)
Definition on_job_gone (key : ObjectRef) (job : Job) : io JobsQueue unit :=
  q <-- get ;;
  put (with_statuses (delete key (statuses q)) q) ;;;
  match statuses q !! key with
  | Some status =>
      match js_succeeded status, js_failed status with
      | None, None =>
          fetch_sub_running ;;;
          count_and_measure_completed job Deleted
      | _, _ => ret tt
      end
  | None => ret tt
  end.

(** The closure of [for_each] over the touched objects.  [store] is the
    reflector store at that moment; a stream error is [None]. *)
Definition on_job_event (store : ObjectRef -> option Job) (job : option Job)
    : io JobsQueue unit :=
  match job with
  | Some job =>
      name <-- unwrap (om_name (job_metadata job)) ;;
      ns <-- unwrap (om_namespace (job_metadata job)) ;;
      let key := (ns, name) in
      match store key ≫= job_status with
      | Some store_status => on_job_status key job store_status
      | None => on_job_gone key job
      end
  | None => ret tt
  end ;;;
  notify_queue.

(** ** Running the queue *)

(** [queue_jobs_rx.recv()]: the oldest item.  The sending half lives in the
    shared queue object, so [None] (all senders gone) cannot happen; an empty
    channel is never polled (theorem [no_lost_wakeup] of JobsSystem.v). *)
Definition recv : io JobsQueue (option JobsQueueItem) :=
  q <-- get ;;
  match queue_jobs q with
  | [] => ret None
  | item :: rest => put (with_queue_jobs rest q) ;;; ret (Some item)
  end.

(** One received item: [true] when a job was created. *)
Definition run_item (item : JobsQueueItem) : io JobsQueue bool :=
  ns <-- unwrap (om_namespace (job_metadata (item_job item))) ;;
  expired <-- is_expired item ;;
  if (expired : bool) then
    count_and_measure_completed (item_job item) Expired ;;;
    ret false
  else
    now <-- call SystemNow ;;
    match duration_since now (enqueued_at item) with
    | Err _ => panic
    | Ok waited =>
        measure_waiting_duration waited ;;;
        result <-- call (CreateJob ns (item_job item)) ;;
        match (result : Prelude.result KubeErr unit) with
        | Ok _ => ret true
        | Err _ =>
            count_and_measure_completed (item_job item) CreateError ;;;
            ret false
        end
    end.

(** The loop: [waiting_jobs] and [free_capacity] are the two counters. *)
Fixpoint run_queue_loop (waiting_jobs : nat) (free_capacity : Z) : io JobsQueue unit :=
  match waiting_jobs with
  | O => ret tt
  | S waiting_jobs =>
      if bool_decide (0 < free_capacity)%Z then
        job_item <-- recv ;;
        match job_item with
        | Some job_item =>
            created <-- run_item job_item ;;
            update_gauges (Z.of_nat waiting_jobs) ;;;
            run_queue_loop waiting_jobs
              (if (created : bool) then free_capacity - 1 else free_capacity)%Z
        | None => ret tt
        end
      else ret tt
  end.

Definition run_queue : io JobsQueue unit :=
  queue <-- get ;;
  let running := running_jobs queue in
  let waiting_jobs := length (queue_jobs queue) in
  config <-- call GetConfig ;;
  let max_running_jobs := max_running_jobs (rc_action config) in
  update_gauges (Z.of_nat waiting_jobs) ;;;
  if bool_decide (max_running_jobs < running)%Z then ret tt
  else run_queue_loop waiting_jobs (max_running_jobs - running).

(** ** Enqueueing *)

(** The job as it enters the queue: in the trigger's namespace, with the
    identity label of this controller. *)
Definition labelled_job (identity ns : string) (job : Job) : Job :=
  let labels := <[ACTION_JOB_IDENTITY_LABEL := identity]>
                  (unwrap_or ∅ (om_labels (job_metadata job))) in
  {| job_metadata := {|
       om_name := om_name (job_metadata job);
       om_namespace := Some ns;
       om_labels := Some labels;
       om_annotations := om_annotations (job_metadata job);
       om_owner_references := om_owner_references (job_metadata job) |};
     job_spec := job_spec job;
     job_status := job_status job |}.

(** [JobsQueue::enqueue]; the state is the contents of the [JOBS_QUEUE] cell.
    The item channel never closes (its receiver is in the queue object); the
    event channel does, when the queue task has ended. *)
Definition enqueue (job : Job) (ns : string) (expire : option Duration)
    : io (option JobsQueue) (result Error unit) :=
  cell <-- get ;;
  match cell with
  | Some queue =>
      let job := labelled_job (identity queue) ns job in
      now <-- call SystemNow ;;
      let item := {| item_job := job; enqueued_at := now; expire_after := expire |} in
      modify (fmap (fun q => with_queue_jobs (queue_jobs q ++ [item]) q)) ;;;
      cell <-- get ;;
      if from_option queue_event_alive false cell then
        modify (fmap (with_event_pending true)) ;;;
        ret (Ok tt)
      else ret (Err (JobsQueueError "channel closed"))
  | None => ret (Err (JobsQueueError "jobs queue isn't initialized"))
  end.
End Jobs.
