(* ===== verification/JobsFacts.v ===== *)
(** * The jobs queue: theorems about one operation

    What one watch event does to the running counter, what one [run_queue]
    does to the queue and to the cluster, and what [enqueue] adds. *)

From stdpp Require Import base option gmap strings list fin_maps.
From Stdlib Require Import ZArith Lia.
From S2P Require Import Prelude Strs Time Errors Config Ext Resources World Jobs.
Local Open Scope string_scope.
Local Open Scope list_scope.

Section JobsFacts.
Context `{Ext}.
Implicit Types (q : JobsQueue) (o : services) (t : trace).

(** ** The running counter *)

Definition unfinished (s : JobStatus) : Prop := js_succeeded s = None /\ js_failed s = None.

#[global] Instance unfinished_dec s : Decision (unfinished s).
Proof. apply _. Defined.

(** The abstract meaning of the counter: the jobs last seen unfinished. *)
Definition active (m : gmap ObjectRef JobStatus) : gmap ObjectRef JobStatus :=
  filter (fun kv => unfinished kv.2) m.

Definition counter_ok q : Prop :=
  running_jobs q = wrap_usize (Z.of_nat (size (active (statuses q)))).

Definition add_if (P : Prop) `{Decision P} (m : Z) : Z := if decide P then (m + 1)%Z else m.

(** Size of the active part after an update and after a removal. *)
Lemma active_insert m k s :
  Z.of_nat (size (active (<[k := s]> m)))
  = add_if (unfinished s) (Z.of_nat (size (active (delete k m)))).
Proof.
  unfold active, add_if. rewrite <- insert_delete_eq.
  assert (Hk : filter (fun kv => unfinished kv.2) (delete k m) !! k = None).
  { rewrite map_filter_delete. apply lookup_delete_eq. }
  destruct (decide (unfinished s)) as [Hs|Hs].
  - rewrite map_filter_insert_True, map_size_insert_None by done. lia.
  - rewrite map_filter_insert_False by done. by rewrite delete_delete_eq.
Qed.

Lemma active_delete m k s :
  m !! k = Some s ->
  Z.of_nat (size (active m)) = add_if (unfinished s) (Z.of_nat (size (active (delete k m)))).
Proof. intros Hk. by rewrite <- active_insert, insert_id. Qed.

Lemma wrap_pred z : wrap_usize (wrap_usize z - 1) = wrap_usize (z - 1).
Proof. unfold wrap_usize. apply Zminus_mod_idemp_l. Qed.

Lemma wrap_succ z : wrap_usize (wrap_usize z + 1) = wrap_usize (z + 1).
Proof. unfold wrap_usize. apply Zplus_mod_idemp_l. Qed.

(** Metrics do not touch the queue. *)
Lemma wp_completed_labels {S} job status o (s : S) t Q :
  (forall l, Q (Ret l) s t) -> Q Panic s t -> wp (completed_labels job status) o s t Q.
Proof.
  intros Hok Hpanic. unfold completed_labels.
  repeat (apply wp_bind, wp_unwrap; case_match; [|done]).
  by apply wp_ret.
Qed.

Lemma wp_count_and_measure {S} job status o (s : S) t Q :
  (forall r t', Q r s t') -> wp (count_and_measure_completed job status) o s t Q.
Proof.
  intros HQ. unfold count_and_measure_completed.
  apply wp_bind, wp_completed_labels; [|by auto]. intros l. wp_run; auto.
Qed.

Lemma wp_notify o q t (Q : outcome unit -> JobsQueue -> trace -> Prop) :
  (forall b, Q (Ret tt) (with_event_pending b q) t) -> Q (Ret tt) q t ->
  wp notify_queue o q t Q.
Proof. intros H1 H2. apply wp_modify. by destruct (queue_event_alive q). Qed.

(** The effect of a reported status on the counter and on the status map. *)
Definition status_delta (prev : option JobStatus) (s : JobStatus) : Z :=
  match prev with
  | None => 1
  | Some p => if bool_decide (s <> p) && negb (bool_decide (unfinished s)) then -1 else 0
  end.

Lemma wp_on_job_status key job s o q t Q :
  (forall t', Q (Ret tt)
     (with_running_jobs (wrap_usize (running_jobs q + status_delta (statuses q !! key) s))
        (with_statuses (<[key := s]> (statuses q)) q)) t') ->
  (running_jobs q = wrap_usize (running_jobs q)) ->
  (forall q' t', Q Panic q' t') ->
  wp (on_job_status key job s) o q t Q.
Proof.
  intros HQ Hwrap Hpanic. unfold on_job_status, unfinished, status_delta in *.
  wp_step. apply wp_get. wp_step.
  destruct (statuses q !! key) as [p|] eqn:Hp; [case_bool_decide as Hne|].
  - destruct (js_succeeded s) eqn:Hs, (js_failed s) eqn:Hf.
    1-3: apply wp_bind, wp_modify, wp_count_and_measure; intros [[]|] t'; [|done];
      wp_run; simpl; wp_run;
      rewrite bool_decide_eq_false_2 in HQ by (intros [? ?]; congruence); apply HQ.
    wp_run; simpl; wp_run.
    rewrite bool_decide_eq_true_2 in HQ by done. simpl in HQ.
    rewrite Z.add_0_r, <- Hwrap in HQ. destruct q; apply HQ.
  - wp_run. simpl. wp_run. simpl in HQ. rewrite Z.add_0_r, <- Hwrap in HQ. destruct q; apply HQ.
  - wp_run. simpl. wp_run. apply HQ.
Qed.

Definition gone_delta (prev : option JobStatus) : Z :=
  match prev with
  | Some p => if decide (unfinished p) then -1 else 0
  | None => 0
  end.

Lemma wp_on_job_gone key job o q t Q :
  (forall t', Q (Ret tt)
     (with_running_jobs (wrap_usize (running_jobs q + gone_delta (statuses q !! key)))
        (with_statuses (delete key (statuses q)) q)) t') ->
  (running_jobs q = wrap_usize (running_jobs q)) ->
  (forall q' t', Q Panic q' t') ->
  wp (on_job_gone key job) o q t Q.
Proof.
  intros HQ Hwrap Hpanic. unfold on_job_gone, gone_delta in *.
  assert (Hsame : (running_jobs q + 0)%Z = running_jobs q) by lia.
  apply wp_bind, wp_get, wp_bind, wp_put.
  destruct (statuses q !! key) as [p|] eqn:Hp; [destruct (decide (unfinished p)) as [Hu|Hu]|].
  - destruct Hu as [-> ->]. apply wp_bind, wp_modify, wp_count_and_measure.
    intros [[]|] t'; [apply HQ|done].
  - rewrite Hsame, <- Hwrap in HQ. unfold unfinished in Hu.
    destruct (js_succeeded p), (js_failed p); [..|by destruct Hu].
    all: apply wp_ret; destruct q; apply HQ.
  - rewrite Hsame, <- Hwrap in HQ. apply wp_ret. destruct q; apply HQ.
Qed.

(** What an event of the watch says about a key: its status, or nothing. *)
Definition observed (store : ObjectRef -> option Job) (job : option Job)
    : option (ObjectRef * option JobStatus) :=
  job ← job;
  name ← om_name (job_metadata job);
  ns ← om_namespace (job_metadata job);
  Some ((ns, name), store (ns, name) ≫= job_status).

Definition statuses_after (obs : option (ObjectRef * option JobStatus))
    (m : gmap ObjectRef JobStatus) : gmap ObjectRef JobStatus :=
  match obs with
  | Some (key, Some s) => <[key := s]> m
  | Some (key, None) => delete key m
  | None => m
  end.

(** The life of a job as the handler expects it: it is seen unfinished first,
    and its status no longer changes once it is finished. *)
Definition expected_observation (m : gmap ObjectRef JobStatus)
    (obs : option (ObjectRef * option JobStatus)) : Prop :=
  match obs with
  | Some (key, Some s) =>
      match m !! key with
      | None => unfinished s
      | Some p => unfinished p \/ s = p
      end
  | _ => True
  end.

Lemma status_delta_active m key s :
  expected_observation m (Some (key, Some s)) ->
  (Z.of_nat (size (active m)) + status_delta (m !! key) s)%Z
  = Z.of_nat (size (active (<[key := s]> m))).
Proof.
  unfold expected_observation, status_delta. rewrite active_insert. unfold add_if.
  destruct (m !! key) as [p|] eqn:Hk; intros Hexp.
  - rewrite (active_delete m key p) by done. unfold add_if.
    case_bool_decide as Hne; simpl; [|subst; lia].
    destruct Hexp as [Hp|]; [|done]. rewrite decide_True by done.
    case_bool_decide; case_decide; naive_solver lia.
  - rewrite decide_True by done. rewrite delete_id by done. lia.
Qed.

Lemma gone_delta_active m key :
  (Z.of_nat (size (active m)) + gone_delta (m !! key))%Z
  = Z.of_nat (size (active (delete key m))).
Proof.
  unfold gone_delta. destruct (m !! key) as [p|] eqn:Hk.
  - rewrite (active_delete m key p) by done. unfold add_if. case_decide; lia.
  - rewrite delete_id by done. lia.
Qed.

Lemma counter_ok_wrapped q : counter_ok q -> running_jobs q = wrap_usize (running_jobs q).
Proof.
  intros ->. unfold wrap_usize. by rewrite Z.mod_mod.
Qed.

Lemma counter_ok_step q d m :
  counter_ok q ->
  (Z.of_nat (size (active (statuses q))) + d)%Z = Z.of_nat (size (active m)) ->
  counter_ok (with_running_jobs (wrap_usize (running_jobs q + d)) (with_statuses m q)).
Proof.
  unfold counter_ok. simpl. intros -> <-. unfold wrap_usize. apply Zplus_mod_idemp_l.
Qed.

Lemma on_job_event_counter store job o q t :
  counter_ok q -> expected_observation (statuses q) (observed store job) ->
  wp (on_job_event store job) o q t (fun r q' _ => r = Ret tt ->
    counter_ok q' /\ statuses q' = statuses_after (observed store job) (statuses q)).
Proof.
  intros Hok Hexp. unfold on_job_event, observed in *. apply wp_bind.
  destruct job as [job|]; simpl in *; [|wp_step; by apply wp_notify].
  destruct (om_name (job_metadata job)) as [name|]; [|by wp_run].
  destruct (om_namespace (job_metadata job)) as [ns|]; [|by wp_run].
  simpl in *. wp_step. wp_step. wp_step. wp_step.
  pose proof (counter_ok_wrapped q Hok).
  destruct (store (ns, name) ≫= job_status) as [s|].
  - apply wp_on_job_status; [|done..]. intros t'.
    pose proof (counter_ok_step q _ _ Hok (status_delta_active _ _ _ Hexp)).
    by apply wp_notify.
  - apply wp_on_job_gone; [|done..]. intros t'.
    pose proof (counter_ok_step q _ _ Hok (gone_delta_active (statuses q) (ns, name))).
    by apply wp_notify.
Qed.

(** A stream of watch events in which every job lives as expected. *)
Fixpoint expected_stream (m : gmap ObjectRef JobStatus)
    (evs : list ((ObjectRef -> option Job) * option Job)) : Prop :=
  match evs with
  | [] => True
  | (store, job) :: evs =>
      expected_observation m (observed store job) /\
      expected_stream (statuses_after (observed store job) m) evs
  end.

(** The running counter is exact: if every job is first seen unfinished
    and keeps its final status, then after any stream of watch events that
    the handler survives, [running_jobs] is the number of jobs whose last
    reported status is neither succeeded nor failed. *)
Theorem running_jobs_exact evs o q t :
  counter_ok q -> expected_stream (statuses q) evs ->
  wp (for_each (fun ev => on_job_event ev.1 ev.2) evs) o q t
     (fun r q' _ => r = Ret tt ->
        running_jobs q' = wrap_usize (Z.of_nat (size (active (statuses q'))))).
Proof.
  revert q t. induction evs as [|[store job] evs IH]; intros q t Hok Hexp; simpl.
  - by apply wp_ret.
  - destruct Hexp as [Hexp Hrest]. apply wp_bind.
    eapply wp_mono; [by apply on_job_event_counter|].
    intros [[]|] q' t' Hq'; [|done]. destruct Hq' as [Hok' Hst]; [done|].
    apply IH; [done|by rewrite Hst].
Qed.

(** ** Running the queue *)

(** The job submissions of a trace, with the namespace and whether the API
    accepted them. *)
Definition create_of (e : event resp) : option (string * Job * bool) :=
  match e with
  | Ev c r =>
      match c as c return resp c -> option (string * Job * bool) with
      | CreateJob ns job => fun r => Some (ns, job, is_ok r)
      | _ => fun _ => None
      end r
  end.

Definition creates t : list (string * Job * bool) := omap create_of t.

(** What became of an item taken from the queue. *)
Inductive fate : Type := Accepted | Rejected | Dropped.

#[global] Instance fate_eq_dec : EqDecision fate.
Proof. solve_decision. Defined.

Definition item_ns (item : JobsQueueItem) : string :=
  unwrap_or "" (om_namespace (job_metadata (item_job item))).

Definition fate_create (x : JobsQueueItem * fate) : option (string * Job * bool) :=
  match x.2 with
  | Accepted => Some (item_ns x.1, item_job x.1, true)
  | Rejected => Some (item_ns x.1, item_job x.1, false)
  | Dropped => None
  end.

Definition accepted (fates : list fate) : nat := length (filter (.= Accepted) fates).

(** Metrics submit no job. *)
Definition no_create (e : event resp) : Prop := create_of e = None.

Lemma completed_labels_no_create {S} job status :
  calls_in no_create (completed_labels (S:=S) job status).
Proof. unfold completed_labels. calls_run. Qed.

Lemma count_and_measure_no_create {S} job status :
  calls_in no_create (count_and_measure_completed (S:=S) job status).
Proof.
  unfold count_and_measure_completed.
  calls_step; [apply completed_labels_no_create|]. calls_run; done.
Qed.

Lemma update_gauges_no_create n : calls_in no_create (update_gauges n).
Proof. unfold update_gauges. calls_run; done. Qed.

Lemma is_expired_no_create {S} item : calls_in no_create (is_expired (S:=S) item).
Proof. unfold is_expired. calls_run; done. Qed.

(** Programs that leave the state alone and submit no job. *)
Definition silent {A} (m : io JobsQueue A) : Prop :=
  forall o q t, wp m o q t (fun _ q' t' => q' = q /\ exists new, t' = t ++ new /\ creates new = []).

Lemma silent_intro {A} (m : io JobsQueue A) :
  calls_in no_create m -> (forall o q t, wp m o q t (fun _ q' _ => q' = q)) -> silent m.
Proof.
  intros Hc Hs o q t. eapply wp_mono; [apply wp_and; [apply Hs|apply Hc]|].
  intros r q' t' [-> (new & -> & Hnew)]. eauto using omap_Forall_None.
Qed.

Lemma count_and_measure_silent job status : silent (count_and_measure_completed job status).
Proof.
  apply silent_intro; [apply count_and_measure_no_create|].
  intros o q t. by apply wp_count_and_measure.
Qed.

Lemma update_gauges_silent n : silent (update_gauges n).
Proof.
  apply silent_intro; [apply update_gauges_no_create|].
  intros o q t. unfold update_gauges. by wp_run; repeat (case_match; wp_run).
Qed.

Lemma is_expired_silent item : silent (is_expired item).
Proof.
  apply silent_intro; [apply is_expired_no_create|].
  intros o q t. unfold is_expired. wp_run. by case_match; wp_run.
Qed.

Lemma wp_silent {A} (m : io JobsQueue A) o q t Q :
  silent m -> (forall r new, creates new = [] -> Q r q (t ++ new)) -> wp m o q t Q.
Proof.
  intros Hm HQ. eapply wp_mono; [apply Hm|]. intros r q' t' [-> (new & -> & ?)]. eauto.
Qed.

Lemma creates_app l k : creates (l ++ k) = creates l ++ creates k.
Proof. apply omap_app_eq. Qed.

(** One item: at most one submission, and what it means. *)
Lemma wp_run_item item o q t Q :
  (forall new f b, creates new = option_list (fate_create (item, f)) ->
     b = bool_decide (f = Accepted) -> Q (Ret b) q (t ++ new)) ->
  (forall new f, creates new = option_list (fate_create (item, f)) -> f <> Accepted ->
     Q Panic q (t ++ new)) ->
  wp (run_item item) o q t Q.
Proof.
  intros Hret Hpanic. unfold run_item.
  apply wp_bind, wp_unwrap.
  destruct (om_namespace (job_metadata (item_job item))) as [ns|] eqn:Hns; cycle 1.
  { specialize (Hpanic [] Dropped). rewrite app_nil_r in Hpanic. by apply Hpanic. }
  apply wp_bind, wp_silent; [apply is_expired_silent|].
  intros [[|]|] new1 Hnew1; [| |by apply (Hpanic _ Dropped)].
  - apply wp_bind, wp_silent; [apply count_and_measure_silent|].
    intros r new2 Hnew2. rewrite <- app_assoc.
    destruct r as [[]|]; [apply wp_ret, (Hret _ Dropped)|apply (Hpanic _ Dropped)];
      rewrite ?creates_app, ?Hnew1, ?Hnew2; done.
  - wp_step. wp_step. destruct (duration_since r (enqueued_at item)) as [waited|].
    2: { wp_step. rewrite <- app_assoc.
         apply (Hpanic _ Dropped); rewrite ?creates_app, ?Hnew1; done. }
    apply wp_bind. unfold measure_waiting_duration. wp_step. wp_step. wp_step.
    assert (Hitem : item_ns item = ns) by (unfold item_ns; by rewrite Hns).
    destruct r1 as [[]|err].
    + apply wp_ret. rewrite <- !app_assoc.
      apply (Hret _ Accepted); [|done]. rewrite !creates_app, Hnew1.
      by unfold fate_create; simpl; rewrite Hitem.
    + apply wp_bind, wp_silent; [apply count_and_measure_silent|].
      intros r' new2 Hnew2. rewrite <- !app_assoc.
      destruct r' as [[]|]; [apply wp_ret, (Hret _ Rejected)|apply (Hpanic _ Rejected)];
        rewrite ?creates_app, ?Hnew1, ?Hnew2; unfold fate_create; simpl; by rewrite ?Hitem.
Qed.

(** What a run of the loop with [w] waiting jobs and [f] free places does. *)
Definition loop_result (w : nat) (f : Z) q t
    (r : outcome unit) q' (t' : trace) : Prop :=
  exists new taken fates,
    t' = t ++ new
    /\ q' = with_queue_jobs (queue_jobs q') q
    /\ queue_jobs q = taken ++ queue_jobs q'
    /\ length fates = length taken
    /\ creates new = omap fate_create (zip taken fates)
    /\ (Z.of_nat (accepted fates) <= f)%Z
    /\ (r = Ret tt -> length taken = w \/ Z.of_nat (accepted fates) = f).

Lemma accepted_cons f fates :
  accepted (f :: fates) = (if decide (f = Accepted) then 1 else 0) + accepted fates.
Proof. unfold accepted. rewrite filter_cons. by case_decide. Qed.

Lemma loop_result_cons item rest f0 w f q t new r q' t' :
  queue_jobs q = item :: rest ->
  creates new = option_list (fate_create (item, f0)) ->
  loop_result w (if decide (f0 = Accepted) then f - 1 else f)%Z
    (with_queue_jobs rest q) (t ++ new) r q' t' ->
  loop_result (S w) f q t r q' t'.
Proof.
  intros Hq Hnew (new' & taken & fates & -> & Hq' & Htaken & Hlen & Hcr & Hacc & Hret).
  exists (new ++ new'), (item :: taken), (f0 :: fates).
  rewrite creates_app, Hnew, Hcr, app_assoc, accepted_cons.
  simpl in Htaken. subst rest.
  split; [done|]. split; [by rewrite Hq'|]. split; [done|].
  split; [simpl; by f_equal|]. split.
  { simpl zip. rewrite omap_cons_eq. by destruct (fate_create (item, f0)). }
  split; [destruct (decide (f0 = Accepted)); lia|].
  intros Hr. destruct (Hret Hr) as [<-|He]; [by left|right].
  destruct (decide (f0 = Accepted)); lia.
Qed.

Lemma loop_result_stop w f q t r :
  (0 <= f)%Z -> (r = Ret tt -> w = 0%nat \/ f = 0%Z) -> loop_result w f q t r q t.
Proof.
  intros Hf Hr. exists [], [], []. rewrite app_nil_r.
  repeat split; [by destruct q|done|]. intros ->. destruct (Hr eq_refl); auto.
Qed.

Lemma wp_run_queue_loop w f o q t :
  (0 <= f)%Z -> w <= length (queue_jobs q) ->
  wp (run_queue_loop w f) o q t (loop_result w f q t).
Proof.
  revert f q t. induction w as [|w IH]; intros f q t Hf Hw; simpl run_queue_loop.
  { apply wp_ret, loop_result_stop; auto. }
  case_bool_decide as Hpos; [|apply wp_ret, loop_result_stop; [done|right; lia]].
  destruct (queue_jobs q) as [|item rest] eqn:Hq; simpl in Hw; [lia|].
  unfold recv. apply wp_bind, wp_bind, wp_get. rewrite Hq. wp_step. wp_step. wp_step.
  apply wp_bind, wp_run_item.
  - intros new f0 b Hnew ->. apply wp_bind, wp_silent; [apply update_gauges_silent|].
    intros r new2 Hnew2.
    assert (Hcr : creates (new ++ new2) = option_list (fate_create (item, f0))).
    { rewrite creates_app, Hnew, Hnew2. apply app_nil_r. }
    rewrite <- app_assoc. destruct r as [[]|].
    + eapply wp_mono; [apply IH|].
      * case_bool_decide; lia.
      * simpl. lia.
      * intros r q' t' HL. eapply loop_result_cons; [done|done|].
        by case_bool_decide; case_decide.
    + eapply loop_result_cons; [done|done|]. apply loop_result_stop; [|done].
      case_decide; lia.
  - intros new f0 Hnew Hne. eapply loop_result_cons; [done|done|].
    rewrite decide_False by done. by apply loop_result_stop; [lia|].
Qed.

(** C28. [run_queue] against its specification: it takes a prefix of the
    queue, in order; every taken job is submitted at most once, in its own
    namespace, in queue order; the accepted ones never exceed the free
    capacity read at the start (none when the limit is exceeded); nothing
    else of the queue object changes; and when it returns below the limit it
    stopped because the queue is empty or the capacity is used up. *)
Theorem run_queue_spec o q t :
  wp run_queue o q t (fun r q' t' =>
    exists config new taken fates,
      t' = t ++ Ev GetConfig config :: new
      /\ q' = with_queue_jobs (queue_jobs q') q
      /\ queue_jobs q = taken ++ queue_jobs q'
      /\ length fates = length taken
      /\ creates new = omap fate_create (zip taken fates)
      /\ (Z.of_nat (accepted fates)
            <= Z.max 0 (max_running_jobs (rc_action config) - running_jobs q))%Z
      /\ (r = Ret tt -> (running_jobs q <= max_running_jobs (rc_action config))%Z ->
          queue_jobs q' = []
          \/ Z.of_nat (accepted fates)
             = (max_running_jobs (rc_action config) - running_jobs q)%Z)).
Proof.
  unfold run_queue. wp_step. wp_step. wp_step. wp_step.
  rename r into config.
  assert (Hstop : forall r new, creates new = [] ->
    (r = Panic \/ (max_running_jobs (rc_action config) < running_jobs q)%Z) ->
    exists config' new' taken fates, (t ++ [Ev GetConfig config]) ++ new
      = t ++ Ev GetConfig config' :: new'
      /\ q = with_queue_jobs (queue_jobs q) q /\ queue_jobs q = taken ++ queue_jobs q
      /\ length fates = length taken /\ creates new' = omap fate_create (zip taken fates)
      /\ (Z.of_nat (accepted fates)
            <= Z.max 0 (max_running_jobs (rc_action config') - running_jobs q))%Z
      /\ (r = Ret tt -> (running_jobs q <= max_running_jobs (rc_action config'))%Z ->
          queue_jobs q = [] \/ Z.of_nat (accepted fates)
             = (max_running_jobs (rc_action config') - running_jobs q)%Z)).
  { intros r new Hnew Hr. exists config, new, [], []. rewrite <- app_assoc.
    split; [done|]. split; [by destruct q|]. repeat split; [done|cbn; lia|].
    intros -> ?. destruct Hr; [done|lia]. }
  apply wp_bind, wp_silent; [apply update_gauges_silent|].
  intros [[]|] new1 Hnew1; [|by eauto].
  case_bool_decide as Hlim; [apply wp_ret; eauto|].
  eapply wp_mono; [apply wp_run_queue_loop; lia|].
  intros r q' t' (new & taken & fates & -> & Hq' & Htaken & Hlen & Hcr & Hacc & Hret).
  exists config, (new1 ++ new), taken, fates. rewrite <- !app_assoc.
  repeat split; [done..|by rewrite creates_app, Hnew1|lia|].
  intros Hr _. destruct (Hret Hr) as [Hw|]; [left|by right].
  rewrite Htaken, length_app in Hw. apply length_zero_iff_nil. lia.
Qed.

(** Expiration decides submission: an item is submitted exactly when the
    clock, read after the configuration, has not passed the time it was
    enqueued plus its own timeout (or the configured default).  An expired
    job is never submitted. *)
Theorem run_item_expiry item o q t :
  wp (run_item item) o q t (fun r _ t' =>
    r = Panic \/ exists config now rest ns,
      t' = t ++ Ev GetConfig config :: Ev SystemNow now :: rest
      /\ om_namespace (job_metadata (item_job item)) = Some ns
      /\ let deadline := (enqueued_at item + unwrap_or
             (from_secs (job_waiting_timeout_seconds (rc_action config)))
             (expire_after item))%Z in
         if bool_decide (now <= deadline)%Z
         then exists accepted, creates rest = [(ns, item_job item, accepted)] /\ r = Ret accepted
         else creates rest = [] /\ r = Ret false).
Proof.
  unfold run_item. wp_step. wp_step.
  destruct (om_namespace (job_metadata (item_job item))) as [ns|] eqn:Hns; [|by left].
  unfold is_expired at 1. repeat wp_step.
  case_match eqn:Hadd; [|by left]. apply checked_add_Some in Hadd as ->. wp_step.
  case_bool_decide as Hlate.
  - apply wp_bind, wp_silent; [apply count_and_measure_silent|].
    intros [[]|] new Hnew; [|by left]. apply wp_ret. right.
    exists r, r0, new, ns. rewrite <- !app_assoc. split; [done|]. split; [done|].
    by rewrite bool_decide_eq_false_2 by lia.
  - wp_step. wp_step. destruct (duration_since r1 _); [|by left].
    apply wp_bind. unfold measure_waiting_duration. wp_step. wp_step. wp_step.
    destruct r3 as [[]|err].
    + apply wp_ret. right. eexists r, r0, _, ns. rewrite <- !app_assoc.
      split; [done|]. split; [done|]. rewrite bool_decide_eq_true_2 by lia. by exists true.
    + apply wp_bind, wp_silent; [apply count_and_measure_silent|].
      intros [[]|] new Hnew; [|by left]. apply wp_ret. right.
      eexists r, r0, _, ns. rewrite <- !app_assoc. split; [done|]. split; [done|].
      rewrite bool_decide_eq_true_2 by lia. exists false.
      split; [|done]. simpl. unfold creates in *. by rewrite Hnew.
Qed.

(** ** Totality: when a run of the queue cannot panic *)

(** The labels the metrics read. *)
Definition measured_labels : list string :=
  [ACTION_JOB_ACTION_KIND_LABEL; ACTION_JOB_ACTION_NAME_LABEL;
   ACTION_JOB_SOURCE_KIND_LABEL; ACTION_JOB_SOURCE_NAME_LABEL;
   ACTION_JOB_TRIGGER_KIND_LABEL; ACTION_JOB_TRIGGER_NAME_LABEL].

Definition measurable (job : Job) : Prop :=
  is_Some (om_namespace (job_metadata job)) /\
  exists labels, om_labels (job_metadata job) = Some labels
    /\ Forall (fun k => is_Some (labels !! k)) measured_labels.

(** From the history [t] on, the clock never reads earlier than the item's
    enqueueing, and every deadline the configuration can give it is
    representable. *)
Definition item_timely o t (item : JobsQueueItem) : Prop :=
  forall new, (enqueued_at item <= o (t ++ new) SystemNow)%Z
    /\ is_Some (checked_add (enqueued_at item)
         (unwrap_or (from_secs (job_waiting_timeout_seconds (rc_action (o (t ++ new) GetConfig))))
            (expire_after item))).

Lemma item_timely_later o t new item : item_timely o t item -> item_timely o (t ++ new) item.
Proof. intros Hitem new'. rewrite <- app_assoc. apply Hitem. Qed.

Definition limits_fit o : Prop :=
  forall t, (max_running_jobs (rc_action (o t GetConfig)) <= i64_max)%Z.

(** [completes m]: no panic and the queue object is left alone. *)
Definition completes {A} (m : io JobsQueue A) o : Prop :=
  forall q t, wp m o q t (fun r q' _ => r <> Panic /\ q' = q).

Lemma completed_labels_completes job status o : measurable job ->
  completes (completed_labels job status) o.
Proof.
  intros [[ns Hns] (labels & Hl & Hall)] q t. unfold completed_labels.
  unfold measured_labels in Hall. repeat setoid_rewrite Forall_cons in Hall.
  destruct Hall as ([? H1] & [? H2] & [? H3] & [? H4] & [? H5] & [? H6] & _).
  wp_step. wp_step. rewrite Hns. wp_step. wp_step. rewrite Hl.
  do 6 (wp_step; wp_step; first [rewrite H1|rewrite H2|rewrite H3|rewrite H4|rewrite H5|rewrite H6]).
  by wp_run.
Qed.

Lemma count_and_measure_completes job status o : measurable job ->
  completes (count_and_measure_completed job status) o.
Proof.
  intros Hjob q t. unfold count_and_measure_completed. wp_step.
  eapply wp_mono; [by apply completed_labels_completes|].
  intros [labels|] q' t' [? ->]; [|done]. by wp_run.
Qed.

Lemma update_gauges_completes n o q t : limits_fit o -> (n <= i64_max)%Z ->
  (running_jobs q <= i64_max)%Z ->
  wp (update_gauges n) o q t (fun r q' _ => r <> Panic /\ q' = q).
Proof.
  intros Hlim Hn Hq. unfold update_gauges, usize_to_i64.
  wp_step. wp_step. wp_step. wp_step. rewrite bool_decide_eq_true_2 by done.
  wp_step. wp_step. wp_step. wp_step. wp_step. wp_step.
  rewrite bool_decide_eq_true_2 by (subst; apply Hlim).
  wp_step. wp_step. wp_step. wp_step. rewrite bool_decide_eq_true_2 by done. by wp_run.
Qed.

Lemma run_item_completes item o q t : measurable (item_job item) -> item_timely o t item ->
  wp (run_item item) o q t (fun r q' _ => r <> Panic /\ q' = q).
Proof.
  intros Hjob Htime. pose proof Hjob as [[ns Hns] _].
  unfold run_item, is_expired. wp_step. wp_step. rewrite Hns. repeat wp_step.
  subst. destruct (Htime []) as [_ [d Hd]]. rewrite app_nil_r in Hd. rewrite Hd. wp_step. wp_step.
  - wp_step. eapply wp_mono; [by apply count_and_measure_completes|].
    intros [[]|] q' t' [? ->]; [|done]. by wp_run.
  - wp_step. wp_step. unfold duration_since. rewrite bool_decide_eq_true_2
      by (subst; rewrite <- app_assoc; apply Htime).
    apply wp_bind. unfold measure_waiting_duration. wp_step. wp_step. wp_step.
    lazymatch goal with |- wp (match ?r with _ => _ end) _ _ _ _ => destruct r as [[]|] end;
      [by wp_run|].
    wp_step. eapply wp_mono; [by apply count_and_measure_completes|].
    intros [[]|] q' t' [? ->]; [|done]. by wp_run.
Qed.

(** An item the queue can run and measure, from the history [t] on. *)
Definition item_ready o t (item : JobsQueueItem) : Prop :=
  measurable (item_job item) /\ item_timely o t item.

Lemma items_ready_later o t new items :
  Forall (item_ready o t) items -> Forall (item_ready o (t ++ new)) items.
Proof.
  intros Hall. eapply Forall_impl; [exact Hall|].
  intros item [? ?]. split; [done|by apply item_timely_later].
Qed.

Lemma run_item_extends item : calls_in (fun _ => True) (run_item item).
Proof.
  unfold run_item, is_expired, count_and_measure_completed, completed_labels,
    measure_waiting_duration.
  repeat (first [done | calls_step | case_match]).
Qed.

Lemma update_gauges_extends n : calls_in (fun _ => True) (update_gauges n).
Proof. unfold update_gauges. by calls_run. Qed.

Lemma run_queue_loop_total w f o q t :
  limits_fit o -> (Z.of_nat w <= i64_max)%Z -> (running_jobs q <= i64_max)%Z ->
  Forall (item_ready o t) (queue_jobs q) ->
  wp (run_queue_loop w f) o q t (fun r _ _ => r = Ret tt).
Proof.
  intros Hlim. revert f q t. induction w as [|w IH]; intros f q t Hw Hq Hall.
  { by apply wp_ret. }
  simpl run_queue_loop. case_bool_decide; [|by apply wp_ret].
  unfold recv. apply wp_bind, wp_bind, wp_get.
  destruct (queue_jobs q) as [|item rest]; [by wp_run|].
  inversion_clear Hall as [|? ? [Hjob Htime] Hall']. wp_step. wp_step. wp_step.
  wp_step. eapply wp_mono; [apply wp_and; [by apply run_item_completes|apply run_item_extends]|].
  intros [b|] q' t' [[? ->] (new & -> & _)]; [|done]. wp_step.
  eapply wp_mono; [apply wp_and; [apply update_gauges_completes; [done|lia|done]|
    apply update_gauges_extends]|].
  intros [[]|] q' t'' [[? ->] (new' & -> & _)]; [|done]. apply IH; [lia|done|].
  by do 2 apply items_ready_later.
Qed.

(** C29. [run_queue] always finishes: with measurable jobs (see
    [execute_measurable]), a clock that does not go behind the enqueueing
    times, representable deadlines and counters within [i64], it returns for
    every queue and every answer of the API. *)
Theorem run_queue_total o q t :
  limits_fit o -> (running_jobs q <= i64_max)%Z ->
  (Z.of_nat (length (queue_jobs q)) <= i64_max)%Z ->
  Forall (item_ready o t) (queue_jobs q) ->
  wp run_queue o q t (fun r _ _ => r = Ret tt).
Proof.
  intros Hlim Hq Hlen Hall. unfold run_queue. wp_step. wp_step. wp_step. wp_step. wp_step.
  eapply wp_mono; [apply wp_and; [by apply update_gauges_completes|apply update_gauges_extends]|].
  intros [[]|] q' t' [[? ->] (new & -> & _)]; [|done].
  case_bool_decide; [by wp_step|]. apply run_queue_loop_total; [done..|].
  by do 2 apply items_ready_later.
Qed.

(** The watch handler finishes when the touched object is one of our jobs. *)
Definition our_job (job : option Job) : Prop :=
  match job with
  | Some job => is_Some (om_name (job_metadata job)) /\ measurable job
  | None => True
  end.

Lemma on_job_status_completes key job s o q t : measurable job ->
  wp (on_job_status key job s) o q t (fun r _ _ => r <> Panic).
Proof.
  intros Hjob. unfold on_job_status. wp_step. wp_step. wp_step.
  apply (wp_mono _ _ _ _ (fun r _ _ => r <> Panic)).
  - destruct (statuses q !! key) as [p|]; [|by wp_step].
    case_bool_decide; [|by wp_step].
    destruct (js_succeeded s), (js_failed s); first [by wp_step|idtac];
      apply wp_bind, wp_modify;
      (eapply wp_mono; [by apply count_and_measure_completes|]; by intros r q' t' [? _]).
  - intros [[]|] q1 t1 Hr; [|done]. do 4 wp_step.
    destruct (statuses q1 !! key); [by wp_step|by apply wp_modify].
Qed.

Lemma on_job_gone_completes key job o q t : measurable job ->
  wp (on_job_gone key job) o q t (fun r _ _ => r <> Panic).
Proof.
  intros Hjob. unfold on_job_gone. do 4 wp_step.
  destruct (statuses q !! key) as [p|]; [|by wp_step].
  destruct (js_succeeded p), (js_failed p); first [by wp_step|idtac].
  apply wp_bind, wp_modify. eapply wp_mono; [by apply count_and_measure_completes|].
  by intros r q' t' [? _].
Qed.

Lemma on_job_event_completes store job o q t : our_job job ->
  wp (on_job_event store job) o q t (fun r _ _ => r <> Panic).
Proof.
  intros Hjob. unfold on_job_event. apply wp_bind.
  apply (wp_mono _ _ _ _ (fun r _ _ => r <> Panic)).
  - destruct job as [job|]; [|by wp_step]. destruct Hjob as [[name Hname] Hm].
    pose proof Hm as [[ns Hns] _].
    wp_step. wp_step. rewrite Hname. wp_step. wp_step. rewrite Hns. cbv zeta.
    case_match; [by apply on_job_status_completes|by apply on_job_gone_completes].
  - intros [[]|] q1 t1 Hr; [|done]. by apply wp_modify.
Qed.

(** ** Findings *)

Definition finished (s : JobStatus) : Prop := is_Some (js_succeeded s) \/ is_Some (js_failed s).

Lemma finished_not_unfinished s : finished s -> ~ unfinished s.
Proof. intros [[? Hs]|[? Hs]] [? ?]; congruence. Qed.

(** A changed finished status of a known job: one less, without a panic. *)
Lemma on_job_status_finished key job p s o q t :
  measurable job -> statuses q !! key = Some p -> s <> p -> finished s ->
  wp (on_job_status key job s) o q t (fun r q' _ => r = Ret tt
    /\ (running_jobs q' = wrap_usize (running_jobs q - 1))%Z
    /\ statuses q' = <[key := s]> (statuses q)).
Proof.
  intros Hjob Hp Hne Hfin. unfold on_job_status. apply wp_bind, wp_get, wp_bind.
  rewrite Hp, bool_decide_eq_true_2 by done.
  destruct (js_succeeded s) eqn:Hs, (js_failed s) eqn:Hf;
    [..|by destruct Hfin as [[? ?]|[? ?]]; congruence].
  all: apply wp_bind, wp_modify;
    eapply wp_mono; [by apply count_and_measure_completes|];
    intros [[]|] q' t' [? ->]; [|done]; do 4 wp_step; simpl; rewrite Hp; by wp_step.
Qed.

(** C40. A job that finishes is counted once only if its status never changes
    again: when it is the one job that runs and the watch, having seen it
    unfinished, reports two different finished statuses of it (the API server
    adds conditions and times after the counts), the counter is decremented
    twice, goes below zero and wraps around to the largest [usize]; and from
    then on, until another job's report changes the counter again, every
    [run_queue] panics in the conversion of the gauge, whatever else happens to
    the queue. *)
Theorem finished_twice_stops_queue key job p s1 s2 o q t :
  measurable job ->
  statuses q !! key = Some p -> unfinished p -> finished s1 -> finished s2 -> s2 <> s1 ->
  running_jobs q = 1%Z ->
  wp (on_job_status key job s1 ;;; on_job_status key job s2)%prog o q t (fun r q' _ =>
    r = Ret tt /\ (running_jobs q' = usize_max)%Z /\
    forall o' q'' t', running_jobs q'' = running_jobs q' ->
      wp run_queue o' q'' t' (fun r _ _ => r = Panic)).
Proof.
  intros Hjob Hp Hu Hf1 Hf2 Hne Hrun.
  assert (s1 <> p) by (intros ->; by apply (finished_not_unfinished p)).
  apply wp_bind. eapply wp_mono; [by eapply on_job_status_finished|].
  intros r q1 t1 (-> & Hr1 & Hs1). rewrite Hrun in Hr1.
  eapply wp_mono; [eapply (on_job_status_finished _ _ s1); [done| |done..]|].
  { rewrite Hs1. apply lookup_insert_eq. }
  intros r q2 t2 (-> & Hr2 & _). rewrite Hr1 in Hr2.
  split; [done|]. split; [done|]. intros o' q'' t' Hq''.
  unfold run_queue, update_gauges, usize_to_i64. wp_step. wp_step. wp_step. wp_step.
  wp_step. wp_step. wp_step. wp_step. wp_step. by rewrite Hq'', Hr2.
Qed.

(** A job whose first reported status is already final (the watch was
    interrupted while it ran, and lists it again when it is re-established)
    occupies a place of the limit for ever: the counter is incremented, and
    neither the job's removal nor a repeated report of the same status gives
    the place back. *)
Theorem first_seen_finished_leaks key job s o q t :
  statuses q !! key = None -> finished s -> (0 <= running_jobs q < usize_max)%Z ->
  wp (on_job_status key job s ;;; on_job_status key job s ;;; on_job_gone key job)%prog o q t
    (fun r q' _ => r = Ret tt
      /\ statuses q' = statuses q /\ running_jobs q' = (running_jobs q + 1)%Z).
Proof.
  intros Hnone Hfin Hrange.
  assert (Hw : (running_jobs q + 1)%Z = wrap_usize (running_jobs q + 1)).
  { rewrite wrap_usize_small; [done|unfold usize_max, u64_max in *; lia]. }
  apply wp_bind. unfold on_job_status at 1. wp_run. unfold fetch_add_running. wp_step.
  apply wp_bind. unfold on_job_status. wp_step. wp_step. wp_step. simpl.
  rewrite lookup_insert_eq, bool_decide_eq_false_2 by (intros Hs; by apply Hs).
  wp_step. do 4 wp_step. simpl. rewrite lookup_insert_eq. wp_step.
  unfold on_job_gone. do 4 wp_step. simpl. rewrite lookup_insert_eq.
  destruct (js_succeeded s) eqn:Hs, (js_failed s) eqn:Hf;
    [..|by destruct Hfin as [[? ?]|[? ?]]; congruence].
  all: wp_step; simpl; split; [done|]; split; [|by rewrite <- Hw];
    by rewrite insert_insert_eq, delete_insert_id.
Qed.

(** The step rule of [enqueue]. *)
Definition enqueued (q : JobsQueue) (item : JobsQueueItem) : JobsQueue :=
  let q' := with_queue_jobs (queue_jobs q ++ [item]) q in
  if queue_event_alive q then with_event_pending true q' else q'.

Lemma wp_enqueue job ns expire o cell t Q :
  (cell = None -> Q (Ret (Err (JobsQueueError "jobs queue isn't initialized"))) None t) ->
  (forall q now, cell = Some q ->
     Q (Ret (if queue_event_alive q then Ok tt else Err (JobsQueueError "channel closed")))
       (Some (enqueued q {| item_job := labelled_job (identity q) ns job;
                            enqueued_at := now; expire_after := expire |}))
       (t ++ [Ev SystemNow now])) ->
  wp (enqueue job ns expire) o cell t Q.
Proof.
  intros Qnone Qsome. unfold enqueue. wp_step. wp_step.
  destruct cell as [q|]; [|wp_step; by apply Qnone].
  do 6 wp_step. simpl. specialize (Qsome q r eq_refl). unfold enqueued in Qsome.
  destruct (queue_event_alive q); [do 2 wp_step; simpl|]; wp_step; apply Qsome.
Qed.

Lemma labelled_job_labels id ns job k :
  exists labels, om_labels (job_metadata (labelled_job id ns job)) = Some labels
    /\ labels !! k = if decide (k = ACTION_JOB_IDENTITY_LABEL) then Some id
                     else om_labels (job_metadata job) ≫= (.!! k).
Proof.
  eexists. split; [done|]. case_decide as Hk; [subst; apply lookup_insert_eq|].
  rewrite lookup_insert_ne by done.
  destruct (om_labels (job_metadata job)); simpl; [done|apply lookup_empty].
Qed.

(** Enqueueing: the job goes to the tail of the queue, in the trigger's
    namespace and with this controller's identity whatever its own metadata
    said; its other labels, annotations, owners and spec are untouched; the
    queue task is notified.  It fails exactly when the queue was never
    initialised, or its task has ended - and then the job stays queued. *)
Theorem enqueue_spec job ns expire o cell t :
  wp (enqueue job ns expire) o cell t (fun r cell' t' =>
    match cell with
    | None => r = Ret (Err (JobsQueueError "jobs queue isn't initialized")) /\ cell' = None /\ t' = t
    | Some q => exists q' item,
        cell' = Some q' /\ t' = t ++ [Ev SystemNow (enqueued_at item)]
        /\ queue_jobs q' = queue_jobs q ++ [item] /\ expire_after item = expire
        /\ running_jobs q' = running_jobs q /\ statuses q' = statuses q
        /\ identity q' = identity q /\ queue_event_alive q' = queue_event_alive q
        /\ om_namespace (job_metadata (item_job item)) = Some ns
        /\ (exists labels, om_labels (job_metadata (item_job item)) = Some labels
             /\ labels !! ACTION_JOB_IDENTITY_LABEL = Some (identity q)
             /\ forall k, k <> ACTION_JOB_IDENTITY_LABEL ->
                  labels !! k = om_labels (job_metadata job) ≫= (.!! k))
        /\ om_name (job_metadata (item_job item)) = om_name (job_metadata job)
        /\ om_annotations (job_metadata (item_job item)) = om_annotations (job_metadata job)
        /\ om_owner_references (job_metadata (item_job item))
             = om_owner_references (job_metadata job)
        /\ job_spec (item_job item) = job_spec job
        /\ (if queue_event_alive q
            then r = Ret (Ok tt) /\ queue_event_pending q' = true
            else r = Ret (Err (JobsQueueError "channel closed"))
                 /\ queue_event_pending q' = queue_event_pending q)
    end).
Proof.
  apply wp_enqueue; [by intros ->|]. intros q now ->. unfold enqueued.
  eexists _, {| item_job := labelled_job (identity q) ns job;
    enqueued_at := now; expire_after := expire |}.
  split; [reflexivity|]. destruct (queue_event_alive q) eqn:Halive; simpl; rewrite ?Halive.
  all: do 8 (split; [done|]); split; [|done].
  all: eexists; split; [done|]; split; [apply lookup_insert_eq|].
  all: intros k Hk; destruct (labelled_job_labels (identity q) ns job k) as (l & Hl & Hlk);
    injection Hl as <-; by rewrite decide_False in Hlk.
Qed.
End JobsFacts.

(** ** Examples *)

Definition example_labels : gmap string string :=
  <[ACTION_JOB_ACTION_KIND_LABEL := "Action"]> (<[ACTION_JOB_ACTION_NAME_LABEL := "build"]>
  (<[ACTION_JOB_SOURCE_KIND_LABEL := "GitRepo"]> (<[ACTION_JOB_SOURCE_NAME_LABEL := "app"]>
  (<[ACTION_JOB_TRIGGER_KIND_LABEL := "ScheduleTrigger"]>
  (<[ACTION_JOB_TRIGGER_NAME_LABEL := "hourly"]> ∅))))).

#[local] Existing Instance example_ext.

Definition example_job : Job := {|
  job_metadata := {| om_name := Some "build-1"; om_namespace := Some "ci";
    om_labels := Some example_labels; om_annotations := None; om_owner_references := None |};
  job_spec := None; job_status := None |}.

Definition example_status (succeeded : option Z) (other : string) : JobStatus := {|
  js_succeeded := succeeded; js_failed := None; js_start_time := None; js_other := other |}.

Definition example_queue (items : list JobsQueueItem) (running : Z)
    (st : gmap ObjectRef JobStatus) : JobsQueue := {|
  identity := "me"; queue_jobs := items; running_jobs := running; statuses := st;
  queue_event_alive := true; queue_event_pending := false |}.

Definition example_store (s : JobStatus) : ObjectRef -> option Job := fun key =>
  if decide (key = ("ci", "build-1"))
  then Some {| job_metadata := job_metadata example_job; job_spec := None;
               job_status := Some s |}
  else None.

Lemma example_job_measurable : measurable example_job.
Proof.
  split; [by eexists|]. exists example_labels. split; [done|].
  repeat (constructor; [by vm_compute; eexists|]). constructor.
Defined.

Lemma running_jobs_exact_witness :
  let evs := [(example_store (example_status None "a"), Some example_job);
              (example_store (example_status (Some 1%Z) "b"), Some example_job);
              ((fun _ => None), Some example_job)] in
  wp (for_each (fun ev => on_job_event ev.1 ev.2) evs) (quiet_services 0%Z RuntimeConfig_default)
     (example_queue [] 0%Z ∅) []
     (fun r q' _ => r = Ret tt ->
        running_jobs q' = wrap_usize (Z.of_nat (size (active (statuses q'))))).
Proof.
  intros evs. apply running_jobs_exact; [done|]. vm_compute. tauto.
Defined.

Definition example_item : JobsQueueItem :=
  {| item_job := example_job; enqueued_at := 5%Z; expire_after := None |}.

Lemma run_queue_total_witness :
  wp run_queue (quiet_services 10%Z RuntimeConfig_default) (example_queue [example_item] 0%Z ∅) []
    (fun r _ _ => r = Ret tt).
Proof.
  apply run_queue_total; [done|done|done|].
  constructor; [|constructor]. split; [apply example_job_measurable|].
  split; [done|by eexists].
Defined.

Lemma finished_twice_witness :
  wp (on_job_status ("ci", "build-1") example_job (example_status (Some 1%Z) "succeeded") ;;;
      on_job_status ("ci", "build-1") example_job (example_status (Some 1%Z) "and complete"))%prog
    (quiet_services 0%Z RuntimeConfig_default)
    (example_queue [] 1%Z {[ ("ci", "build-1") := example_status None "started" ]}) []
    (fun r q' _ => r = Ret tt /\ (running_jobs q' = usize_max)%Z /\
      forall o' q'' t', running_jobs q'' = running_jobs q' ->
        wp run_queue o' q'' t' (fun r _ _ => r = Panic)).
Proof.
  eapply finished_twice_stops_queue.
  - apply example_job_measurable.
  - reflexivity.
  - done.
  - left. by eexists.
  - left. by eexists.
  - done.
  - reflexivity.
Defined.

Lemma first_seen_finished_witness :
  let s := example_status (Some 1%Z) "complete" in
  let q := example_queue [] 0%Z ∅ in
  wp (on_job_status ("ci", "build-1") example_job s ;;;
      on_job_status ("ci", "build-1") example_job s ;;;
      on_job_gone ("ci", "build-1") example_job)%prog
    (quiet_services 0%Z RuntimeConfig_default) q []
    (fun r q' _ => r = Ret tt
      /\ statuses q' = statuses q /\ running_jobs q' = (running_jobs q + 1)%Z).
Proof.
  intros s q. apply first_seen_finished_leaks; [done| |done]. left. by eexists.
Defined.
