(* ===== verification/Cache.v ===== *)
(** * The caches (src/src/cache.rs)

    [ApiCacheStore]: one reflector store per custom resource, created once,
    read by [get].  [SecretsCache]: values of Secrets with an expiration
    time, filled from the API on a miss. *)

From stdpp Require Import base option gmap strings list.
From Stdlib Require Import Ascii ZArith Lia.
From S2P Require Import Prelude Strs Time Errors Config Ext Resources World.
Local Open Scope string_scope.
Local Open Scope list_scope.
Local Open Scope prog_scope.

(** ** Custom resources *)

(** The [OnceLock] cells: [true] once the store of that kind is set.  The
    contents of a store change under the watch, so looking up an object is a
    call ([Store...]) with an answer of its own each time. *)
Record ApiCacheStore := {
  git_repo : bool;
  cluster_git_repo : bool;
  action : bool;
  cluster_action : bool;
  webhook_trigger : bool;
  schedule_trigger : bool }.

Definition API_CACHE_STORE : ApiCacheStore := {|
  git_repo := false; cluster_git_repo := false; action := false;
  cluster_action := false; webhook_trigger := false; schedule_trigger := false |}.

Section ApiCache.
Context `{Ext}.

Definition store_lookup (c : Call) : bool :=
  match c with
  | StoreGitRepo _ _ | StoreClusterGitRepo _ _ | StoreAction _ _ | StoreClusterAction _ _
  | StoreWebhookTrigger _ _ | StoreScheduleTrigger _ _ => true
  | _ => false
  end.

(** The required methods of the trait for a resource type [K]: its cell
    and the lookup in its store (namespace of the key, name), which is
    nothing but a lookup in a store. *)
Class ApiCache (K : Type) := {
  cell : ApiCacheStore -> bool;
  set_cell : ApiCacheStore -> ApiCacheStore;
  store_call : string -> string -> Call;
  store_answer : forall ns name, resp (store_call ns name) -> option K;
  store_call_lookup : forall ns name, store_lookup (store_call ns name) = true }.

#[export] Instance GitRepo_cache : ApiCache GitRepo := {
  cell := git_repo;
  set_cell := fun c => {| git_repo := true; cluster_git_repo := cluster_git_repo c;
    action := action c; cluster_action := cluster_action c;
    webhook_trigger := webhook_trigger c; schedule_trigger := schedule_trigger c |};
  store_call := StoreGitRepo;
  store_answer := fun _ _ found => found;
  store_call_lookup := fun _ _ => eq_refl }.

#[export] Instance ClusterGitRepo_cache : ApiCache ClusterGitRepo := {
  cell := cluster_git_repo;
  set_cell := fun c => {| git_repo := git_repo c; cluster_git_repo := true;
    action := action c; cluster_action := cluster_action c;
    webhook_trigger := webhook_trigger c; schedule_trigger := schedule_trigger c |};
  store_call := StoreClusterGitRepo;
  store_answer := fun _ _ found => found;
  store_call_lookup := fun _ _ => eq_refl }.

#[export] Instance Action_cache : ApiCache Action := {
  cell := action;
  set_cell := fun c => {| git_repo := git_repo c; cluster_git_repo := cluster_git_repo c;
    action := true; cluster_action := cluster_action c;
    webhook_trigger := webhook_trigger c; schedule_trigger := schedule_trigger c |};
  store_call := StoreAction;
  store_answer := fun _ _ found => found;
  store_call_lookup := fun _ _ => eq_refl }.

#[export] Instance ClusterAction_cache : ApiCache ClusterAction := {
  cell := cluster_action;
  set_cell := fun c => {| git_repo := git_repo c; cluster_git_repo := cluster_git_repo c;
    action := action c; cluster_action := true;
    webhook_trigger := webhook_trigger c; schedule_trigger := schedule_trigger c |};
  store_call := StoreClusterAction;
  store_answer := fun _ _ found => found;
  store_call_lookup := fun _ _ => eq_refl }.

#[export] Instance WebhookTrigger_cache : ApiCache WebhookTrigger := {
  cell := webhook_trigger;
  set_cell := fun c => {| git_repo := git_repo c; cluster_git_repo := cluster_git_repo c;
    action := action c; cluster_action := cluster_action c;
    webhook_trigger := true; schedule_trigger := schedule_trigger c |};
  store_call := StoreWebhookTrigger;
  store_answer := fun _ _ found => found;
  store_call_lookup := fun _ _ => eq_refl }.

#[export] Instance ScheduleTrigger_cache : ApiCache ScheduleTrigger := {
  cell := schedule_trigger;
  set_cell := fun c => {| git_repo := git_repo c; cluster_git_repo := cluster_git_repo c;
    action := action c; cluster_action := cluster_action c;
    webhook_trigger := webhook_trigger c; schedule_trigger := true |};
  store_call := StoreScheduleTrigger;
  store_answer := fun _ _ found => found;
  store_call_lookup := fun _ _ => eq_refl }.

(** [get_cache_store]: the [unwrap] of the cell. *)
Definition get_cache_store (K : Type) `{ApiCache K} : io ApiCacheStore unit :=
  c <-- get ;;
  if cell c then ret tt else panic.

(** [set_cache_store]: a cell is set once. *)
Definition set_cache_store (K : Type) `{ApiCache K} : io ApiCacheStore unit :=
  c <-- get ;;
  if cell c then panic else put (set_cell c).

(** [ApiCache::get] *)
Definition cache_get {K : Type} `{ApiCache K} (name : string) (namespace : option string)
    : io ApiCacheStore (result Error K) :=
  get_cache_store K ;;;
  found <-- call (store_call (unwrap_or "default" namespace) name) ;;
  match store_answer _ _ found with
  | Some value => ret (Ok value)
  | None =>
      let name := match namespace with
                  | Some namespace => namespace ^^ "/" ^^ name
                  | None => name
                  end in
      ret (Err (ResourceNotFoundError name))
  end.

(** [ApiCache::watch]: the store is put into its cell before the first object
    is waited for; the stream after it never ends and only feeds the store,
    whose contents are the answers of [store_call]. *)
Definition cache_watch (K : Type) `{ApiCache K} : io ApiCacheStore unit := set_cache_store K.

(** [ApiCacheStore::watch]: every kind, in the order of the [join]. *)
Definition ApiCacheStore_watch : io ApiCacheStore unit :=
  cache_watch GitRepo ;;;
  cache_watch ClusterGitRepo ;;;
  cache_watch Action ;;;
  cache_watch ClusterAction ;;;
  cache_watch WebhookTrigger ;;;
  cache_watch ScheduleTrigger.
End ApiCache.

(** ** Secrets *)

Record SecretValue := {
  sv_data : gmap string string;
  expires_at : SystemTime }.

Record SecretsCache := {
  expiration_timeout : Duration;
  cache : gmap string SecretValue }.

Definition with_cache (m : gmap string SecretValue) (c : SecretsCache) : SecretsCache := {|
  expiration_timeout := expiration_timeout c; cache := m |}.

(** [format!("{namespace}/{secret_name}")] *)
Definition hash_key (namespace secret_name : string) : string :=
  namespace ^^ String "/" secret_name.

Definition utf8_error (key secret_name : string) : Error :=
  SecretDecodingError ("error converting string `" ^^ key ^^ "` from UTF8 in the secret `"
    ^^ secret_name ^^ "`").

Section SecretsCache.
Context `{Ext}.

Definition query_secrets_api {S} (namespace secret_name key : string)
    : io S (result Error (gmap string string * string)) :=
  secret <-- call (GetSecret namespace secret_name) ;;
  match (secret : result KubeErr Secret) with
  | Err e => ret (Err (KubeError e))
  | Ok None =>
      ret (Err (SecretDecodingError ("no `data` part in the secret `" ^^ secret_name ^^ "`")))
  | Ok (Some secret_data_raw) =>
      match secret_data_raw !! key with
      | None =>
          ret (Err (SecretDecodingError ("no `" ^^ key ^^ "` key in the secret `"
                     ^^ secret_name ^^ "`")))
      | Some secret_data =>
          match from_utf8 secret_data with
          | Ok secret_value => ret (Ok (secret_data_raw, secret_value))
          | Err _ => ret (Err (utf8_error key secret_name))
          end
      end
  end.

(** The part of [get_key_value] under the read lock: [Some] when it returns
    from the function. *)
Definition lookup_cached (namespace secret_name key : string)
    : io SecretsCache (option (result Error string)) :=
  c <-- get ;;
  match cache c !! hash_key namespace secret_name with
  | Some secret =>
      now <-- call SystemNow ;;
      if bool_decide (now < expires_at secret)%Z then
        match sv_data secret !! key with
        | Some value =>
            match from_utf8 value with
            | Ok value => ret (Some (Ok value))
            | Err _ => ret (Some (Err (utf8_error key secret_name)))
            end
        | None => ret None
        end
      else ret None
  | None => ret None
  end.

(** The part of [get_key_value] under the write lock. *)
Definition fetch_and_store (namespace secret_name key : string)
    : io SecretsCache (result Error string) :=
  fetched <-? query_secrets_api namespace secret_name key ;;
  let '(secret_data_raw, secret_value) := fetched in
  now <-- call SystemNow ;;
  c <-- get ;;
  expires <-- unwrap (checked_add now (expiration_timeout c)) ;;
  put (with_cache (<[hash_key namespace secret_name :=
         {| sv_data := secret_data_raw; expires_at := expires |}]> (cache c)) c) ;;;
  ret (Ok secret_value).

Definition get_key_value (namespace secret_name key : string)
    : io SecretsCache (result Error string) :=
  cached <-- lookup_cached namespace secret_name key ;;
  match cached with
  | Some r => ret r
  | None => fetch_and_store namespace secret_name key
  end.

(** [SecretsCache::get] and [query_secrets_cache]: the state is the
    [OnceLock] cell. *)
Definition secrets_get (namespace secret_name key : string)
    : io (option SecretsCache) (result Error string) :=
  c <-- get ;;
  match c with
  | None => panic
  | Some c0 =>
      zoom (unwrap_or c0) (fun c _ => Some c) (get_key_value namespace secret_name key)
  end.

Definition init_cache (timeout : Duration) : io (option SecretsCache) unit :=
  c <-- get ;;
  match c with
  | None => put (Some {| expiration_timeout := timeout; cache := ∅ |})
  | Some _ => panic
  end.
End SecretsCache.


(** ** Theorems *)

Definition api_cache_ready (s : ApiCacheStore) : Prop :=
  s = {| git_repo := true; cluster_git_repo := true; action := true;
         cluster_action := true; webhook_trigger := true; schedule_trigger := true |}.

Section CacheFacts.
Context `{Ext}.
Implicit Types (o : services) (t : trace) (c : SecretsCache).

Lemma wp_cache_get {K} `{!ApiCache K} o s t name namespace Q :
  cell s = true ->
  (forall found, found = o t (store_call (unwrap_or "default" namespace) name) ->
    Q (Ret (match store_answer _ _ found with
            | Some v => Ok v
            | None => Err (ResourceNotFoundError
                (match namespace with Some ns => ns ^^ "/" ^^ name | None => name end))
            end)) s (t ++ [Ev (store_call (unwrap_or "default" namespace) name) found])) ->
  wp (cache_get (K:=K) name namespace) o s t Q.
Proof.
  intros Hcell HQ. unfold cache_get, get_cache_store.
  do 3 wp_step. rewrite Hcell. do 3 wp_step. specialize (HQ r ltac:(done)).
  destruct (store_answer _ _ r); by wp_step.
Qed.

Lemma calls_in_cache_get {K} `{!ApiCache K} (P : event resp -> Prop) name namespace :
  (forall (req : Call) r, store_lookup req = true -> P (Ev req r)) ->
  calls_in P (cache_get (K:=K) name namespace).
Proof.
  intros HP. unfold cache_get, get_cache_store. calls_step; [by calls_run|].
  calls_step; [|by calls_run]. apply calls_in_perform. intros r. apply HP, store_call_lookup.
Qed.

(** The resource caches: before the watch starts every [get] panics;
    the watch initialises all six cells, and from then on no [get] panics
    and none changes the cells: it answers what the store holds under the
    name in the given namespace ("default" when none is given) and reports
    a missing object under the name it was asked for.  Starting the watch
    twice panics. *)
Theorem api_cache_spec {K} `{!ApiCache K} o t :
  wp ApiCacheStore_watch o API_CACHE_STORE t (fun r s t' =>
    r = Ret tt /\ t' = t /\ api_cache_ready s
    /\ wp ApiCacheStore_watch o s t' (fun r _ _ => r = Panic))
  /\ forall s name namespace,
     wp (cache_get (K:=K) name namespace) o s t (fun r s' t' =>
       s' = s /\
       if cell s then
         exists found,
           t' = t ++ [Ev (store_call (unwrap_or "default" namespace) name) found]
           /\ r = Ret (match store_answer _ _ found with
                       | Some v => Ok v
                       | None => Err (ResourceNotFoundError
                           (match namespace with Some ns => ns ^^ "/" ^^ name | None => name end))
                       end)
       else r = Panic /\ t' = t).
Proof.
  split; [by vm_compute|]. intros s name namespace.
  destruct (cell s) eqn:Hcell.
  - apply wp_cache_get; [done|]. eauto.
  - unfold cache_get, get_cache_store. do 3 wp_step. rewrite Hcell. by wp_step.
Qed.

(** ** Secrets *)

(** What one answer of the API means for a key. *)
Definition secret_answer (secret_name key : string) (a : result KubeErr Secret)
    : result Error (gmap string string * string) :=
  match a with
  | Err e => Err (KubeError e)
  | Ok None => Err (SecretDecodingError ("no `data` part in the secret `" ^^ secret_name ^^ "`"))
  | Ok (Some data) =>
      match data !! key with
      | None => Err (SecretDecodingError ("no `" ^^ key ^^ "` key in the secret `"
                                           ^^ secret_name ^^ "`"))
      | Some v => if utf8_valid v then Ok (data, v) else Err (utf8_error key secret_name)
      end
  end.

Lemma wp_query_secrets_api {S} ns name key o (s : S) t Q :
  (forall a, a = o t (GetSecret ns name) ->
    Q (Ret (secret_answer name key a)) s (t ++ [Ev (GetSecret ns name) a])) ->
  wp (query_secrets_api ns name key) o s t Q.
Proof.
  intros HQ. unfold query_secrets_api. wp_step. wp_step. specialize (HQ r H0).
  unfold secret_answer in HQ. destruct r as [[data|]|e]; [|by wp_step..].
  destruct (data !! key) as [v|]; [|by wp_step]. unfold from_utf8.
  destruct (utf8_valid v); by wp_step.
Qed.

(** A cached secret answers a request at time [now]. *)
Definition cache_hit c ns name key (now : SystemTime) : option string :=
  sv ← cache c !! hash_key ns name;
  if bool_decide (now < expires_at sv)%Z then sv_data sv !! key else None.

Definition clock_read c ns name (new : trace) : SystemTime -> Prop := fun now =>
  match cache c !! hash_key ns name with
  | Some _ => new = [Ev SystemNow now]
  | None => new = []
  end.

Lemma wp_lookup_cached ns name key o c t Q :
  (forall now new, clock_read c ns name new now ->
    Q (Ret ((fun v => if utf8_valid v then Ok v else Err (utf8_error key name))
            <$> cache_hit c ns name key now)) c (t ++ new)) ->
  wp (lookup_cached ns name key) o c t Q.
Proof.
  intros HQ. unfold lookup_cached, cache_hit, clock_read in *. do 2 wp_step.
  destruct (cache c !! hash_key ns name) as [sv|]; simpl in HQ.
  - do 2 wp_step. specialize (HQ r [Ev SystemNow r] eq_refl).
    case_bool_decide; [|by wp_step].
    destruct (sv_data sv !! key) as [v|]; [|by wp_step]. simpl in HQ. unfold from_utf8.
    destruct (utf8_valid v); by wp_step.
  - wp_step. specialize (HQ 0%Z [] eq_refl). by rewrite app_nil_r in HQ.
Qed.

Definition store_secret ns name (data : gmap string string) (expires : option SystemTime) c
    : SecretsCache :=
  match expires with
  | Some expires => with_cache (<[hash_key ns name :=
      {| sv_data := data; expires_at := expires |}]> (cache c)) c
  | None => c
  end.

Lemma wp_fetch_and_store ns name key o c t Q :
  (forall a e, secret_answer name key a = Err e ->
     Q (Ret (Err e)) c (t ++ [Ev (GetSecret ns name) a])) ->
  (forall a data v at_, secret_answer name key a = Ok (data, v) ->
     let expires := checked_add at_ (expiration_timeout c) in
     Q (match expires with Some _ => Ret (Ok v) | None => Panic end)
       (store_secret ns name data expires c)
       (t ++ [Ev (GetSecret ns name) a; Ev SystemNow at_])) ->
  wp (fetch_and_store ns name key) o c t Q.
Proof.
  intros Qerr Qok. unfold fetch_and_store. wp_step. apply wp_query_secrets_api. intros a Ha.
  destruct (secret_answer name key a) as [[data v]|e] eqn:Hans; [|by apply Qerr].
  do 6 wp_step. specialize (Qok a data v r Hans). simpl in Qok. rewrite <- !app_assoc.
  destruct (checked_add r _) as [expires|]; [do 3 wp_step|]; apply Qok.
Qed.

Lemma wp_get_key_value ns name key o c t Q :
  (forall now new v, clock_read c ns name new now -> cache_hit c ns name key now = Some v ->
     Q (Ret (if utf8_valid v then Ok v else Err (utf8_error key name))) c (t ++ new)) ->
  (forall now new a e, clock_read c ns name new now -> cache_hit c ns name key now = None ->
     secret_answer name key a = Err e ->
     Q (Ret (Err e)) c (t ++ new ++ [Ev (GetSecret ns name) a])) ->
  (forall now new a data v at_, clock_read c ns name new now ->
     cache_hit c ns name key now = None -> secret_answer name key a = Ok (data, v) ->
     let expires := checked_add at_ (expiration_timeout c) in
     Q (match expires with Some _ => Ret (Ok v) | None => Panic end)
       (store_secret ns name data expires c)
       (t ++ new ++ [Ev (GetSecret ns name) a; Ev SystemNow at_])) ->
  wp (get_key_value ns name key) o c t Q.
Proof.
  intros Qhit Qerr Qok. unfold get_key_value. wp_step. apply wp_lookup_cached.
  intros now new Hnew. destruct (cache_hit c ns name key now) as [v|] eqn:Hhit; simpl.
  { wp_step. by eapply Qhit. }
  apply wp_fetch_and_store; intros; rewrite <- app_assoc; [by eapply Qerr|by eapply Qok].
Qed.

(** The secrets cache against its specification.  A fresh cached secret
    that has the key answers without an API call.  Otherwise there is
    exactly one read of that secret from that namespace, and its answer
    decides: an API error, a missing [data] part, a missing key and a value
    that is not UTF-8 are errors that leave the cache as it was; a value is
    returned, and the whole secret is cached until the time of the answer
    plus the expiration timeout (a deadline that cannot be represented
    panics).  No other entry changes. *)
Theorem get_key_value_spec ns name key o c t :
  wp (get_key_value ns name key) o c t (fun r c' t' =>
    exists now new, clock_read c ns name new now /\
    match cache_hit c ns name key now with
    | Some v =>
        t' = t ++ new /\ c' = c
        /\ r = Ret (if utf8_valid v then Ok v else Err (utf8_error key name))
    | None => exists a,
        match secret_answer name key a with
        | Err e => t' = t ++ new ++ [Ev (GetSecret ns name) a] /\ c' = c /\ r = Ret (Err e)
        | Ok (data, v) => exists at_,
            t' = t ++ new ++ [Ev (GetSecret ns name) a; Ev SystemNow at_]
            /\ c' = store_secret ns name data (checked_add at_ (expiration_timeout c)) c
            /\ r = match checked_add at_ (expiration_timeout c) with
                   | Some _ => Ret (Ok v)
                   | None => Panic
                   end
        end
    end).
Proof.
  apply wp_get_key_value.
  - intros now new v Hnew Hhit. exists now, new. by rewrite Hhit.
  - intros now new a e Hnew Hhit Ha. exists now, new. rewrite Hhit. split; [done|].
    exists a. by rewrite Ha.
  - intros now new a data v at_ Hnew Hhit Ha. exists now, new. rewrite Hhit.
    split; [done|]. exists a. rewrite Ha. by exists at_.
Qed.

Lemma secret_answer_ok name key a data v :
  secret_answer name key a = Ok (data, v) -> a = Ok (Some data) /\ data !! key = Some v.
Proof.
  unfold secret_answer. destruct a as [[d|]|]; [|done..].
  destruct (d !! key) as [w|] eqn:Hk; [|done]. destruct (utf8_valid w); naive_solver.
Qed.

(** [data] was answered for the secret, at the clock reading [at_]. *)
Definition fetched_at t ns name (data : gmap string string) (at_ : SystemTime) : Prop :=
  exists t1 t2, t = t1 ++ Ev (GetSecret ns name) (Ok (Some data)) :: Ev SystemNow at_ :: t2.

Lemma fetched_at_app t new ns name data at_ :
  fetched_at t ns name data at_ -> fetched_at (t ++ new) ns name data at_.
Proof. intros (t1 & t2 & ->). exists t1, (t2 ++ new). by rewrite <- app_assoc. Qed.

(** Every entry was fetched from the API, for the namespace and name of its
    key, and expires one timeout later. *)
Definition cache_sound c t : Prop :=
  forall k sv, cache c !! k = Some sv -> exists ns name at_,
    occurs "/" ns = false /\ k = hash_key ns name
    /\ fetched_at t ns name (sv_data sv) at_
    /\ expires_at sv = (at_ + expiration_timeout c)%Z.

Lemma cache_sound_app c t new : cache_sound c t -> cache_sound c (t ++ new).
Proof.
  intros Hc k sv Hk. destruct (Hc k sv Hk) as (ns & name & at_ & ? & ? & ? & ?).
  eauto 10 using fetched_at_app.
Qed.

Lemma cache_sound_insert c t ns name data at_ :
  cache_sound c t -> occurs "/" ns = false -> fetched_at t ns name data at_ ->
  cache_sound (with_cache (<[hash_key ns name := {| sv_data := data;
    expires_at := (at_ + expiration_timeout c)%Z |}]> (cache c)) c) t.
Proof.
  intros Hc Hns Hf k sv. simpl.
  intros [[<- <-]|[_ Hk]]%lookup_insert_Some; [|by apply Hc].
  exists ns, name, at_. auto.
Qed.

(** The entry of a key belongs to that secret alone: names have no slash. *)
Lemma cache_sound_lookup c t ns name sv :
  cache_sound c t -> occurs "/" ns = false -> cache c !! hash_key ns name = Some sv ->
  exists at_, fetched_at t ns name (sv_data sv) at_
    /\ expires_at sv = (at_ + expiration_timeout c)%Z.
Proof.
  intros Hc Hns Hk. destruct (Hc _ _ Hk) as (ns' & name' & at_ & Hns' & Heq & ? & ?).
  apply sep_inj in Heq as [-> ->]; eauto.
Qed.

(** A value of the secret came from the API: some answer for the text
    "namespace/name", which is the key of the cache, holds it. *)
Definition value_answered t ns name key (value : string) : Prop :=
  exists ns' name' data, ns' ^^ "/" ^^ name' = ns ^^ "/" ^^ name
    /\ Ev (GetSecret ns' name') (Ok (Some data)) ∈ t /\ data !! key = Some value.

(** Every entry holds an answer of the API for the text of its key. *)
Definition secrets_known (cell : option SecretsCache) t : Prop :=
  forall c k sv, cell = Some c -> cache c !! k = Some sv -> exists ns name,
    ns ^^ "/" ^^ name = k /\ Ev (GetSecret ns name) (Ok (Some (sv_data sv))) ∈ t.

Lemma value_answered_app t new ns name key value :
  value_answered t ns name key value -> value_answered (t ++ new) ns name key value.
Proof.
  intros (ns' & name' & data & Heq & Hin & Hv). exists ns', name', data. set_solver.
Qed.

Lemma secrets_known_app cell t new : secrets_known cell t -> secrets_known cell (t ++ new).
Proof.
  intros Hc c k sv Hcell Hk. destruct (Hc c k sv Hcell Hk) as (ns & name & Heq & Hin).
  exists ns, name. set_solver.
Qed.

Lemma wp_secrets_get_known ns name key o cell t :
  secrets_known cell t ->
  wp (secrets_get ns name key) o cell t (fun r cell' t' => secrets_known cell' t'
    /\ forall v, r = Ret (Ok v) -> value_answered t' ns name key v).
Proof.
  intros Hcell. unfold secrets_get. do 2 wp_step. destruct cell as [c|]; [|by wp_step].
  apply wp_zoom. simpl. apply wp_get_key_value.
  - intros now new v _ Hhit. split; [by apply secrets_known_app|]. intros v' Hv.
    destruct (utf8_valid v); [|done]. injection Hv as <-. unfold cache_hit in Hhit.
    destruct (cache c !! _) as [sv|] eqn:Hk; [|done]. simpl in Hhit. case_bool_decide; [|done].
    destruct (Hcell c _ sv eq_refl Hk) as (ns' & name' & Heq & Hin).
    apply value_answered_app. by exists ns', name', (sv_data sv).
  - intros. split; [by apply secrets_known_app|done].
  - intros now new a data v at_ _ _ [-> Hv]%secret_answer_ok. simpl.
    set (ev := Ev (GetSecret ns name) _).
    assert (Hin : ev ∈ t ++ new ++ [ev; Ev SystemNow at_]) by set_solver.
    destruct (checked_add at_ (expiration_timeout c)) as [expires|]; simpl;
      [|by split; [apply secrets_known_app|]].
    split; [|intros v' [= <-]; by exists ns, name, data].
    intros c' k sv [= <-]. simpl. intros [[<- <-]|[_ Hk]]%lookup_insert_Some; [by exists ns, name|].
    by eapply secrets_known_app; [exact Hcell| |exact Hk].
Qed.

(** Secrets are never mixed up and never stale: over any sequence of
    requests, a value handed out for a namespace, secret and key is the
    value of that key in an answer of the API for exactly that secret, and
    it is either the answer of a call made by this request, or was obtained
    less than the expiration timeout before the clock reading of this
    request.  Namespaces contain no slash, as Kubernetes guarantees. *)
Theorem secret_values_sound ns name key o c t :
  cache_sound c t -> occurs "/" ns = false ->
  wp (get_key_value ns name key) o c t (fun r c' t' =>
    cache_sound c' t' /\ expiration_timeout c' = expiration_timeout c /\
    forall v, r = Ret (Ok v) -> exists data at_,
      fetched_at t' ns name data at_ /\ data !! key = Some v /\
      ((exists now, t' = t ++ [Ev SystemNow now] /\ (now < at_ + expiration_timeout c)%Z)
       \/ exists pre, t' = t ++ pre ++ [Ev (GetSecret ns name) (Ok (Some data)); Ev SystemNow at_])).
Proof.
  intros Hc Hns. apply wp_get_key_value.
  - intros now new v Hnew Hhit. split; [by apply cache_sound_app|]. split; [done|].
    unfold cache_hit, clock_read in *.
    destruct (cache c !! _) as [sv|] eqn:Hk; [|done]. subst new. simpl in Hhit.
    case_bool_decide as Hlt; [|done].
    destruct (cache_sound_lookup c t ns name sv) as (at_ & Hf & Hexp); [done..|].
    intros v' Hv. exists (sv_data sv), at_. destruct (utf8_valid v); [|done].
    injection Hv as <-. split; [by apply fetched_at_app|]. split; [done|].
    left. exists now. by rewrite <- Hexp.
  - intros. by split; [apply cache_sound_app|].
  - intros now new a data v at_ Hnew Hhit [-> Hv]%secret_answer_ok. simpl.
    assert (Hf : fetched_at (t ++ new ++ [Ev (GetSecret ns name) (Ok (Some data));
                   Ev SystemNow at_]) ns name data at_).
    { exists (t ++ new), []. by rewrite <- app_assoc. }
    pose proof (cache_sound_app c t (new ++ [Ev (GetSecret ns name) (Ok (Some data));
      Ev SystemNow at_]) Hc) as Hc'.
    destruct (checked_add at_ (expiration_timeout c)) as [expires|] eqn:Hexp; simpl; [|done].
    apply checked_add_Some in Hexp as ->.
    split; [by apply cache_sound_insert|]. split; [done|].
    intros v' [= <-]. exists data, at_. split; [done|]. split; [done|]. right. by exists new.
Qed.
End CacheFacts.

(** ** Examples *)

Lemma secret_values_sound_witness :
  let ext := example_ext in
  wp (get_key_value "ci" "creds" "token") (quiet_services 0%Z RuntimeConfig_default)
    {| expiration_timeout := from_secs 60; cache := ∅ |} [] (fun r c' t' =>
      cache_sound c' t' /\ expiration_timeout c' = from_secs 60 /\
      forall v, r = Ret (Ok v) -> exists data at_,
        fetched_at t' "ci" "creds" data at_ /\ data !! "token" = Some v /\
        ((exists now, t' = [] ++ [Ev SystemNow now] /\ (now < at_ + from_secs 60)%Z)
         \/ exists pre, t' = [] ++ pre ++ [Ev (GetSecret "ci" "creds") (Ok (Some data));
                                           Ev SystemNow at_])).
Proof.
  intros ext. apply (secret_values_sound "ci" "creds" "token"
    (quiet_services 0%Z RuntimeConfig_default)
    {| expiration_timeout := from_secs 60; cache := ∅ |} []); [|done].
  intros k sv Hk. simpl in Hk. by rewrite lookup_empty in Hk.
Defined.
