(* ===== verification/SecretsSystem.v ===== *)
(** * The secrets cache under concurrent requests (src/src/cache.rs)

    Tasks and web handlers share one [SecretsCache] behind a read-write lock.
    A request looks its secret up under the read lock, which it holds without
    waiting for anything, and when that fails it takes the write lock, asks
    the API while holding it, and stores the answer.  The lock is fair: who
    waits for it is served in order of arrival.  A request can be dropped
    while it waits (the client is gone), which releases what it holds. *)

From stdpp Require Import base option gmap strings list.
From Stdlib Require Import Ascii ZArith Lia.
From S2P Require Import Prelude Strs Time Errors Config Ext Resources World Cache.
Local Open Scope string_scope.
Local Open Scope list_scope.

Record Request := {
  rq_namespace : string;
  rq_secret : string;
  rq_key : string }.

(** Where a request is: in the queue of the lock, or holding it for
    writing. *)
Inductive Phase : Type := WaitRead | WaitWrite | Writing.

Section SecretsSystem.
Context `{Ext}.

(** An answered request, with the calls of its last step. *)
Record Answer := {
  an_request : nat * Request;
  an_result : outcome (result Error string);
  an_calls : trace }.

(** [pending] is in the order of the lock's queue; who holds the lock for
    writing is at its head. *)
Record System := {
  shared : SecretsCache;
  events : trace;
  pending : list (nat * Request * Phase);
  answers : list Answer;
  gone : list nat;
  arrived : nat }.

Definition SecretsSystem_init (timeout : Duration) : System := {|
  shared := {| expiration_timeout := timeout; cache := ∅ |};
  events := []; pending := []; answers := []; gone := []; arrived := 0 |}.

Definition arrive (rq : Request) (s : System) : System := {|
  shared := shared s; events := events s;
  pending := pending s ++ [(arrived s, rq, WaitRead)];
  answers := answers s; gone := gone s; arrived := S (arrived s) |}.

(** The end of a request, with what its last step left. *)
Definition finish (request : nat * Request) (rest : list (nat * Request * Phase)) (s : System)
    (r : outcome (result Error string)) (c : SecretsCache) (t : trace) : System := {|
  shared := c; events := t; pending := rest;
  answers := answers s ++ [{| an_request := request; an_result := r;
                              an_calls := drop (length (events s)) t |}];
  gone := gone s; arrived := arrived s |}.

(** A request goes on waiting. *)
Definition requeue (queue : list (nat * Request * Phase)) (s : System) (c : SecretsCache)
    (t : trace) : System := {|
  shared := c; events := t; pending := queue;
  answers := answers s; gone := gone s; arrived := arrived s |}.

(** The turn of the request at the head of the queue: the lookup, which
    either answers it or sends it to the end of the queue for the write
    lock; taking the write lock and sending the query; or the API's answer,
    which ends it. *)
Definition advance (o : services) (s : System) : System :=
  match pending s with
  | [] => s
  | ((id, rq), WaitRead) :: rest =>
      let '(r, c, t) :=
        lookup_cached (rq_namespace rq) (rq_secret rq) (rq_key rq) o (shared s) (events s) in
      match r with
      | Ret (Some r) => finish (id, rq) rest s (Ret r) c t
      | Ret None => requeue (rest ++ [((id, rq), WaitWrite)]) s c t
      | Panic => finish (id, rq) rest s Panic c t
      end
  | ((id, rq), WaitWrite) :: rest => requeue (((id, rq), Writing) :: rest) s (shared s) (events s)
  | ((id, rq), Writing) :: rest =>
      let '(r, c, t) :=
        fetch_and_store (rq_namespace rq) (rq_secret rq) (rq_key rq) o (shared s) (events s) in
      finish (id, rq) rest s r c t
  end.

(** A waiting request is dropped. *)
Definition dropped (i : nat) (s : System) : System := {|
  shared := shared s; events := events s; pending := delete i (pending s);
  answers := answers s;
  gone := gone s ++ from_option (fun p => [p.1.1]) [] (pending s !! i);
  arrived := arrived s |}.

(** Namespaces have no slash, as Kubernetes guarantees. *)
Definition well_named (rq : Request) : Prop := occurs "/" (rq_namespace rq) = false.

(** The interleavings. *)
Inductive sstep (o : services) : System -> System -> Prop :=
| sstep_arrive s rq : well_named rq -> sstep o s (arrive rq s)
| sstep_advance s : pending s <> [] -> sstep o s (advance o s)
| sstep_drop s i : i < length (pending s) -> sstep o s (dropped i s).

Inductive sreach (o : services) (s0 : System) : System -> Prop :=
| sreach_init : sreach o s0 s0
| sreach_step s s' : sreach o s0 s -> sstep o s s' -> sreach o s0 s'.

(** ** The steps *)

Section steps.
Context (o : services).
Implicit Types (rq : Request) (c : SecretsCache) (t : trace).

Definition utf8_result (name key v : string) : result Error string :=
  if utf8_valid v then Ok v else Err (utf8_error key name).

Lemma lookup_run ns name key c t :
  exists now new, clock_read c ns name new now
    /\ lookup_cached ns name key o c t
       = (Ret (utf8_result name key <$> cache_hit c ns name key now), c, t ++ new).
Proof.
  assert (Hwp : wp (lookup_cached ns name key) o c t (fun r c' t' => exists now new,
    clock_read c ns name new now /\ r = Ret (utf8_result name key <$> cache_hit c ns name key now)
    /\ c' = c /\ t' = t ++ new)) by (apply wp_lookup_cached; eauto 6).
  unfold wp in Hwp. destruct (lookup_cached ns name key o c t) as [[r c'] t'].
  destruct Hwp as (now & new & Hnew & -> & -> & ->). eauto.
Qed.

Lemma fetch_run ns name key c t :
  exists a, match secret_answer name key a with
  | Err e => fetch_and_store ns name key o c t
             = (Ret (Err e), c, t ++ [Ev (GetSecret ns name) a])
  | Ok (data, v) => exists at_, let expires := checked_add at_ (expiration_timeout c) in
      fetch_and_store ns name key o c t
      = (match expires with Some _ => Ret (Ok v) | None => Panic end,
         store_secret ns name data expires c, t ++ [Ev (GetSecret ns name) a; Ev SystemNow at_])
  end.
Proof.
  assert (Hwp : wp (fetch_and_store ns name key) o c t (fun r c' t' => exists a,
    match secret_answer name key a with
    | Err e => (r, c', t') = (Ret (Err e), c, t ++ [Ev (GetSecret ns name) a])
    | Ok (data, v) => exists at_, let expires := checked_add at_ (expiration_timeout c) in
        (r, c', t') = (match expires with Some _ => Ret (Ok v) | None => Panic end,
          store_secret ns name data expires c, t ++ [Ev (GetSecret ns name) a; Ev SystemNow at_])
    end)).
  { apply wp_fetch_and_store.
    - intros a e Ha. exists a. by rewrite Ha.
    - intros a data v at_ Ha. exists a. rewrite Ha. by exists at_. }
  unfold wp in Hwp. by destruct (fetch_and_store ns name key o c t) as [[r c'] t'].
Qed.

(** The turns, by the phase of the head. *)
Lemma advance_read s id rq rest :
  pending s = ((id, rq), WaitRead) :: rest ->
  let '(ns, name, key) := (rq_namespace rq, rq_secret rq, rq_key rq) in
  exists now new, clock_read (shared s) ns name new now
    /\ advance o s = match cache_hit (shared s) ns name key now with
       | Some v => finish (id, rq) rest s (Ret (utf8_result name key v)) (shared s) (events s ++ new)
       | None => requeue (rest ++ [((id, rq), WaitWrite)]) s (shared s) (events s ++ new)
       end.
Proof.
  intros Hp. destruct (lookup_run (rq_namespace rq) (rq_secret rq) (rq_key rq) (shared s) (events s))
    as (now & new & Hnew & Hrun). exists now, new. split; [done|].
  unfold advance. rewrite Hp, Hrun. by destruct (cache_hit _ _ _ _ _).
Qed.

Lemma advance_write s id rq rest :
  pending s = ((id, rq), Writing) :: rest ->
  let '(ns, name, key) := (rq_namespace rq, rq_secret rq, rq_key rq) in
  exists a, match secret_answer name key a with
  | Err e => advance o s
      = finish (id, rq) rest s (Ret (Err e)) (shared s) (events s ++ [Ev (GetSecret ns name) a])
  | Ok (data, v) => exists at_, let expires := checked_add at_ (expiration_timeout (shared s)) in
      advance o s
      = finish (id, rq) rest s (match expires with Some _ => Ret (Ok v) | None => Panic end)
          (store_secret ns name data expires (shared s))
          (events s ++ [Ev (GetSecret ns name) a; Ev SystemNow at_])
  end.
Proof.
  intros Hp. destruct (fetch_run (rq_namespace rq) (rq_secret rq) (rq_key rq) (shared s) (events s))
    as (a & Ha). exists a. unfold advance. rewrite Hp.
  destruct (secret_answer _ _ a) as [[data v]|e]; [destruct Ha as [at_ ->]|by rewrite Ha].
  by exists at_.
Qed.
End steps.

(** ** Every delivered value is genuine *)

(** A value was in an answer of the API for exactly the secret of the request,
    and that answer was the request's own, or had not expired when the
    request read the clock. *)
Definition genuine (timeout : Duration) (t : trace) (a : Answer) : Prop :=
  forall v, an_result a = Ret (Ok v) -> exists data at_,
    let rq := (an_request a).2 in
    fetched_at t (rq_namespace rq) (rq_secret rq) data at_ /\ data !! rq_key rq = Some v
    /\ (an_calls a = [Ev (GetSecret (rq_namespace rq) (rq_secret rq)) (Ok (Some data));
                      Ev SystemNow at_]
        \/ exists now, an_calls a = [Ev SystemNow now] /\ (now < at_ + timeout)%Z).

Lemma genuine_app timeout t new a : genuine timeout t a -> genuine timeout (t ++ new) a.
Proof.
  intros Ha v Hv. destruct (Ha v Hv) as (data & at_ & Hf & Hrest).
  exists data, at_. split; [by apply fetched_at_app|done].
Qed.

Record sys_sound (timeout : Duration) (s : System) : Prop := {
  ss_names : Forall (fun p => well_named p.1.2) (pending s);
  ss_timeout : expiration_timeout (shared s) = timeout;
  ss_cache : cache_sound (shared s) (events s);
  ss_answers : Forall (genuine timeout (events s)) (answers s) }.

(** The end of a request whose answer is genuine. *)
Lemma finish_sound timeout request rest s r c new :
  sys_sound timeout s -> Forall (fun p => well_named p.1.2) rest ->
  expiration_timeout c = timeout -> cache_sound c (events s ++ new) ->
  genuine timeout (events s ++ new)
    {| an_request := request; an_result := r; an_calls := new |} ->
  sys_sound timeout (finish request rest s r c (events s ++ new)).
Proof.
  intros [_ _ _ Hans] Hrest Htime Hcache Hgen. split; [done..|]. simpl.
  rewrite drop_app_length. apply Forall_app_2; [|by apply Forall_singleton].
  eapply Forall_impl; [exact Hans|]. intros a. apply genuine_app.
Qed.

Lemma requeue_sound timeout queue s new :
  sys_sound timeout s -> Forall (fun p => well_named p.1.2) queue ->
  sys_sound timeout (requeue queue s (shared s) (events s ++ new)).
Proof.
  intros [_ Htime Hcache Hans] Hqueue. split; [done..|by apply cache_sound_app|].
  eapply Forall_impl; [exact Hans|]. intros a. apply genuine_app.
Qed.

Lemma advance_sound timeout o s : sys_sound timeout s -> sys_sound timeout (advance o s).
Proof.
  intros Hs. pose proof Hs as [Hnames Htime Hcache Hans].
  destruct (pending s) as [|[[id rq] ph] rest] eqn:Hp; [by unfold advance; rewrite Hp|].
  apply Forall_cons in Hnames as [Hname Hrest]. simpl in Hname. destruct ph.
  - destruct (advance_read o s id rq rest Hp) as (now & new & Hnew & ->).
    destruct (cache_hit _ _ _ _ now) as [v|] eqn:Hhit.
    + apply finish_sound; [done..|by apply cache_sound_app|].
      unfold cache_hit, clock_read in *.
      destruct (cache (shared s) !! _) as [sv|] eqn:Hk; [|done]. simpl in Hhit.
      case_bool_decide as Hlt; [|done].
      destruct (cache_sound_lookup (shared s) (events s) (rq_namespace rq) (rq_secret rq) sv)
        as (at_ & Hf & Hexp); [done..|].
      intros v' Hv. simpl in Hv. unfold utf8_result in Hv. destruct (utf8_valid v); [|done].
      injection Hv as <-. exists (sv_data sv), at_. split; [by apply fetched_at_app|].
      split; [done|]. right. exists now. split; [done|]. by rewrite <- Htime, <- Hexp.
    + apply requeue_sound; [done|]. apply Forall_app_2; [done|by apply Forall_singleton].
  - unfold advance. rewrite Hp, <- (app_nil_r (events s)). apply requeue_sound; [done|].
    by constructor.
  - destruct (advance_write o s id rq rest Hp) as (a & Ha).
    destruct (secret_answer _ _ a) as [[data v]|e] eqn:Hans'.
    + destruct Ha as [at_ ->]. apply secret_answer_ok in Hans' as [-> Hv].
      assert (Hf : fetched_at (events s ++ [Ev (GetSecret (rq_namespace rq) (rq_secret rq))
        (Ok (Some data)); Ev SystemNow at_]) (rq_namespace rq) (rq_secret rq) data at_).
      { by exists (events s), []. }
      destruct (checked_add at_ _) as [expires|] eqn:Hexp; simpl.
      * apply checked_add_Some in Hexp as ->.
        apply finish_sound; [done..| |].
        { apply cache_sound_insert; [by apply cache_sound_app|done..]. }
        intros v' [= <-]. exists data, at_. split; [done|]. split; [done|]. by left.
      * apply finish_sound; [done..|by apply cache_sound_app|done].
    + rewrite Ha. apply finish_sound; [done..|by apply cache_sound_app|done].
Qed.

(** ** The lock and the requests *)

(** Every request that arrived waits, was answered or was dropped, once. *)
Definition request_ids (s : System) : list nat :=
  (pending s).*1.*1 ++ ((fun a => (an_request a).1) <$> answers s).

Record sys_wf (s : System) : Prop := {
  sw_ids : request_ids s ++ gone s ≡ₚ seq 0 (arrived s);
  sw_lock : Forall (fun p => p.2 <> Writing) (tail (pending s)) }.

Lemma advance_wf o s : sys_wf s -> sys_wf (advance o s).
Proof.
  intros [Hids Hlock]. unfold request_ids in *.
  destruct (pending s) as [|[[id rq] ph] rest] eqn:Hp; [by unfold advance; rewrite Hp; split;
    unfold request_ids; rewrite Hp|].
  simpl in Hids, Hlock.
  assert (Htail : Forall (fun p => p.2 <> Writing) (tail rest)).
  { destruct rest; [done|]. by apply Forall_cons in Hlock as [_ ?]. }
  assert (Hfinish : forall r c t, sys_wf (finish (id, rq) rest s r c t)).
  { intros r c t. split; [|exact Htail]. unfold request_ids. simpl.
    rewrite fmap_app. simpl. rewrite <- Hids. solve_Permutation. }
  destruct ph.
  - destruct (advance_read o s id rq rest Hp) as (now & new & _ & ->).
    destruct (cache_hit _ _ _ _ now); [apply Hfinish|]. split.
    + unfold request_ids. simpl. rewrite !fmap_app. simpl. rewrite <- Hids. solve_Permutation.
    + simpl. destruct rest as [|p rest]; simpl; [done|]. apply Forall_app_2; [done|].
      by apply Forall_singleton.
  - unfold advance. rewrite Hp. by split.
  - destruct (advance_write o s id rq rest Hp) as (a & Ha).
    destruct (secret_answer _ _ a) as [[data v]|e]; [destruct Ha as [at_ ->]|rewrite Ha];
      apply Hfinish.
Qed.

Lemma sstep_wf o s s' : sys_wf s -> sstep o s s' -> sys_wf s'.
Proof.
  intros Hs Hstep. destruct Hstep as [s rq _|s _|s i Hi]; [|by apply advance_wf|].
  - destruct Hs as [Hids Hlock]. unfold request_ids in *. split.
    + change (seq 0 (arrived (arrive rq s))) with (seq 0 (S (arrived s))). rewrite seq_S.
      unfold request_ids. simpl. rewrite !fmap_app. simpl. rewrite <- Hids. solve_Permutation.
    + simpl. destruct (pending s); simpl in *; [done|]. apply Forall_app_2; [done|].
      by apply Forall_singleton.
  - destruct Hs as [Hids Hlock]. unfold request_ids in *.
    destruct (lookup_lt_is_Some_2 _ _ Hi) as [p Hp]. split.
    + unfold request_ids. simpl. rewrite Hp. simpl. rewrite <- Hids.
      rewrite (delete_Permutation _ _ _ Hp) at 2. simpl. solve_Permutation.
    + simpl. destruct (pending s) as [|q rest]; [done|]. destruct i as [|i]; simpl in *.
      * destruct rest; [done|]. by apply Forall_cons in Hlock as [_ ?].
      * by apply Forall_delete.
Qed.

Lemma sstep_sound timeout o s s' :
  sys_sound timeout s -> sstep o s s' -> sys_sound timeout s'.
Proof.
  intros Hs Hstep. destruct Hstep as [s rq Hrq|s _|s i Hi]; [|by apply advance_sound|];
    destruct Hs as [Hnames Htime Hcache Hans]; split; try done; simpl.
  - apply Forall_app_2; [done|by apply Forall_singleton].
  - by apply Forall_delete.
Qed.

Lemma sreach_inv o timeout s :
  sreach o (SecretsSystem_init timeout) s -> sys_sound timeout s /\ sys_wf s.
Proof.
  induction 1 as [|s s' _ [IH1 IH2] Hstep].
  - split; [split; simpl; try done; intros k sv Hk; by rewrite lookup_empty in Hk|by split].
  - eauto using sstep_sound, sstep_wf.
Qed.

(** C20. The secrets cache shared by any number of concurrent requests, in
    every interleaving of arrivals, turns on the lock and dropped requests,
    whatever the API and the clock answer.  A value that is handed out is
    the value of that key in an answer of the API for exactly that namespace
    and secret; and that answer is either the request's own or was given
    less than the expiration timeout before the clock reading of this
    request.  At most one request holds the lock for writing, so at most
    one query is under way.  And no request is lost or answered twice: each
    one that arrived is waiting, was answered, or was dropped, exactly once. *)
Theorem secrets_shared_sound o timeout s :
  sreach o (SecretsSystem_init timeout) s ->
  Forall (genuine timeout (events s)) (answers s)
  /\ Forall (fun p => p.2 <> Writing) (tail (pending s))
  /\ request_ids s ++ gone s ≡ₚ seq 0 (arrived s).
Proof. intros [[_ _ _ Hans] [Hids Hlock]]%sreach_inv. done. Qed.

(** ** Every request is answered *)

(** The turns a request needs once it is at the head. *)
Definition turns (ph : Phase) : nat :=
  match ph with WaitRead => 1 | WaitWrite => 2 | Writing => 1 end.

Definition turns_ahead (l : list (nat * Request * Phase)) : nat :=
  sum_list_with (fun p => turns p.2) l.

(** How far a request is: the phases it may still go through, then the turns
    of those ahead of it. *)
Definition phases_left (ph : Phase) : nat :=
  match ph with WaitRead => 2 | WaitWrite => 1 | Writing => 0 end.

Definition closer (ph' : Phase) (l' : list (nat * Request * Phase)) (ph : Phase)
    (l : list (nat * Request * Phase)) : Prop :=
  phases_left ph' < phases_left ph
  \/ ph' = ph /\ turns_ahead l' < turns_ahead l.

Definition answered_as (request : nat * Request) (s : System) : Prop :=
  exists a, a ∈ answers s /\ an_request a = request.

Lemma finish_answered request rest s r c t : answered_as request (finish request rest s r c t).
Proof. eexists. split; [apply elem_of_app; right; by apply list_elem_of_singleton|done]. Qed.

(** What a turn does to the head of the queue, and to those behind it. *)
Lemma advance_head o s request ph rest :
  pending s = (request, ph) :: rest ->
  (answered_as request (advance o s) /\ pending (advance o s) = rest)
  \/ (ph = WaitRead /\ pending (advance o s) = rest ++ [(request, WaitWrite)])
  \/ (ph = WaitWrite /\ pending (advance o s) = (request, Writing) :: rest).
Proof.
  destruct request as [id rq]. intros Hp. destruct ph.
  - destruct (advance_read o s id rq rest Hp) as (now & new & _ & ->).
    destruct (cache_hit _ _ _ _ now); [left; split; [apply finish_answered|done]|right; by left].
  - right; right. unfold advance. by rewrite Hp.
  - left. destruct (advance_write o s id rq rest Hp) as (a & Ha).
    destruct (secret_answer _ _ a) as [[data v]|e]; [destruct Ha as [at_ ->]|rewrite Ha];
      (split; [apply finish_answered|done]).
Qed.

(** Every turn brings every waiting request closer to its answer. *)
Lemma advance_closer o s l1 request ph l2 :
  pending s = l1 ++ (request, ph) :: l2 ->
  answered_as request (advance o s)
  \/ exists l1' ph' l2', pending (advance o s) = l1' ++ (request, ph') :: l2'
       /\ closer ph' l1' ph l1.
Proof.
  destruct l1 as [|[request1 ph1] l1]; simpl; intros Hp.
  - destruct (advance_head o s request ph l2 Hp) as [[? _]|[[-> Hp']|[-> Hp']]]; [by left|right..].
    + exists l2, WaitWrite, []. split; [done|]. left. simpl. lia.
    + exists [], Writing, l2. split; [done|]. left. simpl. lia.
  - right. unfold closer, turns_ahead.
    destruct (advance_head o s request1 ph1 _ Hp) as [[_ Hp']|[[-> Hp']|[-> Hp']]].
    + exists l1, ph, l2. split; [done|]. right. split; [done|]. destruct ph1; simpl; lia.
    + exists l1, ph, (l2 ++ [(request1, WaitWrite)]). rewrite Hp', <- app_assoc.
      split; [done|]. right. split; [done|]. simpl. lia.
    + exists ((request1, Writing) :: l1), ph, l2. split; [done|]. right. split; [done|].
      simpl. lia.
Qed.

(** A request is settled: answered, or dropped by its client. *)
Definition settled (request : nat * Request) (s : System) : Prop :=
  answered_as request s \/ request.1 ∈ gone s.

(** It waits, [p] phases and [a] turns from its end. *)
Definition waits (request : nat * Request) (p a : nat) (s : System) : Prop :=
  exists l1 ph l2, pending s = l1 ++ (request, ph) :: l2
    /\ phases_left ph = p /\ turns_ahead l1 = a.

Lemma advance_waits o s request p a :
  waits request p a s ->
  settled request (advance o s)
  \/ exists p' a', waits request p' a' (advance o s) /\ (p' < p \/ p' = p /\ a' < a).
Proof.
  intros (l1 & ph & l2 & Hp & <- & <-).
  destruct (advance_closer o s l1 request ph l2 Hp) as [?|(l1' & ph' & l2' & Hp' & Hcloser)];
    [left; by left|right]. eexists _, _. split; [by exists l1', ph', l2'|].
  destruct Hcloser as [?|[-> ?]]; auto.
Qed.

(** Arrivals and dropped requests take nobody farther from the end. *)
Lemma sstep_waits o s s' request p a :
  sstep o s s' -> waits request p a s ->
  settled request s' \/ exists p' a', waits request p' a' s' /\ (p' < p \/ p' = p /\ a' <= a).
Proof.
  intros Hstep Hwaits. destruct Hstep as [s rq _|s _|s i Hi].
  - right. exists p, a. split; [|lia]. destruct Hwaits as (l1 & ph & l2 & Hp & ? & ?).
    exists l1, ph, (l2 ++ [((arrived s, rq), WaitRead)]). simpl. rewrite Hp, <- app_assoc. auto.
  - destruct (advance_waits o s request p a Hwaits) as [?|(p' & a' & ? & ?)]; [by left|right].
    exists p', a'. split; [done|lia].
  - destruct Hwaits as (l1 & ph & l2 & Hp & <- & <-).
    destruct (decide (i = length l1)) as [->|Hne].
    { left. right. simpl. rewrite Hp, lookup_app_r, Nat.sub_diag by done. simpl.
      apply elem_of_app. right. by apply list_elem_of_singleton. }
    right. destruct (decide (i < length l1)) as [Hlt|Hge].
    + exists (phases_left ph), (turns_ahead (delete i l1)). split.
      * exists (delete i l1), ph, l2. simpl. by rewrite Hp, delete_app_left.
      * right. split; [done|]. unfold turns_ahead.
        destruct (lookup_lt_is_Some_2 _ _ Hlt) as [q Hq].
        rewrite (delete_Permutation l1 i q Hq) at 2. simpl. lia.
    + exists (phases_left ph), (turns_ahead l1). split; [|lia].
      exists l1, ph, (delete (pred (i - length l1)) l2). simpl. rewrite Hp, delete_app_right by lia.
      by destruct (i - length l1) eqn:Hk; [lia|].
Qed.

(** A run of the system, in which the head of the queue has its turn again
    and again: the API answers and the lock is handed on. *)
Record fair_run (o : services) (run : nat -> System) : Prop := {
  fr_step : forall n, run (S n) = run n \/ sstep o (run n) (run (S n));
  fr_turns : forall n, exists m, n <= m /\ run (S m) = advance o (run m) }.

(** Up to the next turn nobody falls back. *)
Lemma fair_run_keeps o run request p a n k :
  fair_run o run -> waits request p a (run n) ->
  (exists m, settled request (run m))
  \/ exists p' a', waits request p' a' (run (n + k)) /\ (p' < p \/ p' = p /\ a' <= a).
Proof.
  intros Hrun Hwaits. induction k as [|k IH].
  - right. exists p, a. rewrite Nat.add_0_r. split; [done|lia].
  - destruct IH as [?|(p1 & a1 & Hw & Hle)]; [by left|].
    rewrite Nat.add_succ_r. destruct (fr_step _ _ Hrun (n + k)) as [->|Hstep].
    { right. by exists p1, a1. }
    destruct (sstep_waits o _ _ request p1 a1 Hstep Hw) as [Hs|(p2 & a2 & Hw2 & Hle2)];
      [left; by exists (S (n + k))|right]. exists p2, a2. split; [done|lia].
Qed.

Lemma fair_run_settles o run request p a n :
  fair_run o run -> waits request p a (run n) -> exists m, settled request (run m).
Proof.
  intros Hrun. revert a n. induction (lt_wf p) as [p _ IHp]. intros a.
  induction (lt_wf a) as [a _ IHa]. intros n Hwaits.
  destruct (fr_turns _ _ Hrun n) as (m & Hm & Hturn).
  destruct (fair_run_keeps o run request p a n (m - n) Hrun Hwaits)
    as [?|(p1 & a1 & Hw & Hle)]; [done|]. replace (n + (m - n)) with m in Hw by lia.
  destruct (advance_waits o (run m) request p1 a1 Hw) as [Hs|(p2 & a2 & Hw2 & Hlt)];
    rewrite <- Hturn in *; [by exists (S m)|].
  destruct (decide (p2 < p)) as [Hp2|Hp2]; [by apply (IHp p2 Hp2 a2 (S m))|].
  assert (p2 = p) as -> by lia. apply (IHa a2 ltac:(lia) (S m) Hw2).
Qed.

(** C21. No request starves.  In every run in which the queue of the lock goes
    on being served, and however many other requests keep arriving, every
    request that waits for a secret is answered or dropped by its client
    after finitely many steps: a miss sends a request to the end of the
    queue for the write lock only once, and from then on everybody who
    arrives is behind it. *)
Theorem secrets_request_settled o run n l1 request ph l2 :
  fair_run o run -> pending (run n) = l1 ++ (request, ph) :: l2 ->
  exists m, settled request (run m).
Proof.
  intros Hrun Hp. apply (fair_run_settles o run request (phases_left ph) (turns_ahead l1) n);
    [done|]. by exists l1, ph, l2.
Qed.

(** ** What the lock costs *)

Definition is_query (e : event resp) : bool :=
  match e with Ev c _ => match c with GetSecret _ _ => true | _ => false end end.

(** The queries sent to the API. *)
Definition queries (t : trace) : nat := length (filter (fun e => is_query e = true) t).

Lemma queries_app t new : queries (t ++ new) = queries t + queries new.
Proof. unfold queries. by rewrite filter_app, length_app. Qed.

Definition uncached (c : SecretsCache) (rq : Request) : Prop :=
  cache c !! hash_key (rq_namespace rq) (rq_secret rq) = None.

(** [n] turns. *)
Fixpoint serve (n : nat) (o : services) (s : System) : System :=
  match n with O => s | S n => serve n o (advance o s) end.

Lemma serve_add n k o s : serve (n + k) o s = serve k o (serve n o s).
Proof. revert s. induction n as [|n IH]; intros s; simpl; auto. Qed.

Definition waiting (ph : Phase) (request : nat * Request) : nat * Request * Phase := (request, ph).

(** The lookups of requests for absent secrets, one after the other. *)
Lemma herd_misses o l s rest :
  pending s = (waiting WaitRead <$> l) ++ rest -> Forall (fun r => uncached (shared s) r.2) l ->
  let s' := serve (length l) o s in
  pending s' = rest ++ (waiting WaitWrite <$> l) /\ events s' = events s.
Proof.
  revert s rest. induction l as [|[id rq] l IH]; intros s rest Hp Hl.
  { simpl in *. by rewrite app_nil_r. }
  apply Forall_cons in Hl as [Hrq Hl]. simpl in Hrq. rewrite fmap_cons in Hp. cbn [length serve].
  destruct (advance_read o s id rq ((waiting WaitRead <$> l) ++ rest) Hp) as (now & new & Hnew & Hadv).
  unfold clock_read, cache_hit in *. unfold uncached in Hrq. rewrite Hrq in Hnew, Hadv.
  simpl in Hadv. subst new. rewrite app_nil_r in Hadv. rewrite Hadv.
  destruct (IH (requeue (((waiting WaitRead <$> l) ++ rest) ++ [((id, rq), WaitWrite)]) s (shared s)
    (events s)) (rest ++ [((id, rq), WaitWrite)])) as (Hp' & Hev); [by simpl; rewrite <- app_assoc|done|].
  split; [|exact Hev]. rewrite Hp', fmap_cons, <- app_assoc. done.
Qed.

(** Whoever missed asks the API, whatever was cached meanwhile. *)
Lemma herd_queries o l s :
  pending s = (waiting WaitWrite <$> l) ->
  let s' := serve (2 * length l) o s in
  pending s' = [] /\ queries (events s') = queries (events s) + length l.
Proof.
  revert s. induction l as [|[id rq] l IH]; intros s Hp; [simpl in *; by rewrite Nat.add_0_r|].
  rewrite fmap_cons in Hp. simpl length.
  replace (2 * S (length l)) with (2 + 2 * length l) by lia. rewrite serve_add.
  assert (Hlocked : pending (advance o s) = ((id, rq), Writing) :: (waiting WaitWrite <$> l)
    /\ events (advance o s) = events s) by (unfold advance; by rewrite Hp).
  destruct Hlocked as [Hp1 Hev1]. 
  assert (Hdone : pending (advance o (advance o s)) = (waiting WaitWrite <$> l)
    /\ queries (events (advance o (advance o s))) = queries (events s) + 1).
  { destruct (advance_write o _ id rq _ Hp1) as (a & Ha). rewrite Hev1 in Ha.
    destruct (secret_answer _ _ a) as [[data v]|e]; [destruct Ha as [at_ ->]|rewrite Ha];
      (split; [done|]); simpl; by rewrite queries_app. }
  destruct Hdone as [Hp2 Hq2]. destruct (IH _ Hp2) as [Hp3 Hq3]. cbn [serve].
  split; [exact Hp3|]. etrans; [exact Hq3|]. rewrite Hq2. lia.
Qed.

(** Requests that come together for one secret all query the API: when
    [n] requests for secrets that are not cached wait at the same time -
    all for the same secret, say - the system answers them in three turns
    each and with exactly [n] queries, since a request that missed does not
    look again once it has the write lock; and the queries go one after the
    other, each behind the lock that every other reader of any secret waits
    for. *)
Theorem secrets_herd o l s :
  pending s = (waiting WaitRead <$> l) -> Forall (fun r => uncached (shared s) r.2) l ->
  let s' := serve (3 * length l) o s in
  pending s' = [] /\ queries (events s') = queries (events s) + length l.
Proof.
  intros Hp Hl. replace (3 * length l) with (length l + 2 * length l) by lia. rewrite serve_add.
  destruct (herd_misses o l s []) as [Hp1 Hev]; [by rewrite app_nil_r|done|].
  destruct (herd_queries o l _ Hp1) as [Hp2 Hq]. split; [done|]. by rewrite <- Hev.
Qed.
End SecretsSystem.

(** ** Examples *)

#[local] Existing Instance example_ext.

Definition token_request : Request := {|
  rq_namespace := "ci"; rq_secret := "creds"; rq_key := "token" |}.

Abbreviation idle_services := (quiet_services 0%Z RuntimeConfig_default).

Definition one_minute : System := SecretsSystem_init (from_secs 60).

(** Three requests at once. *)
Definition three_requests : System :=
  arrive token_request (arrive token_request (arrive token_request one_minute)).

Lemma secrets_herd_witness :
  let s' := serve 9 idle_services three_requests in
  pending s' = [] /\ queries (events s') = 3.
Proof.
  apply (secrets_herd idle_services [(0, token_request); (1, token_request); (2, token_request)]
    three_requests); [done|]. by repeat constructor.
Defined.

Lemma secrets_shared_sound_witness :
  let s := serve 9 idle_services three_requests in
  Forall (genuine (from_secs 60) (events s)) (answers s)
  /\ Forall (fun p => p.2 <> Writing) (tail (pending s))
  /\ request_ids s ++ gone s ≡ₚ seq 0 (arrived s).
Proof.
  apply (secrets_shared_sound idle_services (from_secs 60)).
  assert (Hturns : forall n s, sreach idle_services one_minute s ->
    sreach idle_services one_minute (serve n idle_services s)).
  { induction n as [|n IH]; intros s Hs; [done|]. simpl. apply IH.
    destruct (pending s) as [|p rest] eqn:Hp; [unfold advance; by rewrite Hp|].
    eapply sreach_step; [exact Hs|]. apply sstep_advance. by rewrite Hp. }
  apply Hturns. repeat (eapply sreach_step; [|by apply sstep_arrive]). apply sreach_init.
Defined.

Lemma secrets_request_settled_witness :
  exists m, settled (1, token_request) (serve m idle_services three_requests).
Proof.
  apply (secrets_request_settled idle_services (fun n => serve n idle_services three_requests) 0
    [((0, token_request), WaitRead)] (1, token_request) WaitRead
    [((2, token_request), WaitRead)]); [|done].
  assert (Hnext : forall n, serve (S n) idle_services three_requests
    = advance idle_services (serve n idle_services three_requests)).
  { intros n. replace (S n) with (n + 1) by lia. by rewrite serve_add. }
  split; [|intros n; by exists n].
  intros n. rewrite Hnext. destruct (pending (serve n idle_services three_requests)) eqn:Hp.
  - left. unfold advance. by rewrite Hp.
  - right. apply sstep_advance. by rewrite Hp.
Defined.
