(* ===== verification/Statics.v ===== *)
(** * The shared singletons

    The [static] cells of the program, which tasks and handlers reach from
    anywhere: the resource caches and the secrets cache (cache.rs) and the
    jobs queue (jobs.rs).  A component's operation on one of them runs on the
    whole record with the other parts untouched. *)

From stdpp Require Import base option gmap strings list.
From Stdlib Require Import ZArith.
From S2P Require Import Prelude Strs Time Errors Config Ext Resources World Jobs Cache.
Local Open Scope string_scope.
Local Open Scope list_scope.
Local Open Scope prog_scope.

Section Statics.
Context `{Ext}.

Record Statics := {
  api_cache : ApiCacheStore;
  secret_cache : option SecretsCache;
  jobs_queue : option JobsQueue }.

Definition on_api_cache {A} : io ApiCacheStore A -> io Statics A :=
  zoom api_cache (fun c s => {| api_cache := c; secret_cache := secret_cache s;
                                jobs_queue := jobs_queue s |}).

Definition on_secret_cache {A} : io (option SecretsCache) A -> io Statics A :=
  zoom secret_cache (fun c s => {| api_cache := api_cache s; secret_cache := c;
                                   jobs_queue := jobs_queue s |}).

Definition on_jobs_queue {A} : io (option JobsQueue) A -> io Statics A :=
  zoom jobs_queue (fun q s => {| api_cache := api_cache s; secret_cache := secret_cache s;
                                 jobs_queue := q |}).

(** Looking a resource up changes nothing. *)
Lemma wp_get_cached {K} `{!ApiCache K} (o : services) (s : Statics) (t : trace) name namespace Q :
  cell (api_cache s) = true ->
  (forall found, found = o t (store_call (unwrap_or "default" namespace) name) ->
    Q (Ret (match store_answer _ _ found with
            | Some v => Ok v
            | None => Err (ResourceNotFoundError
                (match namespace with
                 | Some ns => ns ^^ "/" ^^ name
                 | None => name
                 end))
            end)) s (t ++ [Ev (store_call (unwrap_or "default" namespace) name) found])) ->
  wp (on_api_cache (cache_get (K:=K) name namespace)) o s t Q.
Proof.
  intros Hcell HQ. apply wp_zoom, wp_cache_get; [done|].
  intros found Hf. specialize (HQ found Hf). by destruct s.
Qed.

Lemma calls_in_cached {K} `{!ApiCache K} (P : event resp -> Prop) name namespace :
  (forall (req : Call) r, store_lookup req = true -> P (Ev req r)) ->
  calls_in P (on_api_cache (cache_get (K:=K) name namespace)).
Proof. intros HP. by apply calls_in_zoom, calls_in_cache_get. Qed.
End Statics.
