(* ===== verification/Action.v ===== *)
(** * Actions (src/src/resources/action.rs, src/src/resources/mod.rs)

    From an [Action] or [ClusterAction] and the facts of a trigger run to the
    Kubernetes Job that enters the queue.  [RuntimeConfig::get] is a call
    wherever the code calls it, so that a configuration change in the middle
    is one of the behaviours. *)

From stdpp Require Import base option gmap strings list.
From Stdlib Require Import Ascii ZArith Lia.
From S2P Require Import Prelude Strs Time Errors Config Ext Resources World Jobs JobsFacts Cache Statics.
Local Open Scope string_scope.
Local Open Scope list_scope.
Local Open Scope prog_scope.

Section Action.
Context `{Ext}.

(** [random_string]: one alphanumeric character at a time. *)
Fixpoint random_string {S} (len : nat) : io S string :=
  match len with
  | O => ret EmptyString
  | S len =>
      c <-- call RandAlphanumeric ;;
      s <-- random_string len ;;
      ret (String c s)
  end.

(** The traits [CustomApiResource] and [ActionInternals], with the name of
    the object.  [get_owner_reference] unwraps what [controller_owner_ref]
    gives. *)
Class ActionInternals (A : Type) := {
  action_crd_kind : string;
  action_name_any : A -> string;
  action_job_spec : A -> ActionJob;
  source_override_spec : A -> option ActionSourceOverride;
  owner_ref : A -> option OwnerReference }.

#[export] Instance Action_internals : ActionInternals Action := {
  action_crd_kind := "Action";
  action_name_any := ac_name;
  action_job_spec := ac_action_job;
  source_override_spec := ac_source_override;
  owner_ref := ac_owner_ref }.

#[export] Instance ClusterAction_internals : ActionInternals ClusterAction := {
  action_crd_kind := "ClusterAction";
  action_name_any := cac_name;
  action_job_spec := cac_action_job;
  source_override_spec := fun self =>
    (fun value => {| so_kind := KindClusterGitRepo; so_name := cso_name value;
                     so_reference := cso_reference value |}) <$> cac_source_override self;
  owner_ref := cac_owner_ref }.

Section executor.
Context {S : Type}.

Definition format_action_job_env_var (name value : string) : io S EnvVar :=
  config <-- call GetConfig ;;
  ret {| ev_name := variables_prefix (cc_worker (ac_containers (rc_action config))) ^^ name;
         ev_value := Some value |}.

Context {A : Type} `{!ActionInternals A}.

Definition get_owner_reference (self : A) : io S OwnerReference := unwrap (owner_ref self).

Definition job_name (self : A) : io S string :=
  now <-- call SystemNow ;;
  suffix <-- random_string 2 ;;
  ret (to_lowercase (action_name_any self ^^ "-" ^^ local_timestamp now ^^ "-" ^^ suffix)).

(** The [vec!] of the code, then its conditional pushes. *)
Definition get_action_job_envs (self : A) (source_kind : TriggerSourceKind)
    (source_name source_commit : string) (trigger_ref : TriggerGitRepoReference)
    (ns trigger_kind trigger_name : string) : io S (list EnvVar) :=
  let action_job := action_job_spec self in
  let source_override := source_override_spec self in
  let '(trigger_ref_type, trigger_ref_name) := to_refname trigger_ref None in
  config <-- call GetConfig ;;
  e1 <-- format_action_job_env_var "WORKDIR"
    (unwrap_or (mount_path (ac_workdir (rc_action config))) (aj_workdir action_job)) ;;
  e2 <-- format_action_job_env_var "TRIGGER_SOURCE_KIND"
    (TriggerSourceKind_to_string source_kind) ;;
  e3 <-- format_action_job_env_var "TRIGGER_SOURCE_NAME" source_name ;;
  e4 <-- format_action_job_env_var "TRIGGER_SOURCE_COMMIT" source_commit ;;
  e5 <-- format_action_job_env_var "TRIGGER_SOURCE_REF_TYPE" trigger_ref_type ;;
  e6 <-- format_action_job_env_var "TRIGGER_SOURCE_REF_NAME" trigger_ref_name ;;
  e7 <-- format_action_job_env_var "TRIGGER_KIND" trigger_kind ;;
  e8 <-- format_action_job_env_var "TRIGGER_NAME" trigger_name ;;
  ns_env <-- (if bool_decide (source_kind = KindGitRepo)
              then e <-- format_action_job_env_var "TRIGGER_SOURCE_NAMESPACE" ns ;; ret [e]
              else ret []) ;;
  override_envs <--
    match source_override with
    | Some source_override =>
        let '(ref_type, ref_name) := to_refname (so_reference source_override) None in
        o1 <-- format_action_job_env_var "ACTION_SOURCE_KIND"
          (TriggerSourceKind_to_string (so_kind source_override)) ;;
        o2 <-- format_action_job_env_var "ACTION_SOURCE_NAME" (so_name source_override) ;;
        o3 <-- format_action_job_env_var "ACTION_SOURCE_REF_TYPE" ref_type ;;
        o4 <-- format_action_job_env_var "ACTION_SOURCE_REF_NAME" ref_name ;;
        o5 <-- (if bool_decide (so_kind source_override = KindGitRepo)
                then e <-- format_action_job_env_var "ACTION_SOURCE_NAMESPACE" ns ;; ret [e]
                else ret []) ;;
        ret ([o1; o2; o3; o4] ++ o5)
    | None => ret []
    end ;;
  ret ([e1; e2; e3; e4; e5; e6; e7; e8] ++ ns_env ++ override_envs).

Definition get_gitrepo_cloner_args (self : A) (source_kind : TriggerSourceKind)
    (source_name : string) (source_ref : TriggerGitRepoReference) : io S (list string) :=
  let action_job := action_job_spec self in
  config <-- call GetConfig ;;
  let '(ref_type, ref_name) := to_refname source_ref (Some "--") in
  ret (["--kind"; TriggerSourceKind_to_string source_kind; "--source"; source_name;
        "--destination";
        unwrap_or (mount_path (ac_workdir (rc_action config))) (aj_workdir action_job)]
       ++ [ref_type; ref_name]
       ++ (if aj_preserve_git_folder action_job then ["--preserve-git-folder"] else [])
       ++ (if aj_enable_cloner_debug action_job then ["--debug"] else [])).

(** The six labels of the program, then the user's, which win. *)
Definition job_labels (self : A) (source_kind : TriggerSourceKind)
    (source_name trigger_kind trigger_name : string) : gmap string string :=
  let labels := <[ACTION_JOB_TRIGGER_NAME_LABEL := trigger_name]>
    (<[ACTION_JOB_TRIGGER_KIND_LABEL := trigger_kind]>
    (<[ACTION_JOB_SOURCE_NAME_LABEL := source_name]>
    (<[ACTION_JOB_SOURCE_KIND_LABEL := TriggerSourceKind_to_string source_kind]>
    (<[ACTION_JOB_ACTION_NAME_LABEL := action_name_any self]>
    (<[ACTION_JOB_ACTION_KIND_LABEL := action_crd_kind (A:=A)]> ∅))))) in
  match aj_labels (action_job_spec self) with
  | Some additional_labels => additional_labels ∪ labels
  | None => labels
  end.

Definition create_job_spec (self : A) (source_kind : TriggerSourceKind)
    (source_name source_commit : string) (trigger_ref : TriggerGitRepoReference)
    (ns trigger_kind trigger_name : string) : io S (result Error Job) :=
  config <-- call GetConfig ;;
  let action_job := action_job_spec self in
  let source_override := source_override_spec self in
  let pod_template_metadata :=
    match aj_labels action_job, aj_annotations action_job with
    | None, None => None
    | _, _ => Some {| om_name := None; om_namespace := None;
                      om_labels := aj_labels action_job;
                      om_annotations := aj_annotations action_job;
                      om_owner_references := None |}
    end in
  let labels := job_labels self source_kind source_name trigger_kind trigger_name in
  args <--
    match source_override with
    | Some source_override =>
        get_gitrepo_cloner_args self (so_kind source_override) (so_name source_override)
          (so_reference source_override)
    | None => get_gitrepo_cloner_args self source_kind source_name (Commit source_commit)
    end ;;
  service_account <--
    match aj_service_account action_job with
    | Some sa => ret (Some sa)
    | None => config <-- call GetConfig ;; ret (default_service_account (rc_action config))
    end ;;
  config_ttl <-- call GetConfig ;;
  let ttl := unwrap_or (ttl_seconds_after_finished (rc_action config_ttl))
               (aj_ttl_seconds_after_finished action_job) in
  config_deadline <-- call GetConfig ;;
  let deadline := unwrap_or (active_deadline_seconds (rc_action config_deadline))
                    (aj_active_deadline_seconds action_job) in
  name <-- job_name self ;;
  owner <-- get_owner_reference self ;;
  let cloner := cc_cloner (ac_containers (rc_action config)) in
  let worker := cc_worker (ac_containers (rc_action config)) in
  let workdir := ac_workdir (rc_action config) in
  envs <-- get_action_job_envs self source_kind source_name source_commit trigger_ref ns
             trigger_kind trigger_name ;;
  let mounts := [{| vm_name := volume_name workdir;
                    vm_mount_path := unwrap_or (mount_path workdir) (aj_workdir action_job) |}] in
  ret (Ok {|
    job_metadata := {|
      om_name := Some name; om_namespace := None; om_labels := Some labels;
      om_annotations := aj_annotations action_job;
      om_owner_references := Some [owner] |};
    job_spec := Some {|
      jspec_backoff_limit := Some 0%Z;
      jspec_parallelism := Some 1%Z;
      jspec_ttl_seconds_after_finished := Some ttl;
      jspec_active_deadline_seconds := Some deadline;
      jspec_template := {|
        pt_metadata := pod_template_metadata;
        pt_spec := Some {|
          ps_service_account_name := service_account;
          ps_node_selector := aj_node_selector action_job;
          ps_affinity := aj_affinity action_job;
          ps_tolerations := aj_tolerations action_job;
          ps_init_containers := Some [{|
            ct_name := cloner_name cloner;
            ct_image := Some (unwrap_or (cloner_image cloner) (aj_cloner_image action_job));
            ct_working_dir := None; ct_command := None;
            ct_args := Some args; ct_env := None;
            ct_volume_mounts := Some mounts |}];
          ps_containers := [{|
            ct_name := worker_name worker;
            ct_image := Some (unwrap_or (worker_image worker) (aj_action_image action_job));
            ct_working_dir := Some (unwrap_or (mount_path workdir) (aj_workdir action_job));
            ct_command := aj_command action_job;
            ct_args := aj_args action_job;
            ct_env := Some envs;
            ct_volume_mounts := Some mounts |}];
          ps_restart_policy := Some "Never";
          ps_volumes := Some [{| vol_name := volume_name workdir; vol_empty_dir := true |}] |} |} |};
    job_status := None |}).
End executor.

(** [ActionExecutor::execute] *)
Definition execute {A} `{!ActionInternals A} (self : A) (source_kind : TriggerSourceKind)
    (source_name source_commit : string) (trigger_ref : TriggerGitRepoReference)
    (ns trigger_kind trigger_name : string) : io Statics (result Error unit) :=
  job <-? create_job_spec self source_kind source_name source_commit trigger_ref ns
            trigger_kind trigger_name ;;
  let timeout := from_secs <$> aj_job_waiting_timeout_seconds (action_job_spec self) in
  on_jobs_queue (enqueue job ns timeout).
End Action.

(** ** Theorems *)

Section ActionFacts.
Context `{Ext}.
Implicit Types (o : services) (t : trace).

(** The configuration does not change while a job is composed. *)
Definition config_stable o (config : RuntimeConfig) : Prop :=
  forall t, o t GetConfig = config.

Lemma config_is o config t r : config_stable o config -> r = o t GetConfig -> r = config.
Proof. intros Hc ->. apply Hc. Qed.

Lemma wp_random_string {S} n o (s : S) t Q :
  (forall r t', String.length r = n -> Q (Ret r) s t') -> wp (random_string n) o s t Q.
Proof.
  revert t Q. induction n as [|n IH]; intros t Q HQ; simpl; [apply wp_ret; by apply HQ|].
  do 3 wp_step. apply IH. intros r' t' Hr'. wp_step. apply HQ. simpl. by rewrite Hr'.
Qed.

Lemma calls_in_random_string {S} (P : event resp -> Prop) n :
  (forall c, P (Ev RandAlphanumeric c)) -> calls_in P (random_string (S:=S) n).
Proof.
  intros HP. induction n as [|n IH]; simpl; [apply calls_in_ret|].
  calls_step; [by apply calls_in_perform|]. calls_step; [apply IH|apply calls_in_ret].
Qed.

Lemma wp_random_string_extends {S} n o (s : S) t Q :
  (forall suffix new, Q (Ret suffix) s (t ++ new)) -> wp (random_string n) o s t Q.
Proof.
  intros HQ. eapply wp_mono; [apply wp_and; [by apply (calls_in_random_string (fun _ => True) n)|
    apply wp_random_string with (Q := fun r s' _ => s' = s /\ exists suffix, r = Ret suffix)]|].
  - eauto.
  - intros r s' t' ((new & -> & _) & -> & suffix & ->). apply HQ.
Qed.

Lemma wp_format_env {S} name value o (s : S) t Q :
  (forall config t', (forall c, config_stable o c -> config = c) ->
    Q (Ret {| ev_name := variables_prefix (cc_worker (ac_containers (rc_action config))) ^^ name;
              ev_value := Some value |}) s t') ->
  wp (format_action_job_env_var name value) o s t Q.
Proof.
  intros HQ. unfold format_action_job_env_var. do 3 wp_step. apply HQ.
  intros c Hc. subst. apply Hc.
Qed.

Section of_action.
Context {S A : Type} `{!ActionInternals A}.
Implicit Types (self : A).

(** The variables of the worker container, for a known configuration. *)
Definition env (config : RuntimeConfig) (name value : string) : EnvVar :=
  {| ev_name := variables_prefix (cc_worker (ac_containers (rc_action config))) ^^ name;
     ev_value := Some value |}.

Definition expected_envs config self source_kind source_name source_commit trigger_ref
    ns trigger_kind trigger_name : list EnvVar :=
  [env config "WORKDIR" (unwrap_or (mount_path (ac_workdir (rc_action config)))
                           (aj_workdir (action_job_spec self)));
   env config "TRIGGER_SOURCE_KIND" (TriggerSourceKind_to_string source_kind);
   env config "TRIGGER_SOURCE_NAME" source_name;
   env config "TRIGGER_SOURCE_COMMIT" source_commit;
   env config "TRIGGER_SOURCE_REF_TYPE" (to_refname trigger_ref None).1;
   env config "TRIGGER_SOURCE_REF_NAME" (to_refname trigger_ref None).2;
   env config "TRIGGER_KIND" trigger_kind;
   env config "TRIGGER_NAME" trigger_name]
  ++ (if bool_decide (source_kind = KindGitRepo)
      then [env config "TRIGGER_SOURCE_NAMESPACE" ns] else [])
  ++ match source_override_spec self with
     | Some ov =>
         [env config "ACTION_SOURCE_KIND" (TriggerSourceKind_to_string (so_kind ov));
          env config "ACTION_SOURCE_NAME" (so_name ov);
          env config "ACTION_SOURCE_REF_TYPE" (to_refname (so_reference ov) None).1;
          env config "ACTION_SOURCE_REF_NAME" (to_refname (so_reference ov) None).2]
         ++ (if bool_decide (so_kind ov = KindGitRepo)
             then [env config "ACTION_SOURCE_NAMESPACE" ns] else [])
     | None => []
     end.

Lemma wp_envs self source_kind source_name source_commit trigger_ref ns trigger_kind
    trigger_name o (s : S) t Q :
  (forall envs t', (forall c, config_stable o c ->
     envs = expected_envs c self source_kind source_name source_commit trigger_ref ns
              trigger_kind trigger_name) -> Q (Ret envs) s t') ->
  wp (get_action_job_envs self source_kind source_name source_commit trigger_ref ns
        trigger_kind trigger_name) o s t Q.
Proof.
  intros HQ. unfold get_action_job_envs, expected_envs in *.
  destruct (to_refname trigger_ref None) as [ty nm]. simpl in HQ.
  do 2 wp_step.
  do 8 (wp_step; apply wp_format_env; intros ???).
  wp_step. eapply wp_mono with (P := fun r s' _ => s' = s /\ exists es, r = Ret es
    /\ forall c, config_stable o c -> es = if bool_decide (source_kind = KindGitRepo)
         then [env c "TRIGGER_SOURCE_NAMESPACE" ns] else []).
  { clear HQ. case_bool_decide; [|apply wp_ret; eauto].
    wp_step. apply wp_format_env. intros config' ? Hc'. wp_step. split; [done|].
    eexists. split; [done|]. intros c Hc. by rewrite (Hc' c Hc). }
  intros r1 s1 t1 (-> & ns_env & -> & Hns).
  wp_step. eapply wp_mono with (P := fun r s' _ => s' = s /\ exists es, r = Ret es
    /\ forall c, config_stable o c -> es = match source_override_spec self with
     | Some ov =>
         [env c "ACTION_SOURCE_KIND" (TriggerSourceKind_to_string (so_kind ov));
          env c "ACTION_SOURCE_NAME" (so_name ov);
          env c "ACTION_SOURCE_REF_TYPE" (to_refname (so_reference ov) None).1;
          env c "ACTION_SOURCE_REF_NAME" (to_refname (so_reference ov) None).2]
         ++ (if bool_decide (so_kind ov = KindGitRepo)
             then [env c "ACTION_SOURCE_NAMESPACE" ns] else [])
     | None => []
     end).
  { clear HQ. destruct (source_override_spec self) as [ov|]; [|apply wp_ret; eauto].
    destruct (to_refname (so_reference ov) None) as [ty' nm'].
    do 4 (wp_step; apply wp_format_env; intros ???).
    destruct (bool_decide (so_kind ov = KindGitRepo)).
    - do 2 wp_step. apply wp_format_env. intros config' ? Hc'. do 2 wp_step. split; [done|].
      eexists. split; [done|]. intros c Hc.
      repeat match goal with Hx : forall c, config_stable o c -> _ = c |- _ =>
        rewrite (Hx c Hc); clear Hx end. done.
    - do 3 wp_step. split; [done|]. eexists. split; [done|]. intros c Hc.
      repeat match goal with Hx : forall c, config_stable o c -> _ = c |- _ =>
        rewrite (Hx c Hc); clear Hx end. done. }
  intros r2 s2 t2 (-> & ov_envs & -> & Hov). wp_step. apply HQ. intros c Hc.
  rewrite (Hns c Hc), (Hov c Hc).
  assert (r = c) as -> by (subst r; apply Hc).
  repeat match goal with Hx : forall c, config_stable o c -> _ = c |- _ =>
    rewrite (Hx c Hc); clear Hx end. done.
Qed.

(** The arguments of the cloner for a source and a destination. *)
Definition expected_args self kind name source_ref destination : list string :=
  ["--kind"; TriggerSourceKind_to_string kind; "--source"; name;
   "--destination"; destination;
   (to_refname source_ref (Some "--")).1; (to_refname source_ref (Some "--")).2]
  ++ (if aj_preserve_git_folder (action_job_spec self) then ["--preserve-git-folder"] else [])
  ++ (if aj_enable_cloner_debug (action_job_spec self) then ["--debug"] else []).

(** Where a job works under a configuration. *)
Definition workdir_of self (config : RuntimeConfig) : string :=
  unwrap_or (mount_path (ac_workdir (rc_action config))) (aj_workdir (action_job_spec self)).

Lemma wp_cloner_args self kind name source_ref o (s : S) t Q :
  (forall t0 t', let args := expected_args self kind name source_ref
       (workdir_of self (o t0 GetConfig)) in Q (Ret args) s t') ->
  wp (get_gitrepo_cloner_args self kind name source_ref) o s t Q.
Proof.
  intros HQ. unfold get_gitrepo_cloner_args, expected_args in *. do 2 wp_step.
  specialize (HQ t). destruct (to_refname source_ref (Some "--")) as [ty nm]. wp_step. subst.
  apply HQ.
Qed.

(** What the cloner is told to fetch: the override, or the commit found. *)
Definition cloned_source self (source_kind : TriggerSourceKind) (source_name source_commit : string)
    : TriggerSourceKind * string * TriggerGitRepoReference :=
  match source_override_spec self with
  | Some ov => (so_kind ov, so_name ov, so_reference ov)
  | None => (source_kind, source_name, Commit source_commit)
  end.

Definition name_shape self (name : string) : Prop :=
  exists now suffix, String.length suffix = 2
    /\ name = to_lowercase (action_name_any self ^^ "-" ^^ local_timestamp now ^^ "-" ^^ suffix).

(** The label of the job's origin under the key [k]. *)
Definition origin_label self (source_kind : TriggerSourceKind)
    (source_name trigger_kind trigger_name k : string) : option string :=
  if decide (k = ACTION_JOB_TRIGGER_KIND_LABEL) then Some trigger_kind
  else if decide (k = ACTION_JOB_TRIGGER_NAME_LABEL) then Some trigger_name
  else if decide (k = ACTION_JOB_SOURCE_KIND_LABEL)
  then Some (TriggerSourceKind_to_string source_kind)
  else if decide (k = ACTION_JOB_SOURCE_NAME_LABEL) then Some source_name
  else if decide (k = ACTION_JOB_ACTION_KIND_LABEL) then Some (action_crd_kind (A:=A))
  else if decide (k = ACTION_JOB_ACTION_NAME_LABEL) then Some (action_name_any self)
  else None.

(** Every label is the user's, or else that of the origin. *)
Lemma job_labels_values self source_kind source_name trigger_kind trigger_name k :
  job_labels self source_kind source_name trigger_kind trigger_name !! k
  = match aj_labels (action_job_spec self) ≫= (.!! k) with
    | Some value => Some value
    | None => origin_label self source_kind source_name trigger_kind trigger_name k
    end.
Proof.
  unfold job_labels, origin_label.
  set (own := <[ACTION_JOB_TRIGGER_NAME_LABEL := trigger_name]> _).
  assert (Hown : own !! k = origin_label self source_kind source_name trigger_kind trigger_name k).
  { unfold own, origin_label. rewrite !lookup_insert, lookup_empty.
    by repeat (case_decide; subst; try done). }
  unfold origin_label in Hown. rewrite <- Hown.
  destruct (aj_labels (action_job_spec self)) as [labels|]; [|done]. simpl.
  rewrite lookup_union. by destruct (labels !! k), (own !! k).
Qed.

(** The containers as the configuration [c] completes the action. *)
Definition completed_from self (c : RuntimeConfig) (cloner worker : Container) (mount : VolumeMount)
    : Prop :=
  let aj := action_job_spec self in
  let ac := rc_action c in
  ct_name cloner = cloner_name (cc_cloner (ac_containers ac))
  /\ ct_image cloner = Some (unwrap_or (cloner_image (cc_cloner (ac_containers ac)))
                              (aj_cloner_image aj))
  /\ ct_name worker = worker_name (cc_worker (ac_containers ac))
  /\ ct_image worker = Some (unwrap_or (worker_image (cc_worker (ac_containers ac)))
                              (aj_action_image aj))
  /\ vm_name mount = volume_name (ac_workdir ac)
  /\ vm_mount_path mount = unwrap_or (mount_path (ac_workdir ac)) (aj_workdir aj).

(** The parts of a pod that matter here, for a job of this action. *)
Record job_facts o self source_kind source_name source_commit trigger_ref ns trigger_kind
    trigger_name owner (job : Job) (spec : JobSpec) (pod : PodSpec) (cloner worker : Container)
    (mount : VolumeMount) : Prop := {
  jf_name : exists name, om_name (job_metadata job) = Some name /\ name_shape self name;
  jf_labels : om_labels (job_metadata job)
    = Some (job_labels self source_kind source_name trigger_kind trigger_name);
  jf_label_values : forall k, om_labels (job_metadata job) ≫= (.!! k)
    = match aj_labels (action_job_spec self) ≫= (.!! k) with
      | Some value => Some value
      | None => origin_label self source_kind source_name trigger_kind trigger_name k
      end;
  jf_annotations : om_annotations (job_metadata job) = aj_annotations (action_job_spec self);
  jf_owner : om_owner_references (job_metadata job) = Some [owner];
  jf_spec : job_spec job = Some spec;
  jf_pod : pt_spec (jspec_template spec) = Some pod;
  jf_once : jspec_backoff_limit spec = Some 0%Z /\ jspec_parallelism spec = Some 1%Z
    /\ ps_restart_policy pod = Some "Never";
  jf_containers : ps_init_containers pod = Some [cloner] /\ ps_containers pod = [worker];
  jf_mounts : ct_volume_mounts cloner = Some [mount] /\ ct_volume_mounts worker = Some [mount]
    /\ ct_working_dir worker = Some (vm_mount_path mount)
    /\ ps_volumes pod = Some [{| vol_name := vm_name mount; vol_empty_dir := true |}];
  jf_completed : exists t, completed_from self (o t GetConfig) cloner worker mount;
  jf_own : let aj := action_job_spec self in
    ct_command worker = aj_command aj /\ ct_args worker = aj_args aj
    /\ ct_command cloner = None /\ ct_env cloner = None
    /\ ps_node_selector pod = aj_node_selector aj /\ ps_affinity pod = aj_affinity aj
    /\ ps_tolerations pod = aj_tolerations aj
    /\ ((pt_metadata (jspec_template spec) ≫= om_labels) = aj_labels aj)
    /\ ((pt_metadata (jspec_template spec) ≫= om_annotations) = aj_annotations aj);
  jf_args : let '(kind, name, source_ref) := cloned_source self source_kind source_name
      source_commit in
    exists t, ct_args cloner
      = Some (expected_args self kind name source_ref (workdir_of self (o t GetConfig)));
  jf_stable : forall c, config_stable o c ->
    let aj := action_job_spec self in
    let '(kind, name, source_ref) := cloned_source self source_kind source_name source_commit in
    completed_from self c cloner worker mount
    /\ ct_args cloner = Some (expected_args self kind name source_ref (vm_mount_path mount))
    /\ ct_env worker = Some (expected_envs c self source_kind source_name source_commit
         trigger_ref ns trigger_kind trigger_name)
    /\ jspec_ttl_seconds_after_finished spec
       = Some (unwrap_or (ttl_seconds_after_finished (rc_action c))
                 (aj_ttl_seconds_after_finished aj))
    /\ jspec_active_deadline_seconds spec
       = Some (unwrap_or (active_deadline_seconds (rc_action c))
                 (aj_active_deadline_seconds aj))
    /\ ps_service_account_name pod
       = match aj_service_account aj with
         | Some sa => Some sa
         | None => default_service_account (rc_action c)
         end }.

Lemma wp_create_job_spec self source_kind source_name source_commit trigger_ref ns
    trigger_kind trigger_name o (s : S) t Q :
  (owner_ref self = None -> forall t', Q Panic s t') ->
  (forall job spec pod cloner worker mount owner t', owner_ref self = Some owner ->
     job_facts o self source_kind source_name source_commit trigger_ref ns trigger_kind
       trigger_name owner job spec pod cloner worker mount -> Q (Ret (Ok job)) s t') ->
  wp (create_job_spec self source_kind source_name source_commit trigger_ref ns trigger_kind
        trigger_name) o s t Q.
Proof.
  intros Qpanic Qok. unfold create_job_spec.
  do 2 wp_step. wp_step.
  eapply wp_mono with (P := fun r s' _ => s' = s /\ exists args, r = Ret args /\
      let '(kind, name, source_ref) := cloned_source self source_kind source_name source_commit in
      exists t0, args = expected_args self kind name source_ref
        (workdir_of self (o t0 GetConfig))).
  { unfold cloned_source. destruct (source_override_spec self);
      apply wp_cloner_args; intros t0 ?; eauto. }
  intros r1 s1 t1 (-> & args & -> & Hargs). wp_step.
  eapply wp_mono with (P := fun r s' _ => s' = s /\ exists sa, r = Ret sa /\
    forall c, config_stable o c -> sa = match aj_service_account (action_job_spec self) with
         | Some sa => Some sa
         | None => default_service_account (rc_action c)
         end).
  { destruct (aj_service_account (action_job_spec self)); [apply wp_ret; eauto|].
    do 3 wp_step. split; [done|]. eexists. split; [reflexivity|]. intros c Hc.
    match goal with E : ?r = o _ GetConfig |- context [?r] =>
      rewrite (config_is _ _ _ _ Hc E) end. reflexivity. }
  intros r2 s2 t2 (-> & sa & -> & Hsa).
  do 4 wp_step. wp_step. unfold job_name at 1. do 3 wp_step.
  apply wp_random_string. intros suffix t3 Hsuffix. wp_step.
  wp_step. unfold get_owner_reference at 1. wp_step.
  destruct (owner_ref self) as [owner|]; [|by apply Qpanic].
  wp_step. apply wp_envs. intros envs t4 Henvs. wp_step.
  eapply Qok; [done|]. split; simpl; try reflexivity.
  - eexists. split; [done|]. by eexists _, suffix.
  - intros k. apply job_labels_values.
  - by repeat split.
  - by split.
  - by repeat split.
  - exists t. match goal with E : ?r = o t GetConfig |- _ => rewrite <- E end. by repeat split.
  - by destruct (aj_labels (action_job_spec self)), (aj_annotations (action_job_spec self)).
  - destruct (cloned_source self source_kind source_name source_commit) as [[kind name] sref].
    destruct Hargs as [t0 ->]. by exists t0.
  - intros c Hc. specialize (Hsa c Hc). specialize (Henvs c Hc).
    destruct (cloned_source self source_kind source_name source_commit) as [[kind name] sref].
    destruct Hargs as [t0 ->]. rewrite (Hc t0). unfold workdir_of. rewrite Hsa, Henvs, (config_is _ _ _ _ Hc H0), (config_is _ _ _ _ Hc H1),
      (config_is _ _ _ _ Hc H2).
    split; [by repeat split|]. by repeat split.
Qed.

(** C18. The job made for an action, whatever the configuration answers in
    between: named after the action, owned by it, labelled with the kinds and
    names of the trigger, the source and the action unless the action's own
    labels replace them, run once and never restarted, with one cloner and one
    worker that share a single scratch volume; the images of the cloner and of
    the worker are the action's own, each for its container, or else those of
    a configuration that was read, as are the names of the containers and the
    volume; the worker's command, arguments and placement are the action's
    own.  When the configuration does not change meanwhile, the cloner writes
    where the volume is mounted, it is told to fetch the overriding source or
    else the commit that was found, and limits, account and variables are the
    action's own values or else the configured ones.  Composing the job only
    panics for an action without an owner reference. *)
Theorem create_job_spec_facts self source_kind source_name source_commit trigger_ref ns
    trigger_kind trigger_name o (s : S) t :
  wp (create_job_spec self source_kind source_name source_commit trigger_ref ns
        trigger_kind trigger_name) o s t (fun r s' _ => s' = s /\
    match owner_ref self with
    | None => r = Panic
    | Some owner => exists job spec pod cloner worker mount, r = Ret (Ok job) /\
        job_facts o self source_kind source_name source_commit trigger_ref ns trigger_kind
          trigger_name owner job spec pod cloner worker mount
    end).
Proof.
  apply wp_create_job_spec; [by intros ->|].
  intros job spec pod cloner worker mount owner t' Howner Hjob. rewrite Howner. eauto 10.
Qed.

Lemma job_labels_lookup self source_kind source_name trigger_kind trigger_name k :
  k ∈ measured_labels ->
  is_Some (job_labels self source_kind source_name trigger_kind trigger_name !! k).
Proof.
  intros Hk. unfold job_labels.
  assert (Hown : forall l : gmap string string, is_Some (l !! k) ->
    is_Some (match aj_labels (action_job_spec self) with
             | Some additional => additional ∪ l | None => l end !! k)).
  { intros l Hl. destruct (aj_labels _); [|done]. rewrite lookup_union_is_Some. auto. }
  apply Hown. rewrite !lookup_insert_is_Some'. unfold measured_labels in Hk.
  rewrite !elem_of_cons in Hk.
  destruct Hk as [->|[->|[->|[->|[->|[->|Hk]]]]]]; [tauto..|by apply elem_of_nil in Hk].
Qed.
End of_action.

(** What is known of the queue item that an execution adds. *)
Record item_facts {A} `{!ActionInternals A} (self : A) source_kind source_name ns trigger_kind
    trigger_name (id : string) (item : JobsQueueItem) : Prop := {
  if_measurable : measurable (item_job item);
  if_namespace : om_namespace (job_metadata (item_job item)) = Some ns;
  if_owner : om_owner_references (job_metadata (item_job item))
             = (fun owner => [owner]) <$> owner_ref self;
  if_labels : forall k, om_labels (job_metadata (item_job item)) ≫= (.!! k)
    = if decide (k = ACTION_JOB_IDENTITY_LABEL) then Some id
      else job_labels self source_kind source_name trigger_kind trigger_name !! k;
  if_expire : expire_after item
              = from_secs <$> aj_job_waiting_timeout_seconds (action_job_spec self) }.

(** The item an execution adds holds the composed job. *)
Record made_by {A} `{!ActionInternals A} o (self : A) source_kind source_name source_commit
    trigger_ref ns trigger_kind trigger_name (id : string) (item : JobsQueueItem) : Prop := {
  mb_facts : item_facts self source_kind source_name ns trigger_kind trigger_name id item;
  mb_job : exists job spec pod cloner worker mount owner,
    item_job item = labelled_job id ns job /\ owner_ref self = Some owner
    /\ job_facts o self source_kind source_name source_commit trigger_ref ns trigger_kind
         trigger_name owner job spec pod cloner worker mount }.

(** What composing a job asks for. *)
Definition composing (c : Call) : bool :=
  match c with GetConfig | RandAlphanumeric | SystemNow => true | _ => false end.

Lemma create_job_spec_calls {S A} `{!ActionInternals A} (P : event resp -> Prop) (self : A) sk sn
    sc tr ns tk tn :
  (forall (c : Call) r, composing c = true -> P (Ev c r)) ->
  calls_in P (create_job_spec (S:=S) self sk sn sc tr ns tk tn).
Proof.
  intros HP. unfold create_job_spec, get_gitrepo_cloner_args, job_name, get_owner_reference,
    get_action_job_envs, format_action_job_env_var. simpl random_string.
  destruct (to_refname tr None).
  repeat (first [by apply HP | calls_step | case_match]).
Qed.

Lemma wp_create_job_spec_extends {S A} `{!ActionInternals A} (self : A) sk sn sc tr ns tk tn o
    (s : S) t Q :
  (owner_ref self = None -> forall t', Q Panic s t') ->
  (forall job spec pod cloner worker mount owner new, owner_ref self = Some owner ->
     job_facts o self sk sn sc tr ns tk tn owner job spec pod cloner worker mount ->
     Q (Ret (Ok job)) s (t ++ new)) ->
  wp (create_job_spec self sk sn sc tr ns tk tn) o s t Q.
Proof.
  intros Qpanic Qok. eapply wp_mono; [apply wp_and;
    [by apply (create_job_spec_calls (fun _ => True))|
     apply wp_create_job_spec with (Q := fun r s' t' => forall new, t' = t ++ new -> Q r s' t')]|].
  - auto.
  - intros job spec pod cloner worker mount owner _ Howner Hjob new ->. eauto.
  - intros r s' t' [(new & -> & _) HQ]. by apply HQ with new.
Qed.

Lemma wp_execute {A} `{!ActionInternals A} (self : A) source_kind source_name source_commit
    trigger_ref ns trigger_kind trigger_name o s t Q :
  (owner_ref self = None -> forall t', Q Panic s t') ->
  (jobs_queue s = None -> forall t',
     Q (Ret (Err (JobsQueueError "jobs queue isn't initialized"))) s t') ->
  (forall owner q item new, owner_ref self = Some owner -> jobs_queue s = Some q ->
     made_by o self source_kind source_name source_commit trigger_ref ns trigger_kind
       trigger_name (identity q) item ->
     Q (Ret (if queue_event_alive q then Ok tt else Err (JobsQueueError "channel closed")))
       {| api_cache := api_cache s; secret_cache := secret_cache s;
          jobs_queue := Some (enqueued q item) |} (t ++ new ++ [Ev SystemNow (enqueued_at item)])) ->
  wp (execute self source_kind source_name source_commit trigger_ref ns trigger_kind
        trigger_name) o s t Q.
Proof.
  intros Qpanic Qnone Qok. unfold execute. wp_step. apply wp_create_job_spec_extends; [done|].
  intros job spec pod cloner worker mount owner new Howner Hjob.
  apply wp_zoom, wp_enqueue; simpl.
  - intros Hq. specialize (Qnone Hq (t ++ new)). destruct s; simpl in *. by subst.
  - intros q now Hq. set (item := {| item_job := _ |}).
    rewrite <- app_assoc.
    apply (Qok owner q item new); [done|done|].
    assert (Hlab : forall k, om_labels (job_metadata (item_job item)) ≫= (.!! k)
              = if decide (k = ACTION_JOB_IDENTITY_LABEL) then Some (identity q)
                else job_labels self source_kind source_name trigger_kind trigger_name !! k).
    { intros k. destruct (labelled_job_labels (identity q) ns job k) as (l & Hl & Hlk).
      subst item. simpl item_job. rewrite Hl. simpl. rewrite Hlk.
      by rewrite (jf_labels _ _ _ _ _ _ _ _ _ _ _ _ _ _ _ _ Hjob). }
    split; [|by eauto 10]. split; [|done| |done|done].
    + split; [by eexists|].
      destruct (om_labels (job_metadata (item_job item))) as [labels|] eqn:Hl; [|done].
      exists labels. split; [done|]. rewrite Forall_forall. intros k Hk.
      specialize (Hlab k). simpl in Hlab. rewrite Hlab.
      case_decide; [by eexists|by apply job_labels_lookup].
    + rewrite Howner. apply (jf_owner _ _ _ _ _ _ _ _ _ _ _ _ _ _ _ _ Hjob).
Qed.

(** Running an action puts exactly one job at the tail of the queue, in
    the namespace of the trigger: it carries the identity of this controller,
    its labels are the user's where given and the program's otherwise, and
    whatever the user set, the metrics find every label they unwrap.  The
    queue is left alone when the action has no owner reference (a panic) or
    was never initialised (an error). *)
Theorem execute_enqueues {A} `{!ActionInternals A} (self : A) source_kind source_name
    source_commit trigger_ref ns trigger_kind trigger_name o s t :
  wp (execute self source_kind source_name source_commit trigger_ref ns trigger_kind
        trigger_name) o s t (fun r s' _ =>
    api_cache s' = api_cache s /\ secret_cache s' = secret_cache s /\
    ((r = Panic /\ owner_ref self = None /\ s' = s)
     \/ (r = Ret (Err (JobsQueueError "jobs queue isn't initialized"))
         /\ jobs_queue s = None /\ s' = s)
     \/ exists q q' item, jobs_queue s = Some q /\ jobs_queue s' = Some q'
        /\ queue_jobs q' = queue_jobs q ++ [item]
        /\ running_jobs q' = running_jobs q /\ statuses q' = statuses q
        /\ item_facts self source_kind source_name ns trigger_kind trigger_name
             (identity q) item
        /\ r = Ret (if queue_event_alive q then Ok tt
                    else Err (JobsQueueError "channel closed")))).
Proof.
  apply wp_execute; [by auto 10..|].
  intros owner q item t' Howner Hq [Hitem _]. split; [done|]. split; [done|].
  right. right. exists q, (enqueued q item), item. unfold enqueued.
  split; [done|]. split; [done|]. by destruct (queue_event_alive q).
Qed.

(** Job names: lower case, and 19 characters longer than the name of
    the action, given the 15 characters of the timestamp format. *)
Theorem job_name_bounds {S A} `{!ActionInternals A} (self : A) o (s : S) t :
  (forall now, String.length (local_timestamp now) = 15) ->
  wp (job_name self) o s t (fun r s' _ => s' = s /\ exists name, r = Ret name
    /\ String.length name = String.length (action_name_any self) + 19
    /\ forall_chars (fun c => negb (in_range 65 90 c)) name = true).
Proof.
  intros Hts. unfold job_name. do 3 wp_step. apply wp_random_string.
  intros suffix t' Hs. wp_step. split; [done|]. eexists. split; [done|].
  split; [|apply to_lowercase_no_upper].
  rewrite to_lowercase_length, !string_length_append, Hts, Hs. simpl. lia.
Qed.
End ActionFacts.

Lemma job_name_bounds_witness :
  let ext := example_ext in
  wp (job_name (A:=Action) {| ac_name := "Build"; ac_owner_ref := None;
        ac_source_override := None; ac_action_job := ActionJob_default |})
     (quiet_services 0%Z RuntimeConfig_default) tt []
     (fun r s' _ => s' = tt /\ exists name, r = Ret name
      /\ String.length name = String.length "Build" + 19
      /\ forall_chars (fun c => negb (in_range 65 90 c)) name = true).
Proof.
  intros ext.
  exact (job_name_bounds (S:=unit) (A:=Action) {| ac_name := "Build"; ac_owner_ref := None;
    ac_source_override := None; ac_action_job := ActionJob_default |}
    (quiet_services 0%Z RuntimeConfig_default) tt [] (fun _ => eq_refl)).
Defined.

