(* ===== verification/GitRepo.v ===== *)
(** * Git repositories (src/src/resources/git_repo.rs)

    Which secrets a fetch needs and where they come from, the callbacks and
    options that are handed to libgit2, and the fetch itself; the validation
    pattern of repository URIs. *)

From stdpp Require Import base option gmap sets strings list.
From Stdlib Require Import Ascii ZArith Lia Permutation.
From S2P Require Import Prelude Strs Time Errors Config Ext Resources World Regex Cache.
Local Open Scope string_scope.
Local Open Scope list_scope.
Local Open Scope prog_scope.

Inductive GitRepoUriSchema : Type := Http | Https | SchemaSsh | SchemaGit.

#[export] Instance GitRepoUriSchema_eq_dec : EqDecision GitRepoUriSchema.
Proof. solve_decision. Defined.

Fixpoint starts_with (p s : string) : bool :=
  match p, s with
  | EmptyString, _ => true
  | String a p, String b s => Ascii.eqb a b && starts_with p s
  | String _ _, EmptyString => false
  end.

(** The trait [GitRepoInternals]. *)
Class GitRepoInternals (R : Type) := {
  repo_auth_config : R -> option GitAuthConfig;
  repo_tls_config : R -> option TlsConfig;
  repo_uri : R -> string;
  is_namespaced : bool }.

#[global] Arguments is_namespaced R {_}.

#[export] Instance GitRepo_internals : GitRepoInternals GitRepo := {
  repo_auth_config := gr_auth_config;
  repo_tls_config := gr_tls_config;
  repo_uri := gr_repo_uri;
  is_namespaced := true }.

#[export] Instance ClusterGitRepo_internals : GitRepoInternals ClusterGitRepo := {
  repo_auth_config := cgr_auth_config;
  repo_tls_config := cgr_tls_config;
  repo_uri := cgr_repo_uri;
  is_namespaced := false }.

(** [panic!] on an unknown schema is [None]. *)
Definition uri_schema (uri : string) : option GitRepoUriSchema :=
  if starts_with "http://" uri then Some Http
  else if starts_with "https://" uri then Some Https
  else if starts_with "ssh://" uri then Some SchemaSsh
  else if starts_with "git@" uri then Some SchemaGit
  else None.

(** ** Callbacks *)

(** What a credentials callback gives libgit2 when a server asks: indexing
    the captured map panics on a missing key. *)
Inductive Cred : Type :=
| UserpassPlaintext (username password : string)
| SshKeyFromMemory (username private_key : string).

Definition credentials_callback (cb : CredentialsCallback) (username_from_url : option string)
    : outcome Cred :=
  match cb with
  | CredUserpass secrets =>
      match secrets !! "username", secrets !! "password" with
      | Some u, Some p => Ret (UserpassPlaintext u p)
      | _, _ => Panic
      end
  | CredSshKey secrets =>
      match secrets !! "private_key" with
      | Some k => Ret (SshKeyFromMemory (unwrap_or "git" username_from_url) k)
      | None => Panic
      end
  end.

Inductive CertificateCheckStatus : Type := StatusOk | StatusPassthrough.

(** What a certificate callback decides.  For the custom CA the verifier is
    rustls': whether it could be built from the roots, whether the certificate
    is an X.509 one, whether the host name parses, whether it verifies. *)
Definition certificate_callback (cb : CertificateCheck)
    (builds is_x509 hostname_ok verifies : bool) : result string CertificateCheckStatus :=
  match cb with
  | CertificateOk => Ok StatusOk
  | CertificatePassthrough => Ok StatusPassthrough
  | CertificateCustomCa _ =>
      if negb builds then Err "unable to build root CA store"
      else if negb is_x509 then Err "unable to parse x509 certificate data"
      else if negb hostname_ok then Err "unable to get server name"
      else if verifies then Ok StatusOk else Ok StatusPassthrough
  end.

Section GitRepo.
Context `{Ext}.

(** The loop of [get_secret_strings] over the requested keys. *)
Fixpoint collect_secrets (secret_name : string) (data : gmap string string)
    (keys : list (string * string)) (secrets : gmap string string)
    : result Error (gmap string string) :=
  match keys with
  | [] => Ok secrets
  | (secret_key, expected_key) :: keys =>
      match data !! secret_key with
      | None =>
          Err (SecretDecodingError ("no `" ^^ secret_key ^^ "` key in the secret `"
                 ^^ secret_name ^^ "`"))
      | Some secret_data =>
          match from_utf8 secret_data with
          | Err _ => Err (utf8_error secret_key secret_name)
          | Ok secret_data =>
              collect_secrets secret_name data keys (<[expected_key := secret_data]> secrets)
          end
      end
  end.

(** [secret_keys] is a [HashMap]: its iteration order decides which missing
    key is reported. *)
Definition get_secret_strings {S} (secret_name : string) (secret_keys : gmap string string)
    (ns : string) : io S (result Error (gmap string string)) :=
  secret_ref <-- call (GetSecret ns secret_name) ;;
  match (secret_ref : result KubeErr Secret) with
  | Err e => ret (Err (KubeError e))
  | Ok None =>
      ret (Err (SecretDecodingError ("no `data` part in the secret `" ^^ secret_name ^^ "`")))
  | Ok (Some data) =>
      order <-- call (HashMapOrder secret_keys) ;;
      ret (collect_secrets secret_name data (proj1_sig order) ∅)
  end.

(** The keys a repository's authentication needs. *)
Definition auth_secret_keys (auth_config : GitAuthConfig) : gmap string string :=
  match auth_type auth_config with
  | Basic =>
      <[key_password (auth_keys auth_config) := "password"]>
        (<[key_username (auth_keys auth_config) := "username"]> ∅)
  | Token => <[key_token (auth_keys auth_config) := "token"]> ∅
  | Ssh => <[key_private_key (auth_keys auth_config) := "private_key"]> ∅
  end.

Section getter.
Context {S R : Type} `{!GitRepoInternals R}.

(** A namespaced repository may only read secrets of its own namespace. *)
Definition secret_namespace (secret_ref : GitSecretRef) (secrets_ns : string) : string :=
  if is_namespaced R then secrets_ns
  else unwrap_or secrets_ns (sr_namespace secret_ref).

Definition fetch_auth_secrets (self : R) (secrets_ns : string)
    : io S (result Error (gmap string string)) :=
  match repo_auth_config self with
  | Some auth_config =>
      get_secret_strings (sr_name (auth_secret_ref auth_config))
        (auth_secret_keys auth_config)
        (secret_namespace (auth_secret_ref auth_config) secrets_ns)
  | None => ret (Ok ∅)
  end.

Definition fetch_tls_secrets (self : R) (secrets_ns : string)
    : io S (result Error (gmap string string)) :=
  match repo_tls_config self with
  | Some tls_config =>
      match ca_cert tls_config with
      | Some ca_cert =>
          get_secret_strings (sr_name (ca_secret_ref ca_cert)) (<[ca_key ca_cert := "ca.crt"]> ∅)
            (secret_namespace (ca_secret_ref ca_cert) secrets_ns)
      | None => ret (Ok ∅)
      end
  | None => ret (Ok ∅)
  end.

(** Credentials callback and extra headers; [auth_secrets["token"]] is an
    index that panics on a missing key. *)
Definition setup_auth (self : R) (auth_secrets : gmap string string)
    : io S (option CredentialsCallback * list string) :=
  match repo_auth_config self with
  | Some auth_config =>
      match auth_type auth_config with
      | Basic => ret (Some (CredUserpass auth_secrets), [])
      | Token =>
          token <-- unwrap (auth_secrets !! "token") ;;
          ret (None, ["Authorization: " ^^ token])
      | Ssh => ret (Some (CredSshKey auth_secrets), [])
      end
  | None => ret (None, [])
  end.

Definition setup_certificate_check (self : R) (tls_secrets : gmap string string)
    : io S (option CertificateCheck) :=
  schema <-- unwrap (uri_schema (repo_uri self)) ;;
  match schema with
  | Http => ret None
  | SchemaSsh | SchemaGit => ret (Some CertificateOk)
  | Https =>
      match repo_tls_config self with
      | Some tls_config =>
          if no_verify_ssl tls_config then ret (Some CertificateOk)
          else if bool_decide (is_Some (ca_cert tls_config)) then
            ca <-- unwrap (tls_secrets !! "ca.crt") ;;
            native <-- call LoadNativeCerts ;;
            match (native : result string unit) with
            | Err _ => panic
            | Ok _ => ret (Some (CertificateCustomCa ca))
            end
          else ret (Some CertificatePassthrough)
      | None => ret None
      end
  end.

(** The end of [fetch_repo_ref]: the repository is created at [path] and its
    remote fetched with the options. *)
Definition fetch_origin (self : R) (ref_name path : string) (opts : FetchOptions)
    : io S (result Error unit) :=
  init <-- call (GitInit path (repo_uri self)) ;;
  match (init : result string unit) with
  | Err e => ret (Err (GitrepoAccessError e))
  | Ok _ =>
      remote <-- call (GitFindRemote path "origin") ;;
      match (remote : result string unit) with
      | Err e => ret (Err (GitrepoAccessError e))
      | Ok _ =>
          fetched <-- call (GitFetch path ref_name opts) ;;
          match (fetched : result string unit) with
          | Err e => ret (Err (GitrepoAccessError e))
          | Ok _ => ret (Ok tt)
          end
      end
  end.

(** [fetch_repo_ref]; the repository that is returned is the one at [path]. *)
Definition fetch_repo_ref (self : R) (ref_name path secrets_ns : string)
    : io S (result Error unit) :=
  auth_secrets <-? fetch_auth_secrets self secrets_ns ;;
  tls_secrets <-? fetch_tls_secrets self secrets_ns ;;
  auth <-- setup_auth self auth_secrets ;;
  let '(credentials, custom_headers) := auth in
  certificate_check <-- setup_certificate_check self tls_secrets ;;
  schema <-- unwrap (uri_schema (repo_uri self)) ;;
  let depth := match schema with Http | Https => 1%Z | SchemaSsh | SchemaGit => 0%Z end in
  let opts := {| fo_custom_headers := custom_headers; fo_credentials := credentials;
                 fo_certificate_check := certificate_check; fo_depth := depth |} in
  fetch_origin self ref_name path opts.
End getter.
End GitRepo.

(** ** The validation pattern of repository URIs

    The CRD schema carries [URI_VALIDATION_REGEX]; the API server rejects a
    resource whose URI does not match. *)

Definition is_digit (c : ascii) : bool := in_range 48 57 c.
Definition word_char (c : ascii) : bool :=
  is_digit c || in_range 65 90 c || in_range 97 122 c || Ascii.eqb c "_".

(** [\w.-] and the larger classes of the paths. *)
Definition name_char (c : ascii) : bool := word_char c || Ascii.eqb c "." || Ascii.eqb c "-".
Definition path_char (c : ascii) : bool := name_char c || Ascii.eqb c "/".
Definition query_char (c : ascii) : bool :=
  path_char c || Ascii.eqb c "%" || Ascii.eqb c "&" || Ascii.eqb c "=" || Ascii.eqb c "?".

(** [(:[\d]{1,5})?], then [(/([...]+)?)?] over a class. *)
Definition port_regex : regex :=
  let d := RChr is_digit in
  ROpt (RLit ":" (RCat d (ROpt (RCat d (ROpt (RCat d (ROpt (RCat d (ROpt d))))))))).

Definition tail_regex (p : ascii -> bool) : regex :=
  ROpt (RLit "/" (ROpt (RPlus (RChr p)))).

Definition URI_VALIDATION_REGEX : regex :=
  let name := RPlus (RChr name_char) in
  RAlt (RLit "git@" (RCat name (RLit ":" (RCat name (RLit "/" (RPlus (RChr path_char)))))))
  (RAlt (RLit "ssh://" (RCat (ROpt (RCat name (RLit "@" REps)))
           (RCat name (RCat port_regex (tail_regex path_char)))))
        (RLit "http" (RCat (ROpt (RLit "s" REps))
           (RLit "://" (RCat name (RCat port_regex (tail_regex query_char))))))).

(** ** Theorems *)

(** What the pattern says, without the pattern: a port of one to five digits
    or none, and a slash with characters of a class behind it or nothing. *)
Definition port_part (s : string) : Prop :=
  s = "" \/ exists digits, s = String ":" digits /\ some_chars is_digit digits
    /\ String.length digits <= 5.

Definition tail_part (p : ascii -> bool) (s : string) : Prop :=
  s = "" \/ exists rest, s = String "/" rest /\ forall_chars p rest = true.

Definition accepted_uri (uri : string) : Prop :=
  (exists host org path, uri = "git@" ^^ host ^^ ":" ^^ org ^^ "/" ^^ path
     /\ some_chars name_char host /\ some_chars name_char org /\ some_chars path_char path)
  \/ (exists user host port tail, uri = "ssh://" ^^ user ^^ host ^^ port ^^ tail
     /\ (user = "" \/ exists name, user = name ^^ "@" /\ some_chars name_char name)
     /\ some_chars name_char host /\ port_part port /\ tail_part path_char tail)
  \/ (exists s host port tail, uri = "http" ^^ s ^^ "://" ^^ host ^^ port ^^ tail
     /\ (s = "" \/ s = "s")
     /\ some_chars name_char host /\ port_part port /\ tail_part query_char tail).

(** [s] is made of at most [n] digits. *)
Definition up_to_digits (n : nat) (s : string) : Prop :=
  forall_chars is_digit s = true /\ String.length s <= n.

Lemma matches_digit s :
  matches (ROpt (RChr is_digit)) s <-> up_to_digits 1 s.
Proof.
  rewrite matches_opt_iff, matches_chr_iff. unfold up_to_digits. split.
  - intros [->|(c & -> & Hc)]; simpl; [split; [done|lia]|]. rewrite Hc. split; [done|lia].
  - intros [Hs Hlen]. destruct s as [|c [|d s]]; simpl in *; [by left| |lia].
    apply andb_true_iff in Hs as [Hc _]. right. by exists c.
Qed.

(** A digit in front of at most [n] of them. *)
Lemma matches_digit_cat r n s :
  (forall s, matches r s <-> up_to_digits n s) ->
  matches (RCat (RChr is_digit) r) s <-> s <> "" /\ up_to_digits (S n) s.
Proof.
  intros Hr. rewrite matches_cat_iff. setoid_rewrite matches_chr_iff. setoid_rewrite Hr.
  unfold up_to_digits. split.
  - intros (s1 & s2 & -> & (c & -> & Hc) & Hs2 & Hlen). change (String c "" ^^ s2) with (String c s2).
    simpl. rewrite Hc. split; [done|]. split; [done|lia].
  - intros (Hne & Hs & Hlen). destruct s as [|c s]; [done|]. simpl in *.
    apply andb_true_iff in Hs as [Hc Hs]. exists (String c ""), s.
    split; [done|]. split; [by exists c|]. split; [done|lia].
Qed.

Lemma matches_digit_opt r n s :
  (forall s, matches r s <-> up_to_digits n s) ->
  matches (ROpt (RCat (RChr is_digit) r)) s <-> up_to_digits (S n) s.
Proof.
  intros Hr. rewrite matches_opt_iff, (matches_digit_cat r n) by done. split.
  - intros [->|[_ ?]]; [|done]. split; simpl; [done|lia].
  - intros Hs. destruct (decide (s = "")); [by left|by right].
Qed.

Lemma matches_port s : matches port_regex s <-> port_part s.
Proof.
  unfold port_regex, port_part, some_chars.
  rewrite matches_opt_iff, matches_lit_iff. apply or_iff_compat_l.
  apply Morphisms_Prop.ex_iff_morphism. intros digits. simpl.
  rewrite (matches_digit_cat _ 4) by (intros; repeat (apply matches_digit_opt; intros);
    apply matches_digit).
  unfold up_to_digits. tauto.
Qed.

Lemma matches_tail p s : matches (tail_regex p) s <-> tail_part p s.
Proof.
  unfold tail_regex, tail_part. rewrite matches_opt_iff, matches_lit_iff.
  setoid_rewrite matches_opt_iff. setoid_rewrite matches_plus_chr. simpl.
  apply or_iff_compat_l. split; intros (rest & -> & Hrest); exists rest; (split; [done|]).
  - destruct Hrest as [->|[_ ?]]; done.
  - destruct (decide (rest = "")); [by left|by right].
Qed.

#[local] Opaque RLit RPlus ROpt port_regex tail_regex.

Lemma uri_pattern_iff uri :
  regex_match URI_VALIDATION_REGEX uri = true <-> accepted_uri uri.
Proof.
  rewrite regex_match_correct. unfold URI_VALIDATION_REGEX, accepted_uri.
  rewrite !matches_alt_iff, !matches_lit_iff.
  repeat setoid_rewrite matches_cat_iff. repeat setoid_rewrite matches_lit_iff.
  setoid_rewrite matches_opt_iff. repeat setoid_rewrite matches_cat_iff.
  repeat setoid_rewrite matches_lit_iff. setoid_rewrite matches_eps_iff.
  repeat setoid_rewrite matches_plus_chr. repeat setoid_rewrite matches_port.
  repeat setoid_rewrite matches_tail.
  apply Morphisms_Prop.or_iff_morphism; [|apply Morphisms_Prop.or_iff_morphism].
  - split.
    + intros (? & -> & host & ? & -> & ? & ? & -> & org & ? & -> & ? & path & -> & ?).
      by exists host, org, path.
    + intros (host & org & path & -> & ? & ? & ?). eauto 20.
  - split.
    + intros (? & -> & user & ? & -> & Huser & host & ? & -> & ? & port & tail & -> & ? & ?).
      exists user, host, port, tail. split; [done|]. split; [|done].
      destruct Huser as [?|(? & ? & -> & ? & ? & -> & ->)]; eauto.
    + intros (user & host & port & tail & -> & Huser & ? & ? & ?).
      exists (user ^^ host ^^ port ^^ tail). split; [done|]. exists user. eexists. split; [done|].
      split; [destruct Huser as [?|(? & -> & ?)]; eauto 10|eauto 10].
  - split.
    + intros (? & -> & s & ? & -> & Hs & ? & -> & host & ? & -> & ? & port & tail & -> & ? & ?).
      exists s, host, port, tail. split; [done|]. split; [|done].
      destruct Hs as [?|(? & -> & ->)]; auto.
    + intros (s & host & port & tail & -> & Hs & ? & ? & ?).
      exists (s ^^ "://" ^^ host ^^ port ^^ tail). split; [done|]. exists s. eexists. split; [done|].
      split; [destruct Hs as [?| ->]; eauto|].
      exists (host ^^ port ^^ tail). split; [done|]. eauto 10.
Qed.

#[local] Transparent RLit RPlus ROpt port_regex tail_regex.

(** C31. The validation pattern of the repository URIs accepts exactly the
    three forms it is meant for: git@ with a host, an owner and a path;
    ssh with an optional user; http or https with a path that may have a
    query - host and user of word characters, dots and dashes, a port of at
    most five digits.  (The matcher works by derivatives of the pattern.) *)
Theorem uri_pattern_spec uri :
  regex_match URI_VALIDATION_REGEX uri = true <-> accepted_uri uri.
Proof. apply uri_pattern_iff. Qed.

Lemma starts_with_app p s : starts_with p (p ^^ s) = true.
Proof. induction p as [|c p IH]; simpl; [done|]. by rewrite Ascii.eqb_refl. Qed.

Section GitRepoFacts.
Context `{Ext}.
Implicit Types (o : services) (t : trace).

(** What the loop over the requested keys collects. *)
Lemma collect_secrets_ok name data keys secrets0 secrets :
  collect_secrets name data keys secrets0 = Ok secrets ->
  (forall e, e ∉ keys.*2 -> secrets !! e = secrets0 !! e)
  /\ (forall e, e ∈ keys.*2 -> is_Some (secrets !! e))
  /\ (forall k e, NoDup keys.*2 -> (k, e) ∈ keys -> secrets !! e = data !! k).
Proof.
  revert secrets0. induction keys as [|[k e] keys IH]; intros secrets0; simpl.
  { intros [= ->]. split; [done|]. split; [by intros e ?%elem_of_nil|].
    by intros k e _ ?%elem_of_nil. }
  destruct (data !! k) as [v|] eqn:Hk; [|done].
  unfold from_utf8. destruct (utf8_valid v); [|done].
  intros (IH1 & IH2 & IH3)%IH. split; [|split].
  - intros e' [Hne Hnot]%not_elem_of_cons. rewrite IH1 by done. by rewrite lookup_insert_ne.
  - intros e' He'. destruct (decide (e' ∈ keys.*2)) as [Hin|Hin]; [by apply IH2|].
    rewrite IH1 by done. apply elem_of_cons in He' as [->|?]; [|done].
    rewrite lookup_insert_eq. by eexists.
  - intros k' e' [Hnot Hnd]%NoDup_cons [[= -> ->]|Hin]%elem_of_cons; [|by apply IH3].
    rewrite IH1 by done. by rewrite lookup_insert_eq, Hk.
Qed.

Definition no_fetch (e : event resp) : Prop :=
  match e with Ev c _ => match c with GitFetch _ _ _ => False | _ => True end end.

(** Reading a secret: an error, or the requested entries. *)
Lemma wp_get_secret_strings {S} name (keys : gmap string string) ns o (s : S) t Q :
  (forall new r, Forall no_fetch new ->
     (forall secrets, r = Ok secrets -> exists data order,
        order ≡ₚ map_to_list keys /\ collect_secrets name data order ∅ = Ok secrets) ->
     Q (Ret r) s (t ++ new)) ->
  wp (get_secret_strings name keys ns) o s t Q.
Proof.
  intros HQ. unfold get_secret_strings. do 2 wp_step.
  destruct r as [[data|]|e]; [|by wp_step; apply HQ; [repeat constructor|]..].
  do 3 wp_step. rewrite <- app_assoc. apply HQ; [by repeat constructor|].
  intros secrets Hs. exists data, (`r). split; [apply (proj2_sig r)|done].
Qed.

(** The two entries of basic authentication: both are there when the keys
    differ; under one key, only the password survives. *)
Definition basic_secrets (keys : GitAuthSecretKeys) (secrets : gmap string string) : Prop :=
  if decide (key_username keys = key_password keys)
  then secrets !! "username" = None
  else is_Some (secrets !! "username") /\ is_Some (secrets !! "password").

Definition auth_secrets_ok (auth : option GitAuthConfig) (secrets : gmap string string) : Prop :=
  match auth with
  | None => True
  | Some auth =>
      match auth_type auth with
      | Basic => basic_secrets (auth_keys auth) secrets
      | Token => is_Some (secrets !! "token")
      | Ssh => is_Some (secrets !! "private_key")
      end
  end.

Lemma collect_one name data k e order secrets :
  order ≡ₚ map_to_list (<[k := e]> (∅ : gmap string string)) ->
  collect_secrets name data order ∅ = Ok secrets -> secrets !! e = data !! k /\ is_Some (secrets !! e).
Proof.
  rewrite map_to_list_insert, map_to_list_empty by apply lookup_empty.
  intros ->%Permutation_singleton_r (_ & H1 & H2)%collect_secrets_ok.
  split; [|apply H1; set_solver]. apply H2; [apply NoDup_singleton|set_solver].
Qed.

Lemma collect_auth auth name data order secrets :
  order ≡ₚ map_to_list (auth_secret_keys auth) ->
  collect_secrets name data order ∅ = Ok secrets -> auth_secrets_ok (Some auth) secrets.
Proof.
  unfold auth_secret_keys, auth_secrets_ok, basic_secrets.
  destruct (auth_type auth); [|by intros; eapply collect_one..].
  destruct (decide _) as [->|Hne].
  - rewrite insert_insert_eq, map_to_list_insert, map_to_list_empty by apply lookup_empty.
    intros ->%Permutation_singleton_r (H1 & _)%collect_secrets_ok.
    rewrite H1; [done|]. simpl. by intros ?%list_elem_of_singleton.
  - rewrite !map_to_list_insert, map_to_list_empty
      by (rewrite ?lookup_insert_ne; try done; apply lookup_empty).
    intros Hperm (_ & H2 & _)%collect_secrets_ok.
    split; apply H2; rewrite Hperm; set_solver.
Qed.

Section of_repo.
Context {S R : Type} `{!GitRepoInternals R}.
Implicit Types (self : R).

(** What the options of a fetch must be for this repository. *)
Definition credentials_ok self (opts : FetchOptions) : Prop :=
  match repo_auth_config self with
  | None => fo_credentials opts = None /\ fo_custom_headers opts = []
  | Some auth =>
      match auth_type auth with
      | Basic => exists secrets, fo_credentials opts = Some (CredUserpass secrets)
          /\ fo_custom_headers opts = [] /\ basic_secrets (auth_keys auth) secrets
      | Token => exists token, fo_credentials opts = None
          /\ fo_custom_headers opts = ["Authorization: " ^^ token]
      | Ssh => exists secrets, fo_credentials opts = Some (CredSshKey secrets)
          /\ fo_custom_headers opts = [] /\ is_Some (secrets !! "private_key")
      end
  end.

Definition certificate_ok self (opts : FetchOptions) : Prop :=
  match uri_schema (repo_uri self), repo_tls_config self with
  | Some (SchemaSsh | SchemaGit), _ => fo_certificate_check opts = Some CertificateOk
  | Some Https, Some tls =>
      if no_verify_ssl tls then fo_certificate_check opts = Some CertificateOk
      else match ca_cert tls with
           | Some _ => exists ca, fo_certificate_check opts = Some (CertificateCustomCa ca)
           | None => fo_certificate_check opts = Some CertificatePassthrough
           end
  | _, _ => fo_certificate_check opts = None
  end.

Definition options_ok self (opts : FetchOptions) : Prop :=
  credentials_ok self opts /\ certificate_ok self opts
  /\ fo_depth opts = (if bool_decide (uri_schema (repo_uri self) = Some Http
                                      \/ uri_schema (repo_uri self) = Some Https)
                      then 1 else 0)%Z.

Definition certs_load o : Prop := forall t, is_ok (o t LoadNativeCerts) = true.

Lemma wp_fetch_auth_secrets self ns o (s : S) t Q :
  (forall new r, Forall no_fetch new ->
     (forall secrets, r = Ok secrets -> auth_secrets_ok (repo_auth_config self) secrets) ->
     Q (Ret r) s (t ++ new)) ->
  wp (fetch_auth_secrets self ns) o s t Q.
Proof.
  intros HQ. unfold fetch_auth_secrets. destruct (repo_auth_config self) as [auth|].
  - apply wp_get_secret_strings. intros new r Hnew Hr. apply HQ; [done|].
    intros secrets (data & order & Hperm & Hc)%Hr. by eapply collect_auth.
  - wp_step. specialize (HQ [] (Ok ∅)). rewrite app_nil_r in HQ. by apply HQ.
Qed.

Definition tls_secrets_ok self (secrets : gmap string string) : Prop :=
  forall tls ca, repo_tls_config self = Some tls -> ca_cert tls = Some ca ->
    is_Some (secrets !! "ca.crt").

Lemma wp_fetch_tls_secrets self ns o (s : S) t Q :
  (forall new r, Forall no_fetch new ->
     (forall secrets, r = Ok secrets -> tls_secrets_ok self secrets) ->
     Q (Ret r) s (t ++ new)) ->
  wp (fetch_tls_secrets self ns) o s t Q.
Proof.
  intros HQ. unfold fetch_tls_secrets, tls_secrets_ok in *.
  assert (HQ0 : (forall tls ca, repo_tls_config self = Some tls -> ca_cert tls = Some ca -> False) ->
                Q (Ret (Ok ∅)) s t).
  { intros Hno. specialize (HQ [] (Ok ∅)). rewrite app_nil_r in HQ.
    apply HQ; [done|]. intros ? _ tls ca H1 H2. by destruct (Hno tls ca). }
  destruct (repo_tls_config self) as [tls|]; [destruct (ca_cert tls) as [ca|] eqn:Hca|].
  - apply wp_get_secret_strings. intros new r Hnew Hr. apply HQ; [done|].
    intros secrets (data & order & Hperm & Hc)%Hr tls' ca' _ _. by eapply collect_one.
  - wp_step. apply HQ0. intros; congruence.
  - wp_step. apply HQ0. done.
Qed.

Lemma wp_setup_auth self secrets o (s : S) t Q :
  auth_secrets_ok (repo_auth_config self) secrets ->
  (forall creds headers, (forall cert depth, credentials_ok self
       {| fo_custom_headers := headers; fo_credentials := creds;
          fo_certificate_check := cert; fo_depth := depth |}) ->
     Q (Ret (creds, headers)) s t) ->
  wp (setup_auth self secrets) o s t Q.
Proof.
  intros Hok HQ. unfold setup_auth, credentials_ok, auth_secrets_ok in *.
  destruct (repo_auth_config self) as [auth|]; [|wp_step; by apply HQ].
  destruct (auth_type auth).
  - wp_step. apply HQ. intros. by exists secrets.
  - destruct Hok as [token Htoken]. do 2 wp_step. rewrite Htoken. wp_step. apply HQ.
    intros. by exists token.
  - wp_step. apply HQ. intros. by exists secrets.
Qed.

Lemma wp_setup_certificate_check self secrets o (s : S) t Q :
  tls_secrets_ok self secrets ->
  (forall cert new, Forall no_fetch new -> is_Some (uri_schema (repo_uri self)) ->
     (forall headers creds depth, certificate_ok self
       {| fo_custom_headers := headers; fo_credentials := creds;
          fo_certificate_check := cert; fo_depth := depth |}) ->
     Q (Ret cert) s (t ++ new)) ->
  (forall new, Forall no_fetch new ->
     uri_schema (repo_uri self) = None \/ ~ certs_load o -> Q Panic s (t ++ new)) ->
  wp (setup_certificate_check self secrets) o s t Q.
Proof.
  intros Hok HQ Hpanic. unfold setup_certificate_check, certificate_ok, tls_secrets_ok in *.
  assert (HQ0 := fun cert => HQ cert [] (List.Forall_nil _)).
  assert (Hpanic0 := Hpanic [] (List.Forall_nil _)). rewrite app_nil_r in Hpanic0.
  setoid_rewrite app_nil_r in HQ0.
  do 2 wp_step. destruct (uri_schema (repo_uri self)) as [schema|]; [|by apply Hpanic0; auto].
  assert (Hsome : is_Some (Some schema)) by by eexists.
  destruct schema; [by wp_step; apply HQ0| |by wp_step; apply HQ0..].
  destruct (repo_tls_config self) as [tls|]; [|by wp_step; apply HQ0].
  destruct (no_verify_ssl tls); [by wp_step; apply HQ0|].
  case_bool_decide as Hca; cycle 1.
  { wp_step. apply HQ0; [done|]. apply eq_None_not_Some in Hca. by rewrite Hca. }
  destruct Hca as [ca Hca]. destruct (Hok tls ca eq_refl Hca) as [pem Hpem].
  do 2 wp_step. rewrite Hpem. do 2 wp_step.
  destruct r as [[]|e] eqn:Hr; wp_step.
  - apply HQ; [by repeat constructor|done|]. rewrite Hca. by exists pem.
  - apply Hpanic; [by repeat constructor|]. right. intros Hload. specialize (Hload t).
    by rewrite <- H0 in Hload.
Qed.

Lemma wp_fetch_repo_ref self ref_name path ns o (s : S) t Q :
  (forall new e, Forall no_fetch new -> Q (Ret (Err e)) s (t ++ new)) ->
  (forall new, Forall no_fetch new ->
     uri_schema (repo_uri self) = None \/ ~ certs_load o -> Q Panic s (t ++ new)) ->
  (forall new opts a, Forall no_fetch new -> options_ok self opts ->
     Q (Ret (map_err GitrepoAccessError a)) s
       (t ++ new ++ [Ev (GitFetch path ref_name opts) a])) ->
  wp (fetch_repo_ref self ref_name path ns) o s t Q.
Proof.
  intros Qerr Qpanic Qfetch. unfold fetch_repo_ref, fetch_origin.
  wp_step. apply wp_fetch_auth_secrets. intros new1 [auth|e] Hnew1 Hauth; [|by apply Qerr].
  wp_step. apply wp_fetch_tls_secrets. intros new2 [tls|e] Hnew2 Htls;
    rewrite <- app_assoc; [|apply Qerr; by apply Forall_app_2].
  wp_step. apply (wp_setup_auth self auth); [by apply Hauth|].
  intros creds headers Hcreds.
  wp_step. apply (wp_setup_certificate_check self tls); [by apply Htls| |].
  2: { intros new3 Hnew3 Hwhy. rewrite <- app_assoc. apply Qpanic; [|done].
       by repeat apply Forall_app_2. }
  intros cert new3 Hnew3 [schema Hschema] Hcert.
  wp_step. wp_step. rewrite Hschema.
  set (opts := {| fo_custom_headers := headers |}).
  assert (Hopts : options_ok self opts).
  { split; [apply Hcreds|]. split; [apply Hcert|]. subst opts. simpl. rewrite Hschema.
    destruct schema; case_bool_decide as Hs; try done; by destruct Hs; auto. }
  assert (H3 : Forall no_fetch (new1 ++ new2 ++ new3)) by by repeat apply Forall_app_2.
  rewrite <- !app_assoc. revert H3. generalize (new1 ++ new2 ++ new3). intros new H3.
  do 2 wp_step. destruct r as [[]|e]; rewrite <- !app_assoc;
    [|wp_step; apply Qerr, Forall_app_2; [done|by repeat constructor]].
  do 2 wp_step. destruct r as [[]|e]; rewrite <- !app_assoc;
    [|wp_step; apply Qerr; repeat apply Forall_app_2; [done|by repeat constructor..]].
  do 2 wp_step. rewrite <- !app_assoc.
  specialize (Qfetch (new ++ [Ev (GitInit path (repo_uri self)) (Ok tt)] ++
    [Ev (GitFindRemote path "origin") (Ok tt)]) opts r).
  rewrite <- !app_assoc in Qfetch.
  destruct r as [[]|e]; wp_step; apply Qfetch; [|done| |done].
  all: repeat apply Forall_app_2; [done|by repeat constructor..].
Qed.

End of_repo.

Lemma valid_uri_schema uri :
  regex_match URI_VALIDATION_REGEX uri = true -> is_Some (uri_schema uri).
Proof.
  rewrite uri_pattern_iff. unfold uri_schema.
  by intros [(? & ? & ? & -> & _)|[(? & ? & ? & ? & -> & _)|(? & ? & ? & ? & -> & [-> | ->] & _)]];
    eexists.
Qed.

(** The secret reads of a trace, by namespace and name. *)
Definition secret_read_in (allowed : string -> string -> Prop) (e : event resp) : Prop :=
  match e with Ev c _ => match c with GetSecret ns name => allowed ns name | _ => True end end.

Lemma fetch_secret_reads {S R} `{!GitRepoInternals R} (self : R) ref_name path ns :
  calls_in (secret_read_in (fun ns' name =>
     (exists auth, repo_auth_config self = Some auth /\ name = sr_name (auth_secret_ref auth)
        /\ ns' = secret_namespace (R:=R) (auth_secret_ref auth) ns)
     \/ (exists tls ca, repo_tls_config self = Some tls /\ ca_cert tls = Some ca
        /\ name = sr_name (ca_secret_ref ca)
        /\ ns' = secret_namespace (R:=R) (ca_secret_ref ca) ns)))
    (fetch_repo_ref (S:=S) self ref_name path ns).
Proof.
  unfold fetch_repo_ref, fetch_origin, fetch_auth_secrets, fetch_tls_secrets, get_secret_strings,
    setup_auth, setup_certificate_check.
  calls_run; simpl; eauto 10.
Qed.

(** C22. Secret isolation: whatever a fetch of a [GitRepo] does, it reads no
    secret outside the namespace of the trigger, even when its spec names
    another one; a [ClusterGitRepo] may read the secrets its spec names, in
    the namespaces named there.  Only the secrets named for authentication
    and for the CA are read. *)
Theorem gitrepo_secrets_isolated (self : GitRepo) (cluster : ClusterGitRepo) ref_name path ns
    o (u : unit) t :
  wp (fetch_repo_ref self ref_name path ns) o u t (fun _ _ t' => exists new, t' = t ++ new /\
    Forall (secret_read_in (fun ns' name => ns' = ns /\
      ((exists auth, gr_auth_config self = Some auth /\ name = sr_name (auth_secret_ref auth))
       \/ exists tls ca, gr_tls_config self = Some tls /\ ca_cert tls = Some ca
            /\ name = sr_name (ca_secret_ref ca)))) new)
  /\ wp (fetch_repo_ref cluster ref_name path ns) o u t (fun _ _ t' => exists new, t' = t ++ new /\
    Forall (secret_read_in (fun ns' name => exists sref,
      name = sr_name sref /\ ns' = unwrap_or ns (sr_namespace sref) /\
      ((exists auth, cgr_auth_config cluster = Some auth /\ sref = auth_secret_ref auth)
       \/ exists tls ca, cgr_tls_config cluster = Some tls /\ ca_cert tls = Some ca
            /\ sref = ca_secret_ref ca))) new).
Proof.
  split; (eapply calls_in_mono; [|apply fetch_secret_reads]); intros [c r]; destruct c; try done;
    simpl; unfold secret_namespace; simpl; naive_solver.
Qed.

(** C38. Fetching from a validated URI never panics, and neither does the
    credentials callback it installs: if the URI matches the CRD's pattern,
    the platform's certificates load, and basic authentication does not use
    one key for both parts, then every run returns, and whatever user name
    the server asks for, the callback finds its secrets. *)
Theorem valid_fetch_never_panics {S R} `{!GitRepoInternals R} (self : R) ref_name path ns
    o (s : S) t :
  regex_match URI_VALIDATION_REGEX (repo_uri self) = true -> certs_load o ->
  (forall auth, repo_auth_config self = Some auth -> auth_type auth = Basic ->
     key_username (auth_keys auth) <> key_password (auth_keys auth)) ->
  wp (fetch_repo_ref self ref_name path ns) o s t (fun r s' t' =>
    r <> Panic /\ s' = s /\
    forall path' ref' opts a cb user, Ev (GitFetch path' ref' opts) a ∉ t ->
      Ev (GitFetch path' ref' opts) a ∈ t' -> fo_credentials opts = Some cb ->
      credentials_callback cb user <> Panic).
Proof.
  intros Huri%valid_uri_schema Hload Hkeys.
  assert (Hno : forall new path' ref' opts a, Forall no_fetch new ->
    Ev (GitFetch path' ref' opts) a ∉ t -> Ev (GitFetch path' ref' opts) a ∉ t ++ new).
  { intros new path' ref' opts a Hnew Ht [?|Hin]%elem_of_app; [done|].
    rewrite Forall_forall in Hnew. by apply Hnew in Hin. }
  apply wp_fetch_repo_ref.
  - intros new e Hnew. split; [done|]. split; [done|]. intros path' ref' opts a cb user Ht Hin.
    by destruct (Hno new path' ref' opts a).
  - intros new _ [Hnone|Hnot]; [|done]. rewrite Hnone in Huri. by destruct Huri.
  - intros new opts a Hnew (Hcred & _ & _). split; [done|]. split; [done|].
    intros path' ref' opts' a' cb user Ht Hin Hcb. rewrite app_assoc in Hin.
    apply elem_of_app in Hin as [Hin|Hin]; [by destruct (Hno new path' ref' opts' a')|].
    apply list_elem_of_singleton in Hin. assert (opts' = opts) as -> by congruence.
    unfold credentials_ok in Hcred.
    destruct (repo_auth_config self) as [auth|] eqn:Hauth; [|by destruct Hcred; congruence].
    destruct (auth_type auth) eqn:Hty.
    + destruct Hcred as (secrets & Hc & _ & Hb). unfold basic_secrets in Hb.
      rewrite decide_False in Hb by by apply Hkeys.
      assert (cb = CredUserpass secrets) as -> by congruence.
      destruct Hb as [[u Hu] [p Hp]]. simpl. by rewrite Hu, Hp.
    + destruct Hcred as (token & Hc & _). congruence.
    + destruct Hcred as (secrets & Hc & _ & [k Hk]).
      assert (cb = CredSshKey secrets) as -> by congruence. simpl. by rewrite Hk.
Qed.

(** C37. TLS verification and depth.  Every fetch goes to the given path and
    reference; it is shallow, of one commit, for every HTTP and HTTPS
    repository, whatever its TLS settings, and complete for the others.  And
    for an HTTPS repository that does not switch verification off, it leaves
    the decision to libgit2's own verification or to a callback that accepts a
    certificate only when the verifier built from the platform's and the
    configured CA verified it for the host. *)
Theorem https_certificates_verified {S R} `{!GitRepoInternals R} (self : R) ref_name path ns
    o (s : S) t :
  wp (fetch_repo_ref self ref_name path ns) o s t (fun _ _ t' =>
    forall path' ref' opts a, Ev (GitFetch path' ref' opts) a ∈ t' ->
      Ev (GitFetch path' ref' opts) a ∉ t ->
      path' = path /\ ref' = ref_name
      /\ fo_depth opts = match uri_schema (repo_uri self) with
                         | Some (Http | Https) => 1%Z
                         | _ => 0%Z
                         end
      /\ (uri_schema (repo_uri self) = Some Https ->
          (forall tls, repo_tls_config self = Some tls -> no_verify_ssl tls = false) ->
          match fo_certificate_check opts with
          | None => repo_tls_config self = None
          | Some cb => forall builds is_x509 hostname_ok verifies,
              certificate_callback cb builds is_x509 hostname_ok verifies = Ok StatusOk ->
              builds && is_x509 && hostname_ok && verifies = true
          end)).
Proof.
  assert (Hno : forall new path' ref' opts a, Forall no_fetch new ->
    Ev (GitFetch path' ref' opts) a ∈ t ++ new -> Ev (GitFetch path' ref' opts) a ∈ t).
  { intros new path' ref' opts a Hnew [?|Hin]%elem_of_app; [done|].
    rewrite Forall_forall in Hnew. by apply Hnew in Hin. }
  apply wp_fetch_repo_ref.
  - intros new e Hnew path' ref' opts a Hin%Hno; done.
  - intros new Hnew _ path' ref' opts a Hin%Hno; done.
  - intros new opts a Hnew (_ & Hcert & Hdepth) path' ref' opts' a' Hin Hnot.
    rewrite app_assoc in Hin. apply elem_of_app in Hin as [Hin%Hno|Hin]; [done|done|].
    apply list_elem_of_singleton in Hin.
    assert (path' = path /\ ref' = ref_name /\ opts' = opts) as (-> & -> & ->) by naive_solver congruence.
    split; [done|]. split; [done|]. split.
    { rewrite Hdepth. by destruct (uri_schema (repo_uri self)) as [[]|]; case_bool_decide; naive_solver. }
    intros Hs Htls. unfold certificate_ok in Hcert. rewrite Hs in Hcert.
    destruct (repo_tls_config self) as [tls|]; [|by rewrite Hcert].
    rewrite (Htls tls eq_refl) in Hcert. destruct (ca_cert tls).
    + destruct Hcert as [ca ->]. intros [] [] [] []; done.
    + rewrite Hcert. intros; done.
Qed.

(** One key for user name and password: the request map keeps one
    entry per secret key, so the user name is lost, and whenever the server
    asks for credentials the callback panics instead of failing. *)
Theorem same_basic_key_panics {S R} `{!GitRepoInternals R} (self : R) auth ref_name path ns
    o (s : S) t :
  repo_auth_config self = Some auth -> auth_type auth = Basic ->
  key_username (auth_keys auth) = key_password (auth_keys auth) ->
  wp (fetch_repo_ref self ref_name path ns) o s t (fun r _ t' => r = Ret (Ok tt) ->
    exists new opts cb,
      t' = t ++ new ++ [Ev (GitFetch path ref_name opts) (Ok tt)]
      /\ fo_credentials opts = Some cb
      /\ forall user, credentials_callback cb user = Panic).
Proof.
  intros Hauth Hty Hkey. apply wp_fetch_repo_ref; [done..|].
  intros new opts [[]|e] Hnew (Hcred & _ & _); [|done]. intros _.
  unfold credentials_ok in Hcred. rewrite Hauth, Hty in Hcred.
  destruct Hcred as (secrets & Hc & _ & Hb). unfold basic_secrets in Hb.
  rewrite decide_True in Hb by done. exists new, opts, (CredUserpass secrets).
  split; [done|]. split; [done|]. intros user. simpl. by rewrite Hb.
Qed.
End GitRepoFacts.

(** ** Examples *)

Definition example_repo (username_key : string) : GitRepo := {|
  gr_name := "app"; gr_repo_uri := "https://git.example.com:8443/team/app.git";
  gr_tls_config := Some {| no_verify_ssl := false; ca_cert := None |};
  gr_auth_config := Some {| auth_type := Basic;
    auth_secret_ref := {| sr_name := "creds"; sr_namespace := Some "elsewhere" |};
    auth_keys := {| key_username := username_key; key_password := "password";
                    key_token := "token"; key_private_key := "ssh-privatekey" |} |} |}.

Lemma valid_fetch_never_panics_witness :
  let ext := example_ext in
  wp (fetch_repo_ref (example_repo "username") "main" "/tmp/app" "ci")
     (quiet_services 0%Z RuntimeConfig_default) tt [] (fun r s' t' =>
      r <> Panic /\ s' = tt /\
      forall path' ref' opts a cb user, Ev (GitFetch path' ref' opts) a ∉ [] ->
        Ev (GitFetch path' ref' opts) a ∈ t' -> fo_credentials opts = Some cb ->
        credentials_callback cb user <> Panic).
Proof.
  intros ext. apply (valid_fetch_never_panics (S:=unit) (example_repo "username")).
  - by vm_compute.
  - done.
  - intros auth [= <-] _. done.
Defined.

Lemma https_certificates_verified_witness :
  let ext := example_ext in
  wp (fetch_repo_ref (example_repo "username") "main" "/tmp/app" "ci")
     (quiet_services 0%Z RuntimeConfig_default) tt [] (fun _ _ t' =>
      forall path' ref' opts a, Ev (GitFetch path' ref' opts) a ∈ t' ->
        Ev (GitFetch path' ref' opts) a ∉ [] ->
        path' = "/tmp/app" /\ ref' = "main"
        /\ fo_depth opts = match uri_schema (repo_uri (example_repo "username")) with
                           | Some (Http | Https) => 1%Z
                           | _ => 0%Z
                           end
        /\ (uri_schema (repo_uri (example_repo "username")) = Some Https ->
            (forall tls, repo_tls_config (example_repo "username") = Some tls ->
               no_verify_ssl tls = false) ->
            match fo_certificate_check opts with
            | None => repo_tls_config (example_repo "username") = None
            | Some cb => forall builds is_x509 hostname_ok verifies,
                certificate_callback cb builds is_x509 hostname_ok verifies = Ok StatusOk ->
                builds && is_x509 && hostname_ok && verifies = true
            end)).
Proof.
  intros ext. exact (https_certificates_verified (S:=unit) (example_repo "username") "main" "/tmp/app"
    "ci" (quiet_services 0%Z RuntimeConfig_default) tt []).
Defined.

Lemma same_basic_key_panics_witness :
  let ext := example_ext in
  wp (fetch_repo_ref (example_repo "password") "main" "/tmp/app" "ci")
     (quiet_services 0%Z RuntimeConfig_default) tt [] (fun r _ t' => r = Ret (Ok tt) ->
      exists new opts cb,
        t' = [] ++ new ++ [Ev (GitFetch "/tmp/app" "main" opts) (Ok tt)]
        /\ fo_credentials opts = Some cb
        /\ forall user, credentials_callback cb user = Panic).
Proof.
  intros ext. by eapply (same_basic_key_panics (S:=unit) (example_repo "password")).
Defined.
