(* ===== verification/Trigger.v ===== *)
(** * Triggers (src/src/resources/trigger.rs)

    The shared behaviour of both trigger kinds: the status they publish, the
    check of sources that a scheduled task performs, the hashes it compares,
    and the reconciliation of schedule triggers with the task scheduler. *)

From stdpp Require Import base option gmap sets strings list.
From Stdlib Require Import Ascii ZArith Lia Permutation.
From S2P Require Import Prelude Strs Time Errors Config Ext Resources World Jobs Cache Statics Action GitRepo.
Local Open Scope string_scope.
Local Open Scope list_scope.
Local Open Scope prog_scope.

Section Trigger.
Context `{Ext}.

(** The trait [Trigger] with the accessors it takes from its supertraits. *)
Class Trigger (T : Type) := {
  trigger_cache :: ApiCache T;
  trigger_crd_kind : string;
  trigger_name : T -> string;
  trigger_namespace : T -> option string;
  sources : T -> TriggerSources;
  trigger_action : T -> TriggerAction;
  trigger_status : T -> option TriggerStatus }.

#[global] Arguments trigger_crd_kind T {_}.

#[export] Instance ScheduleTrigger_trigger : Trigger ScheduleTrigger := {
  trigger_crd_kind := "ScheduleTrigger";
  trigger_name := st_name;
  trigger_namespace := st_namespace;
  sources := fun self => sts_sources (st_spec self);
  trigger_action := fun self => sts_action (st_spec self);
  trigger_status := st_status }.

#[export] Instance WebhookTrigger_trigger : Trigger WebhookTrigger := {
  trigger_crd_kind := "WebhookTrigger";
  trigger_name := wt_name;
  trigger_namespace := wt_namespace;
  sources := fun self => wts_sources (wt_spec self);
  trigger_action := fun self => wts_action (wt_spec self);
  trigger_status := wt_status }.

(** [Metrics::count_and_measure] *)
Definition trigger_count_and_measure {S} (namespace trigger_kind trigger_name : string)
    (latency : Duration) : io S unit :=
  let labels := [namespace; trigger_kind; trigger_name] in
  ok <-- call (MetricWithLabels TriggerCheckCount labels) ;;
  (if (ok : bool) then call (CounterInc TriggerCheckCount labels) else ret tt) ;;;
  ok <-- call (MetricWithLabels TriggerCheckDuration labels) ;;
  if (ok : bool) then call (HistogramObserve TriggerCheckDuration labels latency) else ret tt.

(** ** Hashes and commits *)

(** [get_latest_commit] on the repository at [path]. *)
Definition get_latest_commit {S} (path : string) (ref : TriggerGitRepoReference)
    : io S (result Error string) :=
  oid <-? match ref with
    | Branch r =>
        found <-- call (GitResolveReference path ("origin/" ^^ r)) ;;
        match (found : result string (option string)) with
        | Err e => ret (Err (GitrepoAccessError e))
        | Ok target => oid <-- unwrap target ;; ret (Ok oid)
        end
    | Tag r =>
        found <-- call (GitResolveReference path r) ;;
        match (found : result string (option string)) with
        | Err e => ret (Err (GitrepoAccessError e))
        | Ok target => oid <-- unwrap target ;; ret (Ok oid)
        end
    | Commit r => ret (map_err GitrepoAccessError (oid_from_str r))
    end ;;
  ref_obj <-- call (GitFindObject path oid) ;;
  match (ref_obj : result string unit) with
  | Err e => ret (Err (GitrepoAccessError e))
  | Ok _ =>
      checkout <-- call (GitCheckoutTree path oid) ;;
      match (checkout : result string unit) with
      | Err e => ret (Err (GitrepoAccessError e))
      | Ok _ => ret (Ok oid)
      end
  end.

Definition calc_buffer_hash (buf : string) : string := sha256 buf.

Definition calc_file_hash {S} (path : string) : io S (result Error string) :=
  opened <-- call (FileOpen path) ;;
  match (opened : result string unit) with
  | Err e => ret (Err (TriggerFileAccessError e))
  | Ok _ =>
      content <-- call (FileReadToEnd path) ;;
      match (content : result string string) with
      | Err e => ret (Err (TriggerFileAccessError e))
      | Ok buf => ret (Ok (calc_buffer_hash buf))
      end
  end.

(** The loop of [get_file_glob_hash]: [hashed] is what the hasher was fed. *)
Fixpoint hash_files {S} (entries : list (result string string)) (hashed : string)
    : io S (result Error string) :=
  match entries with
  | [] => ret (Ok (sha256 hashed))
  | Err e :: _ => ret (Err (TriggerDirWalkError e))
  | Ok file_path :: entries =>
      hash <-? calc_file_hash file_path ;;
      hash_files entries (hashed ^^ hash)
  end.

Definition get_file_glob_hash {S} (folder : string) (glob : list string)
    : io S (result Error string) :=
  walk <-- call (GlobWalk folder glob) ;;
  match (walk : result string (list (result string string))) with
  | Err e => ret (Err (TriggerFilePatternError e))
  | Ok entries => hash_files entries EmptyString
  end.

Section any_trigger.
Context {T : Type} `{!Trigger T}.

Definition trigger_hash_key {S} (self : T) : io S string :=
  namespace <-- unwrap (trigger_namespace self) ;;
  ret (namespace ^^ "/" ^^ trigger_name self).

(** ** The published status *)

(** Entries for sources that the trigger (still) has. *)
Definition known_sources (trigger : T) (m : gmap string CheckedSourceState)
    : gmap string CheckedSourceState :=
  filter (fun kv => kv.1 ∈ names (sources trigger)) m.

Definition new_status (trigger : T) (state_ : option TriggerState)
    (checked : option (gmap string CheckedSourceState)) (last_run_ : option Z)
    : TriggerStatus :=
  match trigger_status trigger with
  | Some status => {|
      state := unwrap_or (state status) state_;
      last_run := match last_run_ with
                  | Some last_run => Some (rfc3339_secs last_run)
                  | None => last_run status
                  end;
      checked_sources := known_sources trigger (unwrap_or ∅ checked ∪ checked_sources status) |}
  | None => {|
      state := unwrap_or TriggerState_default state_;
      last_run := match rfc3339_secs <$> last_run_ with
                  | Some last_run => Some last_run
                  | None => Some NEVER_LAST_RUN_STR
                  end;
      checked_sources := unwrap_or ∅ checked |}
  end.

Definition update_trigger_status (self : T) (state_ : option TriggerState)
    (checked : option (gmap string CheckedSourceState)) (last_run_ : option Z)
    : io Statics (result Error unit) :=
  let name := trigger_name self in
  namespace <-- unwrap (trigger_namespace self) ;;
  trigger <-? on_api_cache (cache_get (K:=T) name (Some namespace)) ;;
  patched <-- call (PatchStatus (trigger_crd_kind T) namespace name
                      (new_status trigger state_ checked last_run_)) ;;
  match (patched : result KubeErr unit) with
  | Err e => ret (Err (KubeError e))
  | Ok _ => ret (Ok tt)
  end.

(** ** The task *)

(** [create_trigger_task]: the values the closure captures. *)
Definition create_trigger_task {S} (self : T) (schedule : TaskSchedule)
    (task_sources_ : TriggerTaskSources) (source_clone_folder : string) : io S Task :=
  trigger_ns <-- unwrap (trigger_namespace self) ;;
  ret {| task_schedule := schedule;
         task_trigger_kind := trigger_crd_kind T;
         task_trigger_ns := trigger_ns;
         task_trigger_name := trigger_name self;
         task_sources := task_sources_;
         task_source_clone_folder := source_clone_folder |}.

(** Getting the content of a source: [None] when the repository resource
    is not in the cache. *)
Definition fetch_source (trigger : T) (source repo_path trigger_ns : string)
    : io Statics (option (result Error unit)) :=
  let ref_name := reference_name (watch_on (sources trigger)) in
  match sources_kind (sources trigger) with
  | KindGitRepo =>
      gitrepo <-- on_api_cache (cache_get (K:=GitRepo) source (Some trigger_ns)) ;;
      match (gitrepo : result Error GitRepo) with
      | Ok gitrepo =>
          r <-- fetch_repo_ref gitrepo ref_name repo_path trigger_ns ;; ret (Some r)
      | Err _ => ret None
      end
  | KindClusterGitRepo =>
      gitrepo <-- on_api_cache (cache_get (K:=ClusterGitRepo) source None) ;;
      match (gitrepo : result Error ClusterGitRepo) with
      | Ok gitrepo =>
          r <-- fetch_repo_ref gitrepo ref_name repo_path trigger_ns ;; ret (Some r)
      | Err _ => ret None
      end
  end.

(** The new state of a source: [None] where the code gives the source up
    ([continue]).  A failed file hash leaves [file_hash] empty. *)
Definition inspect_source (trigger : T) (source repo_path trigger_ns : string)
    : io Statics (option CheckedSourceState) :=
  repo <-- fetch_source trigger source repo_path trigger_ns ;;
  match repo with
  | None | Some (Err _) => ret None
  | Some (Ok _) =>
      latest_commit <-- get_latest_commit repo_path (reference (watch_on (sources trigger))) ;;
      match (latest_commit : result Error string) with
      | Err _ => ret None
      | Ok latest_commit =>
          file_hash_ <--
            match files (watch_on (sources trigger)) with
            | Some files =>
                file_hash <-- get_file_glob_hash repo_path files ;;
                match (file_hash : result Error string) with
                | Ok file_hash => ret (Some (hex_encode file_hash))
                | Err _ => ret None
                end
            | None => ret None
            end ;;
          ret (Some {| commit_hash := Some latest_commit; file_hash := file_hash_;
                       changed := None |})
      end
  end.

(** Looking the action up and executing it. *)
Definition run_action (trigger : T) (source commit trigger_ns trigger_name : string)
    : io Statics (result Error unit) :=
  let srcs := sources trigger in
  match action_kind (trigger_action trigger) with
  | KindAction =>
      action <-? on_api_cache (cache_get (K:=Action)
                   (action_name (trigger_action trigger)) (Some trigger_ns)) ;;
      execute action (sources_kind srcs) source commit (reference (watch_on srcs)) trigger_ns
        (trigger_crd_kind T) trigger_name
  | KindClusterAction =>
      action <-? on_api_cache (cache_get (K:=ClusterAction)
                   (action_name (trigger_action trigger)) None) ;;
      execute action (sources_kind srcs) source commit (reference (watch_on srcs)) trigger_ns
        (trigger_crd_kind T) trigger_name
  end.

(** Whether the source's action has to run. *)
Definition needs_action (trigger : T) (new_source_state : CheckedSourceState)
    (current : option CheckedSourceState) : bool :=
  negb (CheckedSourceState_is_equal new_source_state current
          (bool_decide (is_Some (files (watch_on (sources trigger))))))
  || negb (on_change_only (watch_on (sources trigger))).

(** What follows the inspection of a source: the action or the status. *)
Definition settle_source (trigger : T) (trigger_ns trigger_name source : string)
    (checked_sources_ : gmap string CheckedSourceState)
    (new_source_state : CheckedSourceState) : io Statics unit :=
  let current_source_state := checked_sources_ !! source in
  if needs_action trigger new_source_state current_source_state then
    commit <-- unwrap (commit_hash new_source_state) ;;
    action_exec_result <-- run_action trigger source commit trigger_ns trigger_name ;;
    match (action_exec_result : result Error unit) with
    | Ok _ =>
        now <-- call UtcNow ;;
        let new_source_state := {|
          commit_hash := commit_hash new_source_state;
          file_hash := file_hash new_source_state;
          changed := Some (rfc3339_secs now) |} in
        now <-- call UtcNow ;;
        update_trigger_status trigger (Some Running) (Some {[ source := new_source_state ]})
          (Some now) ;;;
        ret tt
    | Err _ => ret tt
    end
  else
    let new_source_state :=
      match current_source_state with
      | Some current => {|
          commit_hash := commit_hash new_source_state;
          file_hash := file_hash new_source_state;
          changed := changed current |}
      | None => new_source_state
      end in
    update_trigger_status trigger None (Some {[ source := new_source_state ]}) None ;;;
    ret tt.

(** The body of the loop over the sources. *)
Definition check_source (trigger : T) (trigger_ns trigger_name base_temp_dir : string)
    (checked_sources_ : gmap string CheckedSourceState) (source : string)
    : io Statics unit :=
  let repo_path := base_temp_dir ^^ "/" ^^ source in
  call (RemoveDirAll repo_path) ;;;
  created <-- call (CreateDirAll repo_path) ;;
  match (created : result string unit) with
  | Err _ => ret tt
  | Ok _ =>
      new_source_state <-- inspect_source trigger source repo_path trigger_ns ;;
      match new_source_state with
      | None => ret tt
      | Some new_source_state =>
          settle_source trigger trigger_ns trigger_name source checked_sources_
            new_source_state ;;;
          call (RemoveDirAll repo_path) ;;;
          ret tt
      end
  end.

(** The closure of the task. *)
Definition trigger_task (trigger_ns trigger_name : string) (task_sources_ : TriggerTaskSources)
    (source_clone_folder : string) : io Statics unit :=
  start <-- call InstantNow ;;
  trigger <-- on_api_cache (cache_get (K:=T) trigger_name (Some trigger_ns)) ;;
  match (trigger : result Error T) with
  | Ok trigger =>
      suffix <-- random_string 8 ;;
      let base_temp_dir :=
        source_clone_folder ^^ "/" ^^ trigger_ns ^^ "/" ^^ trigger_name ^^ "/" ^^ suffix in
      let checked_sources_ := known_sources trigger
        (checked_sources (unwrap_or TriggerStatus_default (trigger_status trigger))) in
      update_trigger_status trigger (Some Running) None None ;;;
      let sources_to_check := match task_sources_ with
        | All => list_to_set (names (sources trigger))
        | Single source => {[ source ]}
        end in
      order <-- call (HashSetOrder sources_to_check) ;;
      for_each (check_source trigger trigger_ns trigger_name base_temp_dir checked_sources_)
        (proj1_sig order) ;;;
      now <-- call UtcNow ;;
      update_trigger_status trigger (Some Idle) None (Some now) ;;;
      ret tt
  | Err _ => ret tt
  end ;;;
  finish <-- call InstantNow ;;
  trigger_count_and_measure trigger_ns (trigger_crd_kind T) trigger_name
    (Z.max 0 (finish - start)).
End any_trigger.

(** ** Schedule triggers and the scheduler *)

Record TriggersState := {
  tasks : gmap string TaskId;
  schedules : gmap string TriggerSchedule }.

Definition TriggersState_default : TriggersState := {| tasks := ∅; schedules := ∅ |}.

(** What the reconcilers work on: the shared context of controller.rs and
    the singletons. *)
Record ControllerState := {
  statics : Statics;
  triggers : TriggersState;
  last_event : Z }.

Definition on_statics {A} : io Statics A -> io ControllerState A :=
  zoom statics (fun s c => {| statics := s; triggers := triggers c;
                              last_event := last_event c |}).

Definition modify_triggers (f : TriggersState -> TriggersState) : io ControllerState unit :=
  modify (fun c => {| statics := statics c; triggers := f (triggers c);
                      last_event := last_event c |}).

Definition insert_task (k : string) (id : TaskId) (t : TriggersState) : TriggersState :=
  {| tasks := <[k := id]> (tasks t); schedules := schedules t |}.
Definition remove_task (k : string) (t : TriggersState) : TriggersState :=
  {| tasks := delete k (tasks t); schedules := schedules t |}.
Definition insert_schedule (k : string) (s : TriggerSchedule) (t : TriggersState)
    : TriggersState := {| tasks := tasks t; schedules := <[k := s]> (schedules t) |}.
Definition remove_schedule (k : string) (t : TriggersState) : TriggersState :=
  {| tasks := tasks t; schedules := delete k (schedules t) |}.

Inductive ReconcileAction : Type := AwaitChange.

Definition get_task_schedule {S} (self : ScheduleTrigger) (last_run_ : option SystemTime)
    : io S (result unit TaskSchedule) :=
  if TriggerSchedule_is_valid (sts_schedule (st_spec self)) then
    match sts_schedule (st_spec self) with
    | Interval interval =>
        match parse_humantime interval with
        | None => ret (Err tt)
        | Some interval =>
            match last_run_ with
            | Some last_run =>
                now <-- call SystemNow ;;
                match duration_since now last_run with
                | Err _ => panic
                | Ok since_last_run =>
                    let delay := unwrap_or (from_secs 0) (checked_sub interval since_last_run) in
                    ret (Ok (TaskIntervalDelayed interval delay))
                end
            | None => ret (Ok (TaskInterval interval))
            end
        end
    | Cron cron =>
        cron <-- unwrap (parse_cron cron) ;;
        ret (Ok (TaskCron cron (bool_decide (last_run_ = None)) false))
    end
  else ret (Err tt).

(** [status.last_run] as [reconcile] reads it: the filter keeps the value
    when it equals "Never". *)
Definition parse_last_run {S} (self : ScheduleTrigger) : io S (option SystemTime) :=
  match st_status self with
  | Some status =>
      match last_run status with
      | Some lr =>
          if String.eqb lr NEVER_LAST_RUN_STR
          then time <-- unwrap (parse_rfc3339 lr) ;; ret (Some time)
          else ret None
      | None => ret None
      end
  | None => ret None
  end.

Definition publish_trigger_validation_event {S} (self : ScheduleTrigger)
    (type_ note action : string) : io S (result Error unit) :=
  published <-- call (PublishEvent "ScheduleTrigger" (unwrap_or "" (st_namespace self))
                        (st_name self) type_ "ValidateTrigger" note action) ;;
  ret (map_err KubeError published).

Definition reconcile (self : ScheduleTrigger) (source_clone_folder : string)
    : io ControllerState (result Error ReconcileAction) :=
  key <-- trigger_hash_key self ;;
  ctx <-- get ;;
  if bool_decide (Some (sts_schedule (st_spec self)) <> schedules (triggers ctx) !! key) then
    match tasks (triggers ctx) !! key with
    | Some task_id =>
        modify_triggers (remove_task key) ;;;
        call (SchedulerCancel LeaderScheduler task_id CancelIgnore) ;;;
        ret tt
    | None => ret tt
    end ;;;
    last_run_ <-- parse_last_run self ;;
    schedule <-- get_task_schedule self last_run_ ;;
    added <-? match (schedule : result unit TaskSchedule) with
      | Ok schedule =>
          task <-- create_trigger_task self schedule All source_clone_folder ;;
          task_id <-- call (SchedulerAdd LeaderScheduler task) ;;
          match (task_id : result string TaskId) with
          | Err e => ret (Err (SchedulerError e))
          | Ok task_id => modify_triggers (insert_task key task_id) ;;; ret (Ok tt)
          end
      | Err _ =>
          publish_trigger_validation_event self "Warning"
            "Unable to parse schedule expression, scheduler is disabled" "ValidateTriggerConfig"
      end ;;
    updated <-? on_statics (update_trigger_status self None None None) ;;
    modify_triggers (insert_schedule key (sts_schedule (st_spec self))) ;;;
    ret (Ok AwaitChange)
  else ret (Ok AwaitChange).

Definition cleanup (self : ScheduleTrigger) : io ControllerState (result Error ReconcileAction) :=
  namespace <-- unwrap (st_namespace self) ;;
  key <-- trigger_hash_key self ;;
  ctx <-- get ;;
  (if bool_decide (is_Some (schedules (triggers ctx) !! key))
   then modify_triggers (remove_schedule key) else ret tt) ;;;
  ctx <-- get ;;
  match tasks (triggers ctx) !! key with
  | Some task_id =>
      modify_triggers (remove_task key) ;;;
      call (SchedulerCancel LeaderScheduler task_id CancelKill) ;;;
      ret tt
  | None => ret tt
  end ;;;
  ret (Ok AwaitChange).

Definition finalizer_name : option string := Some "scheduletriggers.git-events-runner.rs".
End Trigger.
