(* ===== verification/Crds.v ===== *)
(** * Custom resource definitions (src/src/resources/mod.rs and the
    [#[kube(...)]] attributes of trigger.rs, action.rs and git_repo.rs)

    What the derived definitions say besides their schemas, and what the rest
    of the program relies on: that a status can be patched and shown. *)

From stdpp Require Import base option gmap strings list.
From Stdlib Require Import Ascii ZArith.
From S2P Require Import Prelude Strs Serde Time Errors Config Ext Resources Wire WireFacts World Jobs Cache Statics Action GitRepo Trigger.
Local Open Scope string_scope.
Local Open Scope list_scope.

(** The arguments of the derive macro; a printed column has a name, a type and
    a JSON path. *)
Record Crd := {
  crd_kind : string;
  crd_group : string;
  crd_version : string;
  crd_namespaced : bool;
  crd_status : bool;
  crd_printcolumns : list (string * string * string) }.

Definition status_columns : list (string * string * string) := [
  ("State", "string", ".status.state");
  ("Last Run", "date", ".status.lastRun")].

Definition GitRepo_crd : Crd := {|
  crd_kind := "GitRepo"; crd_group := "git-events-runner.rs"; crd_version := "v1alpha1";
  crd_namespaced := true; crd_status := false; crd_printcolumns := [] |}.

Definition ClusterGitRepo_crd : Crd := {|
  crd_kind := "ClusterGitRepo"; crd_group := "git-events-runner.rs"; crd_version := "v1alpha1";
  crd_namespaced := false; crd_status := false; crd_printcolumns := [] |}.

Definition ScheduleTrigger_crd : Crd := {|
  crd_kind := "ScheduleTrigger"; crd_group := "git-events-runner.rs"; crd_version := "v1alpha1";
  crd_namespaced := true; crd_status := true; crd_printcolumns := status_columns |}.

Definition WebhookTrigger_crd : Crd := {|
  crd_kind := "WebhookTrigger"; crd_group := "git-events-runner.rs"; crd_version := "v1alpha1";
  crd_namespaced := true; crd_status := true; crd_printcolumns := status_columns |}.

Definition Action_crd : Crd := {|
  crd_kind := "Action"; crd_group := "git-events-runner.rs"; crd_version := "v1alpha1";
  crd_namespaced := true; crd_status := false; crd_printcolumns := [] |}.

Definition ClusterAction_crd : Crd := {|
  crd_kind := "ClusterAction"; crd_group := "git-events-runner.rs"; crd_version := "v1alpha1";
  crd_namespaced := false; crd_status := false; crd_printcolumns := [] |}.

(** [get_all_crds] *)
Definition get_all_crds : list Crd :=
  [GitRepo_crd; ClusterGitRepo_crd; ScheduleTrigger_crd; WebhookTrigger_crd; Action_crd;
   ClusterAction_crd].

(** ** What the program relies on *)

(** The definition of a kind, and its API version. *)
Definition crd_of (kind : string) : option Crd :=
  head (filter (fun crd => crd_kind crd = kind) get_all_crds).

Definition api_version (crd : Crd) : string := crd_group crd ^^ "/" ^^ crd_version crd.

(** The value at a JSON path like [.status.state]. *)
Definition json_path (path : string) (v : Value) : option Value :=
  at_path (tail (split "."%char path)) v.

(** The kinds of the program's traits are the kinds that are installed, once
    each, all in one API version. *)
Lemma crds_complete `{Ext} :
  crd_kind <$> get_all_crds
  = ["GitRepo"; "ClusterGitRepo"; trigger_crd_kind ScheduleTrigger;
     trigger_crd_kind WebhookTrigger; action_crd_kind (A:=Action);
     action_crd_kind (A:=ClusterAction)]
  /\ NoDup (crd_kind <$> get_all_crds)
  /\ Forall (fun crd => api_version crd = API_GROUP ^^ "/" ^^ CURRENT_API_VERSION) get_all_crds.
Proof.
  split; [done|]. split; [apply (bool_decide_unpack _); by vm_compute|].
  by repeat constructor.
Qed.

(** A published status has an addressee: for both kinds of triggers there is
    exactly one installed definition of that kind in the API version of the
    patch; it is namespaced and has a status, and every column it prints is
    a member of every status patch. *)
Theorem status_patch_has_addressee `{Ext} kind status order :
  kind ∈ [trigger_crd_kind ScheduleTrigger; trigger_crd_kind WebhookTrigger] ->
  exists crd, filter (fun crd => crd_kind crd = kind) get_all_crds = [crd]
    /\ member "kind" (status_patch kind status order) = Some (VStr (crd_kind crd))
    /\ member "apiVersion" (status_patch kind status order) = Some (VStr (api_version crd))
    /\ crd_namespaced crd = true /\ crd_status crd = true
    /\ Forall (fun column => is_Some (json_path column.2 (status_patch kind status order)))
         (crd_printcolumns crd).
Proof.
  rewrite !elem_of_cons. intros [->|[->|[]%elem_of_nil]];
    (eexists; split; [reflexivity|]; do 4 (split; [reflexivity|]);
     repeat constructor; by eexists).
Qed.
