(* ===== verification/TriggerFacts.v ===== *)
(** * Triggers: theorems

    The published status, the schedules, the reconciliation with the
    scheduler, the decision to run an action, and what a whole task may do. *)

From stdpp Require Import base option gmap sets strings list fin_maps.
From Stdlib Require Import Ascii ZArith Lia Permutation.
From S2P Require Import Prelude Strs Time Errors Config Ext Resources World Jobs JobsFacts Cache Statics Action GitRepo Trigger.
Local Open Scope string_scope.
Local Open Scope list_scope.

Section TriggerFacts.
Context `{Ext}.
Implicit Types (o : services) (t : trace).

(** ** Programs that leave their state alone *)

Lemma get_cached_stateless {K} `{!ApiCache K} name namespace :
  stateless (on_api_cache (cache_get (K:=K) name namespace)).
Proof.
  apply stateless_zoom; [by intros []|]. unfold cache_get, get_cache_store.
  keeps_step; [keeps_step; [auto with stateless|by keeps_run]|].
  keeps_step; [auto with stateless|]. by keeps_run.
Qed.

Lemma fetch_repo_ref_stateless {S R} `{!GitRepoInternals R} (self : R) ref_name path ns :
  stateless (fetch_repo_ref (S:=S) self ref_name path ns).
Proof.
  intros o s t. by apply wp_fetch_repo_ref.
Qed.

Lemma get_latest_commit_stateless {S} path ref : stateless (get_latest_commit (S:=S) path ref).
Proof. unfold get_latest_commit. keeps_run. Qed.

Lemma calc_file_hash_stateless {S} path : stateless (calc_file_hash (S:=S) path).
Proof. unfold calc_file_hash. keeps_run. Qed.

Lemma hash_files_stateless {S} entries hashed : stateless (hash_files (S:=S) entries hashed).
Proof.
  revert hashed. induction entries as [|[p|e] entries IH]; intros hashed; simpl; keeps_run.
Qed.

Lemma get_file_glob_hash_stateless {S} folder glob :
  stateless (get_file_glob_hash (S:=S) folder glob).
Proof.
  unfold get_file_glob_hash. keeps_step; [auto with stateless|].
  case_match; [apply hash_files_stateless|auto with stateless].
Qed.

Lemma random_string_stateless {S} n : stateless (random_string (S:=S) n).
Proof. induction n as [|n IH]; simpl; keeps_run. Qed.

#[local] Hint Resolve get_cached_stateless fetch_repo_ref_stateless get_latest_commit_stateless
  get_file_glob_hash_stateless random_string_stateless : stateless.

Section any_trigger.
Context {T : Type} `{!Trigger T}.

Lemma update_trigger_status_stateless (self : T) st ch lr :
  stateless (update_trigger_status self st ch lr).
Proof. unfold update_trigger_status. keeps_run. Qed.

Lemma inspect_source_stateless (trigger : T) source path ns :
  stateless (inspect_source trigger source path ns).
Proof. unfold inspect_source, fetch_source. keeps_run. Qed.
End any_trigger.

#[local] Hint Resolve update_trigger_status_stateless inspect_source_stateless : stateless.

(** ** The published status *)

Section status.
Context {T : Type} `{!Trigger T}.

Lemma wp_update_trigger_status (self : T) st ch lr o (s : Statics) t Q :
  cell (K:=T) (api_cache s) = true ->
  (trigger_namespace self = None -> Q Panic s t) ->
  (forall ns found, trigger_namespace self = Some ns ->
     let lookup := Ev (store_call (K:=T) ns (trigger_name self)) found in
     match store_answer (K:=T) _ _ found with
     | None => Q (Ret (Err (ResourceNotFoundError (ns ^^ "/" ^^ trigger_name self)))) s
                 (t ++ [lookup])
     | Some trigger => forall a,
         Q (Ret (map_err KubeError a)) s
           (t ++ [lookup; Ev (PatchStatus (trigger_crd_kind T) ns (trigger_name self)
                               (new_status trigger st ch lr)) a])
     end) ->
  wp (update_trigger_status self st ch lr) o s t Q.
Proof.
  intros Hcell Qpanic Qret. unfold update_trigger_status. do 2 wp_step.
  destruct (trigger_namespace self) as [ns|]; [|by apply Qpanic].
  wp_step. apply wp_get_cached; [done|]. intros found Hf. simpl in found, Hf |- *.
  specialize (Qret ns found eq_refl). simpl in Qret.
  destruct (store_answer ns (trigger_name self) found) as [trigger|]; [|exact Qret].
  do 2 wp_step. specialize (Qret r). rewrite <- app_assoc.
  destruct r as [[]|]; wp_step; exact Qret.
Qed.

(** Publishing a status: the current object is read from the cache
    and, when it is there, exactly one status patch is sent.  Of a trigger
    that has a status, the patched status keeps the old state and last run
    unless new ones are given, takes the given entries over the old ones
    source by source, and drops every entry of a source the trigger no
    longer has; a trigger without a status gets the defaults, with the
    last run "Never".  A trigger that is not in the cache is an error and
    sends nothing. *)
Theorem update_trigger_status_spec (self : T) st ch lr o (s : Statics) t :
  cell (K:=T) (api_cache s) = true ->
  wp (update_trigger_status self st ch lr) o s t (fun r s' t' => s' = s /\
    match trigger_namespace self with
    | None => r = Panic
    | Some ns => exists found,
        let lookup := Ev (store_call (K:=T) ns (trigger_name self)) found in
        match store_answer (K:=T) _ _ found with
        | None => t' = t ++ [lookup]
            /\ r = Ret (Err (ResourceNotFoundError (ns ^^ "/" ^^ trigger_name self)))
        | Some trigger => exists status a,
            t' = t ++ [lookup; Ev (PatchStatus (trigger_crd_kind T) ns (trigger_name self)
                                     status) a]
            /\ r = Ret (map_err KubeError a)
            /\ match trigger_status trigger with
               | Some old =>
                   state status = unwrap_or (state old) st
                   /\ last_run status
                      = match lr with Some lr => Some (rfc3339_secs lr) | None => last_run old end
                   /\ forall source, checked_sources status !! source =
                        if decide (source ∈ names (sources trigger))
                        then match unwrap_or ∅ ch !! source with
                             | Some new => Some new
                             | None => checked_sources old !! source
                             end
                        else None
               | None =>
                   state status = unwrap_or Idle st
                   /\ last_run status = Some (unwrap_or "Never" (rfc3339_secs <$> lr))
                   /\ checked_sources status = unwrap_or ∅ ch
               end
        end
    end).
Proof.
  intros Hcell. apply wp_update_trigger_status; [done|by intros ->|].
  intros ns found Hns. simpl. rewrite Hns.
  destruct (store_answer ns (trigger_name self) found) as [trigger|] eqn:Hf.
  - intros a. split; [done|]. exists found. rewrite Hf. eexists _, a.
    split; [reflexivity|]. split; [done|]. unfold new_status.
    destruct (trigger_status trigger) as [old|]; simpl.
    + split; [done|]. split; [done|]. intros source. unfold known_sources.
      rewrite map_lookup_filter. case_decide as Hin.
      * rewrite lookup_union. destruct (unwrap_or ∅ ch !! source), (checked_sources old !! source);
          simpl; by rewrite ?option_guard_True.
      * destruct ((unwrap_or ∅ ch ∪ checked_sources old) !! source); simpl; [|done].
        by rewrite option_guard_False.
    + split; [done|]. split; [by destruct lr|done].
  - split; [done|]. exists found. by rewrite Hf.
Qed.
End status.

(** ** Schedules *)

(** The schedule of a task, given when the trigger last ran: an invalid
    expression is an error; an interval that has run is delayed by what is
    left of it, at least nothing and at most the whole interval, so that the
    next run comes one interval after the last one unless that is past; an
    interval that never ran is not delayed; a cron task starts at once only
    if it never ran, and never overlaps itself.  The clock is only expected
    not to be before the last run. *)
Theorem get_task_schedule_spec {S} (self : ScheduleTrigger) last_run_ o (s : S) t :
  (forall lr, last_run_ = Some lr -> (lr <= o t SystemNow)%Z) ->
  (forall i d, parse_humantime i = Some d -> (0 <= d)%Z) ->
  wp (get_task_schedule self last_run_) o s t (fun r s' _ => s' = s /\
    match sts_schedule (st_spec self) with
    | Interval i =>
        match parse_humantime i with
        | None => r = Ret (Err tt)
        | Some interval =>
            match last_run_ with
            | None => r = Ret (Ok (TaskInterval interval))
            | Some lr => exists delay, r = Ret (Ok (TaskIntervalDelayed interval delay))
                /\ (0 <= delay <= interval)%Z
                /\ (o t SystemNow + delay = Z.max (o t SystemNow) (lr + interval))%Z
            end
        end
    | Cron c =>
        match parse_cron c with
        | None => r = Ret (Err tt)
        | Some cron => exists at_start, r = Ret (Ok (TaskCron cron at_start false))
            /\ (at_start = true <-> last_run_ = None)
        end
    end).
Proof.
  intros Hclock Hpos. unfold get_task_schedule, TriggerSchedule_is_valid.
  destruct (sts_schedule (st_spec self)) as [i|c].
  - destruct (parse_humantime i) as [interval|] eqn:Hi.
    + rewrite bool_decide_eq_true_2 by by eexists.
      destruct last_run_ as [lr|]; [|by wp_step]. specialize (Hclock lr eq_refl).
      specialize (Hpos i interval Hi). do 2 wp_step. unfold duration_since.
      rewrite bool_decide_eq_true_2 by by subst. wp_step. split; [done|].
      eexists. split; [done|]. unfold checked_sub, from_secs. subst r.
      case_bool_decide; simpl; lia.
    + rewrite bool_decide_eq_false_2 by by intros [??]. by wp_step.
  - destruct (parse_cron c) as [cron|]; [|by wp_step].
    do 3 wp_step. split; [done|]. eexists. split; [done|]. apply bool_decide_eq_true.
Qed.

(** ** The last run is lost *)

Lemma wp_parse_last_run {S} (self : ScheduleTrigger) o (s : S) t Q :
  parse_rfc3339 NEVER_LAST_RUN_STR = None ->
  (st_status self ≫= last_run = Some NEVER_LAST_RUN_STR -> Q Panic s t) ->
  (st_status self ≫= last_run <> Some NEVER_LAST_RUN_STR -> Q (Ret None) s t) ->
  wp (parse_last_run self) o s t Q.
Proof.
  intros Hnever Qpanic Qnone. unfold parse_last_run.
  destruct (st_status self) as [status|]; simpl in *; [|wp_step; by apply Qnone].
  destruct (last_run status) as [lr|]; [|wp_step; by apply Qnone].
  destruct (String.eqb_spec lr NEVER_LAST_RUN_STR) as [->|Hne].
  - do 2 wp_step. rewrite Hnever. by apply Qpanic.
  - wp_step. apply Qnone. congruence.
Qed.

(** The time of the last run is never used: the filter of [reconcile]
    keeps exactly the value "Never" and drops every real time.  So whatever
    the status says, no interval is ever delayed and every cron task starts
    at once, as if the trigger had never run, contrary to the schedule for a
    known last run.  The text "Never" is not an RFC 3339 time. *)
Theorem last_run_never_used {S} (self : ScheduleTrigger) o (s : S) t :
  parse_rfc3339 NEVER_LAST_RUN_STR = None ->
  wp (last_run_ <-- parse_last_run self ;; get_task_schedule self last_run_)%prog o s t
    (fun r s' _ => s' = s /\
      match r with
      | Panic => st_status self ≫= last_run = Some NEVER_LAST_RUN_STR
      | Ret (Err _) => TriggerSchedule_is_valid (sts_schedule (st_spec self)) = false
      | Ret (Ok schedule) =>
          match schedule with
          | TaskInterval _ => True
          | TaskCron _ at_start _ => at_start = true
          | _ => False
          end
      end).
Proof.
  intros Hnever. wp_step. apply wp_parse_last_run; [done|done|]. intros _.
  unfold get_task_schedule, TriggerSchedule_is_valid.
  destruct (sts_schedule (st_spec self)) as [i|c].
  - destruct (parse_humantime i); case_bool_decide as Hv; try (by wp_step); by destruct Hv.
  - destruct (parse_cron c); [|by wp_step]. by do 3 wp_step.
Qed.

(** ** Reconciliation and the scheduler *)

Definition cancelled_in t (id : TaskId) : Prop :=
  exists opts r, Ev (SchedulerCancel LeaderScheduler id opts) r ∈ t.

Definition task_key (task : Task) : string := task_trigger_ns task ^^ "/" ^^ task_trigger_name task.

(** The scheduler answered a cancellation with an error. *)
Definition refused_in t (id : TaskId) : Prop :=
  exists opts e, Ev (SchedulerCancel LeaderScheduler id opts) (Err e) ∈ t.

(** The tasks that the leader's scheduler was given and still has: a
    cancellation that succeeded takes one away, the shutdown all, and a new
    scheduler has none. *)
Definition live_step (live : gmap TaskId Task) (e : event resp) : gmap TaskId Task :=
  match e with
  | Ev c r =>
      match c as c return resp c -> gmap TaskId Task with
      | SchedulerBuild LeaderScheduler _ => fun _ => ∅
      | SchedulerAdd LeaderScheduler task => fun r =>
          match r with Ok id => <[id := task]> live | Err _ => live end
      | SchedulerCancel LeaderScheduler id _ => fun r =>
          match r with Ok _ => delete id live | Err _ => live end
      | SchedulerShutdown LeaderScheduler => fun _ => ∅
      | _ => fun _ => live
      end r
  end.

Definition live t : gmap TaskId Task := foldl live_step ∅ t.

(** The event adds a task to the leader's scheduler. *)
Definition added (e : event resp) : option Task :=
  match e with
  | Ev c r =>
      match c as c return resp c -> option Task with
      | SchedulerAdd LeaderScheduler task => fun r =>
          match r with Ok _ => Some task | Err _ => None end
      | _ => fun _ => None
      end r
  end.

(** At no moment of a trace is a task added for a trigger that has a live one,
    unless the scheduler had refused to cancel that one. *)
Definition one_task_each t : Prop :=
  forall t1 e t2 task id task', t = t1 ++ e :: t2 -> added e = Some task ->
    live t1 !! id = Some task' -> task_key task' = task_key task -> refused_in t1 id.

(** No trigger has had two live tasks, and every live task is the one in the
    table under the key of its trigger, or its cancellation was refused. *)
Definition no_orphans (c : ControllerState) t : Prop :=
  one_task_each t
  /\ forall id task, live t !! id = Some task ->
       tasks (triggers c) !! task_key task = Some id \/ refused_in t id.

Definition not_add (e : event resp) : Prop :=
  match e with
  | Ev c r => match c as c return resp c -> Prop with
              | SchedulerAdd _ _ => fun r => is_ok r = false
              | _ => fun _ => True
              end r
  end.

Lemma live_app t new : live (t ++ new) = foldl live_step (live t) new.
Proof. apply foldl_app. Qed.

Lemma refused_app t new id : refused_in t id -> refused_in (t ++ new) id.
Proof. intros (opts & e & Hin). exists opts, e. set_solver. Qed.

Lemma one_task_each_nil : one_task_each [].
Proof. intros t1 e t2 task id task' Ht. by destruct t1. Qed.

Lemma one_task_each_snoc t e :
  one_task_each t ->
  (forall task id task', added e = Some task -> live t !! id = Some task' ->
     task_key task' = task_key task -> refused_in t id) ->
  one_task_each (t ++ [e]).
Proof.
  intros Ht He t1 e' t2 task id task' Heq. destruct t2 as [|e2 t2 _] using rev_ind.
  - apply app_inj_tail in Heq as [<- <-]. apply He.
  - rewrite app_comm_cons, app_assoc in Heq. apply app_inj_tail in Heq as [Heq _].
    by eapply Ht.
Qed.

Lemma not_add_added e : not_add e -> added e = None.
Proof. destruct e as [[] r]; try done. simpl. destruct s, r; done. Qed.

Lemma live_step_not_add l e id task :
  not_add e -> live_step l e !! id = Some task -> l !! id = Some task.
Proof.
  intros He. destruct e as [[] r]; simpl in *; try done; try (destruct s; try done).
  - by destruct r.
  - destruct r; [|done]. rewrite lookup_delete_Some. tauto.
Qed.

Lemma live_not_add l new id task :
  Forall not_add new -> foldl live_step l new !! id = Some task -> l !! id = Some task.
Proof.
  intros Hnew. revert l. induction Hnew as [|e new He _ IH]; intros l; simpl; [done|].
  intros Hid%IH. by eapply live_step_not_add.
Qed.

Lemma one_task_each_not_add t new :
  one_task_each t -> Forall not_add new -> one_task_each (t ++ new).
Proof.
  intros Ht. induction new as [|e new IH] using rev_ind; [by rewrite app_nil_r|].
  intros [Hnew He%Forall_inv]%Forall_app. rewrite app_assoc. apply one_task_each_snoc; [by apply IH|].
  intros task id task' Hadd. by rewrite (not_add_added e He) in Hadd.
Qed.

Lemma cancelled_app t new id : cancelled_in t id -> cancelled_in (t ++ new) id.
Proof. intros (opts & r & Hin). exists opts, r. set_solver. Qed.

(** Calls that add no task, from the same table of tasks. *)
Lemma no_orphans_quiet c c' t new :
  no_orphans c t -> Forall not_add new -> tasks (triggers c') = tasks (triggers c) ->
  no_orphans c' (t ++ new).
Proof.
  intros [Hone Hlive] Hnew Htasks. split; [by apply one_task_each_not_add|].
  intros id task. rewrite live_app, Htasks. intros Hid.
  destruct (Hlive id task) as [|]; [by eapply live_not_add|by left|right; by apply refused_app].
Qed.

Lemma no_orphans_same c c' t :
  no_orphans c t -> tasks (triggers c') = tasks (triggers c) -> no_orphans c' t.
Proof. intros Hc Htasks. rewrite <- (app_nil_r t). by eapply no_orphans_quiet. Qed.

(** The table seen from one key. *)
Definition same_elsewhere (key : string) (c c' : ControllerState) : Prop :=
  forall k, k <> key -> tasks (triggers c') !! k = tasks (triggers c) !! k
    /\ schedules (triggers c') !! k = schedules (triggers c) !! k.

(** Dropping the task of a key, with its cancellation. *)
Definition drop_task (key : string) (opts : CancelOpts) (c : ControllerState)
    : io ControllerState unit :=
  (match tasks (triggers c) !! key with
   | Some task_id =>
       modify_triggers (remove_task key) ;;;
       call (SchedulerCancel LeaderScheduler task_id opts) ;;;
       ret tt
   | None => ret tt
   end)%prog.

Lemma wp_drop_task key opts o c t Q :
  no_orphans c t ->
  (forall c' new, Forall not_add new -> no_orphans c' (t ++ new) ->
     tasks (triggers c') = delete key (tasks (triggers c)) ->
     schedules (triggers c') = schedules (triggers c) -> statics c' = statics c ->
     (forall id, tasks (triggers c) !! key = Some id -> cancelled_in (t ++ new) id) ->
     Q (Ret tt) c' (t ++ new)) ->
  wp (drop_task key opts c) o c t Q.
Proof.
  intros Hc HQ. unfold drop_task. destruct (tasks (triggers c) !! key) as [id|] eqn:Hk.
  - wp_step. unfold modify_triggers. wp_step. do 3 wp_step.
    assert (Hcan : forall r, cancelled_in (t ++ [Ev (SchedulerCancel LeaderScheduler id opts) r]) id).
    { intros r0. eexists opts, _. apply elem_of_app. right. by left. }
    apply HQ; [by repeat constructor| |done..|intros id' [= <-]; apply Hcan].
    destruct Hc as [Hone Hlive]. split; [by apply one_task_each_not_add; [|repeat constructor]|].
    intros id' task. rewrite live_app. simpl. intros Hid.
    destruct (decide (id' = id)) as [->|Hne].
    + destruct r as [u|e]; [by rewrite lookup_delete_eq in Hid|].
      right. exists opts, e. apply elem_of_app. right. by left.
    + assert (Hid' : live t !! id' = Some task).
      { destruct r; [by rewrite lookup_delete_ne in Hid|done]. }
      destruct (Hlive _ _ Hid') as [Htab|Href]; [left|right; by apply refused_app].
      rewrite lookup_delete_ne; [done|]. intros Heq. rewrite <- Heq, Hk in Htab. congruence.
  - wp_step. specialize (HQ c []). rewrite app_nil_r in HQ.
    apply HQ; [done|done| |done..]. by rewrite delete_id.
Qed.

Lemma update_trigger_status_not_add {T} `{!Trigger T} (self : T) st ch lr :
  calls_in not_add (on_statics (update_trigger_status self st ch lr)).
Proof.
  apply calls_in_zoom. unfold update_trigger_status.
  calls_step; [calls_run|]. calls_step; [|by calls_run].
  apply calls_in_cached. by intros [] r.
Qed.

Lemma get_task_schedule_not_add {S} self lr : calls_in not_add (get_task_schedule (S:=S) self lr).
Proof. unfold get_task_schedule. by calls_run. Qed.

Lemma get_task_schedule_stateless {S} self lr : stateless (get_task_schedule (S:=S) self lr).
Proof. unfold get_task_schedule. keeps_run. Qed.

Lemma parse_last_run_not_add {S} self : calls_in not_add (parse_last_run (S:=S) self).
Proof. unfold parse_last_run. by calls_run. Qed.

Lemma parse_last_run_stateless {S} self : stateless (parse_last_run (S:=S) self).
Proof. unfold parse_last_run. keeps_run. Qed.

Lemma get_task_schedule_valid {S} self lr o (s : S) t Q :
  (forall new r, Forall not_add new ->
     (r = Ret (Err tt) -> TriggerSchedule_is_valid (sts_schedule (st_spec self)) = false) ->
     (forall sched, r = Ret (Ok sched) ->
        TriggerSchedule_is_valid (sts_schedule (st_spec self)) = true) ->
     Q r s (t ++ new)) ->
  wp (get_task_schedule self lr) o s t Q.
Proof.
  intros HQ. eapply wp_mono; [apply wp_and;
    [apply (get_task_schedule_stateless self lr)|apply wp_and;
      [apply (get_task_schedule_not_add self lr)|]]|].
  - instantiate (1 := fun r _ _ =>
     (r = Ret (Err tt) -> TriggerSchedule_is_valid (sts_schedule (st_spec self)) = false) /\
     (forall sched, r = Ret (Ok sched) ->
        TriggerSchedule_is_valid (sts_schedule (st_spec self)) = true)).
    unfold get_task_schedule. destruct (TriggerSchedule_is_valid _) eqn:Hv; [|by wp_step].
    unfold TriggerSchedule_is_valid in Hv. destruct (sts_schedule (st_spec self)).
    + destruct (parse_humantime interval); [|by case_bool_decide as Hd; destruct Hd].
      destruct lr; [|by wp_step]. do 2 wp_step. by case_match; wp_step.
    + destruct (parse_cron cron); [|done]. by do 3 wp_step.
  - intros r s' t' (-> & (new & -> & Hnew) & H1 & H2). by apply HQ.
Qed.

(** A trigger published as never run: the status that
    [update_trigger_status] itself writes for a new trigger carries "Never",
    and reading that value back panics. *)
Lemma wp_reconcile_never_run (self : ScheduleTrigger) folder ns o (c : ControllerState) t :
  parse_rfc3339 NEVER_LAST_RUN_STR = None ->
  st_namespace self = Some ns ->
  schedules (triggers c) !! (ns ^^ "/" ^^ st_name self) <> Some (sts_schedule (st_spec self)) ->
  st_status self ≫= last_run = Some NEVER_LAST_RUN_STR -> no_orphans c t ->
  wp (reconcile self folder) o c t (fun r c' t' => r = Panic /\
    tasks (triggers c') = delete (ns ^^ "/" ^^ st_name self) (tasks (triggers c)) /\
    exists new, t' = t ++ new /\ Forall not_add new).
Proof.
  intros Hnever Hns Hsched Hst Hc. unfold reconcile, trigger_hash_key. simpl trigger_namespace.
  do 3 wp_step. rewrite Hns. do 3 wp_step. simpl trigger_name.
  rewrite bool_decide_eq_true_2 by congruence.
  wp_step. apply (wp_drop_task _ CancelIgnore); [done|].
  intros c' new Hnew _ Htasks _ _ _. wp_step.
  apply wp_parse_last_run; [done| |by rewrite Hst]. intros _. by eauto.
Qed.

(** The task that [reconcile] hands to the scheduler. *)
Definition is_task_of (self : ScheduleTrigger) (ns folder : string) (task : Task) : Prop :=
  task_trigger_kind task = "ScheduleTrigger" /\ task_trigger_ns task = ns
  /\ task_trigger_name task = st_name self /\ task_sources task = All
  /\ task_source_clone_folder task = folder.

Definition reconciled (self : ScheduleTrigger) ns folder (c : ControllerState) t
    (r : outcome (result Error ReconcileAction)) (c' : ControllerState) t' : Prop :=
  let key := ns ^^ "/" ^^ st_name self in
  let schedule := sts_schedule (st_spec self) in
  no_orphans c' t' /\ same_elsewhere key c c' /\
  if bool_decide (schedules (triggers c) !! key = Some schedule)
  then r = Ret (Ok AwaitChange) /\ c' = c /\ t' = t
  else
    (forall id, tasks (triggers c) !! key = Some id -> cancelled_in t' id)
    /\ (tasks (triggers c') !! key = None
     \/ exists id task new, t' = t ++ new /\ tasks (triggers c') !! key = Some id
          /\ Ev (SchedulerAdd LeaderScheduler task) (Ok id) ∈ new
          /\ is_task_of self ns folder task
          /\ TriggerSchedule_is_valid schedule = true)
    /\ match r with
       | Ret (Ok _) => schedules (triggers c') !! key = Some schedule
           /\ (TriggerSchedule_is_valid schedule = true -> is_Some (tasks (triggers c') !! key))
       | _ => schedules (triggers c') !! key = schedules (triggers c) !! key
       end.

Lemma no_orphans_add c t key task id :
  no_orphans c t -> tasks (triggers c) !! key = None -> task_key task = key ->
  no_orphans {| statics := statics c; triggers := insert_task key id (triggers c);
                last_event := last_event c |}
    (t ++ [Ev (SchedulerAdd LeaderScheduler task) (Ok id)]).
Proof.
  intros [Hone Hlive] Hkey <-. split.
  - apply one_task_each_snoc; [done|]. intros task' id' task'' [= <-] Hid Hsame.
    destruct (Hlive _ _ Hid) as [Htab|]; [congruence|done].
  - intros id' task'. rewrite live_app. simpl.
    intros [[<- <-]|[Hne Hid]]%lookup_insert_Some; [left; apply lookup_insert_eq|].
    destruct (Hlive _ _ Hid) as [Htab|]; [left|right; by apply refused_app].
    rewrite lookup_insert_ne; congruence.
Qed.

(** The last part of [reconcile]: publish the status, remember the schedule. *)
Lemma wp_reconcile_finish (self : ScheduleTrigger) key o c t Q :
  no_orphans c t ->
  (forall c' new r, Forall not_add new -> no_orphans c' (t ++ new) ->
     tasks (triggers c') = tasks (triggers c) ->
     match r with
     | Ret (Ok _) => schedules (triggers c')
         = <[key := sts_schedule (st_spec self)]> (schedules (triggers c))
     | _ => schedules (triggers c') = schedules (triggers c)
     end -> Q r c' (t ++ new)) ->
  wp (updated <-? on_statics (update_trigger_status self None None None) ;;
      modify_triggers (insert_schedule key (sts_schedule (st_spec self))) ;;;
      ret (Ok AwaitChange))%prog o c t Q.
Proof.
  intros Hc HQ. wp_step. eapply wp_mono; [apply wp_and;
    [apply (update_trigger_status_not_add self None None None)
    |apply (stateless_zoom statics); [by intros []|apply update_trigger_status_stateless]]|].
  intros r c' t' [(new & -> & Hnew) ->].
  destruct r as [[u|e]|]; [|by apply HQ; [|eapply no_orphans_quiet|..]..].
  wp_step. unfold modify_triggers. do 2 wp_step.
  apply HQ; [done| |done..]. by eapply no_orphans_quiet.
Qed.

(** What a reconciliation that got to its last part, in the state [c1], has
    done. *)
Lemma reconciled_finish (self : ScheduleTrigger) ns folder c t c1 r c' t' :
  let key := ns ^^ "/" ^^ st_name self in
  let schedule := sts_schedule (st_spec self) in
  schedules (triggers c) !! key <> Some schedule ->
  (forall id, tasks (triggers c) !! key = Some id -> cancelled_in t' id) ->
  same_elsewhere key c c1 -> schedules (triggers c1) = schedules (triggers c) ->
  (tasks (triggers c1) !! key = None
   \/ exists id task new, t' = t ++ new /\ tasks (triggers c1) !! key = Some id
        /\ Ev (SchedulerAdd LeaderScheduler task) (Ok id) ∈ new
        /\ is_task_of self ns folder task
        /\ TriggerSchedule_is_valid schedule = true) ->
  (TriggerSchedule_is_valid schedule = true -> is_Some (tasks (triggers c1) !! key)) ->
  no_orphans c' t' -> tasks (triggers c') = tasks (triggers c1) ->
  match r with
  | Ret (Ok _) => schedules (triggers c') = <[key := schedule]> (schedules (triggers c1))
  | _ => schedules (triggers c') = schedules (triggers c1)
  end -> reconciled self ns folder c t r c' t'.
Proof.
  intros key schedule Hdiff Hcan Helse Hs1 Htask Hvalid Hc' Ht Hs. unfold reconciled. cbv zeta.
  fold key. fold schedule. rewrite bool_decide_eq_false_2, Ht by done.
  split; [done|]. split.
  { intros k Hk. rewrite Ht. split; [by apply Helse|].
    destruct r as [[?|?]|]; rewrite Hs, ?lookup_insert_ne by done; by rewrite Hs1. }
  split; [done|]. split; [done|]. destruct r as [[?|?]|]; [|by rewrite Hs, Hs1..].
  by rewrite Hs, lookup_insert_eq.
Qed.

(** A reconciliation that failed before it made a task. *)
Lemma reconciled_failed (self : ScheduleTrigger) ns folder c t r c' t' :
  let key := ns ^^ "/" ^^ st_name self in
  schedules (triggers c) !! key <> Some (sts_schedule (st_spec self)) ->
  (forall id, tasks (triggers c) !! key = Some id -> cancelled_in t' id) ->
  same_elsewhere key c c' -> schedules (triggers c') = schedules (triggers c) ->
  tasks (triggers c') !! key = None -> no_orphans c' t' ->
  (forall a, r <> Ret (Ok a)) -> reconciled self ns folder c t r c' t'.
Proof.
  intros key Hdiff Hcan Helse Hs Hnone Hc' Hr. unfold reconciled. cbv zeta. fold key.
  rewrite bool_decide_eq_false_2, Hs by done. do 3 (split; [done|]). split; [by left|].
  destruct r as [[a|?]|]; [|done..]. by destruct (Hr a).
Qed.

Lemma wp_reconcile (self : ScheduleTrigger) ns folder o c t :
  st_namespace self = Some ns -> no_orphans c t ->
  wp (reconcile self folder) o c t (reconciled self ns folder c t).
Proof.
  intros Hns Hc. unfold reconcile, trigger_hash_key. simpl trigger_namespace.
  simpl trigger_name. do 3 wp_step. rewrite Hns. do 3 wp_step.
  set (key := ns ^^ "/" ^^ st_name self). set (schedule := sts_schedule (st_spec self)).
  destruct (decide (schedules (triggers c) !! key = Some schedule)) as [Hsame|Hdiff].
  { rewrite (bool_decide_eq_false_2 (_ <> _)) by congruence. wp_step. unfold reconciled.
    cbv zeta. by rewrite (bool_decide_eq_true_2 (_ = _)). }
  rewrite (bool_decide_eq_true_2 (_ <> _)) by congruence.
  wp_step. apply (wp_drop_task key CancelIgnore); [done|].
  intros c1 new1 Hnew1 Hc1 Htasks1 Hsched1 _ Hcancelled.
  assert (Hcan : forall new, (exists more, new = (t ++ new1) ++ more) ->
    forall id, tasks (triggers c) !! key = Some id -> cancelled_in new id).
  { intros new [more ->] id Hid. by apply cancelled_app, Hcancelled. }
  assert (Helse1 : same_elsewhere key c c1).
  { intros k Hk. rewrite Htasks1, Hsched1. by rewrite lookup_delete_ne. }
  assert (Hnone1 : tasks (triggers c1) !! key = None) by (rewrite Htasks1; apply lookup_delete_eq).
  wp_step. eapply wp_mono; [apply wp_and;
    [apply parse_last_run_stateless|apply parse_last_run_not_add]|].
  intros r c2 t2 [-> (new2 & -> & Hnew2)].
  assert (Hc2 : no_orphans c1 ((t ++ new1) ++ new2)) by by eapply no_orphans_quiet.
  destruct r as [lr|]; [|by apply reconciled_failed; [done|apply Hcan; eexists; by rewrite <- !app_assoc|..]].
  wp_step. apply get_task_schedule_valid. intros new3 r Hnew3 Hinv Hval.
  assert (Hc3 : no_orphans c1 (((t ++ new1) ++ new2) ++ new3)) by by eapply no_orphans_quiet.
  destruct r as [[sched|[]]|]; [| |by apply reconciled_failed; [done|apply Hcan; eexists; by rewrite <- !app_assoc|..]].
  - wp_step. unfold create_trigger_task. do 2 wp_step. simpl trigger_namespace. rewrite Hns.
    do 3 wp_step. wp_step. destruct r as [id|e]; cycle 1.
    { wp_step. apply reconciled_failed; [done|apply Hcan; eexists; by rewrite <- !app_assoc|done..| |done].
      eapply no_orphans_quiet; [done| |done]. constructor; [reflexivity|constructor]. }
    unfold modify_triggers at 1. do 3 wp_step.
    set (add := Ev (SchedulerAdd LeaderScheduler _) _).
    apply wp_reconcile_finish; [by apply no_orphans_add|].
    intros c' new r Hnew Hc' Htasks Hsched.
    refine (reconciled_finish _ _ _ _ _ _ _ _ _ Hdiff _ _ _ _ _ Hc' Htasks Hsched).
    + apply Hcan. eexists. by rewrite <- !app_assoc.
    + intros k Hk. simpl. rewrite lookup_insert_ne by done. by apply Helse1.
    + exact Hsched1.
    + right. eexists id, _, (new1 ++ new2 ++ new3 ++ [add] ++ new).
      split; [by rewrite <- !app_assoc|]. split; [apply lookup_insert_eq|].
      split; [rewrite !elem_of_app; do 3 right; left; apply list_elem_of_singleton;
        reflexivity|].
      split; [by repeat split|]. by eapply Hval.
    + intros _. simpl. rewrite lookup_insert_eq. by eexists.
  - wp_step. unfold publish_trigger_validation_event. do 3 wp_step.
    assert (Hc4 : no_orphans c1 ((((t ++ new1) ++ new2) ++ new3)
       ++ [Ev (PublishEvent "ScheduleTrigger" (unwrap_or "" (st_namespace self)) (st_name self)
             "Warning" "ValidateTrigger"
             "Unable to parse schedule expression, scheduler is disabled"
             "ValidateTriggerConfig") r])).
    { eapply no_orphans_quiet; [done| |done]. by repeat constructor. }
    destruct r as [[]|e]; simpl map_err; [|by apply reconciled_failed; [done|apply Hcan; eexists; by rewrite <- !app_assoc|..]].
    apply wp_reconcile_finish; [done|].
    intros c' new r Hnew Hc' Htasks Hsched.
    refine (reconciled_finish _ _ _ _ _ _ _ _ _ Hdiff _ Helse1 Hsched1 (or_introl Hnone1) _ Hc'
      Htasks Hsched).
    { apply Hcan. eexists. by rewrite <- !app_assoc. }
    intros Hv. by rewrite Hinv in Hv.
Qed.

(** C23. Reconciling a schedule trigger: nothing at all when its schedule is
    the recorded one.  Otherwise the previous task is gone from the table and
    its cancellation was requested; when it succeeds
    the schedule is recorded, and there is a task for the key exactly when
    the schedule is valid, handed to the scheduler for this trigger and all
    its sources; when it fails the recorded schedule stays, so that the next
    reconciliation tries again.  No other trigger is touched, and whatever
    fails or panics on the way, no task is ever left running unknown to the
    controller: each live one is the one in the table for its trigger, and no
    trigger ever has two, but for those that the scheduler refused to cancel,
    which the code only logs. *)
Theorem reconcile_spec (self : ScheduleTrigger) ns folder o c t :
  st_namespace self = Some ns -> no_orphans c t ->
  wp (reconcile self folder) o c t (reconciled self ns folder c t).
Proof. apply wp_reconcile. Qed.

(** What the cleanup of a trigger leaves. *)
Definition cleaned (self : ScheduleTrigger) ns o (c : ControllerState)
    (r : outcome (result Error ReconcileAction)) (c' : ControllerState) (t' : trace) : Prop :=
  let key := ns ^^ "/" ^^ st_name self in
  r = Ret (Ok AwaitChange) /\ no_orphans c' t' /\ same_elsewhere key c c'
  /\ tasks (triggers c') !! key = None /\ schedules (triggers c') !! key = None
  /\ (forall id, tasks (triggers c) !! key = Some id -> cancelled_in t' id)
  /\ wp (cleanup self) o c' t' (fun r' c'' t'' => r' = r /\ c'' = c' /\ t'' = t').

Lemma wp_cleanup (self : ScheduleTrigger) ns o c t :
  st_namespace self = Some ns -> no_orphans c t ->
  wp (cleanup self) o c t (cleaned self ns o c).
Proof.
  intros Hns Hc. unfold cleaned. set (key := ns ^^ "/" ^^ st_name self).
  assert (Hnoop : forall c' t', tasks (triggers c') !! key = None ->
    schedules (triggers c') !! key = None ->
    wp (cleanup self) o c' t' (fun r' c'' t'' => r' = Ret (Ok AwaitChange) /\ c'' = c' /\ t'' = t')).
  { intros c' t' Ht Hs. unfold cleanup, trigger_hash_key. simpl trigger_namespace.
    simpl trigger_name. rewrite Hns. do 7 wp_step. do 2 wp_step. fold key. rewrite Hs.
    rewrite bool_decide_eq_false_2 by by intros [??]. do 3 wp_step. wp_step. rewrite Ht.
    by do 2 wp_step. }
  unfold cleanup at 1, trigger_hash_key. simpl trigger_namespace. simpl trigger_name.
  rewrite Hns. do 7 wp_step. do 2 wp_step. fold key.
  eapply wp_mono with (P := fun r c1 t1 => r = Ret tt /\ t1 = t /\ statics c1 = statics c
    /\ tasks (triggers c1) = tasks (triggers c)
    /\ schedules (triggers c1) = delete key (schedules (triggers c))).
  { case_bool_decide as Hs.
    - unfold modify_triggers. by wp_step.
    - wp_step. split; [done|]. split; [done|]. split; [done|]. split; [done|].
      rewrite delete_id; [done|]. by apply eq_None_not_Some. }
  intros r c1 t1 (-> & -> & Hst & Htasks & Hsched). do 3 wp_step.
  assert (Hc1 : no_orphans c1 t) by by eapply no_orphans_same.
  apply (wp_drop_task key CancelKill); [done|].
  intros c2 new Hnew Hc2 Htasks2 Hsched2 Hst2 Hcan. wp_step.
  assert (Hnone : tasks (triggers c2) !! key = None /\ schedules (triggers c2) !! key = None).
  { rewrite Htasks2, Hsched2, Hsched. by rewrite !lookup_delete_eq. }
  split; [done|]. split; [done|]. split.
  { intros k Hk. rewrite Htasks2, Htasks, Hsched2, Hsched. by rewrite !lookup_delete_ne. }
  split; [apply Hnone|]. split; [apply Hnone|]. split; [by rewrite <- Htasks|].
  apply Hnoop; apply Hnone.
Qed.

(** C24. Deleting a schedule trigger: its schedule and its task leave the
    tables and the task's cancellation is requested; other triggers keep
    theirs, no task is orphaned (unless the scheduler refused to cancel it),
    and doing it again changes nothing. *)
Theorem cleanup_spec (self : ScheduleTrigger) ns o c t :
  st_namespace self = Some ns -> no_orphans c t ->
  wp (cleanup self) o c t (fun r c' t' =>
    let key := ns ^^ "/" ^^ st_name self in
    r = Ret (Ok AwaitChange) /\ no_orphans c' t' /\ same_elsewhere key c c'
    /\ tasks (triggers c') !! key = None /\ schedules (triggers c') !! key = None
    /\ (forall id, tasks (triggers c) !! key = Some id -> cancelled_in t' id)
    /\ wp (cleanup self) o c' t' (fun r' c'' t'' => r' = r /\ c'' = c' /\ t'' = t')).
Proof. apply wp_cleanup. Qed.

(** A reconciliation that fails half-way leaves the recorded schedule
    behind the scheduler: the old task is already cancelled, and the new one
    may already run.  If the user then takes the change back, the old
    schedule equals the recorded one and nothing happens: the trigger stays
    without its task, or with a task on the schedule that was withdrawn. *)
Theorem failed_reconcile_then_revert (self reverted : ScheduleTrigger) ns folder o c t :
  st_namespace self = Some ns -> st_namespace reverted = Some ns ->
  st_name reverted = st_name self -> no_orphans c t ->
  schedules (triggers c) !! (ns ^^ "/" ^^ st_name self)
    = Some (sts_schedule (st_spec reverted)) ->
  sts_schedule (st_spec self) <> sts_schedule (st_spec reverted) ->
  wp (reconcile self folder) o c t (fun r c' t' => (exists e, r = Ret (Err e)) ->
    wp (reconcile reverted folder) o c' t' (fun r'' c'' t'' =>
      r'' = Ret (Ok AwaitChange) /\ c'' = c' /\ t'' = t'
      /\ (tasks (triggers c'') !! (ns ^^ "/" ^^ st_name self) = None
          \/ exists id task new, t'' = t ++ new
               /\ tasks (triggers c'') !! (ns ^^ "/" ^^ st_name self) = Some id
               /\ Ev (SchedulerAdd LeaderScheduler task) (Ok id) ∈ new
               /\ is_task_of self ns folder task))).
Proof.
  intros Hns Hns' Hname Hc Hold Hne. eapply wp_mono; [by apply wp_reconcile|].
  intros r c' t' Hr [e ->]. unfold reconciled in Hr. rewrite Hold in Hr.
  rewrite bool_decide_eq_false_2 in Hr by congruence.
  destruct Hr as (Horph & _ & _ & Htask & Hsched).
  eapply wp_mono; [by apply (wp_reconcile reverted ns)|].
  intros r'' c'' t'' (_ & _ & Hr). rewrite Hname, Hsched in Hr.
  rewrite bool_decide_eq_true_2 in Hr by done. destruct Hr as (-> & -> & ->).
  split; [done|]. split; [done|]. split; [done|].
  destruct Htask as [?|(id & task & new & ? & ? & ? & ? & _)]; [by left|].
  right. by exists id, task, new.
Qed.
End TriggerFacts.
