(* ===== verification/SourceFacts.v ===== *)
(** * Sources: theorems

    What inspecting a source finds and what evidence the trace holds for it:
    the commit of a reference, the hash of the watched files. *)

From stdpp Require Import base option gmap sets strings list fin_maps.
From Stdlib Require Import Ascii ZArith Lia Permutation.
From S2P Require Import Prelude Strs Time Errors Config Ext Resources World Jobs Cache Statics Action GitRepo Trigger TriggerFacts.
Local Open Scope string_scope.
Local Open Scope list_scope.

Section SourceFacts.
Context `{Ext}.
Implicit Types (o : services) (t : trace) (s : Statics).

#[local] Hint Resolve get_cached_stateless fetch_repo_ref_stateless get_latest_commit_stateless
  get_file_glob_hash_stateless inspect_source_stateless : stateless.

(** ** Hashes and commits *)

(** Finding and checking out an object. *)
Definition commit_end path oid (r : outcome (result Error string)) (new : trace) : Prop :=
  (r = Ret (Ok oid) /\ new = [Ev (GitFindObject path oid) (Ok tt);
                              Ev (GitCheckoutTree path oid) (Ok tt)])
  \/ exists e, r = Ret (Err e) /\
       ((exists a, new = [Ev (GitFindObject path oid) a])
        \/ exists a, new = [Ev (GitFindObject path oid) (Ok tt);
                            Ev (GitCheckoutTree path oid) a]).

Lemma wp_commit_end {S} path oid o (u : S) t
    (Q : outcome (result Error string) -> S -> trace -> Prop) :
  (forall r new, commit_end path oid r new -> Q r u (t ++ new)) ->
  wp (ref_obj <-- call (GitFindObject path oid) ;;
      match (ref_obj : result string unit) with
      | Err e => ret (Err (GitrepoAccessError e))
      | Ok _ =>
          checkout <-- call (GitCheckoutTree path oid) ;;
          match (checkout : result string unit) with
          | Err e => ret (Err (GitrepoAccessError e))
          | Ok _ => ret (Ok oid)
          end
      end)%prog o u t Q.
Proof.
  intros HQ. unfold commit_end in HQ. do 2 wp_step. destruct r as [[]|e].
  - do 2 wp_step. rewrite <- app_assoc. destruct r as [[]|e]; wp_step; apply HQ; eauto 10.
  - wp_step. apply HQ. eauto 10.
Qed.

Definition checkouts_found path (pre : trace) : Prop :=
  forall oid a, Ev (GitCheckoutTree path oid) a ∈ pre ->
    Ev (GitFindObject path oid) (Ok tt) ∈ pre.

Definition checkout_of (e : event resp) : option (string * string) :=
  match e with Ev c _ => match c with GitCheckoutTree p oid => Some (p, oid) | _ => None end end.

Lemma commit_end_checkouts path oid r new pre :
  commit_end path oid r new -> Forall (fun e => checkout_of e = None) pre ->
  checkouts_found path (pre ++ new).
Proof.
  intros Hend Hpre oid' a [Hin|Hin]%elem_of_app.
  { rewrite Forall_forall in Hpre. by apply Hpre in Hin. }
  apply elem_of_app. right.
  destruct Hend as [[_ ->]|(e & _ & [[a' ->]|[a' ->]])].
  all: repeat (apply elem_of_cons in Hin as [Hin|Hin]; [apply (f_equal checkout_of) in Hin;
    simpl in Hin; simplify_eq; try (by left)|]); by apply elem_of_nil in Hin.
Qed.

Lemma commit_end_ok path oid r new : commit_end path oid r new ->
  r <> Panic /\ forall oid', r = Ret (Ok oid') -> oid' = oid /\
    new = [Ev (GitFindObject path oid') (Ok tt); Ev (GitCheckoutTree path oid') (Ok tt)].
Proof.
  intros [[-> ->]|(e & -> & _)]; (split; [done|]); intros oid' [=]; by subst.
Qed.

Lemma checkouts_found_single path req a :
  checkout_of (Ev req a) = None -> checkouts_found path [Ev req a].
Proof.
  intros Hn oid a' Hin%list_elem_of_singleton.
  apply (f_equal checkout_of) in Hin. by rewrite Hn in Hin.
Qed.

(** What a commit found by name promises: [name] is the reference that was
    resolved. *)
Definition found_by_name path name (r : outcome (result Error string)) (pre : trace) : Prop :=
  (exists a rest, pre = Ev (GitResolveReference path name) a :: rest
    /\ (r = Panic <-> a = Ok None)
    /\ forall oid, r = Ret (Ok oid) -> a = Ok (Some oid))
  /\ (forall oid, r = Ret (Ok oid) -> exists resolved,
       pre = resolved ++ [Ev (GitFindObject path oid) (Ok tt);
                          Ev (GitCheckoutTree path oid) (Ok tt)])
  /\ checkouts_found path pre.

Lemma wp_resolved {S} path name o (u : S) t :
  wp (oid <-? (found <-- call (GitResolveReference path name) ;;
        match (found : result string (option string)) with
        | Err e => ret (Err (GitrepoAccessError e))
        | Ok target => oid <-- unwrap target ;; ret (Ok oid)
        end) ;;
      ref_obj <-- call (GitFindObject path oid) ;;
      match (ref_obj : result string unit) with
      | Err e => ret (Err (GitrepoAccessError e))
      | Ok _ =>
          checkout <-- call (GitCheckoutTree path oid) ;;
          match (checkout : result string unit) with
          | Err e => ret (Err (GitrepoAccessError e))
          | Ok _ => ret (Ok oid)
          end
      end)%prog o u t (fun r u' t' => u' = u /\
        exists pre, t' = t ++ pre /\ found_by_name path name r pre).
Proof.
  wp_step. do 2 wp_step. destruct r as [[oid|]|e]; [do 3 wp_step| |].
  - apply wp_commit_end. intros r new Hnew. split; [done|]. rewrite <- app_assoc.
    destruct (commit_end_ok _ _ _ _ Hnew) as [Hnp Hok].
    eexists. split; [reflexivity|]. split; [|split].
    + eexists _, new. split; [reflexivity|]. split; [done|intros oid' Hr].
      by destruct (Hok oid' Hr) as [-> _].
    + intros oid' Hr. destruct (Hok oid' Hr) as [_ ->]. by eexists [_].
    + apply (commit_end_checkouts _ oid r); [done|by repeat constructor].
  - do 2 wp_step. split; [done|]. eexists. split; [reflexivity|].
    split; [by eexists _, []|]. split; [done|by apply checkouts_found_single].
  - wp_step. split; [done|]. eexists. split; [reflexivity|].
    split; [by eexists _, []|]. split; [done|by apply checkouts_found_single].
Qed.

(** What a run of [get_latest_commit] promises. *)
Definition commit_of_reference path ref (r : outcome (result Error string)) (pre : trace) : Prop :=
  match ref with
  | Branch b => exists a rest, pre = Ev (GitResolveReference path ("origin/" ^^ b)) a :: rest
      /\ (r = Panic <-> a = Ok None)
      /\ forall oid, r = Ret (Ok oid) -> a = Ok (Some oid)
  | Tag tag => exists a rest, pre = Ev (GitResolveReference path tag) a :: rest
      /\ (r = Panic <-> a = Ok None)
      /\ forall oid, r = Ret (Ok oid) -> a = Ok (Some oid)
  | Commit c => r <> Panic /\ forall oid, r = Ret (Ok oid) -> oid_from_str c = Ok oid
  end /\
  (forall oid, r = Ret (Ok oid) -> exists resolved,
     pre = resolved ++ [Ev (GitFindObject path oid) (Ok tt);
                        Ev (GitCheckoutTree path oid) (Ok tt)]) /\
  checkouts_found path pre.

Lemma wp_get_latest_commit {S} path ref o (u : S) t :
  wp (get_latest_commit path ref) o u t (fun r u' t' => u' = u /\
    exists pre, t' = t ++ pre /\ commit_of_reference path ref r pre).
Proof.
  unfold get_latest_commit. destruct ref as [b|tag|c].
  - eapply wp_mono; [apply wp_resolved|]. intros r u' t' (-> & pre & -> & Hpre).
    split; [done|]. by exists pre.
  - eapply wp_mono; [apply wp_resolved|]. intros r u' t' (-> & pre & -> & Hpre).
    split; [done|]. by exists pre.
  - do 2 wp_step. unfold commit_of_reference. destruct (oid_from_str c) as [oid|e]; simpl.
    + apply wp_commit_end. intros r new Hnew. split; [done|].
      destruct (commit_end_ok _ _ _ _ Hnew) as [Hnp Hok].
      exists new. split; [done|]. split; [split; [done|]|split].
      * intros oid' Hr. by destruct (Hok oid' Hr) as [-> _].
      * intros oid' Hr. destruct (Hok oid' Hr) as [_ ->]. by eexists [].
      * by apply (commit_end_checkouts _ oid r _ []).
    + split; [done|]. exists []. rewrite app_nil_r. split; [done|]. split; [done|].
      split; [done|]. by intros ? ? ?%elem_of_nil.
Qed.

(** The commit of a reference.  Success means that this object exists
    in the repository and was checked out: for a branch, what the remote's
    branch of that name resolves to (never a local one); for a tag, what
    its name resolves to; for a commit, the given id in normal form.  Any
    failure on the way is an error and the object is only checked out
    after it was found.  The only panic is a reference that resolves to no
    object of its own (a symbolic one). *)
Theorem get_latest_commit_spec {S} path ref o (u : S) t :
  wp (get_latest_commit path ref) o u t (fun r u' t' => u' = u /\
    exists pre, t' = t ++ pre /\ commit_of_reference path ref r pre).
Proof. apply wp_get_latest_commit. Qed.

(** The hash of the contents of the selected files, in order. *)
Definition contents_hash (contents : list string) : string :=
  sha256 (foldr (fun content acc => sha256 content ^^ acc) EmptyString contents).

(** [contents] were read from the files a walk selected. *)
Definition read_from (entries : list (result string string)) (contents : list string)
    (new : trace) : Prop :=
  Forall2 (fun entry content => exists path, entry = Ok path
    /\ Ev (FileReadToEnd path) (Ok content) ∈ new) entries contents.

Lemma read_from_app entries contents new1 new2 new3 :
  read_from entries contents new2 -> read_from entries contents (new1 ++ new2 ++ new3).
Proof.
  intros Hr. eapply Forall2_impl; [exact Hr|]. intros entry content (p & -> & Hin).
  exists p. split; [done|]. rewrite !elem_of_app. auto.
Qed.

(** One of the files a walk selected could not be had. *)
Definition unreadable (entries : list (result string string)) (new : trace) : Prop :=
  (exists e, Err e ∈ entries)
  \/ exists path e, Ok path ∈ entries
       /\ (Ev (FileOpen path) (Err e) ∈ new \/ Ev (FileReadToEnd path) (Err e) ∈ new).

Lemma unreadable_more entry entries new1 new2 :
  unreadable entries new2 -> unreadable (entry :: entries) (new1 ++ new2).
Proof.
  intros [[e Hin]|(path & e & Hin & Hev)]; [left; exists e; by right|].
  right. exists path, e. split; [by right|]. rewrite !elem_of_app. tauto.
Qed.

Lemma wp_hash_files {S} entries hashed o (u : S) t :
  wp (hash_files entries hashed) o u t (fun r u' t' => u' = u /\
    exists new, t' = t ++ new /\ match r with
    | Ret (Ok h) => exists contents, read_from entries contents new
        /\ h = sha256 (hashed ^^ foldr (fun content acc => sha256 content ^^ acc) "" contents)
    | Ret (Err _) => unreadable entries new
    | Panic => False
    end).
Proof.
  revert hashed t. induction entries as [|[p|e] entries IH]; intros hashed t; simpl.
  - wp_step. split; [done|]. exists []. rewrite app_nil_r. split; [done|].
    exists []. split; [constructor|]. simpl. by rewrite append_empty.
  - wp_step. unfold calc_file_hash. do 2 wp_step. destruct r as [[]|e]; cycle 1.
    { wp_step. split; [done|]. eexists. split; [reflexivity|]. right. exists p, e.
      split; [by left|]. left. by left. }
    do 2 wp_step. destruct r as [content|e]; cycle 1.
    { wp_step. split; [done|]. rewrite <- app_assoc. eexists. split; [reflexivity|].
      right. exists p, e. split; [by left|]. right. right. by left. }
    wp_step. eapply wp_mono; [apply IH|].
    intros r u' t' (-> & new & -> & Hok). split; [done|].
    rewrite <- !app_assoc. eexists. split; [reflexivity|].
    destruct r as [[h|e]|]; [|by rewrite app_assoc; apply unreadable_more|done].
    destruct Hok as (contents & Hread & ->). exists (content :: contents). split.
    + constructor.
      * exists p. split; [done|]. rewrite !elem_of_app. right. left. by left.
      * apply (read_from_app _ _ ([Ev (FileOpen p) (Ok tt)] ++
          [Ev (FileReadToEnd p) (Ok content)]) _ []) in Hread.
        by rewrite app_nil_r, <- app_assoc in Hread.
    + simpl. by rewrite append_assoc.
  - wp_step. split; [done|]. exists []. rewrite app_nil_r. split; [done|].
    left. exists e. by left.
Qed.

(** A walk over the patterns [glob] in [folder], and what came of it: the hash
    of what was read in [rest], or nothing, because something could not be
    read. *)
Definition walked folder glob (hash : option string) (new : trace) : Prop :=
  exists answer rest, new = Ev (GlobWalk folder glob) answer :: rest /\
  match hash with
  | Some h => exists entries contents, answer = Ok entries
      /\ read_from entries contents rest /\ h = contents_hash contents
  | None => (exists e, answer = Err e)
      \/ exists entries, answer = Ok entries /\ unreadable entries rest
  end.

Lemma wp_get_file_glob_hash {S} folder glob o (u : S) t :
  wp (get_file_glob_hash folder glob) o u t (fun r u' t' => u' = u /\
    exists res new, r = Ret res /\ t' = t ++ new
      /\ walked folder glob (match res with Ok h => Some h | Err _ => None end) new).
Proof.
  unfold get_file_glob_hash. do 2 wp_step. destruct r as [entries|e]; cycle 1.
  { wp_step. split; [done|]. eexists (Err _), _. split; [done|]. split; [done|].
    eexists (Err e), []. split; [done|]. left. by eexists. }
  eapply wp_mono; [apply wp_hash_files|]. intros r u' t' (-> & new & -> & Hok).
  split; [done|]. rewrite <- app_assoc. destruct r as [res|]; [|done].
  eexists res, _. split; [done|]. split; [done|]. exists (Ok entries), new.
  split; [done|]. destruct res as [h|e]; [|right; by eexists].
  destruct Hok as (contents & Hread & ->). by exists entries, contents.
Qed.

(** The file hash.  It never panics; success means that the walk over
    the patterns and every selected file could be read, and the hash is
    that of the contents in the order of the walk, and of nothing else
    (not the names).  Two runs that publish the same hash have read the
    same contents, unless they exhibit a collision of SHA-256, whose
    digests are 32 bytes. *)
Theorem get_file_glob_hash_spec {S} folder glob folder' glob' o o' (u u' : S) t t0 :
  (forall x, String.length (sha256 x) = 32) ->
  wp (get_file_glob_hash folder glob) o u t (fun r v t1 =>
    v = u /\ r <> Panic /\ forall h, r = Ret (Ok h) -> exists entries contents new,
      t1 = t ++ Ev (GlobWalk folder glob) (Ok entries) :: new
      /\ read_from entries contents new /\ h = contents_hash contents
      /\ wp (get_file_glob_hash folder' glob') o' u' t0 (fun r' _ t2 =>
           forall h', r' = Ret (Ok h') -> hex_encode h = hex_encode h' ->
             exists entries' new', t2 = t0 ++ Ev (GlobWalk folder' glob') (Ok entries') :: new'
               /\ (read_from entries' contents new'
                   \/ exists x y, x <> y /\ sha256 x = sha256 y))).
Proof.
  intros Hlen.
  assert (Hrun : forall folder glob o (u : S) t,
    wp (get_file_glob_hash folder glob) o u t (fun r v t1 => v = u /\ r <> Panic /\
      forall h, r = Ret (Ok h) -> exists entries contents new,
        t1 = t ++ Ev (GlobWalk folder glob) (Ok entries) :: new
        /\ read_from entries contents new /\ h = contents_hash contents)).
  { clear. intros folder glob o u t. eapply wp_mono; [apply wp_get_file_glob_hash|].
    intros r u' t' (-> & res & new & -> & -> & answer & rest & -> & Hw). split; [done|].
    split; [done|]. intros h [= ->]. destruct Hw as (entries & contents & -> & Hw).
    by exists entries, contents, rest. }
  assert (Hinj : forall c1 c2, contents_hash c1 = contents_hash c2 ->
    c1 = c2 \/ exists x y, x <> y /\ sha256 x = sha256 y).
  { unfold contents_hash. intros c1 c2 Heq.
    destruct (decide (foldr (fun content acc => sha256 content ^^ acc) "" c1
                      = foldr (fun content acc => sha256 content ^^ acc) "" c2)) as [Hf|];
      [|right; eauto]. clear Heq. revert c2 Hf.
    induction c1 as [|x c1 IH]; intros [|y c2]; simpl; intros Hf; [by left|..].
    - apply (f_equal String.length) in Hf. rewrite string_length_append, Hlen in Hf. done.
    - apply (f_equal String.length) in Hf. rewrite string_length_append, Hlen in Hf. done.
    - apply append_inj_length in Hf as [Hxy Hf]; [|by rewrite !Hlen].
      destruct (IH c2 Hf) as [->|]; [|by right].
      destruct (decide (x = y)) as [->|]; [by left|right; eauto]. }
  eapply wp_mono; [apply Hrun|]. intros r v t1 (-> & Hr & Hok). split; [done|].
  split; [done|]. intros h Hh. destruct (Hok h Hh) as (entries & contents & new & -> & Hread & ->).
  exists entries, contents, new. split; [done|]. split; [done|]. split; [done|].
  eapply wp_mono; [apply Hrun|]. intros r' v' t2 (_ & _ & Hok') h' Hh' Hhex.
  destruct (Hok' h' Hh') as (entries' & contents' & new' & -> & Hread' & ->).
  exists entries', new'. split; [done|]. apply hex_encode_inj, Hinj in Hhex as [->|]; auto.
Qed.

(** ** Inspection *)

(** A stateless tail of a program whose calls are known. *)
Lemma wp_tail {A} (P : event resp -> Prop) (m : io Statics A) o s t Q :
  stateless m -> calls_in P m ->
  (forall r new, Forall P new -> Q r s (t ++ new)) -> wp m o s t Q.
Proof.
  intros Hm Hc HQ. eapply wp_mono; [apply wp_and; [apply Hm|apply Hc]|].
  intros r s' t' [-> (new & -> & Hnew)]. auto.
Qed.

Section inspection.
Context {T : Type} `{!Trigger T}.
Implicit Types (trigger : T).

(** The calls of an inspection. *)
Definition inspection_call (req : Call) : bool :=
  match req with
  | GetSecret _ _ | HashMapOrder _ | LoadNativeCerts | GitInit _ _ | GitFindRemote _ _
  | GitFetch _ _ _ | GitResolveReference _ _ | GitFindObject _ _ | GitCheckoutTree _ _
  | GlobWalk _ _ | FileOpen _ | FileReadToEnd _ => true
  | _ => store_lookup req
  end.

Lemma hash_files_calls {S} (P : event resp -> Prop) entries hashed :
  (forall (req : Call) r, inspection_call req = true -> P (Ev req r)) ->
  calls_in P (hash_files (S:=S) entries hashed).
Proof.
  intros HP. revert hashed. induction entries as [|[p|e] entries IH]; intros hashed; simpl;
    [by calls_run| |by calls_run].
  calls_step; [|apply IH]. unfold calc_file_hash. calls_run; by apply HP.
Qed.

Lemma inspect_source_calls (P : event resp -> Prop) trigger source path ns :
  (forall (req : Call) r, inspection_call req = true -> P (Ev req r)) ->
  calls_in P (inspect_source trigger source path ns).
Proof.
  intros HP.
  assert (Hstore : forall (req : Call) r, store_lookup req = true -> P (Ev req r)).
  { intros req r Hreq. apply HP. by destruct req. }
  assert (Hglob : forall files, calls_in P (get_file_glob_hash (S:=Statics) path files)).
  { intros fs. unfold get_file_glob_hash. calls_step; [apply calls_in_perform; intros r; by apply HP|].
    case_match; [by apply hash_files_calls|by calls_run]. }
  unfold inspect_source. calls_step.
  - unfold fetch_source, fetch_repo_ref, fetch_auth_secrets, fetch_tls_secrets,
      get_secret_strings, setup_auth, setup_certificate_check.
    case_match; (calls_step; [by apply calls_in_cached|]); calls_run; by apply HP.
  - case_match; [|by calls_run]. case_match; [|by calls_run]. calls_step.
    { unfold get_latest_commit. calls_run; by apply HP. }
    case_match; [|by calls_run]. calls_step; [|by calls_run].
    case_match; [|by calls_run]. calls_step; [apply Hglob|by calls_run].
Qed.

(** A commit came from the remote: its reference was fetched and the commit
    checked out under [path]. *)
Definition source_fetched trigger path (new : trace) : Prop :=
  exists opts, Ev (GitFetch path (reference_name (watch_on (sources trigger))) opts) (Ok tt) ∈ new.

Definition commit_found trigger path commit (new : trace) : Prop :=
  source_fetched trigger path new /\ Ev (GitCheckoutTree path commit) (Ok tt) ∈ new
  /\ match reference (watch_on (sources trigger)) with
     | Branch b => Ev (GitResolveReference path ("origin/" ^^ b)) (Ok (Some commit)) ∈ new
     | Tag tag => Ev (GitResolveReference path tag) (Ok (Some commit)) ∈ new
     | Commit c => oid_from_str c = Ok commit
     end.

Lemma commit_found_app trigger path commit new1 new new2 :
  commit_found trigger path commit new -> commit_found trigger path commit (new1 ++ new ++ new2).
Proof.
  intros ([opts Hf] & Hco & Href). split; [exists opts; set_solver|]. split; [set_solver|].
  case_match; [set_solver..|done].
Qed.

(** [found] is what the trace shows of a source: its commit was fetched and
    checked out, and its file hash is what the walk over the watched files
    gave after that. *)
Definition observed trigger path (found : CheckedSourceState) (new : trace) : Prop :=
  exists commit before hashed after, new = before ++ hashed ++ after
    /\ commit_found trigger path commit before
    /\ commit_hash found = Some commit /\ changed found = None
    /\ match files (watch_on (sources trigger)) with
       | Some globs => exists hash, walked path globs hash hashed
           /\ file_hash found = hex_encode <$> hash
       | None => file_hash found = None
       end.

Lemma observed_app trigger path found new1 new new2 :
  observed trigger path found new -> observed trigger path found (new1 ++ new ++ new2).
Proof.
  intros (commit & before & hashed & after & -> & Hc & Hrest).
  exists commit, (new1 ++ before), hashed, (after ++ new2). rewrite <- !app_assoc.
  split; [done|]. split; [|done]. rewrite <- (app_nil_r before). by apply commit_found_app.
Qed.

Lemma observed_commit trigger path found new :
  observed trigger path found new -> is_Some (commit_hash found).
Proof. intros (commit & ? & ? & ? & _ & _ & Hc & _). by exists commit. Qed.

Lemma wp_fetched {R} `{!GitRepoInternals R} trigger (repo : R) path ns o s t :
  wp (r <-- fetch_repo_ref repo (reference_name (watch_on (sources trigger))) path ns ;;
      ret (Some r))%prog o s t (fun r s' t' => exists new, t' = t ++ new
        /\ (r = Ret (Some (Ok tt)) -> source_fetched trigger path new)).
Proof.
  wp_step. apply wp_fetch_repo_ref.
  - intros new e _. wp_step. by exists new.
  - intros new _ _. by exists new.
  - intros new opts a _ _. wp_step. eexists. split; [reflexivity|].
    destruct a as [[]|e]; [|done]. intros _. exists opts. set_solver.
Qed.

Lemma wp_fetch_source trigger source path ns o s t :
  wp (fetch_source trigger source path ns) o s t (fun r s' t' => exists new, t' = t ++ new
    /\ (r = Ret (Some (Ok tt)) -> source_fetched trigger path new)).
Proof.
  assert (Hcalls : forall K `{!ApiCache K} name namespace,
    calls_in (fun _ => True) (on_api_cache (cache_get (K:=K) name namespace))).
  { intros. by apply calls_in_cached. }
  unfold fetch_source. destruct (sources_kind (sources trigger)); wp_step.
  all: eapply wp_mono; [apply Hcalls|].
  all: intros [[repo|e]|] s1 t1 (new1 & -> & _); [|wp_step; by exists new1|by exists new1].
  all: eapply wp_mono; [apply wp_fetched|].
  all: intros r s2 t2 (new & -> & Hnew); exists (new1 ++ new); rewrite app_assoc;
    split; [done|]; intros Hr; destruct (Hnew Hr) as [opts Hin]; exists opts; set_solver.
Qed.

(** The hash that an inspection looks for. *)
Lemma wp_watched_files trigger path o s t :
  wp (match files (watch_on (sources trigger)) with
      | Some files =>
          file_hash <-- get_file_glob_hash path files ;;
          match (file_hash : result Error string) with
          | Ok file_hash => ret (Some (hex_encode file_hash))
          | Err _ => ret None
          end
      | None => ret None
      end)%prog o s t (fun r s' t' => s' = s /\ exists res hashed,
        r = Ret res /\ t' = t ++ hashed
        /\ match files (watch_on (sources trigger)) with
           | Some globs => exists hash, walked path globs hash hashed /\ res = hex_encode <$> hash
           | None => res = None
           end).
Proof.
  destruct (files (watch_on (sources trigger))) as [globs|]; cycle 1.
  { wp_step. split; [done|]. exists None, []. by rewrite app_nil_r. }
  wp_step. eapply wp_mono; [apply wp_get_file_glob_hash|].
  intros r u t' (-> & res & new & -> & -> & Hw).
  destruct res; wp_step; (split; [done|]); eexists _, new; eauto.
Qed.

(** What the inspection finds is what its trace shows. *)
Lemma wp_inspect_observed trigger source path ns o s t :
  wp (inspect_source trigger source path ns) o s t (fun r _ t' => exists new, t' = t ++ new
    /\ forall found, r = Ret (Some found) -> observed trigger path found new).
Proof.
  unfold inspect_source. wp_step. eapply wp_mono; [apply wp_fetch_source|].
  intros [[[[]|e]|]|] s1 t1 (new1 & -> & Hfetch); [|by wp_step; exists new1..|by exists new1].
  destruct (Hfetch eq_refl) as [opts Hopts].
  wp_step. eapply wp_mono; [apply wp_get_latest_commit|].
  intros [[commit|e]|] s2 t2 (-> & new2 & -> & Href & Hco & _); cycle 1.
  { wp_step. exists (new1 ++ new2). by rewrite app_assoc. }
  { exists (new1 ++ new2). by rewrite app_assoc. }
  wp_step. eapply wp_mono; [apply wp_watched_files|].
  intros r s3 t3 (-> & hash & hashed & -> & -> & Hhash). wp_step.
  exists (new1 ++ new2 ++ hashed). rewrite <- !app_assoc. split; [done|].
  intros found [= <-]. exists commit, (new1 ++ new2), hashed, []. simpl.
  rewrite app_nil_r, <- app_assoc. split; [done|]. split; [|done].
  split; [exists opts; set_solver|]. destruct (Hco commit eq_refl) as [resolved Hnew2].
  split; [rewrite Hnew2; set_solver|]. clear Hnew2.
  revert Href. destruct (reference _); [intros (a & rest & -> & _ & Ha); rewrite (Ha commit eq_refl); set_solver..|].
  intros Href. by apply Href.
Qed.

Lemma wp_inspect_source (P : event resp -> Prop) trigger source path ns o s t Q :
  (forall (req : Call) r, inspection_call req = true -> P (Ev req r)) ->
  (forall r new, Forall P new ->
     (forall found, r = Ret (Some found) -> observed trigger path found new) ->
     Q r s (t ++ new)) ->
  wp (inspect_source trigger source path ns) o s t Q.
Proof.
  intros HP HQ. eapply wp_mono; [apply wp_and;
    [apply inspect_source_stateless|apply wp_and; [by apply (inspect_source_calls P)|
     apply wp_inspect_observed]]|].
  intros r s' t' (-> & (new & -> & Hnew) & (? & <-%app_inv_head & Hr)). by apply HQ.
Qed.
End inspection.
End SourceFacts.
