(* ===== verification/TaskFacts.v ===== *)
(** * Trigger tasks: theorems

    When an action runs, what a task may put into the jobs queue and why, when
    a source counts as processed, and the temporary folders. *)

From stdpp Require Import base option gmap sets strings list fin_maps.
From Stdlib Require Import Ascii ZArith Lia Permutation.
From S2P Require Import Prelude Strs Time Errors Config Ext Resources World Jobs JobsFacts Cache Statics Action GitRepo Trigger TriggerFacts SourceFacts.
Local Open Scope string_scope.
Local Open Scope list_scope.

Section TaskFacts.
Context `{Ext}.
Implicit Types (o : services) (t : trace) (s : Statics).

#[local] Hint Resolve get_cached_stateless fetch_repo_ref_stateless get_latest_commit_stateless
  get_file_glob_hash_stateless random_string_stateless update_trigger_status_stateless
  inspect_source_stateless : stateless.

(** ** The decision *)

Section decision.
Context {T : Type} `{!Trigger T}.

(** When an action is skipped: only for a trigger that runs on changes,
    and only when what it watches is as the status remembers it - the hash
    of the selected files when it selects files, whatever the commit, and
    the commit otherwise; a source without an entry was never processed. *)
Theorem needs_action_false (trigger : T) new current :
  needs_action trigger new current = false <->
  on_change_only (watch_on (sources trigger)) = true /\
  match current with
  | Some cur =>
      match files (watch_on (sources trigger)) with
      | Some _ => file_hash new = file_hash cur
      | None => commit_hash new = commit_hash cur
      end
  | None => commit_hash new = None /\ file_hash new = None
  end.
Proof.
  unfold needs_action, CheckedSourceState_is_equal.
  rewrite orb_false_iff, !negb_false_iff.
  assert (Hcomm : forall P Q R : Prop, (P <-> R) -> (P /\ Q <-> Q /\ R)) by tauto.
  apply Hcomm. destruct current as [cur|].
  - destruct (files (watch_on (sources trigger))).
    + rewrite (bool_decide_eq_true_2 (is_Some _)) by by eexists. simpl.
      apply bool_decide_eq_true.
    + rewrite (bool_decide_eq_false_2 (is_Some _)) by by intros [??]. simpl.
      apply bool_decide_eq_true.
  - by rewrite andb_true_iff, !bool_decide_eq_true.
Qed.
End decision.

(** ** Jobs of a task *)

(** [items] were enqueued, one after the other; nothing else changed. *)
Definition jobs_added s s' (items : list JobsQueueItem) : Prop :=
  api_cache s' = api_cache s /\ secret_cache s' = secret_cache s
  /\ jobs_queue s' = (fun q => foldl enqueued q items) <$> jobs_queue s
  /\ (jobs_queue s = None -> items = []).

Lemma jobs_added_none s : jobs_added s s [].
Proof. repeat split. by destruct (jobs_queue s). Qed.

Lemma jobs_added_app s s1 s2 items1 items2 :
  jobs_added s s1 items1 -> jobs_added s1 s2 items2 -> jobs_added s s2 (items1 ++ items2).
Proof.
  intros (Ha1 & Hb1 & Hq1 & Hn1) (Ha2 & Hb2 & Hq2 & Hn2).
  split; [congruence|]. split; [congruence|]. rewrite Hq2, Hq1. split.
  - destruct (jobs_queue s); [|done]. simpl. by rewrite foldl_app.
  - intros Hs. by rewrite Hn1, Hn2 by (rewrite ?Hq1, Hs; done).
Qed.

Lemma jobs_added_one s q item :
  jobs_queue s = Some q ->
  jobs_added s {| api_cache := api_cache s; secret_cache := secret_cache s;
                  jobs_queue := Some (enqueued q item) |} [item].
Proof. intros Hq. repeat split; simpl; by rewrite Hq. Qed.

(** What the appended queue has in common with the old one. *)
Lemma enqueued_all items q :
  let q' := foldl enqueued q items in
  queue_jobs q' = queue_jobs q ++ items /\ running_jobs q' = running_jobs q
  /\ statuses q' = statuses q /\ identity q' = identity q
  /\ queue_event_alive q' = queue_event_alive q.
Proof.
  revert q. induction items as [|item items IH]; intros q; simpl; [by rewrite app_nil_r|].
  destruct (IH (enqueued q item)) as (-> & -> & -> & -> & ->). unfold enqueued.
  destruct (queue_event_alive q) eqn:Halive; simpl; by rewrite <- app_assoc.
Qed.

(** Where status patches come from. *)
Definition no_patch (e : event resp) : Prop :=
  match e with Ev c _ => match c with PatchStatus _ _ _ _ => False | _ => True end end.

(** A call that neither publishes a status nor makes or removes a folder. *)
Definition inner (e : event resp) : Prop :=
  match e with
  | Ev c _ => match c with PatchStatus _ _ _ _ | RemoveDirAll _ | CreateDirAll _ => False
              | _ => True end
  end.

Lemma inner_no_patch new : Forall inner new -> Forall no_patch new.
Proof. intros Hnew. eapply Forall_impl; [exact Hnew|]. by intros [[] r]. Qed.

(** The queue takes jobs. *)
Definition queue_open s : Prop :=
  exists q, jobs_queue s = Some q /\ queue_event_alive q = true.

Section task.
Context {T : Type} `{!Trigger T}.
Implicit Types (trigger : T).

(** A job of this trigger, ready for the queue and its metrics. *)
Definition job_of_trigger (ns : string) (item : JobsQueueItem) : Prop :=
  measurable (item_job item) /\ om_namespace (job_metadata (item_job item)) = Some ns.

(** [item] was made for a commit of a source by the trigger's action of kind
    [A], as the cache answered it in [new]; [id] is the controller's
    identity. *)
Definition made_with A `{!ApiCache A, !ActionInternals A} o trigger ns name source commit id
    (namespace : option string) (new : trace) (item : JobsQueueItem) : Prop :=
  let key := unwrap_or "default" namespace in
  let action_name_ := action_name (trigger_action trigger) in
  exists found (action : A), Ev (store_call (K:=A) key action_name_) found ∈ new
    /\ Ev SystemNow (enqueued_at item) ∈ new
    /\ store_answer (K:=A) key action_name_ found = Some action
    /\ made_by o action (sources_kind (sources trigger)) source commit
         (reference (watch_on (sources trigger))) ns (trigger_crd_kind T) name id item.

Definition made_for o trigger ns name source commit id (new : trace) (item : JobsQueueItem) : Prop :=
  match action_kind (trigger_action trigger) with
  | KindAction => made_with Action o trigger ns name source commit id (Some ns) new item
  | KindClusterAction => made_with ClusterAction o trigger ns name source commit id None new item
  end.

Lemma made_for_job o trigger ns name source commit id new item :
  made_for o trigger ns name source commit id new item -> job_of_trigger ns item.
Proof.
  unfold made_for. case_match; intros (found & action & _ & _ & _ & [Hitem _]);
    (split; [apply Hitem|apply Hitem]).
Qed.

Lemma made_for_app o trigger ns name source commit id new1 new new2 item :
  made_for o trigger ns name source commit id new item ->
  made_for o trigger ns name source commit id (new1 ++ new ++ new2) item.
Proof.
  unfold made_for. case_match; intros (found & action & Hin & Hnow & Hrest); exists found, action;
    (split; [set_solver|]); (split; [set_solver|done]).
Qed.

(** The identity under which a queue labels the jobs. *)
Definition queue_identity s : string := from_option identity "" (jobs_queue s).

Lemma execute_inner {A} `{!ActionInternals A} (self : A) sk sn sc tr ns tk tn :
  calls_in inner (execute self sk sn sc tr ns tk tn).
Proof.
  unfold execute. calls_step; [by apply create_job_spec_calls; intros []|].
  apply calls_in_zoom. unfold enqueue. by calls_run.
Qed.

Lemma run_action_inner trigger source commit ns name :
  calls_in inner (run_action trigger source commit ns name).
Proof.
  unfold run_action. case_match; (calls_step; [|apply execute_inner]);
    apply calls_in_cached; by intros [].
Qed.

(** A cached object, with the event of its lookup. *)
Lemma wp_cached_evidence {K} `{!ApiCache K} name namespace o s t :
  wp (on_api_cache (cache_get (K:=K) name namespace)) o s t (fun r s' t' => s' = s /\
    forall v, r = Ret (Ok v) -> exists found, t' = t
      ++ [Ev (store_call (K:=K) (unwrap_or "default" namespace) name) found]
      /\ store_answer (K:=K) (unwrap_or "default" namespace) name found = Some v).
Proof.
  eapply wp_mono; [apply wp_and; [apply get_cached_stateless|]|].
  2: { intros r s' t' [-> Hr]. split; [done|exact Hr]. }
  destruct (cell (K:=K) (api_cache s)) eqn:Hcell.
  - apply (wp_get_cached (K:=K)); [done|]. intros found _ v.
    destruct (store_answer _ _ found) eqn:Hf; intros [=]; subst. by exists found.
  - unfold on_api_cache, cache_get, get_cache_store. by do 6 wp_step.
Qed.

(** What an attempt to run an action leaves, for a claim [made] about its
    items. *)
Definition attempt (made : trace -> JobsQueueItem -> Prop) s t
    (r : outcome (result Error unit)) s' t' : Prop :=
  exists items new, t' = t ++ new /\ jobs_added s s' items /\ length items <= 1
    /\ Forall (made new) items /\ (r = Ret (Ok tt) -> length items = 1)
    /\ (items <> [] -> queue_open s -> r = Ret (Ok tt)).

Lemma attempt_none made s t new r : r <> Ret (Ok tt) -> attempt made s t r s (t ++ new).
Proof.
  intros Hr. exists [], new. split; [done|]. split; [apply jobs_added_none|]. simpl.
  split; [lia|]. by repeat split.
Qed.

Lemma wp_run_cached {A} `{!ApiCache A, !ActionInternals A} trigger source commit ns name
    namespace o s t :
  wp (action <-? on_api_cache (cache_get (K:=A) (action_name (trigger_action trigger)) namespace) ;;
      execute action (sources_kind (sources trigger)) source commit
        (reference (watch_on (sources trigger))) ns (trigger_crd_kind T) name)%prog o s t
    (attempt (made_with A o trigger ns name source commit (queue_identity s) namespace) s t).
Proof.
  wp_step. eapply wp_mono; [apply wp_and; [apply (wp_cached_evidence (K:=A))|
    by apply (calls_in_cached (K:=A) (fun _ => True))]|].
  intros [[action|e]|] s' t' [[-> Hev] (new0 & -> & _)]; [|by apply attempt_none..].
  destruct (Hev action eq_refl) as (found & ->%app_inv_head & Hfound).
  set (lookup := [Ev _ found]).
  eapply wp_mono; [apply wp_and; [apply execute_inner|apply (wp_execute action)
    with (Q := fun r s' t' => forall new, t' = (t ++ lookup) ++ new ->
      attempt (made_with A o trigger ns name source commit (queue_identity s) namespace) s t r s'
        t')]|].
  4: { intros r s' t' [(new & -> & _) HQ]. by apply (HQ new). }
  - intros _ t' new ->. rewrite <- app_assoc. by apply attempt_none.
  - intros _ t' new ->. rewrite <- app_assoc. by apply attempt_none.
  - intros owner q item new1 _ Hq Hitem new <-%app_inv_head. rewrite <- app_assoc. exists [item]. eexists. split; [done|].
    split; [by apply jobs_added_one|]. split; [done|]. split; [|split; [done|]].
    + apply Forall_singleton. exists found, action. split; [set_solver|]. split; [set_solver|].
      split; [done|]. unfold queue_identity. by rewrite Hq.
    + intros _ (q' & Hq' & Halive). rewrite Hq in Hq'. simplify_eq. by rewrite Halive.
Qed.

(** Running an action: it succeeds exactly with a job in a live queue. *)
Lemma run_action_jobs trigger source commit ns name o s t :
  wp (run_action trigger source commit ns name) o s t
    (attempt (made_for o trigger ns name source commit (queue_identity s)) s t).
Proof.
  unfold run_action, made_for. destruct (action_kind (trigger_action trigger)); apply wp_run_cached.
Qed.

Lemma update_trigger_status_calls (P : event resp -> Prop) (self : T) st ch lr :
  (forall (req : Call) r, store_lookup req = true -> P (Ev req r)) ->
  (forall kind ns name status r, P (Ev (PatchStatus kind ns name status) r)) ->
  calls_in P (update_trigger_status self st ch lr).
Proof.
  intros Hstore Hpatch. unfold update_trigger_status.
  calls_step; [calls_run|]. calls_step; [by apply calls_in_cached|].
  calls_step; [by apply calls_in_perform|calls_run].
Qed.

(** Publishing a status: the trigger is read again under its own name, and
    when it is there, the status made from it is patched.  Without a namespace
    or a running cache nothing is called. *)
Definition status_published s trigger st checked lr (new : trace) : Prop :=
  match trigger_namespace trigger with
  | Some ns =>
      if cell (K:=T) (api_cache s) then
        exists found, match store_answer (K:=T) ns (trigger_name trigger) found with
        | Some cached => exists a,
            new = [Ev (store_call (K:=T) ns (trigger_name trigger)) found;
                   Ev (PatchStatus (trigger_crd_kind T) ns (trigger_name trigger)
                         (new_status cached st checked lr)) a]
        | None => new = [Ev (store_call (K:=T) ns (trigger_name trigger)) found]
        end
      else new = []
  | None => new = []
  end.

Lemma wp_status_published trigger st checked lr o s t Q :
  (forall r new, status_published s trigger st checked lr new -> Q r s (t ++ new)) ->
  wp (update_trigger_status trigger st checked lr) o s t Q.
Proof.
  intros HQ. unfold status_published in HQ. unfold update_trigger_status. do 2 wp_step.
  destruct (trigger_namespace trigger) as [ns|] eqn:Hns; cycle 1.
  { specialize (HQ Panic [] eq_refl). by rewrite app_nil_r in HQ. }
  wp_step. destruct (cell (K:=T) (api_cache s)) eqn:Hcell; cycle 1.
  { unfold on_api_cache, cache_get, get_cache_store. do 4 wp_step. rewrite Hcell. wp_step.
    specialize (HQ Panic [] eq_refl). rewrite app_nil_r in HQ. by destruct s. }
  apply (wp_get_cached (K:=T)); [done|]. intros found _. simpl in found |- *.
  destruct (store_answer ns (trigger_name trigger) found) as [cached|] eqn:Ha; cycle 1.
  { apply HQ. exists found. by rewrite Ha. }
  do 2 wp_step. rewrite <- app_assoc.
  destruct r as [[]|e]; wp_step; apply HQ; exists found; rewrite Ha; by eexists.
Qed.

(** The state that is recorded for a source. *)
Definition state_at (found : CheckedSourceState) (at_ : option string) : CheckedSourceState := {|
  commit_hash := commit_hash found; file_hash := file_hash found; changed := at_ |}.

(** Running the action for [commit], with the jobs [items]: only when it
    succeeded - as it does when the job got into an open queue - the source is
    recorded with the time of the run. *)
Definition executed o trigger ns name source found commit s s' (items : list JobsQueueItem)
    (new : trace) : Prop :=
  exists running published, new = running ++ published
    /\ Forall inner running /\ jobs_added s s' items /\ length items <= 1
    /\ Forall (fun item => job_of_trigger ns item
         /\ made_for o trigger ns name source commit (queue_identity s) running item) items
    /\ (published = [] /\ (items <> [] -> ~ queue_open s)
        \/ length items = 1 /\ exists now now' patch,
             published = Ev UtcNow now :: Ev UtcNow now' :: patch
             /\ status_published s trigger (Some Running)
                  (Some {[ source := state_at found (Some (rfc3339_secs now)) ]})
                  (Some now') patch).

(** What follows an inspection that found [found], with the jobs [items].
    When it calls for the action, the action is run for the commit; otherwise
    the source is recorded with the time of its last run. *)
Definition settlement o trigger ns name source (found : CheckedSourceState)
    (current : option CheckedSourceState) s s' (items : list JobsQueueItem) (new : trace) : Prop :=
  if needs_action trigger found current then
    match commit_hash found with
    | None => items = [] /\ s' = s /\ new = []
    | Some commit => executed o trigger ns name source found commit s s' items new
    end
  else items = [] /\ s' = s
    /\ status_published s trigger None
         (Some {[ source := state_at found (match current with
            | Some current => changed current | None => changed found end) ]}) None new.

(** Other parts of the state do not matter to a publication. *)
Lemma status_published_added s s' items trigger st checked lr new :
  jobs_added s s' items -> status_published s' trigger st checked lr new ->
  status_published s trigger st checked lr new.
Proof. intros [Hcache _]. unfold status_published. by rewrite Hcache. Qed.

Lemma wp_settle_source trigger ns name source checked found o s t :
  wp (settle_source trigger ns name source checked found) o s t (fun _ s' t' =>
    exists items new, t' = t ++ new
      /\ settlement o trigger ns name source found (checked !! source) s s' items new).
Proof.
  unfold settle_source, settlement.
  destruct (needs_action trigger found (checked !! source)) eqn:Hneeds.
  - do 2 wp_step. destruct (commit_hash found) as [commit|] eqn:Hcommit; cycle 1.
    { exists [], []. by rewrite app_nil_r. }
    wp_step. eapply wp_mono; [apply wp_and;
      [apply run_action_jobs|apply run_action_inner]|].
    intros r s1 t1 [(items & new1 & -> & Hjobs & Hlen & Hok & Hone & Hopen)
      (? & <-%app_inv_head & Hnew1)].
    assert (Hmade : Forall (fun item => job_of_trigger ns item
      /\ made_for o trigger ns name source commit (queue_identity s) new1 item) items).
    { eapply Forall_impl; [exact Hok|]. intros item Hm. split; [|done]. by eapply made_for_job. }
    assert (Hstop : r <> Ret (Ok tt) -> exists items new, t ++ new1 = t ++ new
      /\ executed o trigger ns name source found commit s s1 items new).
    { intros Hr. exists items, new1. split; [done|]. exists new1, []. rewrite app_nil_r.
      do 5 (split; [done|]). left. split; [done|]. intros Hitems Hq. by apply Hr, Hopen. }
    destruct r as [[[]|e]|]; [|by wp_step; apply Hstop|by apply Hstop].
    clear Hstop. do 4 wp_step. rewrite <- !app_assoc. wp_step.
    apply wp_status_published. intros r' patch Hpatch.
    assert (Hgo : exists items new,
      (t ++ new1 ++ [Ev UtcNow r] ++ [Ev UtcNow r0]) ++ patch = t ++ new
      /\ executed o trigger ns name source found commit s s1 items new).
    { exists items. eexists. rewrite <- !app_assoc. split; [reflexivity|].
      eexists new1, _. split; [reflexivity|]. do 4 (split; [done|]). right.
      split; [by apply Hone|]. exists r, r0, patch. split; [done|].
      eapply status_published_added; [done|]. unfold state_at. by rewrite Hcommit. }
    destruct r'; [wp_step|]; exact Hgo.
  - wp_step. apply wp_status_published. intros r new Hnew.
    destruct r; [wp_step|]; exists [], new; (split; [done|]); (split; [done|]); (split; [done|]);
      by destruct (checked !! source), found.
Qed.

(** Why an item is in the queue: in [new], the source was observed under
    [path] as [found], which differs from the recorded state in the way that
    calls for the action, and after that the action's job was made for the
    commit. *)
Definition caused_by_change o trigger ns name source path (current : option CheckedSourceState) id
    (new : trace) (item : JobsQueueItem) : Prop :=
  exists found commit seen made, new = seen ++ made
    /\ observed trigger path found seen /\ commit_hash found = Some commit
    /\ needs_action trigger found current = true
    /\ made_for o trigger ns name source commit id made item.

Lemma caused_by_change_app o trigger ns name source path current id new1 new new2 item :
  caused_by_change o trigger ns name source path current id new item ->
  caused_by_change o trigger ns name source path current id (new1 ++ new ++ new2) item.
Proof.
  intros (found & commit & seen & made & -> & Hobs & Hc & Hn & Hm).
  exists found, commit, (new1 ++ seen), (made ++ new2). rewrite <- !app_assoc. split; [done|].
  split; [rewrite <- (app_nil_r seen); by apply observed_app|]. do 2 (split; [done|]).
  by apply (made_for_app _ _ _ _ _ _ _ []).
Qed.

Lemma caused_by_change_job o trigger ns name source path current id new item :
  caused_by_change o trigger ns name source path current id new item -> job_of_trigger ns item.
Proof. intros (found & commit & seen & made & _ & _ & _ & _ & Hm). by eapply made_for_job. Qed.

(** The turn of one source in the folder [path]: the outcome, the state and
    the trace.  The folder is made anew; a source without a folder, or whose
    inspection gives it up, is left at that; otherwise what was found is
    settled, and the folder removed. *)
Inductive turn o trigger ns name source path (current : option CheckedSourceState) s t
    : outcome unit -> Statics -> trace -> Prop :=
| turn_no_folder removed e :
    turn o trigger ns name source path current s t (Ret tt) s
      (t ++ [Ev (RemoveDirAll path) removed; Ev (CreateDirAll path) (Err e)])
| turn_given_up removed given_up inspection :
    let t1 := t ++ [Ev (RemoveDirAll path) removed; Ev (CreateDirAll path) (Ok tt)] in
    inspect_source trigger source path ns o s t1 = (given_up, s, t1 ++ inspection) ->
    given_up = Ret None \/ given_up = Panic -> Forall inner inspection ->
    turn o trigger ns name source path current s t
      (match given_up with Ret _ => Ret tt | Panic => Panic end) s (t1 ++ inspection)
| turn_settled removed found inspection r s' items settling cleaning :
    let t1 := t ++ [Ev (RemoveDirAll path) removed; Ev (CreateDirAll path) (Ok tt)] in
    inspect_source trigger source path ns o s t1 = (Ret (Some found), s, t1 ++ inspection) ->
    Forall inner inspection -> observed trigger path found inspection ->
    settlement o trigger ns name source found current s s' items settling ->
    match r with
    | Ret _ => exists a, cleaning = [Ev (RemoveDirAll path) a]
    | Panic => cleaning = []
    end ->
    turn o trigger ns name source path current s t r s' (t1 ++ inspection ++ settling ++ cleaning).

(** The jobs of a turn. *)
Lemma turn_jobs o trigger ns name source path current s t r s' t' :
  turn o trigger ns name source path current s t r s' t' ->
  exists items new, t' = t ++ new /\ jobs_added s s' items /\ length items <= 1
    /\ Forall (caused_by_change o trigger ns name source path current (queue_identity s) new) items.
Proof.
  intros [removed e|removed given_up inspection t1 Hrun _ Hnew
    |removed found inspection r' s1 items settling cleaning t1 Hrun Hnew Hobs Hset _].
  - exists []. eexists. split; [reflexivity|]. split; [apply jobs_added_none|]. simpl. split; [lia|done].
  - exists []. eexists. subst t1. rewrite <- app_assoc. split; [reflexivity|].
    split; [apply jobs_added_none|]. simpl. split; [lia|done].
  - exists items. eexists. subst t1. rewrite <- app_assoc. split; [reflexivity|].
    unfold settlement in Hset. destruct (needs_action trigger found current) eqn:Hneeds; cycle 1.
    { destruct Hset as (-> & -> & _). split; [apply jobs_added_none|]. simpl. split; [lia|done]. }
    destruct (commit_hash found) as [commit|] eqn:Hcommit; cycle 1.
    { destruct Hset as (-> & -> & _). split; [apply jobs_added_none|]. simpl. split; [lia|done]. }
    destruct Hset as (running & published & -> & _ & Hjobs & Hlen & Hmade & _).
    split; [done|]. split; [done|]. eapply Forall_impl; [exact Hmade|]. intros item [_ Hm].
    eexists found, commit, (_ :: _ :: inspection), _. split; [reflexivity|].
    split; [|do 2 (split; [done|]); rewrite <- app_assoc; by apply (made_for_app _ _ _ _ _ _ _ [])].
    rewrite <- (app_nil_r inspection). by apply (observed_app _ _ _ [_; _]).
Qed.

Lemma wp_check_source trigger ns name base checked source o s t :
  wp (check_source trigger ns name base checked source) o s t
    (turn o trigger ns name source (base ^^ "/" ^^ source) (checked !! source) s t).
Proof.
  unfold check_source. do 4 wp_step. rewrite <- app_assoc. simpl app.
  destruct r0 as [[]|e]; [|wp_step; apply turn_no_folder].
  wp_step. set (t1 := t ++ [_; _]).
  pose proof (wp_inspect_source inner trigger source (base ^^ "/" ^^ source) ns o s t1
    (fun r s' t' => s' = s /\ exists new, t' = t1 ++ new /\ Forall inner new
       /\ forall found, r = Ret (Some found) -> observed trigger (base ^^ "/" ^^ source) found new))
    as Hinsp.
  unfold wp at 1 in Hinsp. unfold wp at 1.
  destruct (inspect_source trigger source (base ^^ "/" ^^ source) ns o s t1) as [[r1 s1] t2] eqn:Hrun.
  destruct Hinsp as (-> & new1 & -> & Hnew1 & Hobs); [by intros []|eauto|].
  destruct r1 as [[found|]|]; [|by wp_step; apply (turn_given_up _ _ _ _ _ _ _ _ _ r (Ret None)); auto
    |by apply (turn_given_up _ _ _ _ _ _ _ _ _ r Panic); auto].
  wp_step. eapply wp_mono; [apply wp_settle_source|].
  intros r1 s' t' (items & new & -> & Hset). rewrite <- app_assoc.
  destruct r1 as [[]|].
  - do 3 wp_step. rewrite <- !app_assoc. eapply turn_settled; eauto.
  - rewrite <- (app_nil_r new). eapply turn_settled; by eauto.
Qed.

(** C16. The turn of one source in a task.  The source's own folder is made
    anew, and no other folder is touched; the source is given up exactly when
    the folder cannot be made or the inspection gives it up, and then nothing
    is enqueued and no status published.  What the inspection finds was
    fetched and checked out in this very turn, and its file hash is that of
    the files as they were read.  If it calls for the action by the trigger's
    rule, at most one job is enqueued: the one that the trigger's action, as
    the cache held it, makes for that source and that commit, in the trigger's
    namespace and with every label the metrics need.  The source is then
    recorded as processed - its commit and hash, with the state Running -
    only when the action succeeded, and it is when the job got into an open
    queue; a missing action, an absent or closed queue publish nothing, so
    that the same change is found again by the next check.  If it calls for
    nothing, what was found is recorded with the time of the last run.  At
    the end the folder is removed, unless the turn panicked. *)
Theorem check_source_spec trigger ns name base checked source o s t :
  wp (check_source trigger ns name base checked source) o s t
    (turn o trigger ns name source (base ^^ "/" ^^ source) (checked !! source) s t).
Proof. apply wp_check_source. Qed.

(** The sources of a task. *)
Definition sources_of trigger (ts : TriggerTaskSources) : gset string :=
  match ts with All => list_to_set (names (sources trigger)) | Single source => {[ source ]} end.

(** The jobs [l] of one source of a task over [base]. *)
Definition source_jobs o trigger ns name base (checked : gmap string CheckedSourceState) id
    (new : trace) (source : string) (l : list JobsQueueItem) : Prop :=
  length l <= 1 /\ Forall (caused_by_change o trigger ns name source (base ^^ "/" ^^ source)
    (checked !! source) id new) l.

Lemma source_jobs_app o trigger ns name base checked id new1 new new2 order per :
  Forall2 (source_jobs o trigger ns name base checked id new) order per ->
  Forall2 (source_jobs o trigger ns name base checked id (new1 ++ new ++ new2)) order per.
Proof.
  intros Hall. eapply Forall2_impl; [exact Hall|]. intros source l [Hlen Hl]. split; [done|].
  eapply Forall_impl; [exact Hl|]. intros item. by apply caused_by_change_app.
Qed.

Lemma source_jobs_none o trigger ns name base checked id new order :
  Forall2 (source_jobs o trigger ns name base checked id new) order (replicate (length order) []).
Proof.
  induction order; simpl; constructor; [|done]. split; [simpl; lia|constructor].
Qed.

Lemma jobs_added_identity s s' items : jobs_added s s' items -> queue_identity s' = queue_identity s.
Proof.
  intros (_ & _ & Hq & _). unfold queue_identity. rewrite Hq.
  destruct (jobs_queue s) as [q|]; [|done]. apply (enqueued_all items q).
Qed.

Lemma wp_check_sources trigger ns name base checked l o s t :
  wp (for_each (check_source trigger ns name base checked) l) o s t (fun _ s' t' =>
    exists per new, t' = t ++ new /\ jobs_added s s' (concat per)
      /\ Forall2 (source_jobs o trigger ns name base checked (queue_identity s) new) l per).
Proof.
  revert s t. induction l as [|source l IH]; intros s t; simpl.
  { wp_step. exists [], []. rewrite app_nil_r. split; [done|]. split; [apply jobs_added_none|].
    constructor. }
  wp_step. eapply wp_mono; [apply wp_check_source|].
  intros r s1 t1 (items1 & new1 & -> & Hjobs1 & Hlen1 & Hok1)%turn_jobs.
  assert (Hitems1 : forall new2, source_jobs o trigger ns name base checked (queue_identity s)
    (new1 ++ new2) source items1).
  { intros new2. split; [done|]. eapply Forall_impl; [exact Hok1|]. intros item Hc.
    by apply (caused_by_change_app _ _ _ _ _ _ _ _ []). }
  destruct r as [u|]; cycle 1.
  { exists (items1 :: replicate (length l) []), new1. split; [done|]. split.
    - assert (Hnil : concat (replicate (length l) []) = @nil JobsQueueItem).
      { induction (length l); [done|]. by simpl. }
      simpl. by rewrite Hnil, app_nil_r.
    - constructor; [|apply source_jobs_none]. specialize (Hitems1 []). by rewrite app_nil_r in Hitems1. }
  eapply wp_mono; [apply IH|]. intros r s2 t2 (per & new2 & -> & Hjobs2 & Hok2).
  exists (items1 :: per), (new1 ++ new2). rewrite app_assoc. split; [done|].
  split; [by eapply jobs_added_app|]. constructor; [done|].
  rewrite (jobs_added_identity _ _ _ Hjobs1) in Hok2.
  rewrite <- (app_nil_r new2). by apply source_jobs_app.
Qed.

(** The states that a trigger's status records for its sources. *)
Definition recorded_states trigger : gmap string CheckedSourceState :=
  known_sources trigger
    (checked_sources (unwrap_or TriggerStatus_default (trigger_status trigger))).

(** The folder of a task, with its random part. *)
Definition task_folder (folder ns name suffix : string) : string :=
  folder ^^ "/" ^^ ns ^^ "/" ^^ name ^^ "/" ^^ suffix.

(** The jobs of a whole task, whose trigger the cache answered as [found]:
    [per] lists them source by source, in the order of the check. *)
Definition task_jobs o ns name ts folder (found : option T) s t s' t' : Prop :=
  exists items new, t' = t ++ new /\ jobs_added s s' items
    /\ Forall (job_of_trigger ns) items
    /\ match found with
       | None => items = []
       | Some trigger => exists suffix order per, order ≡ₚ elements (sources_of trigger ts)
           /\ items = concat per
           /\ Forall2 (source_jobs o trigger ns name (task_folder folder ns name suffix)
                (recorded_states trigger) (queue_identity s) new) order per
       end.

Lemma task_jobs_none o ns name ts folder found s t new :
  task_jobs o ns name ts folder found s t s (t ++ new).
Proof.
  exists [], new. split; [done|]. split; [apply jobs_added_none|]. split; [done|].
  destruct found as [trigger|]; [|done].
  exists "", (elements (sources_of trigger ts)), (replicate (length (elements (sources_of trigger ts))) []).
  split; [done|]. split; [|apply source_jobs_none].
  induction (length _); [done|]. by simpl.
Qed.

Lemma task_jobs_more o ns name ts folder found s t s' t' new :
  task_jobs o ns name ts folder found s t s' t' ->
  task_jobs o ns name ts folder found s t s' (t' ++ new).
Proof.
  intros (items & new1 & -> & Hjobs & Hok & Hwhy). exists items, (new1 ++ new).
  rewrite app_assoc. split; [done|]. split; [done|]. split; [done|].
  destruct found as [trigger|]; [|done]. destruct Hwhy as (suffix & order & per & Horder & Hitems & Hall).
  exists suffix, order, per. split; [done|]. split; [done|]. by apply (source_jobs_app _ _ _ _ _ _ _ []).
Qed.

(** The items of the loop over the sources are those of the task. *)
Lemma task_jobs_of_sources o trigger ns name ts folder suffix order s t s' pre new per :
  order ≡ₚ elements (sources_of trigger ts) ->
  jobs_added s s' (concat per) ->
  Forall2 (source_jobs o trigger ns name (task_folder folder ns name suffix)
    (recorded_states trigger) (queue_identity s) new) order per ->
  task_jobs o ns name ts folder (Some trigger) s t s' ((t ++ pre) ++ new).
Proof.
  intros Horder Hjobs Hok. exists (concat per), (pre ++ new). rewrite app_assoc.
  split; [done|]. split; [done|]. split.
  - clear -Hok. induction Hok as [|source l order per [_ Hl] _ IH]; [constructor|].
    simpl. apply Forall_app_2; [|done]. eapply Forall_impl; [exact Hl|].
    apply caused_by_change_job.
  - exists suffix, order, per. split; [done|]. split; [done|].
    rewrite <- (app_nil_r new). by apply source_jobs_app.
Qed.

#[local] Arguments random_string : simpl never.

Lemma wp_trigger_task ns name ts folder o s t :
  let found := store_answer (K:=T) ns name
    (o (t ++ [Ev InstantNow (o t InstantNow)]) (store_call (K:=T) ns name)) in
  wp (trigger_task (T:=T) ns name ts folder) o s t (fun _ s' t' =>
    task_jobs o ns name ts folder found s t s' t').
Proof.
  intros found. unfold trigger_task. do 3 wp_step.
  destruct (cell (K:=T) (api_cache s)) eqn:Hcell; cycle 1.
  { unfold on_api_cache, cache_get, get_cache_store. do 6 wp_step.
    destruct s. apply task_jobs_none. }
  apply (wp_get_cached (K:=T)); [done|]. intros answer Hanswer. simpl in Hanswer.
  assert (Hfound : store_answer (K:=T) ns name answer = found) by (subst; done).
  simpl. rewrite Hfound. clearbody found. wp_step. rewrite <- app_assoc.
  eapply wp_mono with (P := fun _ s' t' => task_jobs o ns name ts folder found s t s' t').
  2: { intros r1 s2 t2 Hpost. destruct r1; [|done]. do 2 wp_step.
       unfold trigger_count_and_measure. wp_run; rewrite <- ?app_assoc; by apply task_jobs_more. }
  destruct found as [trigger|]; [|wp_step; apply task_jobs_none].
  wp_step. eapply (wp_tail (fun _ => True)); [apply random_string_stateless|
    by apply calls_in_random_string|].
  intros [suffix|] new2 _; rewrite <- app_assoc; [|apply task_jobs_none].
  wp_step. eapply (wp_tail (fun _ => True)); [apply update_trigger_status_stateless|
    by apply update_trigger_status_calls|].
  intros [u|] new3 _; rewrite <- app_assoc; [|apply task_jobs_none].
  do 2 wp_step. destruct r0 as [order Horder]. simpl. rewrite <- app_assoc. wp_step.
  eapply wp_mono; [apply wp_check_sources|].
  intros r1 s4 t4 (per & new4 & -> & Hjobs & Hok).
  eapply (task_jobs_of_sources o trigger ns name ts folder suffix order s t s4) in Hok;
    [|by rewrite Horder; destruct ts|done].
  destruct r1; [|done]. do 3 wp_step.
  eapply (wp_tail (fun _ => True)); [apply update_trigger_status_stateless|
    by apply update_trigger_status_calls|].
  intros [u'|] new5 _; rewrite <- app_assoc; [wp_step|]; by apply task_jobs_more.
Qed.

(** C17. A whole task.  It leaves the caches alone and only ever appends to
    the jobs queue.  Without the trigger in the cache under the task's name
    there is no job.  Otherwise the jobs come source by source, in the order
    in which the task's sources - each once - are checked: at most one for
    each of them, in the namespace of the trigger the task was made for, one
    that the queue can run and measure, and each for a commit of that source
    which was fetched and checked out in the task's own folder and, with the
    files as they were read there, calls for the action against the state
    the trigger's status recorded.  It is so whatever the services answer,
    also when the task panics half-way. *)
Theorem trigger_task_jobs ns name ts folder o s t :
  let found := store_answer (K:=T) ns name
    (o (t ++ [Ev InstantNow (o t InstantNow)]) (store_call (K:=T) ns name)) in
  wp (trigger_task (T:=T) ns name ts folder) o s t (fun _ s' t' =>
    task_jobs o ns name ts folder found s t s' t').
Proof. apply wp_trigger_task. Qed.

(** ** Temporary folders *)

Definition no_remove (e : event resp) : Prop :=
  match e with Ev c _ => match c with RemoveDirAll _ => False | _ => True end end.

(** The folder of a source that could not be inspected stays: on every
    early [continue] (no such repository, a failed fetch, no such commit)
    the folder that was just created for it is not removed again, with
    whatever was cloned into it. *)
Theorem given_up_folder_leaks trigger ns name base checked source o s t :
  (forall t, wp (inspect_source trigger source (base ^^ "/" ^^ source) ns) o s t
                 (fun r _ _ => r = Ret None)) ->
  is_ok (o (t ++ [Ev (RemoveDirAll (base ^^ "/" ^^ source))
                    (o t (RemoveDirAll (base ^^ "/" ^^ source)))])
           (CreateDirAll (base ^^ "/" ^^ source))) = true ->
  wp (check_source trigger ns name base checked source) o s t (fun r s' t' =>
    r = Ret tt /\ s' = s /\ exists removed created rest,
      t' = t ++ Ev (RemoveDirAll (base ^^ "/" ^^ source)) removed
             :: Ev (CreateDirAll (base ^^ "/" ^^ source)) created :: rest
      /\ is_ok created = true /\ Forall no_remove rest).
Proof.
  intros Hgive Hcreate. unfold check_source. do 2 wp_step. do 2 wp_step.
  destruct r0 as [[]|e] eqn:Hr0; [|exfalso; subst r; by rewrite <- H1 in Hcreate].
  wp_step. eapply wp_mono; [apply wp_and; [apply Hgive|apply wp_and;
    [apply inspect_source_stateless|apply (inspect_source_calls no_remove); by intros []]]|].
  intros r1 s1 t1 (-> & -> & new & -> & Hnew). wp_step.
  split; [done|]. split; [done|]. eexists r, (Ok tt), new.
  rewrite <- !app_assoc. by split.
Qed.

(** A file hash that cannot be calculated is not an error: the source
    goes on without a hash, which differs from any earlier hash, so the
    action runs although nothing is known to have changed; and once that
    run is recorded, later failures compare equal and no new commit ever
    runs the action again. *)
Theorem hash_failure_counts_as_change trigger source path ns fs o s t :
  files (watch_on (sources trigger)) = Some fs ->
  on_change_only (watch_on (sources trigger)) = true ->
  (forall t, is_ok (o t (GlobWalk path fs)) = false) ->
  wp (inspect_source trigger source path ns) o s t (fun r _ _ =>
    forall found, r = Ret (Some found) ->
      file_hash found = None
      /\ (forall cur, is_Some (file_hash cur) -> needs_action trigger found (Some cur) = true)
      /\ (forall cur, file_hash cur = None -> needs_action trigger found (Some cur) = false)).
Proof.
  intros Hfiles Hchange Hwalk.
  assert (Hpost : forall commit, let found := {| commit_hash := commit; file_hash := None;
      changed := None |} in file_hash found = None
      /\ (forall cur, is_Some (file_hash cur) -> needs_action trigger found (Some cur) = true)
      /\ (forall cur, file_hash cur = None -> needs_action trigger found (Some cur) = false)).
  { intros commit found. split; [done|]. unfold needs_action, CheckedSourceState_is_equal.
    rewrite Hfiles, Hchange, (bool_decide_eq_true_2 (is_Some _)) by by eexists.
    split; intros cur Hcur.
    - destruct Hcur as [x ->]. done.
    - by rewrite Hcur. }
  unfold inspect_source. wp_step. eapply wp_mono; [apply wp_true|].
  intros [[[[]|e]|]|] s1 t1 _; [|by wp_step..|done].
  wp_step. eapply wp_mono; [apply wp_true|].
  intros [[commit|e]|] s2 t2 _; [|by wp_step|done].
  wp_step. rewrite Hfiles. wp_step. unfold get_file_glob_hash. do 2 wp_step.
  specialize (Hwalk t2). destruct r as [entries|e]; [by rewrite <- H0 in Hwalk|].
  do 3 wp_step. intros found [= <-]. apply Hpost.
Qed.
End task.
End TaskFacts.
