(* ===== verification/TriggerExamples.v ===== *)
(** * Triggers: concrete instances

    The theorems of TriggerFacts.v and TaskFacts.v with hypotheses, applied to
    one trigger, its objects and services that answer as the cluster would. *)

From stdpp Require Import base option gmap sets strings list fin_maps.
From Stdlib Require Import Ascii ZArith Lia.
From S2P Require Import Prelude Strs Time Errors Config Ext Resources World Jobs JobsFacts Cache Statics Action GitRepo Trigger TriggerFacts SourceFacts TaskFacts.
Local Open Scope string_scope.
Local Open Scope list_scope.

#[local] Existing Instance example_ext.

Definition ready_statics : Statics := {|
  api_cache := {| git_repo := true; cluster_git_repo := true; action := true;
                  cluster_action := true; webhook_trigger := true; schedule_trigger := true |};
  secret_cache := None;
  jobs_queue := Some (example_queue [] 0%Z ∅) |}.

Definition example_trigger (schedule : TriggerSchedule) (status : option TriggerStatus)
    : ScheduleTrigger := {|
  st_name := "hourly"; st_namespace := Some "ci";
  st_spec := {|
    sts_sources := {| sources_kind := KindGitRepo; names := ["app"];
      watch_on := {| on_change_only := true; reference := TriggerGitRepoReference_default;
                     files := Some ["*.yaml"] |} |};
    sts_schedule := schedule;
    sts_action := {| action_kind := KindAction; action_name := "build" |} |};
  st_status := status |}.

Definition never_status : TriggerStatus := {|
  state := Idle; last_run := Some "Never"; checked_sources := ∅ |}.

Definition idle_controller : ControllerState := {|
  statics := ready_statics; triggers := TriggersState_default; last_event := 0%Z |}.

Abbreviation quiet := (quiet_services 100%Z RuntimeConfig_default).

Lemma update_trigger_status_spec_witness :
  cell (K:=ScheduleTrigger) (api_cache ready_statics) = true /\
  wp (update_trigger_status (example_trigger (Interval "60s") None) None None None) quiet
    ready_statics [] (fun r s' t' => s' = ready_statics).
Proof.
  split; [done|].
  eapply wp_mono; [apply (update_trigger_status_spec (example_trigger (Interval "60s") None)
    None None None quiet ready_statics []); done|].
  by intros r s' t' [-> _].
Defined.

Lemma get_task_schedule_spec_witness :
  (forall i d, example_humantime i = Some d -> (0 <= d)%Z) /\
  wp (get_task_schedule (example_trigger (Interval "60s") None) (Some 40%Z)) quiet tt []
    (fun r _ _ => exists interval delay, r = Ret (Ok (TaskIntervalDelayed interval delay))
       /\ (0 <= delay <= interval)%Z).
Proof.
  assert (Hpos : forall i d, example_humantime i = Some d -> (0 <= d)%Z).
  { intros i d. unfold example_humantime.
    repeat case_match; try done. destruct (parse_uint u64_max s) as [z|] eqn:Hz; [|done].
    apply parse_uint_range in Hz; [|done]. intros [= <-]. unfold from_secs, nanos_per_sec. lia. }
  split; [done|].
  eapply wp_mono; [apply (get_task_schedule_spec (example_trigger (Interval "60s") None)
    (Some 40%Z) quiet tt []); [|done]|].
  - by intros lr [= <-].
  - intros r s t [_ (delay & -> & Hd & _)]. by exists (from_secs 60), delay.
Defined.

Lemma last_run_never_used_witness :
  wp (last_run_ <-- parse_last_run (example_trigger (Cron "0 * * * *")
        (Some {| state := Idle; last_run := Some "2024-01-02T03:04:05Z"; checked_sources := ∅ |})) ;;
      get_task_schedule (example_trigger (Cron "0 * * * *") None) last_run_)%prog quiet tt []
     (fun r _ _ => r = Ret (Ok (TaskCron "0 * * * *" true false)))
  /\ wp (last_run_ <-- parse_last_run (example_trigger (Interval "60s") (Some never_status)) ;;
         get_task_schedule (example_trigger (Interval "60s") (Some never_status)) last_run_)%prog
       quiet tt [] (fun r s' _ => s' = tt /\
        match r with
        | Panic => st_status (example_trigger (Interval "60s") (Some never_status)) ≫= last_run
                   = Some NEVER_LAST_RUN_STR
        | Ret (Err _) => TriggerSchedule_is_valid (Interval "60s") = false
        | Ret (Ok schedule) =>
            match schedule with
            | TaskInterval _ => True
            | TaskCron _ at_start _ => at_start = true
            | _ => False
            end
        end).
Proof.
  split; [reflexivity|].
  exact (last_run_never_used (S:=unit) (example_trigger (Interval "60s") (Some never_status))
    quiet tt [] eq_refl).
Defined.

Lemma no_orphans_empty c : no_orphans c [].
Proof.
  split; [apply one_task_each_nil|]. intros id task Hid. destruct (lookup_empty_Some id task Hid).
Defined.

Lemma reconcile_spec_witness :
  wp (reconcile (example_trigger (Interval "60s") None) "/tmp") quiet idle_controller []
    (reconciled (example_trigger (Interval "60s") None) "ci" "/tmp" idle_controller []).
Proof.
  apply (reconcile_spec (example_trigger (Interval "60s") None) "ci" "/tmp" quiet idle_controller []);
    [done|apply no_orphans_empty].
Defined.

Lemma cleanup_spec_witness :
  wp (cleanup (example_trigger (Interval "60s") None)) quiet idle_controller []
    (fun r c' t' =>
      let key := "ci" ^^ "/" ^^ "hourly" in
      r = Ret (Ok AwaitChange) /\ no_orphans c' t' /\ same_elsewhere key idle_controller c'
      /\ tasks (triggers c') !! key = None /\ schedules (triggers c') !! key = None
      /\ (forall id, tasks (triggers idle_controller) !! key = Some id -> cancelled_in t' id)
      /\ wp (cleanup (example_trigger (Interval "60s") None)) quiet c' t'
           (fun r' c'' t'' => r' = r /\ c'' = c' /\ t'' = t')).
Proof.
  apply (cleanup_spec (example_trigger (Interval "60s") None) "ci" quiet idle_controller []);
    [done|apply no_orphans_empty].
Defined.

(** The trigger is missing from the cache when its status is published: the
    reconciliation fails after the new task was added. *)
Definition hourly_controller : ControllerState := {|
  statics := ready_statics;
  triggers := {| tasks := ∅; schedules := {[ "ci/hourly" := Interval "60s" ]} |};
  last_event := 0%Z |}.

Lemma failed_reconcile_then_revert_witness :
  wp (reconcile (example_trigger (Interval "5s") None) "/tmp") quiet hourly_controller []
    (fun r _ _ => r = Ret (Err (ResourceNotFoundError "ci/hourly")))
  /\ wp (reconcile (example_trigger (Interval "5s") None) "/tmp") quiet hourly_controller []
      (fun r c' t' => (exists e, r = Ret (Err e)) ->
        wp (reconcile (example_trigger (Interval "60s") None) "/tmp") quiet c' t'
          (fun r'' c'' t'' =>
            r'' = Ret (Ok AwaitChange) /\ c'' = c' /\ t'' = t'
            /\ (tasks (triggers c'') !! ("ci" ^^ "/" ^^ "hourly") = None
                \/ exists id task new, t'' = [] ++ new
                     /\ tasks (triggers c'') !! ("ci" ^^ "/" ^^ "hourly") = Some id
                     /\ Ev (SchedulerAdd LeaderScheduler task) (Ok id) ∈ new
                     /\ is_task_of (example_trigger (Interval "5s") None) "ci" "/tmp" task))).
Proof.
  split; [reflexivity|].
  apply (failed_reconcile_then_revert (example_trigger (Interval "5s") None)
    (example_trigger (Interval "60s") None) "ci" "/tmp" quiet hourly_controller []); [done..| | |done].
  - apply no_orphans_empty.
  - done.
Defined.

(** The repository is not in the cache. *)
Lemma given_up_folder_leaks_witness :
  wp (check_source (example_trigger (Interval "60s") None) "ci" "hourly" "/tmp/ci/hourly/x" ∅ "app")
    quiet ready_statics [] (fun r s' t' =>
      r = Ret tt /\ s' = ready_statics /\ exists removed created rest,
        t' = [] ++ Ev (RemoveDirAll ("/tmp/ci/hourly/x" ^^ "/" ^^ "app")) removed
               :: Ev (CreateDirAll ("/tmp/ci/hourly/x" ^^ "/" ^^ "app")) created :: rest
        /\ is_ok created = true /\ Forall no_remove rest).
Proof.
  apply (given_up_folder_leaks (example_trigger (Interval "60s") None)); [|done].
  intros t. reflexivity.
Defined.

(** Digests of 32 bytes, for the example. *)
Definition constant_hash_ext : Ext := {|
  CronSchedule := string;
  parse_cron := example_cron;
  parse_humantime := example_humantime;
  parse_rfc3339 := fun _ => None;
  rfc3339_secs := fun _ => "2024-01-02T03:04:05Z"%string;
  local_timestamp := fun _ => "20240102-030405"%string;
  sha256 := fun _ => "0123456789abcdef0123456789abcdef"%string;
  oid_from_str := Ok;
  Affinity := unit;
  Toleration := unit |}.

Lemma get_file_glob_hash_spec_witness :
  (forall x, String.length (sha256 (Ext:=constant_hash_ext) x) = 32) /\
  let ext := constant_hash_ext in
  wp (get_file_glob_hash (H:=constant_hash_ext) (S:=unit) "/tmp" ["*"])
    (quiet_services (H:=constant_hash_ext) 0%Z RuntimeConfig_default) tt [] (fun r _ _ => r <> Panic).
Proof.
  split; [done|]. intros ext.
  eapply wp_mono; [apply (get_file_glob_hash_spec (H:=constant_hash_ext) (S:=unit) "/tmp" ["*"]
    "/tmp" ["*"]
    (quiet_services (H:=constant_hash_ext) 0%Z RuntimeConfig_default)
    (quiet_services (H:=constant_hash_ext) 0%Z RuntimeConfig_default) tt tt [] []); done|].
  by intros r v t' (_ & Hr & _).
Defined.

(** Services whose glob patterns never compile. *)
Definition bad_glob_services : services := fun t c =>
  match c as c return resp c with
  | GlobWalk _ _ => Err "invalid glob"
  | c => quiet t c
  end.

Lemma hash_failure_counts_as_change_witness :
  wp (inspect_source (example_trigger (Interval "60s") None) "app" "/tmp/app" "ci")
    bad_glob_services ready_statics [] (fun r _ _ =>
      forall found, r = Ret (Some found) ->
        file_hash found = None
        /\ (forall cur, is_Some (file_hash cur) ->
              needs_action (example_trigger (Interval "60s") None) found (Some cur) = true)
        /\ (forall cur, file_hash cur = None ->
              needs_action (example_trigger (Interval "60s") None) found (Some cur) = false)).
Proof.
  exact (hash_failure_counts_as_change (example_trigger (Interval "60s") None) "app" "/tmp/app" "ci"
    ["*.yaml"] bad_glob_services ready_statics [] eq_refl eq_refl (fun _ => eq_refl)).
Defined.
