(* ===== verification/RateLimit.v ===== *)
(** * Request rate limits (src/src/web.rs)

    The parameters of a limit from the command line, the key a request is
    counted under, and the layers put around the router.  [f64] arithmetic is
    that of the Standard Library's [SpecFloat] at binary64. *)

From stdpp Require Import base option gmap strings list numbers.
From Stdlib Require Import Ascii ZArith Lia SpecFloat.
From S2P Require Import Prelude Strs Time Errors.
Local Open Scope string_scope.
Local Open Scope list_scope.

(** ** Floating point *)

(** [n as f64] for an unsigned integer, and the division. *)
Definition f64_of_uint (n : Z) : spec_float := binary_normalize 53 1024 n 0 false.
Definition f64_div (x y : spec_float) : spec_float := SFdiv 53 1024 x y.

(** The nearest integer to [n / d], ties to even. *)
Definition round_half_even (n d : Z) : Z :=
  let q := (n / d)%Z in
  let r := (n mod d)%Z in
  match (2 * r ?= d)%Z with
  | Lt => q
  | Gt => (q + 1)%Z
  | Eq => if Z.even q then q else (q + 1)%Z
  end.

(** [Duration::from_secs_f64]: rounds to the nearest nanosecond; [None] where
    it panics (negative, not finite, or 2^64 seconds and more). *)
Definition from_secs_f64 (x : spec_float) : option Duration :=
  match x with
  | S754_zero _ => Some 0%Z
  | S754_finite false m e =>
      if (0 <=? e)%Z then
        let secs := (Zpos m * 2 ^ e)%Z in
        if (secs <=? u64_max)%Z then Some (secs * nanos_per_sec)%Z else None
      else
        if (Zpos m / 2 ^ (- e) <=? u64_max)%Z
        then Some (round_half_even (Zpos m * nanos_per_sec) (2 ^ (- e))) else None
  | _ => None
  end.

(** ** Parameters *)

Record RequestsRateLimitParams := {
  burst : Z; (* u32 *)
  period : Duration }.

Record RequestRateLimitsConfig := {
  rl_global : option RequestsRateLimitParams;
  rl_trigger : option RequestsRateLimitParams;
  rl_source : option RequestsRateLimitParams }.

(** [TryFrom<&str>]: "<burst>/<seconds>". *)
Definition rate_limit_try_from (value : string) : outcome (result Error RequestsRateLimitParams) :=
  match split "/"%char value with
  | [s0; s1] =>
      match parse_uint u32_max s0 with
      | None => Ret (Err (InvalidRequestRateLimit value))
      | Some burst =>
          match parse_uint u64_max s1 with
          | None => Ret (Err (InvalidRequestRateLimit value))
          | Some period =>
              if ((burst =? 0) || (period =? 0))%Z
              then Ret (Err (InvalidRequestRateLimit value))
              else
                match from_secs_f64 (f64_div (f64_of_uint period) (f64_of_uint burst)) with
                | Some period => Ret (Ok {| burst := burst; period := period |})
                | None => Panic
                end
          end
      end
  | _ => Ret (Err (InvalidRequestRateLimit value))
  end.

(** ** Keys *)

Inductive RequestsRateLimiter : Type := LimitGlobal | LimitTrigger | LimitSource.

Record RateLimiterKey := {
  rk_ns : option string;
  rk_trigger : option string;
  rk_source : option string;
  strip_source : bool }.

#[export] Instance RateLimiterKey_eq_dec : EqDecision RateLimiterKey.
Proof. solve_decision. Defined.

Definition RateLimiterKey_default : RateLimiterKey := {|
  rk_ns := None; rk_trigger := None; rk_source := None; strip_source := false |}.

Definition RateLimiterKey_to_string (k : RateLimiterKey) : string :=
  (match rk_ns k with Some ns => ns ^^ "/" | None => "" end) ^^
  (match rk_trigger k with Some trigger => trigger ^^ "/" | None => "" end) ^^
  (if negb (strip_source k) then unwrap_or "" (rk_source k) else "").

Definition limiter_name (self : RequestsRateLimiter) : string :=
  match self with
  | LimitGlobal => "global"
  | LimitTrigger => "trigger"
  | LimitSource => "trigger source"
  end.

(** [GovernorError::UnableToExtractKey] is the only error. *)
Inductive GovernorError : Type := UnableToExtractKey.

Definition is_empty (s : string) : bool := match s with EmptyString => true | _ => false end.

(** [extract_path_key]; [uuid] is a fresh [Uuid::new_v4]. *)
Definition extract_path_key (self : RequestsRateLimiter) (uuid path : string)
    : result GovernorError RateLimiterKey :=
  match self with
  | LimitGlobal => Ok RateLimiterKey_default
  | LimitTrigger =>
      match split "/"%char path with
      | _ :: ns :: trigger :: _ =>
          if is_empty ns || is_empty trigger then Err UnableToExtractKey
          else Ok {| rk_ns := Some ns; rk_trigger := Some trigger; rk_source := None;
                     strip_source := false |}
      | _ => Err UnableToExtractKey
      end
  | LimitSource =>
      let without_source :=
        match split "/"%char path with
        | _ :: ns :: trigger :: _ =>
            if is_empty ns || is_empty trigger then Err UnableToExtractKey
            else Ok {| rk_ns := Some ns; rk_trigger := Some trigger; rk_source := Some uuid;
                       strip_source := true |}
        | _ => Err UnableToExtractKey
        end in
      match split "/"%char path with
      | _ :: ns :: trigger :: source :: _ =>
          if negb (is_empty ns || is_empty trigger || is_empty source)
          then Ok {| rk_ns := Some ns; rk_trigger := Some trigger; rk_source := Some source;
                     strip_source := false |}
          else without_source
      | _ => without_source
      end
  end.

Definition key_name (self : RequestsRateLimiter) (key : RateLimiterKey) : option string :=
  match self with
  | LimitGlobal => None
  | LimitTrigger | LimitSource => Some (RateLimiterKey_to_string key)
  end.

(** ** Layers *)

Section Layers.
(** [tower_governor]: the configuration its builder finishes with, if any,
    and the router type with its layers. *)
Context {GovernorConfig Router : Type}.
Context (finish : RequestsRateLimiter -> Z -> Duration -> option GovernorConfig).
Context (layer : GovernorConfig -> Router -> Router).

Definition limiter_add_rrl_layer (self : RequestsRateLimiter) (burst : Z) (period : Duration)
    (router : Router) : outcome Router :=
  match finish self burst period with
  | Some config => Ret (layer config router)
  | None => Panic
  end.

Definition add_limit (self : RequestsRateLimiter) (rrl : option RequestsRateLimitParams)
    (router : outcome Router) : outcome Router :=
  match router with
  | Panic => Panic
  | Ret router =>
      match rrl with
      | Some rrl => limiter_add_rrl_layer self (burst rrl) (period rrl) router
      | None => Ret router
      end
  end.

Definition add_rrl_layer (self : RequestRateLimitsConfig) (router : Router) : outcome Router :=
  add_limit LimitSource (rl_source self)
    (add_limit LimitTrigger (rl_trigger self)
      (add_limit LimitGlobal (rl_global self) (Ret router))).
End Layers.

(** ** Theorems *)

Example limit_10_per_minute : rate_limit_try_from "10/60"
  = Ret (Ok {| burst := 10%Z; period := (6 * nanos_per_sec)%Z |}).
Proof. vm_compute. reflexivity. Qed.

Example limit_3_per_second : rate_limit_try_from "3/1"
  = Ret (Ok {| burst := 3%Z; period := 333333333%Z |}).
Proof. vm_compute. reflexivity. Qed.

(** The two numbers of a well-formed parameter. *)
Definition rate_limit_numbers (value : string) : option (Z * Z) :=
  match split "/"%char value with
  | [s0; s1] =>
      burst ← parse_uint u32_max s0;
      period ← parse_uint u64_max s1;
      if ((burst =? 0) || (period =? 0))%Z then None else Some (burst, period)
  | _ => None
  end.

Lemma rate_limit_try_from_numbers value :
  rate_limit_try_from value =
  match rate_limit_numbers value with
  | None => Ret (Err (InvalidRequestRateLimit value))
  | Some (b, p) =>
      match from_secs_f64 (f64_div (f64_of_uint p) (f64_of_uint b)) with
      | Some period => Ret (Ok {| burst := b; period := period |})
      | None => Panic
      end
  end.
Proof.
  unfold rate_limit_try_from, rate_limit_numbers.
  destruct (split "/" value) as [|s0 [|s1 [|]]]; [done|done| |done].
  destruct (parse_uint u32_max s0) as [b|]; [|done].
  destruct (parse_uint u64_max s1) as [p|]; [|done]. simpl.
  by destruct ((b =? 0) || (p =? 0))%Z.
Qed.

Lemma rate_limit_numbers_spec value b p :
  rate_limit_numbers value = Some (b, p) <->
  exists s0 s1, occurs "/" s0 = false /\ occurs "/" s1 = false /\ value = s0 ^^ "/" ^^ s1
    /\ parse_uint u32_max s0 = Some b /\ parse_uint u64_max s1 = Some p
    /\ (1 <= b <= u32_max)%Z /\ (1 <= p <= u64_max)%Z.
Proof.
  unfold rate_limit_numbers. split.
  - pose proof (join_split "/" value) as Hj. pose proof (split_pieces "/" value) as Hp.
    destruct (split "/" value) as [|s0 [|s1 [|]]]; try done.
    destruct (parse_uint u32_max s0) as [b'|] eqn:Hb; [|done].
    destruct (parse_uint u64_max s1) as [p'|] eqn:Hp'; [|done]. simpl.
    destruct ((b' =? 0) || (p' =? 0))%Z eqn:Hz; [done|]. intros [= <- <-].
    apply orb_false_iff in Hz as [Hb0%Z.eqb_neq Hp0%Z.eqb_neq].
    apply parse_uint_range in Hb as Hbr; [|done]. apply parse_uint_range in Hp' as Hpr; [|done].
    inversion_clear Hp as [|? ? Hs0 Htl]. inversion_clear Htl as [|? ? Hs1 Hnil].
    exists s0, s1. split; [done|]. split; [done|]. split; [done|]. split; [done|].
    split; [done|]. lia.
  - intros (s0 & s1 & H0 & H1 & -> & Hb & Hp & Hbr & Hpr).
    change (s0 ^^ "/" ^^ s1) with (s0 ^^ String "/" s1).
    rewrite split_app, (split_no_sep "/" s1) by done. simpl. rewrite Hb. simpl. rewrite Hp. simpl.
    rewrite (proj2 (Z.eqb_neq b 0)), (proj2 (Z.eqb_neq p 0)) by lia. done.
Qed.

(** Rate limit parameters: exactly the values "<burst>/<seconds>" with a
    32-bit burst and a 64-bit number of seconds, both positive, are accepted
    (or panic in the conversion); the burst is the first number; everything
    else is the error that quotes the value. *)
Theorem rate_limit_try_from_spec value :
  match rate_limit_try_from value with
  | Ret (Err e) => e = InvalidRequestRateLimit value /\
      ~ exists b p s0 s1, occurs "/" s0 = false /\ occurs "/" s1 = false
          /\ value = s0 ^^ "/" ^^ s1
          /\ parse_uint u32_max s0 = Some b /\ parse_uint u64_max s1 = Some p
          /\ (1 <= b <= u32_max)%Z /\ (1 <= p <= u64_max)%Z
  | r => exists b p s0 s1, occurs "/" s0 = false /\ occurs "/" s1 = false
          /\ value = s0 ^^ "/" ^^ s1
          /\ parse_uint u32_max s0 = Some b /\ parse_uint u64_max s1 = Some p
          /\ (1 <= b <= u32_max)%Z /\ (1 <= p <= u64_max)%Z
          /\ forall params, r = Ret (Ok params) -> burst params = b
  end.
Proof.
  rewrite rate_limit_try_from_numbers.
  destruct (rate_limit_numbers value) as [[b p]|] eqn:Hn.
  - apply rate_limit_numbers_spec in Hn as (s0 & s1 & ? & ? & ? & ? & ? & ? & ?).
    destruct (from_secs_f64 _) as [d|]; exists b, p, s0, s1; repeat (split; [done|]); by intros ? [= <-].
  - split; [done|]. intros (b & p & s0 & s1 & Hall).
    assert (Hs : rate_limit_numbers value = Some (b, p)); [|congruence].
    apply rate_limit_numbers_spec. exists s0, s1. naive_solver.
Qed.

(** Two accepted-looking limits that stop the program.  The period of
    one bucket item of "4294967295/1" rounds to no time at all, and a limiter
    with a zero period cannot be built, so adding its layer panics at start;
    "1/18446744073709551615" rounds up to 2^64 seconds and panics in the
    parser itself. *)
Theorem extreme_rate_limits_panic {GovernorConfig Router : Type}
    (finish : RequestsRateLimiter -> Z -> Duration -> option GovernorConfig)
    (layer : GovernorConfig -> Router -> Router) router :
  (forall kind burst, finish kind burst 0%Z = None) ->
  rate_limit_try_from "1/18446744073709551615" = Panic /\
  exists params, rate_limit_try_from "4294967295/1" = Ret (Ok params) /\
    forall kind config, add_rrl_layer finish layer
      (match kind with
       | LimitGlobal => {| rl_global := Some params; rl_trigger := None; rl_source := config |}
       | LimitTrigger => {| rl_global := None; rl_trigger := Some params; rl_source := config |}
       | LimitSource => {| rl_global := None; rl_trigger := None; rl_source := Some params |}
       end) router = Panic.
Proof.
  intros Hzero. split; [by vm_compute|].
  exists {| burst := 4294967295%Z; period := 0%Z |}. split; [by vm_compute|].
  intros [] config; unfold add_rrl_layer, add_limit, limiter_add_rrl_layer; simpl;
    by rewrite Hzero.
Qed.

Lemma source_key_cases uuid path k :
  extract_path_key LimitSource uuid path = Ok k ->
  (exists h ns tr src l, split "/"%char path = h :: ns :: tr :: src :: l
     /\ k = {| rk_ns := Some ns; rk_trigger := Some tr; rk_source := Some src;
               strip_source := false |})
  \/ (rk_source k = Some uuid /\ strip_source k = true).
Proof.
  unfold extract_path_key.
  destruct (split "/" path) as [|h [|ns [|tr [|src l]]]]; try done.
  - destruct (is_empty ns || is_empty tr); [done|]. intros [= <-]. by right.
  - destruct (negb (is_empty ns || is_empty tr || is_empty src)).
    + intros [= <-]. left. by exists h, ns, tr, src, l.
    + destruct (is_empty ns || is_empty tr); [done|]. intros [= <-]. by right.
Qed.

(** The keys requests are counted under.  The global limiter has one key
    for all.  Two requests share a trigger key exactly when the second and
    third segments of their raw paths agree, so different triggers never share
    a bucket.  Under the source limiter, requests for a source share a key
    exactly when all three segments agree, and a request without a source
    never shares one with a request that got another identifier: it is not
    limited there. *)
Theorem rate_limit_keys uuid uuid' path path' k k' :
  (extract_path_key LimitGlobal uuid path = extract_path_key LimitGlobal uuid' path')
  /\ (extract_path_key LimitTrigger uuid path = Ok k ->
      extract_path_key LimitTrigger uuid' path' = Ok k' ->
      k = k' <-> take 2 (drop 1 (split "/"%char path)) = take 2 (drop 1 (split "/"%char path')))
  /\ (extract_path_key LimitSource uuid path = Ok k ->
      extract_path_key LimitSource uuid' path' = Ok k' ->
      (strip_source k = false -> strip_source k' = false ->
        k = k' <-> take 3 (drop 1 (split "/"%char path)) = take 3 (drop 1 (split "/"%char path')))
      /\ (strip_source k = true -> uuid <> uuid' -> k <> k')).
Proof.
  split; [done|]. unfold extract_path_key.
  split.
  - destruct (split "/" path) as [|? [|ns [|tr l]]]; try done.
    destruct (split "/" path') as [|? [|ns' [|tr' l']]]; try done; simpl.
    all: destruct (is_empty ns || is_empty tr); try done.
    destruct (is_empty ns' || is_empty tr'); try done.
    intros [= <-] [= <-]. split; [intros [= -> ->]; done|intros [= -> ->]; done].
  - intros Hk Hk'. apply source_key_cases in Hk, Hk'. split.
    + intros Hs Hs'. destruct Hk as [(h & ns & tr & src & l & -> & ->)|[_ ?]]; [|congruence].
      destruct Hk' as [(h' & ns' & tr' & src' & l' & -> & ->)|[_ ?]]; [|congruence]. simpl.
      split; [by intros [= -> -> ->]|by intros [= -> -> ->]].
    + intros Hs Hne ->. destruct Hk as [(? & ? & ? & ? & ? & _ & ->)|[Hu _]]; [done|].
      destruct Hk' as [(? & ? & ? & ? & ? & _ & ->)|[Hu' _]]; [done|congruence].
Qed.

(** The limiters read the raw path while the router decodes it: an
    escaped letter in the name of a trigger reaches the same handler under a
    key of its own, so a client multiplies its limit by respelling the path. *)
Theorem encoded_path_escapes_limit uuid :
  extract_path_key LimitTrigger uuid "/ci/hook" <> extract_path_key LimitTrigger uuid "/ci/h%6Fok"
  /\ extract_path_key LimitSource uuid "/ci/hook/app"
     <> extract_path_key LimitSource uuid "/ci/hook/%61pp".
Proof. split; by vm_compute. Qed.

Lemma extreme_rate_limits_panic_witness :
  let finish := fun (_ : RequestsRateLimiter) (burst : Z) (period : Duration) =>
    if ((burst =? 0) || (period =? 0))%Z then None else Some (burst, period) in
  rate_limit_try_from "1/18446744073709551615" = Panic /\
  exists params, rate_limit_try_from "4294967295/1" = Ret (Ok params) /\
    forall kind config, add_rrl_layer finish (fun config router => config :: router)
      (match kind with
       | LimitGlobal => {| rl_global := Some params; rl_trigger := None; rl_source := config |}
       | LimitTrigger => {| rl_global := None; rl_trigger := Some params; rl_source := config |}
       | LimitSource => {| rl_global := None; rl_trigger := None; rl_source := Some params |}
       end) [] = Panic.
Proof.
  intros finish. apply (extreme_rate_limits_panic finish). intros kind burst.
  unfold finish. by rewrite orb_true_r.
Defined.

Lemma rate_limit_keys_witness :
  let key tr := {| rk_ns := Some "ci"; rk_trigger := Some tr; rk_source := None;
                   strip_source := false |} in
  extract_path_key LimitTrigger "u" "/ci/hook" = Ok (key "hook")
  /\ extract_path_key LimitTrigger "u" "/ci/other" = Ok (key "other")
  /\ key "hook" <> key "other".
Proof.
  intros key. split; [reflexivity|]. split; [reflexivity|].
  destruct (rate_limit_keys "u" "u" "/ci/hook" "/ci/other" (key "hook") (key "other"))
    as (_ & Htrigger & _).
  intros Heq. apply (Htrigger eq_refl eq_refl) in Heq. by vm_compute in Heq.
Defined.
