(* ===== verification/Cli.v ===== *)
(** * The command line of the controller (src/src/cli.rs)

    The options of the [run] command with their declared ranges and relations,
    and the choice of the TLS configuration of the webhooks server.  The
    parser itself is clap's, the TLS configuration axum-server's. *)

From stdpp Require Import base option gmap strings list.
From Stdlib Require Import ZArith Lia.
From S2P Require Import Prelude Strs Time Errors Config Ext Resources World Cache RateLimit.
Local Open Scope string_scope.
Local Open Scope list_scope.

Definition DEFAULT_SOURCE_CLONE_FOLDER : string := "/tmp/git-events-runner".
Definition DEFAULT_CONFIG_MAP_NAME : string := "git-events-runner-config".
Definition DEFAULT_LEADER_LOCK_LEASE_NAME : string := "git-events-runner-leader-lock".
Definition DEFAULT_METRICS_PREFIX : string := "git_events_runner".

(** The integers are [u16] and [u64]. *)
Record CliConfig := {
  webhooks_port : Z;
  utility_port : Z;
  webhooks_parallelism : Z;
  schedule_parallelism : Z;
  secrets_cache_time : Z;
  source_clone_folder : string;
  config_map_name : string;
  leader_lease_name : string;
  leader_lease_duration : Z;
  leader_lease_grace : Z;
  metrics_prefix : string;
  hooks_rrl_global : option RequestsRateLimitParams;
  hooks_rrl_trigger : option RequestsRateLimitParams;
  hooks_rrl_source : option RequestsRateLimitParams;
  tls_cert_path : option string;
  tls_key_path : option string;
  tls_secret_name : option string;
  tls_secret_namespace : option string;
  json_logs : bool }.

(** The declared defaults. *)
Definition CliConfig_default : CliConfig := {|
  webhooks_port := 8080; utility_port := 3000;
  webhooks_parallelism := 16; schedule_parallelism := 16;
  secrets_cache_time := 60;
  source_clone_folder := DEFAULT_SOURCE_CLONE_FOLDER;
  config_map_name := DEFAULT_CONFIG_MAP_NAME;
  leader_lease_name := DEFAULT_LEADER_LOCK_LEASE_NAME;
  leader_lease_duration := 30; leader_lease_grace := 5;
  metrics_prefix := DEFAULT_METRICS_PREFIX;
  hooks_rrl_global := None; hooks_rrl_trigger := None; hooks_rrl_source := None;
  tls_cert_path := None; tls_key_path := None;
  tls_secret_name := None; tls_secret_namespace := None;
  json_logs := false |}.

Definition u16_max : Z := 2 ^ 16 - 1.

Definition given {A} (o : option A) : bool := bool_decide (is_Some o).

(** The [range], [requires] and [conflicts_with_all] attributes, as what they
    accept. *)
Definition cli_accepts (c : CliConfig) : bool :=
  bool_decide (1 <= webhooks_port c <= u16_max)%Z
  && bool_decide (1 <= utility_port c <= u16_max)%Z
  && bool_decide (1 <= webhooks_parallelism c < 256)%Z
  && bool_decide (1 <= schedule_parallelism c < 256)%Z
  && bool_decide (1 <= secrets_cache_time c <= u64_max)%Z
  && bool_decide (1 <= leader_lease_duration c < 301)%Z
  && bool_decide (1 <= leader_lease_grace c < 301)%Z
  && Bool.eqb (given (tls_cert_path c)) (given (tls_key_path c))
  && negb ((given (tls_cert_path c) || given (tls_key_path c))
           && (given (tls_secret_name c) || given (tls_secret_namespace c)))
  && implb (given (tls_secret_namespace c)) (given (tls_secret_name c)).

(** [Cli::rrl_parser] *)
Definition rrl_parser (s : string) : outcome (result string RequestsRateLimitParams) :=
  match rate_limit_try_from s with
  | Ret r => Ret (map_err error_to_string r)
  | Panic => Panic
  end.

(** ** TLS *)

(** [anyhow::Error]: an error with or without the context put on it. *)
Inductive TlsError : Type :=
| TlsContext (context : string)
| TlsSecret (e : Error)
| TlsConfig_ (msg : string).

Section Tls.
Context `{Ext}.
Context {RustlsConfig : Type}.
(** [RustlsConfig::from_pem_file] and [from_pem]. *)
Context (from_pem_file : string -> string -> io unit (result string RustlsConfig)).
Context (from_pem : string -> string -> result string RustlsConfig).
Local Open Scope prog_scope.

Definition no_key (key secret_name : string) : TlsError :=
  TlsSecret (SecretDecodingError ("no `" ^^ key ^^ "` key in the secret `" ^^ secret_name ^^ "`")).

(** The part of the secret branch after the secret was read. *)
Definition tls_from_secret (secret_name : string) (secret : Secret)
    : result TlsError (option RustlsConfig) :=
  match secret with
  | None => Err (TlsSecret (SecretDecodingError
      ("no `data` part in the secret `" ^^ secret_name ^^ "`")))
  | Some secret_data =>
      match secret_data !! "tls.crt" with
      | None => Err (no_key "tls.crt" secret_name)
      | Some cert =>
          match from_utf8 cert with
          | Err _ => Err (TlsContext "TLS cert is not a valid UTF-8 string")
          | Ok cert =>
              match secret_data !! "tls.key" with
              | None => Err (no_key "tls.key" secret_name)
              | Some key =>
                  match from_utf8 key with
                  | Err _ => Err (TlsContext "TLS key is not a valid UTF-8 string")
                  | Ok key =>
                      match from_pem cert key with
                      | Ok config => Ok (Some config)
                      | Err e => Err (TlsConfig_ e)
                      end
                  end
              end
          end
      end
  end.

(** [build_tls_config]; [default_ns] is the client's default namespace. *)
Definition build_tls_config (self : CliConfig) (default_ns : string)
    : io unit (result TlsError (option RustlsConfig)) :=
  match tls_cert_path self, tls_key_path self, tls_secret_name self with
  | Some cert, Some key, _ =>
      config <-- from_pem_file cert key ;;
      match (config : result string RustlsConfig) with
      | Ok config => ret (Ok (Some config))
      | Err _ => ret (Err (TlsContext
          ("Unable to apply TLS config with cert=" ^^ cert ^^ " and key=" ^^ key)))
      end
  | _, _, Some secret_name =>
      let namespace := unwrap_or default_ns (tls_secret_namespace self) in
      secret <-- call (GetSecret namespace secret_name) ;;
      match (secret : result KubeErr Secret) with
      | Err _ => ret (Err (TlsContext ("Unable to get TLS secret " ^^ secret_name)))
      | Ok secret => ret (tls_from_secret secret_name secret)
      end
  | _, _, _ => ret (Ok None)
  end.
End Tls.

(** ** Theorems *)

Section CliFacts.
Context `{Ext}.
Context {RustlsConfig : Type}.
Context (from_pem_file : string -> string -> io unit (result string RustlsConfig)).
Context (from_pem : string -> string -> result string RustlsConfig).

Lemma tls_from_secret_some name secret r :
  tls_from_secret from_pem name secret = Ok r ->
  exists data cert key config, secret = Some data
    /\ data !! "tls.crt" = Some cert /\ data !! "tls.key" = Some key
    /\ utf8_valid cert = true /\ utf8_valid key = true
    /\ from_pem cert key = Ok config /\ r = Some config.
Proof.
  unfold tls_from_secret, from_utf8. destruct secret as [data|]; [|done].
  destruct (data !! "tls.crt") as [cert|] eqn:Hc; [|done].
  destruct (utf8_valid cert) eqn:Huc; [|done].
  destruct (data !! "tls.key") as [key|] eqn:Hk; [|done].
  destruct (utf8_valid key) eqn:Huk; [|done].
  destruct (from_pem cert key) as [config|] eqn:Hp; [|done]. intros [= <-].
  by exists data, cert, key, config.
Qed.

(** Plain HTTP is never served by mistake: with options the command
    line accepts, the webhooks server runs without TLS exactly when no TLS
    option was given.  If a certificate was named, the result is a TLS
    configuration or an error: one built from exactly the two named files,
    without reading any secret, or one built from the two entries of the
    named secret, read once from the named namespace (or the pod's). *)
Theorem tls_config_spec self ns o (u : unit) t :
  cli_accepts self = true ->
  (forall cert key, calls_in (fun e => match e with Ev c _ =>
     match c with GetSecret _ _ => False | _ => True end end) (from_pem_file cert key)) ->
  wp (build_tls_config from_pem_file from_pem self ns) o u t (fun r _ t' =>
    (r = Ret (Ok None) <-> tls_cert_path self = None /\ tls_key_path self = None
       /\ tls_secret_name self = None /\ tls_secret_namespace self = None)
    /\ exists new, t' = t ++ new /\
    match tls_secret_name self with
    | None => Forall (fun e => match e with Ev c _ =>
        match c with GetSecret _ _ => False | _ => True end end) new
    | Some name => exists a,
        new = [Ev (GetSecret (unwrap_or ns (tls_secret_namespace self)) name) a]
        /\ forall config, r = Ret (Ok (Some config)) -> exists data cert key,
             a = Ok (Some data) /\ data !! "tls.crt" = Some cert
             /\ data !! "tls.key" = Some key /\ from_pem cert key = Ok config
    end).
Proof.
  intros Hacc Hfiles. unfold cli_accepts, given in Hacc. unfold build_tls_config.
  destruct (tls_cert_path self) as [cert|], (tls_key_path self) as [key|],
    (tls_secret_name self) as [name|]; simpl in Hacc; rewrite ?andb_false_r in Hacc; try done.
  - wp_step. eapply wp_mono; [apply Hfiles|]. intros [[config|e]|] s' t' (new & -> & Hnew);
      [wp_step..|]; (split; [split; [done|by intros (? & _)]|]); by exists new.
  - do 2 wp_step. destruct r as [secret|e]; wp_step;
      (split; [split; [|by intros (_ & _ & ? & _)]|
               eexists; split; [done|]; eexists; split; [done|]; intros config]); [| |done|done].
    + intros [= (? & ? & ? & ? & _ & _ & _ & _ & _ & _ & ?)%tls_from_secret_some]. done.
    + intros [= (data & cert & key & config' & -> & Hc & Hk & _ & _ & Hp & [= ->])%tls_from_secret_some].
      by exists data, cert, key.
  - destruct (tls_secret_namespace self); simpl in Hacc; rewrite ?andb_false_r in Hacc; [done|].
    wp_step. split; [done|]. exists []. by rewrite app_nil_r.
Qed.

End CliFacts.

Section CacheTime.
Context `{Ext}.

(** A cache time that the command line accepts and no clock can hold:
    from 2^63 seconds on, the deadline of a cached secret cannot be
    represented, so every secret the API answers with panics in the request
    or task that needs it, and no secret is ever delivered. *)
Theorem huge_secrets_cache_time_panics self ns name key (o : services) (t : trace) :
  cli_accepts self = true -> (i64_max < secrets_cache_time self)%Z ->
  (forall t, 0 <= o t SystemNow)%Z ->
  wp (init_cache (from_secs (secrets_cache_time self)) ;;; secrets_get ns name key)%prog o None t
    (fun r _ t' => exists a, Ev (GetSecret ns name) a ∈ t' /\
       match secret_answer name key a with
       | Err e => r = Ret (Err e)
       | Ok _ => r = Panic
       end).
Proof.
  intros _ Htime Hclock. unfold init_cache, secrets_get. wp_run. simpl.
  unfold get_key_value, lookup_cached. do 3 wp_step. simpl. rewrite lookup_empty. wp_step.
  unfold fetch_and_store. wp_step. apply wp_query_secrets_api. intros a Ha.
  destruct (secret_answer name key a) as [[data v]|e] eqn:Hans; cycle 1.
  { exists a. rewrite Hans. split; [set_solver|done]. }
  do 6 wp_step. simpl. rewrite checked_add_None.
  - exists a. rewrite Hans. split; [set_solver|done].
  - specialize (Hclock (t ++ [Ev (GetSecret ns name) a])). rewrite <- H0 in Hclock.
    unfold from_secs, nanos_per_sec in *. lia.
Qed.
End CacheTime.

(** ** Examples *)

#[local] Existing Instance example_ext.

Definition tls_files : CliConfig := {|
  webhooks_port := 8080; utility_port := 3000;
  webhooks_parallelism := 16; schedule_parallelism := 16;
  secrets_cache_time := 2 ^ 63;
  source_clone_folder := DEFAULT_SOURCE_CLONE_FOLDER;
  config_map_name := DEFAULT_CONFIG_MAP_NAME;
  leader_lease_name := DEFAULT_LEADER_LOCK_LEASE_NAME;
  leader_lease_duration := 30; leader_lease_grace := 5;
  metrics_prefix := DEFAULT_METRICS_PREFIX;
  hooks_rrl_global := None; hooks_rrl_trigger := None; hooks_rrl_source := None;
  tls_cert_path := Some "/tls/end.crt"; tls_key_path := Some "/tls/server.key";
  tls_secret_name := None; tls_secret_namespace := None;
  json_logs := false |}.

(** The defaults are accepted. *)
Example default_accepted : cli_accepts CliConfig_default = true.
Proof. reflexivity. Qed.

Lemma tls_config_spec_witness :
  let read_files cert key : io unit (result string (string * string)) := ret (Ok (cert, key)) in
  cli_accepts tls_files = true /\
  wp (build_tls_config read_files (fun cert key => Ok (cert, key)) tls_files "ci")
    (quiet_services 0%Z RuntimeConfig_default) tt [] (fun r _ _ => r <> Ret (Ok None)).
Proof.
  intros read_files. split; [reflexivity|].
  eapply wp_mono; [apply (tls_config_spec read_files (fun cert key => Ok (cert, key)) tls_files "ci");
    [reflexivity|intros cert key; apply calls_in_ret]|].
  intros r s t [Hr _]. rewrite Hr. by intros (? & _).
Defined.

Lemma huge_secrets_cache_time_panics_witness :
  cli_accepts tls_files = true /\
  wp (init_cache (from_secs (secrets_cache_time tls_files)) ;;; secrets_get "ci" "hook" "token")%prog
    (quiet_services 0%Z RuntimeConfig_default) None [] (fun r _ t' =>
      exists a, Ev (GetSecret "ci" "hook") a ∈ t').
Proof.
  split; [reflexivity|].
  eapply wp_mono; [apply (huge_secrets_cache_time_panics tls_files "ci" "hook" "token");
    [reflexivity|reflexivity|intros t; simpl; lia]|].
  intros r s t (a & Ha & _). by exists a.
Defined.
