(* ===== verification/Metrics.v ===== *)
(** * Metrics (src/src/jobs.rs, src/src/resources/trigger.rs, src/src/controller.rs, src/src/web.rs)

    The thirteen metrics of the four [Metrics] structs: what they are created
    with, the lazily initialised statics that create and register them, and
    the typing of the calls on them.  The prometheus crate is a parameter: it
    decides which descriptions make a metric and what its registry takes. *)

From stdpp Require Import base option sets strings list.
From Stdlib Require Import Ascii ZArith Lia.
From S2P Require Import Prelude Strs Time Errors Config Ext Resources World Cli.
Local Open Scope string_scope.
Local Open Scope list_scope.

(** ** Descriptions *)

Inductive MetricKind : Type := IntGauge | Histogram | IntCounterVec | HistogramVec.

(** The arguments of a constructor; the bounds of the buckets in thousandths
    of a second. *)
Record MetricDesc := {
  md_kind : MetricKind;
  md_name : string;
  md_help : string;
  md_labels : list string;
  md_buckets : list Z }.

#[export] Instance MetricKind_eq_dec : EqDecision MetricKind.
Proof. solve_decision. Defined.

#[export] Instance MetricDesc_eq_dec : EqDecision MetricDesc.
Proof. solve_decision. Defined.

Definition job_label_names : list string :=
  ["namespace"; "trigger_kind"; "trigger_name"; "source_kind"; "source_name"; "action_kind";
   "action_name"; "status"].
Definition check_label_names : list string := ["namespace"; "trigger_kind"; "trigger_name"].
Definition reconcile_label_names : list string := ["namespace"; "resource_kind"; "resource_name"].
Definition request_label_names : list string := ["namespace"; "trigger_name"; "status"].

(** One definition per field of the four structs. *)
Definition current_limit (prefix : string) : MetricDesc := {|
  md_kind := IntGauge; md_name := prefix ^^ "_jobs_queue_limit";
  md_help := "The limit of simultaneously running jobs"; md_labels := []; md_buckets := [] |}.

Definition running_jobs_gauge (prefix : string) : MetricDesc := {|
  md_kind := IntGauge; md_name := prefix ^^ "_jobs_queue_running";
  md_help := "The current number of waiting in the queue jobs"; md_labels := [];
  md_buckets := [] |}.

Definition waiting_jobs (prefix : string) : MetricDesc := {|
  md_kind := IntGauge; md_name := prefix ^^ "_jobs_queue_waiting";
  md_help := "The current number of runnings jobs"; md_labels := []; md_buckets := [] |}.

Definition waiting_duration (prefix : string) : MetricDesc := {|
  md_kind := Histogram; md_name := prefix ^^ "_jobs_queue_waiting_duration_seconds";
  md_help := "The jobs queue waiting time in seconds"; md_labels := [];
  md_buckets := [100; 500; 1000; 2000; 5000; 10000; 20000; 60000]%Z |}.

Definition completed_count (prefix : string) : MetricDesc := {|
  md_kind := IntCounterVec; md_name := prefix ^^ "_jobs_queue_completed_count";
  md_help := "The number completed jobs"; md_labels := job_label_names; md_buckets := [] |}.

Definition completed_duration (prefix : string) : MetricDesc := {|
  md_kind := HistogramVec; md_name := prefix ^^ "_jobs_queue_completed_duration_seconds";
  md_help := "The jobs execution time in seconds"; md_labels := job_label_names;
  md_buckets := [1000; 5000; 10000; 30000; 60000; 120000; 300000]%Z |}.

Definition trigger_check_count (prefix : string) : MetricDesc := {|
  md_kind := IntCounterVec; md_name := prefix ^^ "_trigger_check_count";
  md_help := "The number trigger checks for changes"; md_labels := check_label_names;
  md_buckets := [] |}.

Definition trigger_check_duration (prefix : string) : MetricDesc := {|
  md_kind := HistogramVec; md_name := prefix ^^ "_trigger_check_duration_seconds";
  md_help := "The duration of trigger checks for changes"; md_labels := check_label_names;
  md_buckets := [100; 1000; 2000; 5000; 10000; 30000; 60000]%Z |}.

Definition reconcile_count (prefix : string) : MetricDesc := {|
  md_kind := IntCounterVec; md_name := prefix ^^ "_reconcile_count";
  md_help := "The number reconciliations"; md_labels := reconcile_label_names;
  md_buckets := [] |}.

Definition failed_count (prefix : string) : MetricDesc := {|
  md_kind := IntCounterVec; md_name := prefix ^^ "_failed_reconcile_count";
  md_help := "The number failed reconciliations"; md_labels := reconcile_label_names;
  md_buckets := [] |}.

Definition reconcile_duration (prefix : string) : MetricDesc := {|
  md_kind := HistogramVec; md_name := prefix ^^ "_reconcile_duration_seconds";
  md_help := "The duration of reconciliations"; md_labels := reconcile_label_names;
  md_buckets := [1; 10; 100; 500; 1000; 2000]%Z |}.

Definition webhook_duration (prefix : string) : MetricDesc := {|
  md_kind := HistogramVec; md_name := prefix ^^ "_webhook_requests_duration_seconds";
  md_help := "The time of webhook request scheduling in seconds";
  md_labels := request_label_names; md_buckets := [1; 10; 100; 500; 1000]%Z |}.

Definition webhook_count (prefix : string) : MetricDesc := {|
  md_kind := IntCounterVec; md_name := prefix ^^ "_webhook_requests_count";
  md_help := "The number of webhook requests"; md_labels := request_label_names;
  md_buckets := [] |}.

Definition metric_desc (prefix : string) (m : Metric) : MetricDesc :=
  match m with
  | JobsQueueLimit => current_limit prefix
  | JobsQueueRunning => running_jobs_gauge prefix
  | JobsQueueWaiting => waiting_jobs prefix
  | JobsQueueWaitingDuration => waiting_duration prefix
  | JobsQueueCompletedCount => completed_count prefix
  | JobsQueueCompletedDuration => completed_duration prefix
  | TriggerCheckCount => trigger_check_count prefix
  | TriggerCheckDuration => trigger_check_duration prefix
  | ReconcileCount => reconcile_count prefix
  | FailedReconcileCount => failed_count prefix
  | ReconcileDuration => reconcile_duration prefix
  | WebhookRequestsDuration => webhook_duration prefix
  | WebhookRequestsCount => webhook_count prefix
  end.

(** The [METRICS] statics. *)
Inductive metrics_owner : Type := JobsMetrics | TriggerMetrics | ControllerMetrics | WebMetrics.

#[export] Instance metrics_owner_eq_dec : EqDecision metrics_owner.
Proof. solve_decision. Defined.

(** In the order of [Metrics::default] and in the order of [register]. *)
Definition jobs_constructed : list Metric :=
  [JobsQueueLimit; JobsQueueRunning; JobsQueueWaiting;
   JobsQueueWaitingDuration; JobsQueueCompletedCount; JobsQueueCompletedDuration].
Definition jobs_registered : list Metric :=
  [JobsQueueLimit; JobsQueueRunning; JobsQueueWaiting;
   JobsQueueWaitingDuration; JobsQueueCompletedCount; JobsQueueCompletedDuration].

Definition trigger_constructed : list Metric :=
  [TriggerCheckCount; TriggerCheckDuration].
Definition trigger_registered : list Metric :=
  [TriggerCheckCount; TriggerCheckDuration].

Definition controller_constructed : list Metric :=
  [ReconcileCount; FailedReconcileCount; ReconcileDuration].
Definition controller_registered : list Metric :=
  [ReconcileCount; ReconcileDuration; FailedReconcileCount].

Definition web_constructed : list Metric :=
  [WebhookRequestsDuration; WebhookRequestsCount].
Definition web_registered : list Metric :=
  [WebhookRequestsDuration; WebhookRequestsCount].

Definition constructed (m : metrics_owner) : list Metric :=
  match m with
  | JobsMetrics => jobs_constructed
  | TriggerMetrics => trigger_constructed
  | ControllerMetrics => controller_constructed
  | WebMetrics => web_constructed
  end.

Definition registered_metrics (m : metrics_owner) : list Metric :=
  match m with
  | JobsMetrics => jobs_registered
  | TriggerMetrics => trigger_registered
  | ControllerMetrics => controller_registered
  | WebMetrics => web_registered
  end.

(** ** Initialisation *)

(** A [LazyLock]: its initialiser runs at the first use; when it panics, every
    later use panics too. *)
Inductive lazy_cell : Type := Uninit | Ready | Poisoned.

(** The cell of the command line, prometheus' default registry and the four
    statics. *)
Record MetricsState := {
  mx_cli : option CliConfig;
  mx_registry : list MetricDesc;
  mx_cells : metrics_owner -> lazy_cell }.

Definition set_lazy (m : metrics_owner) (c : lazy_cell) (s : MetricsState) : MetricsState := {|
  mx_cli := mx_cli s; mx_registry := mx_registry s;
  mx_cells := fun m' => if decide (m' = m) then c else mx_cells s m' |}.

Definition add_registered (d : MetricDesc) (s : MetricsState) : MetricsState := {|
  mx_cli := mx_cli s; mx_registry := mx_registry s ++ [d]; mx_cells := mx_cells s |}.

(** What prometheus accepts: as the arguments of a constructor, and as a new
    collector of a registry. *)
Class Prometheus : Type := {
  metric_new : MetricDesc -> bool;
  registry_takes : list MetricDesc -> MetricDesc -> bool }.

Section init.
Context `{Ext} `{!Prometheus}.
Local Open Scope prog_scope.

(** [CliConfig::get]: the cell is set before anything runs, or never. *)
Definition CliConfig_get : io MetricsState CliConfig :=
  s <-- get ;; unwrap (mx_cli s).

Definition new_metric (d : MetricDesc) : io MetricsState unit :=
  if metric_new d then ret tt else panic.

Definition register (d : MetricDesc) : io MetricsState unit :=
  s <-- get ;;
  if registry_takes (mx_registry s) d then put (add_registered d s) else panic.

(** [Metrics::default().register()] *)
Definition Metrics_init (m : metrics_owner) : io MetricsState unit :=
  cli_config <-- CliConfig_get ;;
  let prefix := metrics_prefix cli_config in
  for_each (fun x => new_metric (metric_desc prefix x)) (constructed m) ;;;
  for_each (fun x => register (metric_desc prefix x)) (registered_metrics m).

(** A use of a static. *)
Definition force_metrics (m : metrics_owner) : io MetricsState unit :=
  fun o s t =>
    match mx_cells s m with
    | Ready => (Ret tt, s, t)
    | Poisoned => (Panic, s, t)
    | Uninit =>
        match Metrics_init m o s t with
        | (Ret _, s', t') => (Ret tt, set_lazy m Ready s', t')
        | (Panic, s', t') => (Panic, set_lazy m Poisoned s', t')
        end
    end.
End init.

(** ** Calls *)

Definition metric_kind (m : Metric) : MetricKind := md_kind (metric_desc "" m).
Definition label_names (m : Metric) : list string := md_labels (metric_desc "" m).

Definition is_vec (k : MetricKind) : bool :=
  match k with IntCounterVec | HistogramVec => true | _ => false end.

Definition is_histogram (k : MetricKind) : bool :=
  match k with Histogram | HistogramVec => true | _ => false end.

(** A call on a metric uses it as what it is, with one value per label. *)
Definition well_typed_call `{Ext} (c : Call) : Prop :=
  match c with
  | GaugeSet m _ => metric_kind m = IntGauge
  | MetricWithLabels m labels =>
      is_vec (metric_kind m) = true /\ length labels = length (label_names m)
  | CounterInc m labels =>
      metric_kind m = IntCounterVec /\ length labels = length (label_names m)
  | HistogramObserve m labels _ =>
      is_histogram (metric_kind m) = true /\ length labels = length (label_names m)
  | _ => True
  end.

Definition well_typed `{Ext} (e : event resp) : Prop :=
  match e with Ev c _ => well_typed_call c end.

(** ** Names *)

(** The names prometheus documents: [[a-zA-Z_:][a-zA-Z0-9_:]*] for metrics,
    without the colon for labels. *)
Definition name_start (c : ascii) : bool :=
  in_range 97 122 c || in_range 65 90 c || Ascii.eqb c "_" || Ascii.eqb c ":".
Definition name_char (c : ascii) : bool := name_start c || in_range 48 57 c.

Definition valid_metric_name (s : string) : bool :=
  match s with
  | EmptyString => false
  | String c s => name_start c && forall_chars name_char s
  end.

Definition valid_label_name (s : string) : bool :=
  valid_metric_name s && negb (occurs ":" s).

Fixpoint increasing (l : list Z) : bool :=
  match l with
  | [] => true
  | x :: l => match l with y :: _ => bool_decide (x < y)%Z | [] => true end && increasing l
  end.

(** Prefixes that make valid names. *)
Definition prefix_ok (p : string) : bool :=
  match p with EmptyString => true | _ => valid_metric_name p end.

(** The rest of a description. *)
Definition sound_desc (d : MetricDesc) : bool :=
  negb (String.eqb (md_help d) "") && forallb valid_label_name (md_labels d)
  && bool_decide (NoDup (md_labels d)) && increasing (md_buckets d).

(** prometheus' documented checks: a metric is created exactly from a valid
    name, a help text, distinct valid labels and increasing buckets; a
    registry takes a collector of a new name and refuses one it has. *)
Class PrometheusLaws `{!Prometheus} : Prop := {
  metric_new_spec d : metric_new d = valid_metric_name (md_name d) && sound_desc d;
  registry_takes_new ds d :
    Forall (fun d' => md_name d' <> md_name d) ds -> registry_takes ds d = true;
  registry_refuses ds d : d ∈ ds -> registry_takes ds d = false }.

Lemma valid_name_append p suffix :
  match suffix with String "_" _ => true | _ => false end = true ->
  forall_chars name_char suffix = true ->
  valid_metric_name (p ^^ suffix) = prefix_ok p.
Proof.
  intros Hstart Hsuffix. destruct p as [|c p]; simpl.
  - destruct suffix as [|c suffix]; [done|]. simpl in *.
    apply andb_true_iff in Hsuffix as [_ ->]. rewrite andb_true_r.
    by destruct c as [[] [] [] [] [] [] [] []].
  - by rewrite forall_chars_app, Hsuffix, andb_true_r.
Qed.

Lemma append_inj_left (p a b : string) : p ^^ a = p ^^ b -> a = b.
Proof. induction p as [|c p IH]; simpl; [done|]. intros [= ?]. auto. Qed.

(** A metric's name is valid exactly with a valid prefix; nothing else of its
    description can be refused. *)
Lemma metric_desc_valid p m :
  valid_metric_name (md_name (metric_desc p m)) = prefix_ok p
  /\ sound_desc (metric_desc p m) = true.
Proof. destruct m; (split; [by apply valid_name_append|by vm_compute]). Qed.

Lemma metric_names_distinct p m m' :
  md_name (metric_desc p m) = md_name (metric_desc p m') -> m = m'.
Proof. destruct m, m'; intros Heq; first [done|by apply append_inj_left in Heq]. Qed.

(** ** Theorems *)

Section registration.
Context `{Ext} `{!Prometheus} `{!PrometheusLaws}.
Context (cli : CliConfig).
Implicit Types (s : MetricsState) (o : services) (t : trace).

Local Abbreviation desc := (metric_desc (metrics_prefix cli)).

(** The start of the process, after the command line was stored. *)
Definition metrics_fresh : MetricsState := {|
  mx_cli := Some cli; mx_registry := []; mx_cells := fun _ => Uninit |}.

Definition owner (x : Metric) : metrics_owner :=
  match x with
  | JobsQueueLimit | JobsQueueRunning | JobsQueueWaiting | JobsQueueWaitingDuration
  | JobsQueueCompletedCount | JobsQueueCompletedDuration => JobsMetrics
  | TriggerCheckCount | TriggerCheckDuration => TriggerMetrics
  | ReconcileCount | ReconcileDuration | FailedReconcileCount => ControllerMetrics
  | WebhookRequestsCount | WebhookRequestsDuration => WebMetrics
  end.

Lemma registered_owner m x : x ∈ registered_metrics m <-> owner x = m.
Proof.
  split.
  - intros Hin. apply (bool_decide_pack _) in Hin. by destruct m, x.
  - intros <-. apply (bool_decide_unpack _). by destruct x.
Qed.

(** The registry holds exactly the metrics of the initialised statics, once. *)
Definition tidy s : Prop :=
  mx_cli s = Some cli
  /\ (forall m, mx_cells s m <> Poisoned)
  /\ (forall d, d ∈ mx_registry s <-> exists x, mx_cells s (owner x) = Ready /\ d = desc x)
  /\ NoDup (md_name <$> mx_registry s).

Lemma wp_new_metrics xs o s t :
  prefix_ok (metrics_prefix cli) = true ->
  wp (for_each (fun x => new_metric (desc x)) xs) o s t (fun r s' _ => r = Ret tt /\ s' = s).
Proof.
  intros Hp. induction xs as [|x xs IH] in t |- *; simpl; [by wp_step|].
  wp_step. unfold new_metric. rewrite metric_new_spec.
  destruct (metric_desc_valid (metrics_prefix cli) x) as [-> ->]. rewrite Hp. simpl.
  wp_step. apply IH.
Qed.

Lemma wp_register_all xs o s t :
  NoDup xs -> (forall x, x ∈ xs -> desc x ∉ mx_registry s) ->
  (forall d, d ∈ mx_registry s -> exists x, d = desc x) ->
  wp (for_each (fun x => register (desc x)) xs) o s t (fun r s' _ => r = Ret tt
    /\ mx_cli s' = mx_cli s /\ mx_cells s' = mx_cells s
    /\ mx_registry s' = mx_registry s ++ (desc <$> xs)).
Proof.
  intros Hxs. revert s t. induction Hxs as [|x xs Hx _ IH]; intros s t Hnew Hdescs; simpl.
  { wp_step. by rewrite app_nil_r. }
  wp_step. unfold register. wp_step. wp_step. rewrite registry_takes_new; cycle 1.
  { apply Forall_forall. intros d Hd Heq. destruct (Hdescs d Hd) as [x' ->].
    apply metric_names_distinct in Heq as ->. by apply (Hnew x); [left|]. }
  wp_step. eapply wp_mono; [apply IH|].
  - intros y Hy. simpl. rewrite elem_of_app, list_elem_of_singleton. intros [Hin|Heq].
    + by apply (Hnew y); [right|].
    + assert (y = x) as -> by (apply (metric_names_distinct (metrics_prefix cli)); by rewrite Heq).
      done.
  - intros d. simpl. rewrite elem_of_app, list_elem_of_singleton. intros [Hd| ->]; [auto|by exists x].
  - intros r s' t' (-> & -> & -> & ->). simpl. by rewrite <- app_assoc.
Qed.

(** A use of a static, with a valid prefix. *)
Lemma wp_force_metrics m o s t :
  prefix_ok (metrics_prefix cli) = true -> tidy s ->
  wp (force_metrics m) o s t (fun r s' _ => r = Ret tt /\ tidy s'
    /\ forall m', mx_cells s' m' = Ready <-> mx_cells s m' = Ready \/ m' = m).
Proof.
  intros Hp (Hcli & Hpoison & Hreg & Hnodup). unfold wp, force_metrics.
  destruct (mx_cells s m) eqn:Hcell; [| |by apply Hpoison in Hcell].
  2: { split; [done|]. split; [by repeat split; try apply Hreg|]. intros m'. split; [auto|].
       by intros [?| ->]. }
  assert (Hinit : wp (Metrics_init m) o s t (fun r s' _ => r = Ret tt
    /\ mx_cli s' = mx_cli s /\ mx_cells s' = mx_cells s
    /\ mx_registry s' = mx_registry s ++ (desc <$> registered_metrics m))).
  { unfold Metrics_init, CliConfig_get. do 3 wp_step. rewrite Hcli. wp_step. wp_step.
    eapply wp_mono; [by apply wp_new_metrics|]. intros r s' t' [-> ->].
    rewrite <- Hcli. apply wp_register_all.
    - by destruct m; apply (bool_decide_unpack _).
    - intros x Hx%registered_owner Hin. apply Hreg in Hin as (x' & Hready & Heq).
      assert (x = x') as -> by (apply (metric_names_distinct (metrics_prefix cli)); by rewrite Heq).
      congruence.
    - intros d Hd. apply Hreg in Hd as (x & _ & ->). by exists x. }
  unfold wp in Hinit. destruct (Metrics_init m o s t) as [[r s'] t'].
  destruct Hinit as (-> & Hcli' & Hcells & Hregistry). split; [done|]. split.
  - split; [simpl; congruence|]. split; [|split].
    + intros m'. simpl. rewrite Hcells. case_decide; [done|apply Hpoison].
    + intros d. simpl. rewrite Hregistry, elem_of_app, Hreg, list_elem_of_fmap.
      setoid_rewrite registered_owner. rewrite Hcells. split.
      * intros [(x & Hx & ->)|(x & -> & Hx)]; exists x; (split; [|done]);
          case_decide; congruence.
      * intros (x & Hx & ->). case_decide as Ho; [right|left]; by exists x.
    + simpl. rewrite Hregistry, fmap_app. apply NoDup_app. split; [done|]. split.
      * intros name (d & -> & Hd)%list_elem_of_fmap Hin.
        apply Hreg in Hd as (x & Hready & ->).
        rewrite <- list_fmap_compose in Hin. apply list_elem_of_fmap in Hin as (x' & Heq & Hx').
        apply metric_names_distinct in Heq as ->. apply registered_owner in Hx'. congruence.
      * rewrite <- list_fmap_compose. apply NoDup_fmap_2_strong.
        -- intros x y _ _. apply metric_names_distinct.
        -- by destruct m; apply (bool_decide_unpack _); vm_compute.
  - intros m'. simpl. rewrite Hcells. case_decide; split; tauto.
Qed.

Lemma fresh_tidy : tidy metrics_fresh.
Proof.
  split; [done|]. split; [done|]. split; [|constructor]. intros d.
  split; [intros Hd; by apply elem_of_nil in Hd|by intros (x & Hx & _)].
Qed.

(** Metrics are registered once.  With a prefix that makes valid names
    (and the empty one does), the uses of the four statics, in any order and
    number, all succeed: each static is created and registered at its first
    use, whatever the others did before, and the registry then holds exactly
    the metrics of the statics that were used, under distinct names.  So none
    of the thirteen constructors and registrations, all unwrapped, ever
    panics. *)
Theorem metrics_registered_once uses o t :
  prefix_ok (metrics_prefix cli) = true ->
  wp (for_each force_metrics uses) o metrics_fresh t (fun r s' _ => r = Ret tt
    /\ (forall d, d ∈ mx_registry s' <-> exists x, owner x ∈ uses /\ d = desc x)
    /\ NoDup (md_name <$> mx_registry s')).
Proof.
  intros Hp.
  assert (Hgen : forall s t, tidy s -> wp (for_each force_metrics uses) o s t (fun r s' _ =>
    r = Ret tt /\ tidy s'
    /\ forall m, mx_cells s' m = Ready <-> mx_cells s m = Ready \/ m ∈ uses)).
  { induction uses as [|m uses IH]; intros s t' Hs; simpl.
    { wp_step. split; [done|]. split; [done|]. intros m. split; [auto|].
      by intros [?|?%elem_of_nil]. }
    wp_step. eapply wp_mono; [by apply wp_force_metrics|].
    intros r s1 t1 (-> & Hs1 & Hcells1). eapply wp_mono; [by apply IH|].
    intros r s2 t2 (-> & Hs2 & Hcells2). split; [done|]. split; [done|].
    intros m'. rewrite Hcells2, Hcells1, elem_of_cons. tauto. }
  eapply wp_mono; [apply Hgen, fresh_tidy|].
  intros r s' t' (-> & (_ & _ & Hreg & Hnodup) & Hcells). split; [done|]. split; [|done].
  intros d. rewrite Hreg. split; intros (x & Hx & ->); exists x; (split; [|done]).
  - by apply Hcells in Hx as [?|?].
  - apply Hcells. by right.
Qed.

(** An invalid prefix is accepted by the command line and kills at first
    use.  [--metrics-prefix] takes any text; with one that makes no valid
    metric name (a dash is enough), the first use of each of the four statics
    panics, and so does every later one, for the static stays poisoned. *)
Theorem invalid_prefix_poisons m s o t :
  prefix_ok (metrics_prefix cli) = false ->
  mx_cli s = Some cli -> mx_cells s m <> Ready ->
  wp (force_metrics m) o s t (fun r s' _ => r = Panic /\ mx_cells s' m = Poisoned
    /\ forall o' t', wp (force_metrics m) o' s' t' (fun r _ _ => r = Panic)).
Proof.
  intros Hp Hcli Hready.
  assert (Hagain : forall s', mx_cells s' m = Poisoned -> forall o' t',
    wp (force_metrics m) o' s' t' (fun r _ _ => r = Panic)).
  { intros s' Hs' o' t'. unfold wp, force_metrics. by rewrite Hs'. }
  unfold wp at 1, force_metrics at 1. destruct (mx_cells s m) eqn:Hcell; [|done|auto].
  assert (Hinit : wp (Metrics_init m) o s t (fun r _ _ => r = Panic)).
  { unfold Metrics_init, CliConfig_get. do 3 wp_step. rewrite Hcli. do 2 wp_step.
    assert (Hnew : forall x xs, constructed m = x :: xs ->
      wp (for_each (fun x => new_metric (desc x)) (constructed m)) o s t (fun r _ _ => r = Panic)).
    { intros x xs ->. simpl. wp_step. unfold new_metric. rewrite metric_new_spec.
      destruct (metric_desc_valid (metrics_prefix cli) x) as [-> ->]. rewrite Hp. by wp_step. }
    eapply wp_mono; [destruct m; by eapply Hnew|]. by intros r s' t' ->. }
  unfold wp in Hinit. destruct (Metrics_init m o s t) as [[r s'] t']. subst.
  split; [done|]. assert (Hs' : mx_cells (set_lazy m Poisoned s') m = Poisoned).
  { simpl. by rewrite decide_True. }
  split; [exact Hs'|]. by apply Hagain.
Qed.
End registration.

(** ** Examples *)

(** prometheus' checks, as documented. *)
#[local] Instance example_prometheus : Prometheus := {|
  metric_new := fun d => valid_metric_name (md_name d) && sound_desc d;
  registry_takes := fun ds d => forallb (fun d' => negb (String.eqb (md_name d') (md_name d))) ds |}.

#[local] Instance example_prometheus_laws : PrometheusLaws.
Proof.
  split; [done|..].
  - intros ds d Hall. apply forallb_forall. intros d' Hin. rewrite Forall_forall in Hall.
    specialize (Hall d' ltac:(by apply list_elem_of_In)).
    destruct (String.eqb_spec (md_name d') (md_name d)); done.
  - intros ds d Hin. apply not_true_iff_false. intros Hall. simpl in Hall.
    rewrite forallb_forall in Hall. specialize (Hall d ltac:(by apply list_elem_of_In)).
    by rewrite String.eqb_refl in Hall.
Qed.

#[local] Existing Instance example_ext.

Lemma metrics_registered_once_witness :
  wp (for_each force_metrics [ControllerMetrics; JobsMetrics; ControllerMetrics])
    (quiet_services 0%Z RuntimeConfig_default) (metrics_fresh CliConfig_default) []
    (fun r s' _ => r = Ret tt
      /\ (forall d, d ∈ mx_registry s' <-> exists x,
            owner x ∈ [ControllerMetrics; JobsMetrics; ControllerMetrics]
            /\ d = metric_desc (metrics_prefix CliConfig_default) x)
      /\ NoDup (md_name <$> mx_registry s')).
Proof.
  exact (metrics_registered_once CliConfig_default [ControllerMetrics; JobsMetrics; ControllerMetrics]
    (quiet_services 0%Z RuntimeConfig_default) [] eq_refl).
Defined.

(** The name of a team with a dash. *)
Definition dashed_prefix : CliConfig := {|
  webhooks_port := 8080; utility_port := 3000;
  webhooks_parallelism := 16; schedule_parallelism := 16; secrets_cache_time := 60;
  source_clone_folder := DEFAULT_SOURCE_CLONE_FOLDER;
  config_map_name := DEFAULT_CONFIG_MAP_NAME;
  leader_lease_name := DEFAULT_LEADER_LOCK_LEASE_NAME;
  leader_lease_duration := 30; leader_lease_grace := 5;
  metrics_prefix := "git-events";
  hooks_rrl_global := None; hooks_rrl_trigger := None; hooks_rrl_source := None;
  tls_cert_path := None; tls_key_path := None; tls_secret_name := None;
  tls_secret_namespace := None; json_logs := false |}.

Lemma invalid_prefix_poisons_witness :
  cli_accepts dashed_prefix = true
  /\ wp (force_metrics ControllerMetrics) (quiet_services 0%Z RuntimeConfig_default)
      (metrics_fresh dashed_prefix) [] (fun r s' _ => r = Panic
        /\ mx_cells s' ControllerMetrics = Poisoned
        /\ forall o' t', wp (force_metrics ControllerMetrics) o' s' t' (fun r _ _ => r = Panic)).
Proof.
  split; [reflexivity|].
  exact (invalid_prefix_poisons dashed_prefix ControllerMetrics (metrics_fresh dashed_prefix)
    (quiet_services 0%Z RuntimeConfig_default) [] eq_refl eq_refl (fun H => ltac:(discriminate H))).
Defined.
