(* ===== verification/Web.v ===== *)
(** * The web front end (src/src/web.rs)

    The two webhook handlers with their authorization and their responses,
    and the metrics they count.  [HeaderMap] is a type of the http crate: its
    case-insensitive lookup is a parameter. *)

From stdpp Require Import base option gmap strings list numbers.
From Stdlib Require Import Ascii ZArith Lia.
From S2P Require Import Prelude Strs Time Errors Config Ext Resources World Jobs Cache Statics Action GitRepo Trigger.
Local Open Scope string_scope.
Local Open Scope list_scope.
Local Open Scope prog_scope.

(** ** Responses *)

Inductive WebResponseStatus : Type := StatusOkJson | StatusErrorJson.

Record WebResponseJson := {
  wr_status : WebResponseStatus;
  wr_message : string;
  wr_task_id : option string }.

Inductive WebError : Type :=
| ForbiddenMultiSource
| TriggerNotFound
| SourceNotFound
| Unauthorized
| Forbidden
| AuthorizationError
| WebKubeError (msg : string)
| WebSchedulerError (msg : string)
| UnknownError (msg : string).

#[export] Instance WebError_eq_dec : EqDecision WebError.
Proof. solve_decision. Defined.

Definition WebError_to_string (e : WebError) : string :=
  match e with
  | ForbiddenMultiSource => "multi-source hook isn't allowed"
  | TriggerNotFound => "trigger doesn't exist"
  | SourceNotFound => "source doesn't exist in the trigger"
  | Unauthorized => "authorization is required"
  | Forbidden => "forbidden"
  | AuthorizationError => "unable to complete authorization"
  | WebKubeError msg => "KubeError: " ^^ msg
  | WebSchedulerError msg => "TaskScheduler: " ^^ msg
  | UnknownError msg => "Unknown: " ^^ msg
  end.

(** [From<TaskId> for WebResponseJson] *)
Definition response_of_task (id : string) : WebResponseJson := {|
  wr_status := StatusOkJson;
  wr_message := "job has been scheduled";
  wr_task_id := Some id |}.

(** [From<String>] and [From<&str>]. *)
Definition response_of_string (value : string) : WebResponseJson := {|
  wr_status := StatusOkJson; wr_message := value; wr_task_id := None |}.

(** [IntoResponse]: the status code and the body. *)
Definition json_into_response (r : WebResponseJson) : Z * WebResponseJson := (202%Z, r).

Definition error_into_response (e : WebError) : Z * WebResponseJson :=
  let resp := {| wr_status := StatusErrorJson; wr_message := WebError_to_string e;
                 wr_task_id := None |} in
  let status :=
    match e with
    | ForbiddenMultiSource => 400
    | TriggerNotFound => 404
    | SourceNotFound => 404
    | Unauthorized => 401
    | Forbidden => 403
    | WebKubeError _ => 500
    | WebSchedulerError _ => 500
    | AuthorizationError => 500
    | UnknownError _ => 500
    end%Z in
  (status, (json_into_response resp).2).

Definition into_response (r : result WebError WebResponseJson) : Z * WebResponseJson :=
  match r with Ok r => json_into_response r | Err e => error_into_response e end.

(** [From<kube::Error>], [From<sacs::Error>] and [From<Error>]. *)
Definition web_error_of_kube (e : KubeErr) : WebError :=
  match e with
  | KApi code status_msg _ => if (code =? 404)%Z then TriggerNotFound else WebKubeError status_msg
  | KOther msg => WebKubeError msg
  end.

Definition web_error_of_scheduler (msg : string) : WebError := WebSchedulerError msg.

Definition web_error_of (e : Error) : WebError :=
  match e with
  | ResourceNotFoundError _ => TriggerNotFound
  | KubeError e =>
      match e with
      | KApi code status_msg _ => if (code =? 404)%Z then TriggerNotFound else WebKubeError status_msg
      | KOther msg => WebKubeError msg
      end
  | e => UnknownError (error_to_string e)
  end.

(** [status.as_str()] of the codes above. *)
Definition status_string (code : Z) : string :=
  match code with
  | 202 => "202" | 400 => "400" | 401 => "401" | 403 => "403" | 404 => "404" | _ => "500"
  end%Z.

Section Web.
Context `{Ext}.
Context {HeaderMap : Type} (header_get : HeaderMap -> string -> option string).

(** [WebState], without the handles of the client and the scheduler. *)
Record WebState := { ws_source_clone_folder : string }.

(** Turning the errors of a call into web errors ([?] with [From]). *)
Definition web_try {S A B} (m : io S (result Error A))
    (k : A -> io S (result WebError B)) : io S (result WebError B) :=
  r <-- m ;;
  match r with
  | Ok a => k a
  | Err e => ret (Err (web_error_of e))
  end.

Definition check_hook_authorization (request_headers : HeaderMap)
    (webhook_spec : WebhookTriggerSpec) (namespace : string)
    : io Statics (result WebError unit) :=
  match auth_config (wts_webhook webhook_spec) with
  | Some auth_config =>
      config <-- call GetConfig ;;
      let header_name :=
        unwrap_or (default_auth_header (tc_webhook (rc_trigger config)))
          (auth_header auth_config) in
      match header_get request_headers header_name with
      | Some header =>
          secret <-- on_secret_cache
            (secrets_get namespace (auth_secret_name auth_config) (auth_key auth_config)) ;;
          match (secret : result Error string) with
          | Err _ => ret (Err AuthorizationError)
          | Ok secret =>
              if String.eqb secret header then ret (Ok tt) else ret (Err Forbidden)
          end
      | None => ret (Err Unauthorized)
      end
  | None => ret (Ok tt)
  end.

(** [Metrics::count_and_measure]: the labels are unwrapped. *)
Definition web_count_and_measure {S} (namespace trigger : string) (start : Z)
    (result : result WebError WebResponseJson) : io S unit :=
  now <-- call InstantNow ;;
  let latency := Z.max 0 (now - start) in
  let status := (into_response result).1 in
  let labels := [namespace; trigger; status_string status] in
  ok <-- call (MetricWithLabels WebhookRequestsDuration labels) ;;
  (if (ok : bool) then call (HistogramObserve WebhookRequestsDuration labels latency) else panic) ;;;
  ok <-- call (MetricWithLabels WebhookRequestsCount labels) ;;
  if (ok : bool) then call (CounterInc WebhookRequestsCount labels) else panic.

(** Posting a task that runs once. *)
Definition post_task {S} (state : WebState) (trigger : WebhookTrigger)
    (task_sources_ : TriggerTaskSources) : io S (result WebError WebResponseJson) :=
  task <-- create_trigger_task trigger Once task_sources_ (ws_source_clone_folder state) ;;
  task_id <-- call (SchedulerAdd WebScheduler task) ;;
  match (task_id : result string TaskId) with
  | Ok task_id => ret (Ok (response_of_task task_id))
  | Err e => ret (Err (web_error_of_scheduler e))
  end.

(** The inner async block of [handle_post_trigger_webhook]. *)
Definition post_trigger_webhook (state : WebState) (namespace trigger_ : string)
    (headers : HeaderMap) : io Statics (result WebError WebResponseJson) :=
  web_try (on_api_cache (cache_get (K:=WebhookTrigger) trigger_ (Some namespace)))
    (fun trigger =>
      key <-- trigger_hash_key trigger ;;
      authorized <-? check_hook_authorization headers (wt_spec trigger) namespace ;;
      if multi_source (wts_webhook (wt_spec trigger)) then
        post_task state trigger All
      else ret (Err ForbiddenMultiSource)).

Definition handle_post_trigger_webhook (state : WebState) (namespace trigger_ : string)
    (headers : HeaderMap) : io Statics (result WebError WebResponseJson) :=
  start <-- call InstantNow ;;
  result <-- post_trigger_webhook state namespace trigger_ headers ;;
  web_count_and_measure namespace trigger_ start result ;;;
  ret result.

(** The inner async block of [handle_post_source_webhook]. *)
Definition post_source_webhook (state : WebState) (namespace trigger_ source : string)
    (headers : HeaderMap) : io Statics (result WebError WebResponseJson) :=
  web_try (on_api_cache (cache_get (K:=WebhookTrigger) trigger_ (Some namespace)))
    (fun trigger =>
      key <-- trigger_hash_key trigger ;;
      authorized <-? check_hook_authorization headers (wt_spec trigger) namespace ;;
      if bool_decide (source ∈ names (wts_sources (wt_spec trigger))) then
        post_task state trigger (Single source)
      else ret (Err SourceNotFound)).

Definition handle_post_source_webhook (state : WebState) (namespace trigger_ source : string)
    (headers : HeaderMap) : io Statics (result WebError WebResponseJson) :=
  start <-- call InstantNow ;;
  result <-- post_source_webhook state namespace trigger_ source headers ;;
  web_count_and_measure namespace trigger_ start result ;;;
  ret result.
End Web.

(** ** Theorems *)

Section WebFacts.
Context `{Ext}.
Context {HeaderMap : Type} (header_get : HeaderMap -> string -> option string).
Implicit Types (o : services) (t : trace) (s : Statics).

(** The tasks posted in a trace. *)
Definition posted (e : event resp) : option Task :=
  match e with
  | Ev c _ => match c with SchedulerAdd WebScheduler task => Some task | _ => None end
  end.

Definition not_posted (e : event resp) : Prop := posted e = None.

Lemma secrets_get_not_posted ns name key :
  calls_in not_posted (on_secret_cache (secrets_get ns name key)).
Proof.
  apply calls_in_zoom. unfold secrets_get. calls_step; [calls_run|].
  case_match; [|by calls_run]. apply calls_in_zoom.
  unfold get_key_value, lookup_cached, query_secrets_api. by calls_run.
Qed.

(** The outcome of the authorization of a request, given what the run of
    [secrets_get] answered. *)
Definition header_for (auth : TriggerWebhookAuthConfig) (config : RuntimeConfig)
    (headers : HeaderMap) : option string :=
  header_get headers (unwrap_or (default_auth_header (tc_webhook (rc_trigger config)))
    (auth_header auth)).

Definition auth_outcome (header : string) (answer : outcome (result Error string))
    : outcome (result WebError unit) :=
  match answer with
  | Panic => Panic
  | Ret (Err _) => Ret (Err AuthorizationError)
  | Ret (Ok secret) => if String.eqb secret header then Ret (Ok tt) else Ret (Err Forbidden)
  end.

Definition authorization (auth : option TriggerWebhookAuthConfig) headers namespace o s t
    (r : outcome (result WebError unit)) s' new : Prop :=
  match auth with
  | None => r = Ret (Ok tt) /\ s' = s /\ new = []
  | Some auth => exists config,
      match header_for auth config headers with
      | None => r = Ret (Err Unauthorized) /\ s' = s /\ new = [Ev GetConfig config]
      | Some header => exists answer rest,
          on_secret_cache (secrets_get namespace (auth_secret_name auth) (auth_key auth)) o s
            (t ++ [Ev GetConfig config]) = (answer, s', (t ++ [Ev GetConfig config]) ++ rest)
          /\ r = auth_outcome header answer /\ new = Ev GetConfig config :: rest
      end
  end.

Lemma wp_check_hook_authorization headers spec namespace o s t Q :
  (forall r s' new, Forall not_posted new -> api_cache s' = api_cache s ->
     jobs_queue s' = jobs_queue s ->
     authorization (auth_config (wts_webhook spec)) headers namespace o s t r s' new ->
     Q r s' (t ++ new)) ->
  wp (check_hook_authorization header_get headers spec namespace) o s t Q.
Proof.
  intros HQ. unfold check_hook_authorization, authorization in *.
  destruct (auth_config (wts_webhook spec)) as [auth|]; cycle 1.
  { wp_step. rewrite <- (app_nil_r t). by apply HQ. }
  do 2 wp_step. rename r into config. fold (header_for auth config headers).
  destruct (header_for auth config headers) as [header|] eqn:Hh; cycle 1.
  { wp_step. apply HQ; [by repeat constructor|done|done|]. exists config. by rewrite Hh. }
  wp_step.
  pose proof (secrets_get_not_posted namespace (auth_secret_name auth) (auth_key auth) o s
    (t ++ [Ev GetConfig config])) as Hcalls.
  unfold wp at 1 in Hcalls. unfold wp at 1.
  destruct (on_secret_cache _ o s (t ++ [Ev GetConfig config])) as [[answer s'] t'] eqn:Hrun.
  destruct Hcalls as (rest & -> & Hrest).
  assert (Hparts : api_cache s' = api_cache s /\ jobs_queue s' = jobs_queue s).
  { unfold on_secret_cache, zoom in Hrun.
    destruct (secrets_get _ _ _ _ _ _) as [[x y] z]. by injection Hrun as _ <- _. }
  assert (Hgo : Q (auth_outcome header answer) s' (t ++ Ev GetConfig config :: rest)).
  { apply HQ; [by constructor|apply Hparts|apply Hparts|].
    exists config. rewrite Hh. exists answer, rest. done. }
  rewrite <- app_assoc.
  destruct answer as [[secret|e]|]; [|by wp_step|done].
  simpl in Hgo. destruct (String.eqb secret header); by wp_step.
Qed.

(** The webhook handlers share their shape: find the trigger, authorize the
    request, and post a task if the trigger allows it. *)
Definition guarded_post (state_ : WebState) (namespace trigger_ : string) (headers : HeaderMap)
    (allowed : WebhookTrigger -> bool) (refusal : WebError) (ts : TriggerTaskSources)
    : io Statics (result WebError WebResponseJson) :=
  web_try (on_api_cache (cache_get (K:=WebhookTrigger) trigger_ (Some namespace)))
    (fun trigger =>
      key <-- trigger_hash_key trigger ;;
      authorized <-? check_hook_authorization header_get headers (wt_spec trigger) namespace ;;
      if allowed trigger then post_task state_ trigger ts else ret (Err refusal))%prog.

(** What such a request leads to. *)
Definition request_outcome (state_ : WebState) (namespace trigger_ : string) (headers : HeaderMap)
    (allowed : WebhookTrigger -> bool) (refusal : WebError) (ts : TriggerTaskSources) o s t
    (r : outcome (result WebError WebResponseJson)) (new : trace) : Prop :=
  exists found rest, new = Ev (StoreWebhookTrigger namespace trigger_) found :: rest /\
  match found with
  | None => r = Ret (Err TriggerNotFound) /\ rest = []
  | Some trigger =>
      match wt_namespace trigger with
      | None => r = Panic /\ rest = []
      | Some ns => exists auth s' checked rest',
          authorization (auth_config (wts_webhook (wt_spec trigger))) headers namespace o s
            (t ++ [Ev (StoreWebhookTrigger namespace trigger_) found]) auth s' checked
          /\ Forall not_posted checked /\ rest = checked ++ rest'
          /\ match auth with
             | Panic => r = Panic /\ rest' = []
             | Ret (Err e) => r = Ret (Err e) /\ rest' = []
             | Ret (Ok _) =>
                 if allowed trigger then exists a,
                   rest' = [Ev (SchedulerAdd WebScheduler {|
                     task_schedule := Once; task_trigger_kind := "WebhookTrigger";
                     task_trigger_ns := ns; task_trigger_name := wt_name trigger;
                     task_sources := ts;
                     task_source_clone_folder := ws_source_clone_folder state_ |}) a]
                   /\ r = match a with
                          | Ok id => Ret (Ok (response_of_task id))
                          | Err e => Ret (Err (WebSchedulerError e))
                          end
                 else r = Ret (Err refusal) /\ rest' = []
             end
      end
  end.

Lemma wp_guarded_post state_ namespace trigger_ headers allowed refusal ts o s t Q :
  webhook_trigger (api_cache s) = true ->
  (forall r s' new, api_cache s' = api_cache s -> jobs_queue s' = jobs_queue s ->
     request_outcome state_ namespace trigger_ headers allowed refusal ts o s t r new ->
     Q r s' (t ++ new)) ->
  wp (guarded_post state_ namespace trigger_ headers allowed refusal ts) o s t Q.
Proof.
  intros Hcell HQ. unfold guarded_post, web_try. wp_step.
  apply (wp_get_cached (K:=WebhookTrigger)); [done|]. simpl. intros found Hf.
  destruct found as [trigger|]; cycle 1.
  { wp_step. apply HQ; [done|done|]. by eexists None, []. }
  wp_step. unfold trigger_hash_key. simpl trigger_namespace. do 2 wp_step.
  destruct (wt_namespace trigger) as [ns|] eqn:Hns; cycle 1.
  { apply HQ; [done|done|]. exists (Some trigger), []. by rewrite Hns. }
  do 2 wp_step. apply wp_check_hook_authorization.
  intros auth s' checked Hchecked Hapi Hjobs Hauth. rewrite <- app_assoc.
  assert (Hgo : forall r rest',
    match auth with
    | Panic => r = Panic /\ rest' = []
    | Ret (Err e) => r = Ret (Err e) /\ rest' = []
    | Ret (Ok _) =>
        if allowed trigger then exists a,
          rest' = [Ev (SchedulerAdd WebScheduler {|
            task_schedule := Once; task_trigger_kind := "WebhookTrigger";
            task_trigger_ns := ns; task_trigger_name := wt_name trigger;
            task_sources := ts;
            task_source_clone_folder := ws_source_clone_folder state_ |}) a]
          /\ r = match a with
                 | Ok id => Ret (Ok (response_of_task id))
                 | Err e => Ret (Err (WebSchedulerError e))
                 end
        else r = Ret (Err refusal) /\ rest' = []
    end ->
    Q r s' (t ++ [Ev (StoreWebhookTrigger namespace trigger_) (Some trigger)] ++ checked ++ rest')).
  { intros r rest' Hr. apply HQ; [done|done|]. exists (Some trigger), (checked ++ rest').
    split; [done|]. rewrite Hns. by exists auth, s', checked, rest'. }
  destruct auth as [[[]|e]|].
  - destruct (allowed trigger) eqn:Hallowed.
    + unfold post_task, create_trigger_task. wp_step. wp_step. simpl trigger_namespace.
      wp_step. rewrite Hns. do 3 wp_step. rewrite <- !app_assoc.
      destruct r as [id|e]; wp_step; apply Hgo; by eexists.
    + wp_step. rewrite <- (app_nil_r checked). by apply Hgo.
  - rewrite <- (app_nil_r checked). by apply Hgo.
  - rewrite <- (app_nil_r checked). by apply Hgo.
Qed.

(** A handler around such a request: the clock, the request, the metrics. *)
Definition measured (m : io Statics (result WebError WebResponseJson)) namespace trigger_
    : io Statics (result WebError WebResponseJson) :=
  (start <-- call InstantNow ;;
   result <-- m ;;
   web_count_and_measure namespace trigger_ start result ;;;
   ret result)%prog.

(** The metrics of a response: its latency and its count, under the labels of
    the trigger and its status code. *)
Definition counted namespace trigger_ start (res : result WebError WebResponseJson)
    (metrics : trace) : Prop :=
  let labels := [namespace; trigger_; status_string (into_response res).1] in
  exists now, metrics =
    [Ev InstantNow now;
     Ev (MetricWithLabels WebhookRequestsDuration labels) true;
     Ev (HistogramObserve WebhookRequestsDuration labels (Z.max 0 (now - start))) tt;
     Ev (MetricWithLabels WebhookRequestsCount labels) true;
     Ev (CounterInc WebhookRequestsCount labels) tt].

Lemma counted_not_posted namespace trigger_ start res metrics :
  counted namespace trigger_ start res metrics -> omap posted metrics = [].
Proof. by intros [now ->]. Qed.

Lemma wp_measured m namespace trigger_ o s t Q :
  (forall start, wp m o s (t ++ [Ev InstantNow start]) (fun r s' t' =>
     match r with
     | Panic => Q Panic s' t'
     | Ret res =>
         (forall metrics, counted namespace trigger_ start res metrics ->
            Q (Ret res) s' (t' ++ metrics))
         /\ (forall metrics, omap posted metrics = [] -> Q Panic s' (t' ++ metrics))
     end)) ->
  wp (measured m namespace trigger_) o s t Q.
Proof.
  intros HQ. unfold measured. do 3 wp_step. eapply wp_mono; [apply HQ|].
  intros [res|] s' t' Hr; [|done]. destruct Hr as [Hok Hpanic]. wp_step.
  unfold web_count_and_measure. wp_step. wp_step. rename r0 into now. do 2 wp_step.
  rewrite <- app_assoc. wp_step. destruct r0; [|by wp_step; apply Hpanic].
  wp_step. rewrite <- !app_assoc. destruct r0. do 2 wp_step. rewrite <- !app_assoc.
  destruct r0; [|by wp_step; apply Hpanic].
  do 2 wp_step. rewrite <- !app_assoc. destruct r0. apply Hok. by exists now.
Qed.

(** The request carries what its trigger asks for.  Without [auth_config]
    nothing is asked.  Otherwise the configuration is read, and the header it
    has then, or the trigger's own, carries exactly the value that the secrets
    cache answers for the trigger's secret and key in the namespace of the
    request.  [checked] are the calls of that check from the state [s] after
    [t], and [s'] is the state after it. *)
Definition granted (auth : option TriggerWebhookAuthConfig) headers namespace o s t s'
    (checked : trace) : Prop :=
  match auth with
  | None => s' = s /\ checked = []
  | Some auth => exists config value rest,
      checked = Ev GetConfig config :: rest
      /\ header_for auth config headers = Some value
      /\ on_secret_cache (secrets_get namespace (auth_secret_name auth) (auth_key auth)) o s
           (t ++ [Ev GetConfig config])
         = (Ret (Ok value), s', (t ++ [Ev GetConfig config]) ++ rest)
  end.

Lemma authorization_granted auth headers namespace o s t s' checked :
  authorization auth headers namespace o s t (Ret (Ok tt)) s' checked ->
  granted auth headers namespace o s t s' checked.
Proof.
  unfold authorization, granted. destruct auth as [auth|]; [|by intros (_ & -> & ->)].
  intros (config & Hauth). destruct (header_for auth config headers) as [header|] eqn:Hh;
    [|by destruct Hauth].
  destruct Hauth as (answer & rest & Hrun & Hr & ->).
  destruct answer as [[secret|e]|]; simpl in Hr; [|done..].
  destruct (String.eqb_spec secret header) as [->|]; [|done]. by exists config, header, rest.
Qed.

(** The permission to post a task: the request that was served from [s] after
    [t], whose events are [new], found the trigger, was granted and allowed,
    and then posted exactly this task. *)
Definition authorized_post (state_ : WebState) namespace trigger_ headers
    (allowed : WebhookTrigger -> bool) (ts : TriggerTaskSources) o s t (new : trace) (task : Task)
    : Prop :=
  exists start trigger ns s' checked a after,
    let found := [Ev InstantNow start;
                  Ev (StoreWebhookTrigger namespace trigger_) (Some trigger)] in
    new = found ++ checked ++ Ev (SchedulerAdd WebScheduler task) a :: after
    /\ granted (auth_config (wts_webhook (wt_spec trigger))) headers namespace o s (t ++ found) s'
         checked
    /\ allowed trigger = true /\ wt_namespace trigger = Some ns
    /\ task = {| task_schedule := Once; task_trigger_kind := "WebhookTrigger";
                 task_trigger_ns := ns; task_trigger_name := wt_name trigger; task_sources := ts;
                 task_source_clone_folder := ws_source_clone_folder state_ |}.

Lemma posted_none l : Forall not_posted l -> omap posted l = [].
Proof. intros Hl. by apply omap_Forall_None. Qed.

Lemma request_outcome_authorized state_ namespace trigger_ headers allowed refusal ts o s t start
    r new metrics :
  request_outcome state_ namespace trigger_ headers allowed refusal ts o s
    (t ++ [Ev InstantNow start]) r new ->
  omap posted metrics = [] ->
  let all := Ev InstantNow start :: new ++ metrics in
  length (omap posted all) <= 1
  /\ Forall (authorized_post state_ namespace trigger_ headers allowed ts o s t all)
       (omap posted all)
  /\ (forall res, r = Ret (Ok res) -> length (omap posted all) = 1).
Proof.
  intros (found & rest & -> & Hout) Hmetrics all.
  assert (Hposted : omap posted all = omap posted rest).
  { unfold all. simpl. by rewrite omap_app_eq, Hmetrics, app_nil_r. }
  rewrite Hposted.
  destruct found as [trigger|]; [|destruct Hout as [-> ->]; simpl; split; [lia|done]].
  destruct (wt_namespace trigger) as [ns|] eqn:Hns;
    [|destruct Hout as [-> ->]; simpl; split; [lia|done]].
  destruct Hout as (auth & s' & checked & rest' & Hauth & Hchecked & -> & Hout). clear Hposted.
  rewrite omap_app_eq, (posted_none checked) by done. simpl.
  destruct auth as [[[]|e]|]; [|destruct Hout as [-> ->]; simpl; split; [lia|done]..].
  destruct (allowed trigger) eqn:Hallowed; [|destruct Hout as [-> ->]; simpl; split; [lia|done]].
  destruct Hout as (a & -> & ->). simpl. split; [lia|]. split; [|done].
  constructor; [|done]. exists start, trigger, ns, s', checked, a, metrics.
  split; [unfold all; by rewrite <- app_comm_cons, <- app_assoc|].
  split; [|done]. apply authorization_granted. by rewrite <- app_assoc in Hauth.
Qed.

Lemma wp_handler_safe state_ namespace trigger_ headers allowed refusal ts o s t :
  wp (measured (guarded_post state_ namespace trigger_ headers allowed refusal ts)
        namespace trigger_) o s t (fun r s' t' =>
    jobs_queue s' = jobs_queue s /\ exists new, t' = t ++ new /\ length (omap posted new) <= 1
    /\ Forall (authorized_post state_ namespace trigger_ headers allowed ts o s t new)
         (omap posted new)
    /\ (forall res, r = Ret (Ok res) -> length (omap posted new) = 1)).
Proof.
  apply wp_measured. intros start.
  destruct (webhook_trigger (api_cache s)) eqn:Hcell; cycle 1.
  { unfold guarded_post, web_try, on_api_cache, cache_get, get_cache_store.
    do 5 wp_step. simpl cell. rewrite Hcell. wp_step.
    split; [done|]. exists [Ev InstantNow start]. simpl.
    split; [done|]. split; [lia|done]. }
  apply wp_guarded_post; [done|]. intros r s' new _ Hjobs Hout.
  assert (Hgo : forall metrics r', omap posted metrics = [] -> r' = r \/ r' = Panic ->
    jobs_queue s' = jobs_queue s /\ exists new',
      ((t ++ [Ev InstantNow start]) ++ new) ++ metrics = t ++ new'
      /\ length (omap posted new') <= 1
      /\ Forall (authorized_post state_ namespace trigger_ headers allowed ts o s t new')
           (omap posted new')
      /\ (forall res, r' = Ret (Ok res) -> length (omap posted new') = 1)).
  { intros metrics r' Hm Hr'. split; [done|].
    destruct (request_outcome_authorized _ _ _ _ _ _ _ _ _ _ _ _ _ metrics Hout Hm)
      as (Hlen & Hauth & Hone).
    exists (Ev InstantNow start :: new ++ metrics). rewrite <- !app_assoc.
    split; [done|]. split; [done|]. split; [done|]. by destruct Hr' as [->| ->]. }
  destruct r as [res|].
  - split; intros metrics Hm; apply Hgo; eauto using counted_not_posted.
  - specialize (Hgo [] Panic). rewrite app_nil_r in Hgo. by apply Hgo; auto.
Qed.

(** The same permission as the events alone show it, when [t] holds everything
    that happened before the request: the value that the header carries had
    come from the API for the trigger's secret. *)
Definition permitted_post (state_ : WebState) namespace trigger_ headers
    (allowed : WebhookTrigger -> bool) (ts : TriggerTaskSources) t (new : trace) (task : Task)
    : Prop :=
  exists start trigger ns checked a after,
    let found := [Ev InstantNow start;
                  Ev (StoreWebhookTrigger namespace trigger_) (Some trigger)] in
    new = found ++ checked ++ Ev (SchedulerAdd WebScheduler task) a :: after
    /\ match auth_config (wts_webhook (wt_spec trigger)) with
       | None => checked = []
       | Some auth => exists config value rest,
           checked = Ev GetConfig config :: rest
           /\ header_for auth config headers = Some value
           /\ value_answered (t ++ found ++ checked) namespace (auth_secret_name auth)
                (auth_key auth) value
       end
    /\ allowed trigger = true /\ wt_namespace trigger = Some ns
    /\ task = {| task_schedule := Once; task_trigger_kind := "WebhookTrigger";
                 task_trigger_ns := ns; task_trigger_name := wt_name trigger; task_sources := ts;
                 task_source_clone_folder := ws_source_clone_folder state_ |}.

Lemma wp_secrets_known namespace name key o s t :
  secrets_known (secret_cache s) t ->
  wp (on_secret_cache (secrets_get namespace name key)) o s t (fun r s' t' =>
    secrets_known (secret_cache s') t'
    /\ forall v, r = Ret (Ok v) -> value_answered t' namespace name key v).
Proof. intros Hs. by apply wp_zoom, wp_secrets_get_known. Qed.

Lemma authorized_permitted state_ namespace trigger_ headers allowed ts o s t new task :
  secrets_known (secret_cache s) t ->
  authorized_post state_ namespace trigger_ headers allowed ts o s t new task ->
  permitted_post state_ namespace trigger_ headers allowed ts t new task.
Proof.
  intros Hs (start & trigger & ns & s' & checked & a & after & -> & Hgranted & Hrest).
  exists start, trigger, ns, checked, a, after. split; [done|]. split; [|done].
  unfold granted in Hgranted. destruct (auth_config _) as [auth|]; [|by destruct Hgranted].
  destruct Hgranted as (config & value & rest & -> & Hh & Hrun).
  exists config, value, rest. split; [done|]. split; [done|].
  eapply wp_elim in Hrun; [|apply wp_secrets_known; by rewrite <- app_assoc; apply secrets_known_app].
  rewrite <- !app_assoc in Hrun. by apply Hrun.
Qed.

(** What a program makes of the secrets cache came from the API. *)
Definition keeps_secrets {A} (m : io Statics A) : Prop := forall o s t,
  secrets_known (secret_cache s) t -> wp m o s t (fun _ s' t' => secrets_known (secret_cache s') t').

Lemma keeps_secrets_bind {A B} (m : io Statics A) (k : A -> io Statics B) :
  keeps_secrets m -> (forall a, keeps_secrets (k a)) -> keeps_secrets (bind m k).
Proof.
  intros Hm Hk o s t Hs. wp_step. eapply wp_mono; [by apply Hm|].
  intros [a|] s' t' Hs'; [by apply Hk|done].
Qed.

Lemma keeps_secrets_apart {A} (m : io Statics A) :
  keeps secret_cache m -> calls_in (fun _ => True) m -> keeps_secrets m.
Proof.
  intros Hm Hc o s t Hs. eapply wp_mono; [apply wp_and; [apply Hm|apply Hc]|].
  intros r s' t' [-> (new & -> & _)]. by apply secrets_known_app.
Qed.

Lemma measured_secrets state_ namespace trigger_ headers allowed refusal ts :
  keeps_secrets (measured (guarded_post state_ namespace trigger_ headers allowed refusal ts)
    namespace trigger_).
Proof.
  apply keeps_secrets_bind; [by apply keeps_secrets_apart; [keeps_run|calls_run]|]. intros start.
  apply keeps_secrets_bind; cycle 1.
  { intros res. unfold web_count_and_measure. by apply keeps_secrets_apart; [keeps_run|calls_run]. }
  apply keeps_secrets_bind.
  { apply keeps_secrets_apart; [by apply keeps_zoom|by apply calls_in_cached]. }
  intros [trigger|e]; [|by apply keeps_secrets_apart; [keeps_run|calls_run]].
  apply keeps_secrets_bind.
  { unfold trigger_hash_key. by apply keeps_secrets_apart; [keeps_run|calls_run]. }
  intros key. apply keeps_secrets_bind; cycle 1.
  { intros authorized. unfold post_task, create_trigger_task.
    by apply keeps_secrets_apart; [keeps_run|calls_run]. }
  unfold check_hook_authorization.
  destruct (auth_config _) as [auth|]; [|by apply keeps_secrets_apart; [keeps_run|calls_run]].
  apply keeps_secrets_bind; [by apply keeps_secrets_apart; [keeps_run|calls_run]|]. intros config.
  cbv zeta. destruct (header_get _ _) as [header|]; [|by apply keeps_secrets_apart; [keeps_run|calls_run]].
  apply keeps_secrets_bind.
  - intros o s t Hs. eapply wp_mono; [by apply wp_secrets_known|]. by intros r s' t' [Hknown _].
  - intros secret. by apply keeps_secrets_apart; [keeps_run|calls_run].
Qed.

(** C15. No task without authorization.  Whatever a request to either webhook
    carries, at most one task is handed to the scheduler, and only after this
    happened in this very request: a trigger was found under the requested
    namespace and name; if that trigger asks for authorization, the
    configuration was read, and the request's header of the trigger's own
    name, or else of the name that this configuration gives, carries exactly
    the value that the secrets cache answered, then, for the trigger's secret
    and key in that namespace; and the trigger allows the run (all sources
    when [multi_source] is set, a single source when it is one of the
    trigger's).  The task runs once, for the trigger found, its sources being
    those of the request.  A success means a task was posted.  The handlers
    themselves never touch the jobs queue. *)
Theorem webhook_tasks_authorized state_ namespace trigger_ source headers o s t :
  let safe allowed ts := fun (r : outcome (result WebError WebResponseJson)) s' t' =>
    jobs_queue s' = jobs_queue s /\ exists new, t' = t ++ new /\ length (omap posted new) <= 1
    /\ Forall (authorized_post state_ namespace trigger_ headers allowed ts o s t new)
         (omap posted new)
    /\ (forall res, r = Ret (Ok res) -> length (omap posted new) = 1) in
  wp (handle_post_trigger_webhook header_get state_ namespace trigger_ headers) o s t
    (safe (fun trigger => multi_source (wts_webhook (wt_spec trigger))) All)
  /\ wp (handle_post_source_webhook header_get state_ namespace trigger_ source headers) o s t
    (safe (fun trigger => bool_decide (source ∈ names (wts_sources (wt_spec trigger))))
       (Single source)).
Proof.
  intros safe. split.
  - by apply (wp_handler_safe state_ namespace trigger_ headers _ ForbiddenMultiSource).
  - by apply (wp_handler_safe state_ namespace trigger_ headers _ SourceNotFound).
Qed.

(** C35. The responses.  Every answered request got the outcome described
    by [request_outcome]: 404 for an unknown trigger, 401 without the
    required header (and then no secret is read), 500 when the secret cannot
    be had, 403 for another value, 400 or 404 when the trigger does not allow
    the run, 500 when the scheduler refuses, 202 with the task's id
    otherwise; and each of them is measured and counted: the latency since
    the request came in is observed, and the counter of requests incremented,
    once each, under the trigger and exactly that status code. *)
Theorem webhook_responses state_ namespace trigger_ source headers o s t :
  webhook_trigger (api_cache s) = true ->
  let answered allowed refusal ts := fun (r : outcome (result WebError WebResponseJson)) s' t' =>
    forall res, r = Ret res -> exists start new metrics,
      t' = ((t ++ [Ev InstantNow start]) ++ new) ++ metrics
      /\ request_outcome state_ namespace trigger_ headers allowed refusal ts o s
           (t ++ [Ev InstantNow start]) (Ret res) new
      /\ counted namespace trigger_ start res metrics
      /\ (into_response res).1 = match res with
         | Ok _ => 202%Z
         | Err ForbiddenMultiSource => 400%Z
         | Err (TriggerNotFound | SourceNotFound) => 404%Z
         | Err Unauthorized => 401%Z
         | Err Forbidden => 403%Z
         | Err _ => 500%Z
         end in
  wp (handle_post_trigger_webhook header_get state_ namespace trigger_ headers) o s t
    (answered (fun trigger => multi_source (wts_webhook (wt_spec trigger)))
       ForbiddenMultiSource All)
  /\ wp (handle_post_source_webhook header_get state_ namespace trigger_ source headers) o s t
    (answered (fun trigger => bool_decide (source ∈ names (wts_sources (wt_spec trigger))))
       SourceNotFound (Single source)).
Proof.
  intros Hcell answered.
  assert (Hgen : forall allowed refusal ts,
    wp (measured (guarded_post state_ namespace trigger_ headers allowed refusal ts)
          namespace trigger_) o s t (answered allowed refusal ts)).
  { intros allowed refusal ts. apply wp_measured. intros start.
    apply wp_guarded_post; [done|]. intros [res|] s' new _ _ Hout; [|done].
    split; intros metrics Hm res'; [intros [=<-]|done]. exists start, new, metrics.
    split; [done|]. split; [done|]. split; [done|]. by destruct res as [|[]]. }
  split; apply Hgen.
Qed.
End WebFacts.
