(* ===== verification/WebExamples.v ===== *)
(** * The web front end: concrete requests

    The theorems of Web.v on a request whose headers are an association list
    of lower-case names, with a webhook trigger in the cache. *)

From stdpp Require Import base option gmap sets strings list fin_maps.
From Stdlib Require Import Ascii ZArith Lia.
From S2P Require Import Prelude Strs Time Errors Config Ext Resources World Jobs JobsFacts Cache Statics Action GitRepo Trigger TriggerFacts SourceFacts TaskFacts TriggerExamples Web.
Local Open Scope string_scope.
Local Open Scope list_scope.

#[local] Existing Instance example_ext.

Fixpoint assoc_get (headers : list (string * string)) (name : string) : option string :=
  match headers with
  | [] => None
  | (n, v) :: headers => if String.eqb n (to_lowercase name) then Some v else assoc_get headers name
  end.

Definition push_trigger : WebhookTrigger := {|
  wt_name := "push"; wt_namespace := Some "ci";
  wt_spec := {|
    wts_sources := {| sources_kind := KindGitRepo; names := ["app"];
      watch_on := {| on_change_only := true; reference := TriggerGitRepoReference_default;
                     files := None |} |};
    wts_webhook := {| multi_source := true;
      auth_config := Some {| auth_secret_name := "hook"; auth_key := "token"; auth_header := None |} |};
    wts_action := {| action_kind := KindAction; action_name := "build" |} |};
  wt_status := None |}.

(** The trigger is in the cache and its secret is in the API. *)
Definition hook_services : services := fun t c =>
  match c as c return resp c with
  | StoreWebhookTrigger _ _ => Some push_trigger
  | GetSecret _ _ => Ok (Some {[ "token" := "s3cret" ]})
  | c => quiet t c
  end.

Definition hook_statics : Statics := {|
  api_cache := api_cache ready_statics;
  secret_cache := Some {| expiration_timeout := from_secs 60; cache := ∅ |};
  jobs_queue := jobs_queue ready_statics |}.

Definition web_state : WebState := {| ws_source_clone_folder := "/tmp" |}.

Definition answer_code (headers : list (string * string)) : outcome Z :=
  match (handle_post_trigger_webhook assoc_get web_state "ci" "push" headers
           hook_services hook_statics []).1.1 with
  | Ret r => Ret (into_response r).1
  | Panic => Panic
  end.

(** The right value, a wrong one, none. *)
Example hook_answers :
  answer_code [("x-trigger-auth", "s3cret")] = Ret 202%Z
  /\ answer_code [("x-trigger-auth", "guess")] = Ret 403%Z
  /\ answer_code [] = Ret 401%Z.
Proof. repeat split; reflexivity. Qed.

Lemma webhook_responses_witness :
  webhook_trigger (api_cache hook_statics) = true
  /\ wp (handle_post_source_webhook assoc_get web_state "ci" "push" "web" [("x-trigger-auth", "s3cret")])
       hook_services hook_statics [] (fun r s' t' =>
       forall res, r = Ret res -> (into_response res).1 = match res with
           | Ok _ => 202%Z
           | Err ForbiddenMultiSource => 400%Z
           | Err (TriggerNotFound | SourceNotFound) => 404%Z
           | Err Unauthorized => 401%Z
           | Err Forbidden => 403%Z
           | Err _ => 500%Z
           end).
Proof.
  split; [reflexivity|].
  eapply wp_mono;
    [exact (proj2 (webhook_responses assoc_get web_state "ci" "push" "web"
       [("x-trigger-auth", "s3cret")] hook_services hook_statics [] eq_refl))|].
  intros r s' t' Hr res Hres. destruct (Hr res Hres) as (start & new & metrics & _ & _ & _ & Hc).
  exact Hc.
Defined.
