(* ===== verification/WebServer.v ===== *)
(** * The web servers (src/src/web.rs)

    The two servers around the handlers: the routes they are built from, the
    utility server's answers, and the life of the webhooks server until its
    task scheduler is shut down.  axum's router and the sockets are
    parameters. *)

From stdpp Require Import base option sets strings list.
From Stdlib Require Import Ascii ZArith Lia.
From S2P Require Import Prelude Strs Time Errors Config Ext Resources World.
Local Open Scope string_scope.
Local Open Scope list_scope.

(** ** Routes *)

(** The functions of the routes; [handle_alive] is a closure. *)
Inductive Handler : Type :=
| HandleReady | HandleAlive | HandleMetrics
| HandlePostTriggerWebhook | HandlePostSourceWebhook.

(** The routes of a router with the function of each: GET for the utility
    server, POST for the webhooks. *)
Definition Routes : Type := list (string * Handler).

(** [Router::route]: whether a router with the given paths takes another one;
    it panics for a path it does not take. *)
Class Router : Type := { route_taken : list string -> string -> bool }.

Section servers.
Context `{Ext} `{!Router}.
Local Open Scope prog_scope.

Definition route (path : string) (handler : Handler) : io Routes unit :=
  routes <-- get ;;
  if route_taken (routes.*1) path then put (routes ++ [(path, handler)])%list else panic.

Definition utils_router : io Routes unit :=
  route "/ready" HandleReady ;;;
  route "/alive" HandleAlive ;;;
  route "/metrics" HandleMetrics.

Definition hooks_router : io Routes unit :=
  route "/:namespace/:trigger" HandlePostTriggerWebhook ;;;
  route "/:namespace/:trigger/:source" HandlePostSourceWebhook.

(** [build_utils_web] up to the future it returns; [bind] is
    [TcpListener::bind] on all addresses. *)
Definition build_utils_web (bind : Z -> bool) (port : Z) : io Routes unit :=
  utils_router ;;;
  if bind port then ret tt else panic.

(** [build_hooks_web] up to the future it returns: the listener is only bound
    inside the future. *)
Definition build_hooks_web : io Routes unit := hooks_router.
End servers.

(** ** The utility server *)

(** [handle_ready]: 500 until the program is ready. *)
Definition handle_ready (ready : bool) : Z * string :=
  if ready then (200%Z, "Ready") else (500%Z, "Not ready").

Definition handle_alive : Z * string := (200%Z, "Alive").

(** [handle_metrics], on what the encoder makes of the gathered metrics. *)
Definition handle_metrics (encoded : result string string) : outcome (Z * string) :=
  match encoded with
  | Ok buffer =>
      match from_utf8 buffer with
      | Ok output => Ret (200%Z, output)
      | Err _ => Panic
      end
  | Err _ => Panic
  end.

(** A GET request to one of the routes. *)
Definition utils_answer (ready : bool) (encoded : result string string) (routes : Routes)
    (path : string) : outcome (option (Z * string)) :=
  match snd <$> find (fun r => String.eqb r.1 path) routes with
  | Some HandleReady => Ret (Some (handle_ready ready))
  | Some HandleAlive => Ret (Some handle_alive)
  | Some HandleMetrics =>
      match handle_metrics encoded with Ret a => Ret (Some a) | Panic => Panic end
  | Some (HandlePostTriggerWebhook | HandlePostSourceWebhook) | None => Ret None
  end.

(** ** The life of the webhooks server *)

(** The arms of the [select!]: the shutdown channel changed (or its sender is
    gone), or the server returned. *)
Inductive HooksEvent : Type :=
| ShutdownChanged
| ServerReturned (res : result string unit).

Inductive HooksAction : Type :=
| GracefulShutdown
| LogServerError (err : string)
| Sleep100ms
| ShutdownScheduler.

(** The loop after the [select!]: up to [fuel] looks at the number of
    references to the scheduler; the numbers are what the looks find. *)
Fixpoint shutdown_scheduler (fuel : nat) (strong_counts : nat -> nat) : list HooksAction :=
  match fuel with
  | O => []
  | S fuel =>
      if (strong_counts 0 <=? 1)%nat then [ShutdownScheduler]
      else Sleep100ms :: shutdown_scheduler fuel (fun n => strong_counts (S n))
  end.

Definition hooks_web (first : HooksEvent) (strong_counts : nat -> nat) : list HooksAction :=
  match first with
  | ShutdownChanged => [GracefulShutdown]
  | ServerReturned (Err err) => [LogServerError err]
  | ServerReturned (Ok _) => []
  end ++ shutdown_scheduler 10 strong_counts.

(** ** Theorems *)

(** A path with a segment that starts with a colon. *)
Definition colon_segment (path : string) : bool :=
  existsb (fun segment => match segment with String ":" _ => true | _ => false end)
    (split "/" path).

(** A path of one segment of lower case letters. *)
Definition plain_path (path : string) : bool :=
  match split "/" path with
  | [EmptyString; String c segment] =>
      in_range 97 122 c && forall_chars (in_range 97 122) segment
  | _ => false
  end.

(** axum 0.8, as documented: a segment that starts with a colon is refused
    (parameters are written in braces), and a plain path is taken once. *)
Class RouterLaws `{!Router} : Prop := {
  colon_refused paths path : colon_segment path = true -> route_taken paths path = false;
  plain_taken paths path : plain_path path = true -> path ∉ paths -> route_taken paths path = true }.

#[local] Arguments String.eqb : simpl never.

Section servers_facts.
Context `{Ext} `{!Router} `{!RouterLaws}.
Implicit Types (o : services) (t : trace).

Lemma wp_route path h o (routes : Routes) t Q :
  (route_taken (routes.*1) path = true -> Q (Ret tt) (routes ++ [(path, h)]) t) ->
  (route_taken (routes.*1) path = false -> Q Panic routes t) ->
  wp (route path h) o routes t Q.
Proof.
  intros Htaken Hrefused. unfold route. wp_step. wp_step. case_match; wp_step; auto.
Qed.

(** The webhooks server cannot be built: its routes are written with
    colons, which axum 0.8 refuses with a panic, so that [build_hooks_web]
    panics for every configuration, before any listener is bound. *)
Theorem hooks_web_never_built o t :
  wp build_hooks_web o [] t (fun r _ t' => r = Panic /\ t' = t).
Proof.
  unfold build_hooks_web, hooks_router. wp_step. apply wp_route; [|done].
  by rewrite colon_refused.
Qed.

(** The utility server: it is built exactly when its port can be bound,
    and then [/ready] answers 200 exactly when the process has declared
    itself ready and 500 until then, [/alive] always 200, and [/metrics] the
    encoded metrics; every other path has no function. *)
Theorem utils_web_spec bind port o t :
  wp (build_utils_web bind port) o [] t (fun r routes _ =>
    if bind port then r = Ret tt
      /\ (forall ready encoded, utils_answer ready encoded routes "/ready"
            = Ret (Some (if ready then (200%Z, "Ready") else (500%Z, "Not ready"))))
      /\ (forall ready encoded, utils_answer ready encoded routes "/alive"
            = Ret (Some (200%Z, "Alive")))
      /\ (forall ready output, utf8_valid output = true ->
            utils_answer ready (Ok output) routes "/metrics" = Ret (Some (200%Z, output)))
      /\ (forall ready encoded path, path ∉ ["/ready"; "/alive"; "/metrics"] ->
            utils_answer ready encoded routes path = Ret None)
    else r = Panic).
Proof.
  unfold build_utils_web, utils_router.
  assert (Hplain : forall paths path, plain_path path = true -> path ∉ paths ->
    route_taken paths path = false -> False).
  { intros paths path Hp Hnew. by rewrite plain_taken. }
  do 2 wp_step. apply wp_route; simpl; [intros _|intros []%Hplain; [done|set_solver]].
  wp_step. apply wp_route; simpl; [intros _|intros []%Hplain; [done|set_solver]].
  apply wp_route; simpl; [intros _|intros []%Hplain; [done|set_solver]].
  case_match; wp_step; [|done]. split; [done|]. split; [by intros []|]. split; [done|]. split.
  - intros ready output Hutf8. unfold utils_answer, handle_metrics, from_utf8. simpl.
    by rewrite Hutf8.
  - intros ready encoded path Hpath. unfold utils_answer. simpl find.
    destruct (String.eqb_spec "/ready" path) as [<-|?]; [exfalso; apply Hpath; set_solver|].
    destruct (String.eqb_spec "/alive" path) as [<-|?]; [exfalso; apply Hpath; set_solver|].
    by destruct (String.eqb_spec "/metrics" path) as [<-|?]; [exfalso; apply Hpath; set_solver|].
Qed.

End servers_facts.

(** ** The end of the webhooks server *)

Lemma shutdown_scheduler_spec fuel counts :
  (exists n, n < fuel /\ counts n <= 1 /\ (forall m, m < n -> 1 < counts m)
     /\ shutdown_scheduler fuel counts = replicate n Sleep100ms ++ [ShutdownScheduler])
  \/ ((forall m, m < fuel -> 1 < counts m)
      /\ shutdown_scheduler fuel counts = replicate fuel Sleep100ms).
Proof.
  revert counts. induction fuel as [|fuel IH]; intros counts; simpl; [right; split; [lia|done]|].
  destruct (Nat.leb_spec (counts 0) 1).
  - left. exists 0. split; [lia|]. split; [done|]. split; [lia|done].
  - destruct (IH (fun n => counts (S n))) as [(n & Hn & Hc & Hm & ->)|[Hm ->]].
    + left. exists (S n). split; [lia|]. split; [done|]. split; [|done].
      intros [|m] Hlt; [done|]. apply Hm. lia.
    + right. split; [|done]. intros [|m] Hlt; [done|]. apply Hm. lia.
Qed.

(** The webhooks server always ends, within one second of waiting: after
    the shutdown or the end of the server it looks at most ten times, 100 ms
    apart, whether it holds the last reference to the task scheduler; at the
    first look that finds so the scheduler is shut down, as the last act;
    when all ten find other holders, it ends with the scheduler running. *)
Theorem hooks_web_ends first strong_counts :
  exists prefix, length prefix <= 1 /\ (Sleep100ms ∉ prefix) /\ (ShutdownScheduler ∉ prefix) /\
  ((exists n, n < 10 /\ strong_counts n <= 1 /\ (forall m, m < n -> 1 < strong_counts m)
     /\ hooks_web first strong_counts = prefix ++ replicate n Sleep100ms ++ [ShutdownScheduler])
   \/ ((forall m, m < 10 -> 1 < strong_counts m)
       /\ hooks_web first strong_counts = prefix ++ replicate 10 Sleep100ms)).
Proof.
  unfold hooks_web. eexists. split; [|split; [|split; [|
    destruct (shutdown_scheduler_spec 10 strong_counts) as [(n & Hn & Hc & Hm & ->)|[Hm ->]];
    [left; exists n; eauto|right; eauto]]]].
  all: destruct first as [|[[]|err]]; simpl; first [lia|set_solver].
Qed.
(** ** Examples *)

(** A router that refuses colons and repetitions. *)
#[export] Instance example_router : Router := {|
  route_taken := fun paths path => negb (colon_segment path) && bool_decide (path ∉ paths) |}.

#[export] Instance example_router_laws : RouterLaws.
Proof.
  split; unfold route_taken; simpl.
  - by intros paths path ->.
  - intros paths path Hplain Hnew. rewrite (bool_decide_eq_true_2 _ Hnew), andb_true_r.
    revert Hplain. unfold plain_path, colon_segment.
    destruct (split "/" path) as [|[|? ?] [|[|c segment] [|? ?]]]; try done. simpl.
    by destruct c as [[] [] [] [] [] [] [] []].
Qed.
