(* ===== verification/JobsSystem.v ===== *)
(** * The jobs queue as a system

    [JobsQueue::init_and_watch] runs four loops in one [select!]: the watch on
    the jobs, the queue events, the configuration changes and the shutdown.
    Between two [await]s of one loop the others, and [enqueue] called from
    other tasks, make progress.  This file is that system: a step relation
    over the queue object and the position of the queue loop, its invariants,
    and the runs of [run_queue] without interference as executions of it. *)

From stdpp Require Import base option gmap strings list fin_maps.
From Stdlib Require Import ZArith Lia.
From S2P Require Import Prelude Strs Time Errors Config Ext Resources World Jobs JobsFacts.
Local Open Scope string_scope.
Local Open Scope list_scope.

Section JobsSystem.
Context `{Ext}.
Implicit Types (q : JobsQueue) (o : services) (t new : trace).

(** ** [run_queue] cut at its loop *)

(** From the lock to the loop: the two counters of the loop, or [None] when
    the limit is exceeded. *)
Definition queue_wake : io JobsQueue (option (nat * Z)) :=
  (queue <-- get ;;
   config <-- call GetConfig ;;
   update_gauges (Z.of_nat (length (queue_jobs queue))) ;;;
   if bool_decide (max_running_jobs (rc_action config) < running_jobs queue)%Z then ret None
   else ret (Some (length (queue_jobs queue),
                   max_running_jobs (rc_action config) - running_jobs queue)%Z))%prog.

(** One turn of the loop, after which [waiting_jobs] items are expected:
    [None] if the channel was empty, else whether a job was created. *)
Definition drain_one (waiting_jobs : nat) : io JobsQueue (option bool) :=
  (job_item <-- recv ;;
   match job_item with
   | Some job_item =>
       created <-- run_item job_item ;;
       update_gauges (Z.of_nat waiting_jobs) ;;;
       ret (Some created)
   | None => ret None
   end)%prog.

Definition spend (created : bool) (free_capacity : Z) : Z :=
  if created then (free_capacity - 1)%Z else free_capacity.

(** ** The system *)

(** Why the queue loop went back to waiting for an event: every item it had
    counted was taken, or the free capacity was used up. *)
Inductive rest : Type := Drained | Full.

Inductive queue_task : Type :=
| Waiting (why : rest)
| Draining (waiting_jobs : nat) (free_capacity : Z)
| Stopped.

Record system : Type := Sys { sys_queue : JobsQueue; sys_task : queue_task }.

Definition task_after_wake (w : option (nat * Z)) : queue_task :=
  match w with Some (n, f) => Draining n f | None => Waiting Full end.

(** A run that returns, whatever the services answered. *)
Definition runs {S A} (m : io S A) (s : S) (new : trace) (a : A) (s' : S) : Prop :=
  exists o t, m o s t = (Ret a, s', t ++ new).

(** A run that panics. *)
Definition crashes {S A} (m : io S A) (s : S) (new : trace) (s' : S) : Prop :=
  exists o t, m o s t = (Panic, s', t ++ new).

(** The end of the queue task, by the shutdown or by a panic, drops the
    receiver of the queue events. *)
Definition stopped_queue q : JobsQueue := {|
  identity := identity q; queue_jobs := queue_jobs q; running_jobs := running_jobs q;
  statuses := statuses q; queue_event_alive := false;
  queue_event_pending := queue_event_pending q |}.

(** [step s enq new s']: one step from [s] to [s'] that makes the calls [new]
    and in which the items [enq] were enqueued.  The queue events and
    the configuration changes call the same [run_queue] behind one lock, so a
    change that arrives during a run is a step of the queue loop when it waits
    again.  One turn of the loop is one step: what the others do during its
    [await] happens before or after it.  A turn that the shutdown cancels is
    [step_cut] when its request was not sent, and [step_drain] followed by
    [step_shutdown] when it was.  A panic in any of the loops ends the queue
    task.  [law] says which reports of the watch are considered. *)
Context (law : JobsQueue -> (ObjectRef -> option Job) -> option Job -> Prop).

Inductive step : system -> list JobsQueueItem -> trace -> system -> Prop :=
| step_watch store job q task new q' :
    task <> Stopped -> law q store job -> runs (on_job_event store job) q new tt q' ->
    step (Sys q task) [] new (Sys q' task)
| step_watch_crash store job q task new q' :
    task <> Stopped -> law q store job -> crashes (on_job_event store job) q new q' ->
    step (Sys q task) [] new (Sys (stopped_queue q') Stopped)
| step_enqueue job ns expire q task new r q' items :
    runs (enqueue job ns expire) (Some q) new r (Some q') ->
    queue_jobs q' = queue_jobs q ++ items ->
    step (Sys q task) items new (Sys q' task)
| step_event q why new w q' :
    queue_event_pending q = true ->
    runs queue_wake (with_event_pending false q) new w q' ->
    step (Sys q (Waiting why)) [] new (Sys q' (task_after_wake w))
| step_config q why new w q' :
    runs queue_wake q new w q' ->
    step (Sys q (Waiting why)) [] new (Sys q' (task_after_wake w))
| step_wake_crash q why new q' :
    (* the event may already be taken *)
    crashes queue_wake q new q' ->
    step (Sys q (Waiting why)) [] new (Sys (stopped_queue q') Stopped)
| step_drain n f q new created q' :
    (0 < f)%Z -> runs (drain_one n) q new (Some created) q' ->
    step (Sys q (Draining (S n) f)) [] new (Sys q' (Draining n (spend created f)))
| step_starved n f q new q' :
    (0 < f)%Z -> runs (drain_one n) q new None q' ->
    step (Sys q (Draining (S n) f)) [] new (Sys q' (Waiting Drained))
| step_drain_crash n f q new q' :
    (0 < f)%Z -> crashes (drain_one n) q new q' ->
    step (Sys q (Draining (S n) f)) [] new (Sys (stopped_queue q') Stopped)
| step_done f q : step (Sys q (Draining 0 f)) [] [] (Sys q (Waiting Drained))
| step_full n f q : (f <= 0)%Z -> step (Sys q (Draining (S n) f)) [] [] (Sys q (Waiting Full))
| step_shutdown q task :
    step (Sys q task) [] [] (Sys (stopped_queue q) Stopped)
| step_cut n f q item items :
    (* the shutdown cancels a turn whose item was already taken *)
    (0 < f)%Z -> queue_jobs q = item :: items ->
    step (Sys q (Draining (S n) f)) [] []
      (Sys (stopped_queue (with_queue_jobs items q)) Stopped).

Inductive steps : system -> list JobsQueueItem -> trace -> system -> Prop :=
| steps_refl s : steps s [] [] s
| steps_snoc s enq new s1 enq1 new1 s2 :
    steps s enq new s1 -> step s1 enq1 new1 s2 -> steps s (enq ++ enq1) (new ++ new1) s2.

(** [init_and_watch] starts with an empty queue and no job seen. *)
Definition started (identity_ : string) : system := {|
  sys_queue := {| identity := identity_; queue_jobs := []; running_jobs := 0%Z; statuses := ∅;
                  queue_event_alive := true; queue_event_pending := false |};
  sys_task := Waiting Drained |}.

(** ** What each piece does to the queue *)

(** The parts of the queue object that the watch leaves alone, apart from
    raising the event. *)
Definition same_queue q q' : Prop :=
  queue_jobs q' = queue_jobs q /\ queue_event_alive q' = queue_event_alive q
  /\ (queue_event_pending q = true -> queue_event_pending q' = true).

(** A piece of code that only touches the counters. *)
Definition bookkeeping q t {A} (r : outcome A) q' (t' : trace) : Prop :=
  same_queue q q' /\ exists new, t' = t ++ new /\ creates new = [].

Lemma bookkeeping_count job status o q t q0 t0 :
  bookkeeping q0 t0 (Ret tt) q t ->
  wp (count_and_measure_completed job status) o q t (bookkeeping q0 t0).
Proof.
  intros [Hq (new & -> & Hnew)]. apply wp_silent; [apply count_and_measure_silent|].
  intros r new1 Hnew1. split; [done|]. exists (new ++ new1).
  by rewrite app_assoc, creates_app, Hnew, Hnew1.
Qed.

Lemma bookkeeping_start q t {A} (r : outcome A) q' : same_queue q q' -> bookkeeping q t r q' t.
Proof. intros Hq. split; [done|]. exists []. by rewrite app_nil_r. Qed.

Lemma bookkeeping_state q t {A B} (r : outcome A) (r' : outcome B) q1 q2 t1 :
  bookkeeping q t r q1 t1 -> same_queue q1 q2 -> bookkeeping q t r' q2 t1.
Proof. intros [(H1 & H2 & H3) ?] (H4 & H5 & H6). split; [|done]. split_and!; [congruence..|auto]. Qed.

Lemma on_job_status_bookkeeping key job s o q t :
  wp (on_job_status key job s) o q t (bookkeeping q t).
Proof.
  unfold on_job_status. wp_step. wp_step. wp_step.
  apply (wp_mono _ _ _ _ (bookkeeping q t)).
  - destruct (statuses q !! key) as [p|]; [|by apply wp_ret, bookkeeping_start].
    case_bool_decide; [|by apply wp_ret, bookkeeping_start].
    destruct (js_succeeded s), (js_failed s);
      first [by apply wp_ret, bookkeeping_start
            |by apply wp_bind, wp_modify, bookkeeping_count, bookkeeping_start].
  - intros [[]|] q1 t1 Hb; [|done]. wp_step. wp_step. wp_step. wp_step.
    destruct (statuses q1 !! key); [wp_step|apply wp_modify];
      (eapply bookkeeping_state; [exact Hb|by repeat split]).
Qed.

Lemma on_job_gone_bookkeeping key job o q t :
  wp (on_job_gone key job) o q t (bookkeeping q t).
Proof.
  unfold on_job_gone. wp_step. wp_step. wp_step. wp_step.
  destruct (statuses q !! key) as [p|]; [|by apply wp_ret, bookkeeping_start].
  destruct (js_succeeded p), (js_failed p);
    first [by apply wp_ret, bookkeeping_start
          |by apply wp_bind, wp_modify, bookkeeping_count, bookkeeping_start].
Qed.

(** The watch takes nothing, submits nothing, and wakes the queue loop. *)
Lemma on_job_event_wakes store job o q t :
  wp (on_job_event store job) o q t (fun r q' t' =>
    (exists new, t' = t ++ new /\ creates new = []) /\ same_queue q q' /\
    (r = Ret tt -> queue_event_alive q = true -> queue_event_pending q' = true)).
Proof.
  unfold on_job_event. apply wp_bind. apply (wp_mono _ _ _ _ (bookkeeping q t)).
  - destruct job as [job|]; [|by apply wp_ret, bookkeeping_start].
    wp_step. wp_step. case_match; [|by apply bookkeeping_start].
    wp_step. wp_step. case_match; [|by apply bookkeeping_start]. cbv zeta.
    case_match; [apply on_job_status_bookkeeping|apply on_job_gone_bookkeeping].
  - intros [[]|] q1 t1 [(H1 & H2 & H3) Hnew]; [|by repeat split]. apply wp_modify. split; [done|].
    unfold same_queue. destruct (queue_event_alive q1) eqn:Halive; simpl; split_and!; auto;
      congruence.
Qed.

Lemma enqueue_appends job ns expire o q t :
  wp (enqueue job ns expire) o (Some q) t (fun r cell' t' => exists q' item,
    cell' = Some q' /\ (exists new, t' = t ++ new /\ creates new = [])
    /\ queue_jobs q' = queue_jobs q ++ [item] /\ queue_event_alive q' = queue_event_alive q
    /\ (queue_event_pending q = true -> queue_event_pending q' = true)
    /\ (queue_event_alive q = true -> queue_event_pending q' = true)).
Proof.
  apply wp_enqueue; [done|]. intros q0 now [= <-]. unfold enqueued.
  eexists _, _. split; [done|]. split; [by eexists|].
  destruct (queue_event_alive q) eqn:Halive; simpl; split_and!; try done; congruence.
Qed.

Lemma queue_wake_reads o q t :
  wp queue_wake o q t (fun r q' t' => q' = q /\ (exists new, t' = t ++ new /\ creates new = [])
    /\ (forall n f, r = Ret (Some (n, f)) -> n = length (queue_jobs q) /\ (0 <= f)%Z)).
Proof.
  unfold queue_wake. do 4 wp_step. wp_step. apply wp_silent; [apply update_gauges_silent|].
  intros g new Hnew. rewrite <- app_assoc.
  assert (Hev : exists n, t ++ [Ev GetConfig r] ++ new = t ++ n /\ creates n = []).
  { eexists. split; [done|]. by rewrite creates_app, Hnew. }
  destruct g as [[]|]; [|done]. case_bool_decide; wp_step; (split; [done|]; split; [done|]).
  - done.
  - intros n f [= <- <-]. split; [done|lia].
Qed.

(** One turn takes the oldest item and submits it at most once. *)
Lemma drain_one_takes n o q t :
  wp (drain_one n) o q t (fun r q' t' =>
    match queue_jobs q with
    | [] => q' = q /\ t' = t
    | item :: items => q' = with_queue_jobs items q /\ exists new f, t' = t ++ new
        /\ creates new = option_list (fate_create (item, f))
        /\ (forall created, r = Ret (Some created) -> created = bool_decide (f = Accepted))
    end /\ (r = Ret None -> queue_jobs q = [])).
Proof.
  unfold drain_one, recv. apply wp_bind, wp_bind, wp_get.
  destruct (queue_jobs q) as [|item items] eqn:Hq; [by wp_run|].
  wp_step. wp_step. wp_step. apply wp_bind, wp_run_item.
  - intros new f b Hnew ->. apply wp_bind, wp_silent; [apply update_gauges_silent|].
    intros g new2 Hnew2. rewrite <- app_assoc.
    assert (Hcr : creates (new ++ new2) = option_list (fate_create (item, f))).
    { rewrite creates_app, Hnew, Hnew2. apply app_nil_r. }
    destruct g as [[]|]; [wp_step|]; (split; [split; [done|]|done]); exists (new ++ new2), f;
      split_and!; try done; by intros ? [= <-].
  - intros new f Hnew _. split; [split; [done|]|done]. by exists new, f.
Qed.

(** ** Invariants *)

(** Every item enqueued so far was taken, in order, with one of the fates, or
    is still in the queue; the submissions are those of the taken items. *)
Definition conserved (enq : list JobsQueueItem) (new : trace) q : Prop :=
  exists taken fates, enq = taken ++ queue_jobs q /\ length fates = length taken
    /\ creates new = omap fate_create (zip taken fates).

Lemma conserved_append enq new q items new1 q1 :
  conserved enq new q -> creates new1 = [] -> queue_jobs q1 = queue_jobs q ++ items ->
  conserved (enq ++ items) (new ++ new1) q1.
Proof.
  intros (taken & fates & -> & Hlen & Hcr) Hnew1 Hq1. exists taken, fates.
  rewrite Hq1, creates_app, Hnew1, app_nil_r, app_assoc. done.
Qed.

Lemma conserved_same enq new q new1 q1 :
  conserved enq new q -> creates new1 = [] -> queue_jobs q1 = queue_jobs q ->
  conserved (enq ++ []) (new ++ new1) q1.
Proof. intros Hc Hnew1 Hq1. eapply conserved_append; [done..|]. by rewrite app_nil_r. Qed.

Lemma conserved_take enq new q item items new1 f q1 :
  conserved enq new q -> queue_jobs q = item :: items -> queue_jobs q1 = items ->
  creates new1 = option_list (fate_create (item, f)) ->
  conserved (enq ++ []) (new ++ new1) q1.
Proof.
  intros (taken & fates & -> & Hlen & Hcr) Hq Hq1 Hnew1. exists (taken ++ [item]), (fates ++ [f]).
  rewrite Hq, Hq1, app_nil_r, <- app_assoc, !length_app, Hlen. do 2 (split; [done|]).
  rewrite creates_app, Hcr, Hnew1, zip_with_app by done. rewrite omap_app_eq. by f_equal.
Qed.

(** The queue loop waits only when there is nothing it should do. *)
Definition attentive (s : system) : Prop :=
  let q := sys_queue s in
  match sys_task s with
  | Waiting why => queue_event_alive q = true
      /\ (why = Drained -> queue_jobs q = [] \/ queue_event_pending q = true)
  | Draining n f => queue_event_alive q = true /\ n <= length (queue_jobs q)
      /\ (n = length (queue_jobs q) \/ queue_event_pending q = true)
  | Stopped => queue_event_alive q = false
  end.

Definition system_ok enq new (s : system) : Prop := conserved enq new (sys_queue s) /\ attentive s.

Lemma attentive_more q task q1 :
  attentive (Sys q task) -> queue_event_alive q1 = queue_event_alive q ->
  length (queue_jobs q) <= length (queue_jobs q1) ->
  (queue_event_alive q = true -> queue_event_pending q1 = true) -> attentive (Sys q1 task).
Proof.
  unfold attentive. simpl. intros Hatt Halive Hlen Hpend. rewrite Halive.
  destruct task as [why|n f|]; [| |done]; destruct Hatt as [Ha Hatt];
    (split; [done|]); [by auto|]. split; [lia|by auto].
Qed.

Lemma attentive_wake q w o t new :
  queue_event_alive q = true -> queue_wake o q t = (Ret w, q, t ++ new) ->
  attentive (Sys q (task_after_wake w)).
Proof.
  intros Halive Hrun. pose proof (queue_wake_reads o q t) as Hw. unfold wp in Hw.
  rewrite Hrun in Hw. destruct Hw as (_ & _ & Hw). destruct w as [[n f]|]; simpl.
  - destruct (Hw n f eq_refl) as [-> _]. unfold attentive. simpl. by auto.
  - by unfold attentive.
Qed.

Lemma wake_ok enq new q0 q why new1 w q1 :
  system_ok enq new (Sys q0 (Waiting why)) ->
  queue_jobs q = queue_jobs q0 -> queue_event_alive q = queue_event_alive q0 ->
  runs queue_wake q new1 w q1 ->
  system_ok (enq ++ []) (new ++ new1) (Sys q1 (task_after_wake w)).
Proof.
  intros [Hc [Halive _]] Hjobs Hal (o & t & Hrun). simpl in *.
  pose proof (queue_wake_reads o q t) as Hw. unfold wp in Hw. rewrite Hrun in Hw.
  destruct Hw as (-> & (new2 & Heq & Hcr) & _). apply app_inv_head in Heq as ->.
  split; [by eapply conserved_same|]. eapply attentive_wake; [by rewrite Hal|done].
Qed.

(** The queue task ends between two items. *)
Lemma stop_ok enq new q task new1 q1 :
  system_ok enq new (Sys q task) -> queue_jobs q1 = queue_jobs q -> creates new1 = [] ->
  system_ok (enq ++ []) (new ++ new1) (Sys (stopped_queue q1) Stopped).
Proof. intros [Hc _] Hq1 Hcr. split; [by eapply conserved_same|done]. Qed.

Lemma step_ok enq new s enq1 new1 s1 :
  system_ok enq new s -> step s enq1 new1 s1 -> system_ok (enq ++ enq1) (new ++ new1) s1.
Proof.
  intros Hok Hstep. pose proof Hok as [Hc Hatt]. destruct Hstep as
    [store job q task new1 q' ? ? (o & t & Hrun)|store job q task new1 q' ? ? (o & t & Hrun)
    |job ns expire q task new1 r q' items (o & t & Hrun) Hitems|q why new1 w q' ? ?
    |q why new1 w q' ?|q why new1 q' (o & t & Hrun)|n f q new1 created q' Hf (o & t & Hrun)
    |n f q new1 q' Hf (o & t & Hrun)|n f q new1 q' Hf (o & t & Hrun)|f q|n f q|q task
    |n f q item items ? ?].
  - (* watch *)
    pose proof (wp_elim _ _ _ _ _ _ _ _ Hrun (on_job_event_wakes store job o q t))
      as ((new2 & ->%app_inv_head & Hcr) & (Hj & Ha & _) & Hp).
    split; [by eapply conserved_same|].
    eapply attentive_more; [done|done|by rewrite Hj|by auto].
  - (* watch crash *)
    pose proof (wp_elim _ _ _ _ _ _ _ _ Hrun (on_job_event_wakes store job o q t))
      as ((new2 & ->%app_inv_head & Hcr) & (Hj & _) & _). by eapply stop_ok.
  - (* enqueue *)
    pose proof (wp_elim _ _ _ _ _ _ _ _ Hrun (enqueue_appends job ns expire o q t))
      as (? & item & [= <-] & (new2 & ->%app_inv_head & Hcr) & Hj & Ha & _ & Hp).
    split; [by eapply conserved_append|].
    eapply attentive_more; [done|done|rewrite Hj, length_app; lia|by auto].
  - by eapply wake_ok; [split; eassumption| | |eassumption].
  - by eapply wake_ok; [split; eassumption| | |eassumption].
  - pose proof (wp_elim _ _ _ _ _ _ _ _ Hrun (queue_wake_reads o q t))
      as (-> & (new2 & ->%app_inv_head & Hcr) & _). by eapply stop_ok.
  - (* drain *)
    pose proof (wp_elim _ _ _ _ _ _ _ _ Hrun (drain_one_takes n o q t))
      as [Hw _].
    destruct Hatt as (Halive & Hn & Hpend). simpl in *.
    destruct (queue_jobs q) as [|item items] eqn:Hq; simpl in *; [lia|].
    destruct Hw as (-> & new2 & f0 & ->%app_inv_head & Hcr & _).
    split; [by eapply conserved_take|]. unfold attentive. simpl.
    split; [done|]. split; [lia|]. destruct Hpend; [left; lia|by right].
  - (* starved *)
    pose proof (wp_elim _ _ _ _ _ _ _ _ Hrun (drain_one_takes n o q t))
      as [_ Hw].
    destruct Hatt as (_ & Hn & _). simpl in Hn. rewrite Hw in Hn by done. simpl in Hn. lia.
  - (* drain crash *)
    pose proof (wp_elim _ _ _ _ _ _ _ _ Hrun (drain_one_takes n o q t))
      as [Hw _].
    destruct (queue_jobs q) as [|item items] eqn:Hq.
    + destruct Hw as [-> Ht]. apply (stop_ok _ _ _ _ _ _ Hok); [done|].
      rewrite <- (app_nil_r t) in Ht at 2. by apply app_inv_head in Ht as ->.
    + destruct Hw as (-> & new2 & f0 & ->%app_inv_head & Hcr & _).
      split; [by eapply conserved_take|done].
  - split; [by eapply conserved_same|]. destruct Hatt as (Halive & _ & Hpend). simpl in *.
    split; [done|]. intros _. destruct Hpend as [Hp|]; [left|by right]. by apply nil_length_inv.
  - split; [by eapply conserved_same|]. by destruct Hatt as (Halive & _).
  - by eapply stop_ok.
  - split; [by eapply (conserved_take _ _ _ _ _ _ Dropped)|done].
Qed.

Lemma started_ok id : system_ok [] [] (started id).
Proof. split; [by exists [], []|]. split; [done|]. by left. Qed.

Lemma steps_ok id enq new s : steps (started id) enq new s -> system_ok enq new s.
Proof.
  intros Hsteps. remember (started id) as s0 eqn:Hs0.
  induction Hsteps as [|s0 enq new s1 enq1 new1 s2 _ IH Hstep]; subst; [apply started_ok|].
  by eapply step_ok; [apply IH|].
Qed.

(** C4. First in, first out, at most once: whatever the interleaving of the
    watch, the enqueuing tasks, the configuration changes and the shutdown
    with the turns of the queue loop, the submissions of the whole execution
    are those of a prefix of the enqueued items, in the order they were
    enqueued, each submitted at most once, and the other items are exactly
    those still in the queue. *)
Theorem jobs_submitted_once id enq new s :
  steps (started id) enq new s ->
  exists taken fates, enq = taken ++ queue_jobs (sys_queue s) /\ length fates = length taken
    /\ creates new = omap fate_create (zip taken fates).
Proof. intros Hsteps. by apply (steps_ok id). Qed.

(** C5. No wake-up is lost: whenever the queue loop waits without a pending
    event while items are queued, its last run ended because the limit was
    reached; and a run never polls an empty channel (where it would block
    with the lock held): as many items are queued as it still expects. *)
Theorem no_lost_wakeup id enq new s :
  steps (started id) enq new s ->
  match sys_task s with
  | Waiting why => queue_event_pending (sys_queue s) = false ->
      queue_jobs (sys_queue s) <> [] -> why = Full
  | Draining n f => n <= length (queue_jobs (sys_queue s))
      /\ (n < length (queue_jobs (sys_queue s)) -> queue_event_pending (sys_queue s) = true)
  | Stopped => True
  end.
Proof.
  intros [_ Hatt]%steps_ok. unfold attentive in Hatt. destruct (sys_task s) as [why|n f|]; [| |done].
  - intros Hp Hq. destruct why; [|done]. destruct Hatt as [_ Hatt].
    destruct (Hatt eq_refl); congruence.
  - destruct Hatt as (_ & Hn & Hatt). split; [done|]. intros Hlt.
    destruct Hatt as [->|]; [lia|done].
Qed.

(** ** The identity of the queue *)

Lemma on_job_event_identity store job o q t :
  wp (on_job_event store job) o q t (fun _ q' _ => identity q' = identity q).
Proof.
  assert (Hcount : forall job status q1 t1, identity q1 = identity q ->
    wp (count_and_measure_completed job status) o q1 t1 (fun _ q' _ => identity q' = identity q)).
  { intros. by apply wp_silent; [apply count_and_measure_silent|]. }
  assert (Hstatus : forall key job st, wp (on_job_status key job st) o q t
    (fun _ q' _ => identity q' = identity q)).
  { intros key job' st. unfold on_job_status. do 3 wp_step.
    apply (wp_mono _ _ _ _ (fun _ q' _ => identity q' = identity q)).
    - repeat case_match; try done; apply wp_bind, wp_modify; by apply Hcount.
    - intros [[]|] q1 t1 Hq1; [|done]. do 4 wp_step. case_match; [done|by apply wp_modify]. }
  assert (Hgone : forall key job, wp (on_job_gone key job) o q t
    (fun _ q' _ => identity q' = identity q)).
  { intros key job'. unfold on_job_gone. do 4 wp_step.
    repeat case_match; try done; apply wp_bind, wp_modify; by apply Hcount. }
  unfold on_job_event. apply wp_bind.
  apply (wp_mono _ _ _ _ (fun _ q' _ => identity q' = identity q)).
  - destruct job as [job|]; [|done]. do 2 wp_step. case_match; [|done]. do 2 wp_step.
    case_match; [|done]. cbv zeta. case_match; auto.
  - intros [[]|] q1 t1 Hq1; [|done]. apply wp_modify. by case_match.
Qed.

(** The controller keeps its identity. *)
Lemma step_identity s enq new s1 :
  step s enq new s1 -> identity (sys_queue s1) = identity (sys_queue s).
Proof.
  intros Hstep. destruct Hstep as
    [store job q task new q' ? ? (o & t & Hev)|store job q task new q' ? ? (o & t & Hev)
    |job ns expire q task new r q' items (o & t & Hev) Hitems|q why new w q' ? (o & t & Hev)
    |q why new w q' (o & t & Hev)|q why new q' (o & t & Hev)|n f q new created q' Hf (o & t & Hev)
    |n f q new q' Hf (o & t & Hev)|n f q new q' Hf (o & t & Hev)|f q|n f q Hf|q task
    |n f q item items Hf Hq]; simpl; try done.
  - exact (wp_elim _ _ _ _ _ _ _ _ Hev (on_job_event_identity store job o q t)).
  - exact (wp_elim _ _ _ _ _ _ _ _ Hev (on_job_event_identity store job o q t)).
  - assert (Hid : wp (enqueue job ns expire) o (Some q) t (fun _ cell' _ =>
      identity <$> cell' = Some (identity q))).
    { apply wp_enqueue; [done|]. intros q0 now [= <-]. unfold enqueued. simpl. by case_match. }
    pose proof (wp_elim _ _ _ _ _ _ _ _ Hev Hid) as Heq. by injection Heq.
  - by destruct (wp_elim _ _ _ _ _ _ _ _ Hev (queue_wake_reads o _ t)) as [-> _].
  - by destruct (wp_elim _ _ _ _ _ _ _ _ Hev (queue_wake_reads o _ t)) as [-> _].
  - by destruct (wp_elim _ _ _ _ _ _ _ _ Hev (queue_wake_reads o _ t)) as [-> _].
  - destruct (wp_elim _ _ _ _ _ _ _ _ Hev (drain_one_takes n o q t)) as [Hw _].
    destruct (queue_jobs q); by destruct Hw as [-> _].
  - destruct (wp_elim _ _ _ _ _ _ _ _ Hev (drain_one_takes n o q t)) as [Hw _].
    destruct (queue_jobs q); by destruct Hw as [-> _].
  - destruct (wp_elim _ _ _ _ _ _ _ _ Hev (drain_one_takes n o q t)) as [Hw _].
    destruct (queue_jobs q); by destruct Hw as [-> _].
Qed.

(** ** [run_queue] is an execution of the system *)

Lemma steps_once s enq new s1 : step s enq new s1 -> steps s enq new s1.
Proof. intros Hs. by apply (steps_snoc s [] [] s enq new s1); [constructor|]. Qed.

Lemma steps_trans s enq new s1 enq1 new1 s2 :
  steps s enq new s1 -> steps s1 enq1 new1 s2 -> steps s (enq ++ enq1) (new ++ new1) s2.
Proof.
  intros H1 H2. revert H1. induction H2 as [|s1 enq1 new1 s2 enq2 new2 s3 _ IH Hstep]; intros H1.
  - by rewrite !app_nil_r.
  - rewrite !app_assoc. econstructor; [by apply IH|done].
Qed.

Lemma run_queue_loop_turn n f o q t :
  run_queue_loop (S n) f o q t
  = (if bool_decide (0 < f)%Z then
       (created <-- drain_one n ;;
        match created with
        | Some created => run_queue_loop n (spend created f)
        | None => ret tt
        end)%prog
     else ret tt) o q t.
Proof.
  simpl run_queue_loop. case_bool_decide; [|done]. unfold drain_one, bind.
  destruct (recv o q t) as [[[[item|]|] q1] t1]; try done.
  destruct (run_item item o q1 t1) as [[[created|] q2] t2]; [|done].
  by destruct (update_gauges (Z.of_nat n) o q2 t2) as [[[[]|] q3] t3].
Qed.

Lemma run_queue_pieces o q t :
  run_queue o q t
  = (w <-- queue_wake ;;
     match w with Some (n, f) => run_queue_loop n f | None => ret tt end)%prog o q t.
Proof.
  unfold run_queue, queue_wake, bind, get, perform.
  destruct (update_gauges _ o q _) as [[[[]|] q1] t1]; [|done].
  by case_bool_decide.
Qed.

Lemma loop_execution n f o q t q' t' :
  run_queue_loop n f o q t = (Ret tt, q', t') ->
  exists new why, t' = t ++ new /\ steps (Sys q (Draining n f)) [] new (Sys q' (Waiting why)).
Proof.
  revert f q t. induction n as [|n IH]; intros f q t.
  { intros [= <- <-]. exists [], Drained. rewrite app_nil_r. split; [done|].
    apply steps_once. constructor. }
  rewrite run_queue_loop_turn. case_bool_decide as Hf; cycle 1.
  { intros [= <- <-]. exists [], Full. rewrite app_nil_r. split; [done|].
    apply steps_once. constructor. lia. }
  unfold bind. destruct (drain_one n o q t) as [[[c|] q1] t1] eqn:Hturn; [|done].
  assert (Ht1 : exists new, t1 = t ++ new).
  { pose proof (drain_one_takes n o q t) as Hw. unfold wp in Hw. rewrite Hturn in Hw.
    destruct Hw as [Hw _]. destruct (queue_jobs q); [|by destruct Hw as (_ & ? & ? & -> & _); eexists].
    destruct Hw as [_ ->]. exists []. by rewrite app_nil_r. }
  destruct Ht1 as [new1 ->]. intros Hrest. destruct c as [created|].
  - destruct (IH _ _ _ Hrest) as (new2 & why & -> & Hsteps).
    exists (new1 ++ new2), why. rewrite app_assoc. split; [done|].
    eapply (steps_trans _ [] _ _ []); [|exact Hsteps]. apply steps_once. econstructor; [done|].
    by exists o, t.
  - injection Hrest as <- <-. exists new1, Drained. split; [done|].
    apply steps_once. constructor; [done|]. by exists o, t.
Qed.

(** The sequential [run_queue] is one of the behaviours of the system: a
    call that returns, with no watch event or enqueuing between its awaits,
    is an execution from the waiting queue loop that took the event back to
    a waiting queue loop, with the same calls and the same final queue. *)
Theorem run_queue_refines q why new q' :
  queue_event_pending q = true ->
  runs run_queue (with_event_pending false q) new tt q' ->
  exists why', steps (Sys q (Waiting why)) [] new (Sys q' (Waiting why')).
Proof.
  intros Hpend (o & t & Hrun). rewrite run_queue_pieces in Hrun. unfold bind in Hrun.
  destruct (queue_wake o (with_event_pending false q) t) as [[[w|] q1] t1] eqn:Hwake; [|done].
  pose proof (queue_wake_reads o (with_event_pending false q) t) as Hw. unfold wp in Hw.
  rewrite Hwake in Hw. destruct Hw as (-> & (new1 & -> & _) & _).
  assert (Hstep : step (Sys q (Waiting why)) [] new1
    (Sys (with_event_pending false q) (task_after_wake w))).
  { apply step_event; [done|]. by exists o, t. }
  destruct w as [[n f]|].
  - destruct (loop_execution _ _ _ _ _ _ _ Hrun) as (new2 & why' & Heq & Hsteps).
    rewrite <- app_assoc in Heq. apply app_inv_head in Heq as ->. exists why'.
    eapply (steps_trans _ [] _ _ []); [by apply steps_once|exact Hsteps].
  - injection Hrun as <- Heq. apply app_inv_head in Heq as <-. exists Full. by apply steps_once.
Qed.

(** ** The limit between two reports of the watch *)

Section burst.
Context (id ns : string) (config : RuntimeConfig).
Context (Hmax : (1 <= max_running_jobs (rc_action config) <= i64_max)%Z).

Let o := quiet_services 0%Z config.

(** The trace submits [jobs], all accepted, and reads no configuration but
    [config]. *)
Definition submits (jobs : list Job) new : Prop :=
  creates new = (fun job => (ns, labelled_job id ns job, true)) <$> jobs
  /\ Forall (fun e => match e with
                      | Ev c r => match c as c return resp c -> Prop with
                                  | GetConfig => fun r => r = config
                                  | _ => fun _ => True
                                  end r
                      end) new.

Lemma submits_app jobs new jobs' new' :
  submits jobs new -> submits jobs' new' -> submits (jobs ++ jobs') (new ++ new').
Proof.
  intros [H1 H2] [H3 H4]. split; [by rewrite creates_app, fmap_app, H1, H3|].
  by apply Forall_app.
Qed.

Definition gauge_events (running waiting : Z) : trace :=
  [Ev (GaugeSet JobsQueueRunning running) tt; Ev GetConfig config;
   Ev (GaugeSet JobsQueueLimit (max_running_jobs (rc_action config))) tt;
   Ev (GaugeSet JobsQueueWaiting waiting) tt].

Lemma quiet_gauges n q t : (running_jobs q <= i64_max)%Z -> (n <= i64_max)%Z ->
  update_gauges n o q t = (Ret tt, q, t ++ gauge_events (running_jobs q) n).
Proof.
  intros Hq Hn. unfold update_gauges, usize_to_i64, bind, get, perform, unwrap, ret. simpl.
  rewrite !bool_decide_eq_true_2 by (done || lia). simpl. by rewrite <- !app_assoc.
Qed.

Definition burst_item (job : Job) : JobsQueueItem :=
  {| item_job := labelled_job id ns job; enqueued_at := 0%Z; expire_after := Some 0%Z |}.

(** The queue object with the given items, before anything was reported. *)
Definition unreported (items : list JobsQueueItem) (pending : bool) : JobsQueue := {|
  identity := id; queue_jobs := items; running_jobs := 0%Z; statuses := ∅;
  queue_event_alive := true; queue_event_pending := pending |}.

Lemma burst_wake items t : (Z.of_nat (length items) <= i64_max)%Z ->
  queue_wake o (unreported items false) t
  = (Ret (Some (length items, max_running_jobs (rc_action config))), unreported items false,
     t ++ Ev GetConfig config :: gauge_events 0 (Z.of_nat (length items))).
Proof.
  intros Hlen. unfold queue_wake, bind, get, perform. simpl. rewrite quiet_gauges by done.
  rewrite bool_decide_eq_false_2 by lia. unfold ret. simpl.
  by rewrite Z.sub_0_r, <- app_assoc.
Qed.

Lemma burst_drain job items n t : (Z.of_nat n <= i64_max)%Z -> exists new,
  drain_one n o (unreported (burst_item job :: items) false) t
  = (Ret (Some true), unreported items false, t ++ new) /\ submits [job] new.
Proof.
  intros Hn. eexists. unfold drain_one, recv, run_item, is_expired, measure_waiting_duration, bind, get, put,
    perform, unwrap, ret. simpl. rewrite quiet_gauges by done. rewrite <- !app_assoc.
  split; [reflexivity|]. by repeat constructor.
Qed.

(** One job enqueued and started, the watch silent: the system is back
    where it was. *)
Lemma burst_one job : exists new,
  steps (started id) [burst_item job] new (started id) /\ submits [job] new.
Proof.
  destruct (burst_drain job [] 0 []) as (new & Hdrain & Hnew); [done|].
  eexists ([Ev SystemNow 0%Z] ++ (Ev GetConfig config :: gauge_events 0 1) ++ new ++ []).
  split; [|by apply (submits_app [] _ [job]); [|apply (submits_app [] _ [job]); [|
    rewrite app_nil_r]]; [by repeat constructor..|]].
  apply (steps_trans _ [burst_item job] _ (Sys (unreported [burst_item job] true) (Waiting Drained))
    []).
  { apply steps_once. eapply (step_enqueue job ns (Some 0%Z) _ _ _ (Ok tt)); [|reflexivity].
    exists o, []. reflexivity. }
  eapply (steps_trans _ [] _ _ []).
  { apply steps_once, step_event; [done|]. exists o, []. by apply burst_wake. }
  eapply (steps_trans _ [] _ _ []).
  { apply steps_once, step_drain; [lia|]. exists o, []. apply Hdrain. }
  simpl. apply steps_once. constructor.
Qed.

Lemma burst_all jobs : exists enq new,
  steps (started id) enq new (started id) /\ submits jobs new.
Proof.
  induction jobs as [|job jobs (enq & new & Hsteps & Hsub)]; [by exists [], []; repeat constructor|].
  destruct (burst_one job) as (new1 & Hone & Hsub1).
  exists ([burst_item job] ++ enq), (new1 ++ new).
  split; [by eapply steps_trans|by apply (submits_app [job])].
Qed.
End burst.

(** C39. The limit only counts what the watch reported: for every limit and
    every list of jobs there is an execution, with the configuration fixed,
    in which the queue loop submits them all, the API accepts them all, and
    [running_jobs] is still zero.  A run reads the counter at its start and
    forgets, when it ends, the jobs it created; only the watch counts them,
    so jobs enqueued one after the other before the first report all start. *)
Theorem limit_not_enforced_before_report id ns config jobs :
  (1 <= max_running_jobs (rc_action config) <= i64_max)%Z ->
  exists enq new s, steps (started id) enq new s
    /\ submits id ns config jobs new
    /\ running_jobs (sys_queue s) = 0%Z /\ sys_task s <> Stopped.
Proof.
  intros Hmax. destruct (burst_all id ns config Hmax jobs) as (enq & new & Hsteps & Hsub).
  by exists enq, new, (started id).
Qed.

End JobsSystem.

(** ** Lawful executions *)

Section JobsLaw.
Context `{Ext}.
Implicit Types (q : JobsQueue) (o : services) (t new : trace).

(** Every report is considered. *)
Definition any_event q (store : ObjectRef -> option Job) (job : option Job) : Prop := True.

(** Reports of this controller's jobs, each of which lives as the handler
    expects: it is seen unfinished first and keeps its final status. *)
Definition lawful q (store : ObjectRef -> option Job) (job : option Job) : Prop :=
  expected_observation (statuses q) (observed store job) /\ our_job job.

(** The jobs the watch knows are untouched. *)
Definition same_jobs q q' : Prop :=
  running_jobs q' = running_jobs q /\ statuses q' = statuses q.

Lemma counter_ok_same q q' : counter_ok q -> same_jobs q q' -> counter_ok q'.
Proof. unfold counter_ok. by intros Hok [-> ->]. Qed.

Lemma drain_one_same n o q t : wp (drain_one n) o q t (fun _ q' _ => same_jobs q q').
Proof.
  eapply wp_mono; [apply drain_one_takes|]. intros r q' t' [Hq _].
  destruct (queue_jobs q); destruct Hq as [-> _]; by split.
Qed.

Lemma step_counter s enq new s' :
  counter_ok (sys_queue s) -> step lawful s enq new s' -> counter_ok (sys_queue s').
Proof.
  intros Hok Hstep. destruct Hstep as
    [store job q task new q' _ [Hexp _] (o & t & Hrun)|store job q task new q' _ [_ Hour] (o & t & Hrun)
    |job ns expire q task new r q' items (o & t & Hrun) Hitems|q why new w q' _ (o & t & Hrun)
    |q why new w q' (o & t & Hrun)|q why new q' (o & t & Hrun)|n f q new created q' Hf (o & t & Hrun)
    |n f q new q' Hf (o & t & Hrun)|n f q new q' Hf (o & t & Hrun)|f q|n f q|q task
    |n f q item items ? ?]; simpl in *.
  - by apply (wp_elim _ _ _ _ _ _ _ _ Hrun (on_job_event_counter store job o q t Hok Hexp)).
  - by destruct (wp_elim _ _ _ _ _ _ _ _ Hrun (on_job_event_completes store job o q t Hour)).
  - revert Hrun. unfold enqueue, bind, get, perform, modify. simpl.
    destruct (queue_event_alive q) eqn:Halive; simpl; intros [= <- <- _]; exact Hok.
  - by destruct (wp_elim _ _ _ _ _ _ _ _ Hrun (queue_wake_reads _ _ _)) as [-> _].
  - by destruct (wp_elim _ _ _ _ _ _ _ _ Hrun (queue_wake_reads _ _ _)) as [-> _].
  - by destruct (wp_elim _ _ _ _ _ _ _ _ Hrun (queue_wake_reads _ _ _)) as [-> _].
  - eapply counter_ok_same; [exact Hok|].
    exact (wp_elim _ _ _ _ _ _ _ _ Hrun (drain_one_same n o q t)).
  - eapply counter_ok_same; [exact Hok|].
    exact (wp_elim _ _ _ _ _ _ _ _ Hrun (drain_one_same n o q t)).
  - eapply (counter_ok_same q); [exact Hok|].
    exact (wp_elim _ _ _ _ _ _ _ _ Hrun (drain_one_same n o q t)).
  - exact Hok.
  - exact Hok.
  - exact Hok.
  - exact Hok.
Qed.

Lemma steps_counter id enq new s :
  steps lawful (started id) enq new s -> counter_ok (sys_queue s).
Proof.
  intros Hsteps. remember (started id) as s0 eqn:Hs0.
  induction Hsteps; subst; [done|]. by eapply step_counter; [apply IHHsteps|].
Qed.

(** C9. The running counter is exact: in every state that a lawful execution
    of the whole system reaches, whatever was enqueued, submitted or shut
    down in between, [running_jobs] is the number of jobs whose last reported
    status is neither succeeded nor failed. *)
Theorem counter_exact id enq new s :
  steps lawful (started id) enq new s ->
  running_jobs (sys_queue s) = wrap_usize (Z.of_nat (size (active (statuses (sys_queue s))))).
Proof. apply steps_counter. Qed.

Lemma counter_fits q : counter_ok q -> (Z.of_nat (size (statuses q)) <= i64_max)%Z ->
  (running_jobs q <= i64_max)%Z.
Proof.
  intros -> Hsize.
  assert (size (active (statuses q)) <= size (statuses q)).
  { apply map_subseteq_size, map_filter_subseteq. }
  rewrite wrap_usize_small; [lia|]. unfold usize_max, u64_max, i64_max in *. lia.
Qed.

Lemma queue_wake_completes o q t :
  limits_fit o -> (running_jobs q <= i64_max)%Z -> (Z.of_nat (length (queue_jobs q)) <= i64_max)%Z ->
  wp queue_wake o q t (fun r _ _ => r <> Panic).
Proof.
  intros Hlim Hrun Hlen. unfold queue_wake. do 5 wp_step.
  eapply wp_mono; [by apply update_gauges_completes|].
  intros [[]|] q' t' [? _]; [|done]. by case_bool_decide; wp_step.
Qed.

Lemma drain_one_completes n o q t :
  limits_fit o -> (running_jobs q <= i64_max)%Z -> (Z.of_nat n <= i64_max)%Z ->
  Forall (item_ready o t) (queue_jobs q) ->
  wp (drain_one n) o q t (fun r _ _ => r <> Panic).
Proof.
  intros Hlim Hrun Hn Hall. unfold drain_one, recv. apply wp_bind, wp_bind, wp_get.
  destruct (queue_jobs q) as [|item items]; [by wp_run|].
  inversion_clear Hall as [|? ? [Hjob Htime] _]. wp_step. wp_step. wp_step. wp_step.
  eapply wp_mono; [by apply run_item_completes|]. intros [b|] q' t' [? ->]; [|done]. wp_step.
  eapply wp_mono; [by apply update_gauges_completes|].
  intros [[]|] q' t'' [? ->]; [|done]. by wp_step.
Qed.

(** The next piece of the queue loop that can run in [s] does not panic. *)
Definition next_survives o t (s : system) : Prop :=
  let q := sys_queue s in
  match sys_task s with
  | Waiting _ =>
      wp queue_wake o q t (fun r _ _ => r <> Panic)
      /\ wp queue_wake o (with_event_pending false q) t (fun r _ _ => r <> Panic)
  | Draining (S n) _ => wp (drain_one n) o q t (fun r _ _ => r <> Panic)
  | Draining 0 _ | Stopped => True
  end
  /\ forall store job, lawful q store job ->
       wp (on_job_event store job) o q t (fun r _ _ => r <> Panic).

(** The queue task does not die: in every state that a lawful execution
    reaches, with fewer than 2^63 jobs seen and queued, a limit that fits the
    gauge, and items that the metrics can label and whose deadlines are
    representable on a clock that does not go behind their enqueueing, the
    next turn of the queue loop and the next report of the watch complete
    without a panic, whatever the API answers. *)
Lemma steps_survive id enq new s o t :
  steps lawful (started id) enq new s ->
  limits_fit o ->
  (Z.of_nat (size (statuses (sys_queue s))) <= i64_max)%Z ->
  (Z.of_nat (length (queue_jobs (sys_queue s))) <= i64_max)%Z ->
  Forall (item_ready o t) enq ->
  next_survives o t s.
Proof.
  intros Hsteps Hlim Hsize Hlen Hready.
  pose proof (counter_fits _ (steps_counter _ _ _ _ Hsteps) Hsize) as Hrun.
  apply steps_ok in Hsteps as [(taken & fates & -> & _) Hatt].
  apply Forall_app in Hready as [_ Hready].
  split; [|by intros store job [_ Hour]; apply on_job_event_completes].
  unfold attentive in Hatt. destruct (sys_task s) as [why|[|n] f|]; [| done| |done].
  - by split; apply queue_wake_completes.
  - destruct Hatt as (_ & Hn & _). apply drain_one_completes; [done|done|lia|done].
Qed.

End JobsLaw.

(** ** Examples *)

#[local] Existing Instance example_ext.

Lemma default_limit_fits :
  (1 <= max_running_jobs (rc_action RuntimeConfig_default) <= i64_max)%Z.
Proof. done. Qed.

Lemma jobs_submitted_once_witness : exists enq new,
  steps any_event (started "me") enq new (started "me") /\ enq = [burst_item "me" "ci" example_job]
  /\ exists taken fates, enq = taken ++ [] /\ length fates = length taken
    /\ creates new = omap fate_create (zip taken fates).
Proof.
  destruct (burst_one any_event "me" "ci" RuntimeConfig_default default_limit_fits example_job)
    as (new & Hsteps & _).
  exists [burst_item "me" "ci" example_job], new. split; [done|]. split; [done|].
  exact (jobs_submitted_once any_event "me" _ _ _ Hsteps).
Defined.

(** One job enqueued, the queue loop not yet awake. *)
Definition one_waiting : system :=
  Sys (unreported "me" [burst_item "me" "ci" example_job] true) (Waiting Drained).

Lemma one_waiting_reached law :
  steps law (started "me") [burst_item "me" "ci" example_job] [Ev SystemNow 0%Z] one_waiting.
Proof.
  apply steps_once. eapply (step_enqueue law example_job "ci" (Some 0%Z) _ _ _ (Ok tt)); [|reflexivity].
  exists (quiet_services 0%Z RuntimeConfig_default), []. reflexivity.
Qed.

Lemma no_lost_wakeup_witness :
  queue_jobs (sys_queue one_waiting) <> [] /\
  (queue_event_pending (sys_queue one_waiting) = false ->
   queue_jobs (sys_queue one_waiting) <> [] -> Drained = Full).
Proof.
  split; [done|]. exact (no_lost_wakeup any_event "me" _ _ _ (one_waiting_reached any_event)).
Defined.

Lemma run_queue_refines_witness :
  exists new, runs run_queue (unreported "me" [burst_item "me" "ci" example_job] false) new tt
      (unreported "me" [] false)
  /\ exists why', steps any_event one_waiting [] new (Sys (unreported "me" [] false) (Waiting why')).
Proof.
  exists (run_queue (quiet_services 0%Z RuntimeConfig_default)
    (unreported "me" [burst_item "me" "ci" example_job] false) []).2. split.
  - exists (quiet_services 0%Z RuntimeConfig_default), []. reflexivity.
  - apply (run_queue_refines any_event (sys_queue one_waiting) Drained); [done|].
    exists (quiet_services 0%Z RuntimeConfig_default), []. reflexivity.
Defined.

Lemma limit_not_enforced_before_report_witness :
  exists enq new s, steps any_event (started "me") enq new s
    /\ submits "me" "ci" RuntimeConfig_default (replicate 40 example_job) new
    /\ running_jobs (sys_queue s) = 0%Z /\ sys_task s <> Stopped.
Proof.
  apply (limit_not_enforced_before_report any_event "me" "ci" RuntimeConfig_default).
  exact default_limit_fits.
Defined.

(** The same system after the watch reported the job as unfinished. *)
Definition one_seen : system :=
  Sys {| identity := "me"; queue_jobs := [burst_item "me" "ci" example_job]; running_jobs := 1%Z;
         statuses := {[ ("ci", "build-1") := example_status None "a" ]};
         queue_event_alive := true; queue_event_pending := true |} (Waiting Drained).

Lemma one_seen_reached :
  steps lawful (started "me") ([burst_item "me" "ci" example_job] ++ [])
    ([Ev SystemNow 0%Z] ++ []) one_seen.
Proof.
  apply (steps_snoc _ _ _ _ one_waiting [] [] _ (one_waiting_reached lawful)).
  apply (step_watch _ (example_store (example_status None "a")) (Some example_job)); [done| |].
  - split; [by vm_compute|]. split; [by eexists|apply example_job_measurable].
  - exists (quiet_services 0%Z RuntimeConfig_default), []. reflexivity.
Qed.

Lemma counter_exact_witness :
  running_jobs (sys_queue one_seen) = 1%Z
  /\ running_jobs (sys_queue one_seen)
     = wrap_usize (Z.of_nat (size (active (statuses (sys_queue one_seen))))).
Proof. split; [done|]. exact (counter_exact "me" _ _ _ one_seen_reached). Defined.
