(* ===== verification/JobsLiveness.v ===== *)
(** * The jobs queue: progress

    When the queue loop waits while jobs are queued, something that has not
    happened yet will wake it; and when it is awake with a free place, it
    takes the oldest job. *)

From stdpp Require Import base option gmap strings list.
From Stdlib Require Import ZArith Lia.
From S2P Require Import Prelude Strs Time Errors Config Ext Resources World Jobs JobsFacts JobsSystem.
Local Open Scope string_scope.
Local Open Scope list_scope.

Section JobsLiveness.
Context `{Ext}.
Implicit Types (q : JobsQueue) (o : services) (t new : trace).

(** The watch is silent. *)
Definition no_report q (store : ObjectRef -> option Job) (job : option Job) : Prop := False.

(** Every configuration that was read allows a job to run. *)
Definition allows_jobs (e : event resp) : Prop :=
  match e with
  | Ev c r =>
      match c as c return resp c -> Prop with
      | GetConfig => fun config => (0 < max_running_jobs (rc_action config))%Z
      | _ => fun _ => True
      end r
  end.

(** The jobs the API accepted. *)
Definition accepted_jobs new : list (string * Job * bool) :=
  filter (fun x => x.2 = true) (creates new).

(** The execution to [s] ends with steps without a report of the watch and
    without a new item, and makes the calls [last] in them. *)
Definition quiet_since id enq new (s : system) (last : trace) : Prop :=
  exists s1 before, new = before ++ last
    /\ steps lawful (started id) enq before s1 /\ steps no_report s1 [] last s.

(** A job was accepted that the watch has not reported. *)
Definition unreported_job id enq new (s : system) : Prop :=
  exists last, quiet_since id enq new s last /\ accepted_jobs last <> [].

Lemma accepted_jobs_app new new' :
  accepted_jobs (new ++ new') = accepted_jobs new ++ accepted_jobs new'.
Proof. unfold accepted_jobs. by rewrite creates_app, filter_app. Qed.

Lemma quiet_more id enq new s last new1 s1 :
  quiet_since id enq new s last -> step no_report s [] new1 s1 ->
  quiet_since id enq (new ++ new1) s1 (last ++ new1).
Proof.
  intros (s0 & before & -> & Hbefore & Hlast) Hstep. exists s0, before.
  rewrite app_assoc. split; [done|]. split; [done|].
  change [] with (@nil JobsQueueItem ++ []). by econstructor.
Qed.

Lemma quiet_start id enq new s : steps lawful (started id) enq new s -> quiet_since id enq new s [].
Proof. intros Hsteps. exists s, new. rewrite app_nil_r. split; [done|]. split; [done|constructor]. Qed.

(** Why a waiting loop left jobs in the queue: its limit was used up by jobs
    that run, or by jobs it created itself. *)
Definition limit_used id enq new (s : system) : Prop :=
  (0 < running_jobs (sys_queue s))%Z \/ unreported_job id enq new s.

Definition anchored id enq new (s : system) : Prop :=
  queue_event_pending (sys_queue s) = true \/
  match sys_task s with
  | Waiting Full => limit_used id enq new s
  | Draining _ f => exists limit last, (0 < limit)%Z /\ quiet_since id enq new s last
      /\ f = (limit - running_jobs (sys_queue s) - Z.of_nat (length (accepted_jobs last)))%Z
  | Waiting Drained | Stopped => True
  end.

(** What a wake decides, from the configuration it read. *)
Lemma queue_wake_limit o q t :
  wp queue_wake o q t (fun r q' t' => q' = q /\ exists rest,
    t' = t ++ Ev GetConfig (o t GetConfig) :: rest /\ creates rest = []
    /\ let limit := max_running_jobs (rc_action (o t GetConfig)) in
       (r = Panic \/ r = Ret (if bool_decide (limit < running_jobs q)%Z then None
                              else Some (length (queue_jobs q), (limit - running_jobs q)%Z)))).
Proof.
  unfold queue_wake. do 5 wp_step. apply wp_silent; [apply update_gauges_silent|].
  intros g new Hnew. rewrite <- app_assoc. subst r.
  destruct g as [[]|]; [|split; [done|]; exists new; auto].
  case_bool_decide as Hlt; wp_step; (split; [done|]; exists new);
    (split; [done|]; split; [done|]); right;
    by rewrite ?(bool_decide_eq_true_2 _ Hlt), ?(bool_decide_eq_false_2 _ Hlt).
Qed.

Lemma wake_anchored id enq new q new1 w q1 :
  steps lawful (started id) (enq ++ []) (new ++ new1) (Sys q1 (task_after_wake w)) ->
  Forall allows_jobs new1 -> runs queue_wake q new1 w q1 ->
  anchored id (enq ++ []) (new ++ new1) (Sys q1 (task_after_wake w)).
Proof.
  intros Hsteps Hallow (o & t & Hrun).
  pose proof (wp_elim _ _ _ _ _ _ _ _ Hrun (queue_wake_limit o q t))
    as (-> & rest & Heq & _ & [?|[= ->]]); [done|].
  apply app_inv_head in Heq as ->. inversion_clear Hallow as [|? ? Hlimit _]. simpl in Hlimit.
  right. case_bool_decide as Hlt; simpl.
  - left. simpl. lia.
  - exists (max_running_jobs (rc_action (o t GetConfig))), []. split; [done|].
    split; [by apply quiet_start|]. simpl. lia.
Qed.

(** A turn that returns counts the job it created. *)
Lemma drain_counts n q new created q' :
  runs (drain_one n) q new (Some created) q' ->
  queue_event_pending q' = queue_event_pending q /\ running_jobs q' = running_jobs q
  /\ length (accepted_jobs new) = if created then 1 else 0.
Proof.
  intros (o & t & Hrun).
  pose proof (wp_elim _ _ _ _ _ _ _ _ Hrun (drain_one_takes n o q t)) as [Hw _].
  destruct (queue_jobs q) as [|item items] eqn:Hq.
  - exfalso. revert Hrun. unfold drain_one, recv, bind, get. by rewrite Hq.
  - destruct Hw as (-> & new2 & f & ->%app_inv_head & Hcr & Hc).
    rewrite (Hc created eq_refl). split; [done|]. split; [done|].
    unfold accepted_jobs. rewrite Hcr. by destruct f.
Qed.

Lemma step_anchored id enq new s enq1 new1 s1 :
  steps lawful (started id) (enq ++ enq1) (new ++ new1) s1 ->
  attentive s -> Forall allows_jobs new1 ->
  anchored id enq new s -> step lawful s enq1 new1 s1 ->
  anchored id (enq ++ enq1) (new ++ new1) s1.
Proof.
  intros Hsteps Hatt Hallow Hanch Hstep. destruct Hstep as
    [store job q task new1 q' Ht ? (o & t & Hrun)|? ? ? ? ? ? ? ? ?
    |job ns expire q task new1 r q' items (o & t & Hrun) Hitems|q why new1 w q' ? ?
    |q why new1 w q' ?|? ? ? ? ?|n f q new1 created q' Hf Hrun
    |? ? ? ? ? ? ?|? ? ? ? ? ? ?|f q|n f q Hf|q task|? ? ? ? ? ? ?]; try by right.
  - (* watch *)
    pose proof (wp_elim _ _ _ _ _ _ _ _ Hrun (on_job_event_wakes store job o q t)) as (_ & _ & Hp).
    left. apply Hp; [done|]. unfold attentive in Hatt. simpl in Hatt.
    by destruct task; [apply Hatt|apply Hatt|].
  - (* enqueue *)
    pose proof (wp_elim _ _ _ _ _ _ _ _ Hrun (enqueue_appends job ns expire o q t))
      as (? & item & [= <-] & _ & _ & _ & _ & Hp).
    destruct task as [why|m f|]; [| |by right]; left; apply Hp; apply Hatt.
  - by eapply wake_anchored.
  - by eapply wake_anchored.
  - (* drain *)
    pose proof Hrun as (o & t & Hrun').
    pose proof (drain_counts n q new1 created q' Hrun) as (Hpend & Hrunning & Hcount).
    destruct Hanch as [Hp|(limit & last & Hlimit & Hquiet & Heq)]; [left; simpl in *; congruence|].
    right. exists limit, (last ++ new1). split; [done|]. rewrite !app_nil_r in *. split.
    { eapply quiet_more; [exact Hquiet|]. by apply step_drain. }
    simpl. rewrite accepted_jobs_app, length_app, Hcount, Hrunning.
    destruct created; unfold spend; simpl in *; lia.
  - (* full *)
    rewrite !app_nil_r in *. destruct Hanch as [Hp|(limit & last & Hlimit & Hquiet & Heq)]; [by left|].
    right. simpl in *. destruct (decide (0 < running_jobs q)%Z); [by left|right].
    exists last. split; [|intros Hnil; rewrite Hnil in Heq; simpl in Heq; lia].
    rewrite <- (app_nil_r last), <- (app_nil_r new). eapply quiet_more; [exact Hquiet|].
    by apply step_full.
Qed.

Lemma steps_anchored id enq new s :
  steps lawful (started id) enq new s -> Forall allows_jobs new -> anchored id enq new s.
Proof.
  intros Hsteps. remember (started id) as s0 eqn:Hs0.
  induction Hsteps as [|s0 enq new s1 enq1 new1 s2 Hsteps IH Hstep]; subst; [by right|].
  intros [Hallow Hallow1]%Forall_app.
  eapply step_anchored; [by econstructor| |done|by apply IH|done].
  by apply (steps_ok lawful id enq new).
Qed.

Lemma used_by_jobs id enq new s :
  steps lawful (started id) enq new s -> limit_used id enq new s ->
  active (statuses (sys_queue s)) <> ∅ \/ unreported_job id enq new s.
Proof.
  intros Hsteps [Hrun|?]; [left|by right]. intros Hnone.
  pose proof (steps_counter _ _ _ _ Hsteps) as Hcount. unfold counter_ok in Hcount.
  rewrite Hnone, map_size_empty in Hcount. by rewrite Hcount in Hrun.
Qed.

(** C6. The queue is never stuck.  In every execution with limits of at least
    one job in which the watch reports the jobs as they live: when the queue
    loop waits, without a pending event, while jobs are queued, then the limit
    is used up by something that is still to be reported - a job last seen
    unfinished, or a job the API accepted in the last steps of the execution,
    in which there was no report of the watch; and whatever report comes next
    raises the event that wakes the loop. *)
Theorem never_stuck id enq new s why :
  steps lawful (started id) enq new s -> Forall allows_jobs new ->
  sys_task s = Waiting why -> queue_event_pending (sys_queue s) = false ->
  queue_jobs (sys_queue s) <> [] ->
  (active (statuses (sys_queue s)) <> ∅ \/ unreported_job id enq new s)
  /\ forall store job o t, wp (on_job_event store job) o (sys_queue s) t (fun r q' _ =>
       r = Ret tt -> queue_event_pending q' = true).
Proof.
  intros Hsteps Hallow Htask Hpend Hjobs.
  pose proof (steps_ok lawful _ _ _ _ Hsteps) as [_ Hatt]. unfold attentive in Hatt.
  rewrite Htask in Hatt. destruct Hatt as [Halive Hwhy]. split.
  - eapply used_by_jobs; [done|].
    destruct (steps_anchored _ _ _ _ Hsteps Hallow) as [?|Hanch]; [congruence|].
    rewrite Htask in Hanch. destruct why; [|done].
    destruct (Hwhy eq_refl); congruence.
  - intros store job o t. eapply wp_mono; [apply on_job_event_wakes|].
    intros r q' t' (_ & _ & Hp). auto.
Qed.
(** ** The oldest job is served *)

(** The time after which an item is given up. *)
Definition deadline (config : RuntimeConfig) (item : JobsQueueItem) : Z :=
  (enqueued_at item + unwrap_or (from_secs (job_waiting_timeout_seconds (rc_action config)))
     (expire_after item))%Z.

(** The calls [new] submit the job of [item] to its namespace, with the answer
    [created], unless they read a clock past its deadline. *)
Definition served item new (created : bool) : Prop :=
  exists config now ns, Ev GetConfig config ∈ new /\ Ev SystemNow now ∈ new
    /\ om_namespace (job_metadata (item_job item)) = Some ns
    /\ if bool_decide (now <= deadline config item)%Z
       then creates new = [(ns, item_job item, created)]
       else creates new = [] /\ created = false.

Lemma drain_one_serves n o q t item items :
  queue_jobs q = item :: items -> limits_fit o -> (running_jobs q <= i64_max)%Z ->
  (Z.of_nat n <= i64_max)%Z -> Forall (item_ready o t) (queue_jobs q) ->
  wp (drain_one n) o q t (fun r q' t' => exists new created, t' = t ++ new
    /\ r = Ret (Some created) /\ q' = with_queue_jobs items q /\ served item new created).
Proof.
  intros Hq Hlim Hrun Hn Hall. rewrite Hq in Hall.
  inversion_clear Hall as [|? ? [Hjob Htime] _].
  unfold drain_one, recv. apply wp_bind, wp_bind, wp_get. rewrite Hq.
  wp_step. wp_step. wp_step. wp_step.
  eapply wp_mono; [apply wp_and; [by apply run_item_completes|apply run_item_expiry]|].
  intros r q' t' [[Hr ->] [?|(config & now & rest & ns & -> & Hns & Hcr)]]; [done|].
  destruct r as [created|]; [|done]. wp_step.
  eapply wp_mono; [apply wp_and; [by apply update_gauges_completes|apply update_gauges_silent]|].
  intros r q' t' [[Hr' ->] [_ (new & -> & Hnew)]]. destruct r as [[]|]; [|done]. wp_step.
  eexists (_ ++ new), created. split; [by rewrite <- app_assoc|]. do 2 (split; [done|]).
  exists config, now, ns. split; [set_solver|]. split; [set_solver|]. split; [done|].
  cbv zeta in Hcr. fold (deadline config item) in Hcr.
  change (creates ((Ev GetConfig config :: Ev SystemNow now :: rest) ++ new))
    with (creates (rest ++ new)). rewrite creates_app, Hnew, app_nil_r.
  case_bool_decide; [by destruct Hcr as (? & -> & [= ->])|]. by destruct Hcr as [-> [= ->]].
Qed.

(** C8. The oldest job is served.  In every state that an execution with a
    lawful watch reaches in which the queue loop waits with a pending event,
    jobs are queued, and the limit it is going to read exceeds the running
    jobs: its next two turns wake it with a free place and take the oldest
    item, which is submitted exactly if its deadline has not passed; nothing
    in between panics or is skipped, and it does not matter whether the API
    accepts the job.  The limits fit the gauge, there are fewer than 2^63 jobs
    seen and queued, and every item carries its namespace and labels, was
    enqueued before the clock's reading and has a deadline that can be
    represented. *)
Theorem head_served id enq new s why item items o t :
  steps lawful (started id) enq new s ->
  sys_task s = Waiting why -> queue_event_pending (sys_queue s) = true ->
  queue_jobs (sys_queue s) = item :: items ->
  (running_jobs (sys_queue s) < max_running_jobs (rc_action (o t GetConfig)))%Z ->
  limits_fit o -> (Z.of_nat (size (statuses (sys_queue s))) <= i64_max)%Z ->
  (Z.of_nat (length (queue_jobs (sys_queue s))) <= i64_max)%Z ->
  Forall (item_ready o t) enq ->
  exists new1 new2 free created q',
    queue_wake o (with_event_pending false (sys_queue s)) t
      = (Ret (Some (S (length items), free)), with_event_pending false (sys_queue s), t ++ new1)
    /\ (0 < free)%Z
    /\ drain_one (length items) o (with_event_pending false (sys_queue s)) (t ++ new1)
      = (Ret (Some created), q', (t ++ new1) ++ new2)
    /\ queue_jobs q' = items /\ served item new2 created
    /\ steps lawful s [] (new1 ++ new2) (Sys q' (Draining (length items) (spend created free))).
Proof.
  intros Hsteps Htask Hpend Hjobs Hlimit Hlim Hsize Hlen Hready.
  pose proof (counter_fits _ (steps_counter _ _ _ _ Hsteps) Hsize) as Hrun.
  apply (steps_ok lawful) in Hsteps as [(taken & fates & -> & _) _].
  apply Forall_app in Hready as [_ Hready].
  destruct s as [q task]. simpl in *. subst task. set (q0 := with_event_pending false q).
  pose proof (queue_wake_limit o q0 t) as Hwake.
  pose proof (queue_wake_completes o q0 t Hlim Hrun Hlen) as Hret.
  unfold wp in Hwake, Hret. destruct (queue_wake o q0 t) as [[r q1] t1] eqn:Hw.
  destruct Hwake as (-> & rest & -> & _ & [?| ->]); [done|].
  change (running_jobs q0) with (running_jobs q) in *.
  rewrite bool_decide_eq_false_2 in * by lia. change (queue_jobs q0) with (queue_jobs q) in *.
  rewrite Hjobs in *. set (new1 := Ev GetConfig (o t GetConfig) :: rest) in *.
  assert (Hdrain : wp (drain_one (length items)) o q0 (t ++ new1) (fun r q' t' =>
    exists new created, t' = (t ++ new1) ++ new /\ r = Ret (Some created)
      /\ q' = with_queue_jobs items q0 /\ served item new created)).
  { apply drain_one_serves; [done|done|exact Hrun|simpl in Hlen; lia|].
    apply items_ready_later. unfold q0. simpl. by rewrite Hjobs. }
  unfold wp in Hdrain. destruct (drain_one _ o q0 (t ++ new1)) as [[r q'] t'] eqn:Hd.
  destruct Hdrain as (new2 & created & -> & -> & -> & Hserved).
  eexists new1, new2, _, created, (with_queue_jobs items q0).
  split; [reflexivity|]. split; [lia|]. split; [exact Hd|]. split; [done|]. split; [done|].
  change [] with (@nil JobsQueueItem ++ []). eapply (steps_trans lawful _ [] _ _ []).
  - apply steps_once, step_event; [done|]. by exists o, t.
  - apply steps_once, step_drain; [lia|]. by exists o, (t ++ new1).
Qed.
End JobsLiveness.

(** ** Examples *)

#[local] Existing Instance example_ext.

(** A limit of one job, and two jobs. *)
Definition tight_config : RuntimeConfig := {|
  rc_action := {|
    max_running_jobs := 1;
    job_waiting_timeout_seconds := job_waiting_timeout_seconds ActionConfig_default;
    default_service_account := default_service_account ActionConfig_default;
    active_deadline_seconds := active_deadline_seconds ActionConfig_default;
    ttl_seconds_after_finished := ttl_seconds_after_finished ActionConfig_default;
    ac_workdir := ac_workdir ActionConfig_default;
    ac_containers := ac_containers ActionConfig_default |};
  rc_trigger := rc_trigger RuntimeConfig_default |}.

Definition tight_item : JobsQueueItem := burst_item "me" "ci" example_job.

Lemma submits_allow jobs new : submits "me" "ci" tight_config jobs new -> Forall allows_jobs new.
Proof.
  intros [_ Hall]. eapply Forall_impl; [exact Hall|]. intros [[] r]; simpl; try done. by intros ->.
Qed.

Lemma tight_enqueue items pending :
  step lawful (Sys (unreported "me" items pending) (Waiting Drained)) [tight_item] [Ev SystemNow 0%Z]
    (Sys (unreported "me" (items ++ [tight_item]) true) (Waiting Drained)).
Proof.
  apply (step_enqueue lawful example_job "ci" (Some 0%Z) _ _ _ (Ok tt)); [|reflexivity].
  exists (quiet_services 0%Z tight_config), []. reflexivity.
Qed.

Lemma tight_fits : (1 <= max_running_jobs (rc_action tight_config) <= i64_max)%Z.
Proof. done. Qed.

(** The first job was created, the second waits for the report of the first. *)
Lemma second_waits : exists new,
  steps lawful (started "me") ([tight_item] ++ [tight_item]) new
    (Sys (unreported "me" [tight_item] false) (Waiting Full)) /\ Forall allows_jobs new.
Proof.
  destruct (burst_drain "me" "ci" tight_config tight_fits example_job [tight_item] 1 [])
    as (new & Hdrain & Hnew); [done|].
  exists (([Ev SystemNow 0%Z] ++ [Ev SystemNow 0%Z])
    ++ (Ev GetConfig tight_config :: gauge_events tight_config 0 2) ++ new ++ []). split.
  - eapply (steps_trans lawful _ ([tight_item] ++ [tight_item]) _
      (Sys (unreported "me" [tight_item; tight_item] true) (Waiting Drained)) []).
    { eapply steps_trans; apply steps_once; [apply (tight_enqueue [] false)|].
      apply (tight_enqueue [tight_item] true). }
    eapply (steps_trans lawful _ [] _
      (Sys (unreported "me" [tight_item; tight_item] false) (Draining 2 1)) []).
    { apply steps_once. apply (step_event lawful _ _ _ (Some (2, 1%Z))); [reflexivity|].
      exists (quiet_services 0%Z tight_config), [].
      by apply (burst_wake "me" tight_config tight_fits). }
    eapply (steps_trans lawful _ [] _
      (Sys (unreported "me" [tight_item] false) (Draining 1 0)) []).
    { apply steps_once. apply (step_drain lawful 1 1 _ _ true); [done|].
      by exists (quiet_services 0%Z tight_config), []. }
    apply steps_once. by apply step_full.
  - repeat apply Forall_app_2; [by repeat constructor..| |by constructor].
    by eapply submits_allow.
Qed.

Lemma never_stuck_witness : exists new,
  let s := Sys (unreported "me" [tight_item] false) (Waiting Full) in
  (active (statuses (sys_queue s)) <> ∅
    \/ unreported_job "me" ([tight_item] ++ [tight_item]) new s)
  /\ forall store job o t, wp (on_job_event store job) o (sys_queue s) t (fun r q' _ =>
       r = Ret tt -> queue_event_pending q' = true).
Proof.
  destruct second_waits as (new & Hsteps & Hallow). exists new.
  exact (never_stuck "me" _ new _ Full Hsteps Hallow eq_refl eq_refl ltac:(discriminate)).
Defined.

Lemma head_served_witness :
  let o := quiet_services 0%Z RuntimeConfig_default in
  exists new1 new2 free created q',
    queue_wake o (with_event_pending false (sys_queue one_waiting)) []
      = (Ret (Some (1, free)), with_event_pending false (sys_queue one_waiting), [] ++ new1)
    /\ (0 < free)%Z
    /\ drain_one 0 o (with_event_pending false (sys_queue one_waiting)) ([] ++ new1)
      = (Ret (Some created), q', ([] ++ new1) ++ new2)
    /\ queue_jobs q' = [] /\ served (burst_item "me" "ci" example_job) new2 created
    /\ steps lawful one_waiting [] (new1 ++ new2) (Sys q' (Draining 0 (spend created free))).
Proof.
  apply (head_served "me" _ _ _ Drained (burst_item "me" "ci" example_job) []
    (quiet_services 0%Z RuntimeConfig_default) [] (one_waiting_reached lawful));
    [done|done|done|done|done|by vm_compute|done|].
  constructor; [|constructor]. split; [|split; [done|by eexists]].
  split; [by eexists|]. eexists. split; [done|].
  repeat (constructor; [by vm_compute; eexists|]). constructor.
Defined.
