(* ===== verification/JobsProgress.v ===== *)
(** * The jobs queue: every job is dealt with

    Infinite executions of the system of JobsSystem.v: when its loops get
    their turns, the jobs come to their ends and the watch reports them,
    every enqueued job is eventually submitted or given up. *)

From stdpp Require Import base option gmap strings list.
From Stdlib Require Import ZArith Lia.
From S2P Require Import Prelude Strs Time Errors Config Ext Resources World Jobs JobsFacts JobsSystem JobsLiveness.
Local Open Scope string_scope.
Local Open Scope list_scope.

(** Every configuration that was read allows [limit] jobs. *)
Definition limit_at_least `{Ext} (limit : Z) (e : event resp) : Prop :=
  match e with
  | Ev c r =>
      match c as c return resp c -> Prop with
      | GetConfig => fun config => (limit <= max_running_jobs (rc_action config))%Z
      | _ => fun _ => True
      end r
  end.

(** The queue loop has something to do. *)
Definition loop_ready `{Ext} (s : system) : Prop :=
  match sys_task s with
  | Waiting _ => queue_event_pending (sys_queue s) = true
  | Draining _ _ => True
  | Stopped => False
  end.

(** The queue loop did something: it went on, or took the event. *)
Definition loop_moved `{Ext} (s s' : system) : Prop :=
  sys_task s' <> sys_task s
  \/ (queue_event_pending (sys_queue s) = true /\ queue_event_pending (sys_queue s') = false).

Section JobsProgress.
Context `{Ext}.
Implicit Types (q : JobsQueue) (o : services) (t new : trace).

(** ** One step, while fewer jobs run than are allowed *)

Inductive progress (s : system) (enq : list JobsQueueItem) (s' : system) : Prop :=
| progress_stop : sys_task s' = Stopped -> progress s enq s'
| progress_idle :
    sys_task s' = sys_task s -> queue_jobs (sys_queue s') = queue_jobs (sys_queue s) ++ enq ->
    (queue_event_pending (sys_queue s) = true -> queue_event_pending (sys_queue s') = true) ->
    progress s enq s'
| progress_take item :
    enq = [] -> queue_jobs (sys_queue s) = item :: queue_jobs (sys_queue s') -> progress s enq s'
| progress_wake why f :
    enq = [] -> queue_jobs (sys_queue s') = queue_jobs (sys_queue s) ->
    sys_task s = Waiting why -> sys_task s' = Draining (length (queue_jobs (sys_queue s))) f ->
    (0 < f)%Z -> progress s enq s'
| progress_rest w f why :
    enq = [] -> sys_queue s' = sys_queue s ->
    sys_task s = Draining w f -> w = 0 \/ (f <= 0)%Z -> sys_task s' = Waiting why ->
    progress s enq s'.

Lemma wake_below limit q new w q' :
  Forall (limit_at_least limit) new -> (running_jobs q < limit)%Z -> runs queue_wake q new w q' ->
  q' = q /\ exists f, (0 < f)%Z /\ w = Some (length (queue_jobs q), f).
Proof.
  intros Hlimit Hrun (o & t & Hwake).
  pose proof (wp_elim _ _ _ _ _ _ _ _ Hwake (queue_wake_limit o q t))
    as (-> & rest & Heq & _ & [?|[= ->]]); [done|]. split; [done|].
  apply app_inv_head in Heq as ->. inversion_clear Hlimit as [|? ? Hle _]. simpl in Hle.
  rewrite bool_decide_eq_false_2 by lia. eexists. split; [|done]. lia.
Qed.

Lemma step_progress limit s enq new s' :
  Forall (limit_at_least limit) new -> (running_jobs (sys_queue s) < limit)%Z -> attentive s ->
  step lawful s enq new s' -> progress s enq s'.
Proof.
  intros Hlimit Hrun Hatt Hstep. destruct Hstep as
    [store job q task new q' Ht ? (o & t & Hev)|? ? ? ? ? ? ? ? ?
    |job ns expire q task new r q' items (o & t & Hev) Hitems|q why new w q' ? Hev
    |q why new w q' Hev|? ? ? ? ?|n f q new created q' Hf (o & t & Hev)
    |n f q new q' Hf (o & t & Hev)|? ? ? ? ? ? ?|f q|n f q Hf|q task|? ? ? ? ? ? ?];
    try by apply progress_stop.
  - pose proof (wp_elim _ _ _ _ _ _ _ _ Hev (on_job_event_wakes store job o q t))
      as (_ & (Hj & _ & Hp) & _).
    apply progress_idle; simpl; [done|by rewrite Hj, app_nil_r|done].
  - pose proof (wp_elim _ _ _ _ _ _ _ _ Hev (enqueue_appends job ns expire o q t))
      as (? & item & [= <-] & _ & _ & _ & Hp & _). by apply progress_idle.
  - destruct (wake_below limit (with_event_pending false q) _ _ _ Hlimit Hrun Hev) as (-> & f & Hf & ->).
    by eapply progress_wake.
  - destruct (wake_below limit q _ _ _ Hlimit Hrun Hev) as (-> & f & Hf & ->).
    by eapply progress_wake.
  - pose proof (wp_elim _ _ _ _ _ _ _ _ Hev (drain_one_takes n o q t)) as [Hw _].
    destruct Hatt as (_ & Hn & _). simpl in Hn.
    destruct (queue_jobs q) as [|item items] eqn:Hq; simpl in Hn; [lia|].
    destruct Hw as [-> _]. by eapply (progress_take _ _ _ item).
  - pose proof (wp_elim _ _ _ _ _ _ _ _ Hev (drain_one_takes n o q t)) as [_ Hw].
    destruct Hatt as (_ & Hn & _). simpl in Hn. rewrite Hw in Hn by done. simpl in Hn. lia.
  - eapply progress_rest; [done|done|done|by left|done].
  - eapply progress_rest; [done|done|done|by right|done].
Qed.

(** A turn takes at most the head. *)
Lemma drain_queue n o q t r q' t' :
  drain_one n o q t = (r, q', t') ->
  queue_jobs q' = queue_jobs q \/ exists item, queue_jobs q = item :: queue_jobs q'.
Proof.
  intros Hrun. pose proof (wp_elim _ _ _ _ _ _ _ _ Hrun (drain_one_takes n o q t)) as [Hw _].
  destruct (queue_jobs q) as [|item items] eqn:Hq.
  - destruct Hw as [-> _]. by left.
  - destruct Hw as [-> _]. right. by exists item.
Qed.

(** Whatever happens, the queue grows at its end or loses its head. *)
Lemma step_queue s enq new s' :
  attentive s -> step lawful s enq new s' ->
  queue_jobs (sys_queue s') = queue_jobs (sys_queue s) ++ enq
  \/ enq = [] /\ exists item, queue_jobs (sys_queue s) = item :: queue_jobs (sys_queue s').
Proof.
  intros Hatt Hstep. destruct Hstep as
    [store job q task new q' ? ? (o & t & Hev)|store job q task new q' ? ? (o & t & Hev)
    |job ns expire q task new r q' items ? Hitems|q why new w q' ? (o & t & Hev)
    |q why new w q' (o & t & Hev)|q why new q' (o & t & Hev)|n f q new created q' Hf (o & t & Hev)
    |n f q new q' Hf (o & t & Hev)|n f q new q' Hf (o & t & Hev)|f q|n f q Hf|q task
    |n f q item items Hf Hq]; simpl; rewrite ?app_nil_r; try by left.
  - pose proof (wp_elim _ _ _ _ _ _ _ _ Hev (on_job_event_wakes store job o q t))
      as (_ & (Hj & _) & _). by left.
  - pose proof (wp_elim _ _ _ _ _ _ _ _ Hev (on_job_event_wakes store job o q t))
      as (_ & (Hj & _) & _). by left.
  - pose proof (wp_elim _ _ _ _ _ _ _ _ Hev (queue_wake_reads o _ t)) as (-> & _). by left.
  - pose proof (wp_elim _ _ _ _ _ _ _ _ Hev (queue_wake_reads o _ t)) as (-> & _). by left.
  - pose proof (wp_elim _ _ _ _ _ _ _ _ Hev (queue_wake_reads o _ t)) as (-> & _). by left.
  - destruct (drain_queue _ _ _ _ _ _ _ Hev); [by left|by right].
  - destruct (drain_queue _ _ _ _ _ _ _ Hev); [by left|by right].
  - destruct (drain_queue _ _ _ _ _ _ _ Hev); [by left|by right].
  - right. split; [done|by exists item].
Qed.

(** A step that leaves the loop alone does not move it. *)
Lemma idle_not_moved s s' :
  sys_task s' = sys_task s ->
  (queue_event_pending (sys_queue s) = true -> queue_event_pending (sys_queue s') = true) ->
  ~ loop_moved s s'.
Proof. intros Htask Hp [?|[Hp1 Hp2]]; [done|]. specialize (Hp Hp1). congruence. Qed.

(** ** Infinite executions *)

Section infinite.
Context (id : string) (run : nat -> list JobsQueueItem * trace * system).

Definition items_at n : list JobsQueueItem := (run n).1.1.
Definition calls_at n : trace := (run n).1.2.
Definition state_at n : system := (run n).2.
Definition queue_at n : JobsQueue := sys_queue (state_at n).

(** How many of the enqueued items the loop has taken. *)
Definition taken_at n : nat := length (items_at n) - length (queue_jobs (queue_at n)).

(** The watch reports something. *)
Definition reported n : Prop :=
  exists store job new q', runs (on_job_event store job) (queue_at n) new tt q'
    /\ run (S n) = (items_at n, calls_at n ++ new, Sys q' (sys_task (state_at n))).

Record is_execution : Prop := {
  ex_start : run 0 = ([], [], started id);
  ex_step : forall n, run (S n) = run n \/ exists enq new,
    step lawful (state_at n) enq new (state_at (S n))
    /\ items_at (S n) = items_at n ++ enq /\ calls_at (S n) = calls_at n ++ new }.

(** What the world owes the queue: every configuration allows [limit] jobs; a
    loop that can go on does; as long as no further job is started, the
    running ones come to be fewer than [limit]; and when a job last seen
    unfinished or not seen at all is left, a report comes. *)
Record fair (limit : Z) : Prop := {
  fair_limit : (1 <= limit)%Z;
  fair_configs : forall n, Forall (limit_at_least limit) (calls_at n);
  fair_turns : forall n, loop_ready (state_at n) ->
    exists m, n <= m /\ loop_moved (state_at m) (state_at (S m));
  fair_jobs : forall n, exists m, n <= m /\ forall i, m <= i -> taken_at i = taken_at m ->
    (running_jobs (queue_at i) < limit)%Z;
  fair_reports : forall n,
    active (statuses (queue_at n)) <> ∅
    \/ unreported_job id (items_at n) (calls_at n) (state_at n) ->
    exists m, n <= m /\ (sys_task (state_at m) = Stopped \/ reported m) }.

Context (Hex : is_execution).

Lemma execution_steps n : steps lawful (started id) (items_at n) (calls_at n) (state_at n).
Proof.
  unfold items_at, calls_at, state_at.
  induction n as [|n IH]; [rewrite (ex_start Hex); constructor|].
  destruct (ex_step Hex n) as [->|(enq & new & Hstep & Henq & Hcalls)]; [done|].
  unfold items_at, calls_at in *. rewrite Henq, Hcalls. by econstructor.
Qed.

Lemma execution_ok n : system_ok (items_at n) (calls_at n) (state_at n).
Proof. apply (steps_ok lawful id), execution_steps. Qed.

(** The taken items, and those in the queue. *)
Lemma taken_length n :
  length (items_at n) = taken_at n + length (queue_jobs (queue_at n)).
Proof.
  destruct (execution_ok n) as [(taken & fates & Heq & _) _].
  unfold taken_at, queue_at. rewrite Heq, length_app. lia.
Qed.

Lemma taken_step n : taken_at n <= taken_at (S n).
Proof.
  pose proof (taken_length n) as Hn. pose proof (taken_length (S n)) as HSn.
  destruct (ex_step Hex n) as [Heq|(enq & new & Hstep & Henq & _)].
  { unfold taken_at, items_at, queue_at, state_at. by rewrite Heq. }
  destruct (execution_ok n) as [_ Hatt]. rewrite Henq, length_app in HSn. unfold queue_at in *.
  destruct (step_queue _ _ _ _ Hatt Hstep) as [Hq|[-> [item Hq]]]; rewrite Hq in *;
    rewrite ?length_app in *; simpl in *; lia.
Qed.

Lemma taken_mono n m : n <= m -> taken_at n <= taken_at m.
Proof. induction 1 as [|m _ IH]; [done|]. pose proof (taken_step m). lia. Qed.

(** Items keep their places in the history. *)
Lemma enqueued_prefix n m : n <= m -> items_at n `prefix_of` items_at m.
Proof.
  induction 1 as [|m _ IH]; [done|]. etrans; [exact IH|].
  destruct (ex_step Hex m) as [Heq|(enq & new & _ & -> & _)]; [|by eexists].
  unfold items_at. by rewrite Heq.
Qed.

(** From [n] on, until the next item is taken, fewer jobs run than are
    allowed. *)
Definition below limit n : Prop :=
  forall i, n <= i -> taken_at i = taken_at n -> (running_jobs (queue_at i) < limit)%Z.

Lemma below_later limit n m : below limit n -> n <= m -> taken_at m = taken_at n -> below limit m.
Proof. intros Hb Hm Ht i Hi Hti. apply Hb; lia. Qed.

(** The end we aim at: another item is taken, or the loop stopped. *)
Definition moves_on n : Prop :=
  exists m, n <= m /\ (sys_task (state_at m) = Stopped \/ taken_at n < taken_at m).

Lemma moves_on_later n m : n <= m -> taken_at m = taken_at n -> moves_on m -> moves_on n.
Proof. intros Hm Ht (k & Hk & Hend). exists k. rewrite <- Ht. split; [lia|done]. Qed.

(** Jobs stay queued until one is taken. *)
Lemma queued_later n m :
  n <= m -> taken_at m = taken_at n -> queue_jobs (queue_at n) <> [] -> queue_jobs (queue_at m) <> [].
Proof.
  intros Hm Ht Hq Hnil. pose proof (taken_length n). pose proof (taken_length m) as Hlen.
  pose proof (prefix_length _ _ (enqueued_prefix n m Hm)).
  rewrite Hnil in Hlen. simpl in Hlen. destruct (queue_jobs (queue_at n)); [done|]. simpl in *. lia.
Qed.

(** The loop's next turn after [n], when it takes nothing: it has woken up
    with a place for a job, or went to rest. *)
Definition turned n m : Prop :=
  n <= m /\ taken_at m = taken_at n /\
  ((exists why w f, sys_task (state_at n) = Waiting why /\ (0 < f)%Z
      /\ sys_task (state_at m) = Draining (S w) f)
   \/ exists w f why, sys_task (state_at n) = Draining w f /\ (w = 0 \/ (f <= 0)%Z)
        /\ sys_task (state_at m) = Waiting why
        /\ (queue_event_pending (queue_at n) = true -> queue_event_pending (queue_at m) = true)).

(** One step, in these terms. *)
Lemma step_turns limit n :
  fair limit -> below limit n -> queue_jobs (queue_at n) <> [] ->
  (sys_task (state_at (S n)) = Stopped \/ taken_at n < taken_at (S n) \/ turned n (S n))
  \/ sys_task (state_at (S n)) = sys_task (state_at n) /\ taken_at (S n) = taken_at n
     /\ (queue_event_pending (queue_at n) = true -> queue_event_pending (queue_at (S n)) = true).
Proof.
  intros Hfair Hbelow Hq. pose proof (taken_length n) as Hn. pose proof (taken_length (S n)) as HSn.
  destruct (ex_step Hex n) as [Heq|(enq & new & Hstep & Henq & Hcalls)].
  { right. unfold taken_at, items_at, queue_at, state_at. by rewrite Heq. }
  pose proof (fair_configs _ Hfair (S n)) as Hconf. rewrite Hcalls in Hconf.
  apply Forall_app in Hconf as [_ Hconf]. rewrite Henq, length_app in HSn.
  destruct (execution_ok n) as [_ Hatt]. unfold queue_at in *.
  destruct (step_progress limit _ _ _ _ Hconf (Hbelow n ltac:(lia) eq_refl) Hatt Hstep)
    as [?|Htask Hjobs Hp|item -> Hjobs|why f -> Hjobs Htask Htask' Hf|w f why -> Hsame Htask Hwf Htask'].
  - by left; left.
  - right. rewrite Hjobs, length_app in HSn. split; [done|]. split; [lia|done].
  - left; right; left. rewrite Hjobs in Hn. simpl in *. lia.
  - left; right; right. rewrite Hjobs in HSn. simpl in HSn. split; [lia|]. split; [lia|]. left.
    destruct (queue_jobs (sys_queue (state_at n))) as [|item items]; [done|].
    by exists why, (length items), f.
  - left; right; right. rewrite Hsame in HSn. simpl in HSn. split; [lia|]. split; [lia|]. right.
    exists w, f, why. unfold queue_at. rewrite Hsame. auto.
Qed.

Lemma next_turn limit n :
  fair limit -> below limit n -> queue_jobs (queue_at n) <> [] -> loop_ready (state_at n) ->
  moves_on n \/ exists m, turned n m.
Proof.
  intros Hfair Hbelow Hq Hready. destruct (fair_turns _ Hfair n Hready) as (k & Hk & Hmoved).
  revert n Hk Hbelow Hq Hready.
  assert (Hgen : forall d n, n + d = k -> below limit n -> queue_jobs (queue_at n) <> [] ->
    moves_on n \/ exists m, turned n m); [|by intros n Hk ? ? _; apply (Hgen (k - n)); [lia|..]].
  induction d as [|d IH]; intros n Hk Hbelow Hq;
    destruct (step_turns limit n Hfair Hbelow Hq) as [[?|[?|?]]|(Htask & Htaken & Hp)];
    try (left; exists (S n); split; [lia|by auto]); try (right; by eexists).
  - rewrite Nat.add_0_r in Hk. subst k. by destruct (idle_not_moved _ _ Htask Hp).
  - destruct (IH (S n)) as [Hmove|(m & Hm & Ht & Hturn)]; [lia|by apply (below_later limit n); [|lia|]
      |by apply (queued_later n); [lia|..]| |].
    + left. eapply moves_on_later; [|done|done]. lia.
    + right. exists m. split; [lia|]. split; [lia|].
      destruct Hturn as [Hwake|(w & f & why & Hw & Hwf & Hwait & Hpend)];
        rewrite <- Htask; [by left|right]. exists w, f, why. split_and!; auto.
Qed.

(** A loop with a place for a job takes one. *)
Lemma draining_moves_on limit n w f :
  fair limit -> below limit n -> queue_jobs (queue_at n) <> [] ->
  sys_task (state_at n) = Draining (S w) f -> (0 < f)%Z -> moves_on n.
Proof.
  intros Hfair Hbelow Hq Htask Hf.
  destruct (next_turn limit n) as [?|(m & _ & _ & [(why & ? & ? & Hwait & _)|Hrest])];
    [done..|by unfold loop_ready; rewrite Htask|done|congruence|].
  destruct Hrest as (w' & f' & why & Heq & Hwf & _). rewrite Heq in Htask.
  injection Htask as -> ->. destruct Hwf; [done|lia].
Qed.

(** A loop that waits with an event wakes up and takes one. *)
Lemma waiting_moves_on limit n why :
  fair limit -> below limit n -> queue_jobs (queue_at n) <> [] ->
  sys_task (state_at n) = Waiting why -> queue_event_pending (queue_at n) = true -> moves_on n.
Proof.
  intros Hfair Hbelow Hq Htask Hp.
  destruct (next_turn limit n) as [?|(m & Hm & Ht & [(why' & w & f & _ & Hf & Hdrain)|Hrest])];
    [done..|by unfold loop_ready; rewrite Htask|done| |].
  - apply (moves_on_later n m Hm Ht). eapply draining_moves_on;
      [done|by apply (below_later limit n)|by apply (queued_later n)|done|done].
  - destruct Hrest as (? & ? & ? & Heq & _). congruence.
Qed.

(** Any loop with an event pending goes on. *)
Lemma pending_moves_on limit n :
  fair limit -> below limit n -> queue_jobs (queue_at n) <> [] ->
  queue_event_pending (queue_at n) = true -> moves_on n.
Proof.
  intros Hfair Hbelow Hq Hp. destruct (sys_task (state_at n)) as [why|w f|] eqn:Htask.
  - by eapply waiting_moves_on.
  - destruct (next_turn limit n) as [?|(m & Hm & Ht & [(why' & ? & ? & Hwait & _)|Hrest])];
      [done..|by unfold loop_ready; rewrite Htask|done|congruence|].
    destruct Hrest as (_ & _ & why & _ & _ & Hwait & Hpend).
    apply (moves_on_later n m Hm Ht). eapply waiting_moves_on;
      [done|by apply (below_later limit n)|by apply (queued_later n)|done|auto].
  - exists n. auto.
Qed.

(** A report raises the event. *)
Lemma report_moves_on limit n :
  fair limit -> below limit n -> queue_jobs (queue_at n) <> [] -> reported n -> moves_on n.
Proof.
  intros Hfair Hbelow Hq (store & job & new & q' & (o & t & Hev) & Hrun).
  pose proof (wp_elim _ _ _ _ _ _ _ _ Hev (on_job_event_wakes store job o (queue_at n) t))
    as (_ & (Hj & _) & Hp).
  destruct (execution_ok n) as [_ Hatt]. unfold attentive in Hatt.
  destruct (sys_task (state_at n)) as [why|w f|] eqn:Htask; [| |exists n; auto].
  all: destruct Hatt as [Halive _]; specialize (Hp eq_refl Halive).
  all: assert (Ht : taken_at (S n) = taken_at n)
    by (unfold taken_at, items_at, queue_at, state_at; rewrite Hrun; simpl;
        by rewrite Hj).
  all: apply (moves_on_later n (S n)); [lia|done|]; eapply pending_moves_on;
    [done|by apply (below_later limit n); [|lia|]|by apply (queued_later n); [lia|..]|].
  all: unfold queue_at, state_at; by rewrite Hrun.
Qed.

(** With jobs queued, the loop goes on. *)
Lemma queue_moves_on limit n :
  fair limit -> queue_jobs (queue_at n) <> [] -> moves_on n.
Proof.
  intros Hfair Hq0. destruct (fair_jobs _ Hfair n) as (m & Hm & Hbelow).
  destruct (decide (taken_at n < taken_at m)) as [?|Hle]; [exists m; auto|].
  pose proof (taken_mono n m Hm). assert (Ht : taken_at m = taken_at n) by lia.
  apply (moves_on_later n m Hm Ht). pose proof (queued_later n m Hm Ht Hq0) as Hq.
  clear n Hm Hq0 Hle Ht H0. rename m into n.
  destruct (queue_event_pending (queue_at n)) eqn:Hp; [by eapply pending_moves_on|].
  assert (Hwaiting : forall m why, n <= m -> taken_at m = taken_at n ->
    sys_task (state_at m) = Waiting why -> moves_on m).
  { intros m why Hm Ht Htask.
    assert (Hbelow' : below limit m) by (by apply (below_later limit n)).
    pose proof (queued_later n m Hm Ht Hq) as Hq'.
    destruct (queue_event_pending (queue_at m)) eqn:Hp'; [by eapply pending_moves_on|].
    destruct (fair_reports _ Hfair m) as (k & Hk & Hreport).
    { refine (proj1 (never_stuck id _ _ (state_at m) why (execution_steps m) _ Htask Hp' Hq')).
      eapply Forall_impl; [apply (fair_configs _ Hfair)|]. intros [[] r]; simpl; try done.
      pose proof (fair_limit _ Hfair). lia. }
    destruct Hreport as [?|Hreport]; [exists k; auto|].
    destruct (decide (taken_at m < taken_at k)) as [?|Hle]; [exists k; auto|].
    pose proof (taken_mono m k Hk). assert (Ht' : taken_at k = taken_at m) by lia.
    apply (moves_on_later m k Hk Ht'). eapply report_moves_on;
      [done|by apply (below_later limit m)|by apply (queued_later m)|done]. }
  destruct (sys_task (state_at n)) as [why|w f|] eqn:Htask; [by eapply Hwaiting| |exists n; auto].
  destruct (next_turn limit n) as [?|(m & Hm & Ht & [(? & ? & ? & Hwait & _)|Hrest])];
    [done..|by unfold loop_ready; rewrite Htask|done|congruence|].
  destruct Hrest as (_ & _ & why & _ & _ & Hwait & _).
  apply (moves_on_later n m Hm Ht). by eapply Hwaiting.
Qed.

(** Every place in the history is reached. *)
Lemma item_taken limit n k :
  fair limit -> k < length (items_at n) ->
  exists m, n <= m /\ (sys_task (state_at m) = Stopped \/ k < taken_at m).
Proof.
  intros Hfair Hk. remember (S k - taken_at n) as d eqn:Hd. revert n Hk Hd.
  induction (lt_wf d) as [d _ IH]. intros n Hk ->.
  destruct (decide (k < taken_at n)) as [?|Hle]; [exists n; auto|].
  destruct (queue_moves_on limit n Hfair) as (m & Hm & Hend).
  { intros Hnil. pose proof (taken_length n) as Hn. rewrite Hnil in Hn. simpl in Hn. lia. }
  destruct Hend as [?|Hmore]; [exists m; auto|].
  pose proof (prefix_length _ _ (enqueued_prefix n m Hm)).
  destruct (IH (S k - taken_at m) ltac:(lia) m) as (m' & Hm' & Hend'); [lia|done|].
  exists m'. split; [lia|done].
Qed.

(** The fate of every item is decided. *)
Lemma every_job_dealt_with_fates limit n k item :
  fair limit -> items_at n !! k = Some item ->
  exists m, n <= m /\ (sys_task (state_at m) = Stopped \/
    exists taken fates, taken !! k = Some item /\ length fates = length taken
      /\ items_at m = taken ++ queue_jobs (queue_at m)
      /\ creates (calls_at m) = omap fate_create (zip taken fates)).
Proof.
  intros Hfair Hk. destruct (item_taken limit n k Hfair) as (m & Hm & Hend);
    [by apply lookup_lt_Some in Hk|]. exists m. split; [done|].
  destruct Hend as [?|Htaken]; [by left|right].
  destruct (execution_ok m) as [(taken & fates & Henq & Hlen & Hcr) _].
  exists taken, fates. split; [|done].
  destruct (enqueued_prefix n m Hm) as [more Hmore].
  assert (Hkm : items_at m !! k = Some item) by (by rewrite Hmore; apply lookup_app_l_Some).
  rewrite Henq, lookup_app_l in Hkm; [done|].
  pose proof (taken_length m) as Hl. unfold queue_at in Hl. rewrite Henq, length_app in Hl. lia.
Qed.

(** C7. Every job is dealt with.  In every infinite execution in which the
    queue loop gets its turns, the running jobs come to their ends and the
    watch reports them as they live: whatever is enqueued, at any time and
    however many jobs follow it, is taken from the queue in its turn -
    submitted, once, or given up because its deadline had passed - unless
    the queue task itself ends. *)
Theorem every_job_dealt_with limit n k item :
  fair limit -> items_at n !! k = Some item ->
  exists m, n <= m /\ (sys_task (state_at m) = Stopped \/
    exists taken fates, taken !! k = Some item /\ length fates = length taken
      /\ items_at m = taken ++ queue_jobs (queue_at m)
      /\ creates (calls_at m) = omap fate_create (zip taken fates)).
Proof. apply every_job_dealt_with_fates. Qed.
End infinite.
End JobsProgress.

(** ** Example *)

#[local] Existing Instance example_ext.

(** One job is enqueued and started; from then on the watch reports now and
    then, and the loop finds nothing to do. *)
Inductive moment : Type := Idle0 | Enqueued | Woken | Taken | Idle | Reported | Woken_again.

Definition moment_after (p : moment) : moment :=
  match p with
  | Idle0 => Enqueued | Enqueued => Woken | Woken => Taken | Taken => Idle
  | Idle => Reported | Reported => Woken_again | Woken_again => Idle
  end.

Definition lone_item : JobsQueueItem := burst_item "me" "ci" example_job.

Definition moment_state (p : moment) : system :=
  match p with
  | Idle0 | Idle => started "me"
  | Enqueued => one_waiting
  | Woken => Sys (unreported "me" [lone_item] false) (Draining 1 16)
  | Taken => Sys (unreported "me" [] false) (Draining 0 15)
  | Reported => Sys (unreported "me" [] true) (Waiting Drained)
  | Woken_again => Sys (unreported "me" [] false) (Draining 0 16)
  end.

Definition moment_services : services := quiet_services 0%Z RuntimeConfig_default.

(** The items and the calls of the step that leaves a moment. *)
Definition moment_items (p : moment) : list JobsQueueItem :=
  match p with Idle0 => [lone_item] | _ => [] end.

Definition moment_calls (p : moment) : trace :=
  match p with
  | Idle0 => [Ev SystemNow 0%Z]
  | Enqueued => (queue_wake moment_services (unreported "me" [lone_item] false) []).2
  | Woken => (drain_one 0 moment_services (unreported "me" [lone_item] false) []).2
  | Reported => (queue_wake moment_services (unreported "me" [] false) []).2
  | Taken | Idle | Woken_again => []
  end.

Definition moment_at (n : nat) : moment := Nat.iter n moment_after Idle0.

Definition lone_run (n : nat) : list JobsQueueItem * trace * system :=
  (mjoin (moment_items ∘ moment_at <$> seq 0 n), mjoin (moment_calls ∘ moment_at <$> seq 0 n),
   moment_state (moment_at n)).

Lemma lone_run_S n :
  lone_run (S n) = ((lone_run n).1.1 ++ moment_items (moment_at n),
                    (lone_run n).1.2 ++ moment_calls (moment_at n),
                    moment_state (moment_after (moment_at n))).
Proof. unfold lone_run. rewrite seq_S, !fmap_app, !join_app. simpl. by rewrite !app_nil_r. Qed.

Lemma moment_step p :
  step lawful (moment_state p) (moment_items p) (moment_calls p) (moment_state (moment_after p)).
Proof.
  destruct p.
  - eapply (step_enqueue lawful example_job "ci" (Some 0%Z) _ _ _ (Ok tt)); [|reflexivity].
    exists moment_services, []. reflexivity.
  - apply (step_event lawful _ _ _ (Some (1, 16%Z))); [done|]. by exists moment_services, [].
  - apply (step_drain lawful 0 16 _ _ true); [done|]. by exists moment_services, [].
  - apply step_done.
  - apply (step_watch lawful (fun _ => None) None); [done|done|]. by exists moment_services, [].
  - apply (step_event lawful _ _ _ (Some (0, 16%Z))); [done|]. by exists moment_services, [].
  - apply step_done.
Qed.

Lemma lone_run_execution : is_execution "me" lone_run.
Proof.
  split; [done|]. intros n. right. exists (moment_items (moment_at n)), (moment_calls (moment_at n)).
  unfold items_at, calls_at, state_at. rewrite lone_run_S. split; [apply moment_step|done].
Qed.

(** The watch reports again and again. *)
Lemma lone_reports n : exists m, n <= m /\ reported lone_run m.
Proof.
  assert (Hidle : exists d, d <= 6 /\ moment_at (d + n) = Idle).
  { unfold moment_at. destruct n as [|n]; [by exists 4; split; [lia|]|].
    change (Nat.iter (S n) moment_after Idle0) with (moment_after (Nat.iter n moment_after Idle0)).
    assert (Hd : forall p, exists d, d <= 6 /\ Nat.iter d moment_after (moment_after p) = Idle).
    { intros []; [exists 3|exists 2|exists 1|exists 0|exists 2|exists 1|exists 0];
        (split; [lia|done]). }
    destruct (Hd (Nat.iter n moment_after Idle0)) as (d & ? & Hd'). exists d. split; [done|].
    by rewrite Nat.iter_add. }
  destruct Hidle as (d & _ & Hd). exists (d + n). split; [lia|].
  exists (fun _ => None), None, [], (unreported "me" [] true). split.
  - exists moment_services, []. unfold queue_at, state_at, lone_run. simpl. by rewrite Hd.
  - rewrite lone_run_S. unfold items_at, calls_at, state_at. rewrite Hd. simpl.
    rewrite Hd. by rewrite !app_nil_r.
Qed.

Lemma moment_limits p : Forall (limit_at_least 1) (moment_calls p).
Proof. destruct p; by repeat constructor. Qed.

Lemma lone_run_fair : fair "me" lone_run 1.
Proof.
  split.
  - done.
  - intros n. unfold calls_at, lone_run. simpl. apply Forall_join, Forall_fmap, Forall_forall.
    intros i _. apply moment_limits.
  - intros n Hready. exists n. split; [done|]. revert Hready. unfold state_at.
    rewrite lone_run_S. simpl. destruct (moment_at n); intros Hready; try done; by left.
  - intros n. exists n. split; [done|]. intros i _ _. unfold queue_at, state_at. simpl.
    by destruct (moment_at i).
  - intros n _. destruct (lone_reports n) as (m & Hm & Hreport). exists m. auto.
Qed.

Lemma every_job_dealt_with_witness :
  items_at lone_run 1 !! 0 = Some lone_item /\
  exists m, 1 <= m /\ (sys_task (state_at lone_run m) = Stopped \/
    exists taken fates, taken !! 0 = Some lone_item /\ length fates = length taken
      /\ items_at lone_run m = taken ++ queue_jobs (queue_at lone_run m)
      /\ creates (calls_at lone_run m) = omap fate_create (zip taken fates)).
Proof.
  split; [reflexivity|].
  exact (every_job_dealt_with "me" lone_run lone_run_execution 1 1 0 lone_item lone_run_fair
    eq_refl).
Defined.
