(* ===== verification/Cloner.v ===== *)
(** * The cloner of an action job (src/src/bin/gitrepo-cloner.rs)

    The init container of every action job: it parses the arguments that
    [get_gitrepo_cloner_args] of Action.v wrote into the job, fetches the
    repository and leaves its working tree in the shared volume.  The
    tokenizer of the clap crate is a parameter with its documented rules. *)

From stdpp Require Import base option gmap strings list.
From Stdlib Require Import Ascii ZArith Lia.
From S2P Require Import Prelude Strs Time Errors Config Ext Resources World Jobs Cache Statics Action GitRepo Trigger TriggerFacts SourceFacts.
Local Open Scope string_scope.
Local Open Scope list_scope.

(** ** Command line *)

(** [clap_tokens decl args]: the options of a command line, each with its
    value if [decl] says it takes one; [None] for a usage error. *)
Class Clap : Type := {
  clap_tokens : (string -> option bool) -> list string -> option (list (string * option string)) }.

(** What the program relies on: long options with separate values, a value
    being any word that does not start with a hyphen, and flags. *)
Class ClapLaws `{Clap} : Prop := {
  clap_end decl : clap_tokens decl [] = Some [];
  clap_value decl name value args :
    decl name = Some true -> starts_with "-" value = false ->
    clap_tokens decl (("--" ^^ name) :: value :: args)
    = ((name, Some value) ::.) <$> clap_tokens decl args;
  clap_flag decl name args :
    decl name = Some false ->
    clap_tokens decl (("--" ^^ name) :: args) = ((name, None) ::.) <$> clap_tokens decl args }.

(** [ReferenceValue] and [Cli]. *)
Record ReferenceValue := {
  rv_branch : option string;
  rv_tag : option string;
  rv_commit : option string }.

Record Cli := {
  cli_source_kind : TriggerSourceKind;
  cli_source_name : string;
  cli_reference : ReferenceValue;
  cli_destination : string;
  cli_preserve_git_folder : bool;
  cli_debug : bool }.

(** The long options the attributes of [Cli] declare; [true]: takes a value. *)
Definition cli_option (name : string) : option bool :=
  if bool_decide (name ∈ ["kind"; "source"; "branch"; "tag"; "commit"; "destination"])
  then Some true
  else if bool_decide (name ∈ ["preserve-git-folder"; "debug"]) then Some false
  else None.

Fixpoint option_value (name : string) (opts : list (string * option string)) : option string :=
  match opts with
  | [] => None
  | (n, v) :: opts => if String.eqb n name then v else option_value name opts
  end.

(** The group of [ReferenceValue] is required and holds one option. *)
Definition one_reference (v : ReferenceValue) : bool :=
  match rv_branch v, rv_tag v, rv_commit v with
  | Some _, None, None | None, Some _, None | None, None, Some _ => true
  | _, _, _ => false
  end.

(** [Cli::parse]: [None] ends the program with a usage error. *)
Definition cli_parse `{Clap} (args : list string) : option Cli :=
  opts ← clap_tokens cli_option args;
  if bool_decide (NoDup opts.*1) then
    source_kind ← option_value "kind" opts ≫= TriggerSourceKind_from_str;
    source_name ← option_value "source" opts;
    destination ← option_value "destination" opts;
    let reference := {| rv_branch := option_value "branch" opts;
                        rv_tag := option_value "tag" opts;
                        rv_commit := option_value "commit" opts |} in
    if one_reference reference then
      Some {| cli_source_kind := source_kind; cli_source_name := source_name;
              cli_reference := reference; cli_destination := destination;
              cli_preserve_git_folder := bool_decide ("preserve-git-folder" ∈ opts.*1);
              cli_debug := bool_decide ("debug" ∈ opts.*1) |}
    else None
  else None.

(** The two conversions of [ReferenceValue]; [None] is their [panic!]. *)
Definition reference_of_value (value : ReferenceValue) : option TriggerGitRepoReference :=
  match rv_branch value with
  | Some branch => Some (Branch branch)
  | None =>
      match rv_tag value with
      | Some tag => Some (Tag tag)
      | None => Commit <$> rv_commit value
      end
  end.

Definition string_of_value (value : ReferenceValue) : option string :=
  match rv_branch value with
  | Some branch => Some branch
  | None =>
      match rv_tag value with
      | Some tag => Some tag
      | None => rv_commit value
      end
  end.

(** ** The run *)

(** [anyhow::Error] over the errors that reach it. *)
Inductive CloneError : Type :=
| CloneKube (e : KubeErr)
| CloneRepo (e : Error)
| CloneIo (msg : string).

Section Cloner.
Context `{Ext}.
Local Open Scope prog_scope.

Definition clone_try {S A B} (m : io S (result Error A))
    (k : A -> io S (result CloneError B)) : io S (result CloneError B) :=
  r <-- m ;;
  match r with
  | Ok a => k a
  | Err e => ret (Err (CloneRepo e))
  end.

(** The two branches of the match on the source kind. *)
Definition clone_source (cli : Cli) (ns reference_name : string)
    : io unit (result CloneError unit) :=
  match cli_source_kind cli with
  | KindGitRepo =>
      gitrepo <-- call (GetGitRepoApi ns (cli_source_name cli)) ;;
      match (gitrepo : result KubeErr GitRepo) with
      | Ok gitrepo =>
          clone_try (fetch_repo_ref gitrepo reference_name (cli_destination cli) ns)
            (fun r => ret (Ok r))
      | Err e => ret (Err (CloneKube e))
      end
  | KindClusterGitRepo =>
      gitrepo <-- call (GetClusterGitRepoApi (cli_source_name cli)) ;;
      match (gitrepo : result KubeErr ClusterGitRepo) with
      | Ok gitrepo =>
          clone_try (fetch_repo_ref gitrepo reference_name (cli_destination cli) ns)
            (fun r => ret (Ok r))
      | Err e => ret (Err (CloneKube e))
      end
  end.

(** [ns] is the default namespace of the client: the pod's. *)
Definition git_repo_cloner (cli : Cli) (ns : string) : io unit (result CloneError unit) :=
  reference_name <-- unwrap (string_of_value (cli_reference cli)) ;;
  reference <-- unwrap (reference_of_value (cli_reference cli)) ;;
  repo <-? clone_source cli ns reference_name ;;
  clone_try (get_latest_commit (cli_destination cli) reference) (fun _ =>
    if cli_preserve_git_folder cli then ret (Ok tt)
    else
      removed <-- call (RemoveDirAll (cli_destination cli ^^ "/.git")) ;;
      match (removed : result string unit) with
      | Ok _ => ret (Ok tt)
      | Err e => ret (Err (CloneIo e))
      end).

(** How the process of the cloner ends: clap's usage error, no client, or what
    [git_repo_cloner] returns. *)
Inductive ClonerExit : Type :=
| UsageError
| NoClient
| ClonerReturned (r : result CloneError unit).

(** [main]: the state is the variable [RUST_LOG]; [provider] and [logging] say
    whether the crypto provider and the subscriber could be installed, and
    [client] is the default namespace of the client, if there is one. *)
Definition cloner_main `{Clap} (provider logging : bool) (args : list string) (client : option string)
    : io (option string) ClonerExit :=
  if negb provider then panic else
  match cli_parse args with
  | None => ret UsageError
  | Some cli =>
      (if cli_debug cli then put (Some "debug") else ret tt) ;;;
      if negb logging then panic else
      match client with
      | None => ret NoClient
      | Some ns =>
          r <-- zoom (fun _ => tt) (fun _ s => s) (git_repo_cloner cli ns) ;;
          ret (ClonerReturned r)
      end
  end.
End Cloner.

(** ** Theorems *)

(** The tokens of the arguments that the controller writes. *)
Lemma cloner_tokens `{ClapLaws} kind name destination ref (preserve debug : bool) :
  starts_with "-" name = false -> starts_with "-" destination = false ->
  starts_with "-" (to_refname ref None).2 = false ->
  clap_tokens cli_option
    (["--kind"; TriggerSourceKind_to_string kind; "--source"; name; "--destination"; destination]
     ++ [(to_refname ref (Some "--")).1; (to_refname ref (Some "--")).2]
     ++ (if preserve then ["--preserve-git-folder"] else [])
     ++ (if debug then ["--debug"] else []))
  = Some ([("kind", Some (TriggerSourceKind_to_string kind)); ("source", Some name);
           ("destination", Some destination);
           ((to_refname ref None).1, Some (to_refname ref None).2)]
          ++ (if preserve then [("preserve-git-folder", None)] else [])
          ++ (if debug then [("debug", None)] else [])).
Proof.
  intros Hname Hdest Href. simpl app.
  rewrite (clap_value _ "kind"), (clap_value _ "source"), (clap_value _ "destination")
    by (done || by destruct kind).
  destruct ref as [v|v|v]; simpl in *;
    [rewrite (clap_value _ "branch")|rewrite (clap_value _ "tag")|rewrite (clap_value _ "commit")];
    try done; destruct preserve, debug; simpl app;
    rewrite ?(clap_flag _ "preserve-git-folder"), ?(clap_flag _ "debug"), ?clap_end by done; done.
Qed.

Lemma cloner_cli `{ClapLaws} kind name destination ref (preserve debug : bool) :
  starts_with "-" name = false -> starts_with "-" destination = false ->
  starts_with "-" (to_refname ref None).2 = false ->
  exists cli, cli_parse
    (["--kind"; TriggerSourceKind_to_string kind; "--source"; name; "--destination"; destination]
     ++ [(to_refname ref (Some "--")).1; (to_refname ref (Some "--")).2]
     ++ (if preserve then ["--preserve-git-folder"] else [])
     ++ (if debug then ["--debug"] else [])) = Some cli
    /\ cli_source_kind cli = kind /\ cli_source_name cli = name
    /\ reference_of_value (cli_reference cli) = Some ref
    /\ string_of_value (cli_reference cli) = Some (to_refname ref None).2
    /\ cli_destination cli = destination /\ cli_preserve_git_folder cli = preserve
    /\ cli_debug cli = debug.
Proof.
  intros Hname Hdest Href. unfold cli_parse. rewrite cloner_tokens by done.
  destruct ref as [v|v|v], preserve, debug, kind; eexists; by repeat split.
Qed.

(** C19. What the controller writes, the cloner reads: the arguments that
    [get_gitrepo_cloner_args] puts into a job parse, in the cloner, into the
    same source kind and name, the same kind and name of reference, the
    action's working directory (or the configured one) as destination, and
    the action's two switches; no conversion of the reference panics.  The
    source name, the reference and the directory must not start with a
    hyphen, which clap would take for an option. *)
Theorem cloner_args_roundtrip `{Ext, Clap, !ClapLaws, !ActionInternals A}
    (self : A) kind name ref (o : services) (u : unit) (t : trace) :
  starts_with "-" name = false -> starts_with "-" (to_refname ref None).2 = false ->
  (forall t, starts_with "-"
     (unwrap_or (mount_path (ac_workdir (rc_action (o t GetConfig))))
        (aj_workdir (action_job_spec self))) = false) ->
  wp (get_gitrepo_cloner_args self kind name ref) o u t (fun r _ _ =>
    exists args cli config, r = Ret args /\ cli_parse args = Some cli
      /\ cli_source_kind cli = kind /\ cli_source_name cli = name
      /\ reference_of_value (cli_reference cli) = Some ref
      /\ string_of_value (cli_reference cli) = Some (to_refname ref None).2
      /\ cli_destination cli = unwrap_or (mount_path (ac_workdir (rc_action config)))
           (aj_workdir (action_job_spec self))
      /\ cli_preserve_git_folder cli = aj_preserve_git_folder (action_job_spec self)
      /\ cli_debug cli = aj_enable_cloner_debug (action_job_spec self)).
Proof.
  intros Hname Href Hdest. unfold get_gitrepo_cloner_args. do 2 wp_step. rename r into config.
  rewrite (surjective_pairing (to_refname ref (Some "--"))). wp_step.
  destruct (cloner_cli kind name (unwrap_or (mount_path (ac_workdir (rc_action config)))
    (aj_workdir (action_job_spec self))) ref (aj_preserve_git_folder (action_job_spec self))
    (aj_enable_cloner_debug (action_job_spec self))) as (cli & Hcli); [done|by subst|done|].
  by eexists _, cli, config.
Qed.

(** The process that a job starts: with the arguments the controller wrote
    it gets past its command line, it raises the log level exactly when the
    action asks for it, and then it is [git_repo_cloner] on what the
    arguments mean, in the namespace of its client. *)
Theorem cloner_main_of_job `{Ext, Clap, !ClapLaws} kind name destination ref
    (preserve debug : bool) ns (o : services) (var : option string) (t : trace) :
  starts_with "-" name = false -> starts_with "-" destination = false ->
  starts_with "-" (to_refname ref None).2 = false ->
  let args := ["--kind"; TriggerSourceKind_to_string kind; "--source"; name;
    "--destination"; destination]
    ++ [(to_refname ref (Some "--")).1; (to_refname ref (Some "--")).2]
    ++ (if preserve then ["--preserve-git-folder"] else [])
    ++ (if debug then ["--debug"] else []) in
  exists cli, cli_parse args = Some cli
    /\ match cloner_main true true args (Some ns) o var t, git_repo_cloner cli ns o tt t with
       | (r, var', t1), (r', _, t2) =>
           r = match r' with Ret r' => Ret (ClonerReturned r') | Panic => Panic end
           /\ t1 = t2 /\ var' = if debug then Some "debug" else var
       end.
Proof.
  intros Hname Hdest Href args.
  destruct (cloner_cli kind name destination ref preserve debug)
    as (cli & Hcli & _ & _ & _ & _ & _ & _ & Hdebug); [done..|].
  exists cli. split; [exact Hcli|]. unfold cloner_main, args. cbn [negb]. rewrite Hcli.
  unfold bind, zoom, ret, put. rewrite Hdebug.
  destruct debug; simpl; by destruct (git_repo_cloner cli ns o () t) as [[[r'|] u] t'].
Qed.

Section ClonerFacts.
Context `{Ext}.

(** What the cloner may do to the file system and the network: fetch the
    given reference into the destination, and remove the [.git] folder of
    the destination unless it is preserved. *)
Definition cloner_event (cli : Cli) (name : string) (e : event resp) : Prop :=
  match e with
  | Ev c _ =>
      match c with
      | GitFetch path ref' _ => path = cli_destination cli /\ ref' = name
      | RemoveDirAll path =>
          cli_preserve_git_folder cli = false /\ path = cli_destination cli ^^ "/.git"
      | _ => True
      end
  end.

Lemma fetch_cloner_events {S R} `{!GitRepoInternals R} (self : R) cli name ns :
  calls_in (cloner_event cli name) (fetch_repo_ref (S:=S) self name (cli_destination cli) ns).
Proof.
  unfold fetch_repo_ref, fetch_origin, fetch_auth_secrets, fetch_tls_secrets, get_secret_strings,
    setup_auth, setup_certificate_check.
  calls_run; by simpl.
Qed.

(** The first call read the source the command line names. *)
Definition source_read (cli : Cli) (ns : string) (new : trace) : Prop :=
  match cli_source_kind cli with
  | KindGitRepo => exists repo rest,
      new = Ev (GetGitRepoApi ns (cli_source_name cli)) (Ok repo) :: rest
  | KindClusterGitRepo => exists repo rest,
      new = Ev (GetClusterGitRepoApi (cli_source_name cli)) (Ok repo) :: rest
  end.

Lemma source_read_app cli ns new k : source_read cli ns new -> source_read cli ns (new ++ k).
Proof.
  unfold source_read. destruct (cli_source_kind cli); intros (repo & rest & ->);
    by exists repo, (rest ++ k).
Qed.

(** A successful fetch has fetched. *)
Lemma wp_clone_fetch {R} `{!GitRepoInternals R} (self : R) cli name ns o (u : unit) t Q :
  (forall new r, Forall (cloner_event cli name) new ->
     (r = Ret (Ok tt) -> exists opts, Ev (GitFetch (cli_destination cli) name opts) (Ok tt) ∈ new) ->
     Q r u (t ++ new)) ->
  wp (clone_try (fetch_repo_ref self name (cli_destination cli) ns) (fun r => ret (Ok r)))
    o u t Q.
Proof.
  intros HQ. unfold clone_try. wp_step.
  apply (wp_mono _ _ _ _ (fun r s' t' => s' = u /\ (exists new, t' = t ++ new /\
    Forall (cloner_event cli name) new) /\ forall new, t' = t ++ new -> r = Ret (Ok tt) ->
      exists opts, Ev (GitFetch (cli_destination cli) name opts) (Ok tt) ∈ new)).
  - eapply wp_mono; [apply wp_and; [apply (fetch_cloner_events self)|]|].
    2: { intros r s' t' [H1 H2]. instantiate (1 := fun r s' t' => s' = u /\ forall new,
      t' = t ++ new -> r = Ret (Ok tt) ->
      exists opts, Ev (GitFetch (cli_destination cli) name opts) (Ok tt) ∈ new) in H2.
      by destruct H2 as [-> H2]. }
    apply wp_fetch_repo_ref; [done|done|]. intros new opts a _ _. split; [done|].
    intros new' <-%app_inv_head. destruct a as [[]|]; [|done]. intros _. exists opts. set_solver.
  - intros r s' t' (-> & (new & -> & Hnew) & Hfetch).
    destruct r as [[[]|e]|]; [wp_step..|]; apply HQ; try done. intros _. by apply Hfetch.
Qed.

Lemma wp_clone_commit cli name ref o (u : unit) t Q :
  (forall new r, Forall (cloner_event cli name) new ->
     (forall oid, r = Ret (Ok oid) ->
        Ev (GitCheckoutTree (cli_destination cli) oid) (Ok tt) ∈ new
        /\ forall c, ref = Commit c -> oid_from_str c = Ok oid) ->
     Q r u (t ++ new)) ->
  wp (get_latest_commit (cli_destination cli) ref) o u t Q.
Proof.
  intros HQ.
  assert (Hcalls : calls_in (cloner_event cli name)
    (get_latest_commit (S:=unit) (cli_destination cli) ref)).
  { unfold get_latest_commit. calls_run; by simpl. }
  eapply wp_mono; [apply wp_and; [apply Hcalls|apply wp_get_latest_commit]|].
  intros r u' t' [(new & -> & Hnew) (-> & ? & <-%app_inv_head & Href & Hco & _)].
  apply HQ; [done|]. intros oid Hr. destruct (Hco oid Hr) as [resolved Heq].
  split; [rewrite Heq; set_solver|]. intros c ->. by apply Href.
Qed.

Lemma wp_git_repo_cloner cli ns ref name o t :
  reference_of_value (cli_reference cli) = Some ref ->
  string_of_value (cli_reference cli) = Some name ->
  wp (git_repo_cloner cli ns) o tt t (fun r _ t' => exists new, t' = t ++ new
    /\ Forall (cloner_event cli name) new
    /\ (r = Ret (Ok tt) ->
        source_read cli ns new
        /\ (exists opts, Ev (GitFetch (cli_destination cli) name opts) (Ok tt) ∈ new)
        /\ (exists oid, Ev (GitCheckoutTree (cli_destination cli) oid) (Ok tt) ∈ new
            /\ forall c, ref = Commit c -> oid_from_str c = Ok oid)
        /\ (cli_preserve_git_folder cli = false ->
            last new = Some (Ev (RemoveDirAll (cli_destination cli ^^ "/.git")) (Ok tt))))).
Proof.
  intros Href Hname. unfold git_repo_cloner. rewrite Href, Hname. do 5 wp_step.
  apply (wp_mono _ _ _ _ (fun r _ t' => exists new, t' = t ++ new
    /\ Forall (cloner_event cli name) new
    /\ (r = Ret (Ok tt) -> source_read cli ns new
        /\ exists opts, Ev (GitFetch (cli_destination cli) name opts) (Ok tt) ∈ new))).
  - unfold clone_source, source_read. destruct (cli_source_kind cli); do 2 wp_step;
      (destruct r as [repo|e];
       [|wp_step; eexists; split; [done|]; split; [by repeat constructor|done]]);
      apply wp_clone_fetch; intros new r Hnew Hfetch; rewrite <- app_assoc; eexists;
      (split; [done|]; split; [by constructor|]); intros Hr;
      (split; [by eexists _, _|]); destruct (Hfetch Hr) as [opts Hin]; exists opts; set_solver.
  - intros [[[]|e]|] [] t' (new & -> & Hnew & Hok); [|exists new; by split_and!..].
    destruct (Hok eq_refl) as (Hread & opts & Hfetch). unfold clone_try. wp_step.
    apply wp_clone_commit with (ref := ref) (name := name). intros new1 r Hnew1 Hcommit.
    assert (Hall : Forall (cloner_event cli name) (new ++ new1)) by by apply Forall_app.
    rewrite <- app_assoc.
    destruct r as [[oid|e]|]; [|wp_step|]; [|by eexists..].
    destruct (Hcommit oid eq_refl) as [Hco Hc].
    assert (Hread' : forall k, source_read cli ns ((new ++ new1) ++ k)).
    { intros k. rewrite <- app_assoc. by apply source_read_app. }
    destruct (cli_preserve_git_folder cli) eqn:Hp.
    + wp_step. exists (new ++ new1). split; [done|]. split; [done|]. intros _.
      specialize (Hread' []). rewrite app_nil_r in Hread'. split; [done|].
      split; [exists opts; set_solver|]. split; [exists oid; set_solver|done].
    + do 2 wp_step. rewrite <- (app_assoc t).
      assert (Hrm : forall a, Forall (cloner_event cli name)
        ((new ++ new1) ++ [Ev (RemoveDirAll (cli_destination cli ^^ "/.git")) a])).
      { intros a. apply Forall_app. split; [done|]. by repeat constructor. }
      destruct r as [[]|e]; wp_step; eexists; (split; [done|]); (split; [by apply Hrm|]); [|done].
      intros _. split; [by apply Hread'|]. split; [exists opts; set_solver|].
      split; [exists oid; set_solver|]. intros _. by rewrite last_snoc.
Qed.

(** A job works on what it was asked for: whenever the cloner ends well,
    the repository resource of the asked kind and name was read from the
    API (in the pod's namespace for a [GitRepo]), its reference was fetched
    into the destination, a commit was checked out there - for a commit
    reference exactly that commit -, and the [.git] folder was removed as
    the last act unless it is to be preserved.  On every path it fetches
    nothing else and removes nothing else. *)
Theorem cloner_spec cli ns ref name o t :
  reference_of_value (cli_reference cli) = Some ref ->
  string_of_value (cli_reference cli) = Some name ->
  wp (git_repo_cloner cli ns) o tt t (fun r _ t' => exists new, t' = t ++ new
    /\ Forall (cloner_event cli name) new
    /\ (r = Ret (Ok tt) ->
        source_read cli ns new
        /\ (exists opts, Ev (GitFetch (cli_destination cli) name opts) (Ok tt) ∈ new)
        /\ (exists oid, Ev (GitCheckoutTree (cli_destination cli) oid) (Ok tt) ∈ new
            /\ forall c, ref = Commit c -> oid_from_str c = Ok oid)
        /\ (cli_preserve_git_folder cli = false ->
            last new = Some (Ev (RemoveDirAll (cli_destination cli ^^ "/.git")) (Ok tt))))).
Proof. apply wp_git_repo_cloner. Qed.
End ClonerFacts.

(** ** Examples *)

Fixpoint example_tokens (decl : string -> option bool) (args : list string)
    : option (list (string * option string)) :=
  match args with
  | [] => Some []
  | String "-" (String "-" name) :: args =>
      match decl name, args with
      | Some true, value :: args =>
          if starts_with "-" value then None
          else ((name, Some value) ::.) <$> example_tokens decl args
      | Some false, args => ((name, None) ::.) <$> example_tokens decl args
      | _, _ => None
      end
  | _ => None
  end.

#[local] Instance example_clap : Clap := {| clap_tokens := example_tokens |}.

#[local] Instance example_clap_laws : ClapLaws.
Proof.
  split; [done| |].
  - intros decl name value args Hdecl Hvalue. change ("--" ^^ name) with (String "-" (String "-" name)).
    unfold clap_tokens, example_clap. cbn [example_tokens]. by rewrite Hdecl, Hvalue.
  - intros decl name args Hdecl. change ("--" ^^ name) with (String "-" (String "-" name)).
    unfold clap_tokens, example_clap. cbn [example_tokens]. rewrite Hdecl. by destruct args.
Qed.

#[local] Existing Instance example_ext.

Definition build_action : Action := {|
  ac_name := "build"; ac_owner_ref := None; ac_source_override := None;
  ac_action_job := ActionJob_default |}.

Lemma cloner_args_roundtrip_witness :
  starts_with "-" "app" = false /\
  wp (get_gitrepo_cloner_args build_action KindGitRepo "app" (Tag "v1"))
    (quiet_services 0%Z RuntimeConfig_default) tt [] (fun r _ _ => exists args cli,
      r = Ret args /\ cli_parse args = Some cli
      /\ reference_of_value (cli_reference cli) = Some (Tag "v1")).
Proof.
  split; [done|].
  eapply wp_mono; [exact (cloner_args_roundtrip build_action KindGitRepo "app" (Tag "v1")
    (quiet_services 0%Z RuntimeConfig_default) tt [] eq_refl eq_refl (fun _ => eq_refl))|].
  intros r _ _ (args & cli & config & Hr & Hcli & _ & _ & Href & _). by exists args, cli.
Defined.

Definition example_cli : Cli := {|
  cli_source_kind := KindGitRepo; cli_source_name := "app";
  cli_reference := {| rv_branch := Some "main"; rv_tag := None; rv_commit := None |};
  cli_destination := "/work"; cli_preserve_git_folder := false; cli_debug := false |}.

Lemma cloner_spec_witness :
  wp (git_repo_cloner example_cli "ci") (quiet_services 0%Z RuntimeConfig_default) tt []
    (fun r _ t' => exists new, t' = [] ++ new
      /\ Forall (cloner_event example_cli "main") new).
Proof.
  eapply wp_mono; [exact (cloner_spec example_cli "ci" (Branch "main") "main"
    (quiet_services 0%Z RuntimeConfig_default) [] eq_refl eq_refl)|].
  intros r _ t' (new & Ht & Hnew & _). by exists new.
Defined.
