(* ===== verification/EndToEnd.v ===== *)
(** * From a change to a working tree

    What the components do together: a task puts a job into the queue, the
    job's init container is the cloner, and the cloner parses the arguments of
    the job and leaves the commit that caused the job in the volume the worker
    shares.  The task's run and the cloner's run have services of their own. *)

From stdpp Require Import base option gmap strings list.
From Stdlib Require Import Ascii ZArith Lia.
From S2P Require Import Prelude Strs Time Errors Config Ext Resources World Jobs JobsFacts Cache Statics Action GitRepo Trigger TriggerFacts SourceFacts TaskFacts TriggerExamples Cloner.
Local Open Scope string_scope.
Local Open Scope list_scope.

Section EndToEnd.
Context `{Ext, Clap, !ClapLaws}.
Implicit Types (o : services) (t : trace).

(** A word that the command line takes for a value. *)
Definition is_value (word : string) : Prop := starts_with "-" word = false.

(** The repository resource of a kind and name was read first. *)
Definition repository_read (kind : TriggerSourceKind) (name ns : string) (new : trace) : Prop :=
  match kind with
  | KindGitRepo => exists repo rest, new = Ev (GetGitRepoApi ns name) (Ok repo) :: rest
  | KindClusterGitRepo => exists repo rest, new = Ev (GetClusterGitRepoApi name) (Ok repo) :: rest
  end.

(** A successful run in [dir]: the repository was read, its reference fetched
    and a commit checked out there, the given one for a commit reference. *)
Definition cloned_into (dir ns : string) kind name ref (new : trace) : Prop :=
  repository_read kind name ns new
  /\ (exists opts, Ev (GitFetch dir (to_refname ref None).2 opts) (Ok tt) ∈ new)
  /\ exists oid, Ev (GitCheckoutTree dir oid) (Ok tt) ∈ new
       /\ forall c, ref = Commit c -> oid_from_str c = Ok oid.

(** [job] runs one cloner before one worker; they share a single volume, the
    worker starts in it, and whenever the cloner, run in the namespace of the
    job with the arguments it has there, ends well, the volume holds the given
    source at the given reference. *)
Definition job_clones (ns : string) (job : Job) kind name ref : Prop :=
  om_namespace (job_metadata job) = Some ns /\
  exists spec pod cloner worker mount args cli,
    job_spec job = Some spec /\ pt_spec (jspec_template spec) = Some pod
    /\ ps_init_containers pod = Some [cloner] /\ ps_containers pod = [worker]
    /\ ct_volume_mounts cloner = Some [mount] /\ ct_volume_mounts worker = Some [mount]
    /\ ct_working_dir worker = Some (vm_mount_path mount)
    /\ ct_args cloner = Some args /\ cli_parse args = Some cli
    /\ forall o' t', wp (git_repo_cloner cli ns) o' tt t' (fun r _ t'' => exists new,
         t'' = t' ++ new
         /\ (r = Ret (Ok tt) -> cloned_into (vm_mount_path mount) ns kind name ref new)).

Section of_action.
Context {A : Type} `{!ActionInternals A}.

(** A composed job clones what its action says, the override or the commit,
    if the words it passes are values. *)
Lemma made_job_clones o (self : A) config source_kind source_name commit trigger_ref ns tk tn id item :
  config_stable o config ->
  made_by o self source_kind source_name commit trigger_ref ns tk tn id item ->
  let '(kind, name, ref) := cloned_source self source_kind source_name commit in
  is_value name -> is_value (to_refname ref None).2 -> is_value (workdir_of self config) ->
  job_clones ns (item_job item) kind name ref.
Proof.
  intros Hstable [Hitem (job & spec & pod & cloner & worker & mount & owner & Hjob & _ & Hf)].
  destruct (cloned_source self source_kind source_name commit) as [[kind name] ref] eqn:Hsrc.
  intros Hname Href Hdir. split; [apply Hitem|].
  pose proof (jf_stable _ _ _ _ _ _ _ _ _ _ _ _ _ _ _ _ Hf config Hstable) as Hst.
  cbv zeta in Hst. rewrite Hsrc in Hst. destruct Hst as ((_ & _ & _ & _ & _ & Hmount) & Hargs & _).
  destruct (jf_containers _ _ _ _ _ _ _ _ _ _ _ _ _ _ _ _ Hf) as [Hinit Hworker].
  destruct (jf_mounts _ _ _ _ _ _ _ _ _ _ _ _ _ _ _ _ Hf) as (Hm1 & Hm2 & Hwd & _).
  destruct (cloner_cli kind name (vm_mount_path mount) ref
    (aj_preserve_git_folder (action_job_spec self)) (aj_enable_cloner_debug (action_job_spec self)))
    as (cli & Hcli & Hkind & Hcname & Hcref & Hstr & Hdest & _);
    [done|by rewrite Hmount|done|].
  eexists spec, pod, cloner, worker, mount, _, cli. rewrite Hjob. simpl.
  split; [apply (jf_spec _ _ _ _ _ _ _ _ _ _ _ _ _ _ _ _ Hf)|].
  split; [apply (jf_pod _ _ _ _ _ _ _ _ _ _ _ _ _ _ _ _ Hf)|].
  do 5 (split; [done|]). split; [exact Hargs|]. split; [exact Hcli|]. intros o' t'.
  eapply wp_mono; [by apply (wp_git_repo_cloner cli ns ref)|].
  intros r _ t'' (new & -> & _ & Hok). exists new. split; [done|]. intros Hr.
  destruct (Hok Hr) as (Hread & Hfetch & Hco & _). rewrite Hdest in Hfetch, Hco.
  split; [|by split]. unfold source_read in Hread. rewrite Hkind, Hcname in Hread. exact Hread.
Qed.
End of_action.

Section task.
Context {T : Type} `{!Trigger T}.

(** The job of [item] clones the source and commit that caused it, or the
    source that the action of kind [A], as the cache answered it in [new],
    puts in their place; if the words it passes are values. *)
Definition clones_with A `{!ApiCache A, !ActionInternals A} config (trigger : T) ns
    (namespace : option string) source commit (new : trace) (item : JobsQueueItem) : Prop :=
  let key := unwrap_or "default" namespace in
  let action_name_ := action_name (trigger_action trigger) in
  exists found (action : A), Ev (store_call (K:=A) key action_name_) found ∈ new
    /\ store_answer (K:=A) key action_name_ found = Some action
    /\ let '(kind, name, ref) :=
         cloned_source action (sources_kind (sources trigger)) source commit in
       is_value name -> is_value (to_refname ref None).2 -> is_value (workdir_of action config) ->
       job_clones ns (item_job item) kind name ref.

Definition clones_its_cause config (trigger : T) ns source commit (new : trace)
    (item : JobsQueueItem) : Prop :=
  match action_kind (trigger_action trigger) with
  | KindAction => clones_with Action config trigger ns (Some ns) source commit new item
  | KindClusterAction => clones_with ClusterAction config trigger ns None source commit new item
  end.

Lemma made_for_clones o config (trigger : T) ns name source commit id new item :
  config_stable o config ->
  made_for o trigger ns name source commit id new item ->
  clones_its_cause config trigger ns source commit new item.
Proof.
  intros Hstable. unfold made_for, clones_its_cause.
  case_match; intros (found & action & Hin & _ & Hfound & Hmade); exists found, action;
    (split; [done|]); (split; [done|]);
    exact (made_job_clones o action config _ _ _ _ _ _ _ _ _ Hstable Hmade).
Qed.

(** [item] is the job for a change of one of the task's sources: the source
    was observed in the task's folder in [new], what was found calls for the
    action against the state the trigger recorded, and the job clones it. *)
Definition clones_change config (trigger : T) ns name ts folder (new : trace)
    (item : JobsQueueItem) : Prop :=
  exists source suffix state commit,
    source ∈ sources_of trigger ts
    /\ observed trigger (task_folder folder ns name suffix ^^ "/" ^^ source) state new
    /\ commit_hash state = Some commit
    /\ needs_action trigger state (recorded_states trigger !! source) = true
    /\ clones_its_cause config trigger ns source commit new item.

Lemma caused_by_change_clones o config (trigger : T) ns name ts folder suffix source id new item :
  config_stable o config -> source ∈ sources_of trigger ts ->
  caused_by_change o trigger ns name source (task_folder folder ns name suffix ^^ "/" ^^ source)
    (recorded_states trigger !! source) id new item ->
  clones_change config trigger ns name ts folder new item.
Proof.
  intros Hstable Hin (state & commit & seen & made & -> & Hobs & Hc & Hn & Hmade).
  exists source, suffix, state, commit. split; [done|].
  split; [by apply (observed_app _ _ _ [])|]. do 2 (split; [done|]).
  eapply made_for_clones; [done|]. rewrite <- (app_nil_r made). by apply made_for_app.
Qed.

(** C11. From a change to a working tree.  Every job a task enqueues was caused
    by a source of the trigger that the cache held for the task: a commit of
    it was fetched and checked out in the task's folder and, with the files as
    they were read there, it calls for the action against the recorded state.
    And the job clones exactly that: its cloner, with the arguments it has in
    the job and in the job's namespace, whenever it ends well has read the
    repository of that kind and name, and has fetched and checked out that
    commit (or the action's overriding source and reference) in the volume
    where the worker starts; nothing is lost between the task, the job and the
    cloner's command line.  The configuration is not changed meanwhile, and
    the source's name, the reference and the folder that are passed do not
    begin with a hyphen. *)
Theorem task_to_working_tree ns name ts folder config o s t :
  let found := store_answer (K:=T) ns name
    (o (t ++ [Ev InstantNow (o t InstantNow)]) (store_call (K:=T) ns name)) in
  config_stable o config ->
  wp (trigger_task (T:=T) ns name ts folder) o s t (fun _ s' t' =>
    exists items new, t' = t ++ new /\ jobs_added s s' items
      /\ Forall (fun item => exists trigger, found = Some trigger
           /\ clones_change config trigger ns name ts folder new item) items).
Proof.
  intros found Hstable. eapply wp_mono; [apply wp_trigger_task|]. fold found.
  intros _ s' t' (items & new & -> & Hjobs & _ & Hwhy).
  exists items, new. split; [done|]. split; [done|].
  destruct found as [trigger|]; [|by rewrite Hwhy].
  destruct Hwhy as (suffix & order & per & Horder & -> & Hper).
  assert (Hin : forall source, source ∈ order -> source ∈ sources_of trigger ts).
  { intros source. rewrite Horder. by rewrite elem_of_elements. }
  clear Horder Hjobs. revert Hin.
  induction Hper as [|source l order per [_ Hl] _ IH]; intros Hin; simpl; [constructor|].
  apply Forall_app_2; [|apply IH; intros source' Hs; apply Hin; by right].
  eapply Forall_impl; [exact Hl|]. intros item Hc. exists trigger. split; [done|].
  eapply caused_by_change_clones; [done| |exact Hc]. apply Hin. by left.
Qed.
End task.
End EndToEnd.

(** ** Example *)

#[local] Existing Instance example_ext.
#[local] Existing Instance example_clap.
#[local] Existing Instance example_clap_laws.

Definition app_trigger : ScheduleTrigger := example_trigger (Interval "60s") None.

Definition app_repo : GitRepo := {|
  gr_name := "app"; gr_repo_uri := "https://git.example/app.git";
  gr_tls_config := None; gr_auth_config := None |}.

Definition owned_action : Action := {|
  ac_name := "build";
  ac_owner_ref := Some {| or_kind := "Action"; or_name := "build"; or_uid := "1" |};
  ac_source_override := None; ac_action_job := ActionJob_default |}.

(** The objects are in the cache, and the branch resolves to a commit. *)
Definition app_services : services := fun t c =>
  match c as c return resp c with
  | StoreScheduleTrigger _ _ => Some app_trigger
  | StoreGitRepo _ _ => Some app_repo
  | StoreAction _ _ => Some owned_action
  | c => quiet t c
  end.

Definition app_run : list JobsQueueItem :=
  match (trigger_task (T:=ScheduleTrigger) "ci" "hourly" All "/tmp" app_services ready_statics
           []).1.2 with
  | s => from_option queue_jobs [] (jobs_queue s)
  end.

(** The task enqueues one job, whose cloner is told to fetch the commit. *)
Example app_job_args :
  (fun item => job_spec (item_job item) ≫= fun spec => pt_spec (jspec_template spec) ≫= fun pod =>
     ps_init_containers pod ≫= fun l => head l ≫= ct_args) <$> app_run
  = [Some ["--kind"; "GitRepo"; "--source"; "app"; "--destination"; "/action_workdir";
           "--commit"; "c0ffee"]].
Proof. vm_compute. reflexivity. Qed.

Lemma task_to_working_tree_witness :
  wp (trigger_task (T:=ScheduleTrigger) "ci" "hourly" All "/tmp") app_services ready_statics []
    (fun _ s' t' => exists items new, t' = [] ++ new /\ jobs_added ready_statics s' items
      /\ Forall (fun item => exists trigger, Some app_trigger = Some trigger
           /\ clones_change RuntimeConfig_default trigger "ci" "hourly" All "/tmp" new item) items).
Proof.
  exact (task_to_working_tree (T:=ScheduleTrigger) "ci" "hourly" All "/tmp" RuntimeConfig_default
    app_services ready_statics [] (fun _ => eq_refl)).
Defined.
