(* ===== verification/TaskComplete.v ===== *)
(** * Trigger tasks: no change is missed

    The converse of TaskFacts.v: when the action can run, every source whose
    inspection finds something due gets its job, whatever happens to the
    other sources of the same task. *)

From stdpp Require Import base option gmap sets strings list.
From Stdlib Require Import Ascii ZArith Lia Permutation.
From S2P Require Import Prelude Strs Time Errors Config Ext Resources World Jobs JobsFacts Cache Statics Action GitRepo Trigger TriggerFacts SourceFacts TaskFacts TriggerExamples EndToEnd.
Local Open Scope string_scope.
Local Open Scope list_scope.

Section TaskComplete.
Context `{Ext}.
Implicit Types (o : services) (t : trace) (s : Statics).

#[local] Hint Resolve random_string_stateless update_trigger_status_stateless : stateless.

Lemma queue_open_added s s' items : queue_open s -> jobs_added s s' items -> queue_open s'.
Proof.
  intros (q & Hq & Halive) (_ & _ & Hq' & _). rewrite Hq in Hq'. eexists. split; [exact Hq'|].
  by destruct (enqueued_all items q) as (_ & _ & _ & _ & ->).
Qed.

(** The cache always knows an action of kind [A] under the key, with an
    owner. *)
Definition action_known A `{!ApiCache A, !ActionInternals A} o s (name : string)
    (namespace : option string) : Prop :=
  let key := unwrap_or "default" namespace in
  cell (K:=A) (api_cache s) = true
  /\ forall t, exists action : A, is_Some (owner_ref action)
       /\ store_answer (K:=A) key name (o t (store_call (K:=A) key name)) = Some action.

Section task.
Context {T : Type} `{!Trigger T}.
Implicit Types (trigger : T).

(** The trigger's action can run: it is known and the queue takes its jobs. *)
Definition action_ready o s trigger ns : Prop :=
  queue_open s /\ match action_kind (trigger_action trigger) with
  | KindAction => action_known Action o s (action_name (trigger_action trigger)) (Some ns)
  | KindClusterAction => action_known ClusterAction o s (action_name (trigger_action trigger)) None
  end.

Lemma action_ready_added o s s' trigger ns items :
  action_ready o s trigger ns -> jobs_added s s' items -> action_ready o s' trigger ns.
Proof.
  intros [Hopen Haction] Hjobs. split; [by eapply queue_open_added|].
  destruct Hjobs as [Hcache _]. unfold action_known in *. by rewrite Hcache.
Qed.

Lemma wp_run_known {A} `{!ApiCache A, !ActionInternals A} trigger source commit ns name
    namespace o s t :
  queue_open s -> action_known A o s (action_name (trigger_action trigger)) namespace ->
  wp (action <-? on_api_cache (cache_get (K:=A) (action_name (trigger_action trigger)) namespace) ;;
      execute action (sources_kind (sources trigger)) source commit
        (reference (watch_on (sources trigger))) ns (trigger_crd_kind T) name)%prog o s t
    (fun r _ _ => r = Ret (Ok tt)).
Proof.
  intros (q & Hq & Halive) [Hcell Hknown]. wp_step.
  apply (wp_get_cached (K:=A)); [done|]. intros found Hfound.
  destruct (Hknown t) as (action & [owner Howner] & Ha). rewrite <- Hfound in Ha. rewrite Ha.
  apply wp_execute; [by rewrite Howner|by rewrite Hq|].
  intros owner' q' item new _ Hq' _. rewrite Hq in Hq'. simplify_eq. by rewrite Halive.
Qed.

(** A ready action leaves exactly one job. *)
Lemma wp_run_ready trigger source commit ns name o s t :
  action_ready o s trigger ns ->
  wp (run_action trigger source commit ns name) o s t (fun r s' t' => r = Ret (Ok tt)
    /\ exists item new, t' = t ++ new /\ jobs_added s s' [item]
       /\ made_for o trigger ns name source commit (queue_identity s) new item).
Proof.
  intros [Hopen Haction].
  eapply wp_mono; [apply wp_and; [apply run_action_jobs|]|].
  - instantiate (1 := fun r _ _ => r = Ret (Ok tt)).
    revert Haction. unfold run_action.
    destruct (action_kind (trigger_action trigger)); intros; by apply wp_run_known.
  - intros r s' t' [(items & new & -> & Hjobs & _ & Hmade & Hone & _) ->]. split; [done|].
    specialize (Hone eq_refl). destruct items as [|item [|]]; [done| |done].
    exists item, new. split; [done|]. split; [done|]. by apply Forall_inv in Hmade.
Qed.

(** Publishing a status never stops a task whose trigger has a namespace. *)
Lemma wp_status_goes_on trigger st ch lr o s t Q :
  is_Some (trigger_namespace trigger) -> cell (K:=T) (api_cache s) = true ->
  (forall r new, Q (Ret r) s (t ++ new)) -> wp (update_trigger_status trigger st ch lr) o s t Q.
Proof.
  intros [ns Hns] Hcell HQ. apply wp_update_trigger_status; [done|by rewrite Hns|].
  intros ns' found _. simpl. case_match; auto.
Qed.

(** What is due for a source whose inspection ends with [verdict], against
    the recorded states: the commit to run the action for. *)
Definition due trigger (checked : gmap string CheckedSourceState)
    (verdict : string -> option CheckedSourceState) (source : string) : option string :=
  found ← verdict source;
  if needs_action trigger found (checked !! source) then commit_hash found else None.

(** Inspecting a source in any folder ends with [verdict]: what was found, or
    nothing when the source has to be given up this time. *)
Definition inspected o (c : ApiCacheStore) trigger ns source
    (verdict : option CheckedSourceState) : Prop :=
  forall path s t, api_cache s = c ->
    wp (inspect_source trigger source path ns) o s t (fun r _ _ => r = Ret verdict).

(** Something found comes with its commit. *)
Lemma inspected_commit o s trigger ns source found :
  inspected o (api_cache s) trigger ns source (Some found) -> is_Some (commit_hash found).
Proof.
  intros Hinsp.
  pose proof (wp_and _ _ _ _ _ _ (Hinsp "" s [] eq_refl)
    (wp_inspect_source (fun _ => True) trigger source "" ns o s []
       (fun r _ _ => forall st, r = Ret (Some st) -> is_Some (commit_hash st))
       (fun _ _ _ => I) (fun r new _ Hr st Hst =>
          observed_commit _ _ _ _ (Hr st Hst)))) as Hwp.
  unfold wp in Hwp. destruct (inspect_source _ _ _ _ _ _ _) as [[r s'] t'].
  destruct Hwp as [-> Hst]. by apply Hst.
Qed.

Definition folders_usable o : Prop := forall t path, is_ok (o t (CreateDirAll path)) = true.

(** The jobs of the due sources among [l], in their order. *)
Definition due_jobs o trigger ns name (checked : gmap string CheckedSourceState)
    (verdict : string -> option CheckedSourceState) id (new : trace) (l : list string)
    (items : list JobsQueueItem) : Prop :=
  Forall2 (fun job item => made_for o trigger ns name job.1 job.2 id new item)
    (omap (fun source => (source,.) <$> due trigger checked verdict source) l) items.

Lemma due_jobs_app o trigger ns name checked verdict id new1 new new2 l items :
  due_jobs o trigger ns name checked verdict id new l items ->
  due_jobs o trigger ns name checked verdict id (new1 ++ new ++ new2) l items.
Proof.
  intros Hjobs. eapply Forall2_impl; [exact Hjobs|]. intros. by apply made_for_app.
Qed.

Lemma due_jobs_sources o trigger ns name checked verdict id new source l items1 items2 :
  due_jobs o trigger ns name checked verdict id new [source] items1 ->
  due_jobs o trigger ns name checked verdict id new l items2 ->
  due_jobs o trigger ns name checked verdict id new (source :: l) (items1 ++ items2).
Proof.
  unfold due_jobs. intros H1 H2. change (source :: l) with ([source] ++ l).
  rewrite omap_app_eq. by apply Forall2_app.
Qed.

(** A step of a task: it goes on with [items] for the due ones of [l]. *)
Definition served o trigger ns name checked verdict (l : list string) s t
    (r : outcome unit) s' t' : Prop :=
  r = Ret tt /\ exists items new, t' = t ++ new /\ jobs_added s s' items
    /\ due_jobs o trigger ns name checked verdict (queue_identity s) new l items.

Lemma served_nothing o trigger ns name checked verdict source s t new :
  due trigger checked verdict source = None ->
  served o trigger ns name checked verdict [source] s t (Ret tt) s (t ++ new).
Proof.
  intros Hdue. split; [done|]. exists [], new. split; [done|].
  split; [apply jobs_added_none|]. unfold due_jobs. simpl. rewrite Hdue. constructor.
Qed.

Lemma served_one o trigger ns name checked verdict source commit item s t s' new :
  due trigger checked verdict source = Some commit ->
  jobs_added s s' [item] ->
  made_for o trigger ns name source commit (queue_identity s) new item ->
  served o trigger ns name checked verdict [source] s t (Ret tt) s' (t ++ new).
Proof.
  intros Hdue Hjobs Hmade. split; [done|]. exists [item], new. split; [done|].
  split; [done|]. unfold due_jobs. simpl. rewrite Hdue. by constructor.
Qed.

(** A surrounding of further events. *)
Lemma served_around o trigger ns name checked verdict l s t pre r s' t' new :
  served o trigger ns name checked verdict l s (t ++ pre) r s' t' ->
  served o trigger ns name checked verdict l s t r s' (t' ++ new).
Proof.
  intros (-> & items & mid & -> & Hjobs & Hdue). split; [done|].
  exists items, (pre ++ mid ++ new). rewrite !app_assoc. split; [done|]. split; [done|].
  rewrite <- app_assoc. by apply due_jobs_app.
Qed.

Context (o : services) (trigger : T) (ns name : string).
Context (verdict : string -> option CheckedSourceState).
Context (Hns : is_Some (trigger_namespace trigger)).
Context (Hfolders : folders_usable o).

Lemma wp_settle_served checked source found s t :
  verdict source = Some found -> is_Some (commit_hash found) ->
  cell (K:=T) (api_cache s) = true -> action_ready o s trigger ns ->
  wp (settle_source trigger ns name source checked found) o s t
    (served o trigger ns name checked verdict [source] s t).
Proof.
  intros Hverdict [commit Hc] Hcell Hready. unfold settle_source.
  assert (Hdue : due trigger checked verdict source
    = if needs_action trigger found (checked !! source) then Some commit else None).
  { unfold due. rewrite Hverdict. simpl. by case_match. }
  destruct (needs_action trigger found (checked !! source)).
  - do 2 wp_step. rewrite Hc. wp_step. eapply wp_mono; [by apply wp_run_ready|].
    intros r s1 t1 (-> & item & new & -> & Hjobs & Hmade).
    do 4 wp_step. wp_step. apply wp_status_goes_on; [done|by destruct Hjobs as [-> _]|].
    intros r' new2. wp_step. rewrite <- !app_assoc. eapply served_one; [done|done|].
    by apply (made_for_app _ _ _ _ _ _ _ []).
  - wp_step. apply wp_status_goes_on; [done|done|]. intros r' new. wp_step.
    by apply served_nothing.
Qed.

Lemma wp_check_served base checked source s t :
  inspected o (api_cache s) trigger ns source (verdict source) ->
  cell (K:=T) (api_cache s) = true -> action_ready o s trigger ns ->
  wp (check_source trigger ns name base checked source) o s t
    (served o trigger ns name checked verdict [source] s t).
Proof.
  intros Hinsp Hcell Hready. pose proof Hinsp as Hinsp'. unfold check_source. do 4 wp_step.
  pose proof (Hfolders (t ++ [Ev (RemoveDirAll (base ^^ "/" ^^ source)) r])
    (base ^^ "/" ^^ source)) as Hok. rewrite <- H1 in Hok. destruct r0 as [[]|]; [|done].
  wp_step. eapply wp_mono; [apply wp_and; [by apply Hinsp|]|].
  { apply (wp_inspect_source (fun _ => True)) with (Q := fun _ s' t' => s' = s /\ exists new,
      t' = t ++ new); [done|]. intros r' new _ _. split; [done|].
    eexists. by rewrite <- !app_assoc. }
  intros r1 s1 t1 (-> & -> & new & ->). destruct (verdict source) as [found|] eqn:Hv; wp_step.
  - eapply wp_mono; [by apply wp_settle_served; [|by eapply inspected_commit|..]|]. intros r' s2 t2 Hserved.
    assert (r' = Ret tt) as -> by apply Hserved. do 3 wp_step. by eapply served_around.
  - apply served_nothing. unfold due. by rewrite Hv.
Qed.

Lemma wp_sources_served base checked l s t :
  (forall source, source ∈ l -> inspected o (api_cache s) trigger ns source (verdict source)) ->
  cell (K:=T) (api_cache s) = true -> action_ready o s trigger ns ->
  wp (for_each (check_source trigger ns name base checked) l) o s t
    (served o trigger ns name checked verdict l s t).
Proof.
  revert s t. induction l as [|source l IH]; intros s t Hinsp Hcell Hready; simpl.
  { wp_step. split; [done|]. exists [], []. rewrite app_nil_r. split; [done|].
    split; [apply jobs_added_none|constructor]. }
  wp_step. eapply wp_mono; [apply wp_check_served; [apply Hinsp; by left|done..]|].
  intros r s1 t1 (-> & items1 & new1 & -> & Hjobs1 & Hdue1).
  assert (Hcache : api_cache s1 = api_cache s) by apply Hjobs1.
  eapply wp_mono; [apply IH|].
  - intros source' Hin. rewrite Hcache. apply Hinsp. by right.
  - by rewrite Hcache.
  - by eapply action_ready_added.
  - intros r s2 t2 (-> & items2 & new2 & -> & Hjobs2 & Hdue2). split; [done|].
    exists (items1 ++ items2), (new1 ++ new2). rewrite app_assoc. split; [done|].
    split; [by eapply jobs_added_app|]. rewrite (jobs_added_identity _ _ _ Hjobs1) in Hdue2.
    apply due_jobs_sources; [by apply (due_jobs_app _ _ _ _ _ _ _ [])|].
    rewrite <- (app_nil_r new2). by apply due_jobs_app.
Qed.

#[local] Arguments random_string : simpl never.

Lemma wp_task_served ts folder s t :
  let checked := known_sources trigger
    (checked_sources (unwrap_or TriggerStatus_default (trigger_status trigger))) in
  store_answer (K:=T) ns name
    (o (t ++ [Ev InstantNow (o t InstantNow)]) (store_call (K:=T) ns name)) = Some trigger ->
  cell (K:=T) (api_cache s) = true -> action_ready o s trigger ns ->
  (forall source, source ∈ sources_of trigger ts ->
     inspected o (api_cache s) trigger ns source (verdict source)) ->
  wp (trigger_task (T:=T) ns name ts folder) o s t (fun r s' t' =>
    exists order, order ≡ₚ elements (sources_of trigger ts)
      /\ served o trigger ns name checked verdict order s t r s' t').
Proof.
  intros checked Hknown Hcell Hready Hinsp. unfold trigger_task. do 3 wp_step.
  apply (wp_get_cached (K:=T)); [done|]. intros found Hfound.
  simpl in found, Hfound |- *. rewrite <- H0 in Hknown. rewrite <- Hfound in Hknown.
  rewrite Hknown. wp_step. rewrite <- app_assoc. fold checked.
  eapply wp_mono with (P := fun r s' t' => exists order,
    order ≡ₚ elements (sources_of trigger ts)
    /\ served o trigger ns name checked verdict order s t r s' t').
  2: { intros r1 s2 t2 (order & Horder & Hserved). assert (r1 = Ret tt) as -> by apply Hserved.
       do 2 wp_step. unfold trigger_count_and_measure.
       wp_run; exists order; (split; [done|]); rewrite <- ?app_assoc;
         apply (served_around _ _ _ _ _ _ _ _ _ []); rewrite app_nil_r;
         lazymatch goal with
         | |- served _ _ _ _ _ _ _ _ _ (Ret tt) _ _ => done
         | |- served _ _ _ _ _ _ _ _ _ (Ret ?r) _ _ => by destruct r
         end. }
  wp_step. apply wp_random_string_extends. intros suffix new2. wp_step.
  apply wp_status_goes_on; [done|done|]. intros r1 new3. do 2 wp_step.
  destruct r0 as [order Horder]. simpl. wp_step.
  assert (Horder' : order ≡ₚ elements (sources_of trigger ts)) by (rewrite Horder; by destruct ts).
  eapply wp_mono; [apply wp_sources_served; [|done..]|].
  { intros source Hin. apply Hinsp. rewrite Horder' in Hin. by apply elem_of_elements. }
  intros r2 s2 t2 Hserved. assert (Hcache : api_cache s2 = api_cache s).
  { by destruct Hserved as (_ & ? & ? & _ & [? _] & _). }
  assert (r2 = Ret tt) as -> by apply Hserved. do 3 wp_step.
  apply wp_status_goes_on; [done|by rewrite Hcache|]. intros r3 new4. wp_step.
  exists order. split; [done|]. rewrite <- app_assoc. rewrite <- !app_assoc in Hserved.
  by eapply served_around.
Qed.
End task.

(** C12. No change is missed, and no source is in the way of another.  When a
    task finds its trigger in the cache, can make its folders, and the
    trigger's action is known, has an owner and finds the queue open, then
    the task comes to its end, and for every source whose inspection found
    something that calls for the action - against the states the status
    recorded - the queue got exactly one job, the action's job for that
    source and the commit that was found, in the order the sources were
    checked; the sources that had to be given up, before or after it, cost
    it nothing, and nothing else was enqueued.  Status patches may fail. *)
Theorem no_change_missed {T} `{!Trigger T} (trigger : T) ns name ts folder verdict o s t :
  let checked := known_sources trigger
    (checked_sources (unwrap_or TriggerStatus_default (trigger_status trigger))) in
  is_Some (trigger_namespace trigger) -> folders_usable o ->
  store_answer (K:=T) ns name
    (o (t ++ [Ev InstantNow (o t InstantNow)]) (store_call (K:=T) ns name)) = Some trigger ->
  cell (K:=T) (api_cache s) = true -> action_ready o s trigger ns ->
  (forall source, source ∈ sources_of trigger ts ->
     inspected o (api_cache s) trigger ns source (verdict source)) ->
  wp (trigger_task (T:=T) ns name ts folder) o s t (fun r s' t' =>
    r = Ret tt /\ exists order items new, order ≡ₚ elements (sources_of trigger ts)
      /\ t' = t ++ new /\ jobs_added s s' items
      /\ due_jobs o trigger ns name checked verdict (queue_identity s) new order items).
Proof.
  intros checked Hns Hfolders Hknown Hcell Hready Hinsp.
  eapply wp_mono; [by apply (wp_task_served o trigger ns name verdict)|].
  intros r s' t' (order & Horder & -> & items & new & Hnew). split; [done|].
  by exists order, items, new.
Qed.

(** ** What was recorded does not run again *)

Section recorded.
Context {T : Type} `{!Trigger T}.
Implicit Types (trigger later : T).

(** The cache keeps the source in the trigger. *)
Definition keeps_source o trigger source : Prop :=
  forall t ns cached, trigger_namespace trigger = Some ns ->
    store_answer (K:=T) ns (trigger_name trigger)
      (o t (store_call (K:=T) ns (trigger_name trigger))) = Some cached ->
    source ∈ names (sources cached).

Lemma new_status_records trigger st source state lr :
  source ∈ names (sources trigger) ->
  checked_sources (new_status trigger st (Some {[ source := state ]}) lr) !! source = Some state.
Proof.
  intros Hin. unfold new_status, known_sources. destruct (trigger_status trigger) as [old|]; simpl.
  - apply map_lookup_filter_Some. split; [|done].
    apply lookup_union_Some_l. by rewrite lookup_singleton_eq.
  - by rewrite lookup_singleton_eq.
Qed.

(** The same observation calls for nothing once it is recorded. *)
Lemma recorded_settles later found recorded source (checked : gmap string CheckedSourceState) :
  on_change_only (watch_on (sources later)) = true -> source ∈ names (sources later) ->
  checked !! source = Some recorded -> commit_hash recorded = commit_hash found ->
  file_hash recorded = file_hash found ->
  needs_action later found (known_sources later checked !! source) = false.
Proof.
  intros Hchange Hin Hrec Hcommit Hfile.
  assert (Hknown : known_sources later checked !! source = Some recorded).
  { by apply map_lookup_filter_Some. }
  rewrite Hknown. apply needs_action_false. split; [done|]. by case_match.
Qed.

(** Every status that is published in [new] settles the observation. *)
Definition settles source (found : CheckedSourceState) (new : trace) : Prop :=
  forall kind ns name st r later, Ev (PatchStatus kind ns name st) r ∈ new ->
    trigger_status later = Some st -> source ∈ names (sources later) ->
    on_change_only (watch_on (sources later)) = true ->
    needs_action later found (known_sources later (checked_sources st) !! source) = false.

Lemma settles_no_patch source found new : Forall no_patch new -> settles source found new.
Proof.
  intros Hnew kind ns name st r later Hin. rewrite Forall_forall in Hnew.
  by specialize (Hnew _ Hin).
Qed.

Lemma settles_app source found new1 new2 :
  settles source found new1 -> settles source found new2 -> settles source found (new1 ++ new2).
Proof. intros H1 H2 kind ns name st r later [Hin|Hin]%elem_of_app; eauto. Qed.

Lemma wp_status_settles trigger st source state lr found o s t Q :
  cell (K:=T) (api_cache s) = true -> keeps_source o trigger source ->
  commit_hash state = commit_hash found -> file_hash state = file_hash found ->
  (forall r new, settles source found new -> Q r s (t ++ new)) ->
  wp (update_trigger_status trigger st (Some {[ source := state ]}) lr) o s t Q.
Proof.
  intros Hcell Hkeeps Hcommit Hfile HQ. unfold update_trigger_status. do 2 wp_step.
  destruct (trigger_namespace trigger) as [ns|] eqn:Hns.
  2: { specialize (HQ Panic []). rewrite app_nil_r in HQ. by apply HQ, settles_no_patch. }
  wp_step. apply wp_get_cached; [done|]. intros answer Hanswer. simpl in answer, Hanswer |- *.
  assert (Hlookup : no_patch (Ev (store_call (K:=T) ns (trigger_name trigger)) answer)).
  { simpl. pose proof (store_call_lookup (K:=T) ns (trigger_name trigger)).
    by destruct (store_call ns (trigger_name trigger)). }
  destruct (store_answer ns (trigger_name trigger) answer) as [cached|] eqn:Ha;
    [|by apply HQ, settles_no_patch; constructor].
  assert (Hin : source ∈ names (sources cached)) by (subst answer; eauto).
  do 2 wp_step. rewrite <- app_assoc.
  assert (Hsettles : forall r, settles source found
    ([Ev (store_call (K:=T) ns (trigger_name trigger)) answer] ++
     [Ev (PatchStatus (trigger_crd_kind T) ns (trigger_name trigger)
        (new_status cached st (Some {[ source := state ]}) lr)) r])).
  { intros r'. apply settles_app; [by apply settles_no_patch; constructor|].
    intros kind ns' name status r'' later Hev%list_elem_of_singleton Hst Hnames Hchange.
    injection Hev as -> -> -> ->. eapply recorded_settles; [done|done| |done|done].
    by apply new_status_records. }
  destruct r as [[]|e]; wp_step; apply HQ, Hsettles.
Qed.

Lemma wp_settle_source_settles trigger ns name source checked found o s t :
  cell (K:=T) (api_cache s) = true -> keeps_source o trigger source ->
  wp (settle_source trigger ns name source checked found) o s t (fun _ _ t' =>
    exists new, t' = t ++ new /\ settles source found new).
Proof.
  intros Hcell Hkeeps. unfold settle_source.
  destruct (needs_action trigger found (checked !! source)).
  - do 2 wp_step. destruct (commit_hash found) as [commit|] eqn:Hc.
    2: { exists []. rewrite app_nil_r. split; [done|by apply settles_no_patch]. }
    wp_step. eapply wp_mono; [apply wp_and; [apply run_action_jobs|apply run_action_inner]|].
    intros r s1 t1 [(items & new1 & -> & [Hcache _] & _) (? & <-%app_inv_head & Hnew1%inner_no_patch)].
    assert (Hstop : exists new, t ++ new1 = t ++ new /\ settles source found new).
    { exists new1. split; [done|by apply settles_no_patch]. }
    destruct r as [[[]|e]|]; [|by wp_step|done].
    do 4 wp_step. rewrite <- !app_assoc. wp_step. apply wp_status_settles with (found := found);
      [by rewrite Hcache|done|done|done|].
    intros r' new2 Hnew2.
    assert (Hall : settles source found (new1 ++ [Ev UtcNow r] ++ [Ev UtcNow r0] ++ new2)).
    { apply settles_app; [by apply settles_no_patch|].
      repeat (apply settles_app; [by apply settles_no_patch; repeat constructor|]). done. }
    destruct r'; [wp_step|]; (eexists; rewrite <- !app_assoc; split; [reflexivity|done]).
  - wp_step. apply wp_status_settles with (found := found); [done|done|by case_match..|].
    intros r new Hnew. destruct r; [wp_step|]; by exists new.
Qed.

(** What a turn may publish: nothing, or a status that settles what it found;
    and then, if that called for the action, its job was enqueued. *)
Definition settles_once trigger source path (current : option CheckedSourceState)
    (items : list JobsQueueItem) (new : trace) : Prop :=
  Forall no_patch new
  \/ exists found, observed trigger path found new /\ settles source found new
       /\ (needs_action trigger found current = true -> length items = 1).

Lemma settlement_once o trigger ns name source path current found s s' items pre new last :
  settlement o trigger ns name source found current s s' items new ->
  settles source found new -> Forall no_patch pre -> observed trigger path found pre ->
  Forall no_patch last ->
  jobs_added s s' items /\ length items <= 1
  /\ settles_once trigger source path current items (pre ++ new ++ last).
Proof.
  intros Hset Hnew Hpre Hobs Hlast.
  assert (Hdone : (needs_action trigger found current = true -> length items = 1) ->
    settles_once trigger source path current items (pre ++ new ++ last)).
  { intros Hone. right. exists found. split; [by apply (observed_app _ _ _ [])|]. split; [|done].
    repeat apply settles_app; [by apply settles_no_patch|done|by apply settles_no_patch]. }
  unfold settlement in Hset. destruct (needs_action trigger found current); cycle 1.
  { destruct Hset as (-> & -> & _). split; [apply jobs_added_none|]. simpl. split; [lia|by apply Hdone]. }
  destruct (commit_hash found) as [commit|]; cycle 1.
  { destruct Hset as (-> & -> & ->). split; [apply jobs_added_none|]. simpl. split; [lia|].
    left. by apply Forall_app_2. }
  destruct Hset as (running & published & -> & Hrun%inner_no_patch & Hjobs & Hlen & _ & Hpub).
  split; [done|]. split; [done|]. destruct Hpub as [[-> _]|[Hone _]]; [|by apply Hdone].
  left. rewrite app_nil_r. by repeat apply Forall_app_2.
Qed.

(** C13. A change runs its action once.  Whatever the turn of a source
    publishes - after enqueueing its job, or when nothing was due - settles
    what the turn found: a later task whose trigger has that status, still
    lists the source and runs on changes only, and which finds the same commit
    and hash, has no reason to act.  And a change is not settled without its
    job: a turn that publishes a status although the action was called for has
    enqueued exactly one job.  The trigger's cache runs, and the trigger it
    answers lists the source whenever it is read. *)
Theorem recorded_not_run_again trigger ns name base source checked o s t :
  cell (K:=T) (api_cache s) = true -> keeps_source o trigger source ->
  wp (check_source trigger ns name base checked source) o s t (fun _ s' t' =>
    exists items new, t' = t ++ new /\ jobs_added s s' items /\ length items <= 1
      /\ settles_once trigger source (base ^^ "/" ^^ source) (checked !! source) items new).
Proof.
  intros Hcell Hkeeps. unfold check_source. do 4 wp_step. rewrite <- app_assoc. simpl app.
  assert (Hgive : forall new, Forall no_patch new -> exists items new', t ++ new = t ++ new'
    /\ jobs_added s s items /\ length items <= 1
    /\ settles_once trigger source (base ^^ "/" ^^ source) (checked !! source) items new').
  { intros new Hnew. exists [], new. split; [done|]. split; [apply jobs_added_none|].
    simpl. split; [lia|by left]. }
  destruct r0 as [[]|e]; [|wp_step; apply Hgive; by repeat constructor].
  wp_step. apply (wp_inspect_source no_patch); [by intros []|].
  intros r1 new1 Hnew1 Hobs. rewrite <- app_assoc.
  assert (Hpre : Forall no_patch ([Ev (RemoveDirAll (base ^^ "/" ^^ source)) r;
    Ev (CreateDirAll (base ^^ "/" ^^ source)) (Ok tt)] ++ new1)) by (by repeat constructor).
  destruct r1 as [[found|]|]; [|by wp_step; apply Hgive|by apply Hgive].
  wp_step. eapply wp_mono; [apply wp_and; [apply wp_settle_source|
    by apply (wp_settle_source_settles trigger ns name source checked found)]|].
  intros r1 s' t' [(items & new & -> & Hset) (? & <-%app_inv_head & Hnew)].
  set (pre := _ ++ new1) in *.
  assert (Hend : forall last, Forall no_patch last -> exists items new',
    (t ++ pre) ++ new ++ last = t ++ new' /\ jobs_added s s' items /\ length items <= 1
    /\ settles_once trigger source (base ^^ "/" ^^ source) (checked !! source) items new').
  { intros last Hlast. exists items, (pre ++ new ++ last). rewrite <- app_assoc. split; [done|].
    eapply settlement_once; [exact Hset|done|done| |done]. unfold pre.
    rewrite <- (app_nil_r new1). by apply observed_app, Hobs. }
  destruct r1; [|specialize (Hend []); rewrite app_nil_r in Hend; by apply Hend].
  do 3 wp_step. rewrite <- (app_assoc (t ++ pre)). apply Hend. by repeat constructor.
Qed.
End recorded.
End TaskComplete.

(** ** Example *)

#[local] Existing Instance example_ext.

(** Two sources, one of which has no repository. *)
Definition pair_trigger : ScheduleTrigger := {|
  st_name := "hourly"; st_namespace := Some "ci";
  st_spec := {|
    sts_sources := {| sources_kind := KindGitRepo; names := ["gone"; "app"];
      watch_on := {| on_change_only := true; reference := TriggerGitRepoReference_default;
                     files := None |} |};
    sts_schedule := Interval "60s";
    sts_action := {| action_kind := KindAction; action_name := "build" |} |};
  st_status := None |}.

Definition pair_services : services := fun t c =>
  match c as c return resp c with
  | StoreScheduleTrigger _ _ => Some pair_trigger
  | StoreGitRepo _ name => if String.eqb name "app" then Some app_repo else None
  | StoreAction _ _ => Some owned_action
  | c => quiet t c
  end.

Definition pair_verdict (source : string) : option CheckedSourceState :=
  if String.eqb source "app"
  then Some {| commit_hash := Some "c0ffee"; file_hash := None; changed := None |} else None.

Lemma no_change_missed_witness :
  wp (trigger_task (T:=ScheduleTrigger) "ci" "hourly" All "/tmp") pair_services ready_statics []
    (fun r s' t' => r = Ret tt /\ exists order items new,
       order ≡ₚ elements (sources_of pair_trigger All)
       /\ t' = [] ++ new /\ jobs_added ready_statics s' items
       /\ due_jobs pair_services pair_trigger "ci" "hourly"
            (known_sources pair_trigger (checked_sources
               (unwrap_or TriggerStatus_default (trigger_status pair_trigger))))
            pair_verdict (queue_identity ready_statics) new order items)
  /\ due pair_trigger (known_sources pair_trigger (checked_sources
               (unwrap_or TriggerStatus_default (trigger_status pair_trigger))))
       pair_verdict "app" = Some "c0ffee".
Proof.
  split; [|reflexivity].
  refine (no_change_missed pair_trigger "ci" "hourly" All "/tmp" pair_verdict pair_services
    ready_statics [] _ _ eq_refl eq_refl _ _).
  - by exists "ci".
  - done.
  - split; [by eexists|]. split; [done|]. intros t. exists owned_action. split; [by eexists|done].
  - intros source Hin path s t Hs. destruct s as [c sc q]. simpl in Hs. subst c.
    assert (source = "gone" \/ source = "app") as [->| ->] by set_solver; reflexivity.
Defined.

Lemma recorded_not_run_again_witness :
  keeps_source pair_services pair_trigger "app" /\
  wp (check_source pair_trigger "ci" "hourly" "/tmp" ∅ "app")
    pair_services ready_statics [] (fun _ s' t' => exists items new,
      t' = [] ++ new /\ jobs_added ready_statics s' items /\ length items <= 1
      /\ settles_once pair_trigger "app" "/tmp/app"
           ((∅ : gmap string CheckedSourceState) !! "app") items new).
Proof.
  assert (Hkeeps : keeps_source pair_services pair_trigger "app").
  { intros t ns cached _ [= <-]. simpl. set_solver. }
  split; [done|].
  exact (recorded_not_run_again pair_trigger "ci" "hourly" "/tmp" "app" ∅ pair_services
    ready_statics [] eq_refl Hkeeps).
Defined.
