(* ===== verification/Controller.v ===== *)
(** * The leader's controllers (src/src/controller.rs)

    The reconciler that the Controller of the kube crate calls for every
    delivered [ScheduleTrigger], with its metrics and its error policy, and
    the life of the leader's controllers from their start to the shutdown of
    their task scheduler. *)

From stdpp Require Import base option gmap strings list.
From Stdlib Require Import ZArith Lia.
From S2P Require Import Prelude Strs Time Errors Config Ext Resources World Metrics Jobs Cache Statics Action GitRepo Trigger TriggerFacts.
Local Open Scope string_scope.
Local Open Scope list_scope.
Local Open Scope prog_scope.

Section Controller.
Context `{Ext}.

(** ** Metrics *)

Definition reconcile_count_and_measure {S} (namespace resource_kind resource_name : string)
    (latency : Duration) : io S unit :=
  let labels := [namespace; resource_kind; resource_name] in
  ok <-- call (MetricWithLabels ReconcileCount labels) ;;
  (if (ok : bool) then call (CounterInc ReconcileCount labels) else ret tt) ;;;
  ok <-- call (MetricWithLabels ReconcileDuration labels) ;;
  if (ok : bool) then call (HistogramObserve ReconcileDuration labels latency) else ret tt.

Definition count_failed {S} (namespace resource_kind resource_name : string) : io S unit :=
  let labels := [namespace; resource_kind; resource_name] in
  ok <-- call (MetricWithLabels FailedReconcileCount labels) ;;
  if (ok : bool) then call (CounterInc FailedReconcileCount labels) else ret tt.

(** ** Shared state *)

(** [State] and [Context].  [diagnostics] is shared by reference, so the
    time of the last event lives in the state of the reconcilers; the client
    and the handles of the scheduler and of the event recorder have no part
    of their own here. *)
Record State := {
  state_ready : bool;
  state_source_clone_folder : string }.

Definition State_new (source_clone_folder : string) : State := {|
  state_ready := false; state_source_clone_folder := source_clone_folder |}.

(** [State::to_context] with the triggers of the caller: the state that the
    reconcilers work on and the folder they clone to. *)
Definition to_context (self : State) (shared : ControllerState) (triggers_ : TriggersState)
    : ControllerState * string :=
  ({| statics := statics shared; triggers := triggers_; last_event := last_event shared |},
   state_source_clone_folder self).

(** ** Reconciling *)

Inductive Finalizer : Type :=
| FinalizerApply (resource : ScheduleTrigger)
| FinalizerCleanup (resource : ScheduleTrigger).

(** kube's [finalizer]: it adds the finalizer to the resource, or calls the
    handler to apply it, or to clean it up before it removes the finalizer,
    or finds nothing to do.  Its requests to the API are its own; its error
    is turned into a message. *)
Class KubeFinalizer : Type := {
  kube_finalizer : string -> ScheduleTrigger ->
    (Finalizer -> io ControllerState (result Error ReconcileAction)) ->
    io ControllerState (result string ReconcileAction) }.

Context `{KubeFinalizer}.

Definition error_policy {S} (resource : ScheduleTrigger) (error : Error) : io S ReconcileAction :=
  count_failed (unwrap_or "" (st_namespace resource)) "ScheduleTrigger" (st_name resource) ;;;
  ret AwaitChange.

Definition set_last_event (now : Z) (c : ControllerState) : ControllerState :=
  {| statics := statics c; triggers := triggers c; last_event := now |}.

Definition reconcile_namespaced (source_clone_folder : string) (resource : ScheduleTrigger)
    : io ControllerState (result Error ReconcileAction) :=
  start <-- call InstantNow ;;
  now <-- call UtcNow ;;
  modify (set_last_event now) ;;;
  ns <-- unwrap (st_namespace resource) ;;
  result <--
    match finalizer_name with
    | Some finalizer_name =>
        r <-- kube_finalizer finalizer_name resource (fun event =>
          match event with
          | FinalizerApply resource => reconcile resource source_clone_folder
          | FinalizerCleanup resource => cleanup resource
          end) ;;
        ret (map_err FinalizerError r)
    | None => reconcile resource source_clone_folder
    end ;;
  finish <-- call InstantNow ;;
  reconcile_count_and_measure ns "ScheduleTrigger" (st_name resource) (Z.max 0 (finish - start)) ;;;
  ret result.

(** One delivery of the Controller: the reconciler, then the error policy
    for an error. *)
Definition deliver (source_clone_folder : string) (resource : ScheduleTrigger)
    : io ControllerState unit :=
  result <-- reconcile_namespaced source_clone_folder resource ;;
  match (result : Prelude.result Error ReconcileAction) with
  | Ok _ => ret tt
  | Err error => error_policy resource error ;;; ret tt
  end.

(** ** The leader's controllers *)

(** [check_api_by_list] of a custom resource. *)
Definition check_api_by_list {S} (crd_kind : string) : io S (result Error unit) :=
  listed <-- call (ListCrd crd_kind 1) ;;
  match (listed : result KubeErr unit) with
  | Err e => ret (Err (KubeError e))
  | Ok _ => ret (Ok tt)
  end.

(** A task that is spawned and joined: a panic ends the task and nothing else;
    the join then has an error, which is ignored. *)
Definition spawn_join {S A} (task : io S A) : io S (option A) :=
  fun o s t =>
    match task o s t with
    | (Ret a, s', t') => (Ret (Some a), s', t')
    | (Panic, s', t') => (Ret None, s', t')
    end.

(** How [run_leader_controllers] ends the call: the process exits when the
    custom resource cannot be listed. *)
Inductive leader_end : Type := LeaderDone | ExitProcess (code : Z).

(** [deliveries] are the resources the Controller hands out until its
    graceful shutdown.  The reconcilers of different resources exclude each
    other by the write lock on the triggers.  A reconciler that was aborted,
    because another one panicked, may still hold the scheduler when its owner
    wants it for itself. *)
Definition run_leader_controllers (state : State) (schedule_parallelism : Z)
    (deliveries : list ScheduleTrigger) : io ControllerState leader_end :=
  call (SchedulerBuild LeaderScheduler schedule_parallelism) ;;;
  c <-- get ;;
  let '(context, source_clone_folder) := to_context state c TriggersState_default in
  put context ;;;
  checked <-- check_api_by_list "ScheduleTrigger" ;;
  match (checked : result Error unit) with
  | Err _ => ret (ExitProcess 1)
  | Ok _ =>
      spawn_join (for_each (deliver source_clone_folder) deliveries) ;;;
      only_reference <-- call (SchedulerIntoInner LeaderScheduler) ;;
      if (only_reference : bool) then
        call (SchedulerShutdown LeaderScheduler) ;;;
        ret LeaderDone
      else panic
  end.
End Controller.

(** ** Theorems *)

Section ControllerFacts.
Context `{Ext} `{!KubeFinalizer}.

(** What the theorems need of kube's [finalizer]: it calls the handler at
    most once, for the resource it was given, and answers with the
    handler's result or an error of its own; a panic passes through. *)
Class KubeFinalizerLaws : Prop := {
  finalizer_runs name resource handler o c t Q :
    (forall r, Q (Ret r) c t) ->
    (forall event, event = FinalizerApply resource \/ event = FinalizerCleanup resource ->
       wp (handler event) o c t (fun r c' t' =>
         match r with
         | Panic => Q Panic c' t'
         | Ret (Ok a) => forall r', Q (Ret r') c' t'
         | Ret (Err e) => forall m, Q (Ret (Err m)) c' t'
         end)) ->
    wp (kube_finalizer name resource handler) o c t Q }.

Implicit Types (o : services) (c : ControllerState) (t : trace).

(** Every task of the table is in the scheduler, for the trigger of its key. *)
Definition registered c t : Prop :=
  forall key id, tasks (triggers c) !! key = Some id ->
    exists task, Ev (SchedulerAdd LeaderScheduler task) (Ok id) ∈ t
      /\ task_trigger_kind task = "ScheduleTrigger"
      /\ task_trigger_ns task ^^ "/" ^^ task_trigger_name task = key.

Definition controller_ok c t : Prop := no_orphans c t /\ registered c t.

Lemma registered_elsewhere key c c' t new :
  registered c t -> same_elsewhere key c c' ->
  (forall id, tasks (triggers c') !! key = Some id ->
    exists task, Ev (SchedulerAdd LeaderScheduler task) (Ok id) ∈ t ++ new
      /\ task_trigger_kind task = "ScheduleTrigger"
      /\ task_trigger_ns task ^^ "/" ^^ task_trigger_name task = key) ->
  registered c' (t ++ new).
Proof.
  intros Hreg Helse Hkey k id Hk. destruct (decide (k = key)) as [->|Hne]; [by apply Hkey|].
  rewrite (proj1 (Helse k Hne)) in Hk. destruct (Hreg k id Hk) as (task & Hin & Htask).
  exists task. split; [set_solver|done].
Qed.

Lemma controller_ok_quiet c c' t new :
  controller_ok c t -> Forall not_add new -> triggers c' = triggers c ->
  controller_ok c' (t ++ new).
Proof.
  intros [Horph Hreg] Hnew Htr. split; [eapply no_orphans_quiet; [done|done|by rewrite Htr]|].
  intros key id Hk. rewrite Htr in Hk. destruct (Hreg key id Hk) as (task & Hin & Htask).
  exists task. split; [set_solver|done].
Qed.

(** A call that does not make a new scheduler. *)
Definition no_build (e : event resp) : Prop :=
  match e with Ev c _ => match c with SchedulerBuild _ _ => False | _ => True end end.

Lemma reconcile_extends self folder : calls_in no_build (reconcile self folder).
Proof.
  assert (Hstatus : calls_in no_build
    (on_statics (update_trigger_status (T:=ScheduleTrigger) self None None None))).
  { apply calls_in_zoom. unfold update_trigger_status.
    calls_step; [by calls_run|]. calls_step; [by apply calls_in_cached; intros []|by calls_run]. }
  unfold reconcile, trigger_hash_key, parse_last_run, get_task_schedule, create_trigger_task,
    publish_trigger_validation_event, modify_triggers.
  by repeat first [apply Hstatus | calls_step].
Qed.

Lemma cleanup_extends self : calls_in no_build (cleanup self).
Proof. unfold cleanup, trigger_hash_key, modify_triggers. by calls_run. Qed.

Lemma reconcile_ok self folder ns o c t :
  st_namespace self = Some ns -> controller_ok c t ->
  wp (reconcile self folder) o c t (fun _ c' t' => controller_ok c' t').
Proof.
  intros Hns [Horph Hreg].
  eapply wp_mono; [apply wp_and; [by apply wp_reconcile|apply reconcile_extends]|].
  intros r c' t' [(Horph' & Helse & Hrec) (new & -> & _)]. split; [done|].
  eapply registered_elsewhere; [done|done|]. intros id Hid. case_bool_decide.
  - destruct Hrec as (_ & -> & _). destruct (Hreg _ _ Hid) as (task & Hin & Htask).
    exists task. split; [set_solver|done].
  - destruct Hrec as (_ & [Hnone|(id' & task & new' & Heq & Hid' & Hin & Htask & _)] & _); [congruence|].
    apply app_inv_head in Heq as ->. assert (id' = id) as -> by congruence.
    destruct Htask as (Hkind & Htns & Htname & _). exists task.
    split; [set_solver|]. by rewrite Htns, Htname.
Qed.

Lemma cleanup_ok self ns o c t :
  st_namespace self = Some ns -> controller_ok c t ->
  wp (cleanup self) o c t (fun _ c' t' => controller_ok c' t').
Proof.
  intros Hns [Horph Hreg].
  eapply wp_mono; [apply wp_and; [by apply wp_cleanup|apply cleanup_extends]|].
  intros r c' t' [(_ & Horph' & Helse & Hnone & _) (new & -> & _)]. split; [done|].
  eapply registered_elsewhere; [done|done|]. intros id Hid. congruence.
Qed.

(** The clocks and the metrics around the handler. *)
Definition housekeeping (e : event resp) : Prop :=
  match e with
  | Ev c _ =>
      match c with
      | InstantNow | UtcNow => True
      | MetricWithLabels _ _ | CounterInc _ _ | HistogramObserve _ _ _ => well_typed_call c
      | _ => False
      end
  end.

Lemma housekeeping_no_build new : Forall housekeeping new -> Forall no_build new.
Proof. intros Hnew. eapply Forall_impl; [exact Hnew|]. by intros [[] r]. Qed.

Lemma housekeeping_not_add new : Forall housekeeping new -> Forall not_add new.
Proof. intros Hnew. eapply Forall_impl; [exact Hnew|]. by intros [[] r]. Qed.

Lemma error_policy_quiet {S} resource e :
  calls_in housekeeping (error_policy (S:=S) resource e) /\ stateless (error_policy (S:=S) resource e).
Proof. unfold error_policy, count_failed. split; [by calls_run|keeps_run]. Qed.

Lemma reconcile_metrics_quiet {S} ns k n d :
  calls_in housekeeping (reconcile_count_and_measure (S:=S) ns k n d)
  /\ stateless (reconcile_count_and_measure (S:=S) ns k n d).
Proof. unfold reconcile_count_and_measure. split; [by calls_run|keeps_run]. Qed.

(** A program that only does housekeeping. *)
Lemma wp_quiet {A} (m : io ControllerState A) o c t Q :
  calls_in housekeeping m /\ stateless m ->
  (forall r new, Forall housekeeping new -> Q r c (t ++ new)) -> wp m o c t Q.
Proof.
  intros [Hc Hs] HQ. eapply wp_mono; [apply wp_and; [apply Hc|apply Hs]|].
  intros r c' t' [(new & -> & Hnew) ->]. by apply HQ.
Qed.

(** The skeleton of a delivery: the clock, the handler under the finalizer,
    the metrics and the error policy. *)
Lemma wp_deliver `{!KubeFinalizerLaws} folder resource ns (I J : ControllerState -> trace -> Prop)
    o c t :
  st_namespace resource = Some ns ->
  (forall c c' t new, I c t -> Forall housekeeping new -> triggers c' = triggers c ->
     statics c' = statics c -> I c' (t ++ new)) ->
  (forall c t, I c t ->
     wp (reconcile resource folder) o c t (fun r c' t' => if r is Panic then J c' t' else I c' t')) ->
  (forall c t, I c t ->
     wp (cleanup resource) o c t (fun r c' t' => if r is Panic then J c' t' else I c' t')) ->
  I c t ->
  wp (deliver folder resource) o c t (fun r c' t' => if r is Panic then J c' t' \/ I c' t' else I c' t').
Proof.
  intros Hns Hquiet Hrec Hclean HI. unfold deliver, reconcile_namespaced, finalizer_name. cbv iota.
  repeat wp_step. rewrite Hns. wp_step. rewrite <- !app_assoc.
  assert (HI' : I (set_last_event r0 c) (t ++ [Ev InstantNow r] ++ [Ev UtcNow r0])).
  { by eapply Hquiet; [done|repeat constructor|..]. }
  revert HI'. generalize (set_last_event r0 c) as c1.
  generalize (t ++ [Ev InstantNow r] ++ [Ev UtcNow r0]) as t1. intros t1 c1 HI1. clear HI.
  wp_step. apply (wp_mono _ _ _ _ (fun r c' t' => if r is Panic then J c' t' else I c' t')).
  { apply finalizer_runs; [done|].
    intros event [->| ->];
      (eapply wp_mono; [by first [apply Hrec|apply Hclean]|]);
      (by intros [[a|e]|] c' t' Hr). }
  intros [res|] c2 t2 HI2; [|by left]. do 4 wp_step.
  assert (HI3 : forall x, I c2 (t2 ++ [Ev InstantNow x])).
  { intros x. by eapply Hquiet; [done|repeat constructor|..]. }
  apply wp_quiet; [apply reconcile_metrics_quiet|]. intros [[]|] new Hnew;
    [wp_step|right; by eapply Hquiet; [apply HI3|..]].
  assert (HI4 : I c2 ((t2 ++ [Ev InstantNow r1]) ++ new)) by (by eapply Hquiet; [apply HI3|..]).
  generalize (map_err FinalizerError res) as res'. intros [a|e]; [by wp_step|].
  wp_step. apply wp_quiet; [apply error_policy_quiet|]. intros [a|] new' Hnew';
    [wp_step|right]; by eapply Hquiet.
Qed.

(** Nothing else in a delivery makes a scheduler. *)
Definition extends (t t' : trace) : Prop := exists new, t' = t ++ new /\ Forall no_build new.

Lemma extends_app t t' new : extends t t' -> Forall no_build new -> extends t (t' ++ new).
Proof.
  intros (old & -> & Hold) Hnew. exists (old ++ new). rewrite app_assoc. split; [done|].
  by apply Forall_app_2.
Qed.

Lemma extends_refl t : extends t t.
Proof. exists []. by rewrite app_nil_r. Qed.

Lemma deliver_ok `{!KubeFinalizerLaws} folder resource ns o c t t0 :
  st_namespace resource = Some ns -> controller_ok c t -> extends t0 t ->
  wp (deliver folder resource) o c t (fun _ c' t' => controller_ok c' t' /\ extends t0 t').
Proof.
  intros Hns Hok Hext. set (I := fun c' t' => controller_ok c' t' /\ extends t0 t').
  eapply wp_mono; [apply (wp_deliver folder resource ns I I); [done|..]|].
  - intros c1 c2 t1 new [Hc1 Ht1] Hnew Htr _. split; [|by apply extends_app, housekeeping_no_build].
    eapply controller_ok_quiet; [done|by apply housekeeping_not_add|done].
  - intros c1 t1 [Hc1 Ht1]. eapply wp_mono; [apply wp_and; [by apply (reconcile_ok _ _ ns)|apply reconcile_extends]|].
    intros r c2 t2 [Hc2 (new & -> & Hnew)].
    assert (I c2 (t1 ++ new)) by (split; [done|by apply extends_app]). by destruct r.
  - intros c1 t1 [Hc1 Ht1]. eapply wp_mono; [apply wp_and; [by apply (cleanup_ok _ ns)|apply cleanup_extends]|].
    intros r c2 t2 [Hc2 (new & -> & Hnew)].
    assert (I c2 (t1 ++ new)) by (split; [done|by apply extends_app]). by destruct r.
  - done.
  - intros [a|] c' t' Hr; [done|by destruct Hr].
Qed.

Definition namespaced (resource : ScheduleTrigger) : Prop := is_Some (st_namespace resource).

Lemma deliveries_ok `{!KubeFinalizerLaws} folder deliveries o c t t0 :
  Forall namespaced deliveries -> controller_ok c t -> extends t0 t ->
  wp (for_each (deliver folder) deliveries) o c t (fun _ c' t' => controller_ok c' t' /\ extends t0 t').
Proof.
  intros Hall. revert c t. induction Hall as [|resource l [ns Hns] _ IH]; intros c t Hok Hext; simpl.
  { by wp_step. }
  wp_step. eapply wp_mono; [by eapply deliver_ok|].
  intros [a|] c' t' [Hok' Hext']; [by apply IH|done].
Qed.

Lemma wp_spawn_join {S A} (task : io S A) o (s : S) t Q :
  wp task o s t (fun r s' t' => Q (Ret (match r with Ret a => Some a | Panic => None end)) s' t') ->
  wp (spawn_join task) o s t Q.
Proof. unfold wp, spawn_join. by destruct (task o s t) as [[[a|] s'] t']. Qed.

(** ** The terms of a leader *)

(** The last call of a term that did not get its scheduler back. *)
Definition scheduler_lost t : Prop := exists t1,
  t = t1 ++ [Ev (SchedulerIntoInner LeaderScheduler) false].

(** The past left no task behind: all are gone, or the scheduler was lost and
    never shut down. *)
Definition relinquished t : Prop := live t = ∅ \/ scheduler_lost t.

(** Every scheduler of a leader was made when the past had left no task. *)
Definition built_alone t : Prop := forall t1 parallelism t2,
  t = t1 ++ Ev (SchedulerBuild LeaderScheduler parallelism) tt :: t2 -> relinquished t1.

Lemma built_alone_snoc t e :
  built_alone t -> (forall parallelism, e = Ev (SchedulerBuild LeaderScheduler parallelism) tt ->
    relinquished t) -> built_alone (t ++ [e]).
Proof.
  intros Ht He t1 p t2 Heq. destruct t2 as [|e2 t2 _] using rev_ind.
  - apply app_inj_tail in Heq as [<- ->]. by eapply He.
  - rewrite app_comm_cons, app_assoc in Heq. apply app_inj_tail in Heq as [Heq _]. by eapply Ht.
Qed.

Lemma built_alone_extends t t' : built_alone t -> extends t t' -> built_alone t'.
Proof.
  intros Ht (new & -> & Hnew). induction new as [|e new IH] using rev_ind; [by rewrite app_nil_r|].
  apply Forall_app in Hnew as [Hnew He%Forall_inv]. rewrite app_assoc.
  apply built_alone_snoc; [by apply IH|]. intros p ->. done.
Qed.

(** One term of a leader, after [t]: a new scheduler; the exit of the process
    before anything is scheduled; or deliveries, and then the scheduler is
    taken back and shut down, or cannot be taken back. *)
Definition term (schedule_parallelism : Z) t (r : outcome leader_end) (c' : ControllerState) t' : Prop :=
  let built := t ++ [Ev (SchedulerBuild LeaderScheduler schedule_parallelism) tt] in
  match r with
  | Ret (ExitProcess code) => code = 1%Z
      /\ exists e, t' = built ++ [Ev (ListCrd "ScheduleTrigger" 1) (Err e)]
  | Ret LeaderDone => exists t1, extends built t1 /\ controller_ok c' t1
      /\ t' = t1 ++ [Ev (SchedulerIntoInner LeaderScheduler) true;
                    Ev (SchedulerShutdown LeaderScheduler) tt]
  | Panic => exists t1, extends built t1 /\ controller_ok c' t1
      /\ t' = t1 ++ [Ev (SchedulerIntoInner LeaderScheduler) false]
  end.

Lemma wp_run_leader_controllers `{!KubeFinalizerLaws} state par deliveries o c t :
  Forall namespaced deliveries -> one_task_each t ->
  wp (run_leader_controllers state par deliveries) o c t (term par t).
Proof.
  intros Hall Hone. unfold run_leader_controllers, check_api_by_list. do 2 wp_step.
  destruct r. wp_step. wp_step. simpl. do 5 wp_step. unfold term. set (built := t ++ _).
  destruct r as [[]|e]; wp_step; [|by wp_step; eauto].
  wp_step. apply wp_spawn_join.
  set (listed := built ++ [Ev (ListCrd "ScheduleTrigger" 1) (Ok tt)]).
  assert (Hlisted : one_task_each listed).
  { by repeat apply one_task_each_not_add; [|repeat constructor..]. }
  assert (Hext : extends built listed) by (eexists; split; [done|by repeat constructor]).
  eapply wp_mono; [apply (deliveries_ok _ _ o _ listed built); [done| |done]|].
  { split.
    - split; [done|]. intros id task Hid. unfold listed, built in Hid.
      rewrite !live_app in Hid. simpl in Hid. by rewrite lookup_empty in Hid.
    - intros key id Hk. simpl in Hk. by rewrite lookup_empty in Hk. }
  intros r c' t' [Hok Hext']. do 2 wp_step. destruct r0; [|by wp_step; exists t'].
  do 3 wp_step. destruct r0. exists t'. split; [done|]. split; [done|]. by rewrite <- app_assoc.
Qed.

Lemma term_closed par t r c' t' :
  one_task_each t -> built_alone t -> relinquished t -> term par t r c' t' ->
  one_task_each t' /\ built_alone t' /\ relinquished t'.
Proof.
  intros Hone Hbuilt Hrel Hterm. unfold term in Hterm.
  set (built := t ++ [_]) in Hterm.
  assert (Hnew : built_alone built) by (by apply built_alone_snoc).
  assert (Hend : forall t1 last, extends built t1 -> one_task_each t1 -> Forall not_add last ->
    Forall no_build last -> one_task_each (t1 ++ last) /\ built_alone (t1 ++ last)).
  { intros t1 last Hext Hone1 Hadd Hlast. split; [by apply one_task_each_not_add|].
    eapply built_alone_extends; [exact Hnew|]. by apply extends_app. }
  destruct r as [[|code]|].
  - destruct Hterm as (t1 & Hext & [[Hone1 _] _] & ->).
    destruct (Hend t1 [Ev (SchedulerIntoInner LeaderScheduler) true;
      Ev (SchedulerShutdown LeaderScheduler) tt] Hext Hone1) as [H1 H2]; [by repeat constructor..|].
    split; [done|]. split; [done|]. left. by rewrite live_app.
  - destruct Hterm as (_ & e & ->).
    destruct (Hend built [Ev (ListCrd "ScheduleTrigger" 1) (Err e)]) as [H1 H2];
      [apply extends_refl|by apply one_task_each_not_add; [|repeat constructor]
      |by repeat constructor..|].
    split; [done|]. split; [done|]. left. unfold built. by rewrite !live_app.
  - destruct Hterm as (t1 & Hext & [[Hone1 _] _] & ->).
    destruct (Hend t1 [Ev (SchedulerIntoInner LeaderScheduler) false] Hext Hone1) as [H1 H2];
      [by repeat constructor..|].
    split; [done|]. split; [done|]. right. by exists t1.
Qed.

(** The terms of a process as a leader, one after the other: the main loop
    joins the task of one, whatever its result, before it looks at the lease
    again. *)
Fixpoint leader_terms (state : State) (schedule_parallelism : Z)
    (terms : list (list ScheduleTrigger)) : io ControllerState leader_end :=
  match terms with
  | [] => ret LeaderDone
  | deliveries :: terms =>
      ended <-- spawn_join (run_leader_controllers state schedule_parallelism deliveries) ;;
      match ended with
      | Some (ExitProcess code) => ret (ExitProcess code)
      | _ => leader_terms state schedule_parallelism terms
      end
  end%prog.

Lemma wp_leader_terms `{!KubeFinalizerLaws} state par terms o c t :
  Forall (Forall namespaced) terms -> one_task_each t -> built_alone t -> relinquished t ->
  wp (leader_terms state par terms) o c t (fun r c' t' =>
    (one_task_each t' /\ built_alone t' /\ relinquished t') /\ r <> Panic
    /\ forall code, r = Ret (ExitProcess code) -> code = 1%Z).
Proof.
  intros Hall. revert c t. induction Hall as [|deliveries terms Hd _ IH]; intros c t Hone Hb Hr;
    simpl; [by wp_step|].
  wp_step. apply wp_spawn_join. eapply wp_mono; [by apply wp_run_leader_controllers|].
  intros r c' t' Hterm. pose proof (term_closed _ _ _ _ _ Hone Hb Hr Hterm) as (Hone' & Hb' & Hr').
  destruct r as [[|code]|]; [by apply IH| |by apply IH].
  wp_step. split; [done|]. split; [done|]. intros code' [= <-]. apply Hterm.
Qed.

(** One term of a leader: every task that is live when the scheduler is taken
    back is the one task of its trigger in the table, or the scheduler refused
    to cancel it, and every task of the table was scheduled for the trigger of
    its key. *)
Theorem leader_term_owned `{!KubeFinalizerLaws} state par deliveries o c :
  Forall namespaced deliveries ->
  wp (run_leader_controllers state par deliveries) o c [] (term par []).
Proof. intros Hall. by apply wp_run_leader_controllers; [|apply one_task_each_nil]. Qed.


(** ** A trigger that never ran *)

Definition resource_key (resource : ScheduleTrigger) : string :=
  unwrap_or "" (st_namespace resource) ^^ "/" ^^ st_name resource.

Lemma wp_for_each_app {S A} (f : A -> io S unit) l1 l2 o s t Q :
  wp (for_each f l1) o s t (fun r s' t' =>
    match r with Ret _ => wp (for_each f l2) o s' t' Q | Panic => Q Panic s' t' end) ->
  wp (for_each f (l1 ++ l2)) o s t Q.
Proof.
  revert s t. induction l1 as [|x l1 IH]; intros s t; simpl; [done|].
  unfold wp, bind. destruct (f x o s t) as [[[a|] s'] t']; [apply IH|done].
Qed.

(** A loop never looks beyond an element that panics. *)
Lemma for_each_stops {S A} (f : A -> io S unit) before x rest o s t :
  wp (for_each f before) o s t (fun r s' t' =>
    match r with Ret _ => wp (f x) o s' t' (fun r _ _ => r = Panic) | Panic => True end) ->
  for_each f (before ++ x :: rest) o s t = for_each f (before ++ [x]) o s t.
Proof.
  revert s t. induction before as [|y before IH]; intros s t; simpl; unfold wp, bind.
  - unfold ret. destruct (f x o s t) as [[[a|] s'] t']; [done|done].
  - destruct (f y o s t) as [[[a|] s'] t']; [apply IH|done].
Qed.

(** The schedule of [key] is not recorded, and the tasks are those of [keys]. *)
Definition apart_from (key : string) (keys : list string) c t : Prop :=
  no_orphans c t /\ schedules (triggers c) !! key = None
  /\ forall k, is_Some (tasks (triggers c) !! k) -> k ∈ keys.

Lemma apart_from_elsewhere key keys other c c' t' :
  other <> key -> other ∈ keys -> no_orphans c' t' -> same_elsewhere other c c' ->
  schedules (triggers c) !! key = None ->
  (forall k, is_Some (tasks (triggers c) !! k) -> k ∈ keys) -> apart_from key keys c' t'.
Proof.
  intros Hne Hin Horph Helse Hsched Htasks. split; [done|]. split.
  - by rewrite (proj2 (Helse key ltac:(done))).
  - intros k Hk. destruct (decide (k = other)) as [->|Hk']; [done|].
    apply Htasks. by rewrite <- (proj1 (Helse k Hk')).
Qed.

Lemma deliver_apart `{!KubeFinalizerLaws} folder resource key keys o c t :
  namespaced resource -> resource_key resource <> key -> resource_key resource ∈ keys ->
  apart_from key keys c t ->
  wp (deliver folder resource) o c t (fun _ c' t' => apart_from key keys c' t').
Proof.
  intros [ns Hns] Hne Hin Hok. unfold resource_key in Hne, Hin. rewrite Hns in Hne, Hin.
  eapply wp_mono; [apply (wp_deliver folder resource ns (apart_from key keys) (apart_from key keys));
    [done|..]|].
  - intros c1 c2 t1 new (Horph & Hrest) Hnew%housekeeping_not_add Htr _. unfold apart_from.
    rewrite Htr. split; [|done]. eapply no_orphans_quiet; [done|done|by rewrite Htr].
  - intros c1 t1 (Horph & Hsched & Htasks). eapply wp_mono; [by apply wp_reconcile|].
    intros r c2 t2 (Horph' & Helse & _).
    assert (apart_from key keys c2 t2) by (by eapply apart_from_elsewhere). by destruct r.
  - intros c1 t1 (Horph & Hsched & Htasks). eapply wp_mono; [by apply wp_cleanup|].
    intros r c2 t2 (_ & Horph' & Helse & _).
    assert (apart_from key keys c2 t2) by (by eapply apart_from_elsewhere). by destruct r.
  - done.
  - intros [a|] c' t' Hr; [done|by destruct Hr].
Qed.

Lemma deliveries_apart `{!KubeFinalizerLaws} folder before key keys o c t :
  Forall namespaced before -> Forall (fun d => resource_key d <> key) before ->
  (forall d, d ∈ before -> resource_key d ∈ keys) -> apart_from key keys c t ->
  wp (for_each (deliver folder) before) o c t (fun _ c' t' => apart_from key keys c' t').
Proof.
  intros Hall. revert c t. induction Hall as [|d before Hd _ IH]; intros c t Hne Hin Hok; simpl.
  { by wp_step. }
  inversion_clear Hne. wp_step. eapply wp_mono; [apply (deliver_apart folder d key keys); try done|].
  { apply Hin. by left. }
  intros [a|] c' t' Hok'; [|done]. apply IH; [done| |done]. intros d' Hd'. apply Hin. by right.
Qed.

(** The status that is first published for a trigger. *)
Definition never_run (resource : ScheduleTrigger) : Prop :=
  exists ns, st_namespace resource = Some ns
  /\ st_status resource = Some (new_status (T:=ScheduleTrigger)
       {| st_name := st_name resource; st_namespace := Some ns; st_spec := st_spec resource;
          st_status := None |} None None None).

Lemma deliver_never_run folder resource keys o c t :
  (forall name handler, kube_finalizer name resource handler
     = (r <-- handler (FinalizerApply resource) ;; ret (map_err error_to_string r))%prog) ->
  parse_rfc3339 NEVER_LAST_RUN_STR = None -> never_run resource ->
  apart_from (resource_key resource) keys c t ->
  wp (deliver folder resource) o c t (fun r c' t' => r = Panic
    /\ tasks (triggers c') = delete (resource_key resource) (tasks (triggers c))).
Proof.
  intros Hfin Hnever (ns & Hns & Hst) (Horph & Hsched & _). unfold resource_key in *.
  rewrite Hns in *. simpl unwrap_or in *.
  unfold deliver, reconcile_namespaced, finalizer_name. cbv iota. rewrite Hfin.
  repeat wp_step. rewrite Hns. repeat wp_step.
  eapply wp_mono; [apply (wp_reconcile_never_run resource _ ns); [done|done| | |]|].
  - simpl. by rewrite Hsched.
  - by rewrite Hst.
  - by repeat (eapply no_orphans_quiet; [|by repeat constructor|done]).
  - intros r1 c' t' (-> & Htasks & _). by rewrite Htasks.
Qed.

End ControllerFacts.

(** ** Examples *)

#[local] Existing Instance example_ext.

(** A finalizer that finds every resource alive and marked. *)
#[local] Instance applying_finalizer : KubeFinalizer := {|
  kube_finalizer := fun _ resource handler =>
    r <-- handler (FinalizerApply resource) ;; ret (map_err error_to_string r) |}.

#[local] Instance applying_finalizer_laws : KubeFinalizerLaws.
Proof.
  split. intros name resource handler o c t Q _ Hhandler. simpl. wp_step.
  eapply wp_mono; [apply Hhandler; by left|].
  intros [[a|e]|] c' t' HQ; [wp_step; apply HQ..|done].
Qed.

Definition nightly (status : option TriggerStatus) : ScheduleTrigger := {|
  st_name := "nightly"; st_namespace := Some "ci";
  st_spec := {|
    sts_sources := {| sources_kind := KindGitRepo; names := ["app"];
      watch_on := TriggerWatchOn_default |};
    sts_schedule := Cron "0 3 * * *";
    sts_action := {| action_kind := KindAction; action_name := "build" |} |};
  st_status := status |}.

Definition leader_statics : Statics := {|
  api_cache := {| git_repo := true; cluster_git_repo := true; action := true;
                  cluster_action := true; webhook_trigger := true; schedule_trigger := true |};
  secret_cache := None;
  jobs_queue := None |}.

Definition old_context : ControllerState := {|
  statics := leader_statics; triggers := TriggersState_default; last_event := 0%Z |}.


Definition weekly : ScheduleTrigger := {|
  st_name := "weekly"; st_namespace := Some "ci"; st_spec := st_spec (nightly None);
  st_status := None |}.

Definition published_trigger : ScheduleTrigger :=
  nightly (Some {| state := Idle; last_run := Some "Never"; checked_sources := ∅ |}).

