(* ===== verification/System.v ===== *)
(** * The controller as a system

    The components share the singletons: deliveries of the Controller and
    webhook requests schedule tasks, tasks check sources and enqueue jobs, the
    queue task submits them.  This file is that system: a step relation over
    the shared state, the position of the queue task and the running tasks,
    in which every step is a run of a component's own operation between two
    points where the others may act.  The theorems about all its executions
    are in SystemFacts.v. *)

From stdpp Require Import base option gmap sets strings list.
From Stdlib Require Import ZArith Lia Permutation.
From S2P Require Import Prelude Strs Time Errors Config Ext Resources World Jobs JobsFacts Cache Statics Action GitRepo Trigger TriggerFacts SourceFacts TaskFacts Web JobsSystem Controller.
Local Open Scope string_scope.
Local Open Scope list_scope.

(** ** A task cut between its sources *)

Section pieces.
Context `{Ext} {T : Type} `{!Trigger T}.
Implicit Types (o : services) (s : Statics) (t : trace).

(** A task after it found its trigger: the values of the closure, and the
    sources it has not looked at yet. *)
Record task_run := {
  tr_trigger : T;
  tr_ns : string;
  tr_name : string;
  tr_base : string;
  tr_checked : gmap string CheckedSourceState;
  tr_todo : list string;
  tr_start : Z }.

Definition with_todo (l : list string) (r : task_run) : task_run := {|
  tr_trigger := tr_trigger r; tr_ns := tr_ns r; tr_name := tr_name r; tr_base := tr_base r;
  tr_checked := tr_checked r; tr_todo := l; tr_start := tr_start r |}.

(** The end of the closure: the metrics. *)
Definition task_measured (ns name : string) (start : Z) : io Statics unit :=
  (finish <-- call InstantNow ;;
   trigger_count_and_measure ns (trigger_crd_kind T) name (Z.max 0 (finish - start)))%prog.

(** From the start to the loop over the sources; a task without its trigger
    is over at once. *)
Definition task_begin (ns name : string) (task_sources_ : TriggerTaskSources)
    (source_clone_folder : string) : io Statics (option task_run) :=
  (start <-- call InstantNow ;;
   trigger <-- on_api_cache (cache_get (K:=T) name (Some ns)) ;;
   match (trigger : result Error T) with
   | Ok trigger =>
       suffix <-- random_string 8 ;;
       let base_temp_dir := source_clone_folder ^^ "/" ^^ ns ^^ "/" ^^ name ^^ "/" ^^ suffix in
       let checked_sources_ := known_sources trigger
         (checked_sources (unwrap_or TriggerStatus_default (trigger_status trigger))) in
       update_trigger_status trigger (Some Running) None None ;;;
       order <-- call (HashSetOrder (sources_of trigger task_sources_)) ;;
       ret (Some {| tr_trigger := trigger; tr_ns := ns; tr_name := name;
                    tr_base := base_temp_dir; tr_checked := checked_sources_;
                    tr_todo := proj1_sig order; tr_start := start |})
   | Err _ => task_measured ns name start ;;; ret None
   end)%prog.

Definition task_turn (r : task_run) (source : string) : io Statics unit :=
  check_source (tr_trigger r) (tr_ns r) (tr_name r) (tr_base r) (tr_checked r) source.

(** After the last source. *)
Definition task_end (r : task_run) : io Statics unit :=
  (now <-- call UtcNow ;;
   update_trigger_status (tr_trigger r) (Some Idle) None (Some now) ;;;
   task_measured (tr_ns r) (tr_name r) (tr_start r))%prog.

#[local] Arguments random_string : simpl never.

(** The pieces in sequence are the closure. *)
Lemma trigger_task_pieces ns name ts folder o s t :
  trigger_task (T:=T) ns name ts folder o s t
  = (run <-- task_begin ns name ts folder ;;
     match run with
     | Some r => for_each (task_turn r) (tr_todo r) ;;; task_end r
     | None => ret tt
     end)%prog o s t.
Proof.
  unfold trigger_task, task_begin, task_end, task_measured, bind, perform.
  destruct (on_api_cache _ o s _) as [[[[trigger|e]|] s1] t1]; [| |done].
  - destruct (random_string 8 o s1 t1) as [[[suffix|] s2] t2]; [|done].
    destruct (update_trigger_status _ _ _ _ o s2 t2) as [[[u|] s3] t3]; [|done].
    unfold sources_of, ret. simpl. destruct ts; simpl;
      (destruct (for_each _ _ o s3 _) as [[[u'|] s4] t4]; [|done];
       by destruct (update_trigger_status _ _ _ _ o s4 _) as [[[?|] ?] ?]).
  - unfold ret. by destruct (trigger_count_and_measure _ _ _ _ o s1 _) as [[[[]|] ?] ?].
Qed.
End pieces.
#[global] Arguments task_run : clear implicits.

(** ** The system *)

Section System.
Context `{Ext} `{!KubeFinalizer}.
Context {HeaderMap : Type} (header_get : HeaderMap -> string -> option string).
Context (o : services).
Context (law : JobsQueue -> (ObjectRef -> option Job) -> option Job -> Prop).
Implicit Types (s : Statics) (c : ControllerState) (t h : trace).

Inductive running : Type :=
| RunSchedule (r : task_run ScheduleTrigger)
| RunWebhook (r : task_run WebhookTrigger).

(** A request to the server of webhooks. *)
Inductive request : Type :=
| PostTrigger (state_ : WebState) (namespace trigger_ : string) (headers : HeaderMap)
| PostSource (state_ : WebState) (namespace trigger_ source : string) (headers : HeaderMap).

Definition serve (r : request) : io Statics (result WebError WebResponseJson) :=
  match r with
  | PostTrigger state_ namespace trigger_ headers =>
      handle_post_trigger_webhook header_get state_ namespace trigger_ headers
  | PostSource state_ namespace trigger_ source headers =>
      handle_post_source_webhook header_get state_ namespace trigger_ source headers
  end.

(** The closure a scheduler runs is the one of the trigger's kind. *)
Definition begin_task (task : Task) : io Statics (option running) :=
  (if String.eqb (task_trigger_kind task) (trigger_crd_kind ScheduleTrigger) then
     r <-- task_begin (T:=ScheduleTrigger) (task_trigger_ns task) (task_trigger_name task)
             (task_sources task) (task_source_clone_folder task) ;;
     ret (RunSchedule <$> r)
   else
     r <-- task_begin (T:=WebhookTrigger) (task_trigger_ns task) (task_trigger_name task)
             (task_sources task) (task_source_clone_folder task) ;;
     ret (RunWebhook <$> r))%prog.

Definition todo (r : running) : list string :=
  match r with RunSchedule r => tr_todo r | RunWebhook r => tr_todo r end.

Definition turn_of (r : running) (source : string) : io Statics unit :=
  match r with RunSchedule r => task_turn r source | RunWebhook r => task_turn r source end.

Definition end_of (r : running) : io Statics unit :=
  match r with RunSchedule r => task_end r | RunWebhook r => task_end r end.

Definition proceed (rest : list string) (r : running) : running :=
  match r with
  | RunSchedule r => RunSchedule (with_todo rest r)
  | RunWebhook r => RunWebhook (with_todo rest r)
  end.

(** The shared state, the position of the queue task and of the running
    tasks, and what happened so far: the calls with their answers, the items
    that were enqueued, the deliveries and the requests. *)
Record world := World {
  w_state : ControllerState;
  w_queue_task : queue_task;
  w_running : list running;
  w_history : trace;
  w_items : list JobsQueueItem;
  w_delivered : list ScheduleTrigger;
  w_requests : list request }.

Definition w_queue (w : world) : option JobsQueue := jobs_queue (statics (w_state w)).

(** A component's operation was run from the state of [w]. *)
Definition ran {A} (m : io ControllerState A) (w : world) (r : outcome A) c h : Prop :=
  m o (w_state w) (w_history w) = (r, c, h).

Definition moved (w : world) c (l : list running) h : world := {|
  w_state := c; w_queue_task := w_queue_task w; w_running := l; w_history := h;
  w_items := w_items w; w_delivered := w_delivered w; w_requests := w_requests w |}.

Definition and_enqueued (items : list JobsQueueItem) (w : world) : world := {|
  w_state := w_state w; w_queue_task := w_queue_task w; w_running := w_running w;
  w_history := w_history w; w_items := w_items w ++ items; w_delivered := w_delivered w;
  w_requests := w_requests w |}.

Definition and_delivered (resource : ScheduleTrigger) (w : world) : world := {|
  w_state := w_state w; w_queue_task := w_queue_task w; w_running := w_running w;
  w_history := w_history w; w_items := w_items w; w_delivered := w_delivered w ++ [resource];
  w_requests := w_requests w |}.

Definition and_requested (req : request) (w : world) : world := {|
  w_state := w_state w; w_queue_task := w_queue_task w; w_running := w_running w;
  w_history := w_history w; w_items := w_items w; w_delivered := w_delivered w;
  w_requests := w_requests w ++ [req] |}.

Definition set_queue (q : option JobsQueue) c : ControllerState := {|
  statics := {| api_cache := api_cache (statics c); secret_cache := secret_cache (statics c);
                jobs_queue := q |};
  triggers := triggers c; last_event := last_event c |}.

(** The tasks that a scheduler accepted. *)
Definition scheduled_task (e : event resp) : option Task :=
  match e with
  | Ev c r =>
      match c as c return resp c -> option Task with
      | SchedulerAdd _ task => fun r => match r with Ok _ => Some task | Err _ => None end
      | _ => fun _ => None
      end r
  end.

(** The cells as others set them: that of the secrets cache is set once, to an
    empty cache; those of the resource caches, and the leader's table of
    triggers, are not followed. *)
Definition cells_set c c' : Prop :=
  jobs_queue (statics c') = jobs_queue (statics c)
  /\ (secret_cache (statics c') = secret_cache (statics c)
      \/ secret_cache (statics c) = None /\ exists timeout,
           secret_cache (statics c') = Some {| expiration_timeout := timeout; cache := ∅ |}).

(** What a turn put at the end of the queue. *)
Definition appended (before after : option JobsQueue) : list JobsQueueItem :=
  match before, after with
  | Some q, Some q' => drop (length (queue_jobs q)) (queue_jobs q')
  | _, _ => []
  end.

Definition survivors (r : outcome unit) (run : running) : list running :=
  match r with Ret _ => [run] | Panic => [] end.

(** One step.  A delivery, a request, the beginning, one source or the end
    of a task run from the current state, with any outcome; a task may end at
    any point between two sources (its scheduler cancels or shuts down);
    the queue task makes any of its steps but enqueuing; and the cells of the
    singletons are set: the queue and the secrets cache once, the others, and
    the leader's table of triggers, in any way. *)
Inductive wstep : world -> world -> Prop :=
| ws_deliver w folder resource ns r c h :
    st_namespace resource = Some ns ->
    ran (deliver folder resource) w r c h ->
    wstep w (and_delivered resource (moved w c (w_running w) h))
| ws_request w req r c h :
    ran (on_statics (serve req)) w r c h ->
    wstep w (and_requested req (moved w c (w_running w) h))
| ws_begin w e task r c h :
    e ∈ w_history w -> scheduled_task e = Some task ->
    ran (on_statics (begin_task task)) w r c h ->
    wstep w (moved w c (w_running w ++
      match r with Ret (Some run) => [run] | _ => [] end) h)
| ws_turn w before run after source rest r c h :
    w_running w = before ++ run :: after -> todo run = source :: rest ->
    ran (on_statics (turn_of run source)) w r c h ->
    wstep w (and_enqueued (appended (w_queue w) (jobs_queue (statics c)))
      (moved w c (before ++ survivors r (proceed rest run) ++ after) h))
| ws_end w before run after r c h :
    w_running w = before ++ run :: after -> todo run = [] ->
    ran (on_statics (end_of run)) w r c h ->
    wstep w (moved w c (before ++ after) h)
| ws_abort w before run after :
    w_running w = before ++ run :: after ->
    wstep w (moved w (w_state w) (before ++ after) (w_history w))
| ws_queue w q new q' task :
    w_queue w = Some q -> step law (Sys q (w_queue_task w)) [] new (Sys q' task) ->
    wstep w {| w_state := set_queue (Some q') (w_state w); w_queue_task := task;
               w_running := w_running w; w_history := w_history w ++ new;
               w_items := w_items w; w_delivered := w_delivered w; w_requests := w_requests w |}
| ws_open w id :
    w_queue w = None ->
    wstep w {| w_state := set_queue (Some (sys_queue (started id))) (w_state w);
               w_queue_task := sys_task (started id);
               w_running := w_running w; w_history := w_history w;
               w_items := w_items w; w_delivered := w_delivered w; w_requests := w_requests w |}
| ws_cells w c :
    cells_set (w_state w) c ->
    wstep w (moved w c (w_running w) (w_history w)).

Inductive wsteps : world -> world -> Prop :=
| wsteps_refl w : wsteps w w
| wsteps_snoc w w1 w2 : wsteps w w1 -> wstep w1 w2 -> wsteps w w2.

(** The process has just started: the queue and the secrets cache are not
    there yet. *)
Definition at_boot c : ControllerState := {|
  statics := {| api_cache := api_cache (statics c); secret_cache := None; jobs_queue := None |};
  triggers := triggers c; last_event := last_event c |}.

Definition booted c : world := {|
  w_state := at_boot c; w_queue_task := Stopped; w_running := []; w_history := [];
  w_items := []; w_delivered := []; w_requests := [] |}.
End System.
