(* ===== verification/SystemFacts.v ===== *)
(** * The controller as a system: theorems

    What each component's operation does to the jobs queue and which calls it
    makes, the invariants of System.v's executions, and the theorems about
    all of them. *)

From stdpp Require Import base option gmap sets strings list.
From Stdlib Require Import ZArith Lia Permutation.
From S2P Require Import Prelude Strs Time Errors Config Ext Resources World Metrics Jobs JobsFacts Cache Statics Action GitRepo Trigger TriggerFacts SourceFacts TaskFacts TriggerExamples Web JobsSystem Controller System.
Local Open Scope string_scope.
Local Open Scope list_scope.

Section operations.
Context `{Ext}.
Implicit Types (o : services) (s : Statics) (c : ControllerState) (t : trace).

#[local] Hint Resolve get_cached_stateless random_string_stateless update_trigger_status_stateless
  get_task_schedule_stateless parse_last_run_stateless : stateless.

(** A call that neither submits a job nor schedules a task, on a metric as
    it is declared. *)
Definition quiet_call (e : event resp) : Prop :=
  match e with
  | Ev c _ => match c with CreateJob _ _ | SchedulerAdd _ _ => False | _ => well_typed_call c end
  end.

Lemma quiet_typed new : Forall quiet_call new -> Forall well_typed new.
Proof. intros Hnew. eapply Forall_impl; [exact Hnew|]. by intros [[] r]. Qed.

Lemma quiet_creates new : Forall quiet_call new -> creates new = [].
Proof. intros Hnew. apply omap_Forall_None. eapply Forall_impl; [exact Hnew|]. by intros [[] r]. Qed.

(** ** Tasks *)

Section task.
Context {T : Type} `{!Trigger T}.

Lemma update_trigger_status_quiet (self : T) st ch lr :
  calls_in quiet_call (update_trigger_status self st ch lr).
Proof. apply update_trigger_status_calls; [by intros []|done]. Qed.

Lemma execute_quiet {A} `{!ActionInternals A} (self : A) sk sn sc tr ns tk tn :
  calls_in quiet_call (execute self sk sn sc tr ns tk tn).
Proof.
  unfold execute. calls_step; [apply create_job_spec_calls; by intros []|].
  apply calls_in_zoom. unfold enqueue. by calls_run.
Qed.

Lemma run_action_quiet (trigger : T) source commit ns name :
  calls_in quiet_call (run_action trigger source commit ns name).
Proof.
  unfold run_action. case_match; (calls_step; [|apply execute_quiet]);
    apply calls_in_cached; by intros [].
Qed.

Lemma check_source_quiet (trigger : T) ns name base checked source :
  calls_in quiet_call (check_source trigger ns name base checked source).
Proof.
  unfold check_source. calls_step; [by calls_run|]. calls_step; [by calls_run|].
  case_match; [|by calls_run].
  calls_step; [apply inspect_source_calls; by intros []|]. case_match; [|by calls_run].
  calls_step; [|by calls_run]. unfold settle_source. case_match.
  - calls_step; [by calls_run|]. calls_step; [apply run_action_quiet|].
    case_match; [|by calls_run]. calls_step; [by calls_run|]. calls_step; [by calls_run|].
    calls_step; [apply update_trigger_status_quiet|by calls_run].
  - calls_step; [apply update_trigger_status_quiet|by calls_run].
Qed.

Lemma task_measured_quiet ns name start :
  calls_in quiet_call (task_measured (T:=T) ns name start)
  /\ stateless (task_measured (T:=T) ns name start).
Proof.
  unfold task_measured, trigger_count_and_measure. split; [by calls_run|by keeps_run].
Qed.

Lemma task_end_quiet (r : task_run T) : calls_in quiet_call (task_end r) /\ stateless (task_end r).
Proof.
  unfold task_end. split.
  - calls_step; [by calls_run|]. calls_step; [apply update_trigger_status_quiet|].
    apply task_measured_quiet.
  - keeps_step; [auto with stateless|]. keeps_step; [auto with stateless|].
    apply task_measured_quiet.
Qed.
(** What a task found when it began. *)
Definition begun ns name ts folder (run : task_run T) (h : trace) : Prop :=
  tr_ns run = ns /\ tr_name run = name
  /\ (tr_checked run = recorded_states (tr_trigger run)
      /\ exists suffix, tr_base run = task_folder folder ns name suffix)
  /\ (forall source, source ∈ tr_todo run -> source ∈ sources_of (tr_trigger run) ts)
  /\ exists found, Ev (store_call (K:=T) ns name) found ∈ h
       /\ store_answer (K:=T) ns name found = Some (tr_trigger run).

Lemma begun_app ns name ts folder run h new :
  begun ns name ts folder run h -> begun ns name ts folder run (h ++ new).
Proof.
  intros (? & ? & ? & ? & found & Hin & Hfound). do 4 (split; [done|]).
  exists found. split; [set_solver|done].
Qed.

#[local] Arguments random_string : simpl never.

Lemma wp_task_begin ns name ts folder o s t :
  wp (task_begin (T:=T) ns name ts folder) o s t (fun r s' t' => s' = s
    /\ exists new, t' = t ++ new /\ Forall quiet_call new
      /\ forall run, r = Ret (Some run) -> begun ns name ts folder run new).
Proof.
  unfold task_begin. do 3 wp_step. eapply wp_mono; [apply wp_and;
    [apply (wp_cached_evidence (K:=T))|by apply (calls_in_cached (K:=T) quiet_call); intros []]|].
  intros [[trigger|e]|] s1 t1 [[-> Hev] (new1 & -> & Hnew1)].
  3: { split; [done|]. eexists (_ :: new1). rewrite <- app_assoc. split; [done|].
       split; [by constructor|done]. }
  2: { wp_step. eapply (wp_tail quiet_call); [apply task_measured_quiet..|].
       intros r' new2 Hnew2.
       assert (Hall : Forall quiet_call ([Ev InstantNow r] ++ new1 ++ new2)).
       { by apply Forall_cons_2; [|apply Forall_app_2]. }
       destruct r'; [wp_step|]; (split; [done|]; eexists; rewrite <- !app_assoc;
         split; [done|]; split; [exact Hall|done]). }
  destruct (Hev trigger eq_refl) as (found & ->%app_inv_head & Hfound).
  wp_step. eapply (wp_tail quiet_call); [apply random_string_stateless|
    by apply calls_in_random_string|].
  intros [suffix|] new2 Hnew2; cycle 1.
  { split; [done|]. eexists. rewrite <- !app_assoc. split; [done|].
    split; [by apply Forall_cons_2; [|apply Forall_app_2]|done]. }
  wp_step. eapply (wp_tail quiet_call); [apply update_trigger_status_stateless|
    apply update_trigger_status_quiet|].
  intros [u|] new3 Hnew3; cycle 1.
  { split; [done|]. eexists. rewrite <- !app_assoc. split; [done|].
    split; [by apply Forall_cons_2; [|repeat apply Forall_app_2]|done]. }
  do 3 wp_step. split; [done|]. eexists. rewrite <- !app_assoc. split; [done|].
  split; [by apply Forall_cons_2; [|repeat apply Forall_app_2; [..|repeat constructor]]|].
  intros run [= <-]. unfold begun. simpl. do 2 (split; [done|]). split; [split; [done|by exists suffix]|]. split.
  - intros source. destruct r0 as [order Horder]. simpl. rewrite Horder. by rewrite elem_of_elements.
  - exists found. split; [set_solver|done].
Qed.
End task.

(** ** Deliveries *)

(** What handling a delivered resource may do: its only tasks are for the
    trigger that was delivered. *)
Definition leader_call ns (resource : ScheduleTrigger) (e : event resp) : Prop :=
  match e with
  | Ev c _ =>
      match c with
      | CreateJob _ _ => False
      | SchedulerAdd sched task => sched = LeaderScheduler
          /\ task_trigger_kind task = "ScheduleTrigger"
          /\ task_trigger_ns task = ns /\ task_trigger_name task = st_name resource
      | _ => well_typed_call c
      end
  end.

Lemma quiet_leader ns resource e : quiet_call e -> leader_call ns resource e.
Proof. by destruct e as [[] r]. Qed.

Lemma leader_typed ns resource new : Forall (leader_call ns resource) new -> Forall well_typed new.
Proof. intros Hnew. eapply Forall_impl; [exact Hnew|]. by intros [[] r]. Qed.

Lemma leader_creates ns resource new : Forall (leader_call ns resource) new -> creates new = [].
Proof. intros Hnew. apply omap_Forall_None. eapply Forall_impl; [exact Hnew|]. by intros [[] r]. Qed.

Lemma reconcile_leader_calls self folder ns :
  st_namespace self = Some ns -> calls_in (leader_call ns self) (reconcile self folder).
Proof.
  intros Hns. unfold reconcile, trigger_hash_key, modify_triggers.
  calls_step; [by calls_run|]. calls_step; [by calls_run|]. case_match; [|by calls_run].
  calls_step; [by calls_run|]. calls_step; [by unfold parse_last_run; calls_run|].
  calls_step; [by unfold get_task_schedule; calls_run|]. calls_step.
  - case_match; [|by unfold publish_trigger_validation_event; calls_run].
    apply (calls_in_bind_returns _ (fun task => task_trigger_kind task = "ScheduleTrigger"
      /\ task_trigger_ns task = ns /\ task_trigger_name task = st_name self)).
    + by unfold create_trigger_task; calls_run.
    + intros o s t. unfold create_trigger_task. do 2 wp_step. simpl. rewrite Hns. wp_step.
      by intros task [= <-].
    + intros task Htask. by calls_run.
  - calls_step; [|by calls_run]. apply calls_in_zoom. eapply calls_in_mono; [apply quiet_leader|].
    apply update_trigger_status_quiet.
Qed.

Lemma cleanup_leader_calls self ns : calls_in (leader_call ns self) (cleanup self).
Proof. unfold cleanup, trigger_hash_key, modify_triggers. by calls_run. Qed.

(** The singletons stay as they are. *)
Lemma reconcile_statics self folder : keeps statics (reconcile self folder).
Proof.
  unfold reconcile, trigger_hash_key, modify_triggers, publish_trigger_validation_event,
    create_trigger_task. keeps_run.
  all: apply stateless_keeps, stateless_zoom; [by intros []|auto with stateless].
Qed.

Lemma cleanup_statics self : keeps statics (cleanup self).
Proof. unfold cleanup, trigger_hash_key, modify_triggers. keeps_run. Qed.

Lemma wp_delivered `{!KubeFinalizer} `{!KubeFinalizerLaws} folder resource ns o c t :
  st_namespace resource = Some ns ->
  wp (deliver folder resource) o c t (fun _ c' t' => statics c' = statics c
    /\ exists new, t' = t ++ new /\ Forall (leader_call ns resource) new).
Proof.
  intros Hns. set (I := fun c' t' => statics c' = statics c
    /\ exists new, t' = t ++ new /\ Forall (leader_call ns resource) new).
  eapply wp_mono; [apply (wp_deliver folder resource ns I I); [done|..]|].
  - intros c1 c2 t1 new [Hc1 (new1 & -> & Hnew1)] Hnew _ Hs. split; [congruence|].
    exists (new1 ++ new). rewrite app_assoc. split; [done|]. apply Forall_app_2; [done|].
    eapply Forall_impl; [exact Hnew|]. by intros [[] r].
  - intros c1 t1 [Hc1 (new1 & -> & Hnew1)]. eapply wp_mono; [apply wp_and;
      [apply reconcile_statics|by apply reconcile_leader_calls]|].
    intros r c2 t2 [Hc2 (new2 & -> & Hnew2)].
    assert (HI : I c2 ((t ++ new1) ++ new2)); [|by destruct r].
    split; [congruence|]. exists (new1 ++ new2). rewrite app_assoc.
    split; [done|]. by apply Forall_app_2.
  - intros c1 t1 [Hc1 (new1 & -> & Hnew1)]. eapply wp_mono; [apply wp_and;
      [apply cleanup_statics|apply (cleanup_leader_calls resource ns)]|].
    intros r c2 t2 [Hc2 (new2 & -> & Hnew2)].
    assert (HI : I c2 ((t ++ new1) ++ new2)); [|by destruct r].
    split; [congruence|]. exists (new1 ++ new2). rewrite app_assoc.
    split; [done|]. by apply Forall_app_2.
  - split; [done|]. exists []. by rewrite app_nil_r.
  - intros r c' t'. unfold I. destruct r; tauto.
Qed.

(** ** Requests *)

Section web.
Context {HeaderMap : Type} (header_get : HeaderMap -> string -> option string).

(** What serving a request may do. *)
Definition web_call (e : event resp) : Prop :=
  match e with
  | Ev c _ =>
      match c with
      | CreateJob _ _ => False
      | SchedulerAdd sched _ => sched = WebScheduler
      | _ => well_typed_call c
      end
  end.

Lemma web_typed new : Forall web_call new -> Forall well_typed new.
Proof. intros Hnew. eapply Forall_impl; [exact Hnew|]. by intros [[] r]. Qed.

Lemma web_creates new : Forall web_call new -> creates new = [].
Proof. intros Hnew. apply omap_Forall_None. eapply Forall_impl; [exact Hnew|]. by intros [[] r]. Qed.

(** The permission for the tasks of a request, in the history [h]: somewhere in
    it are the events of serving this very request, which found its trigger,
    passed its check and posted the task. *)
Definition permitted (req : request (HeaderMap:=HeaderMap)) (h : trace) (task : Task) : Prop :=
  exists t new later, h = t ++ new ++ later /\
    match req with
    | PostTrigger state_ ns name headers =>
        permitted_post header_get state_ ns name headers
          (fun trigger => multi_source (wts_webhook (wt_spec trigger))) All t new task
    | PostSource state_ ns name source headers =>
        permitted_post header_get state_ ns name headers
          (fun trigger => bool_decide (source ∈ names (wts_sources (wt_spec trigger))))
          (Single source) t new task
    end.

Lemma permitted_app req h new task : permitted req h task -> permitted req (h ++ new) task.
Proof.
  intros (t & own & later & -> & Hp). exists t, own, (later ++ new). by rewrite <- !app_assoc.
Qed.

Lemma guarded_post_calls state_ ns name headers allowed refusal ts :
  calls_in web_call (measured (guarded_post header_get state_ ns name headers allowed refusal ts)
    ns name).
Proof.
  unfold measured. calls_step; [by calls_run|]. calls_step.
  - unfold guarded_post, web_try, trigger_hash_key, post_task, create_trigger_task.
    calls_step; [by apply calls_in_cached; intros []|]. case_match; [|by calls_run].
    calls_step; [by calls_run|]. calls_step; [|by calls_run].
    unfold check_hook_authorization. case_match; [|by calls_run].
    calls_step; [by calls_run|]. case_match; [|by calls_run].
    calls_step; [|by calls_run]. apply calls_in_zoom. unfold secrets_get.
    calls_step; [by calls_run|]. case_match; [|by calls_run]. apply calls_in_zoom.
    unfold get_key_value, lookup_cached, query_secrets_api. by calls_run.
  - unfold web_count_and_measure. by calls_run.
Qed.

Lemma wp_serve req o s t :
  wp (serve header_get req) o s t (fun _ s' t' => jobs_queue s' = jobs_queue s
    /\ exists new, t' = t ++ new /\ Forall web_call new
      /\ (secrets_known (secret_cache s) t -> secrets_known (secret_cache s') t'
          /\ Forall (permitted req t') (omap posted new))).
Proof.
  assert (Hgen : forall state_ ns name headers allowed refusal ts,
    wp (measured (guarded_post header_get state_ ns name headers allowed refusal ts) ns name) o s t
      (fun _ s' t' => jobs_queue s' = jobs_queue s
        /\ exists new, t' = t ++ new /\ Forall web_call new
          /\ (secrets_known (secret_cache s) t -> secrets_known (secret_cache s') t'
              /\ Forall (permitted_post header_get state_ ns name headers allowed ts t new)
                   (omap posted new)))).
  { intros. eapply wp_mono; [apply wp_and; [apply wp_handler_safe|apply wp_and; [apply guarded_post_calls|]]|].
    - instantiate (1 := fun _ s' t' =>
        secrets_known (secret_cache s) t -> secrets_known (secret_cache s') t').
      pose proof (measured_secrets header_get state_ ns name headers allowed refusal ts o s t) as Hk.
      revert Hk. unfold wp. destruct (measured _ _ _ _ _ _) as [[r s'] t']. auto.
    - intros r s' t' [(Hq & new & -> & _ & Hauth & _) [(? & <-%app_inv_head & Hcalls) Hk]].
      split; [done|]. exists new. split; [done|]. split; [done|]. intros Hs. split; [auto|].
      eapply Forall_impl; [exact Hauth|]. intros task. by apply authorized_permitted. }
  destruct req as [st ns name headers|st ns name source headers].
  - eapply wp_mono; [exact (Hgen st ns name headers _ ForbiddenMultiSource All)|].
    intros r s' t' (Hq & new & -> & Hcalls & Hauth). split; [done|]. exists new.
    split; [done|]. split; [done|]. intros [Hs Hp]%Hauth. split; [done|].
    eapply Forall_impl; [exact Hp|]. intros task Htask. exists t, new, []. by rewrite app_nil_r.
  - eapply wp_mono; [exact (Hgen st ns name headers _ SourceNotFound (Single source))|].
    intros r s' t' (Hq & new & -> & Hcalls & Hauth). split; [done|]. exists new.
    split; [done|]. split; [done|]. intros [Hs Hp]%Hauth. split; [done|].
    eapply Forall_impl; [exact Hp|]. intros task Htask. exists t, new, []. by rewrite app_nil_r.
Qed.
End web.
End operations.

(** ** Invariants *)

Section SystemFacts.
Context `{Ext} `{!KubeFinalizer} `{!KubeFinalizerLaws}.
Context {HeaderMap : Type} (header_get : HeaderMap -> string -> option string).
Context (o : services).
Context (law : JobsQueue -> (ObjectRef -> option Job) -> option Job -> Prop).

Local Abbreviation world := (world (HeaderMap:=HeaderMap)).
Implicit Types (w : world) (c : ControllerState) (h new : trace).

(** The queue, seen alone, is a reachable state of JobsSystem.v, after the
    same enqueued items and the same submissions. *)
Definition queue_refines w : Prop :=
  match w_queue w with
  | None => w_items w = [] /\ creates (w_history w) = []
  | Some q => exists id new,
      steps law (started id) (w_items w) new (Sys q (w_queue_task w))
      /\ creates new = creates (w_history w)
  end.

(** The item was enqueued for a changed source of the trigger that the cache
    held for the task, observed in the task's own folder. *)
Definition item_cause (T : Type) `{!Trigger T} (task : Task) h (item : JobsQueueItem) : Prop :=
  let ns := task_trigger_ns task in
  let name := task_trigger_name task in
  exists (trigger : T) found suffix source id,
    Ev (store_call (K:=T) ns name) found ∈ h
    /\ store_answer (K:=T) ns name found = Some trigger
    /\ source ∈ sources_of trigger (task_sources task)
    /\ caused_by_change o trigger ns name source
         (task_folder (task_source_clone_folder task) ns name suffix ^^ "/" ^^ source)
         (recorded_states trigger !! source) id h item.

(** By the kind of the task's trigger. *)
Definition item_of_task (task : Task) h (item : JobsQueueItem) : Prop :=
  if String.eqb (task_trigger_kind task) "ScheduleTrigger"
  then item_cause ScheduleTrigger task h item
  else item_cause WebhookTrigger task h item.

Definition item_traced h (item : JobsQueueItem) : Prop :=
  exists e task, e ∈ h /\ scheduled_task e = Some task /\ item_of_task task h item.

Definition run_of_task (task : Task) (run : running) h : Prop :=
  match run with
  | RunSchedule r => String.eqb (task_trigger_kind task) "ScheduleTrigger" = true
      /\ begun (task_trigger_ns task) (task_trigger_name task) (task_sources task)
           (task_source_clone_folder task) r h
  | RunWebhook r => String.eqb (task_trigger_kind task) "ScheduleTrigger" = false
      /\ begun (task_trigger_ns task) (task_trigger_name task) (task_sources task)
           (task_source_clone_folder task) r h
  end.

Definition run_traced h (run : running) : Prop :=
  exists e task, e ∈ h /\ scheduled_task e = Some task /\ run_of_task task run h.

(** Why a task was scheduled: its trigger was delivered, or a request that
    was permitted to asked for it. *)
Definition task_cause w (task : Task) : Prop :=
  (exists resource, resource ∈ w_delivered w /\ task_trigger_kind task = "ScheduleTrigger"
     /\ st_namespace resource = Some (task_trigger_ns task)
     /\ st_name resource = task_trigger_name task)
  \/ (exists req, req ∈ w_requests w /\ permitted header_get req (w_history w) task).

Definition tasks_traced w : Prop :=
  forall e task, e ∈ w_history w -> scheduled_task e = Some task -> task_cause w task.

(** What the secrets cache holds came from the API. *)
Definition secrets_traced w : Prop :=
  secrets_known (secret_cache (statics (w_state w))) (w_history w).

Definition world_ok w : Prop :=
  queue_refines w /\ Forall (run_traced (w_history w)) (w_running w)
  /\ Forall (item_traced (w_history w)) (w_items w) /\ tasks_traced w /\ secrets_traced w.

(** *** Evidence is never lost *)

Lemma item_cause_app T `{!Trigger T} task h new item :
  item_cause T task h item -> item_cause T task (h ++ new) item.
Proof.
  intros (trigger & found & suffix & source & id & Hin & Hfound & Hs & Hc).
  exists trigger, found, suffix, source, id. split; [set_solver|]. split; [done|]. split; [done|].
  by apply (caused_by_change_app _ _ _ _ _ _ _ _ []).
Qed.

Lemma item_traced_app h new item : item_traced h item -> item_traced (h ++ new) item.
Proof.
  intros (e & task & Hin & He & Hc). exists e, task. split; [set_solver|]. split; [done|].
  unfold item_of_task in *. case_match; by apply item_cause_app.
Qed.

Lemma run_traced_app h new run : run_traced h run -> run_traced (h ++ new) run.
Proof.
  intros (e & task & Hin & He & Hrun). exists e, task. split; [set_solver|]. split; [done|].
  destruct run; (split; [apply Hrun|apply begun_app, Hrun]).
Qed.

Lemma task_cause_later w w' new task :
  w_history w' = w_history w ++ new ->
  (forall resource, resource ∈ w_delivered w -> resource ∈ w_delivered w') ->
  (forall req, req ∈ w_requests w -> req ∈ w_requests w') ->
  task_cause w task -> task_cause w' task.
Proof.
  intros Hh Hd Hr [(resource & Hin & Hc)|(req & Hin & Hc)].
  - left. exists resource. auto.
  - right. exists req. split; [auto|]. rewrite Hh. by apply permitted_app.
Qed.

Lemma tasks_traced_later w w' new :
  w_history w' = w_history w ++ new ->
  (forall resource, resource ∈ w_delivered w -> resource ∈ w_delivered w') ->
  (forall req, req ∈ w_requests w -> req ∈ w_requests w') ->
  (forall e task, e ∈ new -> scheduled_task e = Some task -> task_cause w' task) ->
  tasks_traced w -> tasks_traced w'.
Proof.
  intros Hh Hd Hr Hnew Hw e task. rewrite Hh. intros [Hin|Hin]%elem_of_app He; [|by eauto].
  eapply task_cause_later; [done..|]. by eapply Hw.
Qed.

Lemma quiet_schedules new e task :
  Forall quiet_call new -> e ∈ new -> scheduled_task e = Some task -> False.
Proof. rewrite Forall_forall. intros Hnew Hin. specialize (Hnew e Hin). by destruct e as [[] r]. Qed.

(** *** Steps that leave the queue alone *)

Lemma queue_refines_same w w' new :
  w_queue w' = w_queue w -> w_queue_task w' = w_queue_task w -> w_items w' = w_items w ->
  w_history w' = w_history w ++ new -> creates new = [] ->
  queue_refines w -> queue_refines w'.
Proof.
  unfold queue_refines. intros -> -> -> -> Hnew. rewrite creates_app, Hnew, app_nil_r. done.
Qed.

Lemma runs_traced_app h new l :
  Forall (run_traced h) l -> Forall (run_traced (h ++ new)) l.
Proof. intros Hl. eapply Forall_impl; [exact Hl|]. intros. by apply run_traced_app. Qed.

Lemma items_traced_app h new l :
  Forall (item_traced h) l -> Forall (item_traced (h ++ new)) l.
Proof. intros Hl. eapply Forall_impl; [exact Hl|]. intros. by apply item_traced_app. Qed.

(** A step without jobs and without new tasks. *)
Lemma world_ok_quiet w c l new :
  world_ok w -> cells_set (w_state w) c -> Forall quiet_call new ->
  Forall (run_traced (w_history w ++ new)) l ->
  world_ok (moved w c l (w_history w ++ new)).
Proof.
  intros (Hq & _ & Hitems & Htasks & Hsecrets) [Hc Hcell] Hnew Hl.
  split; [|split; [done|split; [|split]]].
  - by eapply queue_refines_same; [..|exact Hq]; [| | | |apply quiet_creates].
  - by apply items_traced_app.
  - eapply tasks_traced_later; [..|exact Htasks]; [done|done|done|].
    intros e task Hin He. exfalso. by eapply quiet_schedules.
  - unfold secrets_traced in *. simpl. apply secrets_known_app.
    destruct Hcell as [->|(_ & timeout & ->)]; [done|].
    intros c' k sv [= <-]. simpl. by rewrite lookup_empty.
Qed.

Lemma cells_set_same c c' : statics c' = statics c -> cells_set c c'.
Proof. intros Hc. unfold cells_set. rewrite Hc. auto. Qed.

(** *** The beginning and the end of a task *)

Lemma wp_begin_task (o' : services) task (s : Statics) h :
  wp (begin_task task) o' s h (fun r s' h' => s' = s
    /\ exists new, h' = h ++ new /\ Forall quiet_call new
      /\ forall run, r = Ret (Some run) -> run_of_task task run new).
Proof.
  unfold begin_task. case_match eqn:Hkind; wp_step; (eapply wp_mono; [apply wp_task_begin|]);
    intros [[r|]|] s' h' (-> & new & -> & Hnew & Hrun);
    first [wp_step|idtac]; (split; [done|]; exists new; split; [done|]; split; [done|]);
    try done; intros run [= <-]; (split; [exact Hkind|by apply Hrun]).
Qed.

Lemma end_of_quiet run : calls_in quiet_call (end_of run) /\ stateless (end_of run).
Proof. destruct run; apply task_end_quiet. Qed.

(** *** One source *)

Definition labelled id (item : JobsQueueItem) : Prop :=
  exists ns job, item_job item = labelled_job id ns job.

Lemma caused_labelled T `{!Trigger T} (trigger : T) ns name source path current id h item :
  caused_by_change o trigger ns name source path current id h item -> labelled id item.
Proof.
  intros (found & commit & seen & made & _ & _ & _ & _ & Hm). revert Hm. unfold made_for.
  case_match; intros (? & action & _ & _ & _ & [_ (job & spec & pod & cloner & worker & mount
    & owner & Hjob & _)]); by exists ns, job.
Qed.

(** Enqueued items are steps of the queue's system. *)
Lemma enqueue_step q task item :
  labelled (identity q) item ->
  step law (Sys q task) [item] [Ev SystemNow (enqueued_at item)] (Sys (enqueued q item) task).
Proof.
  intros (ns & job & Hjob).
  apply (step_enqueue _ job ns (expire_after item) q task _
    (if queue_event_alive q then Ok tt else Err (JobsQueueError "channel closed"))).
  - exists (quiet_services (enqueued_at item) RuntimeConfig_default), [].
    unfold enqueue, enqueued, bind, get, perform, modify. simpl. rewrite <- Hjob.
    destruct item as [job' now expire]; simpl. by destruct (queue_event_alive q) eqn:Halive.
  - unfold enqueued. by destruct (queue_event_alive q).
Qed.

Lemma enqueue_steps items q task :
  Forall (labelled (identity q)) items ->
  exists new, steps law (Sys q task) items new (Sys (foldl enqueued q items) task)
    /\ creates new = [].
Proof.
  revert q. induction items as [|item items IH]; intros q Hall; simpl.
  { exists []. by split; [constructor|]. }
  inversion_clear Hall as [|? ? Hitem Hitems].
  destruct (IH (enqueued q item)) as (new & Hsteps & Hnew).
  { destruct (enqueued_all [item] q) as (_ & _ & _ & Hid & _). simpl in Hid. by rewrite Hid. }
  eexists. split.
  - eapply (steps_trans _ _ [item]); [by apply steps_once, enqueue_step|exact Hsteps].
  - by rewrite creates_app, Hnew.
Qed.

Lemma appended_added (s s' : Statics) items :
  jobs_added s s' items -> appended (jobs_queue s) (jobs_queue s') = items.
Proof.
  intros (_ & _ & Hq & Hnone). rewrite Hq. destruct (jobs_queue s) as [q|]; [|by rewrite Hnone].
  simpl. destruct (enqueued_all items q) as (Hjobs & _). rewrite Hjobs. apply drop_app_length.
Qed.

Lemma wp_turn_of run source task (s : Statics) h :
  run_of_task task run h -> source ∈ todo run ->
  wp (turn_of run source) o s h (fun _ s' h' => exists items new, h' = h ++ new
    /\ jobs_added s s' items /\ length items <= 1 /\ Forall quiet_call new
    /\ Forall (labelled (queue_identity s)) items
    /\ Forall (item_of_task task (h ++ new)) items).
Proof.
  assert (Hgen : forall T (Ht : Trigger T) (r : task_run T),
    begun (task_trigger_ns task) (task_trigger_name task) (task_sources task)
      (task_source_clone_folder task) r h ->
    source ∈ tr_todo r ->
    wp (task_turn r source) o s h (fun _ s' h' => exists items new, h' = h ++ new
      /\ jobs_added s s' items /\ length items <= 1 /\ Forall quiet_call new
      /\ Forall (labelled (queue_identity s)) items
      /\ Forall (item_cause T task (h ++ new)) items)).
  { intros T Ht r (Hns & Hname & [Hchecked [suffix Hbase]] & Hsub & found & Hin & Hfound) Hsource.
    eapply wp_mono; [apply wp_and; [apply wp_check_source|apply check_source_quiet]|].
    intros r' s' h' [(items & new & -> & Hadded & Hlen & Hcause)%turn_jobs
      (? & <-%app_inv_head & Hnew)].
    exists items, new. do 4 (split; [done|]). split.
    - eapply Forall_impl; [exact Hcause|]. intros item Hc. by eapply caused_labelled.
    - eapply Forall_impl; [exact Hcause|]. intros item Hc.
      exists (tr_trigger r), found, suffix, source, (queue_identity s).
      split; [set_solver|]. split; [done|]. split; [by apply Hsub|].
      rewrite <- Hbase, <- Hns, <- Hname, <- Hchecked.
      rewrite <- (app_nil_r new). by apply caused_by_change_app. }
  intros Hrun Hsource. destruct run as [r|r]; destruct Hrun as [Hkind Hrun]; (eapply wp_mono; [by apply Hgen|]);
    intros _ s' h' (items & new & -> & Hadded & Hlen & Hnew & Hlab & Hcause);
    exists items, new; do 5 (split; [done|]);
    (eapply Forall_impl; [exact Hcause|]); unfold item_of_task; by rewrite Hkind.
Qed.

(** *** The queue task schedules nothing *)

Definition queue_call (e : event resp) : Prop :=
  match e with Ev c _ => match c with SchedulerAdd _ _ => False | _ => well_typed_call c end end.

(** The labels of a completed job, each under its declared name. *)
Definition completed_label_values (job : Job) (status : JobCompletionStatus) (l : list string)
    : Prop :=
  exists ns labels, om_namespace (job_metadata job) = Some ns
    /\ om_labels (job_metadata job) = Some labels
    /\ Some <$> l = [Some ns; labels !! ACTION_JOB_TRIGGER_KIND_LABEL;
         labels !! ACTION_JOB_TRIGGER_NAME_LABEL; labels !! ACTION_JOB_SOURCE_KIND_LABEL;
         labels !! ACTION_JOB_SOURCE_NAME_LABEL; labels !! ACTION_JOB_ACTION_KIND_LABEL;
         labels !! ACTION_JOB_ACTION_NAME_LABEL; Some (JobCompletionStatus_to_string status)].

Lemma completed_labels_values {S} job status o' (s : S) t :
  wp (completed_labels job status) o' s t (fun r _ _ => forall l, r = Ret l ->
    completed_label_values job status l).
Proof.
  unfold completed_labels. repeat (wp_step; wp_step; case_match; [|done]). wp_step.
  intros l [= <-]. eexists _, _. split; [done|]. split; [done|]. simpl. congruence.
Qed.

Lemma count_and_measure_calls {S} job status :
  calls_in queue_call (count_and_measure_completed (S:=S) job status).
Proof.
  unfold count_and_measure_completed.
  apply (calls_in_bind_returns _ (fun l => length l = 8)).
  - unfold completed_labels. by calls_run.
  - intros o' s t. eapply wp_mono; [apply completed_labels_values|].
    intros r s' t' Hl l Hr. destruct (Hl l Hr) as (? & ? & _ & _ & Hvalues).
    by apply (f_equal length) in Hvalues; rewrite length_fmap in Hvalues.
  - intros l Hl. repeat (first [done | calls_step | case_match]).
Qed.

Lemma update_gauges_calls n : calls_in queue_call (update_gauges n).
Proof. unfold update_gauges. by calls_run. Qed.

Lemma on_job_event_calls store job : calls_in queue_call (on_job_event store job).
Proof.
  unfold on_job_event, notify_queue. calls_step; [|by calls_run]. case_match; [|by calls_run].
  calls_step; [by calls_run|]. calls_step; [by calls_run|]. cbv zeta.
  unfold on_job_status, on_job_gone, fetch_sub_running, fetch_add_running.
  case_match; repeat first [done | apply count_and_measure_calls | calls_step | case_match].
Qed.

Lemma queue_wake_calls : calls_in queue_call queue_wake.
Proof.
  unfold queue_wake. do 2 (calls_step; [by calls_run|]).
  calls_step; [apply update_gauges_calls|by calls_run].
Qed.

Lemma drain_one_calls n : calls_in queue_call (drain_one n).
Proof.
  unfold drain_one, recv. calls_step; [by calls_run|]. case_match; [|by calls_run].
  calls_step; [|calls_step; [apply update_gauges_calls|by calls_run]].
  unfold run_item, is_expired, measure_waiting_duration.
  repeat first [done | apply count_and_measure_calls | calls_step | case_match].
Qed.

Lemma queue_step_calls x enq new y : step law x enq new y -> Forall queue_call new.
Proof.
  assert (Hrun : forall A (m : io JobsQueue A) (o' : services) q t r q' new',
    calls_in queue_call m -> m o' q t = (r, q', t ++ new') -> Forall queue_call new').
  { intros A m o' q t r q' new' Hm Hm'.
    destruct (wp_elim _ _ _ _ _ _ _ _ Hm' (Hm o' q t)) as (? & ->%app_inv_head & ?). done. }
  destruct 1 as [? ? ? ? ? ? _ _ (? & ? & Hm)|? ? ? ? ? ? _ _ (? & ? & Hm)
    |job ns expire q ? ? ? ? ? (o' & t & Hm) _|? ? ? ? ? _ (? & ? & Hm)|? ? ? ? ? (? & ? & Hm)
    |? ? ? ? (? & ? & Hm)|? ? ? ? ? ? _ (? & ? & Hm)|? ? ? ? ? _ (? & ? & Hm)
    |? ? ? ? ? _ (? & ? & Hm)|?|?|?|?]; try by constructor.
  - by eapply Hrun; [apply on_job_event_calls|].
  - by eapply Hrun; [apply on_job_event_calls|].
  - assert (Hc : calls_in queue_call (enqueue job ns expire)) by (unfold enqueue; by calls_run).
    destruct (wp_elim _ _ _ _ _ _ _ _ Hm (Hc o' _ t)) as (? & ->%app_inv_head & ?). done.
  - by eapply Hrun; [apply queue_wake_calls|].
  - by eapply Hrun; [apply queue_wake_calls|].
  - by eapply Hrun; [apply queue_wake_calls|].
  - by eapply Hrun; [apply drain_one_calls|].
  - by eapply Hrun; [apply drain_one_calls|].
  - by eapply Hrun; [apply drain_one_calls|].
Qed.

Lemma queue_typed new : Forall queue_call new -> Forall well_typed new.
Proof. intros Hnew. eapply Forall_impl; [exact Hnew|]. by intros [[] r]. Qed.

Lemma queue_step_schedules x new y e task :
  step law x [] new y -> e ∈ new -> scheduled_task e = Some task -> False.
Proof.
  intros Hnew%queue_step_calls Hin. rewrite Forall_forall in Hnew. specialize (Hnew e Hin).
  by destruct e as [[] r].
Qed.

(** *** Every step keeps the invariant *)

Lemma ran_statics {A} (m : io Statics A) w r c h Q :
  ran o (on_statics m) w r c h -> wp m o (statics (w_state w)) (w_history w) Q ->
  Q r (statics c) h.
Proof.
  unfold ran, on_statics, zoom, wp. intros Hrun HQ.
  destruct (m o (statics (w_state w)) (w_history w)) as [[r' s'] t']. by injection Hrun as <- <- <-.
Qed.

Lemma Forall_middle {A} (P : A -> Prop) before x after l :
  Forall P (before ++ x :: after) -> (P x -> Forall P l) -> Forall P (before ++ l ++ after).
Proof. rewrite !Forall_app, Forall_cons. tauto. Qed.

Lemma turn_ok w before run after source rest r c h :
  world_ok w -> w_running w = before ++ run :: after -> todo run = source :: rest ->
  ran o (on_statics (turn_of run source)) w r c h ->
  world_ok (and_enqueued (appended (w_queue w) (jobs_queue (statics c)))
    (moved w c (before ++ survivors r (proceed rest run) ++ after) h)).
Proof.
  intros (Hq & Hruns & Hitems & Htasks & Hsecrets) Hw Htodo Hrun. rewrite Hw in Hruns.
  assert (Hone : run_traced (w_history w) run).
  { rewrite Forall_app, Forall_cons in Hruns. tauto. }
  destruct Hone as (e & task & Hin & He & Hrt).
  pose proof (ran_statics _ _ _ _ _ _ Hrun (wp_turn_of run source task _ _ Hrt
         ltac:(rewrite Htodo; by left))) as Hpost.
  destruct Hpost as (items & new & -> & Hadded & _ & Hnew & Hlab & Hcause).
  unfold w_queue. rewrite (appended_added _ _ _ Hadded).
  pose proof (quiet_creates _ Hnew) as Hcr.
  split; [|split; [|split; [|split]]].
  - unfold queue_refines, w_queue in *. simpl. destruct Hadded as (_ & _ & -> & Hnone).
    destruct (jobs_queue (statics (w_state w))) as [q|] eqn:Hqueue; simpl.
    + destruct Hq as (id & new1 & Hsteps & Hnew1).
      destruct (enqueue_steps items q (w_queue_task w)) as (new2 & Hsteps2 & Hnew2).
      { unfold queue_identity in Hlab. by rewrite Hqueue in Hlab. }
      exists id, (new1 ++ new2). split; [by eapply steps_trans|].
      by rewrite !creates_app, Hnew1, Hnew2, Hcr.
    + rewrite Hnone, app_nil_r by done. destruct Hq as [-> ?].
      by rewrite creates_app, Hcr, app_nil_r.
  - simpl. eapply Forall_middle; [by apply runs_traced_app|].
    intros _. destruct r; simpl; [|done]. constructor; [|done].
    exists e, task. split; [set_solver|]. split; [done|].
    destruct run as [run|run]; simpl in *; (split; [apply Hrt|apply begun_app]);
      destruct Hrt as (_ & ? & ? & ? & Hsub & ?); (do 3 (split; [done|])); (split; [|done]);
      intros x Hx; apply Hsub; rewrite Htodo; by right.
  - simpl. apply Forall_app_2; [by apply items_traced_app|].
    eapply Forall_impl; [exact Hcause|]. intros item Hc. exists e, task.
    split; [set_solver|]. by split.
  - eapply tasks_traced_later; [..|exact Htasks]; [done|done|done|].
    intros e' task' Hin' He'. exfalso. by eapply quiet_schedules.
  - unfold secrets_traced in *. simpl. destruct Hadded as (_ & -> & _). by apply secrets_known_app.
Qed.

Lemma deliver_step_ok w folder resource ns r c h :
  world_ok w -> st_namespace resource = Some ns -> ran o (deliver folder resource) w r c h ->
  world_ok (and_delivered resource (moved w c (w_running w) h)).
Proof.
  intros (Hq & Hruns & Hitems & Htasks & Hsecrets) Hns Hrun.
  pose proof (wp_elim _ _ _ _ _ _ _ _ Hrun (wp_delivered folder resource ns o _ _ Hns))
    as (Hc & new & -> & Hnew).
  split; [|split; [|split; [|split]]].
  - eapply queue_refines_same; [..|exact Hq]; [|done|done|done|by eapply leader_creates].
    unfold w_queue. simpl. by rewrite Hc.
  - by apply runs_traced_app.
  - by apply items_traced_app.
  - eapply tasks_traced_later; [..|exact Htasks]; [done|simpl; set_solver|done|].
    intros e task Hin He. rewrite Forall_forall in Hnew. specialize (Hnew e Hin).
    destruct e as [[] a]; try done. destruct a; [|done]. injection He as <-.
    destruct Hnew as (_ & Hkind & Htns & Hname). left. exists resource.
    split; [simpl; set_solver|]. by rewrite Htns.
  - unfold secrets_traced in *. simpl. rewrite Hc. by apply secrets_known_app.
Qed.

Lemma request_step_ok w req r c h :
  world_ok w -> ran o (on_statics (serve header_get req)) w r c h ->
  world_ok (and_requested req (moved w c (w_running w) h)).
Proof.
  intros (Hq & Hruns & Hitems & Htasks & Hsecrets) Hrun.
  pose proof (ran_statics _ _ _ _ _ _ Hrun (wp_serve header_get req o _ _))
    as (Hc & new & -> & Hnew & Hperm).
  destruct (Hperm Hsecrets) as [Hsecrets' Hposted].
  split; [|split; [|split; [|split]]].
  - eapply queue_refines_same; [..|exact Hq]; [done|done|done|done|by apply web_creates].
  - by apply runs_traced_app.
  - by apply items_traced_app.
  - eapply tasks_traced_later; [..|exact Htasks]; [done|done|simpl; set_solver|].
    intros e task Hin He. right. exists req. split; [simpl; set_solver|].
    rewrite Forall_forall in Hnew. rewrite Forall_forall in Hposted.
    specialize (Hnew e Hin). simpl. apply Hposted.
    apply list_elem_of_omap. exists e. split; [done|].
    destruct e as [[] a]; try done. simpl in Hnew. subst. simpl. by destruct a; simplify_eq.
  - exact Hsecrets'.
Qed.

Lemma wstep_ok w w' : world_ok w -> wstep header_get o law w w' -> world_ok w'.
Proof.
  intros Hok Hstep. destruct Hstep as [w folder resource ns r c h Hns Hrun|w req r c h Hrun
    |w e task r c h Hin He Hrun|w before run after source rest r c h Hw Htodo Hrun
    |w before run after r c h Hw _ Hrun|w before run after Hw|w q new q' task Hq Hstep
    |w id Hq|w c Hc].
  - by eapply deliver_step_ok.
  - by eapply request_step_ok.
  - pose proof (ran_statics _ _ _ _ _ _ Hrun (wp_begin_task o task _ _))
      as (Hc & new & -> & Hnew & Hbegun).
    apply world_ok_quiet; [done|by apply cells_set_same|done|].
    apply Forall_app_2; [by apply runs_traced_app, Hok|].
    destruct r as [[run|]|]; [|done..]. constructor; [|done]. exists e, task.
    split; [set_solver|]. split; [done|].
    specialize (Hbegun run eq_refl). destruct run; simpl in *;
      destruct Hbegun as (? & ? & ? & ? & ? & found & Hfin & ?);
      (do 5 (split; [done|])); exists found; (split; [set_solver|done]).
  - by eapply turn_ok.
  - destruct (end_of_quiet run) as [Hcalls Hstate].
    pose proof (ran_statics _ _ _ _ _ _ Hrun (wp_and _ _ _ _ _ _ (Hcalls o _ _) (Hstate o _ _)))
      as [(new & -> & Hnew) Hc].
    apply world_ok_quiet; [done|by apply cells_set_same|done|].
    apply runs_traced_app. destruct Hok as (_ & Hruns & _). rewrite Hw in Hruns.
    rewrite Forall_app, Forall_cons in Hruns. apply Forall_app. tauto.
  - rewrite <- (app_nil_r (w_history w)). apply world_ok_quiet; [done|by apply cells_set_same|done|].
    rewrite app_nil_r. destruct Hok as (_ & Hruns & _). rewrite Hw in Hruns.
    rewrite Forall_app, Forall_cons in Hruns. apply Forall_app. tauto.
  - destruct Hok as (Href & Hruns & Hitems & Htasks & Hsecrets).
    split; [|split; [|split; [|split]]].
    + unfold queue_refines in *. rewrite Hq in Href. simpl.
      destruct Href as (id & new1 & Hsteps & Hnew1). exists id, (new1 ++ new).
      rewrite <- (app_nil_r (w_items w)). split; [by econstructor|].
      by rewrite !creates_app, Hnew1.
    + by apply runs_traced_app.
    + by apply items_traced_app.
    + eapply tasks_traced_later; [..|exact Htasks]; [done|done|done|].
      intros e task' Hin He. exfalso. by eapply queue_step_schedules.
    + by apply secrets_known_app.
  - destruct Hok as (Href & Hruns & Hitems & Htasks & Hsecrets).
    split; [|split; [|split; [|split]]]; try done.
    unfold queue_refines in *. rewrite Hq in Href. destruct Href as [-> Hcr]. simpl.
    exists id, []. split; [constructor|done].
  - rewrite <- (app_nil_r (w_history w)). apply world_ok_quiet; [done|done|done|].
    rewrite app_nil_r. apply Hok.
Qed.

(** *** Every call on a metric is well typed *)

Lemma turn_of_quiet run source : calls_in quiet_call (turn_of run source).
Proof. destruct run; apply check_source_quiet. Qed.

Lemma begin_task_quiet task : calls_in quiet_call (begin_task task).
Proof.
  intros o' s t. eapply wp_mono; [apply wp_begin_task|].
  intros r s' t' (_ & new & -> & Hnew & _). by exists new.
Qed.

(** A run of quiet calls from [w]. *)
Lemma quiet_ran_typed {A} (m : io Statics A) w r c h :
  calls_in quiet_call m -> ran o (on_statics m) w r c h ->
  Forall well_typed (w_history w) -> Forall well_typed h.
Proof.
  intros Hm Hrun Hw. destruct (ran_statics _ _ _ _ _ _ Hrun (Hm o _ _)) as (new & -> & Hnew).
  apply Forall_app_2; [done|by apply quiet_typed].
Qed.

Lemma wstep_typed w w' :
  Forall well_typed (w_history w) -> wstep header_get o law w w' ->
  Forall well_typed (w_history w').
Proof.
  intros Hw Hstep. destruct Hstep as [w folder resource ns r c h Hns Hrun|w req r c h Hrun
    |w e task r c h _ _ Hrun|w before run after source rest r c h _ _ Hrun
    |w before run after r c h _ _ Hrun|w before run after _|w q new q' task _ Hstep|w id _|w c _];
    simpl.
  - destruct (wp_elim _ _ _ _ _ _ _ _ Hrun (wp_delivered folder resource ns o _ _ Hns))
      as (_ & new & -> & Hnew). apply Forall_app_2; [done|by eapply leader_typed].
  - destruct (ran_statics _ _ _ _ _ _ Hrun (wp_serve header_get req o _ _))
      as (_ & new & -> & Hnew & _). apply Forall_app_2; [done|by apply web_typed].
  - eapply quiet_ran_typed; [apply begin_task_quiet|done..].
  - eapply quiet_ran_typed; [apply turn_of_quiet|done..].
  - eapply quiet_ran_typed; [apply end_of_quiet|done..].
  - done.
  - apply Forall_app_2; [done|]. by eapply queue_typed, queue_step_calls.
  - done.
  - done.
Qed.

(** C30. Metrics are used as they are declared.  In every execution of the
    controller, every call on a metric - the gauges, the counters and the
    histograms of the queue, the tasks, the reconciler and the handlers, on
    every path - uses it as the kind it was created as, with exactly one
    value for each of its labels; so no lookup of a labelled metric fails,
    neither where the failure would be ignored nor where it is unwrapped. *)
Theorem metric_calls_typed c w :
  wsteps header_get o law (booted c) w -> Forall well_typed (w_history w).
Proof.
  intros Hsteps. remember (booted c) as w0 eqn:Hw0.
  induction Hsteps as [|w0 w1 w2 _ IH Hstep]; subst; [constructor|].
  by eapply wstep_typed; [apply IH|].
Qed.

Lemma wsteps_ok c w : wsteps header_get o law (booted c) w -> world_ok w.
Proof.
  intros Hsteps. remember (booted c) as w0 eqn:Hw0.
  induction Hsteps as [|w0 w1 w2 _ IH Hstep]; subst.
  - split; [done|]. split; [constructor|]. split; [constructor|].
    split; [by intros e task Hin%elem_of_nil|done].
  - by eapply wstep_ok; [apply IH|].
Qed.

(** C3. The whole controller, seen from its jobs queue, is an execution of
    the queue's own system: in every state that deliveries, requests, tasks
    and the queue task can reach, whatever their interleaving and whatever
    fails or panics, the queue and the position of its task are reachable in
    JobsSystem.v by enqueuing the same items, with the same submissions.  So
    everything proved there (first in, first out, at most once; no lost
    wake-up) holds of the running controller. *)
Theorem controller_refines_queue c w q :
  wsteps header_get o law (booted c) w -> w_queue w = Some q ->
  exists id new, steps law (started id) (w_items w) new (Sys q (w_queue_task w))
    /\ creates new = creates (w_history w).
Proof.
  intros (Href & _)%wsteps_ok Hq. unfold queue_refines in Href. by rewrite Hq in Href.
Qed.

(** What made the controller submit a job. *)
Definition job_cause w ns (job : Job) : Prop :=
  exists item e task, item ∈ w_items w /\ item_job item = job
    /\ e ∈ w_history w /\ scheduled_task e = Some task /\ task_trigger_ns task = ns
    /\ ((task_trigger_kind task = "ScheduleTrigger"
          /\ item_cause ScheduleTrigger task (w_history w) item
          /\ exists resource, resource ∈ w_delivered w /\ st_namespace resource = Some ns
               /\ st_name resource = task_trigger_name task)
        \/ (task_trigger_kind task = "WebhookTrigger"
          /\ item_cause WebhookTrigger task (w_history w) item
          /\ exists req, req ∈ w_requests w
               /\ permitted header_get req (w_history w) task)).

Lemma submitted_item w ns job a :
  queue_refines w -> (ns, job, a) ∈ creates (w_history w) ->
  exists item, item ∈ w_items w /\ item_job item = job /\ item_ns item = ns.
Proof.
  unfold queue_refines. intros Href Hin. destruct (w_queue w) as [q|].
  2: { destruct Href as [_ Hcr]. rewrite Hcr in Hin. by apply elem_of_nil in Hin. }
  destruct Href as (id & new & Hsteps & Hnew). rewrite <- Hnew in Hin.
  apply steps_ok in Hsteps as [(taken & fates & -> & _ & Hcr) _]. rewrite Hcr in Hin.
  apply list_elem_of_omap in Hin as ([item f] & Hitem & Hf).
  apply elem_of_zip_l in Hitem. exists item. split; [set_solver|].
  unfold fate_create in Hf. by destruct f; simplify_eq/=.
Qed.

Lemma item_cause_namespace T `{!Trigger T} task h item :
  item_cause T task h item -> item_ns item = task_trigger_ns task.
Proof.
  intros (trigger & found & suffix & source & id & _ & _ & _ & Hc).
  apply caused_by_change_job in Hc as [_ Hns]. unfold item_ns. by rewrite Hns.
Qed.

Lemma permitted_kind req h task :
  permitted header_get req h task -> task_trigger_kind task = "WebhookTrigger".
Proof.
  intros (t & new & later & _ & Hp). destruct req;
    by destruct Hp as (start & trigger & ns & checked & a & after & _ & _ & _ & _ & ->).
Qed.

Lemma job_traced w ns job a :
  world_ok w -> (ns, job, a) ∈ creates (w_history w) -> job_cause w ns job.
Proof.
  intros (Href & _ & Hitems & Htasks & _) Hin.
  destruct (submitted_item _ _ _ _ Href Hin) as (item & Hitem & Hjob & Hns).
  rewrite Forall_forall in Hitems. destruct (Hitems item Hitem) as (e & task & He & Htask & Hcause).
  exists item, e, task. do 4 (split; [done|]). unfold item_of_task in Hcause.
  assert (Htns : task_trigger_ns task = ns).
  { rewrite <- Hns. symmetry. destruct (String.eqb _ _);
      exact (item_cause_namespace _ _ _ _ Hcause). }
  split; [done|].
  destruct (Htasks e task He Htask) as [(resource & Hd & Hkind & Hrns & Hname)|(req & Hr & Hperm)].
  - left. rewrite Hkind in Hcause. split; [done|]. split; [done|]. exists resource.
    split; [done|]. by rewrite Hrns, Htns.
  - right. pose proof (permitted_kind _ _ _ Hperm) as Hkind. rewrite Hkind in Hcause.
    split; [done|]. split; [done|]. by exists req.
Qed.

(** C1. No job without a cause.  In every execution of the controller, each
    job that was submitted to the cluster is the job of an enqueued item,
    made in the namespace of a task, by the trigger of the task's kind and
    name as the cache answered it, for one of its sources: a commit of that
    source had been fetched and checked out in the task's folder, what the
    watched files then held had been hashed, and this called for the action
    against the state the trigger recorded.  And the task itself had been
    scheduled because its ScheduleTrigger was delivered to the reconciler,
    or because a request for that WebhookTrigger was served, in the very
    events of which the trigger was found and allows the run, and, if it asks
    for authorization, the configured header carries a value that the API had
    answered for the key of the trigger's secret.  Nothing else - no other request, no race of the tasks with each
    other or with the queue, no failure or panic of any service on the way -
    makes this controller create a job. *)
Theorem no_job_without_cause c w ns job a :
  wsteps header_get o law (booted c) w ->
  (ns, job, a) ∈ creates (w_history w) -> job_cause w ns job.
Proof. intros Hsteps%wsteps_ok. by apply job_traced. Qed.

(** The clock is never behind a reading it already gave. *)
Definition clock_monotone h : Prop :=
  forall now new, Ev SystemNow now ∈ h -> (now <= o (h ++ new) SystemNow)%Z.

(** The deadlines that the configuration gives the items are representable. *)
Definition deadlines_fit h (items : list JobsQueueItem) : Prop :=
  Forall (fun item => forall new, is_Some (checked_add (enqueued_at item)
    (unwrap_or (from_secs (job_waiting_timeout_seconds (rc_action (o (h ++ new) GetConfig))))
       (expire_after item)))) items.

Lemma item_cause_ready T `{!Trigger T} task h item :
  item_cause T task h item ->
  measurable (item_job item) /\ Ev SystemNow (enqueued_at item) ∈ h.
Proof.
  intros (trigger & found & suffix & source & id & _ & _ & _ & Hc).
  split; [by apply caused_by_change_job in Hc as [? _]|].
  destruct Hc as (found' & commit & seen & made & -> & _ & _ & _ & Hm). revert Hm. unfold made_for.
  case_match; intros (? & ? & _ & ? & _); set_solver.
Qed.

Lemma items_ready h items :
  Forall (item_traced h) items -> clock_monotone h -> deadlines_fit h items ->
  Forall (item_ready o h) items.
Proof.
  intros Hitems Hclock Hdeadlines. unfold deadlines_fit in Hdeadlines.
  rewrite Forall_forall in Hitems. rewrite Forall_forall in Hdeadlines.
  apply Forall_forall. intros item Hin.
  destruct (Hitems item Hin) as (e & task & _ & _ & Hcause).
  assert (Hready : measurable (item_job item) /\ Ev SystemNow (enqueued_at item) ∈ h).
  { unfold item_of_task in Hcause. case_match;
      exact (item_cause_ready _ _ _ _ Hcause). }
  destruct Hready as [Hm Hnow]. split; [done|]. intros new.
  split; [by apply Hclock|by apply Hdeadlines].
Qed.
End SystemFacts.

Section survival.
Context `{Ext} `{!KubeFinalizer} `{!KubeFinalizerLaws}.
Context {HeaderMap : Type} (header_get : HeaderMap -> string -> option string).
Context (o : services).

(** C10. The queue task survives.  In every execution of the controller in
    which the watch reports the jobs as they live, with a clock that does
    not go backwards, a limit that fits the gauge, fewer than 2^63 jobs seen
    and queued, and waiting timeouts, the configured one and the items' own,
    that give deadlines which can be represented, no turn of the queue loop
    and no report of the watch panics: every item that reaches the queue
    carries the namespace and the labels that the metrics unwrap, whatever
    else the triggers, sources and actions say. *)
Theorem controller_queue_survives c w q :
  wsteps header_get o lawful (booted c) w -> w_queue w = Some q ->
  limits_fit o ->
  (Z.of_nat (size (statuses q)) <= i64_max)%Z -> (Z.of_nat (length (queue_jobs q)) <= i64_max)%Z ->
  clock_monotone o (w_history w) -> deadlines_fit o (w_history w) (w_items w) ->
  next_survives o (w_history w) (Sys q (w_queue_task w)).
Proof.
  intros (Href & _ & Hitems & _ & _)%wsteps_ok Hq Hlim Hsize Hlen Hclock Hdeadlines.
  unfold queue_refines in Href. rewrite Hq in Href. destruct Href as (id & new & Hsteps & _).
  eapply steps_survive; [exact Hsteps|done..|by apply items_ready].
Qed.
End survival.
