(* ===== verification/SystemExamples.v ===== *)
(** * The controller as a system: a concrete execution

    A scheduler that makes some of the steps of System.v by computing them,
    and the execution in which one delivered trigger leads to one submitted
    job. *)

From stdpp Require Import base option gmap sets strings list.
From Stdlib Require Import ZArith Lia.
From S2P Require Import Prelude Strs Time Errors Config Ext Resources World Metrics Jobs JobsFacts Cache Statics Action GitRepo Trigger TriggerFacts SourceFacts TaskFacts TriggerExamples Web WebExamples JobsSystem Cloner EndToEnd Controller System SystemFacts.
Local Open Scope string_scope.
Local Open Scope list_scope.

#[local] Existing Instance example_ext.
#[local] Existing Instance applying_finalizer.
#[local] Existing Instance applying_finalizer_laws.

Local Abbreviation world := (world (HeaderMap:=list (string * string))).

Section scheduler.
Context (o : services).

Definition advance {A} (m : io ControllerState A) (w : world) : outcome A * ControllerState * trace :=
  m o (w_state w) (w_history w).

Lemma ran_advance {A} (m : io ControllerState A) (w : world) :
  ran o m w (advance m w).1.1 (advance m w).1.2 (advance m w).2.
Proof. unfold ran, advance. by destruct (m o (w_state w) (w_history w)) as [[??]?]. Qed.

Definition do_deliver resource (w : world) : world :=
  let x := advance (deliver "/tmp" resource) w in
  and_delivered resource (moved w x.1.2 (w_running w) x.2).

Definition do_open id (w : world) : world :=
  if w_queue w is Some _ then w else {|
    w_state := set_queue (Some (sys_queue (started id))) (w_state w);
    w_queue_task := sys_task (started id);
    w_running := w_running w; w_history := w_history w;
    w_items := w_items w; w_delivered := w_delivered w; w_requests := w_requests w |}.

Definition do_begin (w : world) : world :=
  match omap scheduled_task (w_history w) with
  | task :: _ =>
      let x := advance (on_statics (begin_task task)) w in
      moved w x.1.2 (w_running w ++ match x.1.1 with Ret (Some run) => [run] | _ => [] end) x.2
  | [] => w
  end.

Definition do_turn (w : world) : world :=
  match w_running w with
  | run :: after =>
      match todo run with
      | source :: rest =>
          let x := advance (on_statics (turn_of run source)) w in
          and_enqueued (appended (w_queue w) (jobs_queue (statics x.1.2)))
            (moved w x.1.2 ([] ++ survivors x.1.1 (proceed rest run) ++ after) x.2)
      | [] => w
      end
  | [] => w
  end.

Definition with_queue (w : world) q task new : world := {|
  w_state := set_queue (Some q) (w_state w); w_queue_task := task;
  w_running := w_running w; w_history := w_history w ++ new;
  w_items := w_items w; w_delivered := w_delivered w; w_requests := w_requests w |}.

(** The next turn of the queue task, when the services let it return. *)
Definition do_queue (w : world) : world :=
  match w_queue w, w_queue_task w with
  | Some q, Waiting _ =>
      match queue_wake o (with_event_pending false q) [] with
      | (Ret k, q', new) =>
          if queue_event_pending q then with_queue w q' (task_after_wake k) new else w
      | _ => w
      end
  | Some q, Draining (S n) f =>
      match drain_one n o q [] with
      | (Ret (Some created), q', new) =>
          if bool_decide (0 < f)%Z then with_queue w q' (Draining n (spend created f)) new else w
      | _ => w
      end
  | _, _ => w
  end.

(** The scheduler makes steps of the system. *)
Section sound.
Context (law : JobsQueue -> (ObjectRef -> option Job) -> option Job -> Prop).

Local Abbreviation wsteps := (wsteps assoc_get o law).

Lemma wsteps_once w w' : wstep assoc_get o law w w' -> wsteps w w'.
Proof. intros Hs. econstructor; [constructor|exact Hs]. Qed.

Lemma wsteps_trans w w1 w2 : wsteps w w1 -> wsteps w1 w2 -> wsteps w w2.
Proof. intros H1 H2. induction H2; [done|]. by econstructor; [apply IHwsteps|]. Qed.

Lemma do_deliver_step resource ns w :
  st_namespace resource = Some ns -> wstep assoc_get o law w (do_deliver resource w).
Proof. intros Hns. by eapply ws_deliver, ran_advance. Qed.

Lemma do_deliver_steps resource ns w :
  st_namespace resource = Some ns -> wsteps w (do_deliver resource w).
Proof. intros Hns. by eapply wsteps_once, do_deliver_step. Qed.

Lemma do_open_step id w : w_queue w = None -> wstep assoc_get o law w (do_open id w).
Proof. intros Hq. unfold do_open. rewrite Hq. by apply ws_open. Qed.

Lemma do_open_steps id w : wsteps w (do_open id w).
Proof.
  destruct (w_queue w) eqn:Hq; [|by apply wsteps_once, do_open_step].
  unfold do_open. rewrite Hq. constructor.
Qed.

Lemma do_begin_step w task tasks :
  omap scheduled_task (w_history w) = task :: tasks -> wstep assoc_get o law w (do_begin w).
Proof.
  intros Hl. unfold do_begin. rewrite Hl.
  assert (Htask : task ∈ omap scheduled_task (w_history w)) by (rewrite Hl; by left).
  apply list_elem_of_omap in Htask as (e & Hin & He).
  eapply ws_begin; [done|done|apply ran_advance].
Qed.

Lemma do_begin_steps w : wsteps w (do_begin w).
Proof.
  destruct (omap scheduled_task (w_history w)) as [|task l] eqn:Hl;
    [|by eapply wsteps_once, do_begin_step].
  unfold do_begin. rewrite Hl. constructor.
Qed.

Lemma do_turn_step w run after source rest :
  w_running w = run :: after -> todo run = source :: rest -> wstep assoc_get o law w (do_turn w).
Proof.
  intros Hrun Htodo. unfold do_turn. rewrite Hrun, Htodo.
  eapply (ws_turn _ _ _ w []); [done|done|apply ran_advance].
Qed.

Lemma do_turn_steps w : wsteps w (do_turn w).
Proof.
  destruct (w_running w) as [|run after] eqn:Hrun; [unfold do_turn; rewrite Hrun; constructor|].
  destruct (todo run) as [|source rest] eqn:Htodo; [|by eapply wsteps_once, do_turn_step].
  unfold do_turn. rewrite Hrun, Htodo. constructor.
Qed.

Lemma do_queue_steps w : wsteps w (do_queue w).
Proof.
  unfold do_queue. destruct (w_queue w) as [q|] eqn:Hq; [|constructor].
  destruct (w_queue_task w) as [why|[|n] f|] eqn:Htask; [|constructor| |constructor].
  - destruct (queue_wake _ _ _) as [[[k|] q'] new] eqn:Hrun; [|constructor].
    destruct (queue_event_pending q) eqn:Hp; [|constructor].
    apply wsteps_once, (ws_queue _ _ _ w q); [done|]. rewrite Htask.
    apply step_event; [done|]. by exists o, [].
  - destruct (drain_one _ _ _ _) as [[[[created|]|] q'] new] eqn:Hrun; [|constructor..].
    case_bool_decide; [|constructor].
    apply wsteps_once, (ws_queue _ _ _ w q); [done|]. rewrite Htask.
    apply step_drain; [done|]. by exists o, [].
Qed.
End sound.
End scheduler.

(** One trigger is delivered, its task checks its source, and the queue task
    submits the job. *)
Definition one_job (o : services) : world :=
  do_queue o (do_queue o (do_turn o (do_begin o (do_open "me"
    (do_deliver o app_trigger (booted idle_controller)))))).

Lemma one_job_steps o law : wsteps assoc_get o law (booted idle_controller) (one_job o).
Proof.
  unfold one_job.
  eapply wsteps_trans; [by eapply (do_deliver_steps _ _ app_trigger "ci")|].
  eapply wsteps_trans; [by apply do_open_steps|].
  eapply wsteps_trans; [by apply do_begin_steps|].
  eapply wsteps_trans; [by apply do_turn_steps|].
  eapply wsteps_trans; by apply do_queue_steps.
Qed.

Example one_job_submitted :
  (fun x => (x.1.1, x.2)) <$> creates (w_history (one_job app_services)) = [("ci", true)].
Proof. vm_compute. reflexivity. Qed.

Definition done_world : world := one_job app_services.

Lemma submission_seen (l : list (string * Job * bool)) ns a :
  (fun x => (x.1.1, x.2)) <$> l = [(ns, a)] -> exists job, (ns, job, a) ∈ l.
Proof.
  destruct l as [|[[ns' job] a'] l]; simpl; [done|]. intros [= -> -> _]. exists job. by left.
Qed.

Lemma done_world_job : exists job, ("ci", job, true) ∈ creates (w_history done_world).
Proof. exact (submission_seen _ _ _ one_job_submitted). Qed.

Example one_job_queue :
  (fun q => (size (statuses q), length (queue_jobs q))) <$> w_queue (one_job app_services)
  = Some (0, 0).
Proof. vm_compute. reflexivity. Qed.

Lemma queue_seen (q : option JobsQueue) n m :
  (fun q => (size (statuses q), length (queue_jobs q))) <$> q = Some (n, m) ->
  exists q', q = Some q' /\ size (statuses q') = n /\ length (queue_jobs q') = m.
Proof. destruct q as [q|]; simpl; [|done]. intros [= <- <-]. by exists q. Qed.

Lemma done_world_queue : exists q, w_queue done_world = Some q /\ size (statuses q) = 0
  /\ length (queue_jobs q) = 0.
Proof. exact (queue_seen _ _ _ one_job_queue). Qed.

Lemma no_job_without_cause_witness : exists job,
  ("ci", job, true) ∈ creates (w_history done_world)
  /\ job_cause assoc_get app_services done_world "ci" job.
Proof.
  destruct done_world_job as [job Hjob]. exists job. split; [exact Hjob|].
  exact (no_job_without_cause assoc_get app_services any_event idle_controller done_world "ci" job
    true (one_job_steps app_services any_event) Hjob).
Defined.

Lemma controller_refines_queue_witness : exists q, w_queue done_world = Some q
  /\ exists id new, steps any_event (started id) (w_items done_world) new
       (Sys q (w_queue_task done_world)) /\ creates new = creates (w_history done_world).
Proof.
  destruct done_world_queue as (q & Hq & _). exists q. split; [exact Hq|].
  exact (controller_refines_queue assoc_get app_services any_event idle_controller done_world q
    (one_job_steps app_services any_event) Hq).
Defined.

(** The clock stands still in this execution. *)
Definition at_rest (e : event resp) : bool :=
  match e with
  | Ev c r => match c as c return resp c -> bool with
              | SystemNow => fun now => bool_decide (now <= 100)%Z
              | _ => fun _ => true
              end r
  end.

Lemma done_world_clock : clock_monotone app_services (w_history done_world).
Proof.
  assert (Hall : forallb at_rest (w_history done_world) = true) by (vm_compute; reflexivity).
  rewrite forallb_forall in Hall. intros now new Hin%list_elem_of_In.
  specialize (Hall _ Hin). simpl in Hall. by apply bool_decide_eq_true in Hall.
Qed.

Lemma done_world_deadlines :
  deadlines_fit app_services (w_history done_world) (w_items done_world).
Proof.
  assert (Hall : forallb (fun item => bool_decide (is_Some (checked_add (enqueued_at item)
    (unwrap_or (from_secs 300) (expire_after item))))) (w_items done_world) = true)
    by (vm_compute; reflexivity).
  rewrite forallb_forall in Hall. apply Forall_forall. intros item Hin%list_elem_of_In new.
  specialize (Hall _ Hin). by apply bool_decide_eq_true in Hall.
Qed.

Lemma controller_queue_survives_witness : exists q, w_queue done_world = Some q
  /\ next_survives app_services (w_history done_world) (Sys q (w_queue_task done_world)).
Proof.
  destruct done_world_queue as (q & Hq & Hsize & Hjobs). exists q. split; [exact Hq|].
  apply (controller_queue_survives assoc_get app_services idle_controller done_world q
    (one_job_steps app_services lawful) Hq).
  - done.
  - by rewrite Hsize.
  - by rewrite Hjobs.
  - exact done_world_clock.
  - exact done_world_deadlines.
Defined.

Lemma metric_calls_typed_witness : Forall well_typed (w_history done_world).
Proof.
  exact (metric_calls_typed assoc_get app_services any_event idle_controller done_world
    (one_job_steps app_services any_event)).
Defined.
