(* ===== verification/SystemLiveness.v ===== *)
(** * The controller as a system: what it is bound to do

    Infinite executions of System.v.  Seen from the jobs queue each is an
    infinite execution of the queue's own system, and when the queue and the
    tasks get their turns, a change that a task finds becomes a job that
    reaches the Kubernetes API, or expires.  An accepted request has a task
    that begins. *)

From stdpp Require Import base option gmap sets strings list.
From Stdlib Require Import ZArith Lia.
From S2P Require Import Prelude Strs Time Errors Config Ext Resources World Jobs JobsFacts Cache Statics Action GitRepo Trigger TriggerFacts SourceFacts TaskFacts TriggerExamples Web WebExamples JobsSystem JobsLiveness JobsProgress EndToEnd TaskComplete Controller System SystemFacts SystemExamples.
Local Open Scope string_scope.
Local Open Scope list_scope.

Section SystemLiveness.
Context `{Ext} `{!KubeFinalizer} `{!KubeFinalizerLaws}.
Context {HeaderMap : Type} (header_get : HeaderMap -> string -> option string).
Context (o : services).

Local Abbreviation world := (world (HeaderMap:=HeaderMap)).
Local Abbreviation wstep := (wstep header_get o lawful).
Local Abbreviation world_ok := (world_ok header_get o lawful).
Implicit Types (w : world) (s : Statics) (h new : trace).

(** ** One step, seen from the queue *)

(** The queue and the position of its task. *)
Definition queue_view w : system :=
  Sys (unwrap_or (sys_queue (started "")) (w_queue w)) (w_queue_task w).

(** What a step of the controller is for the queue: nothing, a step of the
    queue's own system with the calls [new], or its creation. *)
Inductive queue_did w new w' : Prop :=
| did_nothing :
    new = [] -> w_queue w' = w_queue w -> w_queue_task w' = w_queue_task w ->
    w_items w' = w_items w -> creates (w_history w') = creates (w_history w) ->
    queue_did w new w'
| did_step q q' enq :
    w_queue w = Some q -> w_queue w' = Some q' -> w_items w' = w_items w ++ enq ->
    step lawful (Sys q (w_queue_task w)) enq new (Sys q' (w_queue_task w')) ->
    creates (w_history w') = creates (w_history w) ++ creates new ->
    queue_did w new w'
| did_open id :
    new = [] -> w_queue w = None -> w_queue w' = Some (sys_queue (started id)) ->
    w_queue_task w' = sys_task (started id) -> w_items w' = w_items w ->
    creates (w_history w') = creates (w_history w) -> queue_did w new w'.

Lemma did_nothing_more w c l new :
  jobs_queue (statics c) = w_queue w -> creates new = [] ->
  queue_did w [] (moved w c l (w_history w ++ new)).
Proof.
  intros Hq Hnew. apply did_nothing; [done|done|done|done|].
  simpl. by rewrite creates_app, Hnew, app_nil_r.
Qed.

(** A turn is seen as the enqueuing of its job, if it has one. *)
Definition enqueuing : list JobsQueueItem -> trace :=
  fmap (fun item => Ev SystemNow (enqueued_at item)).

Lemma turn_did w before run after source rest r c h :
  world_ok w -> w_running w = before ++ run :: after -> todo run = source :: rest ->
  ran o (on_statics (turn_of run source)) w r c h ->
  let items := appended (w_queue w) (jobs_queue (statics c)) in
  queue_did w (enqueuing items)
    (and_enqueued items (moved w c (before ++ survivors r (proceed rest run) ++ after) h)).
Proof.
  intros (Hq & Hruns & _) Hw Htodo Hrun. rewrite Hw, Forall_app, Forall_cons in Hruns.
  destruct Hruns as (_ & (e & task & _ & _ & Hrt) & _).
  pose proof (ran_statics o _ _ _ _ _ _ Hrun (wp_turn_of o run source task _ _ Hrt
    ltac:(rewrite Htodo; by left))) as (items & new & -> & Hadded & Hlen & Hnew & Hlab & _).
  pose proof (quiet_creates _ Hnew) as Hcr.
  unfold w_queue at 1. rewrite (appended_added _ _ _ Hadded). cbv zeta.
  destruct Hadded as (_ & _ & Hq' & Hnone). unfold queue_identity in Hlab.
  destruct items as [|item [|]]; simpl in Hlen; [| |lia].
  { apply did_nothing; simpl; [done|unfold w_queue; simpl|done|apply app_nil_r|].
    - rewrite Hq'. by destruct (jobs_queue (statics (w_state w))).
    - by rewrite creates_app, Hcr, app_nil_r. }
  destruct (jobs_queue (statics (w_state w))) as [q|] eqn:Hqueue; [|by specialize (Hnone eq_refl)].
  apply (did_step _ _ _ q (enqueued q item) [item]); simpl; [done|done|done| |].
  - apply enqueue_step. by apply Forall_inv in Hlab.
  - by rewrite creates_app, Hcr.
Qed.

Lemma wstep_did w w' : world_ok w -> wstep w w' -> exists new, queue_did w new w'.
Proof.
  intros Hok Hstep. destruct Hstep as [w folder resource ns r c h Hns Hrun|w req r c h Hrun
    |w e task r c h Hin He Hrun|w before run after source rest r c h Hw Htodo Hrun
    |w before run after r c h Hw _ Hrun|w before run after Hw|w q new q' task Hq Hstep
    |w id Hq|w c Hc].
  - destruct (wp_elim _ _ _ _ _ _ _ _ Hrun (wp_delivered folder resource ns o _ _ Hns))
      as (Hc & new & -> & Hnew). exists [].
    apply did_nothing; simpl; [done|unfold w_queue; simpl; by rewrite Hc|done|done|].
    by rewrite creates_app, (leader_creates ns resource new), app_nil_r.
  - pose proof (ran_statics o _ _ _ _ _ _ Hrun (wp_serve header_get req o _ _))
      as (Hc & new & -> & Hnew & _). exists [].
    apply did_nothing; simpl; [done|done|done|done|].
    by rewrite creates_app, (web_creates new), app_nil_r.
  - pose proof (ran_statics o _ _ _ _ _ _ Hrun (wp_begin_task o task _ _))
      as (Hc & new & -> & Hnew & _). exists [].
    apply did_nothing_more; [by rewrite Hc|by apply quiet_creates].
  - eexists. by eapply turn_did.
  - destruct (end_of_quiet run) as [Hcalls Hstate].
    pose proof (ran_statics o _ _ _ _ _ _ Hrun (wp_and _ _ _ _ _ _ (Hcalls o _ _) (Hstate o _ _)))
      as [(new & -> & Hnew) Hc]. exists [].
    apply did_nothing_more; [by rewrite Hc|by apply quiet_creates].
  - exists []. by apply did_nothing.
  - exists new. apply (did_step _ _ _ q q' []); simpl; [done|done|by rewrite app_nil_r|done|].
    by rewrite creates_app.
  - exists []. by apply (did_open _ _ _ id).
  - exists []. destruct Hc as [Hc _]. by apply did_nothing.
Qed.

(** ** What a task will do *)

(** The queue is open, the trigger's action is known, and the inspections of
    the sources that are left end with their verdicts. *)
Definition will_act {T} `{!Trigger T} (r : task_run T)
    (verdict : string -> option CheckedSourceState) s : Prop :=
  is_Some (trigger_namespace (tr_trigger r)) /\ cell (K:=T) (api_cache s) = true
  /\ action_ready o s (tr_trigger r) (tr_ns r)
  /\ forall source, source ∈ tr_todo r ->
       inspected o (api_cache s) (tr_trigger r) (tr_ns r) source (verdict source).

Definition can_act (x : running) verdict s : Prop :=
  match x with RunSchedule r => will_act r verdict s | RunWebhook r => will_act r verdict s end.

(** The commit of [source] that the task's action has to run for. *)
Definition change_due (x : running) verdict (source : string) : option string :=
  match x with
  | RunSchedule r => due (tr_trigger r) (tr_checked r) verdict source
  | RunWebhook r => due (tr_trigger r) (tr_checked r) verdict source
  end.

(** [item] has the job of the task's action for that commit. *)
Definition job_for (x : running) (source commit id : string) new (item : JobsQueueItem) : Prop :=
  match x with
  | RunSchedule r => made_for o (tr_trigger r) (tr_ns r) (tr_name r) source commit id new item
  | RunWebhook r => made_for o (tr_trigger r) (tr_ns r) (tr_name r) source commit id new item
  end.

(** The turn of one source. *)
Definition acted (x : running) verdict (source : string) s h (r : outcome unit) s' h' : Prop :=
  r = Ret tt /\ exists items new, h' = h ++ new /\ jobs_added s s' items
    /\ forall commit, change_due x verdict source = Some commit ->
         exists item, items = [item] /\ job_for x source commit (queue_identity s) new item.

Lemma wp_task_turn {T} `{!Trigger T} (r : task_run T) verdict source s h :
  folders_usable o -> will_act r verdict s -> source ∈ tr_todo r ->
  wp (task_turn r source) o s h
    (served o (tr_trigger r) (tr_ns r) (tr_name r) (tr_checked r) verdict [source] s h).
Proof.
  intros Hfolders (Hns & Hcell & Hready & Hinsp) Hin.
  apply wp_check_served; [done|done|by apply Hinsp|done|done].
Qed.

Lemma served_due {T} `{!Trigger T} (trigger : T) ns name checked verdict source commit id new items :
  due_jobs o trigger ns name checked verdict id new [source] items ->
  due trigger checked verdict source = Some commit ->
  exists item, items = [item] /\ made_for o trigger ns name source commit id new item.
Proof.
  unfold due_jobs. intros Hjobs Hdue. simpl in Hjobs. rewrite Hdue in Hjobs. simpl in Hjobs.
  apply Forall2_cons_inv_l in Hjobs as (item & items' & Hmade & ->%Forall2_nil_inv_l & ->).
  by exists item.
Qed.

Lemma wp_turn_acts (x : running) verdict source s h :
  folders_usable o -> can_act x verdict s -> source ∈ todo x ->
  wp (turn_of x source) o s h (acted x verdict source s h).
Proof.
  intros Hfolders Hact Hin. destruct x as [r|r];
    (eapply wp_mono; [by apply (wp_task_turn r verdict)|]);
    intros ret s' h' (-> & items & new & -> & Hjobs & Hdue); (split; [done|]);
    exists items, new; (split; [done|]); (split; [done|]); intros commit; by apply served_due.
Qed.

Lemma can_act_open x verdict s : can_act x verdict s -> queue_open s.
Proof. destruct x as [r|r]; by intros (_ & _ & [Hopen _] & _). Qed.

(** A task that goes on is the same task. *)
Lemma can_act_proceed x verdict s source rest :
  todo x = source :: rest -> can_act x verdict s -> can_act (proceed rest x) verdict s.
Proof.
  intros Htodo. destruct x as [r|r]; simpl in *; intros (Hns & Hcell & Hready & Hinsp);
    (do 3 (split; [done|])); intros source' Hin; apply Hinsp; rewrite Htodo; by right.
Qed.

Lemma change_due_proceed x verdict source rest :
  change_due (proceed rest x) verdict source = change_due x verdict source.
Proof. by destruct x. Qed.

Lemma todo_proceed rest x : todo (proceed rest x) = rest.
Proof. by destruct x. Qed.

(** *** Accepted requests *)

(** The sources a request is for. *)
Definition requested (req : request (HeaderMap:=HeaderMap)) : TriggerTaskSources :=
  match req with PostTrigger _ _ _ _ => All | PostSource _ _ _ source _ => Single source end.

Definition is_accepted {A E} (r : outcome (result E A)) : bool :=
  match r with Ret (Ok _) => true | _ => false end.

(** A scheduler took a task for the sources [ts] of a webhook trigger. *)
Definition webhook_scheduled (ts : TriggerTaskSources) h : Prop := exists e task,
  e ∈ h /\ scheduled_task e = Some task /\ task_trigger_kind task = trigger_crd_kind WebhookTrigger
  /\ task_sources task = ts.

Lemma webhook_scheduled_app ts h1 h h2 :
  webhook_scheduled ts h -> webhook_scheduled ts (h1 ++ h ++ h2).
Proof. intros (e & task & Hin & Htask). exists e, task. split; [set_solver|done]. Qed.

Lemma outcome_scheduled state_ ns name headers allowed refusal ts s h r new :
  request_outcome header_get state_ ns name headers allowed refusal ts o s h r new ->
  is_accepted r = true -> webhook_scheduled ts new.
Proof.
  intros (found & rest & -> & Hout) Hr. destruct found as [trigger|]; [|by destruct Hout as [-> _]].
  destruct (wt_namespace trigger) as [tns|]; [|by destruct Hout as [-> _]].
  destruct Hout as (auth & s' & checked & rest' & _ & _ & -> & Hout).
  destruct auth as [[u|e]|]; [|by destruct Hout as [-> _]..].
  destruct (allowed trigger); [|by destruct Hout as [-> _]].
  destruct Hout as ([id|e] & -> & ->); [|done]. do 2 eexists.
  split; [rewrite elem_of_cons, elem_of_app; do 2 right; by left|]. by split; [reflexivity|].
Qed.

Lemma wp_handler_scheduled state_ ns name headers allowed refusal ts s h :
  wp (measured (guarded_post header_get state_ ns name headers allowed refusal ts) ns name) o s h
    (fun r _ h' => is_accepted r = true -> exists new, h' = h ++ new /\ webhook_scheduled ts new).
Proof.
  apply wp_measured. intros start. destruct (webhook_trigger (api_cache s)) eqn:Hcell; cycle 1.
  { unfold guarded_post, web_try, on_api_cache, cache_get, get_cache_store.
    do 5 wp_step. simpl cell. rewrite Hcell. by wp_step. }
  apply wp_guarded_post; [done|]. intros [res|] s' new _ _ Hout; [|done].
  split; intros metrics _ Hr; [|done]. rewrite <- !app_assoc. eexists. split; [reflexivity|].
  apply webhook_scheduled_app. by eapply outcome_scheduled.
Qed.

(** A request that is answered with a success has its task in a scheduler. *)
Lemma accepted_scheduled req w r c h :
  ran o (on_statics (serve header_get req)) w r c h -> is_accepted r = true ->
  exists new, h = w_history w ++ new /\ webhook_scheduled (requested req) new.
Proof.
  intros Hran. refine (ran_statics o _ _ _ _ _ (fun r _ h' => is_accepted r = true ->
    exists new, h' = w_history w ++ new /\ webhook_scheduled (requested req) new) Hran _).
  destruct req; apply wp_handler_scheduled.
Qed.

(** *** Beginning a task *)

#[local] Arguments random_string : simpl never.

(** A task that began with a [good] trigger, which the cache answered in [h]. *)
Record began {T} `{!Trigger T} (good : T -> Prop) ns name (ts : TriggerTaskSources)
    (run : task_run T) (h : trace) : Prop := {
  began_good : good (tr_trigger run);
  began_cached : exists found, Ev (store_call (K:=T) ns name) found ∈ h
    /\ store_answer (K:=T) ns name found = Some (tr_trigger run);
  began_ns : tr_ns run = ns;
  began_name : tr_name run = name;
  began_checked : tr_checked run = recorded_states (tr_trigger run);
  began_todo source : source ∈ tr_todo run <-> source ∈ sources_of (tr_trigger run) ts }.

(** Every answer of the cache for the key is a [good] trigger. *)
Definition always_cached {T} `{!Trigger T} (good : T -> Prop) ns name : Prop :=
  forall t, exists trigger, good trigger
    /\ store_answer (K:=T) ns name (o t (store_call (K:=T) ns name)) = Some trigger.

Lemma wp_task_begin_acts {T} `{!Trigger T} (good : T -> Prop) ns name ts folder s h :
  cell (K:=T) (api_cache s) = true -> always_cached good ns name ->
  (forall trigger, good trigger -> is_Some (trigger_namespace trigger)) ->
  wp (task_begin (T:=T) ns name ts folder) o s h (fun r _ h' => exists run,
    r = Ret (Some run) /\ began good ns name ts run h').
Proof.
  intros Hcell Hcached Hgood. unfold task_begin. do 3 wp_step.
  apply (wp_get_cached (K:=T)); [done|]. intros found Hfound.
  simpl in found, Hfound |- *. destruct (Hcached (h ++ [Ev InstantNow r])) as (trigger & Htr & Ha).
  pose proof (Hgood trigger Htr) as Hns. rewrite <- Hfound in Ha. rewrite Ha. wp_step.
  apply wp_random_string_extends. intros suffix new. wp_step.
  apply wp_status_goes_on; [done|done|]. intros r1 new1. do 3 wp_step.
  eexists. split; [done|]. split; simpl; [done| |done..|].
  { exists found. split; [set_solver|done]. }
  intros source. destruct r0 as [order Horder]. simpl. rewrite Horder. by rewrite elem_of_elements.
Qed.

(** The kinds of triggers whose tasks the schedulers run: the running task of
    a run of the kind, and what [begin_task] does for a task of the kind. *)
Class Runnable (T : Type) `{!Trigger T} := {
  as_running : task_run T -> running;
  begin_as task s h : task_trigger_kind task = trigger_crd_kind T ->
    begin_task task o s h
    = (r <-- task_begin (T:=T) (task_trigger_ns task) (task_trigger_name task)
              (task_sources task) (task_source_clone_folder task) ;;
       ret (as_running <$> r))%prog o s h;
  as_running_todo r : todo (as_running r) = tr_todo r;
  as_running_acts r verdict s : will_act r verdict s -> can_act (as_running r) verdict s;
  as_running_due r verdict source :
    change_due (as_running r) verdict source = due (tr_trigger r) (tr_checked r) verdict source;
  as_running_job r source commit id new item :
    job_for (as_running r) source commit id new item ->
    made_for o (tr_trigger r) (tr_ns r) (tr_name r) source commit id new item }.

#[export] Instance ScheduleTrigger_runnable : Runnable ScheduleTrigger.
Proof.
  refine {| as_running := RunSchedule |}; try done. intros task s h Hkind.
  unfold begin_task. by rewrite Hkind.
Defined.

#[export] Instance WebhookTrigger_runnable : Runnable WebhookTrigger.
Proof.
  refine {| as_running := RunWebhook |}; try done. intros task s h Hkind.
  unfold begin_task. by rewrite Hkind.
Defined.

Lemma wp_begin_acts {T} `{!Trigger T, !Runnable T} (good : T -> Prop) task s h :
  task_trigger_kind task = trigger_crd_kind T -> cell (K:=T) (api_cache s) = true ->
  always_cached good (task_trigger_ns task) (task_trigger_name task) ->
  (forall trigger, good trigger -> is_Some (trigger_namespace trigger)) ->
  wp (begin_task task) o s h (fun r _ h' => exists run, r = Ret (Some (as_running run))
    /\ began good (task_trigger_ns task) (task_trigger_name task) (task_sources task) run h').
Proof.
  intros Hkind Hcell Hcached Hgood.
  assert (Hwp : wp (r <-- task_begin (T:=T) (task_trigger_ns task) (task_trigger_name task)
      (task_sources task) (task_source_clone_folder task) ;; ret (as_running <$> r))%prog o s h
    (fun r _ h' => exists run, r = Ret (Some (as_running run))
      /\ began good (task_trigger_ns task) (task_trigger_name task) (task_sources task) run h')).
  { wp_step. eapply wp_mono; [by apply wp_task_begin_acts|].
    intros r s' t' (run & -> & Hrun). wp_step. by exists run. }
  revert Hwp. unfold wp. by rewrite begin_as.
Qed.

(** ** Infinite executions *)

Section infinite.
Context (c0 : ControllerState) (run : nat -> world) (seen : nat -> trace).

(** The controller from its start; [seen n] are the calls of the queue's task
    (or of whoever enqueues) in step [n].  Every step of the controller is
    something for the queue ([wstep_did]), so this excludes no execution. *)
Record is_controller_run : Prop := {
  cr_boot : run 0 = booted c0;
  cr_step : forall n, (run (S n) = run n /\ seen n = [])
    \/ (wstep (run n) (run (S n)) /\ queue_did (run n) (seen n) (run (S n))) }.

(** The queue is created in step [start]. *)
Definition opens id (start : nat) : Prop :=
  w_queue (run start) = None /\ w_queue (run (S start)) = Some (sys_queue (started id)).

(** What the queue sees, from its creation on. *)
Fixpoint seen_from (start k : nat) : trace :=
  match k with
  | O => []
  | S k => seen_from start k ++ seen (S start + k)
  end.

Definition queue_run (start k : nat) : list JobsQueueItem * trace * system :=
  (w_items (run (S start + k)), seen_from start k, queue_view (run (S start + k))).

Context (Hrun : is_controller_run).

Lemma controller_run_ok n : world_ok (run n).
Proof.
  induction n as [|n IH].
  - rewrite (cr_boot Hrun). apply (wsteps_ok header_get o lawful c0). constructor.
  - destruct (cr_step Hrun n) as [[-> _]|[Hstep _]]; [done|by eapply wstep_ok].
Qed.

Section opened.
Context (id : string) (start : nat) (Hopen : opens id start).

Lemma opening : queue_run start 0 = ([], [], started id)
  /\ creates (w_history (run (S start))) = [].
Proof.
  destruct Hopen as [Hnone Hsome]. destruct (controller_run_ok start) as [Href _].
  unfold queue_refines in Href. rewrite Hnone in Href. destruct Href as [Hitems Hcr].
  destruct (cr_step Hrun start) as [[Heq _]|[_ Hdid]]; [congruence|].
  destruct Hdid as [_ Hq|? ? ? Hq|id' _ _ Hq Htask Hit Hc]; [congruence..|].
  unfold queue_run, queue_view. rewrite Nat.add_0_r, Hsome, Htask, Hit, Hitems, Hc. done.
Qed.

Lemma stays_open k : is_Some (w_queue (run (S start + k))).
Proof.
  induction k as [|k [q Hq]].
  - rewrite Nat.add_0_r. destruct Hopen as [_ ->]. by eexists.
  - rewrite Nat.add_succ_r. destruct (cr_step Hrun (S start + k)) as [[-> _]|[_ Hdid]]; [by eexists|].
    destruct Hdid as [_ Hsame|? ? ? ? Hsome|? _ Hnone]; [by rewrite Hsame, Hq|by eexists|congruence].
Qed.

(** One more step. *)
Lemma queue_run_step k :
  (queue_run start (S k) = queue_run start k \/ exists enq,
     step lawful (queue_run start k).2 enq (seen (S start + k)) (queue_run start (S k)).2
     /\ (queue_run start (S k)).1.1 = (queue_run start k).1.1 ++ enq)
  /\ creates (w_history (run (S start + S k)))
     = creates (w_history (run (S start + k))) ++ creates (seen (S start + k)).
Proof.
  destruct (stays_open k) as [q0 Hq0]. unfold queue_run, queue_view. rewrite !Nat.add_succ_r.
  cbn [seen_from fst snd].
  destruct (cr_step Hrun (S start + k)) as [[-> ->]|[_ Hdid]]; [by rewrite !app_nil_r; auto|].
  destruct Hdid as [-> Hq Htask Hitems Hcr|q q' enq Hq Hq' Hitems Hstep Hcr|? _ Hnone];
    [rewrite !app_nil_r, Hq, Htask, Hitems, Hcr; auto| |congruence].
  split; [right|done]. exists enq. by rewrite Hq, Hq', Hitems.
Qed.

(** Seen from the queue, an infinite execution of the controller is an
    infinite execution of the queue's own system. *)
Lemma queue_run_execution : is_execution id (queue_run start).
Proof.
  split; [apply opening|]. intros k. destruct (queue_run_step k) as [[Heq|(enq & Hstep & Henq)] _];
    [by left|right]. by exists enq, (seen (S start + k)).
Qed.

Lemma queue_run_identity k : queue_identity (statics (w_state (run (S start + k)))) = id.
Proof.
  destruct (stays_open k) as [q Hq].
  assert (Hid : identity (sys_queue (queue_run start k).2) = id).
  { clear q Hq. induction k as [|k IH]; [by destruct opening as [-> _]|].
    destruct (queue_run_step k) as [[->|(enq & Hstep & _)] _]; [done|].
    by rewrite (step_identity _ _ _ _ _ Hstep). }
  unfold queue_run, queue_view in Hid. cbn [snd sys_queue] in Hid. rewrite Hq in Hid.
  unfold queue_identity. unfold w_queue in Hq. by rewrite Hq.
Qed.

Lemma queue_run_creates k :
  creates (w_history (run (S start + k))) = creates (seen_from start k).
Proof.
  induction k as [|k IH]; [rewrite Nat.add_0_r; apply opening|].
  destruct (queue_run_step k) as [_ ->]. cbn [seen_from]. by rewrite creates_app, IH.
Qed.
End opened.

(** *** Tasks get their turns *)

(** In step [n] the running task [x] looks at its next source. *)
Definition has_turn (x : running) (n : nat) : Prop :=
  exists before after source rest r c h,
    w_running (run n) = before ++ x :: after /\ todo x = source :: rest
    /\ ran o (on_statics (turn_of x source)) (run n) r c h
    /\ run (S n) = and_enqueued (appended (w_queue (run n)) (jobs_queue (statics c)))
         (moved (run n) c (before ++ survivors r (proceed rest x) ++ after) h).

(** No running task is cancelled or starved. *)
Definition fair_tasks : Prop := forall n x,
  x ∈ w_running (run n) -> todo x <> [] -> exists m, n <= m /\ has_turn x m.

(** The turn of a task that can act. *)
Lemma turn_taken x m verdict :
  folders_usable o -> can_act x verdict (statics (w_state (run m))) -> has_turn x m ->
  exists source rest, todo x = source :: rest /\ proceed rest x ∈ w_running (run (S m))
    /\ forall commit, change_due x verdict source = Some commit -> exists item new,
         w_items (run (S m)) = w_items (run m) ++ [item]
         /\ job_for x source commit (queue_identity (statics (w_state (run m)))) new item
         /\ w_history (run (S m)) = w_history (run m) ++ new.
Proof.
  intros Hfolders Hact (before & after & source & rest & r & c & h & Hw & Htodo & Hran & Heq).
  pose proof (ran_statics o _ _ _ _ _ _ Hran (wp_turn_acts x verdict source _ _ Hfolders Hact
    ltac:(rewrite Htodo; by left))) as (-> & items & new & -> & Hadded & Hdue).
  exists source, rest. split; [done|]. rewrite Heq. unfold w_queue.
  rewrite (appended_added _ _ _ Hadded). simpl. split; [set_solver|].
  intros commit Hc. destruct (Hdue commit Hc) as (item & -> & Hjob). by exists item, new.
Qed.

(** The turn of a given source comes, and leaves its job in the queue. *)
Lemma job_enqueued x n source commit verdict :
  folders_usable o -> fair_tasks -> x ∈ w_running (run n) -> source ∈ todo x ->
  (forall m, n <= m -> can_act x verdict (statics (w_state (run m)))) ->
  change_due x verdict source = Some commit ->
  exists m item new, n <= m /\ w_items (run (S m)) = w_items (run m) ++ [item]
    /\ job_for x source commit (queue_identity (statics (w_state (run m)))) new item
    /\ w_history (run (S m)) = w_history (run m) ++ new.
Proof.
  intros Hfolders Hfair. remember (todo x) as l eqn:Hl. revert x n Hl.
  induction l as [|next l IH]; intros x n Hl Hin Hsource Hact Hdue; [by apply elem_of_nil in Hsource|].
  destruct (Hfair n x Hin ltac:(by rewrite <- Hl)) as (m & Hm & Hturn).
  destruct (turn_taken x m verdict Hfolders (Hact m Hm) Hturn) as (next' & rest & Htodo & Hgoes & Hjob).
  rewrite Htodo in Hl. injection Hl as -> ->.
  destruct (decide (source = next')) as [->|Hne].
  { destruct (Hjob commit Hdue) as (item & new & ?). by exists m, item, new. }
  destruct (IH (proceed rest x) (S m)) as (m' & item & new & Hm' & Hrest);
    [by rewrite todo_proceed|done|set_solver| |by rewrite change_due_proceed|].
  - intros k Hk. eapply can_act_proceed; [done|]. apply Hact. lia.
  - exists m', item, new. split; [lia|]. by destruct x.
Qed.

Context (id : string) (start : nat) (Hopen : opens id start).

(** The item that is enqueued in step [j], with the calls [made], is the
    action's job for the commit, and in step [m] the queue is done with it: the
    jobs are submitted in the order of their items, each by its fate. *)
Definition dealt_with (made_job : trace -> JobsQueueItem -> Prop) (j m : nat) : Prop :=
  exists item made taken fates q,
    w_items (run (S j)) = w_items (run j) ++ [item]
    /\ w_history (run (S j)) = w_history (run j) ++ made /\ made_job made item
    /\ taken !! length (w_items (run j)) = Some item
    /\ w_queue (run m) = Some q /\ w_items (run m) = taken ++ queue_jobs q
    /\ length fates = length taken
    /\ creates (w_history (run m)) = omap fate_create (zip taken fates).

(** A change that a running task is going to find reaches the API. *)
Lemma change_reaches_api x n source commit verdict limit :
  fair id (queue_run start) limit -> fair_tasks -> folders_usable o ->
  start < n -> x ∈ w_running (run n) -> source ∈ todo x ->
  (forall m, n <= m -> can_act x verdict (statics (w_state (run m)))) ->
  change_due x verdict source = Some commit ->
  exists j m, n <= j /\ n <= m /\ dealt_with (job_for x source commit id) j m.
Proof.
  intros Hfair Htasks Hfolders Hstart Hin Hsource Hact Hdue.
  destruct (job_enqueued x n source commit verdict Hfolders Htasks Hin Hsource Hact Hdue)
    as (m & item & new & Hm & Hitems & Hjob & Hhist).
  assert (Hid : queue_identity (statics (w_state (run m))) = id).
  { replace m with (S start + (m - S start)) by lia. by apply queue_run_identity. }
  rewrite Hid in Hjob. clear Hid. pose proof (queue_run_execution id start Hopen) as Hex.
  assert (Hk : items_at (queue_run start) (m - start) !! length (w_items (run m)) = Some item).
  { unfold items_at, queue_run. simpl. replace (start + (m - start)) with m by lia.
    by rewrite Hitems, list_lookup_middle. }
  destruct (every_job_dealt_with_fates id (queue_run start) Hex limit _ _ item Hfair Hk)
    as (k & Hle & Hend).
  pose proof (stays_open id start Hopen k) as [q Hq].
  destruct Hend as [Hstop|(taken & fates & Htaken & Hlen & Henq & Hcr)].
  - destruct (can_act_open x verdict _ (Hact (S start + k) ltac:(lia))) as (q' & Hq' & Halive).
    pose proof (execution_ok id (queue_run start) Hex k) as [_ Hatt]. unfold attentive in Hatt.
    rewrite Hstop in Hatt. unfold state_at, queue_run, queue_view in Hatt. cbn [snd] in Hatt.
    unfold w_queue in Hatt. rewrite Hq' in Hatt. simpl in Hatt. congruence.
  - exists m, (S start + k). split; [done|]. split; [lia|]. exists item, new, taken, fates, q.
    do 4 (split; [done|]). split; [exact Hq|].
    unfold items_at, calls_at, queue_at, state_at, queue_run, queue_view in Henq, Hcr.
    cbn [fst snd sys_queue] in Henq, Hcr. rewrite Hq in Henq. simpl in Henq.
    split; [exact Henq|]. split; [done|].
    by rewrite (queue_run_creates id start Hopen).
Qed.

(** *** From the schedulers to the API *)

(** In step [n] a scheduler begins [task]. *)
Definition begins (task : Task) (n : nat) : Prop :=
  exists e r c h, e ∈ w_history (run n) /\ scheduled_task e = Some task
    /\ ran o (on_statics (begin_task task)) (run n) r c h
    /\ run (S n) = moved (run n) c (w_running (run n) ++
         match r with Ret (Some x) => [x] | _ => [] end) h.

(** From step [n] on [task] of [trigger] can look at each of its sources and
    act, and [source] has [commit], which its action has to run for. *)
Record has_change {T} `{!Trigger T} (task : Task) (n : nat) verdict (source commit : string)
    (trigger : T) : Prop := {
  hc_namespace : is_Some (trigger_namespace trigger);
  hc_source : source ∈ sources_of trigger (task_sources task);
  hc_due : due trigger (recorded_states trigger) verdict source = Some commit;
  hc_acts : forall m, n <= m -> let s := statics (w_state (run m)) in
    cell (K:=T) (api_cache s) = true /\ action_ready o s trigger (task_trigger_ns task)
    /\ forall source', source' ∈ sources_of trigger (task_sources task) ->
         inspected o (api_cache s) trigger (task_trigger_ns task) source' (verdict source') }.

Lemma begun_has_change {T} `{!Trigger T, !Runnable T} task n verdict source commit :
  begins task n -> task_trigger_kind task = trigger_crd_kind T ->
  always_cached (T:=T) (has_change task n verdict source commit) (task_trigger_ns task)
    (task_trigger_name task) ->
  exists r : task_run T, as_running r ∈ w_running (run (S n))
    /\ began (has_change task n verdict source commit) (task_trigger_ns task)
         (task_trigger_name task) (task_sources task) r (w_history (run (S n)))
    /\ forall m, n <= m -> will_act r verdict (statics (w_state (run m))).
Proof.
  intros (e & r & c & h & _ & _ & Hran & Hnext) Hkind Hcached.
  assert (Hcell : cell (K:=T) (api_cache (statics (w_state (run n)))) = true).
  { destruct (Hcached []) as (trigger & Hchange & _). by apply (hc_acts _ _ _ _ _ _ Hchange n). }
  pose proof (ran_statics o _ _ _ _ _ _ Hran (wp_begin_acts _ task _ _ Hkind Hcell Hcached
    (hc_namespace _ _ _ _ _))) as (x & -> & Hbegan).
  exists x. split; [rewrite Hnext; simpl; apply elem_of_app; right; by left|].
  split; [by rewrite Hnext|].
  intros m Hm. destruct Hbegan as [[Htns _ _ Hacts] _ Hns _ _ Htodo].
  destruct (Hacts m Hm) as (Hcell' & Hready & Hinsp). unfold will_act. rewrite Hns.
  do 3 (split; [done|]). intros source' Hin. apply Hinsp. by apply Htodo.
Qed.


(** In step [n] the request [req] is answered with a success. *)
Definition accepts (req : request (HeaderMap:=HeaderMap)) (n : nat) : Prop :=
  exists r c h, ran o (on_statics (serve header_get req)) (run n) r c h /\ is_accepted r = true
    /\ run (S n) = and_requested req (moved (run n) c (w_running (run n)) h).

(** The schedulers begin each task of a webhook trigger after they took it; no
    code cancels one. *)
Definition fair_schedulers : Prop := forall n new e task,
  w_history (run (S n)) = w_history (run n) ++ new -> e ∈ new -> scheduled_task e = Some task ->
  task_trigger_kind task = trigger_crd_kind WebhookTrigger ->
  exists m, n < m /\ begins task m.

(** An accepted request has a task that begins for the sources it asked for;
    [scheduled_change_reaches_api] says what comes of it. *)
Theorem accepted_request_begins req n :
  fair_schedulers -> accepts req n -> exists task m, n < m /\ begins task m
    /\ task_trigger_kind task = trigger_crd_kind WebhookTrigger
    /\ task_sources task = requested req.
Proof.
  intros Hfair (r & c & h & Hran & Hr & Hnext).
  destruct (accepted_scheduled req (run n) r c h Hran Hr)
    as (new & -> & e & task & Hin & He & Hkind & Hsources).
  destruct (Hfair n new e task) as (m & Hm & Hbegins); [by rewrite Hnext|done..|].
  by exists task, m.
Qed.
End infinite.
End SystemLiveness.
