(* ===== verification/SystemRun.v ===== *)
(** * The controller as a system: an infinite execution

    One trigger is delivered, its task finds a commit, the queue submits the
    job, and from then on the watch reports now and then and the loop finds
    nothing to do: a fair execution, with which the theorem of
    SystemLiveness.v is instantiated. *)

From stdpp Require Import base option gmap sets strings list.
From Stdlib Require Import ZArith Lia.
From S2P Require Import Prelude Strs Time Errors Config Ext Resources World Jobs JobsFacts Cache Statics Action GitRepo Trigger TriggerFacts SourceFacts TaskFacts TriggerExamples Web WebExamples JobsSystem JobsLiveness JobsProgress EndToEnd TaskComplete Controller System SystemFacts SystemExamples SystemLiveness.
Local Open Scope string_scope.
Local Open Scope list_scope.


#[local] Existing Instance example_ext.
#[local] Existing Instance applying_finalizer.
#[local] Existing Instance applying_finalizer_laws.

Local Abbreviation world := (world (HeaderMap:=list (string * string))).

Definition delivered_world : world := do_deliver app_services app_trigger (booted idle_controller).
Definition open_world : world := do_open "me" delivered_world.
Definition begun_world : world := do_begin app_services open_world.
Definition busy_world : world := do_turn app_services begun_world.
Definition busy_queue : JobsQueue := unwrap_or (sys_queue (started "")) (w_queue busy_world).

(** The queue [q] with its one job and its task at a moment of JobsProgress.v's
    example. *)
Definition lone_at (q : JobsQueue) (p : moment) : JobsQueue :=
  match p with
  | Idle0 | Enqueued => q
  | Woken => with_event_pending false q
  | Taken | Idle | Woken_again => with_queue_jobs [] (with_event_pending false q)
  | Reported => with_event_pending true (with_queue_jobs [] (with_event_pending false q))
  end.

Definition lone_calls (q : JobsQueue) (p : moment) : trace :=
  match p with
  | Enqueued => (queue_wake app_services (lone_at q Woken) []).2
  | Woken => (drain_one 0 app_services (lone_at q Woken) []).2
  | Reported => (queue_wake app_services (lone_at q Woken_again) []).2
  | Idle0 | Taken | Idle | Woken_again => []
  end.

Definition queue_at_moment : moment -> JobsQueue := lone_at busy_queue.
Definition task_at_moment (p : moment) : queue_task := sys_task (moment_state p).
Definition calls_after : moment -> trace := lone_calls busy_queue.

(** [w] with the queue, its task and the history replaced. *)
Definition at_queue (w : world) q task h : world := {|
  w_state := set_queue (Some q) (w_state w); w_queue_task := task; w_running := w_running w;
  w_history := h; w_items := w_items w; w_delivered := w_delivered w; w_requests := w_requests w |}.

Definition world_at_moment (p : moment) (h : trace) : world :=
  at_queue busy_world (queue_at_moment p) (task_at_moment p) h.

Definition moment_since (k : nat) : moment := Nat.iter k moment_after Enqueued.

Fixpoint history_since (k : nat) : trace :=
  match k with
  | O => w_history busy_world
  | S k => history_since k ++ calls_after (moment_since k)
  end.

Definition busy_run (n : nat) : world :=
  match n with
  | 0 => booted idle_controller
  | 1 => delivered_world
  | 2 => open_world
  | 3 => begun_world
  | S (S (S (S k))) => world_at_moment (moment_since k) (history_since k)
  end.

Definition busy_seen (n : nat) : trace :=
  match n with
  | 0 | 1 | 2 => []
  | 3 => enqueuing (appended (w_queue begun_world) (w_queue busy_world))
  | S (S (S (S k))) => calls_after (moment_since k)
  end.

(** ** The queue of the example *)

(** Both sides run to the same value. *)
Local Ltac by_running := match goal with |- ?a = _ => vm_cast_no_check (eq_refl a) end.

(** A queue with one job, for a namespace and on time, and nothing running. *)
Definition lone_queue (q : JobsQueue) : Prop := exists item ns,
  queue_jobs q = [item] /\ om_namespace (job_metadata (item_job item)) = Some ns
  /\ enqueued_at item = 100%Z /\ expire_after item = None /\ running_jobs q = 0%Z
  /\ queue_event_alive q = true.

Definition queue_facts (q : JobsQueue) :=
  ((fun item => (om_namespace (job_metadata (item_job item)), enqueued_at item, expire_after item))
     <$> queue_jobs q, running_jobs q, queue_event_alive q, queue_event_pending q).

Lemma lone_of_facts q ns :
  queue_facts q = ([(Some ns, 100%Z, None)], 0%Z, true, true) ->
  lone_queue q /\ queue_event_pending q = true.
Proof.
  unfold queue_facts. intros Hf. injection Hf as Hitems Hrunning Halive Hpending.
  destruct (queue_jobs q) as [|item [|]] eqn:Hq; [done| |done].
  injection Hitems as Hns Hat Hexpire. split; [by exists item, ns|done].
Qed.

Example busy_queue_facts :
  queue_facts <$> w_queue busy_world = Some ([(Some "ci", 100%Z, None)], 0%Z, true, true).
Proof. vm_compute. reflexivity. Qed.

Lemma busy_queue_open : w_queue busy_world = Some busy_queue.
Proof.
  unfold busy_queue. pose proof busy_queue_facts as Hf. by destruct (w_queue busy_world).
Qed.

Lemma busy_queue_lone : lone_queue busy_queue /\ queue_event_pending busy_queue = true.
Proof.
  apply (lone_of_facts _ "ci"). pose proof busy_queue_facts as Hf. rewrite busy_queue_open in Hf.
  revert Hf. generalize busy_queue. intros q Hf. by apply (inj Some) in Hf.
Qed.

Lemma wake_idle q : length (queue_jobs q) <= 1 -> running_jobs q = 0%Z ->
  queue_wake app_services q []
  = (Ret (Some (length (queue_jobs q), 16%Z)), q, (queue_wake app_services q []).2).
Proof.
  destruct q as [id jobs ? ? ? ?]; simpl. intros Hlen ->.
  destruct jobs as [|item [|]]; simpl in Hlen; [reflexivity..|lia].
Qed.

Lemma drain_lone q : lone_queue q ->
  drain_one 0 app_services q []
  = (Ret (Some true), with_queue_jobs [] q, (drain_one 0 app_services q []).2).
Proof.
  intros (item & ns & Hq & Hns & Hat & Hexpire & Hrunning & _). destruct q, item as [[[] ? ?] at_ after].
  simpl in *. subst. reflexivity.
Qed.

Lemma report_nothing q : queue_event_alive q = true ->
  on_job_event (fun _ => None) None app_services q [] = (Ret tt, with_event_pending true q, []).
Proof. destruct q; simpl; intros ->. reflexivity. Qed.

Lemma lone_step q p : lone_queue q -> queue_event_pending q = true -> p <> Idle0 ->
  step lawful (Sys (lone_at q p) (task_at_moment p)) [] (lone_calls q p)
    (Sys (lone_at q (moment_after p)) (task_at_moment (moment_after p))).
Proof.
  intros (item & ns & Hq & Hns & Hat & Hexpire & Hrunning & Halive) Hpending Hp.
  destruct p; [by contradict Hp|..]; cbn [moment_after].
  - apply (step_event lawful _ _ _ (Some (1, 16%Z))); [exact Hpending|].
    exists app_services, []. rewrite wake_idle; simpl; rewrite ?Hq; [reflexivity|simpl; lia|done].
  - apply (step_drain lawful 0 16 _ _ true); [done|]. exists app_services, [].
    rewrite drain_lone; [done|]. by exists item, ns.
  - apply step_done.
  - apply (step_watch lawful (fun _ => None) None); [done|done|].
    exists app_services, []. by rewrite report_nothing.
  - apply (step_event lawful _ _ _ (Some (0, 16%Z))); [done|].
    exists app_services, []. rewrite wake_idle; simpl; [reflexivity|lia|done].
  - apply step_done.
Qed.

Lemma busy_step p : p <> Idle0 ->
  step lawful (Sys (queue_at_moment p) (task_at_moment p)) [] (calls_after p)
    (Sys (queue_at_moment (moment_after p)) (task_at_moment (moment_after p))).
Proof. destruct busy_queue_lone as [Hlone Hpending]. by apply lone_step. Qed.

(** The task that is running, and its source. *)
Lemma begun_task : exists x, w_running begun_world = [x] /\ todo x = ["app"].
Proof.
  assert (Hx : todo <$> w_running begun_world = [["app"]]) by by_running.
  destruct (w_running begun_world) as [|x [|]]; [done| |done]. injection Hx as Hx. by exists x.
Qed.

(** ** The steps of the example *)

Lemma set_queue_same q c : jobs_queue (statics c) = Some q -> set_queue (Some q) c = c.
Proof. by destruct c as [[? ? ?] ? ?]; simpl; intros ->. Qed.

Lemma at_queue_same (w : world) q :
  w_queue w = Some q -> at_queue w q (w_queue_task w) (w_history w) = w.
Proof. intros Hq. unfold at_queue. rewrite set_queue_same by done. by destruct w. Qed.

Lemma at_queue_step o (w : world) q task q' task' new h :
  step lawful (Sys q task) [] new (Sys q' task') ->
  wstep assoc_get o lawful (at_queue w q task h) (at_queue w q' task' (h ++ new))
  /\ queue_did (at_queue w q task h) new (at_queue w q' task' (h ++ new)).
Proof.
  intros Hstep. split.
  - exact (ws_queue _ _ _ (at_queue w q task h) q _ _ _ eq_refl Hstep).
  - apply (did_step _ _ _ q q' []); [done|done|by rewrite app_nil_r|exact Hstep|apply creates_app].
Qed.

Lemma world_at_start : world_at_moment Enqueued (w_history busy_world) = busy_world.
Proof.
  assert (Htask : task_at_moment Enqueued = w_queue_task busy_world) by by_running.
  unfold world_at_moment. rewrite Htask. apply at_queue_same, busy_queue_open.
Qed.

Lemma moment_since_busy k : moment_since k <> Idle0.
Proof.
  unfold moment_since. destruct k as [|k]; simpl; [done|].
  by destruct (Nat.iter k moment_after Enqueued).
Qed.

Lemma begun_steps : wsteps assoc_get app_services lawful (booted idle_controller) begun_world.
Proof.
  unfold begun_world, open_world, delivered_world.
  eapply wsteps_trans; [by eapply (do_deliver_steps _ _ app_trigger "ci")|].
  eapply wsteps_trans; [apply (do_open_steps app_services _ "me")|].
  apply (do_begin_steps app_services).
Qed.

Lemma do_turn_did o (w : world) x after source rest :
  world_ok assoc_get o lawful w -> w_running w = x :: after -> todo x = source :: rest ->
  queue_did w (enqueuing (appended (w_queue w) (w_queue (do_turn o w)))) (do_turn o w).
Proof.
  intros Hok Hrun Htodo. unfold do_turn. rewrite Hrun, Htodo.
  exact (turn_did _ o w [] x after source rest _ _ _ Hok Hrun Htodo (ran_advance _ _ _)).
Qed.

Lemma busy_turn :
  wstep assoc_get app_services lawful begun_world busy_world
  /\ queue_did begun_world (enqueuing (appended (w_queue begun_world) (w_queue busy_world))) busy_world.
Proof.
  destruct begun_task as (x & Hrun & Htodo). split; [by eapply do_turn_step|].
  eapply do_turn_did; [exact (wsteps_ok _ _ _ _ _ begun_steps)|exact Hrun|exact Htodo].
Qed.

Lemma busy_run_controller :
  is_controller_run assoc_get app_services idle_controller busy_run busy_seen.
Proof.
  split; [done|]. intros n. right. destruct n as [|[|[|[|k]]]].
  - split; [by eapply (do_deliver_step _ _ app_trigger "ci")|].
    apply did_nothing; [done|by_running..].
  - assert (Hq : w_queue delivered_world = None) by by_running.
    split; [by apply do_open_step|].
    apply (did_open _ _ _ "me"); [done|exact Hq|by_running..].
  - split.
    + assert (Htasks : length (omap scheduled_task (w_history open_world)) = 1) by by_running.
      destruct (omap scheduled_task (w_history open_world)) as [|task tasks] eqn:Hl; [done|].
      by eapply do_begin_step.
    + apply did_nothing; [done|by_running..].
  - simpl. rewrite world_at_start. apply busy_turn.
  - apply (at_queue_step app_services busy_world), busy_step, moment_since_busy.
Qed.

(** ** The execution is fair to the queue *)

#[local] Opaque busy_world busy_queue begun_world open_world delivered_world.

Local Abbreviation busy_view := (queue_run busy_run busy_seen 1).

Lemma open_queue : w_queue open_world = Some (sys_queue (started "me"))
  /\ w_queue begun_world = Some (sys_queue (started "me")).
Proof. split; by_running. Qed.

Lemma busy_opens : opens busy_run "me" 1.
Proof. split; [by_running|apply open_queue]. Qed.

Lemma busy_view_first k : k < 2 -> queue_at busy_view k = sys_queue (started "me")
  /\ ~ loop_ready (state_at busy_view k).
Proof.
  assert (Htasks : w_queue_task open_world = Waiting Drained /\ w_queue_task begun_world = Waiting Drained)
    by (split; by_running).
  destruct open_queue as [Hopen Hbegun], Htasks as [Hwait Hwait'].
  intros Hk. unfold queue_at, state_at, queue_run, queue_view. cbn [snd sys_queue].
  destruct k as [|[|]]; [| |lia]; cbn [busy_run Nat.add];
    [rewrite Hopen, Hwait|rewrite Hbegun, Hwait']; (split; [done|]); by unfold loop_ready.
Qed.

Lemma at_queue_view (w : world) q task h : queue_view (at_queue w q task h) = Sys q task.
Proof. reflexivity. Qed.

Lemma at_queue_items (w : world) q task h : w_items (at_queue w q task h) = w_items w.
Proof. reflexivity. Qed.

Lemma at_queue_running (w : world) q task h : w_running (at_queue w q task h) = w_running w.
Proof. reflexivity. Qed.

Lemma busy_view_later k : busy_view (2 + k)
  = (w_items busy_world, seen_from busy_seen 1 (2 + k),
     Sys (queue_at_moment (moment_since k)) (task_at_moment (moment_since k))).
Proof.
  unfold queue_run. cbn [Nat.add busy_run]. unfold world_at_moment.
  by rewrite at_queue_view, at_queue_items.
Qed.

Lemma state_later k : state_at busy_view (2 + k)
  = Sys (queue_at_moment (moment_since k)) (task_at_moment (moment_since k)).
Proof. unfold state_at. by rewrite busy_view_later. Qed.

Lemma running_idle p : running_jobs (queue_at_moment p) = 0%Z.
Proof.
  destruct busy_queue_lone as [(? & ? & _ & _ & _ & _ & Hrunning & _) _].
  destruct p; exact Hrunning.
Qed.

Lemma moments_move p : p <> Idle0 ->
  loop_ready (Sys (queue_at_moment p) (task_at_moment p)) ->
  loop_moved (Sys (queue_at_moment p) (task_at_moment p))
    (Sys (queue_at_moment (moment_after p)) (task_at_moment (moment_after p))).
Proof.
  intros Hp Hready. destruct p; [contradict Hp; reflexivity| | | |discriminate Hready| |]; left; discriminate.
Qed.

(** The configurations that were read allow a job. *)
Definition allows_one (e : event resp) : bool :=
  match e with
  | Ev c r => match c as c return resp c -> bool with
              | GetConfig => fun config => (1 <=? max_running_jobs (rc_action config))%Z
              | _ => fun _ => true
              end r
  end.

Lemma allows_one_limit (t : trace) : forallb allows_one t = true -> Forall (limit_at_least 1) t.
Proof.
  rewrite forallb_forall. intros Hall. apply Forall_forall. intros [c r] Hin.
  specialize (Hall _ ltac:(by apply list_elem_of_In)). destruct c; simpl in *; try done.
  by apply Z.leb_le.
Qed.

Lemma busy_limits n : Forall (limit_at_least 1) (busy_seen n).
Proof.
  destruct n as [|[|[|[|k]]]]; [constructor..| |].
  - apply allows_one_limit. by_running.
  - simpl. apply allows_one_limit. destruct (moment_since k); by_running.
Qed.

Lemma busy_reports n : exists m, n <= m /\ reported busy_view m.
Proof.
  assert (Hidle : exists k, n <= 2 + k /\ moment_since k = Idle).
  { assert (Hd : forall p, p <> Idle0 -> exists d, Nat.iter d moment_after p = Idle).
    { intros []; [done|exists 3|exists 2|exists 1|exists 0|exists 2|exists 1]; done. }
    destruct (Hd (moment_since n) (moment_since_busy n)) as (d & Hd'). exists (d + n).
    split; [lia|]. unfold moment_since in *. by rewrite Nat.iter_add. }
  destruct Hidle as (k & Hle & Hidle). exists (2 + k). split; [done|].
  exists (fun _ => None), None, [], (queue_at_moment Reported).
  unfold queue_at. rewrite state_later, Hidle. split.
  - exists app_services, []. by_running.
  - unfold items_at, calls_at. rewrite <- Nat.add_succ_r, !busy_view_later.
    change (moment_since (S k)) with (moment_after (moment_since k)). rewrite Hidle.
    cbn [seen_from Nat.add busy_seen]. rewrite Hidle. reflexivity.
Qed.

Lemma busy_fair : fair "me" busy_view 1.
Proof.
  split.
  - done.
  - intros n. unfold calls_at. simpl. induction n as [|n IH]; [constructor|].
    apply Forall_app. split; [exact IH|apply busy_limits].
  - intros n Hready. exists n. split; [done|]. destruct n as [|[|k]];
      [by apply busy_view_first in Hready; [|lia]..|].
    revert Hready. change (S (S k)) with (2 + k). rewrite <- Nat.add_succ_r, !state_later.
    apply moments_move, moment_since_busy.
  - intros n. exists n. split; [done|]. intros i _ _. destruct i as [|[|k]].
    + by rewrite (proj1 (busy_view_first 0 ltac:(lia))).
    + by rewrite (proj1 (busy_view_first 1 ltac:(lia))).
    + unfold queue_at. change (S (S k)) with (2 + k). rewrite state_later. cbn [sys_queue].
      by rewrite running_idle.
  - intros n _. destruct (busy_reports n) as (m & Hm & Hreport). exists m. auto.
Qed.

(** ** The execution is fair to the task *)

Lemma no_tasks_before n x : n < 3 -> x ∉ w_running (busy_run n).
Proof.
  intros Hn. assert (Hnil : length (w_running (busy_run n)) = 0)
    by (destruct n as [|[|[|]]]; [by_running..|lia]).
  apply length_zero_iff_nil in Hnil. rewrite Hnil. apply not_elem_of_nil.
Qed.

Lemma task_done_after x k : x ∈ w_running (busy_run (4 + k)) -> todo x = [].
Proof.
  cbn [Nat.add busy_run]. unfold world_at_moment. rewrite at_queue_running. intros Hin.
  assert (Hall : Forall (fun x => todo x = []) (w_running busy_world)).
  { assert (Htodo : todo <$> w_running busy_world = [[]]) by by_running.
    destruct (w_running busy_world) as [|y [|]]; [done| |done].
    injection Htodo as Htodo. by constructor. }
  rewrite Forall_forall in Hall. by apply Hall.
Qed.

Lemma do_turn_taken o (run : nat -> world) n x source rest :
  w_running (run n) = [x] -> todo x = source :: rest -> run (S n) = do_turn o (run n) ->
  has_turn o run x n.
Proof.
  intros Hrun Htodo Hnext. exists [], [], source, rest.
  eexists _, _, _. split; [done|]. split; [done|]. split; [apply ran_advance|].
  rewrite Hnext. unfold do_turn. by rewrite Hrun, Htodo.
Qed.

Lemma busy_fair_tasks : fair_tasks app_services busy_run.
Proof.
  intros n x Hin Htodo. destruct (decide (n < 3)) as [Hlt|Hge].
  { by apply no_tasks_before in Hin. }
  destruct (decide (n = 3)) as [->|Hne].
  - exists 3. split; [done|]. destruct begun_task as (y & Hrun & Htodo').
    cbn [busy_run] in Hin. rewrite Hrun in Hin. apply list_elem_of_singleton in Hin as ->.
    eapply do_turn_taken; [exact Hrun|exact Htodo'|]. cbn [busy_run].
    exact world_at_start.
  - exfalso. apply Htodo. replace n with (4 + (n - 4)) in Hin by lia. by eapply task_done_after.
Qed.

(** ** The task can act *)

Definition app_verdict (source : string) : option CheckedSourceState :=
  Some {| commit_hash := Some "c0ffee"; file_hash := Some (hex_encode (sha256 "")); changed := None |}.

Lemma queue_alive p : queue_event_alive (queue_at_moment p) = true.
Proof.
  destruct busy_queue_lone as [(? & ? & _ & _ & _ & _ & _ & Halive) _].
  destruct p; exact Halive.
Qed.

Lemma at_queue_statics (w : world) q task h :
  api_cache (statics (w_state (at_queue w q task h))) = api_cache (statics (w_state w))
  /\ jobs_queue (statics (w_state (at_queue w q task h))) = Some q.
Proof. done. Qed.

Lemma busy_statics m : 2 <= m ->
  api_cache (statics (w_state (busy_run m))) = api_cache ready_statics
  /\ queue_open (statics (w_state (busy_run m))).
Proof.
  intros Hm. destruct m as [|[|[|[|k]]]]; [lia..| | |]; cbn [busy_run].
  - split; [by_running|]. eexists. split; [apply open_queue|done].
  - split; [by_running|]. eexists. split; [apply open_queue|done].
  - destruct (at_queue_statics busy_world (queue_at_moment (moment_since k))
      (task_at_moment (moment_since k)) (history_since k)) as [Hcache Hqueue].
    unfold world_at_moment, queue_open. rewrite Hcache, Hqueue. split; [by_running|].
    eexists. split; [done|apply queue_alive].
Qed.

(** The task that the leader's scheduler begins in step 2. *)
Lemma begun_task_of : exists e task, e ∈ w_history open_world /\ scheduled_task e = Some task
  /\ begun_world = do_begin app_services open_world
  /\ hd_error (omap scheduled_task (w_history open_world)) = Some task
  /\ task_trigger_kind task = "ScheduleTrigger" /\ task_trigger_ns task = "ci"
  /\ task_trigger_name task = "hourly" /\ task_sources task = All.
Proof.
  assert (Htasks : (fun task => (task_trigger_kind task, task_trigger_ns task, task_trigger_name task,
      task_sources task)) <$> omap scheduled_task (w_history open_world)
    = [("ScheduleTrigger", "ci", "hourly", All)]) by by_running.
  destruct (omap scheduled_task (w_history open_world)) as [|task tasks] eqn:Hl; [done|].
  injection Htasks as Hkind Hns Hname Hsources _.
  assert (Htask : task ∈ omap scheduled_task (w_history open_world)) by (rewrite Hl; by left).
  apply list_elem_of_omap in Htask as (e & Hin & He). by exists e, task.
Qed.

Lemma do_begin_begins o (run : nat -> world) n e task :
  e ∈ w_history (run n) -> scheduled_task e = Some task ->
  hd_error (omap scheduled_task (w_history (run n))) = Some task ->
  run (S n) = do_begin o (run n) -> begins o run task n.
Proof.
  intros Hin He Hhd Hnext. exists e. do 3 eexists. split; [done|]. split; [done|].
  split; [apply ran_advance|]. rewrite Hnext. unfold do_begin.
  destruct (omap scheduled_task (w_history (run n))) as [|task' tasks]; [done|].
  by injection Hhd as ->.
Qed.

Lemma app_has_change task n : 2 <= n -> task_trigger_ns task = "ci" -> task_sources task = All ->
  has_change app_services busy_run task n app_verdict "app" "c0ffee" app_trigger.
Proof.
  intros Hn Hns Hsources. split.
  - by exists "ci".
  - by rewrite Hsources.
  - reflexivity.
  - intros m Hm s. rewrite Hns, Hsources.
    destruct (busy_statics m ltac:(lia)) as [Hcache Hopen]. fold s in Hcache, Hopen.
    unfold action_ready, action_known. rewrite Hcache. split; [done|]. split.
    + split; [done|]. simpl. split; [done|]. intros t. exists owned_action.
      split; [by eexists|done].
    + intros source Hin path s' t Hs. assert (source = "app") as -> by set_solver.
      destruct s' as [c sc q]. simpl in Hs. subst c. reflexivity.
Qed.

