(* ===== verification/Runner.v ===== *)
(** * The controller process (src/src/bin/git-events-runner.rs, signals.rs)

    [run]: the start of the tasks, the loop that follows the leader lease and
    the signals, and the shutdown.  What arrives from outside is a list of
    inputs, what the process does a list of actions; both are kept in one log
    in the order they happen. *)

From stdpp Require Import base option sets strings list.
From Stdlib Require Import ZArith Lia.
From S2P Require Import Prelude Strs Time Errors Config Ext Resources World RateLimit Cli WebServer.
Local Open Scope string_scope.
Local Open Scope list_scope.

(** What the [select!] of the main loop waits for: one of the four signals of
    [SignalHandler::wait_for_signal], a value of the lease channel, and the
    end of that channel. *)
Inductive Signal : Type := TERM | INT | QUIT | HANGUP.

Inductive Input : Type :=
| SignalReceived (signal : Signal)
| LeaseValue (leader : bool)
| LeaseClosed.

Inductive Action : Type :=
| SpawnConfigWatch (config_map_name : string)
| SpawnApiCacheWatch
| InitSecretsCache (expiration_timeout : Duration)
| WatchLease (name : string) (duration grace : Z)
| SpawnJobsQueue
| SpawnUtilsWeb (port : Z)
| SpawnHooksWeb (port parallelism : Z) (limits : RequestRateLimitsConfig) (tls : bool)
| StartControllers (parallelism : Z)
| SetReady
| SendShutdown
| StopControllers
| DropLeaseChannel
| JoinTasks.

Inductive Entry : Type := In (i : Input) | Out (a : Action).

(** The variables of the loop: the value in the lease channel, and those of
    the current iteration. *)
Record Loop := {
  lease_value : bool;
  is_leader : bool;
  shutdown : bool }.

(** Where a run stands: in the [select!], returned, returned with an error
    of the setup, or panicked in the setup. *)
Inductive Standing : Type := Watching (l : Loop) | Finished | SetupFailed | SetupPanicked.

(** How the fallible steps of the setup end: [build_tls_config] ([None]: an
    error, else whether there is a TLS configuration), building the lease
    manager, installing the signal handlers, [build_utils_web] and
    [build_hooks_web]. *)
Record Setup := {
  su_tls : option bool;
  su_lease_manager : bool;
  su_signals : bool;
  su_utils_web : bool;
  su_hooks_web : bool }.

Section Runner.
Context (cfg : CliConfig).

(** From the head of the loop to its [select!]. *)
Definition begin_iteration (value shutdown_ : bool) : list Action * Standing :=
  ((if value then [StartControllers (schedule_parallelism cfg)] else []) ++ [SetReady],
   Watching {| lease_value := value; is_leader := value; shutdown := shutdown_ |}).

(** From the end of the [select!] to the head of the loop and on. *)
Definition end_select (l : Loop) : list Action * Standing :=
  let stop := if is_leader l then [StopControllers] else [] in
  if shutdown l then (stop ++ [DropLeaseChannel; JoinTasks], Finished)
  else
    let '(acts, st) := begin_iteration (lease_value l) (shutdown l) in
    (stop ++ acts, st).

(** One input in the [select!].  The signal arm ends it.  The lease arm
    loops while the value stays the same; when the channel has closed,
    [shutdown] is set and the value still does not differ. *)
Definition on_input (l : Loop) (i : Input) : list Action * Standing :=
  match i with
  | SignalReceived _ =>
      let '(acts, st) := end_select {| lease_value := lease_value l; is_leader := is_leader l;
                                       shutdown := true |} in
      (SendShutdown :: acts, st)
  | LeaseValue v =>
      let l := {| lease_value := v; is_leader := is_leader l; shutdown := shutdown l |} in
      if Bool.eqb v (is_leader l) then ([], Watching l) else end_select l
  | LeaseClosed =>
      ([], Watching {| lease_value := lease_value l; is_leader := is_leader l;
                       shutdown := true |})
  end.

Fixpoint main_loop (l : Loop) (inputs : list Input) : list Entry * Standing :=
  match inputs with
  | [] => ([], Watching l)
  | i :: inputs =>
      let '(acts, st) := on_input l i in
      let log := In i :: (Out <$> acts) in
      match st with
      | Watching l =>
          let '(log', st) := main_loop l inputs in (log ++ log', st)
      | st => (log, st)
      end
  end.

(** [run]: [value] is the first value of the lease channel. *)
Definition run (su : Setup) (value : bool) (inputs : list Input) : list Entry * Standing :=
  match su_tls su with
  | None => ([], SetupFailed)
  | Some tls =>
      let detached := [SpawnConfigWatch (config_map_name cfg); SpawnApiCacheWatch;
                       InitSecretsCache (from_secs (secrets_cache_time cfg))] in
      if negb (su_lease_manager su) then (Out <$> detached, SetupFailed) else
      let log := detached ++
        [WatchLease (leader_lease_name cfg) (leader_lease_duration cfg) (leader_lease_grace cfg)] in
      if negb (su_signals su) then (Out <$> log, SetupPanicked) else
      let log := log ++ [SpawnJobsQueue] in
      if negb (su_utils_web su) then (Out <$> log, SetupPanicked) else
      let log := log ++ [SpawnUtilsWeb (utility_port cfg)] in
      if negb (su_hooks_web su) then (Out <$> log, SetupPanicked) else
      let setup := log ++
        [SpawnHooksWeb (webhooks_port cfg) (webhooks_parallelism cfg)
           {| rl_global := hooks_rrl_global cfg; rl_trigger := hooks_rrl_trigger cfg;
              rl_source := hooks_rrl_source cfg |} tls] in
      let '(acts, st) := begin_iteration value false in
      match st with
      | Watching l =>
          let '(log, st) := main_loop l inputs in
          ((Out <$> setup ++ acts) ++ log, st)
      | st => (Out <$> setup ++ acts, st)
      end
  end.

(** ** Theorems *)

(** The controllers in a log: [Some b] when starts and stops alternate, [b]
    when they run at the end. *)
Fixpoint controllers_run (running : bool) (log : list Entry) : option bool :=
  match log with
  | [] => Some running
  | Out (StartControllers _) :: log => if running then None else controllers_run true log
  | Out StopControllers :: log => if running then controllers_run false log else None
  | _ :: log => controllers_run running log
  end.

Lemma controllers_run_app running log log' :
  controllers_run running (log ++ log')
  = controllers_run running log ≫= fun running => controllers_run running log'.
Proof.
  revert running. induction log as [|e log IH]; intros running; [done|].
  destruct e as [i|[]]; simpl; rewrite ?IH; destruct running; done.
Qed.

(** The last value of the lease channel. *)
Definition last_lease (value : bool) (inputs : list Input) : bool :=
  fold_left (fun v i => match i with LeaseValue v' => v' | _ => v end) inputs value.

Definition standing_ok (value : bool) (log : list Entry) (st : Standing) : Prop :=
  match st with
  | Watching l => controllers_run false log = Some value
      /\ is_leader l = value /\ lease_value l = value
  | Finished => controllers_run false log = Some false
      /\ exists log0, log = log0 ++ [Out DropLeaseChannel; Out JoinTasks]
  | SetupFailed | SetupPanicked => False
  end.

Lemma end_select_ok log l :
  controllers_run false log = Some (is_leader l) ->
  standing_ok (lease_value l) (log ++ (Out <$> (end_select l).1)) (end_select l).2.
Proof.
  intros Hlog. unfold end_select, standing_ok. destruct l as [v b [|]]; simpl in *.
  - rewrite controllers_run_app, Hlog. destruct b; simpl; (split; [done|]);
      [exists (log ++ [Out StopControllers])|exists log]; by rewrite <- ?app_assoc.
  - rewrite controllers_run_app, Hlog. by destruct b, v.
Qed.

Lemma main_loop_ok l value log inputs :
  standing_ok value log (Watching l) ->
  standing_ok (match (main_loop l inputs).2 with
               | Watching _ => last_lease value inputs
               | _ => false
               end) (log ++ (main_loop l inputs).1) (main_loop l inputs).2.
Proof.
  revert l value log. induction inputs as [|i inputs IH]; intros l value log Hok.
  { simpl. by rewrite app_nil_r. }
  simpl main_loop. destruct (on_input l i) as [acts st] eqn:Hon.
  assert (Hst : standing_ok (match st with
      | Watching _ => match i with LeaseValue v => v | _ => value end | _ => false end)
      (log ++ In i :: (Out <$> acts)) st).
  { destruct Hok as (Hrun & Hl & Hv). rewrite (cons_middle (In i)), app_assoc.
    assert (Hrun' : controllers_run false (log ++ [In i]) = Some (is_leader l)).
    { rewrite controllers_run_app, Hrun. simpl. congruence. }
    destruct i as [sig|v|]; unfold on_input in Hon.
    - pose proof (end_select_ok (log ++ [In (SignalReceived sig)] ++ [Out SendShutdown])
        {| lease_value := lease_value l; is_leader := is_leader l; shutdown := true |}) as Hend.
      unfold end_select in *. simpl in *. injection Hon as <- <-. simpl.
      rewrite <- !app_assoc in *. apply Hend.
      rewrite controllers_run_app, Hrun. simpl. by rewrite Hl.
    - set (l' := {| lease_value := v; is_leader := is_leader l; shutdown := shutdown l |}) in *.
      destruct (Bool.eqb_spec v (is_leader l')) as [He|Hne].
      + injection Hon as <- <-. simpl. rewrite app_nil_r. split; [by rewrite Hrun', He|done].
      + pose proof (end_select_ok (log ++ [In (LeaseValue v)]) l' Hrun') as Hend.
        rewrite Hon in Hend. simpl in Hend. destruct st; [done|apply Hend|done..].
    - injection Hon as <- <-. simpl. rewrite app_nil_r. split; [congruence|done]. }
  destruct st as [l'| | |].
  - specialize (IH l' _ _ Hst). destruct (main_loop l' inputs) as [log' st'] eqn:Hml.
    simpl in *. rewrite <- app_assoc in IH. destruct i; apply IH.
  - simpl. apply Hst.
  - done.
  - done.
Qed.

(** A log of a setup: nothing of the loop is in it. *)
Definition setup_log (log : list Entry) : Prop :=
  controllers_run false log = Some false /\ (Out SendShutdown ∉ log) /\ (Out SetReady ∉ log).

(** A run whose setup succeeded goes on with the loop; another ends there. *)
Lemma run_cases su value inputs :
  (exists setup, setup_log setup /\ run su value inputs
     = let '(acts, st) := begin_iteration value false in
       let '(log, st') := main_loop {| lease_value := value; is_leader := value;
                                       shutdown := false |} inputs in
       ((setup ++ (Out <$> acts)) ++ log, st'))
  \/ (exists log st, setup_log log /\ (st = SetupFailed \/ st = SetupPanicked)
      /\ run su value inputs = (log, st)).
Proof.
  assert (Hlog : forall acts, (forall n, StartControllers n ∉ acts) -> StopControllers ∉ acts ->
    SendShutdown ∉ acts -> SetReady ∉ acts -> setup_log (Out <$> acts)).
  { intros acts Hstart Hstop Hsend Hready. split; [|split].
    - clear Hsend Hready. induction acts as [|a acts IH]; [done|].
      assert (Hrest : controllers_run false (Out <$> acts) = Some false) by set_solver.
      simpl. destruct a; try done; exfalso; [by eapply Hstart; left|by apply Hstop; left].
    - intros (a & [=<-] & Ha)%list_elem_of_fmap. done.
    - intros (a & [=<-] & Ha)%list_elem_of_fmap. done. }
  unfold run. destruct (su_tls su) as [tls|]; cycle 1.
  { right. exists [], SetupFailed. split; [|auto]. split; [done|]. set_solver. }
  destruct (su_lease_manager su); simpl negb; cbv iota;
    [|right; eexists _, SetupFailed; split; [|by auto]; apply Hlog; set_solver].
  destruct (su_signals su); simpl negb; cbv iota;
    [|right; eexists _, SetupPanicked; split; [|by auto]; apply Hlog; set_solver].
  destruct (su_utils_web su); simpl negb; cbv iota;
    [|right; eexists _, SetupPanicked; split; [|by auto]; apply Hlog; set_solver].
  destruct (su_hooks_web su); simpl negb; cbv iota;
    [|right; eexists _, SetupPanicked; split; [|by auto]; apply Hlog; set_solver].
  left. eexists. split; [|unfold begin_iteration; cbv iota beta; rewrite fmap_app; reflexivity].
  apply Hlog; set_solver.
Qed.

(** C32. Controllers follow leadership: at every moment of a run, whatever
    lease values and signals have arrived, starts and stops of the leader's
    controllers alternate; while the process watches, they run exactly when
    the last lease value says that it is the leader; when it has returned
    they are stopped, and dropping the lease and joining the other tasks were
    its last acts; and a setup that fails or panics never started them. *)
Theorem controllers_follow_leadership su value inputs :
  match run su value inputs with
  | (log, Watching _) => controllers_run false log = Some (last_lease value inputs)
  | (log, Finished) => controllers_run false log = Some false
      /\ exists log0, log = log0 ++ [Out DropLeaseChannel; Out JoinTasks]
  | (log, (SetupFailed | SetupPanicked)) => controllers_run false log = Some false
      /\ (Out SetReady ∉ log)
  end.
Proof.
  destruct (run_cases su value inputs) as [(setup & (Hsetup & _) & ->)
    |(log & st & (Hrun & _ & Hready) & [-> | ->] & ->)]; [|done..].
  unfold begin_iteration. set (l := {| lease_value := value |}).
  pose proof (main_loop_ok l value
    (setup ++ (Out <$> (if value then [StartControllers (schedule_parallelism cfg)] else [])
      ++ [SetReady])) inputs) as Hok.
  destruct (main_loop l inputs) as [log st]. simpl in Hok.
  destruct st; simpl in *; (first [apply Hok|exfalso; apply Hok]); (split; [|done]);
    rewrite controllers_run_app, Hsetup; by destruct value.
Qed.

Definition is_signal (i : Input) : bool :=
  match i with SignalReceived _ => true | _ => false end.

(** The lease channel delivers no value after it has closed. *)
Fixpoint closes_last (inputs : list Input) : bool :=
  match inputs with
  | [] => true
  | LeaseClosed :: inputs =>
      forallb (fun i => match i with LeaseValue _ => false | _ => true end) inputs
  | _ :: inputs => closes_last inputs
  end.

Definition no_values (inputs : list Input) : bool :=
  forallb (fun i => match i with LeaseValue _ => false | _ => true end) inputs.

Lemma main_loop_signals l inputs :
  closes_last inputs = true -> (shutdown l = true -> no_values inputs = true) ->
  match main_loop l inputs with
  | (log, Watching l') => existsb is_signal inputs = false
      /\ shutdown l' = shutdown l || existsb (fun i => if i is LeaseClosed then true else false) inputs
      /\ (Out SendShutdown ∉ log)
  | (log, Finished) => existsb is_signal inputs = true /\ Out SendShutdown ∈ log
  | (_, (SetupFailed | SetupPanicked)) => False
  end.
Proof.
  revert l. induction inputs as [|i inputs IH]; intros l Hcl Hsh.
  { simpl. rewrite orb_false_r. split; [done|]. split; [done|set_solver]. }
  assert (Hrec : forall l' acts, on_input l i = (acts, Watching l') -> i <> LeaseClosed ->
    is_signal i = false -> shutdown l' = shutdown l -> SendShutdown ∉ acts ->
    match main_loop l (i :: inputs) with
    | (log, Watching l') => existsb is_signal (i :: inputs) = false
        /\ shutdown l' = shutdown l
           || existsb (fun i => if i is LeaseClosed then true else false) (i :: inputs)
        /\ (Out SendShutdown ∉ log)
    | (log, Finished) => existsb is_signal (i :: inputs) = true /\ Out SendShutdown ∈ log
    | (_, (SetupFailed | SetupPanicked)) => False
    end).
  { intros l' acts Hon Hi Hsig Hl' Hacts. simpl main_loop. rewrite Hon.
    assert (Hcl' : closes_last inputs = true) by by destruct i.
    assert (Hsh' : shutdown l' = true -> no_values inputs = true).
    { intros Hs. rewrite Hl' in Hs. apply Hsh in Hs. simpl in Hs. by destruct i. }
    specialize (IH l' Hcl' Hsh'). destruct (main_loop l' inputs) as [log st].
    simpl existsb. rewrite Hsig. destruct st as [l''| | |]; [|set_solver|done..].
    destruct IH as (H1 & H2 & H3). split; [done|]. split.
    - rewrite H2, Hl'. by destruct i.
    - simpl. rewrite elem_of_cons, elem_of_app.
      intros [?|[(a & [=<-] & Ha)%list_elem_of_fmap|?]]; done. }
  destruct i as [sig|v|].
  - simpl. destruct (is_leader l); simpl; set_solver.
  - destruct (shutdown l) eqn:Hs; [by specialize (Hsh eq_refl)|].
    destruct (Bool.eqb v (is_leader l)) eqn:He.
    + apply (Hrec {| lease_value := v; is_leader := is_leader l; shutdown := false |} []);
        try done; [|set_solver]. simpl. by rewrite He, Hs.
    + apply (Hrec {| lease_value := v; is_leader := v; shutdown := false |}
        ((if is_leader l then [StopControllers] else [])
         ++ (if v then [StartControllers (schedule_parallelism cfg)] else []) ++ [SetReady]));
        try done; [|destruct (is_leader l), v; set_solver].
      simpl. rewrite He. unfold end_select. simpl. by rewrite Hs.
  - simpl main_loop. simpl in Hcl.
    assert (Hcl' : closes_last inputs = true).
    { clear -Hcl. by induction inputs as [|[]]; simpl in *; auto. }
    specialize (IH {| lease_value := lease_value l; is_leader := is_leader l; shutdown := true |}
      Hcl' (fun _ => Hcl)).
    destruct (main_loop _ inputs) as [log st]. simpl in *.
    destruct st as [l'| | |]; [|set_solver|done..]. destruct IH as (H1 & H2 & H3).
    split; [done|]. split; [by rewrite H2, orb_true_r|set_solver].
Qed.

(** C33. Only a signal ends the process: with a lease channel that is silent
    after it closed, the run returns, after having sent the shutdown to the
    other tasks, exactly when a signal was received.  In particular the end
    of the lease channel does not end it: the code decides to shut down
    ([shutdown] is set), but the loop it is in waits for a different lease
    value, which can no longer come, so the process keeps polling the closed
    channel and keeps its controllers. *)
Theorem only_signals_shut_down su value inputs :
  closes_last inputs = true ->
  match run su value inputs with
  | (log, Watching l) => existsb is_signal inputs = false /\ (Out SendShutdown ∉ log)
      /\ shutdown l = existsb (fun i => if i is LeaseClosed then true else false) inputs
  | (log, Finished) => existsb is_signal inputs = true /\ Out SendShutdown ∈ log
  | (log, (SetupFailed | SetupPanicked)) => Out SendShutdown ∉ log
  end.
Proof.
  intros Hcl. destruct (run_cases su value inputs) as [(setup & (_ & Hsetup & _) & ->)
    |(log & st & (_ & Hlog & _) & [-> | ->] & ->)]; [|done..].
  unfold begin_iteration. set (l := {| lease_value := value |}).
  pose proof (main_loop_signals l inputs Hcl) as Hloop.
  destruct (main_loop l inputs) as [log st].
  destruct st as [l'| | |]; simpl in Hloop.
  - destruct Hloop as (H1 & H2 & H3); [done|]. split; [done|]. split; [|done].
    rewrite !elem_of_app. intros [[?|(a & [=<-] & Ha)%list_elem_of_fmap]|?]; [done| |done].
    destruct value; set_solver.
  - destruct Hloop as (H1 & H2); [done|]. split; [done|]. set_solver.
  - by destruct Hloop.
  - by destruct Hloop.
Qed.

(** ** With the web server that the code builds *)

Section as_built.
Context `{Ext} `{!Router} `{!RouterLaws}.

(** Whether [build_hooks_web] returns. *)
Definition hooks_built (o : services) : bool :=
  match (build_hooks_web o [] []).1.1 with Ret _ => true | Panic => false end.

(** C34. The process as it is built never gets ready: [build_hooks_web] panics
    on its own routes, in the main task, before the loop is entered; so for
    every command line and whatever the other steps of the setup answer, the
    run ends in its setup, no controllers are ever started and readiness is
    never declared. *)
Theorem process_never_ready o su value inputs :
  su_hooks_web su = hooks_built o ->
  let '(log, st) := run su value inputs in
  (st = SetupFailed \/ st = SetupPanicked)
  /\ (Out SetReady ∉ log) /\ controllers_run false log = Some false.
Proof.
  intros Hbuilt.
  assert (Hpanic : su_hooks_web su = false).
  { rewrite Hbuilt. unfold hooks_built, build_hooks_web, hooks_router, route, bind, get.
    by rewrite colon_refused. }
  destruct (run_cases su value inputs) as [(setup & _ & Hrun)
    |(log & st & (Hrun & _ & Hready) & Hst & ->)]; [|done].
  exfalso. unfold run in Hrun. rewrite Hpanic in Hrun. unfold begin_iteration in Hrun.
  destruct (main_loop {| lease_value := value |} inputs) as [log st'] eqn:Hloop.
  assert (Hst : st' <> SetupFailed /\ st' <> SetupPanicked).
  { assert (Hstart : standing_ok value (if value then [Out (StartControllers 0)] else [])
      (Watching {| lease_value := value; is_leader := value; shutdown := false |})).
    { by destruct value. }
    pose proof (main_loop_ok _ _ _ inputs Hstart) as Hok. rewrite Hloop in Hok.
    by destruct st'. }
  destruct Hst as [Hne1 Hne2].
  repeat (case_match; simplify_eq).
Qed.
End as_built.
End Runner.

(** ** Examples *)

Example follows_the_lease :
  main_loop CliConfig_default {| lease_value := false; is_leader := false; shutdown := false |}
    [LeaseValue true; LeaseValue true; LeaseValue false; SignalReceived TERM]
  = ([In (LeaseValue true); Out (StartControllers 16); Out SetReady;
      In (LeaseValue true);
      In (LeaseValue false); Out StopControllers; Out SetReady;
      In (SignalReceived TERM); Out SendShutdown; Out DropLeaseChannel; Out JoinTasks], Finished).
Proof. reflexivity. Qed.

(** A setup in which every step succeeds. *)
Definition good_setup : Setup := {|
  su_tls := Some false; su_lease_manager := true; su_signals := true; su_utils_web := true;
  su_hooks_web := true |}.

Lemma only_signals_shut_down_witness :
  closes_last [LeaseValue true; LeaseClosed] = true /\
  match run CliConfig_default good_setup false [LeaseValue true; LeaseClosed] with
  | (log, Watching l) => (Out SendShutdown ∉ log) /\ shutdown l = true
  | _ => False
  end.
Proof.
  split; [reflexivity|].
  pose proof (only_signals_shut_down CliConfig_default good_setup false [LeaseValue true; LeaseClosed]
    eq_refl) as Hrun.
  destruct (run _ _ _ _) as [log [l| | |]] eqn:Heq; [|by destruct Hrun|done..].
  by destruct Hrun as (_ & ? & ->).
Defined.

#[local] Existing Instance example_ext.

Lemma process_never_ready_witness :
  let su := {| su_tls := Some false; su_lease_manager := true; su_signals := true;
               su_utils_web := true; su_hooks_web := false |} in
  let '(log, st) := run CliConfig_default su true [SignalReceived TERM] in
  (st = SetupFailed \/ st = SetupPanicked)
  /\ (Out SetReady ∉ log) /\ controllers_run false log = Some false.
Proof.
  exact (process_never_ready CliConfig_default (quiet_services 0%Z RuntimeConfig_default)
    {| su_tls := Some false; su_lease_manager := true; su_signals := true;
       su_utils_web := true; su_hooks_web := false |} true [SignalReceived TERM] eq_refl).
Defined.
