(* ===== verification/Tracing.v ===== *)
(** * Logging and tracing (src/src/bin/git-events-runner.rs)

    [setup_tracing] with its parts, the first thing that [run] does, and the
    shutdown of the trace provider, the last one.  What the environment and
    the libraries answer is a record; the events themselves are not part of
    the model. *)

From stdpp Require Import base option strings list.
From Stdlib Require Import ZArith.
From S2P Require Import Prelude Strs Time Errors Config Ext Resources World RateLimit Cli WebServer Runner.
Local Open Scope string_scope.
Local Open Scope list_scope.

Definition OPENTELEMETRY_ENDPOINT_URL_ENV_NAME : string := "OPENTELEMETRY_ENDPOINT_URL".
Definition CARGO_PKG_NAME : string := "git-events-runner".

(** The environment variables, whether a text is a filter and an endpoint
    makes an exporter, whether the process has a global subscriber already,
    and whether the provider shuts down without an error. *)
Record TracingEnv := {
  te_var : string -> option string;
  te_filter_ok : string -> bool;
  te_exporter_ok : string -> bool;
  te_global_set : bool;
  te_shutdown_ok : bool }.

(** The layers of the collector. *)
Inductive LogLayer : Type :=
| JsonLayer (target flatten_event span_list current_span : bool)
| CompactLayer (target : bool)
| FilterLayer (directives : string)
| TelemetryLayer (tracer : string).

Record TraceProvider := {
  tp_endpoint : string;
  tp_service_name : string }.

Section Tracing.
Context (env : TracingEnv).

(** [EnvFilter::try_from_default_env]: the text of [RUST_LOG], if it is a
    filter. *)
Definition env_filter_from_default_env : option string :=
  directives ← te_var env "RUST_LOG";
  if te_filter_ok env directives then Some directives else None.

Definition get_logger_layer (json_logs : bool) : LogLayer :=
  if json_logs then JsonLayer true true false false else CompactLayer true.

Definition get_trace_provider : outcome (option TraceProvider) :=
  match te_var env OPENTELEMETRY_ENDPOINT_URL_ENV_NAME with
  | Some otlp_endpoint =>
      if te_exporter_ok env otlp_endpoint
      then Ret (Some {| tp_endpoint := otlp_endpoint; tp_service_name := CARGO_PKG_NAME |})
      else Panic
  | None => Ret None
  end.

(** The provider that is returned, and the layers of the global collector. *)
Definition setup_tracing (json_logs : bool) : outcome (option TraceProvider * list LogLayer) :=
  let env_filter := match env_filter_from_default_env with
    | Some directives => Some directives
    | None => if te_filter_ok env "info" then Some "info" else None
    end in
  match env_filter with
  | None => Panic
  | Some directives =>
      let collector := [get_logger_layer json_logs; FilterLayer directives] in
      match get_trace_provider with
      | Panic => Panic
      | Ret trace_provider =>
          let collector := match trace_provider with
            | Some _ => collector ++ [TelemetryLayer CARGO_PKG_NAME]
            | None => collector
            end in
          if te_global_set env then Panic else Ret (trace_provider, collector)
      end
  end.

(** [run] from its first line to its last: nothing else happens when the
    tracing cannot be set up, and the provider is shut down after everything
    else; its error is the error of the process. *)
Definition run_traced (cfg : CliConfig) (su : Setup) (value : bool) (inputs : list Input)
    : list Entry * Standing * result unit unit :=
  match setup_tracing (json_logs cfg) with
  | Panic => ([], SetupPanicked, Ok tt)
  | Ret (trace_provider, _) =>
      let '(log, st) := run cfg su value inputs in
      match st, trace_provider with
      | Finished, Some _ => (log, st, if te_shutdown_ok env then Ok tt else Err tt)
      | _, _ => (log, st, Ok tt)
      end
  end.

(** ** Theorems *)

(** Setting up the tracing fails exactly for an endpoint that makes no
    exporter or a second subscriber: a missing or malformed [RUST_LOG] falls
    back to [info].  The collector has one format layer, as the flag says,
    the filter, and telemetry when an endpoint is given. *)
Theorem setup_tracing_spec json_logs :
  te_filter_ok env "info" = true ->
  match setup_tracing json_logs with
  | Panic => te_global_set env = true
      \/ exists url, te_var env "OPENTELEMETRY_ENDPOINT_URL" = Some url
           /\ te_exporter_ok env url = false
  | Ret (trace_provider, collector) =>
      tp_endpoint <$> trace_provider = te_var env "OPENTELEMETRY_ENDPOINT_URL"
      /\ exists directives, te_filter_ok env directives = true
           /\ (directives = "info" \/ te_var env "RUST_LOG" = Some directives)
           /\ collector = [if json_logs then JsonLayer true true false false
                           else CompactLayer true; FilterLayer directives]
                ++ (if trace_provider is Some _ then [TelemetryLayer "git-events-runner"] else [])
  end.
Proof.
  intros Hinfo. unfold setup_tracing.
  assert (Hfilter : exists directives, te_filter_ok env directives = true
    /\ (directives = "info" \/ te_var env "RUST_LOG" = Some directives)
    /\ match env_filter_from_default_env with
       | Some directives => Some directives
       | None => if te_filter_ok env "info" then Some "info" else None
       end = Some directives).
  { rewrite Hinfo. unfold env_filter_from_default_env.
    destruct (te_var env "RUST_LOG") as [d|]; simpl; [|by exists "info"; auto].
    destruct (te_filter_ok env d) eqn:Hd; [exists d|exists "info"]; auto. }
  destruct Hfilter as (directives & Hok & Horigin & ->). unfold get_trace_provider.
  change OPENTELEMETRY_ENDPOINT_URL_ENV_NAME with "OPENTELEMETRY_ENDPOINT_URL".
  destruct (te_var env "OPENTELEMETRY_ENDPOINT_URL") as [url|].
  - destruct (te_exporter_ok env url) eqn:Hurl; [|right; eauto].
    destruct (te_global_set env); [by left|]. split; [done|]. by exists directives.
  - destruct (te_global_set env); [by left|]. split; [done|]. by exists directives.
Qed.

(** Tracing does not change what the process does: its log and standing are
    those of [run], unless it panicked before the first of them. *)
Theorem run_traced_log cfg su value inputs :
  let '(log, st, ended) := run_traced cfg su value inputs in
  ((log, st) = run cfg su value inputs \/ (log, st) = ([], SetupPanicked))
  /\ (ended = Err tt -> st = Finished /\ te_shutdown_ok env = false).
Proof.
  unfold run_traced. destruct (setup_tracing (json_logs cfg)) as [[provider layers]|]; [|by split; [right|]].
  destruct (run cfg su value inputs) as [log [l| | |]]; destruct provider; try (by split; [left|]).
  destruct (te_shutdown_ok env); by split; [left|].
Qed.
End Tracing.
