(* ===== verification/Main.v ===== *)
(** * The commands of the controller's binary (src/src/bin/git-events-runner.rs, src/src/cli.rs)

    [main]: the command line with its cell, and the three commands - printing
    the resource definitions, printing the default configuration, running
    the controller. *)

From stdpp Require Import base option gmap sets strings list.
From Stdlib Require Import ZArith Lia.
From S2P Require Import Prelude Strs Time Errors Config Ext Resources World Crds RateLimit Cli Cache WebServer Runner Tracing.
Local Open Scope string_scope.
Local Open Scope list_scope.

(** ** The command line *)

Inductive Cli : Type :=
| Crds
| ConfigDump (helm_template : bool)
| Run (config : CliConfig).

Section commands.
Context `{Ext}.
Local Open Scope prog_scope.

(** [Cli::new] after clap's parser; the state is the [CLI_CONFIG] cell. *)
Definition Cli_new (cli : Cli) : io (option CliConfig) Cli :=
  match cli with
  | Run config =>
      cell <-- get ;;
      match cell with
      | None => put (Some config) ;;; ret (Run config)
      | Some _ => panic
      end
  | cli => ret cli
  end.

(** [CliConfig::get] *)
Definition CliConfig_get : io (option CliConfig) CliConfig :=
  cell <-- get ;; unwrap cell.

(** ** Resource definitions *)

Definition newline : Ascii.ascii := Ascii.ascii_of_nat 10.

(** [generate_crds]: what is printed; [crd_yaml] serialises a definition with
    its schema. *)
Context (crd_yaml : Crd -> result string string).

Fixpoint print_crds (crds : list Crd) : outcome string :=
  match crds with
  | [] => Ret EmptyString
  | crd :: crds =>
      match crd_yaml crd, print_crds crds with
      | Ok yaml, Ret rest => Ret ("---" ^^ String newline yaml ^^ rest)
      | _, _ => Panic
      end
  end.

Definition generate_crds : outcome string := print_crds get_all_crds.

(** ** The default configuration *)

Context (to_yaml : RuntimeConfig -> result string string).

Definition generate_config_yaml (helm_template : bool) : result Error string :=
  let opts := if helm_template then HelmTemplate else Raw in
  default_as_yaml_string to_yaml opts.

(** ** The process *)

Inductive process_end : Type :=
| Printed (text : string)
| Failed
| Panicked
| Running (log : list Entry) (st : Standing) (ended : result unit unit).

Context (env : TracingEnv).

(** [main]: [provider] whether the crypto provider was installed, [cli] what
    clap parsed, [client] whether a client could be made, then the
    parameters of [run]. *)
Definition main (provider : bool) (cli : Cli) (client : bool) (su : Setup) (value : bool)
    (inputs : list Input) : io (option CliConfig) process_end :=
  if negb provider then panic else
  cli <-- Cli_new cli ;;
  match cli with
  | Crds => match generate_crds with Ret text => ret (Printed text) | Panic => panic end
  | ConfigDump helm_template =>
      match generate_config_yaml helm_template with
      | Ok text => ret (Printed text)
      | Err _ => ret Failed
      end
  | Run cli_config =>
      if client then
        let '(log, st, ended) := run_traced env cli_config su value inputs in
        ret (Running log st ended)
      else ret Failed
  end.
End commands.

(** ** Theorems *)

Section commands_facts.
Context `{Ext}.
Context (crd_yaml : Crd -> result string string).
Context (to_yaml : RuntimeConfig -> result string string).
Context (env : TracingEnv).
Context (from_yaml : string -> result string RuntimeConfig).
Implicit Types (o : services) (t : trace).

(** The commands: with the provider installed, a fresh process prints the
    six definitions in order for [crds], the default configuration (or its
    Helm form) for [config], and runs the controller with the parsed options
    for [run] - the only command that sets the shared command line, which
    every later [CliConfig::get] then answers; no command panics but [crds]
    on a definition that cannot be serialised. *)
Theorem main_spec cli client su value inputs o t :
  wp (main crd_yaml to_yaml env true cli client su value inputs) o None t (fun r cell t' => t' = t /\
    match cli with
    | Crds => cell = None /\ r = match generate_crds crd_yaml with
                                 | Ret text => Ret (Printed text)
                                 | Panic => Panic
                                 end
    | ConfigDump helm_template => cell = None
        /\ r = Ret (match to_yaml (if helm_template then helm_template_config
                                   else RuntimeConfig_default) with
                    | Ok text => Printed text
                    | Err _ => Failed
                    end)
    | Run config => cell = Some config
        /\ r = Ret (if client then let '(log, st, ended) := run_traced env config su value inputs in
                                         Running log st ended
                    else Failed)
        /\ forall o' t', wp CliConfig_get o' cell t' (fun r _ _ => r = Ret config)
    end).
Proof.
  unfold main. simpl negb. cbv iota. destruct cli as [|helm|config]; unfold Cli_new; wp_step; wp_step.
  - destruct (generate_crds crd_yaml); by wp_step.
  - unfold generate_config_yaml, default_as_yaml_string.
    destruct helm; simpl; destruct (to_yaml _); simpl; by wp_step.
  - assert (Hget : forall o' t',
      wp CliConfig_get o' (Some config) t' (fun r _ _ => r = Ret config)).
    { intros o' t'. unfold CliConfig_get. do 2 wp_step. by wp_step. }
    wp_step. wp_step. wp_step. wp_step. destruct client; [|by wp_step].
    destruct (run_traced env config su value inputs) as [[log st] ended]. by wp_step.
Qed.

(** What [config] prints is a configuration: for a YAML writer whose
    output its reader takes back, the printed text, put under the key of the
    ConfigMap, loads as exactly the default configuration (or its Helm form)
    and is then what the program uses. *)
Theorem printed_config_loads helm_template text cm current :
  (forall c s, to_yaml c = Ok s -> from_yaml s = Ok c) ->
  generate_config_yaml to_yaml helm_template = Ok text ->
  named (Ok cm) -> unwrap_or ∅ (cm_data cm) !! CONFIG_MAP_DATA_NAME = Some text ->
  on_config_map from_yaml current (Ok cm)
  = Ret (if helm_template then helm_template_config else RuntimeConfig_default).
Proof.
  intros Hyaml Htext Hnamed Hcm. rewrite on_config_map_named by done.
  unfold valid_config, try_from_config_map. rewrite Hcm.
  unfold generate_config_yaml, default_as_yaml_string in Htext.
  destruct helm_template; simpl in Htext; (destruct (to_yaml _) eqn:Hto; [|done]);
    injection Htext as <-; by rewrite (Hyaml _ _ Hto).
Qed.
End commands_facts.

(** A writer of one document that the reader takes back. *)
Lemma printed_config_loads_witness :
  let to_yaml := fun c => if decide (c = helm_template_config) then Ok "good" else Err "no" in
  on_config_map example_yaml RuntimeConfig_default (Ok (example_cm "good"))
  = Ret helm_template_config.
Proof.
  intros to_yaml.
  refine (printed_config_loads to_yaml example_yaml true "good" (example_cm "good")
    RuntimeConfig_default _ eq_refl _ eq_refl).
  - intros c s. unfold to_yaml. case_decide as Hc; [rewrite Hc|done]. by intros [= <-].
  - split; by eexists.
Defined.
